(* ===== verification/_CoqProject ===== *)
-Q . S2P
Prelude.v
Utils.v
Bits.v
Floats.v
PriorityQueue.v
Market.v
ThreadRequests.v
Ranges.v
Partitioner.v
TaskTree.v
ParallelFor.v
ParallelReduce.v
ParallelScan.v
MirrorPartition.v
ParallelSort.v
TaskPool.v
Unordered.v
Monitor.v
RwMutex.v
Aggregator.v
Malloc.v
Slab.v
InputBuffer.v
Pipeline.v
PipelineTheorems.v
PipelineCancel.v
MicroQueue.v
ConcurrentQueue.v
BoundedQueue.v
HashMap.v
HashMapTheorems.v
CallOnce.v
