(* ===== verification/Prelude.v ===== *)
(** * oneTBB: a verification library

    A model of the algorithms, containers, scheduler and allocator of oneTBB (the
    sources under src/) with theorems that they are correct.  Names of files below
    are those of the repository; T/ stands for include/oneapi/tbb/.

    ** The parts of the program and the files that model them

    - Arithmetic.  [Utils] (comparisons and clamps of the library), [Bits]
      (T/detail/_machine.h, T/detail/_utils.h: logarithm, reversal of bits,
      alignment, encoding of core types), [Floats] (rounding of the [float] and
      [double] arithmetic that the ranges use).
    - Parallel algorithms.  [Ranges] (T/blocked_range*.h: splitting), [Partitioner]
      (T/partitioner.h: the range pool, the four partitioners and their loops),
      [TaskTree] (reference counts of the tree of tasks), [ParallelFor],
      [ParallelReduce], [ParallelScan] (T/parallel_scan.h), [MirrorPartition]
      (T/detail/_parallel_partition.h), [ParallelSort], [InputBuffer], [Pipeline],
      [PipelineTheorems] and [PipelineCancel] (src/tbb/parallel_pipeline.cpp).  The algorithms are proved against the class
      [RangeOps]/[RangeLaws] of [Ranges], and the pipeline against the class
      [Buffer] of [InputBuffer], which a circular array and a map implement.
    - Containers.  [PriorityQueue] (T/concurrent_priority_queue.h, one batch of
      operations) and [Aggregator] (T/detail/_aggregator.h, the threads that make
      the batches); [Unordered] (T/detail/_concurrent_unordered_base.h, the
      split-ordered list); [MicroQueue], [ConcurrentQueue] and [BoundedQueue]
      (T/detail/_concurrent_queue_base.h, T/concurrent_queue.h,
      src/tbb/concurrent_bounded_queue.cpp); [HashMap] and [HashMapTheorems]
      (T/concurrent_hash_map.h).
    - Synchronization.  [Monitor] (src/tbb/concurrent_monitor.h,
      src/tbb/address_waiter.cpp), [RwMutex] (T/spin_rw_mutex.h, T/rw_mutex.h) and
      [CallOnce] (T/collaborative_call_once.h).
    - Scheduler.  [TaskPool] (src/tbb/arena_slot.h and .cpp, the deque of a slot),
      [Market] (src/tbb/market.cpp, src/tbb/pm_client.h, the demand of
      src/tbb/arena.cpp), [ThreadRequests] (src/tbb/thread_request_serializer.cpp).
    - Memory allocator.  [Malloc] (size classes and aligned objects of
      src/tbbmalloc/frontend.cpp) and [Slab] (blocks, mailboxes and orphaned blocks
      of the same file).

    Definitions keep the names of the code, and the comments of each file name the
    functions that it models.

    ** How code becomes definitions

    A function without side effects is a function.  Sequential code with a state
    is a function on a record of the data members, with [None] for undefined
    behaviour: an access out of bounds, a failed assertion, a freed object.  So a
    theorem that an operation returns [Some] includes that it is safe.  Integers
    are [Z]; they are reduced to their width where the code can overflow and are
    bounded by a hypothesis or unbounded where the comment of the file says why.

    Concurrent code is a state with one program point for each thread and a
    function [next] that makes one access to shared memory of one thread; a
    relation [step] chooses the thread, and the requests of the users, at will.
    Invariants are proved by induction on [rtc step].  The memory is sequentially
    consistent: a weaker order in the source is one that the library argues to be
    enough, and this argument is not part of the models.  Sections under a lock
    that no other thread can observe are one step.  Ghost fields (logs, values by
    ticket) record the history that a theorem speaks about and never influence a
    step.  Code of the user (bodies, comparators, hash functions, iterators) and
    the allocators are parameters, with their documented requirements as
    hypotheses or classes.

    ** What the theorems show

    - Algorithms: each element of a range is processed exactly once, by any
      partitioner and under any stealing; the tasks end; a reduction gives the
      value of the sequential one for an associative operation, and a scan the
      prefixes of the sequential one; the array is sorted, the partition is a partition; each item of a pipeline passes each
      filter once, in order where the filter is serial in order, with at most the
      given number of items in flight; a cancelled pipeline finalizes every item
      that has not left it, except those in its buffers; the waiting thread is
      released once.
    - Containers: the concurrent priority queue, the unordered containers, the hash
      map and the concurrent queue are linearizable with respect to a sequential
      specification; the hash map uses no deleted item and its locks do not
      deadlock; the bounded queue neither loses an item nor deadlocks, at a
      capacity of at least one, as long as nothing is aborted.
    - Synchronization: readers and writers exclude each other, and no notification
      is lost: a thread does not sleep when its condition holds and nobody is on
      the way to wake it up; with at most 128 threads collaborative_call_once calls
      its function once and uses no runner that was destroyed.
    - Scheduler: a spawned task is executed exactly once, by the owner or by a
      thief; workers are distributed up to the limit and the demand; requests for
      threads are conserved.
    - Allocator: the size classes fit their requests, and objects of a slab that
      are in use are disjoint and are reused only after they were freed.
    - Some theorems show where the code does not do what it means to; their
      comments say what goes wrong.

    ** Bounds and fuel

    Loops that are not structural either have a measure, or run with a fuel that a
    theorem shows to be enough: the splits of a range are bounded by its size, the
    search for a token by the size of the array, a batch by its length.  Witnesses
    evaluate the models on small inputs (up to four threads, arrays of a few dozen
    elements); the theorems have no such bounds.

    Some theorems hold within bounds that the code relies on and does not check.
    They are hypotheses of the theorems, and beyond each of them a theorem shows
    what happens:
    - [Unordered]: at most [2 ^ 62] nodes per unit of the maximal load factor
      ([within_load]); with the factor 0 the number of buckets wraps to 0
      ([zero_load_factor_divides_by_zero]).
    - [ThreadRequests]: the pending demand fits in 16 bits and the total in an [int]
      ([fits]); a demand of [2 ^ 15] is taken for a withdrawal
      ([large_request_inverted]).
    - [Market]: the products of demand and limit fit in an [int] ([no_overflow]);
      with 50,000 workers they do not ([allotment_overflows]).
    - [ConcurrentQueue]: no allocation of a page throws ([allocating_step]); after
      one has, a pop reads an invalid page ([pop_reads_invalid_page]).
    - [BoundedQueue]: the capacity is fixed and at least one; at the capacity 0 a
      push and a pop wait for each other ([zero_capacity_deadlock]).
    - [CallOnce]: at most 128 threads; beyond, the count of references overflows.

    ** Not modelled

    - Containers: concurrent_vector, the skip list,
      enumerable_thread_specific and concurrent_lru_cache; the operations of the
      modelled containers that must not run concurrently with others (copies,
      assignment, clear, iterators).
    - The flow graph, parallel_for_each and parallel_invoke.
    - Task groups, contexts, the dispatch loop, task streams and mailboxes: the
      loop depends on thread-local state, time and random victims.
    - Code that only creates threads, loads libraries or calls the operating
      system or hwloc; the composability manager; the hardware transactions of the
      rtm mutexes; notifications of tools; compile-time configuration.
    - The backend and the large objects of the allocator; its replacement of the
      functions of other binaries.
    - Weak memory: see above.
*)

From stdpp Require Import base numbers relations sorting list.
From Stdlib Require Import ZArith Lia.

(** ** Bounds-checked array access

    A [std::vector] or a raw array is a list.  A read or a write outside of it
    is undefined behaviour in the source; here it is [None], so that a theorem
    that an operation returns [Some] also says that it stays in bounds. *)
Definition write {A} (l : list A) (i : nat) (x : A) : option (list A) :=
  if decide (i < length l) then Some (<[i := x]> l) else None.

Definition pop_back {A} (l : list A) : option (list A) :=
  match l with
  | [] => None
  | _ => Some (take (length l - 1) l)
  end.

(** Reduce the binds of the option monad and nothing else. *)
Ltac opt_simpl := cbn [mbind option_bind mret option_ret].

Lemma write_Some {A} (l : list A) i x :
  i < length l → write l i x = Some (<[i := x]> l).
Proof. intros. unfold write. by rewrite decide_True. Qed.

Lemma pop_back_Some {A} (l : list A) :
  0 < length l → pop_back l = Some (take (length l - 1) l).
Proof. destruct l; simpl; [lia | done]. Qed.

(** ** Strict weak orders: what the C++ library requires of a [Compare] *)
Class StrictWeakOrder {T} (lt : T → T → bool) := {
  swo_irrefl x : lt x x = false;
  swo_asym x y : lt x y = true → lt y x = false;
  swo_ge_trans x y z : lt x y = false → lt y z = false → lt x z = false;
}.

(** ** Permutations of updated lists *)
Section perm.
Context {A : Type}.
Implicit Types (l : list A) (x y : A).

(** Overwriting [x] by [y] exchanges the two in the multiset. *)
Lemma insert_hole l i x y :
  l !! i = Some x → x :: <[i := y]> l ≡ₚ y :: l.
Proof.
  revert i. induction l as [|z l IH]; intros [|i] H; simplify_eq/=.
  - by rewrite Permutation_swap.
  - rewrite Permutation_swap, (IH i H). by rewrite Permutation_swap.
Qed.

Lemma NoDup_perm_app l k k' : k ≡ₚ l ++ k' → NoDup k → NoDup l.
Proof. intros E Hk. rewrite E in Hk. by apply NoDup_app in Hk as [? _]. Qed.

Lemma insert_swap l i j x y :
  i ≠ j → l !! i = Some x → l !! j = Some y →
  <[i := y]> (<[j := x]> l) ≡ₚ l.
Proof.
  intros Hij Hi Hj. apply (Permutation_cons_inv (a := x)).
  rewrite insert_hole by by rewrite list_lookup_insert_ne.
  by apply insert_hole.
Qed.

Lemma last_lookup_take l x :
  l !! (length l - 1) = Some x → l = take (length l - 1) l ++ [x].
Proof.
  intros H. rewrite <- (take_drop (length l - 1) l) at 1. f_equal.
  erewrite drop_S by done. f_equal. apply drop_ge.
  apply lookup_lt_Some in H. lia.
Qed.

Lemma insert_last l x :
  0 < length l → <[length l - 1 := x]> l = take (length l - 1) l ++ [x].
Proof.
  destruct l as [|y l _] using rev_ind; simpl; [lia|].
  intros _. rewrite length_app; simpl.
  replace (length l + 1 - 1) with (length l) by lia.
  by rewrite insert_app_r_alt, Nat.sub_diag, take_app_length by lia.
Qed.
End perm.

(** ** A part of a list is replaced *)
Section replaced.
Context {A : Type}.
Implicit Types (l : list A) (x y : A).
Lemma elem_of_part l1 x l2 y : y ∈ l1 ++ x :: l2 ↔ y = x ∨ y ∈ l1 ++ l2.
Proof. rewrite !elem_of_app, elem_of_cons. tauto. Qed.
Lemma elem_of_replaced l1 l l2 y : y ∈ l1 ++ l ++ l2 ↔ y ∈ l ∨ y ∈ l1 ++ l2.
Proof. rewrite !elem_of_app. tauto. Qed.
End replaced.

(** ** Sums of integers over a list *)
Definition zsum {A} (f : A → Z) (l : list A) : Z := foldr (λ x a, f x + a)%Z 0%Z l.
#[global] Arguments zsum : simpl never.

Section zsum.
Context {A : Type} (f g : A → Z).
Local Open Scope Z_scope.

Lemma zsum_nil : zsum f [] = 0.
Proof. done. Qed.
Lemma zsum_cons x l : zsum f (x :: l) = f x + zsum f l.
Proof. done. Qed.
Lemma zsum_app l k : zsum f (l ++ k) = zsum f l + zsum f k.
Proof. induction l as [|x l IH]; simpl; [done|]. rewrite !zsum_cons, IH. lia. Qed.
Lemma zsum_reverse l : zsum f (reverse l) = zsum f l.
Proof.
  induction l as [|x l IH]; [done|].
  rewrite reverse_cons, zsum_app, IH, !zsum_cons, zsum_nil. lia.
Qed.
Lemma zsum_nonneg l : Forall (λ x, 0 ≤ f x) l → 0 ≤ zsum f l.
Proof. induction 1; simpl; [done|]. rewrite zsum_cons. lia. Qed.
Lemma zsum_ext l : Forall (λ x, f x = g x) l → zsum f l = zsum g l.
Proof. induction 1 as [|x l E _ IH]; [done|]. unfold zsum in *. simpl. lia. Qed.
Lemma zsum_insert l i x y :
  l !! i = Some x → zsum f (<[i := y]> l) = zsum f l - f x + f y.
Proof.
  revert i. induction l as [|z l IH]; intros [|i] H; simplify_eq/=.
  - rewrite !zsum_cons. lia.
  - rewrite !zsum_cons, (IH i) by done. lia.
Qed.
Lemma zsum_perm l k : l ≡ₚ k → zsum f l = zsum f k.
Proof. induction 1; rewrite ?zsum_cons in *; lia. Qed.
Lemma zsum_replicate n x : zsum f (replicate n x) = Z.of_nat n * f x.
Proof. induction n as [|n IH]; [done|]. rewrite replicate_S, zsum_cons, IH. lia. Qed.
Lemma zsum_le_length l : (∀ x, f x ≤ 1) → zsum f l ≤ Z.of_nat (length l).
Proof. intros Hf. induction l as [|x l IH]; [done|]. rewrite zsum_cons. specialize (Hf x). simpl. lia. Qed.
Lemma zsum_minus l : zsum (λ x, f x - g x) l = zsum f l - zsum g l.
Proof. induction l as [|x l IH]; [done|]. unfold zsum in *. simpl. lia. Qed.
Lemma zsum_plus l : zsum (λ x, f x + g x) l = zsum f l + zsum g l.
Proof. induction l as [|x l IH]; [done|]. unfold zsum in *. simpl. lia. Qed.
Lemma zsum_member l x : Forall (λ y, 0 ≤ f y) l → x ∈ l → f x ≤ zsum f l.
Proof.
  intros Hl Hx. apply list_elem_of_split in Hx as (l1 & l2 & ->).
  apply Forall_app in Hl as [H1 [Hx H2]%Forall_cons].
  rewrite zsum_app, zsum_cons.
  pose proof (zsum_nonneg _ H1). pose proof (zsum_nonneg _ H2). lia.
Qed.
Lemma zsum_all_zero l : Forall (λ x, f x = 0) l → zsum f l = 0.
Proof. induction 1 as [|x l E _ IH]; [done|]. rewrite zsum_cons. lia. Qed.
Lemma zsum_pos l : 0 < zsum f l → ∃ x, x ∈ l ∧ 0 < f x.
Proof.
  induction l as [|x l IH]; [done|]. rewrite zsum_cons. intros Hpos.
  destruct (decide (0 < f x)); [exists x; split; [constructor|done]|].
  destruct IH as (y & Hy & Hf); [lia|]. exists y. split; [by constructor|done].
Qed.
(** Two members at different positions both count. *)
Lemma zsum_two l (i j : nat) x y :
  (∀ x, 0 ≤ f x) → i ≠ j → l !! i = Some x → l !! j = Some y → f x + f y ≤ zsum f l.
Proof.
  intros Hf. assert (Hm : ∀ k z l, l !! k = Some z → f z ≤ zsum f l).
  { intros k z l' Hk. apply zsum_member; [by apply Forall_forall|by eapply list_elem_of_lookup_2]. }
  revert i j. induction l as [|z l IH]; intros [|i] [|j] Hne Hi Hj; simplify_eq/=; rewrite zsum_cons.
  - specialize (Hm _ _ _ Hj). lia.
  - specialize (Hm _ _ _ Hi). lia.
  - specialize (IH i j ltac:(lia) Hi Hj). pose proof (Hf z). lia.
Qed.
End zsum.

(** ** Lists of lists *)
Lemma mjoin_insert_perm {A B} (f : A → list B) (l : list A) i x y :
  l !! i = Some x → f x ++ mjoin (f <$> <[i := y]> l) ≡ₚ f y ++ mjoin (f <$> l).
Proof.
  revert i. induction l as [|z l IH]; intros [|i] Hi; simplify_eq/=.
  - solve_Permutation.
  - specialize (IH i Hi). rewrite (Permutation_app_swap_app (f x)), IH. solve_Permutation.
Qed.

(** ** Executions of a partial step function *)
Section run_trace.
Context {S A : Type} (f : A → S → option S).

Fixpoint run_trace (l : list A) (s : S) : option S :=
  match l with [] => Some s | a :: l => f a s ≫= run_trace l end.

Lemma run_trace_rtc (R : relation S) l s s' :
  (∀ a s s', f a s = Some s' → R s s') → run_trace l s = Some s' → rtc R s s'.
Proof.
  intros HR. revert s. induction l as [|a l IH]; intros s; simpl; [by intros [= ->]|].
  intros (s1 & E & H)%bind_Some. eapply rtc_l; [by eapply HR|by apply IH].
Qed.
End run_trace.

(** ** Lists of threads

    The threads of a concurrent program are a list of program points; a step
    changes one of them. *)
Lemma omap_insert_perm {A B} (f : A → option B) (l : list A) i x : l !! i = Some x →
  ∃ R, omap f l ≡ₚ option_list (f x) ++ R ∧ ∀ y, omap f (<[i := y]> l) ≡ₚ option_list (f y) ++ R.
Proof.
  intros Hx. exists (omap f (take i l) ++ omap f (drop (S i) l)).
  assert (Hl : ∀ y, omap f (take i l ++ y :: drop (S i) l) ≡ₚ option_list (f y) ++ omap f (take i l) ++ omap f (drop (S i) l)).
  { intros y. rewrite omap_app. simpl. destruct (f y); simpl; solve_Permutation. }
  split; [rewrite <- (take_drop_middle l i x Hx) at 1; apply Hl|]. intros y. rewrite insert_take_drop by (by apply lookup_lt_Some in Hx). apply Hl.
Qed.
Lemma prefix_elem {A} (l l' : list A) x : l `prefix_of` l' → x ∈ l → x ∈ l'.
Proof. intros [k ->] Hx. apply elem_of_app. by left. Qed.
Lemma elem_of_insert_inv {A} (l : list A) i x y : x ∈ <[i := y]> l → x = y ∨ x ∈ l.
Proof.
  intros (j & Hj)%list_elem_of_lookup. apply list_lookup_insert_Some in Hj as [(-> & -> & _)|(_ & Hj)]; [by left|].
  right. by eapply list_elem_of_lookup_2.
Qed.
Lemma elem_of_insert_new {A} (l : list A) i x y : l !! i = Some x → y ∈ <[i := y]> l.
Proof. intros Hx. eapply list_elem_of_lookup_2, list_lookup_insert_eq. by eapply lookup_lt_Some. Qed.
Lemma elem_of_insert_old {A} (l : list A) i x y z : l !! i = Some x → z ∈ l → z = x ∨ z ∈ <[i := y]> l.
Proof.
  intros Hx [j Hj]%list_elem_of_lookup. destruct (decide (i = j)) as [->|]; [left; congruence|right].
  eapply list_elem_of_lookup_2. by rewrite list_lookup_insert_ne.
Qed.

Lemma insert_lookup_inv {A} i j (x y z : A) (l : list A) : l !! i = Some x → <[i := y]> l !! j = Some z →
  (j = i ∧ z = y) ∨ (j ≠ i ∧ l !! j = Some z).
Proof.
  intros Hi Hj. destruct (decide (j = i)) as [-> |].
  - left. rewrite list_lookup_insert_eq in Hj by (by eapply lookup_lt_Some). by simplify_eq.
  - right. by rewrite list_lookup_insert_ne in Hj.
Qed.
Lemma insert_lookup_new {A} i (x y : A) (l : list A) : l !! i = Some x → <[i := y]> l !! i = Some y.
Proof. intros Hi. apply list_lookup_insert_eq. by eapply lookup_lt_Some. Qed.
Create HintDb threads.
#[export] Hint Resolve elem_of_insert_new list_elem_of_lookup_2 prefix_elem : threads.
