(* ===== verification/Utils.v ===== *)
(** * Small helpers of include/oneapi/tbb/detail/_utils.h *)

From stdpp Require Import base numbers sorting list.
From Stdlib Require Import ZArith Lia.
From S2P Require Import Prelude.

Local Open Scope Z_scope.

(** [clamp(value, lower_bound, upper_bound)] *)
Definition clamp (value lower_bound upper_bound : Z) : Z :=
  if value >? lower_bound then
    if value >? upper_bound then upper_bound else value
  else lower_bound.

Lemma clamp_spec v lo hi :
  lo ≤ hi → clamp v lo hi = Z.max lo (Z.min v hi).
Proof. unfold clamp. intros. repeat case_match; lia. Qed.
