(* ===== verification/Bits.v ===== *)
(** * Bit operations on machine words

    Source: include/oneapi/tbb/detail/_machine.h (logarithm and reversal of the
    bits of a word) and include/oneapi/tbb/detail/_utils.h (powers of two,
    alignment, the encoding of several core types in one [int]).

    A [w]-bit unsigned integer is a [Z] in [0, 2^w); results are reduced where
    the operation can overflow. *)

From S2P Require Import Prelude.
From stdpp Require Import base numbers sorting list.
From Stdlib Require Import ZArith Lia.
Local Open Scope Z_scope.

Module Bits.

Definition word_bits : Z := 64.
Definition word (x : Z) : Prop := 0 ≤ x < 2 ^ 64.
Definition wrap (x : Z) : Z := x mod 2 ^ 64.

(** ** Logarithm *)

(** [__builtin_clzl] on a non-zero word. *)
Definition clz (x : Z) : Z := word_bits - 1 - Z.log2 x.
Definition machine_log2 (x : Z) : Z := Z.lxor (word_bits - 1) (clz x).

(** ** Reversal of the bits *)

Definition byte_table : list Z := [
  0x00; 0x80; 0x40; 0xC0; 0x20; 0xA0; 0x60; 0xE0; 0x10; 0x90; 0x50; 0xD0; 0x30; 0xB0; 0x70; 0xF0;
  0x08; 0x88; 0x48; 0xC8; 0x28; 0xA8; 0x68; 0xE8; 0x18; 0x98; 0x58; 0xD8; 0x38; 0xB8; 0x78; 0xF8;
  0x04; 0x84; 0x44; 0xC4; 0x24; 0xA4; 0x64; 0xE4; 0x14; 0x94; 0x54; 0xD4; 0x34; 0xB4; 0x74; 0xF4;
  0x0C; 0x8C; 0x4C; 0xCC; 0x2C; 0xAC; 0x6C; 0xEC; 0x1C; 0x9C; 0x5C; 0xDC; 0x3C; 0xBC; 0x7C; 0xFC;
  0x02; 0x82; 0x42; 0xC2; 0x22; 0xA2; 0x62; 0xE2; 0x12; 0x92; 0x52; 0xD2; 0x32; 0xB2; 0x72; 0xF2;
  0x0A; 0x8A; 0x4A; 0xCA; 0x2A; 0xAA; 0x6A; 0xEA; 0x1A; 0x9A; 0x5A; 0xDA; 0x3A; 0xBA; 0x7A; 0xFA;
  0x06; 0x86; 0x46; 0xC6; 0x26; 0xA6; 0x66; 0xE6; 0x16; 0x96; 0x56; 0xD6; 0x36; 0xB6; 0x76; 0xF6;
  0x0E; 0x8E; 0x4E; 0xCE; 0x2E; 0xAE; 0x6E; 0xEE; 0x1E; 0x9E; 0x5E; 0xDE; 0x3E; 0xBE; 0x7E; 0xFE;
  0x01; 0x81; 0x41; 0xC1; 0x21; 0xA1; 0x61; 0xE1; 0x11; 0x91; 0x51; 0xD1; 0x31; 0xB1; 0x71; 0xF1;
  0x09; 0x89; 0x49; 0xC9; 0x29; 0xA9; 0x69; 0xE9; 0x19; 0x99; 0x59; 0xD9; 0x39; 0xB9; 0x79; 0xF9;
  0x05; 0x85; 0x45; 0xC5; 0x25; 0xA5; 0x65; 0xE5; 0x15; 0x95; 0x55; 0xD5; 0x35; 0xB5; 0x75; 0xF5;
  0x0D; 0x8D; 0x4D; 0xCD; 0x2D; 0xAD; 0x6D; 0xED; 0x1D; 0x9D; 0x5D; 0xDD; 0x3D; 0xBD; 0x7D; 0xFD;
  0x03; 0x83; 0x43; 0xC3; 0x23; 0xA3; 0x63; 0xE3; 0x13; 0x93; 0x53; 0xD3; 0x33; 0xB3; 0x73; 0xF3;
  0x0B; 0x8B; 0x4B; 0xCB; 0x2B; 0xAB; 0x6B; 0xEB; 0x1B; 0x9B; 0x5B; 0xDB; 0x3B; 0xBB; 0x7B; 0xFB;
  0x07; 0x87; 0x47; 0xC7; 0x27; 0xA7; 0x67; 0xE7; 0x17; 0x97; 0x57; 0xD7; 0x37; 0xB7; 0x77; 0xF7;
  0x0F; 0x8F; 0x4F; 0xCF; 0x2F; 0xAF; 0x6F; 0xEF; 0x1F; 0x9F; 0x5F; 0xDF; 0x3F; 0xBF; 0x7F; 0xFF ].

Definition reverse_byte (src : Z) : Z := nth (Z.to_nat src) byte_table 0.

(** The bytes of an object in memory, lowest address first (little endian). *)
Fixpoint to_bytes (n : nat) (x : Z) : list Z :=
  match n with
  | O => []
  | S n => x mod 256 :: to_bytes n (x / 256)
  end.
Fixpoint of_bytes (l : list Z) : Z :=
  match l with
  | [] => 0
  | b :: l => b + 256 * of_bytes l
  end.

(** The loop writes [reverse_byte(original[sizeof(T)-i-1])] at every index [i]. *)
Definition machine_reverse_bits (src : Z) : Z :=
  let original := to_bytes 8 src in
  of_bytes ((λ i, reverse_byte (nth (8 - i - 1) original 0)) <$> seq 0 8).
Definition reverse_bits (src : Z) : Z := machine_reverse_bits src.
Definition reverse_n_bits (src n : Z) : Z := Z.shiftr (reverse_bits src) (word_bits - n).

(** ** Powers of two and alignment *)
Definition is_power_of_two (arg : Z) : bool :=
  negb (arg =? 0) && (Z.land arg (wrap (arg - 1)) =? 0).
Definition modulo_power_of_two (arg divisor : Z) : Z := Z.land arg (divisor - 1).
Definition is_aligned (pointer alignment : Z) : bool := Z.land pointer (alignment - 1) =? 0.
Definition align_to_greater_or_equal (arg alignment : Z) : Z :=
  Z.land (wrap (arg + (alignment - 1))) (Z.lnot (alignment - 1)).
Definition align_to_greater (arg alignment : Z) : Z :=
  Z.land (wrap (arg + alignment)) (Z.lnot (alignment - 1)).

(** ** Several core types in one [int] *)

(** An [int] is a [Z]; the bit operations of [Z] are those of two's complement. *)
Definition automatic : Z := -1.
Definition bitmask_width : Z := 4 * 8 - 4.
Definition encoding_format : Z := 0x8.
Definition to_int (x : Z) : Z := (x + 2 ^ 31) mod 2 ^ 32 - 2 ^ 31.

Definition encode (ids : list Z) : Z :=
  match ids with
  | [] => automatic
  | [id] => id
  | _ => foldl (λ result id, Z.lor result (Z.shiftl 1 id))
           (to_int (Z.shiftl encoding_format bitmask_width)) ids
  end.

Definition is_single (id : Z) : bool := Z.shiftr id bitmask_width =? 0.
Definition is_encoded (id : Z) : bool := Z.shiftr (id mod 2 ^ 32) bitmask_width =? encoding_format.
Definition is_core_type (id : Z) : bool := is_single id || is_encoded id.

Definition bit_positions : list Z := Z.of_nat <$> seq 0 (Z.to_nat bitmask_width).
Definition decode (core_type : Z) : list Z :=
  if negb (is_encoded core_type) then [core_type]
  else filter (λ bit_pos, Z.land core_type (Z.shiftl 1 bit_pos) ≠ 0) bit_positions.

(** ** Facts *)
Lemma log2_range x k : 0 < x < 2 ^ k → 0 ≤ Z.log2 x < k.
Proof.
  intros Hx. split; [apply Z.log2_nonneg|]. apply Z.log2_lt_pow2; lia.
Qed.

(** [(P-1) xor y = (P-1) - y] for [y < P], [P] a power of two. *)
Lemma lxor_ones k y : 0 ≤ k → 0 ≤ y < 2 ^ k → Z.lxor (Z.ones k) y = Z.ones k - y.
Proof.
  intros Hk Hy.
  assert (Hl : Z.land y (Z.lxor (Z.ones k) y) = 0).
  { apply Z.bits_inj'. intros i Hi. rewrite Z.land_spec, Z.lxor_spec, Z.bits_0.
    destruct (Z.ltb_spec i k).
    - rewrite Z.ones_spec_low by lia. by destruct (Z.testbit y i).
    - destruct (decide (y = 0)) as [->|]; [by rewrite Z.bits_0|].
      rewrite Z.bits_above_log2; [done|lia|]. pose proof (log2_range y k). lia. }
  pose proof (Z.add_nocarry_lxor _ _ Hl) as Ha.
  rewrite (Z.lxor_comm (Z.ones k) y), <- Z.lxor_assoc, Z.lxor_nilpotent, Z.lxor_0_l in Ha.
  rewrite Z.lxor_comm. lia.
Qed.

Lemma machine_log2_spec x : word x → x ≠ 0 → machine_log2 x = Z.log2 x.
Proof.
  intros [Hx Hb] Hn. unfold machine_log2, clz.
  pose proof (log2_range x 64 ltac:(lia)). change (word_bits - 1) with (Z.ones 6).
  rewrite lxor_ones; change (Z.ones 6) with 63; lia.
Qed.

Lemma of_bytes_range l : Forall (λ b, 0 ≤ b < 256) l → 0 ≤ of_bytes l < 256 ^ Z.of_nat (length l).
Proof.
  induction 1 as [|b l Hb _ IH]; cbn [of_bytes length]; [lia|].
  rewrite Nat2Z.inj_succ, Z.pow_succ_r by lia. lia.
Qed.

Lemma of_bytes_testbit l i :
  Forall (λ b, 0 ≤ b < 256) l → 0 ≤ i →
  Z.testbit (of_bytes l) i = Z.testbit (nth (Z.to_nat (i / 8)) l 0) (i mod 8).
Proof.
  intros Hl. revert i. induction Hl as [|b l Hb _ IH]; intros i Hi; simpl of_bytes.
  { destruct (Z.to_nat (i / 8)); by rewrite !Z.bits_0. }
  destruct (Z.ltb_spec i 8).
  - rewrite Z.div_small, Z.mod_small by lia. simpl.
    rewrite <- (Z.mod_pow2_bits_low (b + 256 * of_bytes l) 8) by lia.
    f_equal. change (2 ^ 8) with 256. rewrite Z.mul_comm, Z_mod_plus_full, Z.mod_small; lia.
  - replace i with (i - 8 + 8) at 1 by lia. rewrite <- Z.div_pow2_bits by lia.
    change (2 ^ 8) with 256. rewrite Z.mul_comm, Z_div_plus_full, Z.div_small, Z.add_0_l by lia.
    rewrite IH by lia. replace i with (i - 8 + 1 * 8) at 3 4 by lia.
    rewrite Z_div_plus_full, Z_mod_plus_full by lia.
    replace (Z.to_nat ((i - 8) / 8 + 1)) with (S (Z.to_nat ((i - 8) / 8))); [done|].
    assert (0 ≤ (i - 8) / 8) by (apply Z.div_pos; lia). lia.
Qed.

Lemma to_bytes_nth n x j :
  0 ≤ x → (j < n)%nat → nth j (to_bytes n x) 0 = (x / 2 ^ (8 * Z.of_nat j)) mod 256.
Proof.
  revert n x. induction j as [|j IH]; intros [|n] x Hx Hj; try lia; simpl nth.
  - by rewrite Z.mul_0_r, Z.pow_0_r, Z.div_1_r.
  - rewrite IH by (lia || (apply Z.div_pos; lia)).
    rewrite Z.div_div by lia. do 2 f_equal. change 256 with (2 ^ 8).
    rewrite <- Z.pow_add_r by lia. f_equal. lia.
Qed.

Lemma reverse_byte_spec b i :
  0 ≤ b < 256 → 0 ≤ i < 8 →
  0 ≤ reverse_byte b < 256 ∧ Z.testbit (reverse_byte b) i = Z.testbit b (7 - i).
Proof.
  assert (H : forallb (λ b, forallb (λ i,
      (0 <=? reverse_byte b) && (reverse_byte b <? 256) &&
      Bool.eqb (Z.testbit (reverse_byte b) i) (Z.testbit b (7 - i)))
      (Z.of_nat <$> seq 0 8)) (Z.of_nat <$> seq 0 256) = true) by (vm_compute; reflexivity).
  intros Hb Hi. rewrite forallb_forall in H. specialize (H b).
  assert (Hin : ∀ k n, 0 ≤ k < Z.of_nat n → In k (Z.of_nat <$> seq 0 n)).
  { intros k n Hk. apply list_elem_of_In, list_elem_of_fmap. exists (Z.to_nat k).
    split; [lia|]. apply elem_of_seq. lia. }
  specialize (H (Hin b 256%nat Hb)). rewrite forallb_forall in H. specialize (H i (Hin i 8%nat Hi)).
  apply andb_prop in H as [[H1 H2]%andb_prop H3]. apply Bool.eqb_prop in H3. split; [lia|done].
Qed.

Lemma reverse_bits_bytes src :
  word src → Forall (λ b, 0 ≤ b < 256)
    ((λ i, reverse_byte (nth (8 - i - 1) (to_bytes 8 src) 0)) <$> seq 0 8).
Proof.
  intros [Hs _]. apply Forall_fmap, Forall_forall. intros i Hi%elem_of_seq. unfold compose.
  rewrite to_bytes_nth by lia. eapply (reverse_byte_spec _ 0); [|lia].
  apply Z.mod_pos_bound. lia.
Qed.

Lemma reverse_bits_word src : word src → word (reverse_bits src).
Proof.
  intros H%reverse_bits_bytes%of_bytes_range. unfold word, reverse_bits, machine_reverse_bits.
  rewrite length_fmap, length_seq in H. exact H.
Qed.

Lemma reverse_bits_testbit src i :
  word src → 0 ≤ i < 64 → Z.testbit (reverse_bits src) i = Z.testbit src (63 - i).
Proof.
  intros Hs Hi. unfold reverse_bits, machine_reverse_bits.
  rewrite of_bytes_testbit by (by apply reverse_bits_bytes || lia).
  assert (Hd : 0 ≤ i / 8 < 8) by (split; [apply Z.div_pos|apply Z.div_lt_upper_bound]; lia).
  pose proof (Z.mod_pos_bound i 8 ltac:(lia)) as Hm.
  rewrite (nth_lookup_Some _ _ 0 (reverse_byte (nth (8 - Z.to_nat (i / 8) - 1) (to_bytes 8 src) 0))).
  2:{ rewrite list_lookup_fmap, lookup_seq_lt by lia. done. }
  destruct Hs as [Hs _]. rewrite to_bytes_nth by lia.
  rewrite (proj2 (reverse_byte_spec _ (i mod 8) (Z.mod_pos_bound _ 256 ltac:(lia)) ltac:(lia))).
  change 256 with (2 ^ 8). rewrite Z.mod_pow2_bits_low, Z.div_pow2_bits by lia.
  f_equal. pose proof (Z.div_mod i 8). lia.
Qed.

Lemma bits_eq a b : word a → word b → (∀ i, 0 ≤ i < 64 → Z.testbit a i = Z.testbit b i) → a = b.
Proof.
  intros Ha Hb H. apply Z.bits_inj'. intros i Hi. destruct (Z.ltb_spec i 64); [by apply H|].
  assert (Hh : ∀ c, word c → Z.testbit c i = false).
  { intros c [Hc0 Hc1]. rewrite <- (Z.mod_small c (2 ^ 64)) by lia. apply Z.mod_pow2_bits_high. lia. }
  by rewrite (Hh a), (Hh b).
Qed.

Lemma bits_le a b :
  0 ≤ b → (∀ i, 0 ≤ i → Z.testbit a i = true → Z.testbit b i = true) → a ≤ b.
Proof.
  intros Hb H. assert (Hd : Z.ldiff a b = 0).
  { apply Z.bits_inj'. intros i Hi. rewrite Z.ldiff_spec, Z.bits_0.
    specialize (H i Hi). destruct (Z.testbit a i); [|done]. by rewrite H. }
  pose proof (Z.sub_nocarry_ldiff b a Hd) as Hs.
  assert (0 ≤ Z.ldiff b a) by (apply Z.ldiff_nonneg; lia). lia.
Qed.

Lemma reverse_bits_involutive x : word x → reverse_bits (reverse_bits x) = x.
Proof.
  intros Hx. apply bits_eq; [by do 2 apply reverse_bits_word|done|]. intros i Hi.
  rewrite !reverse_bits_testbit; try lia; try done; [|by apply reverse_bits_word].
  f_equal. lia.
Qed.

(** The reversal of the bits of a word by the byte table is the reversal bit
    by bit: bit [i] of the result is bit [63 - i] of the argument.  It is its
    own inverse; and the logarithm computed from the number of leading zeros is
    the index of the highest bit. *)
Theorem reverse_bits_correct x :
  word x →
  word (reverse_bits x) ∧
  (∀ i, 0 ≤ i < 64 → Z.testbit (reverse_bits x) i = Z.testbit x (63 - i)) ∧
  reverse_bits (reverse_bits x) = x ∧
  (x ≠ 0 → 2 ^ machine_log2 x ≤ x < 2 ^ (machine_log2 x + 1)).
Proof.
  intros Hx. split_and!; [by apply reverse_bits_word|by intros; apply reverse_bits_testbit|
    by apply reverse_bits_involutive|].
  intros Hn. rewrite machine_log2_spec by done. destruct Hx. apply Z.log2_spec. lia.
Qed.

Lemma reverse_bits_correct_witness :
  word 6 ∧ reverse_bits 6 = 0x6000000000000000 ∧ reverse_bits (reverse_bits 6) = 6.
Proof.
  assert (H : word 6) by (unfold word; lia).
  destruct (reverse_bits_correct 6 H) as (_ & _ & H3 & _).
  split; [exact H|split; [vm_compute; reflexivity|exact H3]].
Defined.

(** *** The encoding of core types *)
Lemma lor_fold_testbit ids r i :
  Forall (λ id, 0 ≤ id) ids → 0 ≤ i →
  Z.testbit (foldl (λ result id, Z.lor result (Z.shiftl 1 id)) r ids) i =
  Z.testbit r i || bool_decide (i ∈ ids).
Proof.
  intros Hids Hi. revert r. induction Hids as [|id ids Hid _ IH]; intros r; simpl.
  { by rewrite orb_false_r. }
  rewrite IH, Z.lor_spec, Z.shiftl_1_l, Z.pow2_bits_eqb, <- orb_assoc by lia. f_equal.
  destruct (Z.eqb_spec id i) as [->|Hne].
  - rewrite (bool_decide_true (i ∈ i :: ids)); [done|by left].
  - simpl. apply bool_decide_ext. rewrite elem_of_cons. intuition congruence.
Qed.

Lemma land_bit x i : 0 ≤ i → Z.land x (Z.shiftl 1 i) ≠ 0 ↔ Z.testbit x i = true.
Proof.
  intros Hi. rewrite Z.shiftl_1_l. split.
  - intros H. destruct (Z.testbit x i) eqn:E; [done|]. destruct H. apply Z.bits_inj'.
    intros j Hj. rewrite Z.land_spec, Z.pow2_bits_eqb, Z.bits_0 by lia.
    destruct (Z.eqb_spec i j) as [->|]; [by rewrite E|apply andb_false_r].
  - intros H E. apply (f_equal (λ y, Z.testbit y i)) in E.
    by rewrite Z.land_spec, Z.pow2_bits_true, Z.bits_0, H in E by lia.
Qed.

Lemma encode_many ids :
  (2 ≤ length ids)%nat →
  encode ids = foldl (λ result id, Z.lor result (Z.shiftl 1 id)) (- 2 ^ 31) ids.
Proof. by destruct ids as [|a [|b ids]]; simpl; [lia|lia|]. Qed.

Lemma is_encoded_testbit c :
  - 2 ^ 31 ≤ c < 2 ^ 31 →
  is_encoded c = true ↔ Z.testbit c 31 = true ∧ ∀ i, 28 ≤ i < 31 → Z.testbit c i = false.
Proof.
  intros Hc. unfold is_encoded. rewrite Z.eqb_eq. split.
  - intros H. assert (Hb : ∀ i, 0 ≤ i < 4 → Z.testbit c (i + 28) = Z.testbit 8 i).
    { intros i Hi. change 8 with encoding_format. rewrite <- H, Z.shiftr_spec by lia.
      change (i + bitmask_width) with (i + 28). rewrite Z.mod_pow2_bits_low by lia. done. }
    split; [by apply (Hb 3)|]. intros i Hi. replace i with (i - 28 + 28) by lia.
    rewrite Hb by lia. assert (i - 28 = 0 ∨ i - 28 = 1 ∨ i - 28 = 2) as [-> |[-> | ->]] by lia; done.
  - intros [H31 H]. apply Z.bits_inj'. intros i Hi. rewrite Z.shiftr_spec by lia.
    change (i + bitmask_width) with (i + 28). destruct (Z.ltb_spec i 4).
    + rewrite Z.mod_pow2_bits_low by lia.
      assert (i = 0 ∨ i = 1 ∨ i = 2 ∨ i = 3) as [-> |[-> |[-> | ->]]] by lia; simpl Z.add;
        rewrite ?H31, ?H by lia; done.
    + rewrite Z.mod_pow2_bits_high by lia. symmetry.
      apply Z.bits_above_log2; [done|]. change (Z.log2 encoding_format) with 3. lia.
Qed.

Lemma encode_testbit ids i :
  Forall (λ id, 0 ≤ id < 28) ids → (2 ≤ length ids)%nat → 0 ≤ i →
  Z.testbit (encode ids) i = (31 <=? i) || bool_decide (i ∈ ids).
Proof.
  intros Hids Hl Hi. rewrite encode_many, lor_fold_testbit by
    (done || (eapply Forall_impl; [done|]; simpl; lia)).
  f_equal. rewrite Z.bits_opp by lia. change (Z.pred (2 ^ 31)) with (Z.ones 31).
  destruct (Z.leb_spec 31 i); [by rewrite Z.ones_spec_high by lia|by rewrite Z.ones_spec_low by lia].
Qed.

Lemma encode_range ids :
  Forall (λ id, 0 ≤ id < 28) ids → (2 ≤ length ids)%nat → - 2 ^ 31 ≤ encode ids < 0.
Proof.
  intros Hids Hl. rewrite encode_many by done. clear Hl.
  assert (Hg : ∀ r, - 2 ^ 31 ≤ r < 0 →
    - 2 ^ 31 ≤ foldl (λ result id, Z.lor result (Z.shiftl 1 id)) r ids < 0); [|apply Hg; lia].
  induction Hids as [|id ids Hid _ IH]; intros r Hr; simpl; [lia|]. apply IH.
  assert (Hs : 0 ≤ Z.shiftl 1 id) by (apply Z.shiftl_nonneg; lia).
  split; [|apply Z.lor_neg; lia].
  pose proof (Z.land_ones (Z.lor r (Z.shiftl 1 id)) 31) as Hl.
  assert (Hge : r ≤ Z.lor r (Z.shiftl 1 id)); [|lia].
  pose proof (Z.sub_nocarry_ldiff (Z.lor r (Z.shiftl 1 id)) r) as Hsub.
  assert (Hz : Z.ldiff r (Z.lor r (Z.shiftl 1 id)) = 0).
  { apply Z.bits_inj'. intros j Hj. rewrite Z.ldiff_spec, Z.lor_spec, Z.bits_0.
    by destruct (Z.testbit r j). }
  specialize (Hsub Hz). assert (0 ≤ Z.ldiff (Z.lor r (Z.shiftl 1 id)) r); [|lia].
  apply Z.ldiff_nonneg. right. lia.
Qed.

Lemma list_filter_iff_in {A} (P Q : A → Prop) `{∀ x, Decision (P x), ∀ x, Decision (Q x)} (l : list A) :
  (∀ x, x ∈ l → P x ↔ Q x) → filter P l = filter Q l.
Proof.
  induction l as [|x l IH]; intros Hpq; [done|]. rewrite !filter_cons.
  rewrite IH by (intros; apply Hpq; by right). assert (P x ↔ Q x) by (apply Hpq; by left).
  repeat case_decide; tauto || done.
Qed.

Lemma lt_sorted_nodup (l : list Z) : StronglySorted Z.lt l → NoDup l.
Proof.
  induction 1 as [|x l _ IH Hx]; constructor; [|done].
  intros Hin. apply (proj1 (Forall_forall _ _) Hx) in Hin. lia.
Qed.

Lemma seq_sorted a n : StronglySorted Z.lt (Z.of_nat <$> seq a n).
Proof.
  revert a. induction n as [|n IH]; intros a; simpl; [constructor|].
  constructor; [apply IH|]. apply Forall_fmap, Forall_forall. intros x Hx%elem_of_seq.
  unfold compose. lia.
Qed.

Lemma sorted_filter (P : Z → Prop) `{∀ x, Decision (P x)} (l : list Z) :
  StronglySorted Z.lt l → StronglySorted Z.lt (filter P l).
Proof.
  induction 1 as [|x l _ IH Hx]; [constructor|]. rewrite filter_cons. case_decide; [|done].
  constructor; [done|]. apply Forall_forall. intros y [_ Hy]%list_elem_of_filter.
  by apply (proj1 (Forall_forall _ _) Hx).
Qed.

Lemma bit_positions_sorted : StronglySorted Z.lt bit_positions.
Proof. apply seq_sorted. Qed.
Lemma bit_positions_nodup : NoDup bit_positions.
Proof. apply lt_sorted_nodup, bit_positions_sorted. Qed.

(** Several core types survive the trip through one [int]: decoding the
    encoding of a list of two or more identifiers gives back the identifiers, in
    increasing order and once each, and the very list if it was already so; a
    single identifier is its own encoding; and encodings are negative, so they
    are never mistaken for an identifier or for [automatic]. *)
Theorem core_types_roundtrip ids :
  Forall (λ id, 0 ≤ id < 28) ids →
  (∀ id, ids = [id] → decode (encode ids) = ids) ∧
  ((2 ≤ length ids)%nat →
   is_encoded (encode ids) = true ∧ is_single (encode ids) = false ∧ encode ids ≠ automatic ∧
   decode (encode ids) = filter (λ p, p ∈ ids) bit_positions ∧
   (StronglySorted Z.lt ids → decode (encode ids) = ids)).
Proof.
  intros Hids. split.
  { intros id ->. apply Forall_inv in Hids. unfold decode. change (encode [id]) with id.
    destruct (is_encoded id) eqn:E; [|done]. apply is_encoded_testbit in E as [E _]; [|lia].
    rewrite <- (Z.mod_small id (2 ^ 31)), Z.mod_pow2_bits_high in E by lia. done. }
  intros Hl. pose proof (encode_range ids Hids Hl) as Hr.
  assert (He : is_encoded (encode ids) = true).
  { apply is_encoded_testbit; [lia|]. rewrite encode_testbit by (done || lia). split; [done|].
    intros i Hi. rewrite encode_testbit by (done || lia).
    destruct (Z.leb_spec 31 i); [lia|]. simpl. apply bool_decide_eq_false. intros Hin.
    apply (proj1 (Forall_forall _ _) Hids) in Hin. simpl in Hin. lia. }
  assert (Hd : decode (encode ids) = filter (λ p, p ∈ ids) bit_positions).
  { unfold decode. rewrite He. cbn [negb]. apply list_filter_iff_in. intros p Hp.
    assert (0 ≤ p < 28) by (apply list_elem_of_fmap in Hp as (n & -> & Hn%elem_of_seq);
      change (Z.to_nat bitmask_width) with 28%nat in Hn; lia).
    rewrite land_bit, encode_testbit by (done || lia).
    destruct (Z.leb_spec 31 p); [lia|]. apply bool_decide_eq_true. }
  split_and!; [done| |unfold automatic; intros E|done|].
  - unfold is_single. apply Z.eqb_neq. intros E.
    assert (0 ≤ encode ids) by (apply (Z.shiftr_nonneg _ bitmask_width); lia). lia.
  - rewrite E in He. vm_compute in He. done.
  - intros Hs. rewrite Hd. apply (StronglySorted_unique_strong Z.lt); [lia| |done|].
    + apply sorted_filter, bit_positions_sorted.
    + apply NoDup_Permutation; [apply NoDup_filter, bit_positions_nodup|by apply lt_sorted_nodup|].
      intros x. rewrite list_elem_of_filter. split; [by intros [? _]|]. intros Hx. split; [done|].
      apply (proj1 (Forall_forall _ _) Hids) in Hx. apply list_elem_of_fmap.
      exists (Z.to_nat x). split; [lia|]. apply elem_of_seq. change (Z.to_nat bitmask_width) with 28%nat. lia.
Qed.

Lemma core_types_roundtrip_witness :
  decode (encode [0; 3; 27]) = [0; 3; 27] ∧ encode [0; 3; 27] = -2013265911.
Proof.
  assert (H : Forall (λ id, 0 ≤ id < 28) [0; 3; 27]) by (repeat constructor; lia).
  destruct (core_types_roundtrip [0; 3; 27] H) as [_ H2].
  destruct (H2 ltac:(simpl; lia)) as (_ & _ & _ & _ & H3).
  split; [apply H3; repeat constructor; lia|vm_compute; reflexivity].
Defined.
End Bits.
