(* ===== verification/Floats.v ===== *)
(** * Rounding of non-negative floating-point numbers

    The ranges choose where and in which dimension to split with [float] and
    [double] arithmetic on sizes.  All the numbers involved are non-negative
    and far from overflow, so an IEEE operation is the exact rational result
    rounded to the nearest number with a [p]-bit significand, ties to even.
    Numbers are integers, multiples of a fixed unit: [Float32] counts in units
    of [2^-100], [Float64] (used on integers only) in units of one. *)

From S2P Require Import Prelude.
From stdpp Require Import base numbers.
From Stdlib Require Import ZArith Lia.
Local Open Scope Z_scope.

(** Comparison of fractions by quotient and remainder. *)
Lemma frac_div_le n1 d1 n2 d2 :
  0 < d1 → 0 < d2 → n1 * d2 ≤ n2 * d1 → n1 / d1 ≤ n2 / d2.
Proof.
  intros H1 H2 Hle.
  rewrite <- (Z.div_mul_cancel_r n1 d1 d2), <- (Z.div_mul_cancel_r n2 d2 d1) by lia.
  rewrite (Z.mul_comm d2 d1). apply Z.div_le_mono; nia.
Qed.

Lemma frac_mod_le n1 d1 n2 d2 :
  0 < d1 → 0 < d2 → n1 * d2 ≤ n2 * d1 → n1 / d1 = n2 / d2 →
  n1 mod d1 * d2 ≤ n2 mod d2 * d1.
Proof.
  intros H1 H2 Hle Hq. rewrite !Z.mod_eq, Hq by lia. nia.
Qed.

(** The integer nearest to [n / d], ties to even. *)
Definition rne (n d : Z) : Z :=
  let q := n / d in
  let r := n mod d in
  if 2 * r <? d then q
  else if d <? 2 * r then q + 1
  else if Z.even q then q else q + 1.

(** [n / d] rounded to [p] significant bits. *)
Definition fl (p n d : Z) : Z :=
  let e := Z.max 0 (Z.log2 (n / d) + 1 - p) in
  rne n (d * 2 ^ e) * 2 ^ e.

(** Numbers that a [p]-bit significand can hold. *)
Definition representable (p v : Z) : Prop := ∃ m e, 0 ≤ m ≤ 2 ^ p ∧ 0 ≤ e ∧ v = m * 2 ^ e.

Lemma rne_bounds n d : 0 < d → n / d ≤ rne n d ≤ n / d + 1.
Proof. intros. unfold rne. repeat case_match; lia. Qed.

Lemma rne_exact m d : 0 < d → rne (m * d) d = m.
Proof.
  intros. unfold rne. rewrite Z.div_mul, Z.mod_mul by lia.
  destruct (Z.ltb_spec (2 * 0) d); lia.
Qed.

Lemma rne_mono n1 d1 n2 d2 :
  0 < d1 → 0 < d2 → n1 * d2 ≤ n2 * d1 → rne n1 d1 ≤ rne n2 d2.
Proof.
  intros H1 H2 Hle.
  pose proof (Z.mod_pos_bound n1 d1 H1) as B1. pose proof (Z.mod_pos_bound n2 d2 H2) as B2.
  pose proof (rne_bounds n1 d1 H1). pose proof (rne_bounds n2 d2 H2).
  pose proof (frac_div_le _ _ _ _ H1 H2 Hle).
  destruct (decide (n1 / d1 = n2 / d2)) as [Hq|]; [|lia].
  pose proof (frac_mod_le _ _ _ _ H1 H2 Hle Hq) as Hr.
  unfold rne. rewrite Hq.
  destruct (Z.ltb_spec (2 * (n1 mod d1)) d1); [repeat case_match; lia|].
  destruct (Z.ltb_spec (2 * (n2 mod d2)) d2); [exfalso; nia|].
  destruct (Z.ltb_spec d1 (2 * (n1 mod d1))); destruct (Z.ltb_spec d2 (2 * (n2 mod d2)));
    repeat case_match; try lia; exfalso; nia.
Qed.

Section fl.
Context (p : Z) (Hp : 1 ≤ p).

Lemma pow2_pos e : 0 ≤ e → 0 < 2 ^ e.
Proof. intros. apply Z.pow_pos_nonneg; lia. Qed.

Lemma representable_pow k : 0 ≤ k → representable p (2 ^ k).
Proof. exists 1, k. pose proof (pow2_pos p). split_and!; lia. Qed.

Lemma representable_small v : 0 ≤ v ≤ 2 ^ p → representable p v.
Proof. exists v, 0. split_and!; lia. Qed.

Lemma representable_scale v k : 0 ≤ k → representable p v → representable p (v * 2 ^ k).
Proof.
  intros ? (m & e & ? & ? & ->). exists m, (e + k). split_and!; try lia.
  rewrite Z.pow_add_r by lia. ring.
Qed.

Lemma fl_nonneg n d : 0 ≤ n → 0 < d → 0 ≤ fl p n d.
Proof.
  intros. unfold fl. set (e := Z.max 0 _). pose proof (pow2_pos e ltac:(lia)).
  apply Z.mul_nonneg_nonneg; [|lia].
  pose proof (rne_bounds n (d * 2 ^ e) ltac:(nia)).
  pose proof (Z.div_pos n (d * 2 ^ e)). lia.
Qed.

Lemma fl_exact v d : 0 < d → representable p v → fl p (v * d) d = v.
Proof.
  intros Hd (m & e & Hm & He & ->). unfold fl. rewrite Z.div_mul by lia.
  set (e0 := Z.max 0 _).
  assert (∃ w, m * 2 ^ e = w * 2 ^ e0) as [w ->].
  { destruct (decide (m = 0)) as [->|]; [by exists 0|].
    assert (m = 2 ^ p ∨ m < 2 ^ p) as [->|Hlt] by lia.
    - exists (2 ^ (p + e - e0)).
      assert (e0 ≤ p + e).
      { unfold e0. rewrite <- Z.pow_add_r, Z.log2_pow2 by lia. lia. }
      rewrite <- !Z.pow_add_r by lia. f_equal. lia.
    - exists (m * 2 ^ (e - e0)).
      assert (e0 ≤ e).
      { unfold e0. rewrite Z.log2_mul_pow2 by lia.
        assert (Z.log2 m < p) by (apply Z.log2_lt_pow2; lia). lia. }
      rewrite <- Z.mul_assoc, <- Z.pow_add_r by lia. do 2 f_equal. lia. }
  replace (w * 2 ^ e0 * d) with (w * (d * 2 ^ e0)) by ring.
  rewrite rne_exact; [done|]. pose proof (pow2_pos e0). lia.
Qed.

(** Rounding stays within the power of two above. *)
Lemma fl_le_pow n d e :
  0 ≤ n → 0 < d → 0 ≤ e → n ≤ 2 ^ (p + e) * d →
  rne n (d * 2 ^ e) * 2 ^ e ≤ 2 ^ (p + e).
Proof.
  intros. pose proof (pow2_pos e ltac:(lia)). rewrite Z.pow_add_r by lia.
  apply Z.mul_le_mono_nonneg_r; [lia|].
  rewrite <- (rne_exact (2 ^ p) (d * 2 ^ e)) by lia. apply rne_mono; [lia..|].
  rewrite Z.pow_add_r in * by lia. nia.
Qed.

Lemma fl_mono n1 d1 n2 d2 :
  0 ≤ n1 → 0 < d1 → 0 < d2 → n1 * d2 ≤ n2 * d1 → fl p n1 d1 ≤ fl p n2 d2.
Proof.
  intros Hn H1 H2 Hle. unfold fl. set (e1 := Z.max 0 _). set (e2 := Z.max 0 _).
  pose proof (Z.div_mod n1 d1 ltac:(lia)) as E1. pose proof (Z.mod_pos_bound n1 d1 H1) as B1.
  pose proof (Z.div_mod n2 d2 ltac:(lia)) as E2. pose proof (Z.mod_pos_bound n2 d2 H2) as B2.
  pose proof (Z.div_pos n1 d1).
  assert (Hq : n1 / d1 ≤ n2 / d2).
  { by apply frac_div_le. }
  assert (He : e1 ≤ e2) by (unfold e1, e2; pose proof (Z.log2_le_mono _ _ Hq); lia).
  pose proof (pow2_pos e1 ltac:(lia)). pose proof (pow2_pos e2 ltac:(lia)).
  destruct (decide (e1 = e2)) as [<-|Hne].
  { apply Z.mul_le_mono_nonneg_r; [lia|]. apply rne_mono; nia. }
  assert (0 < n2 / d2).
  { destruct (decide (n2 / d2 ≤ 0)); [|lia]. exfalso. unfold e2 in *.
    rewrite (Z.log2_nonpos (n2 / d2)) in * by lia. lia. }
  destruct (Z.log2_spec (n2 / d2)) as [Hl2 _]; [lia|].
  assert (Hlog2 : Z.log2 (n2 / d2) = e2 + p - 1) by lia.
  assert (Hx : n1 / d1 < 2 ^ (p + e1)).
  { destruct (decide (n1 / d1 = 0)) as [->|]; [apply pow2_pos; lia|].
    apply Z.log2_lt_pow2; lia. }
  transitivity (2 ^ (p + e1)).
  { apply fl_le_pow; try lia. nia. }
  transitivity (2 ^ (p - 1 + e2)); [apply Z.pow_le_mono_r; lia|].
  rewrite Z.pow_add_r by lia. apply Z.mul_le_mono_nonneg_r; [lia|].
  rewrite <- (rne_exact (2 ^ (p - 1)) (d2 * 2 ^ e2)) by lia. apply rne_mono; [lia..|].
  rewrite Hlog2 in Hl2. replace (e2 + p - 1) with (p - 1 + e2) in Hl2 by lia.
  rewrite Z.pow_add_r in Hl2 by lia.
  assert (2 ^ (p - 1) * 2 ^ e2 * d2 ≤ n2) by nia. nia.
Qed.

Lemma fl_representable n d : 0 ≤ n → 0 < d → representable p (fl p n d).
Proof.
  intros Hn Hd. unfold fl. set (e := Z.max 0 _). pose proof (pow2_pos e ltac:(lia)).
  exists (rne n (d * 2 ^ e)), e. split_and!; [| |lia|done].
  - pose proof (rne_bounds n (d * 2 ^ e) ltac:(nia)). pose proof (Z.div_pos n (d * 2 ^ e)). lia.
  - rewrite <- (rne_exact (2 ^ p) (d * 2 ^ e)) by lia. apply rne_mono; [lia..|].
    assert (Hx : n / d < 2 ^ (p + e)).
    { destruct (decide (n / d = 0)) as [->|]; [apply pow2_pos; lia|].
      pose proof (Z.div_pos n d). apply Z.log2_lt_pow2; lia. }
    pose proof (Z.div_mod n d ltac:(lia)). pose proof (Z.mod_pos_bound n d Hd).
    rewrite Z.pow_add_r in Hx by lia.
    assert (n ≤ 2 ^ p * 2 ^ e * d) by nia. nia.
Qed.

Lemma fl_le n d v : 0 ≤ n → 0 < d → representable p v → n ≤ v * d → fl p n d ≤ v.
Proof. intros. rewrite <- (fl_exact v d) by done. apply fl_mono; nia. Qed.

Lemma fl_ge n d v : 0 ≤ v → 0 < d → representable p v → v * d ≤ n → v ≤ fl p n d.
Proof. intros. rewrite <- (fl_exact v d) at 1 by done. apply fl_mono; nia. Qed.

Lemma fl_scale n d k : 0 ≤ n → 0 < d → 0 ≤ k → 2 ^ (p - 1) ≤ n / d →
  fl p (n * 2 ^ k) d = fl p n d * 2 ^ k.
Proof.
  intros Hn Hd Hk Hbig. unfold fl.
  pose proof (pow2_pos (p - 1) ltac:(lia)). pose proof (pow2_pos k Hk).
  assert (Hlog : Z.log2 (n * 2 ^ k / d) = Z.log2 (n / d) + k).
  { apply Z.log2_unique; [pose proof (Z.log2_nonneg (n / d)); lia|].
    destruct (Z.log2_spec (n / d)) as [Hl Hu]; [lia|].
    pose proof (Z.log2_nonneg (n / d)).
    pose proof (Z.div_mod n d ltac:(lia)) as E. pose proof (Z.mod_pos_bound n d Hd) as B.
    rewrite Z.pow_succ_r in * by lia. rewrite Z.pow_add_r by lia. split.
    - apply Z.div_le_lower_bound; [lia|].
      assert (2 ^ Z.log2 (n / d) * d ≤ n) by nia. nia.
    - apply Z.div_lt_upper_bound; [lia|].
      assert (n < 2 * 2 ^ Z.log2 (n / d) * d) by nia. nia. }
  rewrite Hlog.
  assert (p - 1 ≤ Z.log2 (n / d)).
  { apply Z.log2_le_pow2; lia. }
  set (e := Z.max 0 (Z.log2 (n / d) + 1 - p)).
  replace (Z.max 0 (Z.log2 (n / d) + k + 1 - p)) with (e + k) by lia.
  pose proof (pow2_pos e ltac:(lia)).
  assert (rne (n * 2 ^ k) (d * 2 ^ (e + k)) = rne n (d * 2 ^ e)) as ->.
  { apply Z.le_antisymm; apply rne_mono; rewrite ?Z.pow_add_r by lia; try nia. }
  rewrite Z.pow_add_r by lia. ring.
Qed.
End fl.

(** ** Single precision, in units of [2^-100] *)
Module Float32.
Definition unit : Z := 2 ^ 100.
Definition of_Z (n : Z) : Z := fl 24 (n * unit) 1.
Definition mul (x y : Z) : Z := fl 24 (x * y) unit.
Definition div (x y : Z) : Z := fl 24 (x * unit) y.
Definition add (x y : Z) : Z := fl 24 (x + y) 1.
Definition half : Z := 2 ^ 99.
(** Conversion to an integer type, towards zero. *)
Definition to_Z (x : Z) : Z := x / unit.
End Float32.

(** ** Double precision on integers *)
Module Float64.
Definition of_Z (n : Z) : Z := fl 53 n 1.
Definition mul (x y : Z) : Z := fl 53 (x * y) 1.
Definition ltb (x y : Z) : bool := x <? y.
End Float64.
