(* ===== verification/PriorityQueue.v ===== *)
(** * tbb::concurrent_priority_queue

    The container of include/oneapi/tbb/concurrent_priority_queue.h: a vector
    whose first [mark] elements are a binary heap and whose other elements are
    pushed and not yet merged.  Threads hand their operations to an aggregator;
    [handle_operations] runs a whole batch of them on behalf of the threads.

    The file proves that the heap invariant is kept, that no access leaves the
    vector, and that every batch is linearizable: there is an order of its
    operations in which a sequential priority queue gives the same answers. *)

From stdpp Require Import base numbers sorting list.
From Stdlib Require Import ZArith Lia.
From S2P Require Import Prelude.

Module Cpq.
Section cpq.
Context {T : Type} (my_compare : T → T → bool).

(** ** Data *)
Inductive operation_type := PUSH_OP | POP_OP | PUSH_RVALUE_OP.
Inductive operation_status := SUCCEEDED | FAILED.

(** An operation of a batch: [ident] names the waiting thread, [elem] is the
    value to push (unused by a pop); [throws] is the environment's choice of
    whether [std::vector::push_back] throws when this operation is handled. *)
Record cpq_operation := CpqOperation {
  ident : nat;
  optype : operation_type;
  elem : T;
  throws : bool;
}.

(** The answer a waiting thread gets: the status, and the value a successful
    pop stored to [*elem]. *)
Record answer := Answer {
  answered : cpq_operation;
  status : operation_status;
  popped : option T;
}.

Record concurrent_priority_queue := Cpq {
  mark : nat;
  my_size : nat;
  data : list T;
}.

(** ** Heap routines *)
Definition parent (i : nat) : nat := Nat.shiftr (i - 1) 1.

(** The do-while loop of [heapify]: push [to_place] up the heap. *)
Fixpoint push_up (fuel cur_pos : nat) (to_place : T) (d : list T)
  : option (list T) :=
  match fuel with
  | 0 => None
  | S fuel =>
      p ← d !! parent cur_pos;
      if negb (my_compare p to_place) then write d cur_pos to_place
      else
        d ← write d cur_pos p;
        if parent cur_pos =? 0 then write d (parent cur_pos) to_place
        else push_up fuel (parent cur_pos) to_place d
  end.

(** The for loop of [heapify], from [m] for [fuel] elements. *)
Fixpoint heapify_from (fuel m : nat) (d : list T) : option (list T) :=
  match fuel with
  | 0 => Some d
  | S fuel =>
      to_place ← d !! m;
      d ← push_up (S m) m to_place d;
      heapify_from fuel (S m) d
  end.

Definition heapify (q : concurrent_priority_queue)
  : option concurrent_priority_queue :=
  let m := if (mark q =? 0) && (0 <? length (data q)) then 1 else mark q in
  d ← heapify_from (length (data q) - m) m (data q);
  Some (Cpq (m `max` length (data q)) (my_size q) d).

(** [target] in [reheap]: the child with the higher priority. *)
Definition higher_child (m child : nat) (d : list T) : option nat :=
  if child + 1 <? m then
    c ← d !! child;
    c' ← d !! (child + 1);
    Some (if my_compare c c' then child + 1 else child)
  else Some child.

(** The while loop of [reheap]; the result is the final [cur_pos] and the
    vector, whose element at [cur_pos] is moved-from. *)
Fixpoint push_down (fuel m cur_pos : nat) (d : list T)
  : option (nat * list T) :=
  match fuel with
  | 0 => None
  | S fuel =>
      let child := Nat.shiftl cur_pos 1 + 1 in
      if child <? m then
        target ← higher_child m child d;
        t ← d !! target;
        back ← last d;
        if my_compare t back then Some (cur_pos, d)
        else
          d ← write d cur_pos t;
          push_down fuel m target d
      else Some (cur_pos, d)
  end.

Definition reheap (q : concurrent_priority_queue)
  : option concurrent_priority_queue :=
  '(cur_pos, d) ← push_down (S (length (data q))) (mark q) 0 (data q);
  back ← last d;
  d ← (if negb (cur_pos =? length d - 1) then write d cur_pos back else Some d);
  d ← pop_back d;
  Some (Cpq (if length d <? mark q then length d else mark q) (my_size q) d).

(** ** The batch handler *)

(** [mark < data.size() && my_compare(data[0], data.back())] *)
Definition last_is_higher (q : concurrent_priority_queue) : option bool :=
  if mark q <? length (data q) then
    top ← data q !! 0;
    back ← last (data q);
    Some (my_compare top back)
  else Some false.

(** Store [data.back()] to the operation and pop it. *)
Definition pop_last (q : concurrent_priority_queue) (tmp : cpq_operation)
  : option (concurrent_priority_queue * answer) :=
  back ← last (data q);
  d ← pop_back (data q);
  Some (Cpq (mark q) (my_size q - 1) d, Answer tmp SUCCEEDED (Some back)).

(** First pass: constant-time pushes and pops; the other pops go to
    [pop_list], which is a stack. *)
Fixpoint first_pass (op_list pop_list : list cpq_operation)
    (q : concurrent_priority_queue) (done : list answer)
  : option (concurrent_priority_queue * list cpq_operation * list answer) :=
  match op_list with
  | [] => Some (q, pop_list, done)
  | tmp :: op_list =>
      match optype tmp with
      | POP_OP =>
          b ← last_is_higher q;
          if (b : bool) then
            '(q, a) ← pop_last q tmp;
            first_pass op_list pop_list q (done ++ [a])
          else first_pass op_list (tmp :: pop_list) q done
      | PUSH_OP | PUSH_RVALUE_OP =>
          if throws tmp then
            first_pass op_list pop_list q (done ++ [Answer tmp FAILED None])
          else
            first_pass op_list pop_list
              (Cpq (mark q) (my_size q + 1) (data q ++ [elem tmp]))
              (done ++ [Answer tmp SUCCEEDED None])
      end
  end.

(** Second pass: the postponed pops. *)
Fixpoint second_pass (pop_list : list cpq_operation)
    (q : concurrent_priority_queue) (done : list answer)
  : option (concurrent_priority_queue * list answer) :=
  match pop_list with
  | [] => Some (q, done)
  | tmp :: pop_list =>
      match data q with
      | [] => second_pass pop_list q (done ++ [Answer tmp FAILED None])
      | top :: _ =>
          b ← last_is_higher q;
          if (b : bool) then
            '(q, a) ← pop_last q tmp;
            second_pass pop_list q (done ++ [a])
          else
            q ← reheap (Cpq (mark q) (my_size q - 1) (data q));
            second_pass pop_list q (done ++ [Answer tmp SUCCEEDED (Some top)])
      end
  end.

Definition handle_operations (op_list : list cpq_operation)
    (q : concurrent_priority_queue)
  : option (concurrent_priority_queue * list answer) :=
  '(q, pop_list, done) ← first_pass op_list [] q [];
  '(q, done) ← second_pass pop_list q done;
  q ← (if mark q <? length (data q) then heapify q else Some q);
  Some (q, done).

(** ** Operations on the whole container (not concurrent) *)
Definition empty_queue : concurrent_priority_queue := Cpq 0 0 [].

(** The range constructor. *)
Definition from_range (l : list T) : option concurrent_priority_queue :=
  q ← heapify (Cpq 0 0 l);
  Some (Cpq (mark q) (length (data q)) (data q)).

Definition assign (l : list T) (q : concurrent_priority_queue)
  : option concurrent_priority_queue :=
  heapify (Cpq 0 (length l) l).

Definition clear (q : concurrent_priority_queue) : concurrent_priority_queue :=
  Cpq 0 0 [].

Definition empty (q : concurrent_priority_queue) : bool := my_size q =? 0.

Definition copy (other : concurrent_priority_queue) : concurrent_priority_queue :=
  Cpq (mark other) (my_size other) (data other).

(** The move constructor: the new queue and what is left of [other], whose
    vector is moved from and whose [mark] and [my_size] are not reset. *)
Definition move (other : concurrent_priority_queue)
  : concurrent_priority_queue * concurrent_priority_queue :=
  (Cpq (mark other) (my_size other) (data other),
   Cpq (mark other) (my_size other) []).

Definition swap (q other : concurrent_priority_queue)
  : concurrent_priority_queue * concurrent_priority_queue :=
  (Cpq (mark other) (my_size other) (data other),
   Cpq (mark q) (my_size q) (data q)).

(** [push] and [try_pop] as a batch of one operation, the way the aggregator
    hands it over when no other thread is active. *)
Definition push (x : T) (q : concurrent_priority_queue)
  : option concurrent_priority_queue :=
  '(q, _) ← handle_operations [CpqOperation 0 PUSH_OP x false] q;
  Some q.

Definition try_pop (value : T) (q : concurrent_priority_queue)
  : option (concurrent_priority_queue * option T) :=
  '(q, answers) ← handle_operations [CpqOperation 0 POP_OP value false] q;
  a ← head answers;
  Some (q, popped a).

(** ** Invariant *)
Context `{!StrictWeakOrder my_compare}.

(** [x] has at least the priority of [y]. *)
Definition higher (x y : T) : Prop := my_compare x y = false.

(** The first [n] elements are a binary heap. *)
Definition heap_prefix (n : nat) (d : list T) : Prop :=
  ∀ i x p, 0 < i < n → d !! i = Some x → d !! parent i = Some p → higher p x.

Lemma parent_div i : parent i = (i - 1) / 2.
Proof. unfold parent. by rewrite Nat.shiftr_div_pow2. Qed.

#[local] Arguments parent : simpl never.

Lemma shiftl_1 c : Nat.shiftl c 1 = 2 * c.
Proof. rewrite Nat.shiftl_mul_pow2. change (2 ^ 1) with 2. lia. Qed.

Lemma parent_lt i : 0 < i → parent i < i.
Proof. rewrite parent_div. intros. apply Nat.Div0.div_lt_upper_bound; lia. Qed.

Lemma parent_child i c :
  0 < i → parent i = c → i = Nat.shiftl c 1 + 1 ∨ i = Nat.shiftl c 1 + 2.
Proof.
  intros Hi <-. rewrite parent_div, shiftl_1.
  pose proof (Nat.div_mod_eq (i - 1) 2).
  pose proof (Nat.mod_upper_bound (i - 1) 2 ltac:(lia)). lia.
Qed.

Lemma parent_of_child c i :
  i = Nat.shiftl c 1 + 1 ∨ i = Nat.shiftl c 1 + 2 → parent i = c.
Proof.
  rewrite parent_div, shiftl_1. intros [-> | ->]; symmetry.
  - apply (Nat.div_unique _ _ _ 0); lia.
  - apply (Nat.div_unique _ _ _ 1); lia.
Qed.

Lemma higher_refl x : higher x x.
Proof. apply swo_irrefl. Qed.
Lemma higher_trans x y z : higher x y → higher y z → higher x z.
Proof. apply swo_ge_trans. Qed.
Lemma lower_higher x y : my_compare x y = true → higher y x.
Proof. apply swo_asym. Qed.

(** The root of a heap has the highest priority. *)
Lemma heap_top n d top i x :
  heap_prefix n d → d !! 0 = Some top → d !! i = Some x → i < n → higher top x.
Proof.
  intros Hheap Htop. revert x.
  induction (lt_wf i) as [i _ IH]; intros x Hx Hi.
  destruct (decide (i = 0)) as [->|]; [simplify_eq; apply higher_refl|].
  pose proof (parent_lt i ltac:(lia)).
  destruct (lookup_lt_is_Some_2 d (parent i)) as [p Hp].
  { apply lookup_lt_Some in Hx. lia. }
  eapply higher_trans; [eapply (IH (parent i)); eauto; lia|].
  eapply Hheap; eauto; lia.
Qed.

(** ** push_up *)

(** The heap property holds on the first [n] elements but for [cur], and the
    elements below [cur] are not above its parent. *)
Definition up_inv (n cur : nat) (d : list T) : Prop :=
  (∀ i x p, 0 < i < n → i ≠ cur → d !! i = Some x → d !! parent i = Some p →
    higher p x) ∧
  (∀ i x p, 0 < i < n → 0 < cur → parent i = cur → d !! i = Some x →
    d !! parent cur = Some p → higher p x).

Lemma up_inv_done n cur d :
  up_inv n cur d →
  (∀ x p, 0 < cur → d !! cur = Some x → d !! parent cur = Some p → higher p x) →
  heap_prefix n d.
Proof.
  intros [H1 _] Hcur i x p Hi Hx Hp.
  destruct (decide (i = cur)) as [->|]; [apply Hcur | eapply H1]; eauto; lia.
Qed.

Lemma up_inv_step n cur d x p :
  0 < cur < n → up_inv n cur d → d !! cur = Some x → d !! parent cur = Some p →
  my_compare p x = true →
  up_inv n (parent cur) (<[parent cur := x]> (<[cur := p]> d)).
Proof.
  intros Hcur [H1 H2] Hx Hp Hlt.
  pose proof (parent_lt cur ltac:(lia)).
  pose proof (lookup_lt_Some _ _ _ Hx).
  split.
  - intros i y q Hi Hne Hy Hq.
    rewrite list_lookup_insert_ne in Hy by done.
    destruct (decide (i = cur)) as [->|].
    { rewrite list_lookup_insert_eq in Hy by done.
      rewrite list_lookup_insert_eq in Hq by (rewrite length_insert; lia).
      simplify_eq. by apply lower_higher. }
    rewrite list_lookup_insert_ne in Hy by done.
    destruct (decide (parent i = parent cur)) as [E|].
    { rewrite E, list_lookup_insert_eq in Hq by (rewrite length_insert; lia).
      simplify_eq. eapply higher_trans; [by apply lower_higher|].
      eapply (H1 i); eauto. by rewrite E. }
    rewrite list_lookup_insert_ne in Hq by done.
    destruct (decide (parent i = cur)) as [E|].
    + rewrite E, list_lookup_insert_eq in Hq by done. simplify_eq. eapply (H2 i); eauto; lia.
    + rewrite list_lookup_insert_ne in Hq by done. eapply (H1 i); eauto.
  - intros i y q Hi Hpos E Hy Hq.
    pose proof (parent_lt (parent cur) Hpos).
    rewrite !list_lookup_insert_ne in Hq by lia.
    assert (higher q p) by (eapply (H1 (parent cur)); eauto; lia).
    pose proof (parent_lt i ltac:(lia)).
    rewrite list_lookup_insert_ne in Hy by lia.
    destruct (decide (i = cur)) as [->|].
    { rewrite list_lookup_insert_eq in Hy by done. by simplify_eq. }
    rewrite list_lookup_insert_ne in Hy by done.
    eapply higher_trans; [done|]. eapply (H1 i); eauto. by rewrite E.
Qed.

(** [push_up] stays in bounds, permutes the vector with [to_place] in the hole
    at [cur_pos], leaves what is past the heap alone and restores the heap. *)
Lemma push_up_spec fuel n cur x d :
  0 < cur < n → n ≤ length d → cur < fuel → up_inv n cur (<[cur := x]> d) →
  ∃ d', push_up fuel cur x d = Some d' ∧ d' ≡ₚ <[cur := x]> d ∧
        length d' = length d ∧ heap_prefix n d'.
Proof.
  revert cur d. induction fuel as [|fuel IH]; intros cur d Hcur Hn Hf Hinv; [lia|].
  pose proof (parent_lt cur ltac:(lia)).
  destruct (lookup_lt_is_Some_2 d (parent cur)) as [p Hp]; [lia|].
  cbn [push_up]. rewrite Hp; cbn. rewrite !write_Some by lia; cbn.
  assert (Hx : <[cur := x]> d !! cur = Some x) by (rewrite list_lookup_insert_eq; [done|lia]).
  assert (Hp' : <[cur := x]> d !! parent cur = Some p) by (rewrite list_lookup_insert_ne; [done|lia]).
  destruct (my_compare p x) eqn:Hlt; cbn.
  - pose proof (up_inv_step _ _ _ _ _ Hcur Hinv Hx Hp' Hlt) as Hinv'.
    pose proof (insert_swap (<[cur := x]> d) (parent cur) cur p x
                  ltac:(lia) Hp' Hx) as Hperm.
    rewrite list_insert_insert_eq in Hinv', Hperm.
    destruct (Nat.eqb_spec (parent cur) 0) as [E|E].
    + rewrite write_Some by (rewrite length_insert; lia).
      eexists; split_and!; [done|done|by rewrite !length_insert|].
      eapply up_inv_done; [done|lia].
    + destruct (IH (parent cur) (<[cur := p]> d)) as (d' & ? & Hd' & Hlen & ?);
        rewrite ?length_insert in *; try done; try lia.
      exists d'; split_and!; auto. by rewrite Hd'.
  - eexists; split_and!; [done|done|by rewrite length_insert|].
    eapply up_inv_done; [done|]. intros. by simplify_eq.
Qed.

Lemma heap_prefix_le n m d : n ≤ m → heap_prefix m d → heap_prefix n d.
Proof. intros Hn H i x p Hi. apply H. lia. Qed.

Lemma heap_prefix_1 d : heap_prefix 1 d.
Proof. intros i x p Hi. lia. Qed.

(** ** heapify *)
Lemma heapify_from_spec fuel m d :
  0 < m → m + fuel = length d → heap_prefix m d →
  ∃ d', heapify_from fuel m d = Some d' ∧ d' ≡ₚ d ∧ heap_prefix (length d) d'.
Proof.
  revert m d. induction fuel as [|fuel IH]; intros m d Hm Hlen Hheap.
  { exists d. split_and!; [done|done|]. by replace (length d) with m by lia. }
  destruct (lookup_lt_is_Some_2 d m) as [x Hx]; [lia|].
  cbn. rewrite Hx; cbn.
  destruct (push_up_spec (S m) (S m) m x d) as (d' & E & Hp & Hl & Hh); [lia..| |].
  - rewrite list_insert_id by done. split.
    + intros i y p Hi Hne. apply Hheap. lia.
    + intros i y p Hi ? Heq. pose proof (parent_lt i ltac:(lia)). lia.
  - cbn in E. rewrite E; cbn. rewrite list_insert_id in Hp by done.
    destruct (IH (S m) d') as (d'' & E' & Hp' & Hh'); [lia|lia|done|].
    exists d''. split_and!; [done|by rewrite Hp'|by rewrite <- Hl].
Qed.

(** [heapify] merges the pushed elements into the heap. *)
Lemma heapify_spec q :
  mark q ≤ length (data q) → heap_prefix (mark q) (data q) →
  ∃ q', heapify q = Some q' ∧ data q' ≡ₚ data q ∧
        mark q' = length (data q) ∧ my_size q' = my_size q ∧
        heap_prefix (length (data q)) (data q').
Proof.
  intros Hm Hheap. unfold heapify. cbv zeta.
  destruct (decide (length (data q) = 0)) as [E|E].
  { rewrite E in *. apply nil_length_inv in E. rewrite E.
    replace (mark q) with 0 by lia. simpl. eexists; split_and!; done. }
  set (m := if (mark q =? 0) && (0 <? length (data q)) then 1 else mark q).
  assert (0 < m ≤ length (data q) ∧ heap_prefix m (data q)) as [? Hh].
  { subst m. destruct (Nat.eqb_spec (mark q) 0), (Nat.ltb_spec 0 (length (data q)));
      simpl; split; try lia; auto using heap_prefix_1. }
  destruct (heapify_from_spec (length (data q) - m) m (data q))
    as (d' & -> & ? & ?); [lia|lia|done|].
  simpl. eexists; split_and!; try done. simpl. lia.
Qed.

(** ** reheap *)

(** Moving the hole at [cur] down to its child [t], the higher of the two. *)
Lemma push_down_heap m cur t y d :
  heap_prefix m d → d !! t = Some y → 0 < t < m → parent t = cur →
  (∀ i x, 0 < i < m → parent i = cur → d !! i = Some x → higher y x) →
  heap_prefix m (<[cur := y]> d).
Proof.
  intros Hheap Ht Htm Hpt Hmax i x p Hi Hx Hp.
  pose proof (lookup_lt_Some _ _ _ Ht). pose proof (parent_lt t ltac:(lia)).
  pose proof (parent_lt i ltac:(lia)).
  destruct (decide (i = cur)) as [->|Hne].
  - rewrite list_lookup_insert_eq in Hx by lia.
    rewrite list_lookup_insert_ne in Hp by lia. simplify_eq.
    destruct (lookup_lt_is_Some_2 d (parent t)) as [c Hc]; [lia|].
    apply (higher_trans _ c).
    + eapply (Hheap (parent t)); eauto; lia.
    + eapply (Hheap t); eauto.
  - rewrite list_lookup_insert_ne in Hx by done.
    destruct (decide (parent i = cur)) as [E|].
    + rewrite E, list_lookup_insert_eq in Hp by lia. simplify_eq. by eapply Hmax.
    + rewrite list_lookup_insert_ne in Hp by done. eapply Hheap; eauto.
Qed.

(** What the loop of [reheap] establishes, for the value [top] extracted from
    the root and the last value [back]. *)
Definition down_post (m cur : nat) (top back : T) (d0 d : list T) : Prop :=
  length d = length d0 ∧ cur < length d ∧ last d = Some back ∧
  (cur = 0 ∨ cur < m) ∧
  heap_prefix m d ∧ <[cur := top]> d ≡ₚ d0 ∧
  (∀ i, 0 < i → m ≤ i → d !! i = d0 !! i) ∧
  (∀ p, 0 < cur → d !! parent cur = Some p → higher p back) ∧
  (∀ i x, 0 < i < m → parent i = cur → d !! i = Some x → higher back x).

Lemma higher_child_spec m cur d :
  heap_prefix m d → m ≤ length d → Nat.shiftl cur 1 + 1 < m →
  ∃ t y, higher_child m (Nat.shiftl cur 1 + 1) d = Some t ∧
       d !! t = Some y ∧ cur < t < m ∧ parent t = cur ∧
       (∀ i x, 0 < i < m → parent i = cur → d !! i = Some x → higher y x).
Proof.
  intros Hheap Hm Hlt. unfold higher_child. rewrite shiftl_1 in *.
  destruct (lookup_lt_is_Some_2 d (2 * cur + 1)) as [c Hc]; [lia|].
  assert (Hch : ∀ i, 0 < i → parent i = cur → i = 2 * cur + 1 ∨ i = 2 * cur + 2)
    by (intros i Hi E; pose proof (parent_child i cur Hi E); rewrite shiftl_1 in *; lia).
  destruct (Nat.ltb_spec (2 * cur + 1 + 1) m) as [H1|H1].
  - destruct (lookup_lt_is_Some_2 d (2 * cur + 1 + 1)) as [c' Hc']; [lia|].
    rewrite Hc, Hc'; cbn -[Nat.mul]. destruct (my_compare c c') eqn:E.
    + exists (2 * cur + 1 + 1), c'. split_and!; [done|done|lia|lia| |].
      * apply parent_of_child. rewrite shiftl_1. lia.
      * intros i x Hi Hp Hx. destruct (Hch i) as [-> | ->]; [lia|done| |].
        { simplify_eq. by apply lower_higher. }
        { replace (2 * cur + 1 + 1) with (2 * cur + 2) in Hc' by lia.
          simplify_eq. apply higher_refl. }
    + exists (2 * cur + 1), c. split_and!; [done|done|lia|lia| |].
      * apply parent_of_child. rewrite shiftl_1. lia.
      * intros i x Hi Hp Hx. destruct (Hch i) as [-> | ->]; [lia|done| |].
        { simplify_eq. apply higher_refl. }
        { replace (2 * cur + 1 + 1) with (2 * cur + 2) in Hc' by lia. by simplify_eq. }
  - exists (2 * cur + 1), c. split_and!; [done|done|lia|lia| |].
    + apply parent_of_child. rewrite shiftl_1. lia.
    + intros i x Hi Hp Hx. destruct (Hch i) as [-> | ->]; [lia|done| |lia].
      simplify_eq. apply higher_refl.
Qed.

Lemma last_insert_lt (d : list T) i x :
  S i < length d → last (<[i := x]> d) = last d.
Proof.
  intros H. rewrite !last_lookup, length_insert, list_lookup_insert_ne by lia. done.
Qed.

Lemma push_down_spec fuel m cur top back d0 d :
  length d < fuel + cur → m ≤ length d → length d = length d0 → cur < length d →
  (cur = 0 ∨ cur < m) →
  last d = Some back → heap_prefix m d → <[cur := top]> d ≡ₚ d0 →
  (∀ i, 0 < i → m ≤ i → d !! i = d0 !! i) →
  (∀ p, 0 < cur → d !! parent cur = Some p → higher p back) →
  ∃ cur' d', push_down fuel m cur d = Some (cur', d') ∧
             down_post m cur' top back d0 d'.
Proof.
  revert cur d. induction fuel as [|fuel IH]; intros cur d Hf Hm Hlen Hcur Hcm Hlast Hheap Hperm
    Hout Hpar; [lia|].
  cbn [push_down].
  destruct (Nat.ltb_spec (Nat.shiftl cur 1 + 1) m) as [Hlt|Hge].
  - destruct (higher_child_spec m cur d Hheap Hm Hlt) as (t & y & Et & Hy & Ht & Hpt & Hmax).
    rewrite Et. opt_simpl. rewrite Hy, Hlast. opt_simpl.
    destruct (my_compare y back) eqn:Hb.
    + exists cur, d. split; [done|]. unfold down_post. split_and!; auto.
      intros i x Hi Hp Hx. eapply higher_trans; [by apply lower_higher|]. by eapply Hmax.
    + rewrite write_Some by lia. opt_simpl.
      destruct (IH t (<[cur := y]> d)) as (cur' & d' & E & Hpost);
        rewrite ?length_insert; try lia; try done.
      * rewrite last_insert_lt by lia. done.
      * eapply push_down_heap; eauto; lia.
      * rewrite <- Hperm.
        assert (Hswap : <[t := top]> (<[cur := y]> (<[cur := top]> d)) ≡ₚ <[cur := top]> d).
        { apply insert_swap; [lia| |].
          - rewrite list_lookup_insert_ne; [done|lia].
          - rewrite list_lookup_insert_eq; [done|lia]. }
        by rewrite list_insert_insert_eq in Hswap.
      * intros i Hi Hmi. rewrite list_lookup_insert_ne by lia. auto.
      * intros p _. rewrite Hpt, list_lookup_insert_eq by lia. by intros [= <-].
      * exists cur', d'. auto.
  - exists cur, d. split; [done|]. unfold down_post. split_and!; auto.
    intros i x Hi Hp _. destruct (parent_child i cur) as [-> | ->]; lia || done.
Qed.

(** The heap that the concurrent history has already seen: [mark] elements, or
    the first one when the heap is empty and something was pushed. *)
Definition merged (q : concurrent_priority_queue) : nat :=
  mark q `max` (1 `min` length (data q)).

Lemma insert_back_heap m cur top back d0 d :
  down_post m cur top back d0 d → heap_prefix m (<[cur := back]> d).
Proof.
  intros (Hlen & Hcur & Hlast & Hcm & Hheap & _ & _ & Hup & Hdown) i x p Hi Hx Hp.
  pose proof (parent_lt i ltac:(lia)).
  destruct (decide (i = cur)) as [->|].
  - rewrite list_lookup_insert_eq in Hx by done.
    rewrite list_lookup_insert_ne in Hp by lia. simplify_eq. apply Hup; [lia|done].
  - rewrite list_lookup_insert_ne in Hx by done.
    destruct (decide (parent i = cur)) as [E|].
    + rewrite E, list_lookup_insert_eq in Hp by done. simplify_eq. by eapply Hdown.
    + rewrite list_lookup_insert_ne in Hp by done. by eapply Hheap.
Qed.

Lemma heap_prefix_take n k d :
  n ≤ k → heap_prefix n d → heap_prefix n (take k d).
Proof.
  intros Hk Hh i x p Hi. pose proof (parent_lt i ltac:(lia)).
  rewrite !lookup_take_lt by lia. by apply Hh.
Qed.

(** Filling the hole at [cur] with the last element and dropping it. *)
Lemma fill_hole_perm cur top back d0 (d : list T) :
  cur ≠ length d - 1 → cur < length d → last d = Some back → <[cur := top]> d ≡ₚ d0 →
  top :: take (length d - 1) (<[cur := back]> d) ≡ₚ d0.
Proof.
  intros Hne Hcur Hlast Hperm. rewrite last_lookup in Hlast.
  replace (pred (length d)) with (length d - 1) in Hlast by lia.
  pose proof (last_lookup_take _ _ Hlast) as E.
  set (l := take (length d - 1) d) in *.
  assert (Hl : length l = length d - 1) by (subst l; rewrite length_take; lia).
  assert (Hi : ∀ y, <[cur := y]> d = <[cur := y]> l ++ [back]).
  { intros y. rewrite E at 1. rewrite insert_app_l by lia. done. }
  rewrite Hi in Hperm. rewrite Hi, <- Hl, <- (length_insert l cur back), take_app_length.
  rewrite <- Hperm, (Permutation_app_comm _ [back]). simpl.
  destruct (lookup_lt_is_Some_2 l cur) as [z Hz]; [lia|].
  apply (Permutation_cons_inv (a := z)).
  rewrite Permutation_swap, (insert_hole l cur z back Hz).
  rewrite (Permutation_swap back z), (insert_hole l cur z top Hz).
  apply Permutation_swap.
Qed.

(** [reheap] removes the root, keeps the heap and what is past it. *)
Lemma reheap_spec q top :
  mark q ≤ length (data q) → heap_prefix (mark q) (data q) →
  data q !! 0 = Some top →
  ∃ q', reheap q = Some q' ∧ top :: data q' ≡ₚ data q ∧
        my_size q' = my_size q ∧
        mark q' = mark q `min` (length (data q) - 1) ∧
        heap_prefix (mark q') (data q') ∧
        drop (merged q) (data q') = drop (merged q) (take (length (data q) - 1) (data q)).
Proof.
  intros Hm Hheap Htop.
  assert (Hpos : 0 < length (data q)) by (apply lookup_lt_Some in Htop; lia).
  destruct (last (data q)) as [back|] eqn:Hlast; cycle 1.
  { apply last_None in Hlast. rewrite Hlast in Hpos. simpl in Hpos. lia. }
  unfold reheap.
  destruct (push_down_spec (S (length (data q))) (mark q) 0 top back (data q) (data q))
    as (cur & d & -> & Hpost); auto with lia.
  { by rewrite list_insert_id. }
  pose proof Hpost as (Hlen & Hcur & Hl & Hcm & _ & Hperm & Hout & _).
  pose proof (insert_back_heap _ _ _ _ _ _ Hpost) as Hfill.
  destruct Hpost as (_ & _ & _ & _ & Hh & _).
  opt_simpl. rewrite Hl. opt_simpl.
  set (d' := if negb (cur =? length d - 1) then <[cur := back]> d else d).
  assert ((if negb (cur =? length d - 1) then write d cur back else Some d) = Some d') as ->.
  { subst d'. destruct (cur =? length d - 1); [done|]. by rewrite write_Some. }
  assert (length d' = length d) as Hd'.
  { subst d'. destruct (cur =? length d - 1); simpl; by rewrite ?length_insert. }
  opt_simpl. rewrite pop_back_Some by lia. opt_simpl.
  assert (Hlt : length (take (length d' - 1) d') = length (data q) - 1)
    by (rewrite length_take; lia).
  assert (Hmark : (if length (take (length d' - 1) d') <? mark q
                   then length (take (length d' - 1) d') else mark q)
                  = mark q `min` (length (data q) - 1)).
  { rewrite Hlt. destruct (Nat.ltb_spec (length (data q) - 1) (mark q)); lia. }
  rewrite Hmark. eexists. split; [done|]. simpl. rewrite Hd', Hlen.
  split_and!; [|done|done| |].
  - rewrite <- Hlen. subst d'. destruct (Nat.eqb_spec cur (length d - 1)) as [E|E]; simpl.
    + rewrite <- Hperm, E, insert_last by lia. by rewrite Permutation_app_comm.
    + by apply fill_hole_perm.
  - apply heap_prefix_take; [lia|]. apply (heap_prefix_le _ (mark q)); [lia|].
    subst d'. by destruct (cur =? length d - 1).
  - apply list_eq. intros i. rewrite !lookup_drop.
    destruct (decide (merged q + i < length (data q) - 1)) as [Hi|Hi].
    + rewrite !lookup_take_lt by lia.
      assert (0 < merged q + i ∧ mark q ≤ merged q + i) by (unfold merged in *; lia).
      rewrite <- Hout by lia. subst d'.
      destruct (Nat.eqb_spec cur (length d - 1)); simpl; [done|].
      rewrite list_lookup_insert_ne; [done|lia].
    + rewrite !lookup_ge_None_2; [done|rewrite length_take; lia..].
Qed.

(** ** The abstract priority queue

    A state is a multiset, a list up to permutation.  A step answers one
    operation; [pq_run] answers a sequence of them one after the other. *)
Definition is_push (t : operation_type) : bool :=
  match t with POP_OP => false | _ => true end.

Inductive pq_step (M : list T) : answer → list T → Prop :=
  | pq_push o M' :
      is_push (optype o) = true → M' ≡ₚ elem o :: M →
      pq_step M (Answer o SUCCEEDED None) M'
  | pq_push_failed o M' :
      is_push (optype o) = true → throws o = true → M' ≡ₚ M →
      pq_step M (Answer o FAILED None) M'
  | pq_pop o x M' :
      optype o = POP_OP → M ≡ₚ x :: M' → (∀ y, y ∈ M → higher x y) →
      pq_step M (Answer o SUCCEEDED (Some x)) M'
  | pq_pop_empty o M' :
      optype o = POP_OP → M = [] → M' = [] →
      pq_step M (Answer o FAILED None) M'.

Inductive pq_run (M : list T) : list answer → list T → Prop :=
  | pq_nil M' : M' ≡ₚ M → pq_run M [] M'
  | pq_snoc l a M1 M' : pq_run M l M1 → pq_step M1 a M' → pq_run M (l ++ [a]) M'.

(** Between two batches everything is in the heap and the size is exact. *)
Definition wf (q : concurrent_priority_queue) : Prop :=
  mark q = length (data q) ∧ my_size q = length (data q) ∧
  heap_prefix (mark q) (data q).

Definition accepted (o : cpq_operation) : answer := Answer o SUCCEEDED None.

(** During a batch the answers [done] so far are those of a sequential run
    [lin] that leads to the merged elements, and of pushes [pend], one for each
    other element, which take effect later. *)
Definition pass_inv (M0 : list T) (q : concurrent_priority_queue)
    (done : list answer) : Prop :=
  mark q ≤ length (data q) ∧ my_size q = length (data q) ∧
  heap_prefix (mark q) (data q) ∧
  ∃ lin pend M, done ≡ₚ lin ++ (accepted <$> pend) ∧ pq_run M0 lin M ∧
    M ≡ₚ take (merged q) (data q) ∧
    Forall (λ o, is_push (optype o) = true) pend ∧
    elem <$> pend = drop (merged q) (data q).

Lemma pq_step_perm M1 M2 a M' : M1 ≡ₚ M2 → pq_step M1 a M' → pq_step M2 a M'.
Proof.
  intros HM Hs. destruct Hs as [o M' ? H|o M' ?? H|o x M' ? H Hx|o M' ? -> ->].
  - apply pq_push; [done|]. by rewrite H, HM.
  - apply pq_push_failed; [done|done|]. by rewrite H.
  - apply pq_pop; [done|by rewrite <- HM|]. intros y. rewrite <- HM. apply Hx.
  - apply Permutation_nil_l in HM. by apply pq_pop_empty.
Qed.

(** The pushes that are still to take effect can do so now. *)
Lemma pq_run_pending M0 lin M pend :
  pq_run M0 lin M → Forall (λ o, is_push (optype o) = true) pend →
  pq_run M0 (lin ++ (accepted <$> pend)) ((elem <$> pend) ++ M).
Proof.
  revert M. induction pend as [|o pend IH] using rev_ind; intros M Hrun Hf.
  { by rewrite app_nil_r. }
  apply Forall_app in Hf as [Hf [Hpush _]%Forall_cons].
  rewrite !fmap_app, app_assoc. eapply pq_snoc; [by apply IH|].
  apply pq_push; [done|]. rewrite <- app_assoc. simpl. by rewrite Permutation_middle.
Qed.

Lemma merged_heap q :
  heap_prefix (mark q) (data q) → heap_prefix (merged q) (data q).
Proof.
  intros H. unfold merged. destruct (decide (mark q = 0)).
  - apply (heap_prefix_le _ 1); [lia|apply heap_prefix_1].
  - eapply heap_prefix_le; [|done]. lia.
Qed.

(** The root is above the merged elements. *)
Lemma merged_top q top y :
  heap_prefix (mark q) (data q) → data q !! 0 = Some top →
  y ∈ take (merged q) (data q) → higher top y.
Proof.
  intros Hh Htop [i Hi]%list_elem_of_lookup.
  pose proof (lookup_lt_Some _ _ _ Hi) as Hlt. rewrite length_take in Hlt.
  rewrite lookup_take_lt in Hi by lia.
  eapply heap_top; [by apply merged_heap|done..|lia].
Qed.

Lemma last_is_higher_spec q b :
  last_is_higher q = Some b → mark q ≤ length (data q) → data q ≠ [] →
  ∃ top back, data q !! 0 = Some top ∧ last (data q) = Some back ∧
    (b = true → my_compare top back = true ∧ merged q < length (data q)) ∧
    (b = false → merged q < length (data q) → higher top back).
Proof.
  unfold last_is_higher. intros H Hm Hne.
  destruct (data q) as [|top d] eqn:E; [done|]. exists top.
  destruct (last (top :: d)) as [back|] eqn:El; [|by apply last_None in El].
  exists back. split_and!; [done|done| |].
  - intros ->. destruct (Nat.ltb_spec (mark q) (length (top :: d))); [|done].
    cbn in H. simplify_eq. split; [done|]. unfold merged. rewrite E.
    destruct d as [|z d]; simpl in *; [|lia].
    simplify_eq. by rewrite swo_irrefl in H.
  - intros -> Hmd. destruct (Nat.ltb_spec (mark q) (length (top :: d))); cycle 1.
    { unfold merged in Hmd. rewrite E in Hmd. lia. }
    cbn in H. by simplify_eq.
Qed.

Lemma last_is_higher_total q :
  mark q ≤ length (data q) → ∃ b, last_is_higher q = Some b.
Proof.
  intros Hm. unfold last_is_higher. destruct (Nat.ltb_spec (mark q) (length (data q))); [|eauto].
  destruct (data q) as [|x d] eqn:E; simpl in *; [lia|].
  destruct (last (x :: d)) eqn:El; [simpl; eauto|by apply last_None in El].
Qed.

(** The last element, when it is past the merged ones, is the last pending
    push. *)
Lemma pending_last q pend back :
  merged q < length (data q) → last (data q) = Some back →
  elem <$> pend = drop (merged q) (data q) →
  ∃ pend' o, pend = pend' ++ [o] ∧ elem o = back ∧
    elem <$> pend' = drop (merged q) (take (length (data q) - 1) (data q)) ∧
    data q = take (length (data q) - 1) (data q) ++ [back].
Proof.
  intros Hlt Hlast Hp. rewrite last_lookup in Hlast.
  replace (pred (length (data q))) with (length (data q) - 1) in Hlast by lia.
  pose proof (last_lookup_take _ _ Hlast) as E.
  rewrite E, drop_app_le in Hp by (rewrite length_take; lia).
  destruct pend as [|o pend _] using rev_ind.
  { apply (f_equal length) in Hp. rewrite length_app in Hp. simpl in Hp. lia. }
  rewrite fmap_app in Hp. apply app_inj_2 in Hp as [Hp [= Ho]]; [|done].
  eauto 10.
Qed.

(** A pop that takes the last element: its push takes effect just before. *)
Lemma pop_last_step M0 q tmp done :
  pass_inv M0 q done → last_is_higher q = Some true → data q ≠ [] →
  optype tmp = POP_OP →
  ∃ q' a, pop_last q tmp = Some (q', a) ∧ pass_inv M0 q' (done ++ [a]) ∧
          answered a = tmp.
Proof.
  intros (Hm & Hsz & Hheap & lin & pend & M & Hdone & Hrun & HM & Hpush & Hpend) Hb Hne Ht.
  destruct (last_is_higher_spec q true Hb Hm Hne) as (top & back & Htop & Hlast & Hhi & _).
  destruct (Hhi eq_refl) as [Hcmp Hlt].
  destruct (pending_last q pend back Hlt Hlast Hpend) as (pend' & o & -> & Ho & Hp' & Hd).
  unfold pop_last. rewrite Hlast. opt_simpl. rewrite pop_back_Some by lia. opt_simpl.
  eexists _, _. split; [done|]. split; [|done].
  set (q' := Cpq _ _ _).
  assert (Hmg : merged q' = merged q).
  { unfold merged in *. subst q'. cbn [mark data]. rewrite length_take. lia. }
  assert (Hl : length (data q') = length (data q) - 1) by (subst q'; simpl; rewrite length_take; lia).
  apply Forall_app in Hpush as [Hpush [Ho' _]%Forall_cons].
  assert (Htop' : ∀ y, y ∈ M → higher back y).
  { intros y Hy. rewrite HM in Hy. eapply higher_trans; [by apply lower_higher|].
    by eapply merged_top. }
  unfold pass_inv. rewrite Hl. split_and!.
  - unfold merged in Hlt. subst q'. cbn [mark]. lia.
  - subst q'. cbn [my_size]. lia.
  - apply heap_prefix_take; [|done]. unfold merged in Hlt. subst q'. cbn [mark]. lia.
  - exists ((lin ++ [accepted o]) ++ [Answer tmp SUCCEEDED (Some back)]), pend', M.
    split_and!.
    + rewrite Hdone, fmap_app. simpl. solve_Permutation.
    + eapply pq_snoc; [eapply pq_snoc; [done|]|].
      * by apply pq_push.
      * apply pq_pop; [done|by rewrite Ho|]. rewrite Ho.
        intros y [->|Hy]%elem_of_cons; [apply higher_refl|auto].
    + rewrite HM, Hmg. subst q'; simpl. rewrite take_take. f_equiv. f_equal. lia.
    + done.
    + rewrite Hp', Hmg. done.
Qed.

(** A pop that takes the root: the last element, when pending, takes effect
    just before. *)
Lemma reheap_step M0 q tmp top done :
  pass_inv M0 q done → last_is_higher q = Some false → data q !! 0 = Some top →
  optype tmp = POP_OP →
  ∃ q', reheap (Cpq (mark q) (my_size q - 1) (data q)) = Some q' ∧
        pass_inv M0 q' (done ++ [Answer tmp SUCCEEDED (Some top)]).
Proof.
  intros (Hm & Hsz & Hheap & lin & pend & M & Hdone & Hrun & HM & Hpush & Hpend) Hb Htop Ht.
  set (q1 := Cpq (mark q) (my_size q - 1) (data q)).
  destruct (reheap_spec q1 top) as (q' & -> & Hperm & Hsz' & Hmark' & Hheap' & Hdrop); [done..|].
  exists q'. split; [done|].
  change (data q1) with (data q) in *. change (merged q1) with (merged q) in *.
  change (mark q1) with (mark q) in *. change (my_size q1) with (my_size q - 1) in *.
  assert (Hne : data q ≠ []) by (intros E; by rewrite E in Htop).
  destruct (last_is_higher_spec q false Hb Hm Hne) as (top' & back & Htop' & Hlast & _ & Hhi).
  rewrite Htop in Htop'. injection Htop' as <-.
  assert (Hl : length (data q) = S (length (data q'))) by (by rewrite <- Hperm).
  unfold pass_inv. split_and!; [lia|lia|done|].
  destruct (decide (merged q < length (data q))) as [Hlt|Hge].
  - destruct (pending_last q pend back Hlt Hlast Hpend) as (pend' & o & -> & Ho & Hp' & Hd).
    apply Forall_app in Hpush as [Hpush [Ho' _]%Forall_cons].
    assert (Hmg : merged q' = merged q) by (unfold merged in *; lia).
    assert (HM' : top :: take (merged q) (data q') ≡ₚ back :: M).
    { apply (Permutation_app_inv_r (drop (merged q) (data q'))).
      rewrite <- app_comm_cons, take_drop, Hperm, Hdrop, HM.
      assert (take (merged q) (data q) = take (merged q) (take (length (data q) - 1) (data q))) as ->.
      { rewrite take_take. f_equal. lia. }
      rewrite <- app_comm_cons, take_drop, Permutation_cons_append. by rewrite <- Hd. }
    exists ((lin ++ [accepted o]) ++ [Answer tmp SUCCEEDED (Some top)]), pend',
      (take (merged q) (data q')).
    rewrite Hmg. split_and!; [|eapply pq_snoc; [eapply pq_snoc; [done|]|]|done|done|].
    + rewrite Hdone, fmap_app. simpl. solve_Permutation.
    + by apply pq_push.
    + apply pq_pop; [done|by rewrite Ho, HM'|]. rewrite Ho.
      intros y [->|Hy]%elem_of_cons; [by apply Hhi|].
      rewrite HM in Hy. eapply (merged_top q); eauto.
    + by rewrite Hp', Hdrop.
  - assert (Hmg : merged q' = length (data q')) by (unfold merged in *; lia).
    rewrite drop_ge in Hpend by lia. apply fmap_nil_inv in Hpend as ->.
    rewrite take_ge in HM by lia.
    exists (lin ++ [Answer tmp SUCCEEDED (Some top)]), [], (data q').
    rewrite Hmg, drop_ge, take_ge by lia.
    split_and!; [|eapply pq_snoc; [done|]|done|done|done].
    + rewrite Hdone. simpl. solve_Permutation.
    + apply pq_pop; [done|by rewrite HM|]. intros y. rewrite HM. intros Hy.
      eapply (merged_top q); [done..|]. by rewrite take_ge by lia.
Qed.

(** A push that is not the first element waits in [pend]. *)
Lemma push_step M0 q tmp done :
  pass_inv M0 q done → is_push (optype tmp) = true →
  pass_inv M0 (Cpq (mark q) (my_size q + 1) (data q ++ [elem tmp]))
    (done ++ [accepted tmp]).
Proof.
  intros (Hm & Hsz & Hheap & lin & pend & M & Hdone & Hrun & HM & Hpush & Hpend) Ht.
  set (q' := Cpq _ _ _).
  assert (Hl : length (data q') = S (length (data q))) by (subst q'; simpl; rewrite length_app; simpl; lia).
  unfold pass_inv. rewrite Hl. split_and!.
  - subst q'. cbn [mark]. lia.
  - subst q'. cbn [my_size]. lia.
  - intros i x p Hi. pose proof (parent_lt i ltac:(lia)). subst q'. cbn [mark data] in *.
    rewrite !lookup_app_l by lia. by apply Hheap.
  - destruct (decide (length (data q) = 0)) as [E|E].
    + exists (lin ++ [accepted tmp]), pend, (elem tmp :: M).
      apply nil_length_inv in E. assert (mark q = 0) by (rewrite E in Hm; simpl in Hm; lia).
      assert (merged q' = 1 ∧ merged q = 0) as [-> Hmg].
      { unfold merged. subst q'. cbn [mark data]. rewrite E. simpl. lia. }
      rewrite Hmg, E in *. simpl in Hpend. apply fmap_nil_inv in Hpend as ->.
      subst q'. cbn [data]. rewrite E. simpl in *.
      split_and!; [by rewrite Hdone, !app_nil_r|eapply pq_snoc; [done|by apply pq_push]|by rewrite HM|done|done].
    + exists lin, (pend ++ [tmp]), M.
      assert (merged q' = merged q) as ->.
      { unfold merged. subst q'. cbn [mark data]. rewrite length_app. simpl length. lia. }
      assert (merged q ≤ length (data q)) by (unfold merged; lia).
      subst q'. cbn [data]. rewrite take_app_le, drop_app_le, fmap_app, <- Hpend by lia.
      split_and!; [|done|done|by apply Forall_app; auto|by rewrite fmap_app].
      rewrite Hdone. by rewrite app_assoc.
Qed.

(** An answer that changes nothing: a failed push, or a pop of nothing. *)
Lemma idle_step M0 q a done :
  pass_inv M0 q done →
  (∀ M, M ≡ₚ take (merged q) (data q) → pq_step M a M) →
  pass_inv M0 q (done ++ [a]).
Proof.
  intros (Hm & Hsz & Hheap & lin & pend & M & Hdone & Hrun & HM & Hpush & Hpend) Ha.
  split_and!; [done..|]. exists (lin ++ [a]), pend, M.
  split_and!; [|eapply pq_snoc; eauto|done|done|done].
  rewrite Hdone. solve_Permutation.
Qed.

Lemma first_pass_spec M0 op_list : ∀ pop_list q done,
  pass_inv M0 q done → Forall (λ o, optype o = POP_OP) pop_list →
  ∃ q' pop_list' done', first_pass op_list pop_list q done = Some (q', pop_list', done') ∧
    pass_inv M0 q' done' ∧ Forall (λ o, optype o = POP_OP) pop_list' ∧
    pop_list' ++ (answered <$> done') ≡ₚ op_list ++ pop_list ++ (answered <$> done).
Proof.
  induction op_list as [|tmp op_list IH]; intros pop_list q done Hinv Hpop.
  { eexists _, _, _. by split_and!. }
  assert (Hpushcase : is_push (optype tmp) = true →
    ∃ q' pop_list' done',
      (if throws tmp then first_pass op_list pop_list q (done ++ [Answer tmp FAILED None])
       else first_pass op_list pop_list
              (Cpq (mark q) (my_size q + 1) (data q ++ [elem tmp]))
              (done ++ [Answer tmp SUCCEEDED None])) = Some (q', pop_list', done') ∧
      pass_inv M0 q' done' ∧ Forall (λ o, optype o = POP_OP) pop_list' ∧
      pop_list' ++ (answered <$> done') ≡ₚ (tmp :: op_list) ++ pop_list ++ (answered <$> done)).
  { intros Hp. destruct (throws tmp) eqn:Hthrow.
    - destruct (IH pop_list q (done ++ [Answer tmp FAILED None])) as (q' & pl & dn & -> & ? & ? & Hperm);
        [apply idle_step; [done|intros; by apply pq_push_failed]|done|].
      eexists _, _, _. split_and!; [done..|]. rewrite Hperm, fmap_app. simpl. solve_Permutation.
    - edestruct IH as (q' & pl & dn & -> & ? & ? & Hperm); [by apply push_step|done|].
      eexists _, _, _. split_and!; [done..|]. rewrite Hperm, fmap_app. simpl. solve_Permutation. }
  cbn [first_pass]. destruct (optype tmp) eqn:Ht; auto.
  destruct (last_is_higher_total q (proj1 Hinv)) as [b Hb]. rewrite Hb. opt_simpl.
  destruct b.
  - assert (Hne : data q ≠ []).
    { intros E. unfold last_is_higher in Hb. rewrite E in Hb. simpl in Hb.
      by destruct (mark q). }
    destruct (pop_last_step M0 q tmp done Hinv Hb Hne Ht) as (q1 & a & -> & Hinv1 & Ha). opt_simpl.
    destruct (IH pop_list q1 (done ++ [a]) Hinv1 Hpop) as (q' & pl & dn & -> & ? & ? & Hperm).
    eexists _, _, _. split_and!; [done..|]. rewrite Hperm, fmap_app. simpl. rewrite Ha. solve_Permutation.
  - destruct (IH (tmp :: pop_list) q done) as (q' & pl & dn & -> & ? & ? & Hperm); [done|by constructor|].
    eexists _, _, _. split_and!; [done..|]. rewrite Hperm. simpl. solve_Permutation.
Qed.

Lemma second_pass_spec M0 pop_list : ∀ q done,
  pass_inv M0 q done → Forall (λ o, optype o = POP_OP) pop_list →
  ∃ q' done', second_pass pop_list q done = Some (q', done') ∧
    pass_inv M0 q' done' ∧
    answered <$> done' ≡ₚ pop_list ++ (answered <$> done).
Proof.
  induction pop_list as [|tmp pop_list IH]; intros q done Hinv Hpop.
  { eexists _, _. by split_and!. }
  apply Forall_cons in Hpop as [Ht Hpop]. cbn [second_pass].
  destruct (data q) as [|top d] eqn:E.
  { edestruct IH as (q' & dn & -> & ? & Hperm); [|done|].
    - eapply idle_step; [done|]. intros M. rewrite E, take_nil. intros HM%Permutation_nil_r.
      by apply pq_pop_empty.
    - eexists _, _. split_and!; [done..|]. rewrite Hperm, fmap_app. simpl. solve_Permutation. }
  destruct (last_is_higher_total q (proj1 Hinv)) as [b Hb]. rewrite Hb. opt_simpl.
  assert (Hne : data q ≠ []) by by rewrite E.
  destruct b.
  - destruct (pop_last_step M0 q tmp done Hinv Hb Hne Ht) as (q1 & a & -> & Hinv1 & Ha). opt_simpl.
    destruct (IH q1 (done ++ [a]) Hinv1 Hpop) as (q' & dn & -> & ? & Hperm).
    eexists _, _. split_and!; [done..|]. rewrite Hperm, fmap_app. simpl. rewrite Ha. solve_Permutation.
  - destruct (reheap_step M0 q tmp top done Hinv Hb) as (q1 & Hr & Hinv1); [by rewrite E|done|].
    rewrite E in Hr. rewrite Hr. opt_simpl.
    destruct (IH q1 _ Hinv1 Hpop) as (q' & dn & -> & ? & Hperm).
    eexists _, _. split_and!; [done..|]. rewrite Hperm, fmap_app. simpl. solve_Permutation.
Qed.

Lemma pq_run_final M0 lin M M' : pq_run M0 lin M → M' ≡ₚ M → pq_run M0 lin M'.
Proof.
  intros Hr HM. destruct Hr as [M1 H|l a M1 M2 Hr Hs].
  - apply pq_nil. by rewrite HM.
  - eapply pq_snoc; [done|].
    destruct Hs as [o M2 ? H|o M2 ?? H|o x M2 ? H Hx|o M2 ? H ->].
    + apply pq_push; [done|by rewrite HM].
    + apply pq_push_failed; [done|done|by rewrite HM].
    + apply pq_pop; [done|by rewrite HM|done].
    + apply Permutation_nil_r in HM. by apply pq_pop_empty.
Qed.

Lemma pass_inv_merge M0 q done :
  pass_inv M0 q done →
  ∃ lin, lin ≡ₚ done ∧ pq_run M0 lin (data q).
Proof.
  intros (Hm & Hsz & Hheap & lin & pend & M & Hdone & Hrun & HM & Hpush & Hpend).
  exists (lin ++ (accepted <$> pend)). split; [done|].
  eapply pq_run_final; [by apply pq_run_pending|].
  rewrite Hpend, HM, Permutation_app_comm. by rewrite take_drop.
Qed.

Lemma handle_operations_spec (q : concurrent_priority_queue)
    (op_list : list cpq_operation) (Hwf : wf q) :
  ∃ q' answers, handle_operations op_list q = Some (q', answers) ∧
    wf q' ∧ answered <$> answers ≡ₚ op_list ∧
    ∃ lin, lin ≡ₚ answers ∧ pq_run (data q) lin (data q').
Proof.
  destruct Hwf as (Hmark & Hsz & Hheap). unfold handle_operations.
  assert (Hinv : pass_inv (data q) q []).
  { split_and!; [lia|done|done|]. assert (merged q = length (data q)) as Hmg by (unfold merged; lia).
    exists [], [], (data q). rewrite Hmg, take_ge, drop_ge by lia.
    split_and!; [done|by apply pq_nil|done|done|done]. }
  destruct (first_pass_spec _ op_list [] q [] Hinv) as (q1 & pl & dn & -> & Hinv1 & Hpl & Hp1); [done|].
  opt_simpl. destruct (second_pass_spec _ pl q1 dn Hinv1 Hpl) as (q2 & dn2 & -> & Hinv2 & Hp2).
  opt_simpl. destruct (pass_inv_merge _ _ _ Hinv2) as (lin & Hlin & Hrun).
  assert (Hans : answered <$> dn2 ≡ₚ op_list).
  { rewrite Hp2, Hp1. simpl. by rewrite app_nil_r. }
  destruct Hinv2 as (Hm2 & Hsz2 & Hheap2 & _).
  destruct (Nat.ltb_spec (mark q2) (length (data q2))) as [Hlt|Hge].
  - destruct (heapify_spec q2 Hm2 Hheap2) as (q3 & -> & Hd & Hmk & Hs & Hh). opt_simpl.
    eexists _, _. split; [done|]. rewrite <- Hd in Hmk, Hsz2. rewrite <- Hmk in Hh at 1 || rewrite <- Hd, <- Hmk in Hh.
    split_and!; [split_and!; [done|lia|done]|done|].
    exists lin. split; [done|]. by eapply pq_run_final.
  - opt_simpl. eexists _, _. split; [done|].
    split_and!; [split_and!; [lia|done|done]|done|eauto].
Qed.

(** C8: every batch of operations is handled within the bounds of the vector,
    answers each operation of the batch exactly once, leaves a heap of exactly
    [my_size] elements, and is linearizable: there is an order [lin] of the
    answers in which a sequential priority queue that starts with the old
    contents gives these answers and ends with the new contents. *)
Theorem handle_operations_linearizable (q : concurrent_priority_queue)
    (op_list : list cpq_operation) (Hwf : wf q) :
  ∃ q' answers, handle_operations op_list q = Some (q', answers) ∧
    wf q' ∧ answered <$> answers ≡ₚ op_list ∧
    ∃ lin, lin ≡ₚ answers ∧ pq_run (data q) lin (data q').
Proof.
  by apply handle_operations_spec.
Qed.

(** The range constructor and [assign] accept any sequence and build a
    queue that satisfies the invariant and holds exactly that sequence. *)
Theorem assign_wf (l : list T) (q : concurrent_priority_queue) :
  (∃ q', from_range l = Some q' ∧ wf q' ∧ data q' ≡ₚ l) ∧
  (∃ q', assign l q = Some q' ∧ wf q' ∧ data q' ≡ₚ l).
Proof.
  unfold from_range, assign.
  destruct (heapify_spec (Cpq 0 0 l)) as (q1 & -> & Hd & Hm & _ & Hh);
    [simpl; lia|intros i x p Hi; simpl in Hi; lia|].
  destruct (heapify_spec (Cpq 0 (length l) l)) as (q2 & -> & Hd2 & Hm2 & Hs2 & Hh2);
    [simpl; lia|intros i x p Hi; simpl in Hi; lia|].
  simpl in *. split; eexists; (split; [done|]); unfold wf; simpl.
  - pose proof (Permutation_length Hd) as Hl. rewrite Hl, Hm. done.
  - pose proof (Permutation_length Hd2) as Hl. rewrite Hl, Hm2, Hs2. done.
Qed.

(** Popping until the queue is empty yields the elements in order of
    priority: one [try_pop] fails exactly on the empty queue, and otherwise
    removes an element no other element has priority over. *)
Theorem try_pop_highest (q : concurrent_priority_queue) (value : T) (Hwf : wf q) :
  ∃ q' r, try_pop value q = Some (q', r) ∧ wf q' ∧
    match r with
    | None => data q = [] ∧ data q' = []
    | Some x => data q ≡ₚ x :: data q' ∧ ∀ y, y ∈ data q → higher x y
    end.
Proof.
  unfold try_pop.
  destruct (handle_operations_spec q [CpqOperation 0 POP_OP value false] Hwf)
    as (q' & ans & -> & Hwf' & Hans & lin & Hlin & Hrun).
  apply Permutation_singleton_r in Hans.
  destruct ans as [|a [|]]; simplify_eq/=.
  apply Permutation_singleton_r in Hlin as ->.
  eexists _, _. split; [done|]. split; [done|].
  inversion Hrun as [|l a' M1 M' Hr Hs Hl]; subst.
  apply (app_inj_2 l []) in Hl as [-> [= ->]]; [|done].
  inversion Hr as [M'' HM|? ? ? ? ? ? Hbad]; [subst|by destruct l].
  apply (pq_step_perm _ _ _ _ HM) in Hs.
  destruct Hs as [o ? Ho|o ? Ho|o x ? Ho Hx Hhi|o ? Ho]; simplify_eq/=; auto.
Qed.
End cpq.

(** The state that the move constructor leaves behind is not a valid
    queue: after a queue of at least two elements has been moved from, a
    [push] succeeds and the next [try_pop] reads past the end of the vector. *)
Theorem moved_from_out_of_bounds {T} (my_compare : T → T → bool)
    (q : concurrent_priority_queue (T := T)) (x v : T)
    (Hwf : wf my_compare q) (Hlen : 2 ≤ length (data q)) :
  ∃ q1, push my_compare x (move q).2 = Some q1 ∧ data q1 = [x] ∧
        try_pop my_compare v q1 = None.
Proof.
  destruct Hwf as (Hm & _). unfold push, try_pop, handle_operations. simpl.
  destruct (mark q) as [|[|m]]; [lia..|].
  cbn. eexists. split; [done|]. split; [done|].
  cbn. unfold higher_child. by destruct m.
Qed.
End Cpq.

(** ** Witnesses *)
#[export] Instance Zltb_swo : StrictWeakOrder Z.ltb.
Proof. split; intros; rewrite ?Z.ltb_ge, ?Z.ltb_lt in *; lia. Qed.

Module CpqExamples.
Import Cpq.

Definition q3 : concurrent_priority_queue := Cpq 3 3 [6; 2; 4]%Z.

Definition batch : list cpq_operation :=
  [CpqOperation 0 PUSH_OP 5%Z false; CpqOperation 1 PUSH_RVALUE_OP 9%Z false;
   CpqOperation 2 POP_OP 0%Z false; CpqOperation 3 PUSH_OP 8%Z true;
   CpqOperation 4 POP_OP 0%Z false].

Lemma q3_wf : wf Z.ltb q3.
Proof.
  split_and!; [done..|]. intros i x p Hi.
  destruct i as [|[|[|i]]]; simpl in *; [lia| | |lia]; intros [= <-] [= <-]; done.
Qed.

Lemma handle_operations_linearizable_witness :
  wf Z.ltb q3 ∧
  ∃ q' answers, handle_operations Z.ltb batch q3 = Some (q', answers) ∧
    wf Z.ltb q' ∧ answered <$> answers ≡ₚ batch ∧
    ∃ lin, lin ≡ₚ answers ∧ pq_run Z.ltb (data q3) lin (data q').
Proof.
  split; [exact q3_wf|].
  exact (handle_operations_linearizable Z.ltb q3 batch q3_wf).
Defined.

Lemma try_pop_highest_witness :
  ∃ q', try_pop Z.ltb 0%Z q3 = Some (q', Some 6%Z) ∧ ∀ y, y ∈ data q3 → higher Z.ltb 6%Z y.
Proof.
  destruct (try_pop_highest Z.ltb q3 0%Z q3_wf) as (q' & r & E & _ & H).
  exists q'. vm_compute in E. injection E as <- <-. split; [done|apply H].
Defined.

Lemma assign_wf_witness :
  (∃ q', from_range Z.ltb [3; 1; 2]%Z = Some q' ∧ wf Z.ltb q' ∧ data q' ≡ₚ [3; 1; 2]%Z) ∧
  (∃ q', assign Z.ltb [3; 1; 2]%Z q3 = Some q' ∧ wf Z.ltb q' ∧ data q' ≡ₚ [3; 1; 2]%Z).
Proof. exact (assign_wf Z.ltb [3; 1; 2]%Z q3). Defined.

Lemma moved_from_out_of_bounds_witness :
  ∃ q1, push Z.ltb 1%Z (move q3).2 = Some q1 ∧ data q1 = [1%Z] ∧
        try_pop Z.ltb 0%Z q1 = None.
Proof.
  apply (moved_from_out_of_bounds Z.ltb q3 1%Z 0%Z q3_wf). simpl. lia.
Defined.
End CpqExamples.
