(* ===== verification/Market.v ===== *)
(** * The market: distribution of workers among arenas

    src/tbb/market.cpp, src/tbb/pm_client.h and the part of src/tbb/arena.cpp
    that turns requests into a demand.  Arenas ask for workers through their
    [pm_client]; the market recomputes after each change how many workers each
    arena may have, by priority level and proportionally within a level.

    All counters are of type [int].  An operation whose arithmetic overflows
    has undefined behaviour and no result here ([None]). *)

From stdpp Require Import base numbers sorting list.
From Stdlib Require Import ZArith Lia.
From S2P Require Import Prelude Utils.

Local Open Scope Z_scope.

Module Market.

(** The result of an [int] operation whose exact value is [x]. *)
Definition as_int (x : Z) : option Z :=
  if (- 2 ^ 31 <=? x) && (x <? 2 ^ 31) then Some x else None.

(** ** Arenas and their clients *)

(** The fields of [arena_base] that the market reads and writes. *)
Record arena := Arena {
  my_priority_level : nat;
  my_max_num_workers : Z;
  my_mandatory_requests : Z;
  my_total_num_workers_requested : Z;
  my_num_workers_allotted : Z;
  my_is_top_priority : bool;
}.

Definition is_arena_workerless (a : arena) : bool := my_max_num_workers a =? 0.

(** [arena::update_request]: the new arena and the pair (min, max) of workers
    it asks for. *)
Definition update_request (mandatory_delta workers_delta : Z) (a : arena)
  : option (arena * (Z * Z)) :=
  mandatory ← as_int (my_mandatory_requests a + mandatory_delta);
  let min_workers_request := if mandatory >? 0 then 1 else 0 in
  total ← as_int (my_total_num_workers_requested a + workers_delta);
  let max_workers_request :=
    clamp total 0
      (if (min_workers_request >? 0) && is_arena_workerless a then 1
       else my_max_num_workers a) in
  Some
    (Arena (my_priority_level a) (my_max_num_workers a) mandatory total
       (my_num_workers_allotted a) (my_is_top_priority a),
     (min_workers_request, max_workers_request)).

Definition set_allotment (allotment : Z) (a : arena) : arena :=
  Arena (my_priority_level a) (my_max_num_workers a) (my_mandatory_requests a)
    (my_total_num_workers_requested a) allotment (my_is_top_priority a).

Definition set_top_priority (b : bool) (a : arena) : arena :=
  Arena (my_priority_level a) (my_max_num_workers a) (my_mandatory_requests a)
    (my_total_num_workers_requested a) (my_num_workers_allotted a) b.

(** [ident] stands for the address of the client. *)
Record pm_client := PmClient {
  ident : nat;
  my_arena : arena;
  my_min_workers : Z;
  my_max_workers : Z;
}.

Definition priority_level (c : pm_client) : nat := my_priority_level (my_arena c).

(** [pm_client::update_request]: the new client and the change of its
    maximum. *)
Definition client_update_request (mandatory_delta workers_delta : Z) (c : pm_client)
  : option (pm_client * Z) :=
  '(a, (mn, mx)) ← update_request mandatory_delta workers_delta (my_arena c);
  delta ← as_int (mx - my_max_workers c);
  Some (PmClient (ident c) a mn mx, delta).

Definition on_arena (f : arena → arena) (c : pm_client) : pm_client :=
  PmClient (ident c) (f (my_arena c)) (my_min_workers c) (my_max_workers c).

(** ** The market *)
Definition num_priority_levels : nat := 3.

Record market := Mkt {
  my_num_workers_soft_limit : Z;
  my_total_demand : Z;
  my_priority_level_demand : list Z;
  my_mandatory_num_requested : Z;
  my_clients : list (list pm_client);
}.

(** [market::market] *)
Definition create (soft_limit : Z) : market :=
  Mkt soft_limit 0 (replicate num_priority_levels 0) 0
    (replicate num_priority_levels []).

(** The variables that the loops of [update_allotment] carry along. *)
Record loop := Loop {
  assigned : Z;
  carry : Z;
  max_priority_level : nat;
}.

(** The body of the inner loop of [update_allotment], for one client. *)
Definition allot_client (soft_limit max_workers assigned_per_priority demand : Z)
    (list_idx : nat) (s : loop) (client : pm_client) : option (pm_client * loop) :=
  if my_max_workers client =? 0 then Some (on_arena (set_allotment 0) client, s)
  else
    let level :=
      if (max_priority_level s =? num_priority_levels)%nat then list_idx
      else max_priority_level s in
    '(allotted, carry') ←
      (if soft_limit =? 0 then
         Some ((if (my_min_workers client >? 0) && (assigned s <? max_workers) then 1 else 0),
               carry s)
       else
         product ← as_int (my_max_workers client * assigned_per_priority);
         tmp ← as_int (product + carry s);
         if demand =? 0 then None
         else Some (Z.quot tmp demand, Z.rem tmp demand));
    assigned' ← as_int (assigned s + allotted);
    Some
      (on_arena (λ a, set_top_priority (list_idx =? level)%nat (set_allotment allotted a)) client,
       Loop assigned' carry' level).

(** The inner loop, over the clients in the order they are visited. *)
Fixpoint allot_clients (soft_limit max_workers assigned_per_priority demand : Z)
    (list_idx : nat) (s : loop) (clients : list pm_client)
  : option (list pm_client * loop) :=
  match clients with
  | [] => Some ([], s)
  | c :: clients =>
      '(c, s) ← allot_client soft_limit max_workers assigned_per_priority demand list_idx s c;
      '(cs, s) ←
        allot_clients soft_limit max_workers assigned_per_priority demand list_idx s clients;
      Some (c :: cs, s)
  end.

(** The outer loop, from level [list_idx] on. *)
Fixpoint allot_levels (soft_limit max_workers unassigned_workers : Z)
    (list_idx : nat) (s : loop) (demands : list Z) (levels : list (list pm_client))
  : option (list (list pm_client) * loop) :=
  match demands, levels with
  | demand :: demands, clients :: levels =>
      let assigned_per_priority := Z.min demand unassigned_workers in
      '(cs, s) ←
        allot_clients soft_limit max_workers assigned_per_priority demand list_idx s
          (reverse clients);
      '(ls, s) ←
        allot_levels soft_limit max_workers
          (unassigned_workers - assigned_per_priority) (S list_idx) s demands levels;
      Some (reverse cs :: ls, s)
  | _, _ => Some ([], s)
  end.

Definition effective_soft_limit (m : market) : Z :=
  if (my_mandatory_num_requested m >? 0) && (my_num_workers_soft_limit m =? 0) then 1
  else my_num_workers_soft_limit m.

(** [max_workers] of [update_allotment] *)
Definition max_workers (m : market) : Z :=
  Z.min (my_total_demand m) (effective_soft_limit m).

Definition run_allotment (m : market) : option (list (list pm_client) * loop) :=
  allot_levels (my_num_workers_soft_limit m) (max_workers m) (max_workers m) 0
    (Loop 0 0 num_priority_levels) (my_priority_level_demand m) (my_clients m).

Definition update_allotment (m : market) : option market :=
  '(clients, _) ← run_allotment m;
  Some (Mkt (my_num_workers_soft_limit m) (my_total_demand m) (my_priority_level_demand m)
          (my_mandatory_num_requested m) clients).

Definition register_client (c : pm_client) (m : market) : market :=
  Mkt (my_num_workers_soft_limit m) (my_total_demand m) (my_priority_level_demand m)
    (my_mandatory_num_requested m)
    (alter (λ cs, cs ++ [c]) (priority_level c) (my_clients m)).

(** Erase the first occurrence, as [std::find] and [erase] do. *)
Definition erase_client (id : nat) (cs : list pm_client) : option (list pm_client) :=
  '(i, _) ← list_find (λ c, ident c = id) cs;
  Some (take i cs ++ drop (S i) cs).

Definition unregister_client (id level : nat) (m : market) : option market :=
  cs ← my_clients m !! level;
  cs ← erase_client id cs;
  Some (Mkt (my_num_workers_soft_limit m) (my_total_demand m)
          (my_priority_level_demand m) (my_mandatory_num_requested m)
          (<[level := cs]> (my_clients m))).

Definition set_active_num_workers (soft_limit : Z) (m : market) : option market :=
  if my_num_workers_soft_limit m =? soft_limit then Some m
  else update_allotment
         (Mkt soft_limit (my_total_demand m) (my_priority_level_demand m)
            (my_mandatory_num_requested m) (my_clients m)).

(** [market::adjust_demand]; the second result is the delta handed to
    [notify_thread_request]. *)
Definition adjust_demand (id level : nat) (mandatory_delta workers_delta : Z)
    (m : market) : option (market * Z) :=
  cs ← my_clients m !! level;
  demand ← my_priority_level_demand m !! level;
  '(i, c) ← list_find (λ c, ident c = id) cs;
  '(c', delta) ← client_update_request mandatory_delta workers_delta c;
  total' ← as_int (my_total_demand m + delta);
  demand' ← as_int (demand + delta);
  mandatory' ← as_int (my_mandatory_num_requested m + mandatory_delta);
  m' ← update_allotment
         (Mkt (my_num_workers_soft_limit m) total'
            (<[level := demand']> (my_priority_level_demand m)) mandatory'
            (<[level := <[i := c']> cs]> (my_clients m)));
  Some (m', delta).

(** ** Invariant *)
Definition allotted (c : pm_client) : Z := my_num_workers_allotted (my_arena c).
Definition mandatory (c : pm_client) : Z := my_mandatory_requests (my_arena c).

(** A client's bounds are what its arena's requests give. *)
Definition client_ok (c : pm_client) : Prop :=
  0 ≤ my_max_num_workers (my_arena c) < 2 ^ 31 ∧
  snd <$> update_request 0 0 (my_arena c) = Some (my_min_workers c, my_max_workers c).

Definition inv (m : market) : Prop :=
  length (my_clients m) = num_priority_levels ∧
  0 ≤ my_num_workers_soft_limit m ∧
  my_total_demand m < 2 ^ 31 ∧
  my_priority_level_demand m = zsum my_max_workers <$> my_clients m ∧
  my_total_demand m = zsum id (my_priority_level_demand m) ∧
  my_mandatory_num_requested m = zsum (zsum mandatory) (my_clients m) ∧
  Forall (Forall client_ok) (my_clients m).

Lemma as_int_Some x y : as_int x = Some y ↔ y = x ∧ - 2 ^ 31 ≤ x < 2 ^ 31.
Proof.
  unfold as_int. split.
  - destruct (Z.leb_spec (- 2 ^ 31) x), (Z.ltb_spec x (2 ^ 31)); simpl; intros; by simplify_eq.
  - intros [-> [H1%Z.leb_le H2%Z.ltb_lt]]. by rewrite H1, H2.
Qed.

Lemma as_int_id x : - 2 ^ 31 ≤ x < 2 ^ 31 → as_int x = Some x.
Proof. intros. by apply as_int_Some. Qed.

Lemma update_request_Some md wd a a' mn mx :
  update_request md wd a = Some (a', (mn, mx)) →
  let mandatory := my_mandatory_requests a + md in
  let total := my_total_num_workers_requested a + wd in
  a' = Arena (my_priority_level a) (my_max_num_workers a) mandatory total
         (my_num_workers_allotted a) (my_is_top_priority a) ∧
  - 2 ^ 31 ≤ mandatory < 2 ^ 31 ∧ - 2 ^ 31 ≤ total < 2 ^ 31 ∧
  mn = (if mandatory >? 0 then 1 else 0) ∧
  mx = clamp total 0 (if (mn >? 0) && is_arena_workerless a then 1 else my_max_num_workers a).
Proof.
  unfold update_request. intros H.
  apply bind_Some in H as (x & [-> Hx]%as_int_Some & H).
  apply bind_Some in H as (y & [-> Hy]%as_int_Some & H). by simplify_eq/=.
Qed.

Lemma update_request_total a md wd :
  - 2 ^ 31 ≤ my_mandatory_requests a + md < 2 ^ 31 →
  - 2 ^ 31 ≤ my_total_num_workers_requested a + wd < 2 ^ 31 →
  is_Some (update_request md wd a).
Proof. intros H1 H2. unfold update_request. rewrite !as_int_id by done. eauto. Qed.

Lemma client_ok_request c :
  client_ok c → ∃ a, update_request 0 0 (my_arena c) = Some (a, (my_min_workers c, my_max_workers c)).
Proof. intros [_ ([a [mn mx]] & -> & [= -> ->])%fmap_Some]. eauto. Qed.

Lemma client_ok_bounds c :
  client_ok c → 0 ≤ my_max_workers c < 2 ^ 31 ∧ 0 ≤ my_min_workers c ≤ 1 ∧
  (my_min_workers c = 1 ↔ 0 < mandatory c).
Proof.
  intros Hok. destruct (client_ok_request c Hok) as (a & H).
  apply update_request_Some in H as (_ & _ & _ & -> & ->). destruct Hok as [Hm _].
  rewrite clamp_spec; unfold mandatory; repeat case_match; lia.
Qed.

(** ** The division of a level's workers *)

(** [c'] is [c] with [allotted] workers of a level where [apr] workers are
    available for a demand of [d]: never more than asked for, and the exact
    share rounded down or up. *)
Definition fair (apr d : Z) (c c' : pm_client) : Prop :=
  ident c' = ident c ∧ my_max_workers c' = my_max_workers c ∧
  my_min_workers c' = my_min_workers c ∧
  0 ≤ allotted c' ≤ my_max_workers c ∧
  my_max_workers c * apr / d ≤ allotted c' ≤ my_max_workers c * apr / d + 1.

Lemma share_bounds mx apr d ca :
  0 < mx → 0 ≤ apr ≤ d → 0 < d → 0 ≤ ca < d →
  0 ≤ (mx * apr + ca) / d ≤ mx ∧
  mx * apr / d ≤ (mx * apr + ca) / d ≤ mx * apr / d + 1.
Proof.
  intros Hmx Hapr Hd Hca. split; split.
  - apply Z.div_pos; nia.
  - apply Z.lt_succ_r, Z.div_lt_upper_bound; nia.
  - apply Z.div_le_mono; lia.
  - apply Z.lt_succ_r, Z.div_lt_upper_bound; [lia|].
    pose proof (Z.div_mod (mx * apr) d). pose proof (Z.mod_pos_bound (mx * apr) d). nia.
Qed.

Lemma div_mod_shift a b ca d :
  0 < d → (a + (b + ca) mod d) / d = (a + b + ca) / d - (b + ca) / d ∧
          (a + (b + ca) mod d) mod d = (a + b + ca) mod d.
Proof.
  intros Hd. pose proof (Z.div_mod (b + ca) d ltac:(lia)) as E.
  assert (a + b + ca = a + (b + ca) mod d + (b + ca) / d * d) as -> by lia.
  rewrite Z.div_add, Z.mod_add by lia. lia.
Qed.

(** The body of the loop for a client that asks for workers: within the bound
    on the demand the product does not overflow. *)
Lemma allot_client_share soft mw apr d idx s c :
  soft ≠ 0 → 0 < d → 0 ≤ apr ≤ d → 0 ≤ carry s < d → d * (apr + 1) ≤ 2 ^ 31 →
  0 < my_max_workers c ≤ d → 0 ≤ assigned s →
  let tmp := my_max_workers c * apr + carry s in
  assigned s + tmp / d < 2 ^ 31 →
  ∃ c' lvl, allot_client soft mw apr d idx s c = Some (c', Loop (assigned s + tmp / d) (tmp mod d) lvl) ∧
    allotted c' = tmp / d ∧ fair apr d c c'.
Proof.
  intros Hsoft Hd Hapr Hc Hb Hm Ha tmp Hs.
  assert (Ht : 0 ≤ tmp) by (unfold tmp; nia).
  unfold allot_client. rewrite (proj2 (Z.eqb_neq _ _)) by lia.
  rewrite (proj2 (Z.eqb_neq soft 0) Hsoft), (as_int_id (my_max_workers c * apr)) by nia.
  cbn [mbind option_bind]. fold tmp. rewrite (as_int_id tmp) by (unfold tmp; nia).
  cbn [mbind option_bind]. rewrite (proj2 (Z.eqb_neq d 0)) by lia. cbn [mbind option_bind].
  rewrite Z.quot_div_nonneg, Z.rem_mod_nonneg by lia.
  rewrite as_int_id by (pose proof (Z.div_pos tmp d); lia).
  do 2 eexists. split; [reflexivity|]. unfold fair, allotted. simpl.
  pose proof (share_bounds (my_max_workers c) apr d (carry s)). unfold tmp in *. lia.
Qed.

Lemma allot_clients_share soft mw apr d idx s cs :
  soft ≠ 0 → 0 < d → 0 ≤ apr ≤ d → d * (apr + 1) ≤ 2 ^ 31 →
  0 ≤ carry s < d → 0 ≤ assigned s →
  Forall (λ c, 0 ≤ my_max_workers c ≤ d) cs →
  assigned s + (zsum my_max_workers cs * apr + carry s) / d < 2 ^ 31 →
  ∃ cs' s', allot_clients soft mw apr d idx s cs = Some (cs', s') ∧
    assigned s' = assigned s + (zsum my_max_workers cs * apr + carry s) / d ∧
    carry s' = (zsum my_max_workers cs * apr + carry s) mod d ∧
    zsum allotted cs' = assigned s' - assigned s ∧
    Forall2 (fair apr d) cs cs'.
Proof.
  intros Hsoft Hd Hapr Hb. revert s.
  induction cs as [|c cs IH]; intros s Hc Ha Hf Hs.
  { exists [], s. rewrite !zsum_nil, Z.div_small, Z.mod_small by lia.
    split_and!; try lia; constructor. }
  apply Forall_cons in Hf as [Hc0 Hf]. simpl. rewrite zsum_cons in Hs.
  destruct (Z.eqb_spec (my_max_workers c) 0) as [E|E].
  - destruct (IH s) as (cs1 & s1 & Hr & H1 & H2 & H3 & H4); [done..|by rewrite E in Hs|].
    unfold allot_client. rewrite E, Z.eqb_refl. cbn [mbind option_bind]. rewrite Hr.
    do 2 eexists. split; [reflexivity|]. rewrite !zsum_cons, E. split_and!; [done..|].
    constructor; [|done]. unfold fair, allotted. simpl. rewrite E. simpl.
    rewrite Z.div_0_l by lia. lia.
  - assert (Hz : 0 ≤ zsum my_max_workers cs).
    { apply zsum_nonneg. eapply Forall_impl; [exact Hf|]. simpl. lia. }
    set (tmp := my_max_workers c * apr + carry s).
    destruct (div_mod_shift (zsum my_max_workers cs * apr) (my_max_workers c * apr) (carry s) d Hd)
      as [Hdiv Hmod]. fold tmp in Hdiv, Hmod.
    replace ((my_max_workers c + zsum my_max_workers cs) * apr + carry s)
      with (zsum my_max_workers cs * apr + my_max_workers c * apr + carry s) in * by lia.
    assert (Hmono : tmp / d ≤ (zsum my_max_workers cs * apr + my_max_workers c * apr + carry s) / d)
      by (apply Z.div_le_mono; unfold tmp; nia).
    pose proof (Z.div_pos tmp d ltac:(unfold tmp; nia) Hd) as Hpos.
    pose proof (Z.mod_pos_bound tmp d Hd) as Hrem.
    destruct (allot_client_share soft mw apr d idx s c) as (c' & lvl & -> & Hal & Hfair);
      [lia..|unfold tmp in *; lia|].
    fold tmp in Hal |- *. cbn [mbind option_bind].
    destruct (IH (Loop (assigned s + tmp / d) (tmp mod d) lvl)) as (cs1 & s1 & -> & H1 & H2 & H3 & H4);
      simpl in *; [lia|lia|done|lia|].
    do 2 eexists. split; [reflexivity|]. rewrite !zsum_cons.
    replace ((my_max_workers c + zsum my_max_workers cs) * apr + carry s)
      with (zsum my_max_workers cs * apr + my_max_workers c * apr + carry s) by lia.
    split_and!; [lia|by rewrite H2|lia|by constructor].
Qed.

(** With no demand on a level nobody gets anything there. *)
Lemma allot_clients_idle soft mw apr d idx s cs :
  Forall (λ c, my_max_workers c = 0) cs →
  ∃ cs', allot_clients soft mw apr d idx s cs = Some (cs', s) ∧
    zsum allotted cs' = 0 ∧ Forall2 (fair 0 1) cs cs'.
Proof.
  induction 1 as [|c cs Hc _ IH]; simpl; [by exists []|].
  unfold allot_client. rewrite Hc. cbn [Z.eqb mbind option_bind].
  destruct IH as (cs1 & -> & Hs & Hf). eexists. split; [reflexivity|].
  rewrite zsum_cons, Hs. split; [done|].
  constructor; [|done]. unfold fair, allotted. simpl. rewrite Hc. done.
Qed.

Lemma zsum_zero {A} (f : A → Z) l :
  Forall (λ x, 0 ≤ f x) l → zsum f l = 0 → Forall (λ x, f x = 0) l.
Proof.
  induction 1 as [|x l Hx Hl IH]; intros Hs; [done|].
  rewrite zsum_cons in Hs. pose proof (zsum_nonneg f l Hl).
  constructor; [lia|apply IH; lia].
Qed.

Lemma zsum_bound {A} (f : A → Z) l :
  Forall (λ x, 0 ≤ f x) l → Forall (λ x, 0 ≤ f x ≤ zsum f l) l.
Proof.
  induction 1 as [|x l Hx Hl IH]; [done|]. pose proof (zsum_nonneg f l Hl).
  rewrite zsum_cons. constructor; [lia|].
  eapply Forall_impl; [exact IH|]. simpl. lia.
Qed.

(** A whole level: its [apr] workers are all handed out, and the carry is
    back to zero at the end. *)
Lemma allot_level soft mw apr idx s cs :
  let d := zsum my_max_workers cs in
  soft ≠ 0 → carry s = 0 → Forall (λ c, 0 ≤ my_max_workers c) cs → 0 ≤ apr ≤ d →
  d * (apr + 1) ≤ 2 ^ 31 → 0 ≤ assigned s → assigned s + apr < 2 ^ 31 →
  ∃ cs' s', allot_clients soft mw apr d idx s (reverse cs) = Some (cs', s') ∧
    carry s' = 0 ∧ assigned s' = assigned s + apr ∧ zsum allotted (reverse cs') = apr ∧
    Forall2 (fair apr (Z.max 1 d)) cs (reverse cs').
Proof.
  intros d Hsoft Hc Hf Hapr Hb Ha Hs.
  destruct (decide (0 < d)) as [Hd|Hd].
  - assert (Hdiv : (zsum my_max_workers (reverse cs) * apr + carry s) / d = apr ∧
                   (zsum my_max_workers (reverse cs) * apr + carry s) mod d = 0).
    { rewrite zsum_reverse, Hc, Z.add_0_r, Z.mul_comm. fold d.
      by rewrite Z.div_mul, Z.mod_mul by lia. }
    destruct Hdiv as [Hdiv Hmod].
    destruct (allot_clients_share soft mw apr d idx s (reverse cs))
      as (cs' & s' & Hr & H1 & H2 & H3 & H4); [lia..| |lia|].
    { by apply Forall_reverse, zsum_bound. }
    exists cs', s'. rewrite zsum_reverse, H3, Z.max_r by lia.
    split_and!; [done|lia|lia|lia|].
    apply Forall2_reverse in H4. by rewrite reverse_involutive in H4.
  - assert (E : d = 0) by (pose proof (zsum_nonneg _ _ Hf); unfold d in *; lia).
    pose proof (zsum_zero _ _ Hf E) as Hz.
    destruct (allot_clients_idle soft mw apr d idx s (reverse cs))
      as (cs' & Hr & Hsum & Hfair); [by apply Forall_reverse|].
    exists cs', s. assert (apr = 0) as -> by lia. rewrite zsum_reverse.
    split_and!; [done|done|lia|done|]. rewrite E.
    apply Forall2_reverse in Hfair. by rewrite reverse_involutive in Hfair.
Qed.

(** The bound under which no product of [update_allotment] overflows, for a
    level with demand [d]. *)
Definition no_overflow (soft_limit d : Z) : Prop := d * (Z.min d soft_limit + 1) ≤ 2 ^ 31.

Lemma allot_levels_spec soft mw u idx s levels :
  soft ≠ 0 → carry s = 0 → 0 ≤ u ≤ soft → 0 ≤ assigned s → assigned s + u < 2 ^ 31 →
  Forall (Forall (λ c, 0 ≤ my_max_workers c)) levels →
  Forall (no_overflow soft) (zsum my_max_workers <$> levels) →
  ∃ levels' s',
    allot_levels soft mw u idx s (zsum my_max_workers <$> levels) levels = Some (levels', s') ∧
    assigned s' = assigned s + Z.min (zsum (zsum my_max_workers) levels) u ∧
    (∀ n, zsum (zsum allotted) (take n levels') =
          Z.min (zsum (zsum my_max_workers) (take n levels)) u) ∧
    Forall2 (λ cs cs',
      Forall2 (fair (zsum allotted cs') (Z.max 1 (zsum my_max_workers cs))) cs cs')
      levels levels'.
Proof.
  intros Hsoft. revert u idx s.
  induction levels as [|cs levels IH]; intros u idx s Hc Hu Ha Hs Hf Ho.
  { exists [], s. cbn [allot_levels fmap list_fmap]. rewrite zsum_nil. split_and!; [done|lia| |done].
    intros n. rewrite take_nil, !zsum_nil. lia. }
  apply Forall_cons in Hf as [Hcs Hf]. apply Forall_cons in Ho as [Hcs' Ho].
  pose proof (zsum_nonneg _ _ Hcs) as Hd. unfold no_overflow in Hcs'.
  remember (Z.min (zsum my_max_workers cs) u) as apr eqn:Hapr.
  rewrite fmap_cons. cbn [allot_levels]. rewrite <- Hapr.
  destruct (allot_level soft mw apr idx s cs) as (cs1 & s1 & -> & Hc1 & Ha1 & Hs1 & Hf1);
    [done..|lia|nia|lia|lia|].
  cbn [mbind option_bind].
  destruct (IH (u - apr) (S idx) s1) as (ls & s2 & -> & Ha2 & Ht2 & Hf2); [done|lia..|done|done|].
  assert (Hnn : Forall (λ l, 0 ≤ zsum my_max_workers l) levels)
    by (eapply Forall_impl; [exact Hf|]; intros; by apply zsum_nonneg).
  do 2 eexists. split; [reflexivity|]. split_and!.
  - rewrite zsum_cons. pose proof (zsum_nonneg _ _ Hnn). lia.
  - intros [|n]; [rewrite !take_0, !zsum_nil; lia|]. simpl. rewrite !zsum_cons, Hs1, Ht2.
    pose proof (zsum_nonneg _ _ (Forall_take _ n _ Hnn)). lia.
  - constructor; [by rewrite Hs1|done].
Qed.

(** ** The zero limit: mandatory concurrency *)
Definition eligible (c : pm_client) : Z :=
  if negb (my_max_workers c =? 0) && (my_min_workers c >? 0) then 1 else 0.

Lemma eligible_nonneg c : 0 ≤ eligible c.
Proof. unfold eligible. by case_match. Qed.

Lemma zsum_eligible_nonneg cs : 0 ≤ zsum eligible cs.
Proof. apply zsum_nonneg, Forall_true. intros. apply eligible_nonneg. Qed.

Lemma allot_client_zero mw apr d idx s c :
  0 ≤ assigned s ≤ mw → mw < 2 ^ 31 →
  ∃ c' s', allot_client 0 mw apr d idx s c = Some (c', s') ∧
    assigned s' = Z.min mw (assigned s + eligible c) ∧
    allotted c' = assigned s' - assigned s ∧ ident c' = ident c ∧ 0 ≤ allotted c' ≤ eligible c.
Proof.
  intros Ha Hmw. unfold allot_client, eligible, allotted.
  destruct (Z.eqb_spec (my_max_workers c) 0) as [E|E]; cbn [negb andb mbind option_bind].
  { do 2 eexists. split; [reflexivity|]. simpl. split_and!; try done; lia. }
  rewrite Z.eqb_refl. cbn [mbind option_bind]. rewrite as_int_id by (repeat case_match; lia).
  do 2 eexists. split; [reflexivity|]. simpl.
  destruct (Z.gtb_spec (my_min_workers c) 0); destruct (Z.ltb_spec (assigned s) mw); simpl;
    split_and!; try done; lia.
Qed.

Lemma allot_clients_zero mw apr d idx s cs :
  0 ≤ assigned s ≤ mw → mw < 2 ^ 31 →
  ∃ cs' s', allot_clients 0 mw apr d idx s cs = Some (cs', s') ∧
    assigned s' = Z.min mw (assigned s + zsum eligible cs) ∧
    zsum allotted cs' = assigned s' - assigned s ∧
    Forall2 (λ c c', ident c' = ident c ∧ 0 ≤ allotted c' ≤ eligible c) cs cs'.
Proof.
  intros Ha Hmw. revert s Ha. induction cs as [|c cs IH]; intros s Ha; simpl.
  { exists [], s. rewrite !zsum_nil. split_and!; [done|lia|lia|done]. }
  destruct (allot_client_zero mw apr d idx s c Ha Hmw) as (c' & s0 & -> & H0 & Hal & Hid & Hb).
  cbn [mbind option_bind]. pose proof (eligible_nonneg c) as Hnn. pose proof (zsum_eligible_nonneg cs) as Hnns.
  destruct (IH s0) as (cs' & s' & -> & H1 & H2 & H3); [lia|].
  do 2 eexists. split; [reflexivity|]. rewrite !zsum_cons.
  split_and!; [lia|lia|]. by constructor.
Qed.

Lemma allot_levels_zero mw u idx s demands levels :
  0 ≤ assigned s ≤ mw → mw < 2 ^ 31 → length demands = length levels →
  ∃ levels' s', allot_levels 0 mw u idx s demands levels = Some (levels', s') ∧
    assigned s' = Z.min mw (assigned s + zsum (zsum eligible) levels) ∧
    zsum (zsum allotted) levels' = assigned s' - assigned s ∧
    Forall2 (Forall2 (λ c c', ident c' = ident c ∧ 0 ≤ allotted c' ≤ eligible c))
      levels levels'.
Proof.
  intros Ha Hmw. revert u idx s demands Ha.
  induction levels as [|cs levels IH]; intros u idx s [|d demands] Ha Hlen; simplify_eq/=.
  { exists [], s. rewrite !zsum_nil. split_and!; [done|lia|lia|done]. }
  destruct (allot_clients_zero mw (Z.min d u) d idx s (reverse cs) Ha Hmw)
    as (cs1 & s1 & -> & H1 & H2 & H3). cbn [mbind option_bind]. rewrite zsum_reverse in H1.
  assert (Hnn : 0 ≤ zsum (zsum eligible) levels).
  { apply zsum_nonneg, Forall_true. intros. apply zsum_eligible_nonneg. }
  pose proof (zsum_eligible_nonneg cs) as Hnns.
  destruct (IH (u - Z.min d u) (S idx) s1 demands) as (ls & s2 & -> & H4 & H5 & H6); [lia|lia|].
  do 2 eexists. split; [reflexivity|].
  rewrite !zsum_cons, zsum_reverse, H2, H5. split_and!; [lia|lia|].
  constructor; [|done]. apply Forall2_reverse in H3. by rewrite reverse_involutive in H3.
Qed.

(** ** Preservation of the invariant *)
Definition same_request (c c' : pm_client) : Prop :=
  my_max_workers c' = my_max_workers c ∧ mandatory c' = mandatory c ∧
  (client_ok c → client_ok c').

Lemma on_arena_same (f : arena → arena) c :
  my_max_num_workers (f (my_arena c)) = my_max_num_workers (my_arena c) →
  my_mandatory_requests (f (my_arena c)) = my_mandatory_requests (my_arena c) →
  my_total_num_workers_requested (f (my_arena c)) = my_total_num_workers_requested (my_arena c) →
  same_request c (on_arena f c).
Proof.
  intros Hw Hm Ht. split_and!; [done|done|]. intros Hok.
  destruct (client_ok_request c Hok) as (a & (_ & H1 & H2 & Hmn & Hmx)%update_request_Some).
  destruct Hok as [Hb _]. split; simpl; [by rewrite Hw|].
  unfold update_request, is_arena_workerless. rewrite Hw, Hm, Ht, !as_int_id by done.
  simpl. by rewrite Hmx, Hmn.
Qed.

Lemma allot_clients_same soft mw apr d idx s cs cs' s' :
  allot_clients soft mw apr d idx s cs = Some (cs', s') → Forall2 same_request cs cs'.
Proof.
  revert s cs'. induction cs as [|c cs IH]; intros s cs' H; simpl in H; [by simplify_eq|].
  apply bind_Some in H as ([c0 s0] & E0 & H). apply bind_Some in H as ([cs1 s1] & E1 & H).
  simplify_eq. constructor; [|by eapply IH].
  unfold allot_client in E0. destruct (my_max_workers c =? 0); [simplify_eq; by apply on_arena_same|].
  apply bind_Some in E0 as ([al ca] & _ & E0). apply bind_Some in E0 as (a & _ & E0).
  simplify_eq. by apply on_arena_same.
Qed.

Lemma allot_levels_same soft mw u idx s demands levels levels' s' :
  length demands = length levels →
  allot_levels soft mw u idx s demands levels = Some (levels', s') →
  Forall2 (Forall2 same_request) levels levels'.
Proof.
  revert u idx s demands levels'. induction levels as [|cs levels IH];
    intros u idx s [|d demands] levels' Hlen H; simplify_eq/=; [done|].
  apply bind_Some in H as ([cs1 s1] & E1 & H). apply bind_Some in H as ([ls s2] & E2 & H).
  simplify_eq. constructor; [|by eapply IH].
  apply allot_clients_same, Forall2_reverse in E1. by rewrite reverse_involutive in E1.
Qed.

Lemma Forall2_zsum {A} (f : A → Z) l l' :
  Forall2 (λ x y, f y = f x) l l' → zsum f l' = zsum f l.
Proof. induction 1; [done|]. rewrite !zsum_cons. lia. Qed.

Lemma update_allotment_inv m m' : inv m → update_allotment m = Some m' → inv m'.
Proof.
  intros (Hl & Hs & Hb & Hd & Ht & Hm & Hok) Hu.
  apply bind_Some in Hu as ([ls s] & Hr & Hu). injection Hu as <-.
  assert (H : Forall2 (Forall2 same_request) (my_clients m) ls).
  { eapply allot_levels_same; [|exact Hr]. by rewrite Hd, length_fmap. }
  assert (Hmax : zsum my_max_workers <$> ls = zsum my_max_workers <$> my_clients m).
  { clear -H. induction H as [|cs cs' l l' Hcs _ IH]; simpl; [done|]. f_equal; [|done].
    apply Forall2_zsum. eapply Forall2_impl; [done|]. by intros ?? [? _]. }
  unfold inv. simpl. rewrite Hmax. split_and!; try done.
  - rewrite <- (Forall2_length _ _ _ H). done.
  - etrans; [exact Hm|]. symmetry. apply Forall2_zsum. eapply Forall2_impl; [done|].
    intros cs cs' Hcs. apply Forall2_zsum. eapply Forall2_impl; [done|]. by intros ?? (_ & ? & _).
  - clear -H Hok. induction H as [|cs cs' l l' Hcs _ IH]; [done|].
    apply Forall_cons in Hok as [Hok1 Hok2]. constructor; [|auto].
    clear -Hcs Hok1. induction Hcs as [|??? ? (_ & _ & ?)]; [done|].
    apply Forall_cons in Hok1 as [? ?]. constructor; auto.
Qed.

Lemma client_update_request_ok md wd c c' delta :
  client_ok c → client_update_request md wd c = Some (c', delta) →
  client_ok c' ∧ my_max_workers c' = my_max_workers c + delta ∧
  mandatory c' = mandatory c + md ∧ ident c' = ident c.
Proof.
  intros [Hm _] H. unfold client_update_request in H.
  apply bind_Some in H as ([a [mn mx]] & Hu & H).
  apply bind_Some in H as (d & [-> _]%as_int_Some & H). simplify_eq/=.
  apply update_request_Some in Hu as (-> & H1 & H2 & Hmn & Hmx).
  split_and!; [|simpl; lia|done|done]. unfold client_ok, update_request. simpl.
  split; [done|]. rewrite !Z.add_0_r, !as_int_id by done. simpl. by rewrite Hmx, Hmn.
Qed.

Lemma list_find_lookup {A} (P : A → Prop) `{∀ x, Decision (P x)} (l : list A) i x :
  list_find P l = Some (i, x) → l !! i = Some x.
Proof. by intros [? _]%list_find_Some. Qed.

(** A change of one client's demand keeps the bookkeeping exact. *)
Lemma adjust_demand_spec (m : market) (id level : nat) (md wd : Z) (m' : market) (delta : Z)
    (Hinv : inv m) (H : adjust_demand id level md wd m = Some (m', delta)) :
  inv m' ∧ my_total_demand m' = my_total_demand m + delta.
Proof.
  unfold adjust_demand in H.
  destruct (my_clients m !! level) as [cs|] eqn:Hcs; [|done].
  destruct (my_priority_level_demand m !! level) as [dm|] eqn:Hdm; [|done].
  cbn [mbind option_bind] in H. destruct (list_find _ cs) as [[i c]|] eqn:Hfind; [|done].
  cbn [mbind option_bind] in H.
  apply list_find_lookup in Hfind.
  apply bind_Some in H as ([c' d] & Hc & H).
  apply bind_Some in H as (tot & [-> Htot]%as_int_Some & H).
  apply bind_Some in H as (dem & [-> _]%as_int_Some & H).
  apply bind_Some in H as (mand & [-> _]%as_int_Some & H).
  apply bind_Some in H as (m1 & Hu & H). injection H as <- <-.
  destruct Hinv as (Hl & Hs & Hb & Hd & Ht & Hm & Hok).
  pose proof (proj1 (Forall_lookup _ _) Hok _ _ Hcs) as Hokcs.
  pose proof (proj1 (Forall_lookup _ _) Hokcs _ _ Hfind) as Hokc.
  destruct (client_update_request_ok _ _ _ _ _ Hokc Hc) as (Hok' & Hmx & Hmd & _).
  split; [eapply update_allotment_inv; [|exact Hu]|
          apply bind_Some in Hu as ([ls s] & _ & Hu); by injection Hu as <-].
  split_and!; simpl; [by rewrite length_insert|done|lia| | | |].
  - rewrite list_fmap_insert, (zsum_insert _ _ _ _ _ Hfind), Hmx, <- Hd. f_equal.
    rewrite Hd, list_lookup_fmap, Hcs in Hdm. simplify_eq/=. lia.
  - rewrite Ht, (zsum_insert _ _ _ _ _ Hdm). unfold Datatypes.id. lia.
  - rewrite Hm, (zsum_insert _ _ _ _ _ Hcs), (zsum_insert _ _ _ _ _ Hfind), Hmd. lia.
  - apply Forall_insert; [done|]. by apply Forall_insert.
Qed.

(** ** Histories of the market *)

(** A client as [create_client] makes it. *)
Definition fresh_client (c : pm_client) : Prop :=
  my_min_workers c = 0 ∧ my_max_workers c = 0 ∧ mandatory c = 0 ∧
  my_total_num_workers_requested (my_arena c) = 0 ∧
  0 ≤ my_max_num_workers (my_arena c) < 2 ^ 31 ∧ (priority_level c < num_priority_levels)%nat.

(** The operations in any order.  A client is only unregistered when its arena
    has no request left, see [thread_dispatcher::try_unregister_client]. *)
Inductive reach (limit : Z) : market → Prop :=
  | reach_create : reach limit (create limit)
  | reach_register m c : reach limit m → fresh_client c → reach limit (register_client c m)
  | reach_unregister m m' id level :
      reach limit m →
      (∀ cs i c, my_clients m !! level = Some cs → list_find (λ c, ident c = id) cs = Some (i, c) →
         my_total_num_workers_requested (my_arena c) = 0 ∧ mandatory c = 0) →
      unregister_client id level m = Some m' → reach limit m'
  | reach_limit m m' soft_limit :
      reach limit m → 0 ≤ soft_limit < 2 ^ 31 →
      set_active_num_workers soft_limit m = Some m' → reach limit m'
  | reach_adjust m m' id level md wd delta :
      reach limit m → -1 ≤ md ≤ 1 → adjust_demand id level md wd m = Some (m', delta) →
      reach limit m'.

Lemma fresh_client_ok c : fresh_client c → client_ok c.
Proof.
  intros (Hmn & Hmx & Hm & Ht & Hw & _). split; [done|].
  unfold update_request, mandatory in *. rewrite Hm, Ht, Hmn, Hmx. simpl.
  by destruct (my_max_num_workers (my_arena c)) eqn:E; simpl; unfold clamp; simpl; repeat case_match.
Qed.

Lemma zsum_alter_zero (f : pm_client → Z) (levels : list (list pm_client)) lvl c :
  f c = 0 →
  zsum f <$> alter (λ cs, cs ++ [c]) lvl levels = zsum f <$> levels.
Proof.
  intros Hc. revert lvl. induction levels as [|cs levels IH]; intros [|lvl]; simpl; [done..| |].
  - f_equal. rewrite zsum_app, zsum_cons, zsum_nil. lia.
  - f_equal. apply IH.
Qed.

Lemma zsum_zsum {A} (f : A → Z) (l : list (list A)) :
  zsum (zsum f) l = zsum Datatypes.id (zsum f <$> l).
Proof. induction l as [|x l IH]; simpl; [done|]. by rewrite !zsum_cons, IH. Qed.

Lemma register_inv m c : inv m → fresh_client c → inv (register_client c m).
Proof.
  intros (Hl & Hs & Hb & Hd & Ht & Hm & Hok) Hc. pose proof (fresh_client_ok _ Hc) as Hcok.
  destruct Hc as (Hmn & Hmx & Hmd & _).
  split_and!; simpl; [by rewrite length_alter|done|done| |done| |].
  - by rewrite zsum_alter_zero.
  - rewrite Hm, !zsum_zsum. by rewrite zsum_alter_zero.
  - apply Forall_alter; [done|]. intros cs _ Hcs. by apply Forall_app_2; [|constructor].
Qed.

Lemma update_request_none c :
  client_ok c → my_total_num_workers_requested (my_arena c) = 0 → my_max_workers c = 0.
Proof.
  intros Hok Ht. destruct (client_ok_request c Hok) as (a & H).
  apply update_request_Some in H as (_ & _ & _ & _ & ->). destruct Hok as [Hw _].
  rewrite Ht. rewrite clamp_spec by (repeat case_match; lia). repeat case_match; lia.
Qed.

Lemma unregister_inv m m' id level :
  inv m →
  (∀ cs i c, my_clients m !! level = Some cs → list_find (λ c, ident c = id) cs = Some (i, c) →
     my_total_num_workers_requested (my_arena c) = 0 ∧ mandatory c = 0) →
  unregister_client id level m = Some m' → inv m'.
Proof.
  intros (Hl & Hs & Hb & Hd & Ht & Hm & Hok) Hreq H. unfold unregister_client, erase_client in H.
  destruct (my_clients m !! level) as [cs|] eqn:Hcs; [|done].
  cbn [mbind option_bind] in H. destruct (list_find _ cs) as [[i c]|] eqn:Hf; [|done].
  cbn [mbind option_bind] in H. injection H as <-.
  destruct (Hreq _ _ _ eq_refl Hf) as [Htot Hmand]. apply list_find_lookup in Hf.
  pose proof (proj1 (Forall_lookup _ _) Hok _ _ Hcs) as Hokcs.
  pose proof (update_request_none c (proj1 (Forall_lookup _ _) Hokcs _ _ Hf) Htot) as Hmx.
  assert (E : cs = take i cs ++ c :: drop (S i) cs) by (symmetry; by apply take_drop_middle).
  assert (Hsum : ∀ f, f c = 0 → zsum f (take i cs ++ drop (S i) cs) = zsum f cs).
  { intros f Hz. rewrite E at 3. rewrite !zsum_app, zsum_cons. lia. }
  split_and!; simpl; [by rewrite length_insert|done|done| |done| |].
  - rewrite list_fmap_insert, Hsum by done. rewrite list_insert_id; [done|].
    by rewrite list_lookup_fmap, Hcs.
  - rewrite Hm, (zsum_insert _ _ _ _ _ Hcs), Hsum by done. lia.
  - apply Forall_insert; [done|]. apply Forall_app_2; [by apply Forall_take|by apply Forall_drop].
Qed.

Lemma reach_inv limit m : 0 ≤ limit → reach limit m → inv m.
Proof.
  intros Hlim. induction 1 as [|m c _ IH Hc|m m' id level _ IH Hreq H|m m' l _ IH Hs H|m m' id level md wd d _ IH _ H].
  - split_and!; [done|done|done|done|done|done|]. repeat constructor.
  - by apply register_inv.
  - by eapply unregister_inv.
  - unfold set_active_num_workers in H. case_match; [by simplify_eq|].
    eapply update_allotment_inv; [|exact H].
    destruct IH as (Hl' & _ & IH). split_and!; [done|apply Hs|apply IH..].
  - by eapply adjust_demand_spec.
Qed.

Lemma max_workers_nonneg m :
  inv m → Forall (Forall (λ c, 0 ≤ my_max_workers c)) (my_clients m) ∧ 0 ≤ max_workers m.
Proof.
  intros (Hl & Hs & Hb & Hd & Ht & Hm & Hok).
  assert (Hnn : Forall (Forall (λ c, 0 ≤ my_max_workers c)) (my_clients m)).
  { eapply Forall_impl; [done|]. intros cs Hcs. eapply Forall_impl; [done|].
    intros c Hc. by apply client_ok_bounds in Hc as [[? _] _]. }
  split; [done|]. unfold max_workers, effective_soft_limit.
  assert (0 ≤ my_total_demand m).
  { rewrite Ht, Hd, <- zsum_zsum. apply zsum_nonneg. eapply Forall_impl; [done|].
    intros. by apply zsum_nonneg. }
  repeat case_match; lia.
Qed.

(** C24: after any history, recomputing the allotment under a positive limit
    hands out exactly [min(total demand, limit)] workers; the first [n]
    priority levels together get [min(their demand, limit)], so that a lower
    level only gets what the higher ones leave; and within a level every arena
    gets its proportional share of the level's workers, rounded down or up,
    and never more than it asked for.  The counters are 32-bit [int]s: the
    bound [d * (min(d, limit) + 1) <= 2^31] on the demand [d] of every level is
    what the products of the code need, and under it nothing overflows and
    nothing is divided by zero, so the recomputation has a result. *)
Theorem update_allotment_distributes (limit : Z) (m : market)
    (Hlim : 0 ≤ limit) (Hreach : reach limit m) (Hsoft : 0 < my_num_workers_soft_limit m)
    (Hint : Forall (no_overflow (my_num_workers_soft_limit m)) (my_priority_level_demand m)) :
  ∃ m' s,
  run_allotment m = Some (my_clients m', s) ∧ update_allotment m = Some m' ∧
  assigned s = Z.min (my_total_demand m) (my_num_workers_soft_limit m) ∧
  (∀ n, zsum (zsum allotted) (take n (my_clients m')) =
        Z.min (zsum Datatypes.id (take n (my_priority_level_demand m)))
              (my_num_workers_soft_limit m)) ∧
  Forall2 (λ cs cs',
    Forall2 (fair (zsum allotted cs') (Z.max 1 (zsum my_max_workers cs))) cs cs')
    (my_clients m) (my_clients m').
Proof.
  pose proof (reach_inv _ _ Hlim Hreach) as Hinv.
  destruct (max_workers_nonneg _ Hinv) as [Hnn Hmw].
  destruct Hinv as (Hl & Hs & Hb & Hd & Ht & Hm & Hok).
  assert (Htot : my_total_demand m = zsum (zsum my_max_workers) (my_clients m))
    by (by rewrite Ht, Hd, <- zsum_zsum).
  assert (Heff : max_workers m = Z.min (my_total_demand m) (my_num_workers_soft_limit m)).
  { unfold max_workers, effective_soft_limit.
    destruct (Z.eqb_spec (my_num_workers_soft_limit m) 0); [lia|]. by rewrite andb_false_r. }
  rewrite Hd in Hint.
  destruct (allot_levels_spec (my_num_workers_soft_limit m) (max_workers m) (max_workers m) 0
    (Loop 0 0 num_priority_levels) (my_clients m)) as (ls & s & Hr & H1 & H2 & H3);
    simpl; [lia..|done|done|].
  rewrite <- Hd in Hr. unfold update_allotment, run_allotment. rewrite Hr. simpl in *.
  eexists (Mkt _ _ _ _ _), s. split; [reflexivity|]. split; [reflexivity|]. simpl.
  split_and!; [lia| |done].
  intros n. rewrite H2, Heff, Hd, <- fmap_take, <- zsum_zsum.
  assert (zsum (zsum my_max_workers) (take n (my_clients m)) ≤ my_total_demand m); [|lia].
  rewrite Htot. rewrite <- (take_drop n (my_clients m)) at 2. rewrite zsum_app.
  assert (0 ≤ zsum (zsum my_max_workers) (drop n (my_clients m))); [|lia].
  apply zsum_nonneg, Forall_drop. eapply Forall_impl; [done|]. intros. by apply zsum_nonneg.
Qed.

(** Under a zero limit at most one worker is handed out in total, only
    while some arena has a mandatory request, and only to such an arena. *)
Theorem update_allotment_mandatory (limit : Z) (m : market)
    (Hlim : 0 ≤ limit) (Hreach : reach limit m) (Hsoft : my_num_workers_soft_limit m = 0) :
  ∃ m', update_allotment m = Some m' ∧
  zsum (zsum allotted) (my_clients m') =
    Z.min (max_workers m) (zsum (zsum eligible) (my_clients m)) ∧
  max_workers m = Z.min (my_total_demand m) (if my_mandatory_num_requested m >? 0 then 1 else 0) ∧
  Forall2 (Forall2 (λ c c', ident c' = ident c ∧ 0 ≤ allotted c' ∧
      (0 < allotted c' → 0 < mandatory c ∧ 0 < my_max_workers c)))
    (my_clients m) (my_clients m').
Proof.
  pose proof (reach_inv _ _ Hlim Hreach) as Hinv.
  destruct (max_workers_nonneg _ Hinv) as [Hnn Hmw].
  destruct Hinv as (Hl & Hs & Hb & Hd & Ht & Hm & Hok).
  unfold update_allotment, run_allotment. rewrite Hsoft.
  destruct (allot_levels_zero (max_workers m) (max_workers m) 0 (Loop 0 0 num_priority_levels)
    (my_priority_level_demand m) (my_clients m)) as (ls & s & -> & H1 & H2 & H3);
    [simpl; lia|unfold max_workers; lia|by rewrite Hd, length_fmap|].
  simpl in *. eexists. split; [reflexivity|]. simpl. split_and!; [lia| |].
  - unfold max_workers, effective_soft_limit. rewrite Hsoft. simpl.
    rewrite andb_true_r. by case_match.
  - clear -H3 Hok. induction H3 as [|cs cs' l l' Hcs _ IH]; [done|].
    apply Forall_cons in Hok as [Hok1 Hok2]. constructor; [|auto].
    clear -Hcs Hok1. induction Hcs as [|c c' cs cs' (Hid & Ha) _ IH]; [done|].
    apply Forall_cons in Hok1 as [Hc Hcs]. constructor; [|auto].
    apply client_ok_bounds in Hc as (Hb1 & Hb2 & Hb3). unfold eligible in Ha.
    split_and!; [done|lia|]. intros Hpos.
    destruct (Z.eqb_spec (my_max_workers c) 0); simpl in *; [lia|].
    destruct (Z.gtb_spec (my_min_workers c) 0); lia.
Qed.

(** The bookkeeping of the market is exact after any history: the demand
    of a level is the sum of its clients' maxima, the total demand the sum of
    the levels, the mandatory count the sum of the arenas' counts; and every
    [adjust_demand] reports the change of the total demand. *)
Theorem market_bookkeeping (limit : Z) (m m' : market) (id level : nat) (md wd delta : Z)
    (Hlim : 0 ≤ limit) (Hreach : reach limit m)
    (H : adjust_demand id level md wd m = Some (m', delta)) :
  inv m ∧ inv m' ∧ my_total_demand m' = my_total_demand m + delta.
Proof.
  pose proof (reach_inv _ _ Hlim Hreach) as Hinv.
  destruct (adjust_demand_spec _ _ _ _ _ _ _ Hinv H). auto.
Qed.
End Market.

Module MarketExamples.
Import Market.

Definition arena_of (level : nat) (max_num_workers : Z) : arena :=
  Arena level max_num_workers 0 0 0 false.
Definition client_of (i level : nat) (max_num_workers : Z) : pm_client :=
  PmClient i (arena_of level max_num_workers) 0 0.

Lemma fresh_client_of i level n :
  0 ≤ n < 2 ^ 31 → (level < num_priority_levels)%nat → fresh_client (client_of i level n).
Proof. intros [??] ?. by split_and!. Qed.

(** The market after [ops], each a client, its level and two deltas. *)
Fixpoint adjust_all (ops : list (nat * nat * Z * Z)) (m : market) : market :=
  match ops with
  | [] => m
  | (i, level, md, wd) :: ops =>
      match adjust_demand i level md wd m with
      | Some (m', _) => adjust_all ops m'
      | None => m
      end
  end.

Lemma adjust_all_reach limit ops m :
  Forall (λ '(_, _, md, _), -1 ≤ md ≤ 1) ops → reach limit m → reach limit (adjust_all ops m).
Proof.
  intros Hops. revert m. induction Hops as [|[[[i l] md] wd] ops Hmd _ IH]; intros m Hm; simpl; [done|].
  destruct (adjust_demand i l md wd m) as [[m' d]|] eqn:E; [|done].
  apply IH. by eapply reach_adjust.
Qed.

(** Two arenas of normal priority and one of low priority. *)
Definition three_arenas (limit : Z) : market :=
  register_client (client_of 2 2 4)
    (register_client (client_of 1 1 5)
       (register_client (client_of 0 1 1) (create limit))).

Lemma three_arenas_reach limit : reach limit (three_arenas limit).
Proof.
  unfold three_arenas.
  apply reach_register; [|apply fresh_client_of; unfold num_priority_levels; lia].
  apply reach_register; [|apply fresh_client_of; unfold num_priority_levels; lia].
  apply reach_register; [|apply fresh_client_of; unfold num_priority_levels; lia].
  apply reach_create.
Qed.

Definition busy (limit : Z) : market :=
  adjust_all [(0%nat, 1%nat, 1, 1); (1%nat, 1%nat, 0, 5); (2%nat, 2%nat, 0, 4)] (three_arenas limit).

Lemma busy_reach limit : reach limit (busy limit).
Proof. apply adjust_all_reach; [by repeat constructor|apply three_arenas_reach]. Qed.

Lemma update_allotment_distributes_witness :
  my_total_demand (busy 7) = 10 ∧
  ∃ m', update_allotment (busy 7) = Some m' ∧
    zsum (zsum allotted) (take 2 (my_clients m')) = 6 ∧
    zsum (zsum allotted) (take 3 (my_clients m')) = 7.
Proof.
  assert (Hd : my_priority_level_demand (busy 7) = [0; 6; 4]) by by vm_compute.
  assert (Hs : my_num_workers_soft_limit (busy 7) = 7) by by vm_compute.
  destruct (update_allotment_distributes 7 (busy 7)) as (m' & s & _ & Hu & _ & H & _);
    [lia|apply busy_reach|rewrite Hs; lia|rewrite Hd, Hs; by repeat constructor|].
  split; [by vm_compute|]. exists m'. split; [exact Hu|]. split.
  - rewrite (H 2%nat). by vm_compute.
  - rewrite (H 3%nat). by vm_compute.
Defined.

Lemma update_allotment_mandatory_witness :
  ∃ m', update_allotment (busy 0) = Some m' ∧ zsum (zsum allotted) (my_clients m') = 1.
Proof.
  destruct (update_allotment_mandatory 0 (busy 0)) as (m' & Hu & H & _);
    [lia|apply busy_reach|by vm_compute|].
  exists m'. split; [exact Hu|]. rewrite H. by vm_compute.
Defined.

Lemma market_bookkeeping_witness :
  ∃ m', adjust_demand 1 1 0 (-2) (busy 7) = Some (m', -2) ∧ inv m' ∧ my_total_demand m' = 8.
Proof.
  destruct (adjust_demand 1 1 0 (-2) (busy 7)) as [[m' d]|] eqn:E; [|by vm_compute in E].
  destruct (market_bookkeeping 7 (busy 7) m' 1 1 0 (-2) d ltac:(lia) (busy_reach 7) E)
    as (_ & Hinv & Ht).
  vm_compute in E. injection E as <- <-. eexists. split; [reflexivity|]. split; [exact Hinv|].
  exact Ht.
Defined.

(** The assertion at the end of [update_allotment], that the workers
    handed out are exactly [max_workers], can fail: with a zero limit, an
    arena whose mandatory request is outstanding while an external thread
    occupies its only worker slot, and another arena with demand, leave one
    worker unassigned. *)
Theorem mandatory_assertion_fails :
  ∃ m ls s, reach 0 m ∧ max_workers m = 1 ∧ run_allotment m = Some (ls, s) ∧ assigned s = 0.
Proof.
  exists (adjust_all [(0%nat, 1%nat, 1, 1); (0%nat, 1%nat, 0, -1); (1%nat, 1%nat, 0, 5)] (three_arenas 0)).
  do 2 eexists. split; [|by vm_compute].
  apply adjust_all_reach; [by repeat constructor|apply three_arenas_reach].
Qed.

(** Without the bound the products do overflow: one arena with 50,000 worker
    slots under a limit of as many workers, once all its slots are asked for. *)
Theorem allotment_overflows :
  let m := register_client (client_of 0 1 50000) (create 50000) in
  reach 50000 m ∧ adjust_demand 0 1 0 50000 m = None.
Proof.
  split; [|by vm_compute].
  apply reach_register; [apply reach_create|]. apply fresh_client_of; unfold num_priority_levels; lia.
Qed.
End MarketExamples.
