(* ===== verification/ThreadRequests.v ===== *)
(** * Requests for worker threads

    src/tbb/thread_request_serializer.cpp: the changes of the total demand that
    the market reports are aggregated in one atomic word and passed on to the
    thread dispatcher, cut to the soft limit; the proxy raises a zero limit to
    one while mandatory requests (enqueued tasks) exist.

    The methods run concurrently.  Each atomic operation and each section under
    the mutex is a function here, and a step relation interleaves the threads
    between them. *)

From stdpp Require Import base numbers sorting list relations.
From Stdlib Require Import ZArith Lia.
From S2P Require Import Prelude.

Local Open Scope Z_scope.

Module Requests.

(** ** thread_request_serializer *)
Definition pending_delta_base : Z := Z.shiftl 1 15.
Definition delta_mask : Z := Z.shiftl pending_delta_base 1 - 1.
Definition counter_value : Z := delta_mask + 1.

Definition u64 (x : Z) : Z := x mod 2 ^ 64.
(** Conversion of an unsigned value to [int]. *)
Definition to_int (x : Z) : Z := (x + 2 ^ 31) mod 2 ^ 32 - 2 ^ 31.

Record thread_request_serializer := Serializer {
  my_soft_limit : Z;
  my_total_request : Z;
  my_pending_delta : Z;
}.

Definition limit_delta (delta limit new_value : Z) : Z :=
  let prev_value := new_value - delta in
  let new_value := Z.min limit new_value in
  let prev_value := Z.min limit prev_value in
  new_value - prev_value.

(** [update], first atomic step: [fetch_add]; the second result tells whether
    this thread is the one to collect the pending deltas. *)
Definition update_add (delta : Z) (s : thread_request_serializer)
  : thread_request_serializer * bool :=
  let prev_pending_delta := to_int (my_pending_delta s) in
  (Serializer (my_soft_limit s) (my_total_request s)
     (u64 (my_pending_delta s + u64 (counter_value + delta))),
   u64 prev_pending_delta =? pending_delta_base).

(** [update], second atomic step: [exchange]. *)
Definition update_exchange (s : thread_request_serializer)
  : thread_request_serializer * Z :=
  (Serializer (my_soft_limit s) (my_total_request s) pending_delta_base,
   to_int (Z.land (my_pending_delta s) delta_mask) - pending_delta_base).

(** [update], the section under the mutex; the second result goes to
    [adjust_job_count_estimate].  The sum is an [int]; its overflow, which the
    language leaves undefined, is shown as the usual wrap-around.  The other
    subtractions of [limit_delta] cannot overflow: [new_value - delta] is the
    earlier total or the earlier limit, and see [limit_delta_bound]. *)
Definition update_locked (delta : Z) (s : thread_request_serializer)
  : thread_request_serializer * Z :=
  let total := to_int (my_total_request s + delta) in
  (Serializer (my_soft_limit s) total (my_pending_delta s),
   limit_delta delta (my_soft_limit s) total).

Definition serializer_set_active_num_workers (soft_limit : Z)
    (s : thread_request_serializer) : thread_request_serializer * Z :=
  let delta := soft_limit - my_soft_limit s in
  (Serializer soft_limit (my_total_request s) (my_pending_delta s),
   limit_delta delta (my_total_request s) soft_limit).

Definition is_no_workers_available (s : thread_request_serializer) : bool :=
  my_soft_limit s =? 0.

(** ** thread_request_serializer_proxy *)
Record proxy := Proxy {
  my_num_mandatory_requests : Z;
  my_is_mandatory_concurrency_enabled : bool;
  my_serializer : thread_request_serializer;
}.

(** What a thread still has to do inside one of the methods. *)
Inductive pc :=
  | AtExchange                   (* update, before the exchange *)
  | AtLock (delta : Z)           (* update, before the mutex *)
  | AtEnable                     (* enable_mandatory_concurrency *)
  | AtDisable.                   (* disable_mandatory_concurrency *)

(** [register_mandatory_request] up to the upgrade of the lock; the second
    result is what the thread goes on to do. *)
Definition register_mandatory_request (mandatory_delta : Z) (p : proxy)
  : proxy * list pc :=
  if negb (mandatory_delta =? 0) then
    let prev_value := my_num_mandatory_requests p in
    let should_try_enable := (mandatory_delta >? 0) && (prev_value =? 0) in
    let should_try_disable := (mandatory_delta <? 0) && (prev_value =? 1) in
    (Proxy (prev_value + mandatory_delta) (my_is_mandatory_concurrency_enabled p)
       (my_serializer p),
     if should_try_enable then [AtEnable]
     else if should_try_disable then [AtDisable] else [])
  else (p, []).

Definition enable_mandatory_concurrency (p : proxy) : proxy * Z :=
  let still_should_enable :=
    (my_num_mandatory_requests p >? 0) &&
    negb (my_is_mandatory_concurrency_enabled p) &&
    is_no_workers_available (my_serializer p) in
  if still_should_enable then
    let '(s, d) := serializer_set_active_num_workers 1 (my_serializer p) in
    (Proxy (my_num_mandatory_requests p) true s, d)
  else (p, 0).

Definition disable_mandatory_concurrency (p : proxy) : proxy * Z :=
  let still_should_disable :=
    (my_num_mandatory_requests p <=? 0) &&
    my_is_mandatory_concurrency_enabled p &&
    negb (is_no_workers_available (my_serializer p)) in
  if still_should_disable then
    let '(s, d) := serializer_set_active_num_workers 0 (my_serializer p) in
    (Proxy (my_num_mandatory_requests p) false s, d)
  else (p, 0).

Definition proxy_set_active_num_workers (soft_limit : Z) (p : proxy) : proxy * Z :=
  let '(enabled, soft_limit) :=
    if negb (soft_limit =? 0) then (false, soft_limit)
    else if my_num_mandatory_requests p >? 0 then (true, 1)
    else (my_is_mandatory_concurrency_enabled p, soft_limit) in
  let '(s, d) := serializer_set_active_num_workers soft_limit (my_serializer p) in
  (Proxy (my_num_mandatory_requests p) enabled s, d).

(** [num_workers_requested] *)
Definition num_workers_requested (p : proxy) : Z := my_total_request (my_serializer p).

(** ** The concurrent system *)

(** The shared object, the threads inside its methods, the sum [jobs] of the
    deltas the dispatcher was told, and the history variables: the sum
    [issued] of the deltas given to [update], the part [pending] of it that is
    in the atomic word, and the limit last set by the application. *)
Record system := System {
  shared : proxy;
  threads : list pc;
  jobs : Z;
  issued : Z;
  pending : Z;
  limit : Z;
}.

Definition with_serializer (p : proxy) (s : thread_request_serializer) : proxy :=
  Proxy (my_num_mandatory_requests p) (my_is_mandatory_concurrency_enabled p) s.

(** One step of one thread.  [may_set old new] restricts the calls of
    [set_active_num_workers].  An [update] may be called with any [int]; nothing
    keeps the pending sum within the 16 bits that the word has for it. *)
Inductive step (may_set : Z → Z → Prop) (σ : system) : system → Prop :=
  | step_update delta s' collect :
      - 2 ^ 31 ≤ delta < 2 ^ 31 →
      update_add delta (my_serializer (shared σ)) = (s', collect) →
      step may_set σ
        (System (with_serializer (shared σ) s')
           (if collect : bool then AtExchange :: threads σ else threads σ)
           (jobs σ) (issued σ + delta) (pending σ + delta) (limit σ))
  | step_exchange l1 l2 s' delta :
      threads σ = l1 ++ AtExchange :: l2 →
      update_exchange (my_serializer (shared σ)) = (s', delta) →
      step may_set σ
        (System (with_serializer (shared σ) s') (l1 ++ AtLock delta :: l2)
           (jobs σ) (issued σ) 0 (limit σ))
  | step_locked l1 l2 s' delta d :
      threads σ = l1 ++ AtLock delta :: l2 →
      update_locked delta (my_serializer (shared σ)) = (s', d) →
      step may_set σ
        (System (with_serializer (shared σ) s') (l1 ++ l2)
           (jobs σ + d) (issued σ) (pending σ) (limit σ))
  | step_mandatory md p' todo :
      -1 ≤ md ≤ 1 →
      register_mandatory_request md (shared σ) = (p', todo) →
      step may_set σ
        (System p' (todo ++ threads σ) (jobs σ) (issued σ) (pending σ) (limit σ))
  | step_enable l1 l2 p' d :
      threads σ = l1 ++ AtEnable :: l2 →
      enable_mandatory_concurrency (shared σ) = (p', d) →
      step may_set σ
        (System p' (l1 ++ l2) (jobs σ + d) (issued σ) (pending σ) (limit σ))
  | step_disable l1 l2 p' d :
      threads σ = l1 ++ AtDisable :: l2 →
      disable_mandatory_concurrency (shared σ) = (p', d) →
      step may_set σ
        (System p' (l1 ++ l2) (jobs σ + d) (issued σ) (pending σ) (limit σ))
  | step_set l p' d :
      0 ≤ l < 2 ^ 31 → may_set (limit σ) l →
      proxy_set_active_num_workers l (shared σ) = (p', d) →
      step may_set σ
        (System p' (threads σ) (jobs σ + d) (issued σ) (pending σ) l).

Definition init (soft_limit : Z) : system :=
  System (Proxy 0 false (Serializer soft_limit 0 pending_delta_base)) [] 0 0 0 soft_limit.

(** ** Invariant of the aggregation *)
Definition in_flight (t : pc) : Z := match t with AtLock delta => delta | _ => 0 end.

(** What the aggregation needs, and the code does not check: the sum of the
    deltas in the word stays within 15 bits and a sign, and the total request,
    the deltas a thread has collected and those in the word stay within an
    [int] together. *)
Definition fits (σ : system) : Prop :=
  - pending_delta_base ≤ pending σ < pending_delta_base ∧
  Z.abs (my_total_request (my_serializer (shared σ))) +
    zsum (λ t, Z.abs (in_flight t)) (threads σ) + Z.abs (pending σ) < 2 ^ 31.

(** A step of an execution that stays within these bounds. *)
Definition fitting_step (may_set : Z → Z → Prop) (σ σ' : system) : Prop :=
  step may_set σ σ' ∧ fits σ'.

Definition agg_inv (σ : system) : Prop :=
  let s := my_serializer (shared σ) in
  fits σ ∧
  0 ≤ my_pending_delta s < 2 ^ 64 ∧
  my_pending_delta s mod 2 ^ 16 = pending_delta_base + pending σ ∧
  (my_pending_delta s ≠ pending_delta_base → AtExchange ∈ threads σ) ∧
  my_total_request s + zsum in_flight (threads σ) + pending σ = issued σ ∧
  jobs σ = Z.min (my_soft_limit s) (my_total_request s).

Lemma mod_16_of_64 x : (x mod 2 ^ 64) mod 2 ^ 16 = x mod 2 ^ 16.
Proof. apply Z.mod_mod_divide. by exists (2 ^ 48). Qed.

(** Only the exact base looks like the base after the conversion to [int],
    up to a multiple of 2^32, so a thread that sees the base collects. *)
Lemma collects_at_base x : x = pending_delta_base → (u64 (to_int x) =? pending_delta_base) = true.
Proof. intros ->. reflexivity. Qed.

Lemma land_mask x : Z.land x delta_mask = x mod 2 ^ 16.
Proof. change delta_mask with (Z.ones 16). by rewrite Z.land_ones. Qed.

Lemma limit_delta_jobs delta lim new :
  limit_delta delta lim new = Z.min lim new - Z.min lim (new - delta).
Proof. done. Qed.

(** The result is never larger than [delta]. *)
Lemma limit_delta_bound delta lim new : Z.abs (limit_delta delta lim new) ≤ Z.abs delta.
Proof. rewrite limit_delta_jobs. lia. Qed.

Lemma to_int_id x : - 2 ^ 31 ≤ x < 2 ^ 31 → to_int x = x.
Proof. intros. unfold to_int. rewrite Z.mod_small; lia. Qed.

Lemma set_active_jobs l s s' d :
  serializer_set_active_num_workers l s = (s', d) →
  my_total_request s' = my_total_request s ∧ my_pending_delta s' = my_pending_delta s ∧
  my_soft_limit s' = l ∧
  d = Z.min l (my_total_request s) - Z.min (my_soft_limit s) (my_total_request s).
Proof.
  unfold serializer_set_active_num_workers. rewrite limit_delta_jobs. intros. simplify_eq/=.
  split_and!; [done..|lia].
Qed.

Lemma update_add_word delta s s' collect g :
  update_add delta s = (s', collect) →
  - pending_delta_base ≤ g + delta < pending_delta_base →
  my_pending_delta s mod 2 ^ 16 = pending_delta_base + g →
  my_soft_limit s' = my_soft_limit s ∧ my_total_request s' = my_total_request s ∧
  0 ≤ my_pending_delta s' < 2 ^ 64 ∧
  my_pending_delta s' mod 2 ^ 16 = pending_delta_base + (g + delta) ∧
  (my_pending_delta s = pending_delta_base → collect = true).
Proof.
  unfold update_add. intros H Hg Hw. injection H as <- <-. simpl.
  split_and!; [done|done|apply Z.mod_pos_bound; lia|apply Z.mod_pos_bound; lia| |apply collects_at_base].
  unfold u64. rewrite mod_16_of_64, Z.add_mod, mod_16_of_64, <- Z.add_mod by lia.
  change counter_value with (2 ^ 16).
  replace (my_pending_delta s + (2 ^ 16 + delta)) with (my_pending_delta s + delta + 1 * 2 ^ 16) by lia.
  rewrite Z.mod_add, <- Z.add_mod_idemp_l, Hw by lia.
  change pending_delta_base with (2 ^ 15) in *. rewrite Z.mod_small; lia.
Qed.

Lemma update_exchange_word s s' delta g :
  update_exchange s = (s', delta) →
  - pending_delta_base ≤ g < pending_delta_base →
  my_pending_delta s mod 2 ^ 16 = pending_delta_base + g → delta = g.
Proof.
  unfold update_exchange. intros H Hg Hw. injection H as <- <-.
  rewrite land_mask, Hw. unfold to_int. change pending_delta_base with (2 ^ 15) in *.
  rewrite Z.mod_small; lia.
Qed.

Lemma init_agg_inv l : 0 ≤ l → agg_inv (init l).
Proof.
  intros. unfold agg_inv, fits. simpl. change pending_delta_base with (2 ^ 15).
  rewrite !zsum_nil. split_and!; try done; lia.
Qed.

(** The steps that set a limit leave the aggregation alone. *)
Lemma agg_inv_limit σ p' ts d l :
  agg_inv σ →
  my_total_request (my_serializer p') = my_total_request (my_serializer (shared σ)) →
  my_pending_delta (my_serializer p') = my_pending_delta (my_serializer (shared σ)) →
  d = Z.min (my_soft_limit (my_serializer p')) (my_total_request (my_serializer p')) - jobs σ →
  zsum in_flight ts = zsum in_flight (threads σ) →
  (AtExchange ∈ threads σ → AtExchange ∈ ts) →
  fits (System p' ts (jobs σ + d) (issued σ) (pending σ) l) →
  agg_inv (System p' ts (jobs σ + d) (issued σ) (pending σ) l).
Proof.
  intros (H1 & H2 & H3 & H4 & H5 & H6) Ht Hp Hd Hf He Hfit. unfold agg_inv. simpl.
  rewrite Hp, Hf. split_and!; auto; lia.
Qed.

Lemma enable_limit p p' d :
  enable_mandatory_concurrency p = (p', d) ∨ disable_mandatory_concurrency p = (p', d) ∨
  (∃ l, proxy_set_active_num_workers l p = (p', d)) →
  my_total_request (my_serializer p') = my_total_request (my_serializer p) ∧
  my_pending_delta (my_serializer p') = my_pending_delta (my_serializer p) ∧
  d = Z.min (my_soft_limit (my_serializer p')) (my_total_request (my_serializer p')) -
      Z.min (my_soft_limit (my_serializer p)) (my_total_request (my_serializer p)).
Proof.
  unfold enable_mandatory_concurrency, disable_mandatory_concurrency, proxy_set_active_num_workers.
  assert (Hset : ∀ l s' d', serializer_set_active_num_workers l (my_serializer p) = (s', d') →
    my_total_request s' = my_total_request (my_serializer p) ∧
    my_pending_delta s' = my_pending_delta (my_serializer p) ∧
    d' = Z.min (my_soft_limit s') (my_total_request s') -
         Z.min (my_soft_limit (my_serializer p)) (my_total_request (my_serializer p))).
  { intros l s' d' (-> & -> & -> & ->)%set_active_jobs. done. }
  intros [H|[H|[l H]]].
  - destruct (_ && _); [|by simplify_eq; split_and!; [done..|lia]].
    destruct (serializer_set_active_num_workers _ _) eqn:E. simplify_eq/=. by eapply Hset.
  - destruct (_ && _); [|by simplify_eq; split_and!; [done..|lia]].
    destruct (serializer_set_active_num_workers _ _) eqn:E. simplify_eq/=. by eapply Hset.
  - destruct (if negb (l =? 0) then _ else _) as [en l'].
    destruct (serializer_set_active_num_workers _ _) eqn:E. simplify_eq/=. by eapply Hset.
Qed.

Lemma zsum_middle (f : pc → Z) t l1 l2 :
  zsum f (l1 ++ t :: l2) = f t + zsum f (l1 ++ l2).
Proof. rewrite !zsum_app, zsum_cons. lia. Qed.

Lemma elem_of_middle (t u : pc) l1 l2 : t ≠ u → t ∈ l1 ++ u :: l2 → t ∈ l1 ++ l2.
Proof. intros Hne. rewrite !elem_of_app, elem_of_cons. tauto. Qed.

Lemma elem_of_replace (t u v : pc) l1 l2 : t ≠ u → t ∈ l1 ++ u :: l2 → t ∈ l1 ++ v :: l2.
Proof. intros Hne. rewrite !elem_of_app, !elem_of_cons. tauto. Qed.

(** Within the bounds the total does not overflow when a thread adds its
    delta. *)
Lemma fits_total σ l1 l2 delta :
  fits σ → threads σ = l1 ++ AtLock delta :: l2 →
  to_int (my_total_request (my_serializer (shared σ)) + delta) =
  my_total_request (my_serializer (shared σ)) + delta.
Proof.
  intros [_ Hf] Ht. rewrite Ht, zsum_middle in Hf. simpl in Hf. apply to_int_id.
  assert (0 ≤ zsum (λ t, Z.abs (in_flight t)) (l1 ++ l2)); [|lia].
  apply zsum_nonneg, Forall_true. intros. apply Z.abs_nonneg.
Qed.

Lemma fitting_agg_inv may_set σ σ' : fitting_step may_set σ σ' → agg_inv σ → agg_inv σ'.
Proof.
  intros [Hstep Hfit] Hinv. pose proof Hinv as (Hg & Hb & Hw & He & Hs & Hj).
  destruct Hstep as [delta s' collect Hd H|l1 l2 s' delta Ht H|l1 l2 s' delta d Ht H
    |md p' todo Hmd H|l1 l2 p' d Ht H|l1 l2 p' d Ht H|l p' d Hl _ H].
  - destruct (update_add_word _ _ _ _ _ H (proj1 Hfit) Hw) as (E1 & E2 & E3 & E4 & E5).
    unfold agg_inv. simpl. split_and!; try done; try lia.
    + intros _. destruct (decide (my_pending_delta (my_serializer (shared σ)) = pending_delta_base)) as [E|E].
      * rewrite (E5 E). by left.
      * specialize (He E). destruct collect; [by right|done].
    + rewrite E2. destruct collect; rewrite ?zsum_cons; simpl; lia.
  - pose proof (update_exchange_word _ _ _ _ H (proj1 Hg) Hw) as ->.
    unfold update_exchange in H. injection H as <- _.
    unfold agg_inv. simpl. rewrite Ht in Hs. rewrite zsum_middle in *. simpl in *.
    change pending_delta_base with (2 ^ 15) in *. split_and!; try done; lia.
  - unfold update_locked in H. rewrite (fits_total _ _ _ _ Hg Ht) in H. injection H as <- <-.
    rewrite limit_delta_jobs. unfold agg_inv. simpl. rewrite Ht in Hs, He. rewrite zsum_middle in Hs. simpl in *.
    split_and!; try done; try lia. intros E. eapply elem_of_middle; [|by apply He]. done.
  - assert (Hp : my_serializer p' = my_serializer (shared σ) ∧ zsum in_flight todo = 0).
    { unfold register_mandatory_request in H. by repeat case_match; simplify_eq/=. }
    destruct Hp as [Hp Hz]. replace (jobs σ) with (jobs σ + 0) by lia.
    apply (agg_inv_limit σ); auto; rewrite ?Hp; [done|done|lia|rewrite zsum_app; lia|].
    intros ?. apply elem_of_app. by right.
  - destruct (enable_limit (shared σ) p' d (or_introl H)) as (E1 & E2 & E3).
    apply (agg_inv_limit σ); [done..|lia| | |done]; rewrite Ht.
    + by rewrite zsum_middle.
    + by apply elem_of_middle.
  - destruct (enable_limit (shared σ) p' d (or_intror (or_introl H))) as (E1 & E2 & E3).
    apply (agg_inv_limit σ); [done..|lia| | |done]; rewrite Ht.
    + by rewrite zsum_middle.
    + by apply elem_of_middle.
  - destruct (enable_limit (shared σ) p' d (or_intror (or_intror (ex_intro _ l H)))) as (E1 & E2 & E3).
    apply (agg_inv_limit σ); [done..|lia|done|done|done].
Qed.

(** ** Invariant of mandatory concurrency

    It holds when the limit is only ever set to a new value, as
    [global_control_impl::destroy] does. *)
Definition changes (old new : Z) : Prop := new ≠ old.

Definition mand_inv (σ : system) : Prop :=
  let p := shared σ in
  0 ≤ limit σ ∧
  (limit σ ≠ 0 → my_is_mandatory_concurrency_enabled p = false ∧
                 my_soft_limit (my_serializer p) = limit σ) ∧
  (limit σ = 0 → my_soft_limit (my_serializer p) =
                 if my_is_mandatory_concurrency_enabled p then 1 else 0) ∧
  (limit σ = 0 → 0 < my_num_mandatory_requests p →
     my_is_mandatory_concurrency_enabled p = false → AtEnable ∈ threads σ) ∧
  (limit σ = 0 → my_num_mandatory_requests p ≤ 0 →
     my_is_mandatory_concurrency_enabled p = true → AtDisable ∈ threads σ).

Lemma mand_inv_threads σ p' ts j i g :
  mand_inv σ → my_soft_limit (my_serializer p') = my_soft_limit (my_serializer (shared σ)) →
  my_is_mandatory_concurrency_enabled p' = my_is_mandatory_concurrency_enabled (shared σ) →
  my_num_mandatory_requests p' = my_num_mandatory_requests (shared σ) →
  (AtEnable ∈ threads σ → AtEnable ∈ ts) → (AtDisable ∈ threads σ → AtDisable ∈ ts) →
  mand_inv (System p' ts j i g (limit σ)).
Proof.
  intros (H0 & H1 & H2 & H3 & H4) Hs He Hn Ht1 Ht2. unfold mand_inv. simpl.
  rewrite Hs, He, Hn. split_and!; auto.
Qed.

Lemma step_mand_inv σ σ' : step changes σ σ' → mand_inv σ → mand_inv σ'.
Proof.
  intros Hstep Hinv. pose proof Hinv as (Hnn & Hnz & Hz & Hen & Hdis).
  destruct Hstep as [delta s' collect Hd H|l1 l2 s' delta Ht H|l1 l2 s' delta d Ht H
    |md p' todo Hmd H|l1 l2 p' d Ht H|l1 l2 p' d Ht H|l p' d Hl Hch H].
  - unfold update_add in H. injection H as <- <-.
    apply mand_inv_threads; try done; intros; by repeat case_match; rewrite ?elem_of_cons; auto.
  - unfold update_exchange in H. injection H as <- <-.
    apply mand_inv_threads; try done; rewrite Ht; by apply elem_of_replace.
  - unfold update_locked in H. injection H as <- <-.
    apply mand_inv_threads; try done; rewrite Ht; by apply elem_of_middle.
  - unfold register_mandatory_request in H.
    destruct (Z.eqb_spec md 0) as [->|Hmd0]; simpl in H; [injection H as <- <-; by destruct σ|].
    injection H as <- <-. unfold mand_inv. simpl. split_and!; [done..| |].
    + intros Hl Hpos Hoff. apply elem_of_app.
      destruct (Z.eqb_spec (my_num_mandatory_requests (shared σ)) 0) as [E|E].
      * left. destruct (Z.gtb_spec md 0); [simpl; by left|lia].
      * right. apply Hen; [done|lia|done].
    + intros Hl Hneg Hon. apply elem_of_app.
      destruct (Z.eqb_spec (my_num_mandatory_requests (shared σ)) 1) as [E|E].
      * left. destruct (Z.ltb_spec md 0); [|lia]. destruct (Z.gtb_spec md 0); [lia|]. simpl. by left.
      * right. apply Hdis; [done|lia|done].
  - unfold enable_mandatory_concurrency, is_no_workers_available in H. rewrite Ht in Hen, Hdis.
    assert (Hdis' : limit σ = 0 → my_num_mandatory_requests (shared σ) ≤ 0 →
      my_is_mandatory_concurrency_enabled (shared σ) = true → AtDisable ∈ l1 ++ l2)
      by (intros; eapply elem_of_middle; [|by apply Hdis]; done).
    destruct (Z.gtb_spec (my_num_mandatory_requests (shared σ)) 0) as [Hpos|Hneg]; simpl in H.
    + destruct (my_is_mandatory_concurrency_enabled (shared σ)) eqn:Hon; simpl in H.
      { injection H as <- <-. unfold mand_inv. simpl. rewrite Hon. split_and!; auto. done. }
      destruct (Z.eqb_spec (my_soft_limit (my_serializer (shared σ))) 0) as [E|E].
      * injection H as <- <-. unfold mand_inv. simpl. split_and!; try done; try lia.
      * injection H as <- <-. unfold mand_inv. simpl. rewrite Hon.
        split_and!; auto; try done. intros Hl. specialize (Hz Hl). lia.
    + injection H as <- <-. unfold mand_inv. simpl. split_and!; auto. lia.
  - unfold disable_mandatory_concurrency, is_no_workers_available in H. rewrite Ht in Hen, Hdis.
    assert (Hen' : limit σ = 0 → 0 < my_num_mandatory_requests (shared σ) →
      my_is_mandatory_concurrency_enabled (shared σ) = false → AtEnable ∈ l1 ++ l2)
      by (intros; eapply elem_of_middle; [|by apply Hen]; done).
    destruct (Z.leb_spec (my_num_mandatory_requests (shared σ)) 0) as [Hneg|Hpos]; simpl in H.
    + destruct (my_is_mandatory_concurrency_enabled (shared σ)) eqn:Hon; simpl in H.
      * destruct (Z.eqb_spec (my_soft_limit (my_serializer (shared σ))) 0) as [E|E]; simpl in H.
        { injection H as <- <-. unfold mand_inv. simpl. rewrite Hon.
          split_and!; auto; try done. intros Hl. specialize (Hz Hl). lia. }
        injection H as <- <-. unfold mand_inv. simpl. split_and!; try done; try lia.
      * injection H as <- <-. unfold mand_inv. simpl. rewrite Hon. split_and!; auto. done.
    + injection H as <- <-. unfold mand_inv. simpl. split_and!; auto. lia.
  - unfold proxy_set_active_num_workers in H.
    destruct (Z.eqb_spec l 0) as [->|Hl0]; simpl in H.
    + unfold changes in Hch. destruct (Hnz ltac:(lia)) as [Hoff Hsoft].
      destruct (Z.gtb_spec (my_num_mandatory_requests (shared σ)) 0) as [Hpos|Hneg];
        simpl in H; injection H as <- <-; unfold mand_inv; simpl;
        rewrite ?Hoff; split_and!; try done; lia.
    + injection H as <- <-. unfold mand_inv. simpl.
      split_and!; try done; lia.
Qed.

Lemma rtc_invariant {A} (R : A → A → Prop) (P : A → Prop) x y :
  (∀ x y, R x y → P x → P y) → rtc R x y → P x → P y.
Proof. intros HR. induction 1; eauto. Qed.

Lemma reach_agg_inv may_set l σ :
  0 ≤ l → rtc (fitting_step may_set) (init l) σ → agg_inv σ.
Proof. intros Hl Hr. eapply rtc_invariant; [apply fitting_agg_inv|done|by apply init_agg_inv]. Qed.

Lemma reach_mand_inv l σ : 0 ≤ l → rtc (step changes) (init l) σ → mand_inv σ.
Proof.
  intros Hl Hr. eapply rtc_invariant; [apply step_mand_inv|done|].
  unfold mand_inv. simpl. split_and!; try done; lia.
Qed.

(** C20: however the threads interleave, as long as the deltas pending in the
    atomic word add up to a number of [-2^15, 2^15) and the total request to an
    [int] ([fits], which the code does not check), the dispatcher has been
    asked for exactly [min(soft limit, total request)] threads, the total request and
    the deltas still under way add up to everything that was issued, and while
    the atomic word holds a pending change some thread is about to collect it;
    so when no thread is inside a method no request is lost. *)
Theorem requests_conserved (may_set : Z → Z → Prop) (l : Z) (σ : system)
    (Hl : 0 ≤ l) (Hreach : rtc (fitting_step may_set) (init l) σ) :
  let s := my_serializer (shared σ) in
  jobs σ = Z.min (my_soft_limit s) (my_total_request s) ∧
  my_total_request s + zsum in_flight (threads σ) + pending σ = issued σ ∧
  (my_pending_delta s ≠ pending_delta_base → AtExchange ∈ threads σ) ∧
  (threads σ = [] → my_total_request s = issued σ ∧ jobs σ = Z.min (my_soft_limit s) (issued σ)).
Proof.
  destruct (reach_agg_inv _ _ _ Hl Hreach) as (Hg & Hb & Hw & He & Hs & Hj).
  split_and!; [done..|]. intros Ht. rewrite Ht in *.
  assert (my_pending_delta (my_serializer (shared σ)) = pending_delta_base) as E.
  { destruct (decide (my_pending_delta (my_serializer (shared σ)) = pending_delta_base)); [done|].
    by apply He, elem_of_nil in n. }
  rewrite E in Hw. change (pending_delta_base mod 2 ^ 16) with pending_delta_base in Hw.
  rewrite zsum_nil in Hs. split; [lia|]. rewrite Hj. f_equal. lia.
Qed.

(** Steps that a thread inside a method still takes, at most. *)
Definition work (t : pc) : nat := match t with AtExchange => 2 | _ => 1 end.
Definition total_work (σ : system) : nat := foldr (λ t n, work t + n)%nat 0%nat (threads σ).

(** A step that brings a method call closer to its end; it is not a new call,
    since a new call adds a thread or leaves the threads as they are. *)
Definition finishing (σ σ' : system) : Prop :=
  step (λ _ _, False) σ σ' ∧ (total_work σ' < total_work σ)%nat ∧ issued σ' = issued σ.

Lemma thread_finishes σ t ts : threads σ = t :: ts → ∃ σ', finishing σ σ'.
Proof.
  intros Ht. unfold finishing, total_work. rewrite Ht. destruct t.
  - destruct (update_exchange (my_serializer (shared σ))) as [s' d] eqn:E.
    eexists. split; [by eapply (step_exchange _ _ [])|]. split; [|done]. simpl. lia.
  - destruct (update_locked delta (my_serializer (shared σ))) as [s' d] eqn:E.
    eexists. split; [by eapply (step_locked _ _ [])|]. split; [|done]. simpl. lia.
  - destruct (enable_mandatory_concurrency (shared σ)) as [p' d] eqn:E.
    eexists. split; [by eapply (step_enable _ _ [])|]. split; [|done]. simpl. lia.
  - destruct (disable_mandatory_concurrency (shared σ)) as [p' d] eqn:E.
    eexists. split; [by eapply (step_disable _ _ [])|]. split; [|done]. simpl. lia.
Qed.

Lemma finishing_fits σ σ' : agg_inv σ → finishing σ σ' → fits σ'.
Proof.
  intros (Hf & Hb & Hw & He & Hs & Hj) (Hstep & Hwork & _).
  pose proof Hf as [Hg Hsum].
  pose proof (λ l1 l2 d, fits_total σ l1 l2 d Hf) as Htot. clear Hf.
  destruct Hstep as [delta s' collect Hd H|l1 l2 s' delta Ht H|l1 l2 s' delta d Ht H
    |md p' todo Hmd H|l1 l2 p' d Ht H|l1 l2 p' d Ht H|l p' d Hl [] H];
    unfold fits, total_work in *; simpl in *; try (rewrite Ht, zsum_middle in Hsum); simpl in *.
  - exfalso. destruct collect; simpl in Hwork; lia.
  - pose proof (update_exchange_word _ _ _ _ H Hg Hw) as ->.
    unfold update_exchange in H. injection H as <- _. simpl. rewrite zsum_middle. simpl.
    change pending_delta_base with (2 ^ 15). lia.
  - unfold update_locked in H. rewrite (Htot _ _ _ Ht) in H.
    injection H as <- _. simpl. split; [done|lia].
  - exfalso. rewrite foldr_app in Hwork. revert Hwork. unfold register_mandatory_request in H.
    repeat case_match; simplify_eq/=; lia.
  - destruct (enable_limit (shared σ) p' d (or_introl H)) as (-> & _). split; [done|lia].
  - destruct (enable_limit (shared σ) p' d (or_intror (or_introl H))) as (-> & _).
    split; [done|lia].
Qed.

Lemma threads_finish σ : ∃ σ', rtc finishing σ σ' ∧ threads σ' = [].
Proof.
  remember (total_work σ) as n eqn:Hn.
  revert σ Hn. induction (lt_wf n) as [n _ IH]. intros σ ->.
  destruct (threads σ) as [|t ts] eqn:Ht; [by exists σ|].
  destruct (thread_finishes σ t ts Ht) as (σ1 & Hs).
  destruct (IH (total_work σ1) ltac:(apply Hs) σ1 eq_refl) as (σ2 & Hr & He).
  exists σ2. split; [by eapply rtc_l|done].
Qed.

(** From every state reached within the bounds the threads that are inside a
    method can all finish on their own, which keeps to the bounds, in any state of the others, and then the
    dispatcher has been asked for [min(soft limit, everything issued)]. *)
Theorem requests_drain (may_set : Z → Z → Prop) (l : Z) (σ : system)
    (Hl : 0 ≤ l) (Hreach : rtc (fitting_step may_set) (init l) σ) :
  ∃ σ', rtc finishing σ σ' ∧ threads σ' = [] ∧ issued σ' = issued σ ∧
    my_total_request (my_serializer (shared σ')) = issued σ ∧
    jobs σ' = Z.min (my_soft_limit (my_serializer (shared σ'))) (issued σ).
Proof.
  destruct (threads_finish σ) as (σ' & Hr & Ht). exists σ'.
  assert (Hinv : agg_inv σ' ∧ issued σ' = issued σ).
  { pose proof (reach_agg_inv _ _ _ Hl Hreach) as H0. clear Hreach Ht.
    induction Hr as [|σ1 σ2 σ3 Hfin _ IH]; [done|].
    pose proof (finishing_fits _ _ H0 Hfin) as Hfits. destruct Hfin as (Hs & _ & Hi).
    destruct IH as [H1 H2]; [by eapply fitting_agg_inv|]. split; [done|congruence]. }
  destruct Hinv as [(Hg & Hb & Hw & He & Hs & Hj) Hi].
  assert (my_pending_delta (my_serializer (shared σ')) = pending_delta_base) as E.
  { destruct (decide (my_pending_delta (my_serializer (shared σ')) = pending_delta_base)); [done|].
    apply He in n. rewrite Ht in n. by apply elem_of_nil in n. }
  rewrite E in Hw. change (pending_delta_base mod 2 ^ 16) with pending_delta_base in Hw.
  rewrite Ht, zsum_nil in Hs. split_and!; [done..|lia|]. rewrite Hj. f_equal. lia.
Qed.

(** When the application only sets the limit to a new value, the limit
    the dispatcher works with is the application's limit, or one if that is
    zero and there are mandatory requests, as soon as no thread is about to
    enable or disable mandatory concurrency. *)
Theorem mandatory_limit (l : Z) (σ : system)
    (Hl : 0 ≤ l) (Hreach : rtc (step changes) (init l) σ)
    (Hen : AtEnable ∉ threads σ) (Hdis : AtDisable ∉ threads σ) :
  my_soft_limit (my_serializer (shared σ)) =
    if (limit σ =? 0) then
      if my_num_mandatory_requests (shared σ) >? 0 then 1 else 0
    else limit σ.
Proof.
  destruct (reach_mand_inv _ _ Hl Hreach) as (Hnn & Hnz & Hz & He & Hd).
  destruct (Z.eqb_spec (limit σ) 0) as [E|E]; [|by apply Hnz].
  rewrite (Hz E). destruct (my_is_mandatory_concurrency_enabled (shared σ)) eqn:Hon;
    destruct (Z.gtb_spec (my_num_mandatory_requests (shared σ)) 0); try done.
  - exfalso. by apply Hdis, Hd.
  - exfalso. by apply Hen, He.
Qed.

(** C35: if the limit may be set to zero again while it is zero (the first
    [global_control] object on a machine with one processor does so), the
    enabling of mandatory concurrency can be lost: a state is reachable in
    which no thread is inside a method, a mandatory request is outstanding and
    the dispatcher's limit is zero.  In the history two requests are withdrawn
    by threads that hold the reader lock together, so that the upgrade of the
    second releases the lock and the setting of the limit comes between. *)
Theorem mandatory_concurrency_lost :
  ∃ σ, rtc (step (λ _ _, True)) (init 0) σ ∧ threads σ = [] ∧ limit σ = 0 ∧
       my_num_mandatory_requests (shared σ) = 1 ∧
       my_soft_limit (my_serializer (shared σ)) = 0.
Proof.
  eexists. split.
  { eapply rtc_l; [eapply (step_mandatory _ _ 1); [lia|reflexivity]|]. simpl.
    eapply rtc_l; [eapply (step_enable _ _ []); reflexivity|]. simpl.
    eapply rtc_l; [eapply (step_mandatory _ _ 1); [lia|reflexivity]|]. simpl.
    eapply rtc_l; [eapply (step_mandatory _ _ (-1)); [lia|reflexivity]|]. simpl.
    eapply rtc_l; [eapply (step_mandatory _ _ (-1)); [lia|reflexivity]|]. simpl.
    eapply rtc_l; [eapply (step_set _ _ 0); [lia|done|reflexivity]|]. simpl.
    eapply rtc_l; [eapply (step_disable _ _ []); reflexivity|]. simpl.
    eapply rtc_l; [eapply (step_mandatory _ _ 1); [lia|reflexivity]|]. simpl.
    eapply rtc_l; [eapply (step_enable _ _ []); reflexivity|]. simpl.
    apply rtc_refl. }
  done.
Qed.
End Requests.

Module RequestsExamples.
Import Requests.

(** Two updates in a row, the first thread collects both. *)
Definition overlapped : system :=
  System (Proxy 0 false (Serializer 4 0 (pending_delta_base + 2 * counter_value + 6)))
    [AtExchange] 0 6 6 4.

Lemma overlapped_reach may_set : rtc (fitting_step may_set) (init 4) overlapped.
Proof.
  eapply rtc_l; [split; [eapply (step_update _ _ 5); [lia|reflexivity]|by vm_compute]|].
  eapply rtc_l; [split; [eapply (step_update _ _ 1); [lia|reflexivity]|by vm_compute]|].
  apply rtc_refl.
Qed.

Lemma requests_conserved_witness :
  jobs overlapped = 0 ∧ AtExchange ∈ threads overlapped.
Proof.
  destruct (requests_conserved (λ _ _, True) 4 overlapped ltac:(lia) (overlapped_reach _))
    as (Hj & _ & He & _).
  split; [exact Hj|]. apply He. by vm_compute.
Defined.

Lemma requests_drain_witness :
  ∃ σ', rtc finishing overlapped σ' ∧ threads σ' = [] ∧
        my_total_request (my_serializer (shared σ')) = 6.
Proof.
  destruct (requests_drain (λ _ _, True) 4 overlapped ltac:(lia) (overlapped_reach _))
    as (σ' & Hr & Ht & _ & Htot & _).
  exists σ'. auto.
Defined.

Lemma mandatory_limit_witness :
  my_soft_limit (my_serializer (shared overlapped)) = 4.
Proof.
  assert (Hr : rtc (step changes) (init 4) overlapped).
  { eapply rtc_subrel; [|exact (overlapped_reach changes)]. by intros ?? [? _]. }
  rewrite (mandatory_limit 4 overlapped ltac:(lia) Hr).
  - reflexivity.
  - simpl. by intros [?|?%elem_of_nil]%elem_of_cons.
  - simpl. by intros [?|?%elem_of_nil]%elem_of_cons.
Defined.

(** Beyond the bounds the aggregation breaks: one [update] by [2 ^ 15], the
    demand of a single arena with that many worker slots, is taken for a
    withdrawal of [2 ^ 15] workers. *)
Theorem large_request_inverted :
  ∃ σ, rtc (step (λ _ _, False)) (init 4) σ ∧ threads σ = [] ∧ issued σ = 2 ^ 15 ∧
       my_total_request (my_serializer (shared σ)) = - 2 ^ 15 ∧ jobs σ = - 2 ^ 15.
Proof.
  eexists. split.
  { eapply rtc_l; [eapply (step_update _ _ (2 ^ 15)); [lia|reflexivity]|].
    eapply rtc_l; [eapply (step_exchange _ _ []); reflexivity|].
    eapply rtc_l; [eapply (step_locked _ _ []); reflexivity|].
    apply rtc_refl. }
  by vm_compute.
Qed.
End RequestsExamples.
