(* ===== verification/Ranges.v ===== *)
(** * Splittable ranges

    [blocked_range], [blocked_range2d], [blocked_range3d] and
    [blocked_nd_range]: the iteration spaces of the parallel algorithms.
    Sources: include/oneapi/tbb/blocked_range.h, blocked_range2d.h,
    blocked_range3d.h, blocked_nd_range.h and detail/_range_common.h.

    The values of a range are integers.  The classes [RangeOps] and
    [RangeLaws] are what the partitioners and the algorithms assume of a range;
    the four ranges are instances.  Splitting uses floating-point arithmetic,
    with the rounding of [Floats]. *)

From S2P Require Import Prelude Floats.
From stdpp Require Import base numbers list.
From Stdlib Require Import ZArith Lia.
Local Open Scope Z_scope.

(** The second argument of a splitting constructor. *)
Inductive split_obj :=
  | Split
  | ProportionalSplit (left right : Z).

(** What a partitioner asks of a range. *)
Class RangeOps (R : Type) := {
  empty : R → bool;
  is_divisible : R → bool;
  (** The splitting constructor: the old range, which keeps the first part,
      and the new one. *)
  split_range : split_obj → R → R * R;
}.

(** The proportions that the partitioners ask for: the right part is between
    one third and one half. *)
Definition proportion_ok (s : split_obj) : Prop :=
  match s with
  | Split => True
  | ProportionalSplit l r => 0 < r ≤ l ∧ l ≤ 2 * r ∧ l + r < 2 ^ 64
  end.

Class RangeLaws (R E : Type) `{RangeOps R} := {
  elems : R → list E;
  valid : R → Prop;
  valid_nonempty r : valid r → elems r ≠ [];
  split_valid s r l r' :
    proportion_ok s → valid r → is_divisible r = true → split_range s r = (l, r') →
    valid l ∧ valid r' ∧ elems r ≡ₚ elems l ++ elems r';
}.

(** The first part of a split comes before the second. *)
Class OrderedRange (R E : Type) `{RangeLaws R E} := {
  split_ordered s r l r' :
    proportion_ok s → valid r → is_divisible r = true → split_range s r = (l, r') →
    elems r = elems l ++ elems r';
}.

(** ** One dimension *)
Module Blocked.
Record blocked_range := BlockedRange {
  my_end : Z;
  my_begin : Z;
  my_grainsize : Z;
}.

(** Conversion to [size_type]. *)
Definition size (r : blocked_range) : Z := (my_end r - my_begin r) mod 2 ^ 64.
Definition br_empty (r : blocked_range) : bool := negb (my_begin r <? my_end r).
Definition br_is_divisible (r : blocked_range) : bool := my_grainsize r <? size r.

(** The number of iterations that a proportional split gives away. *)
Definition right_part (size left right : Z) : Z :=
  Float32.to_Z
    (Float32.add
       (Float32.div (Float32.mul (Float32.of_Z size) (Float32.of_Z right))
          (Float32.of_Z ((left + right) mod 2 ^ 64)))
       Float32.half).

(** [do_split]: the old range and the beginning of the new one. *)
Definition do_split (s : split_obj) (r : blocked_range) : blocked_range * Z :=
  let middle :=
    match s with
    | Split => my_begin r + Z.quot (my_end r - my_begin r) 2
    | ProportionalSplit pl pr => my_end r - right_part (size r) pl pr
    end in
  (BlockedRange middle (my_begin r) (my_grainsize r), middle).

Definition br_split (s : split_obj) (r : blocked_range) : blocked_range * blocked_range :=
  let '(r', middle) := do_split s r in
  (r', BlockedRange (my_end r) middle (my_grainsize r)).

#[export] Instance blocked_range_ops : RangeOps blocked_range := {|
  empty := br_empty;
  is_divisible := br_is_divisible;
  split_range := br_split;
|}.

Definition br_elems (r : blocked_range) : list Z := seqZ (my_begin r) (my_end r - my_begin r).

Definition br_valid (r : blocked_range) : Prop :=
  0 < my_grainsize r ∧ my_begin r < my_end r ∧ my_end r - my_begin r < 2 ^ 64.

Lemma size_valid r : br_valid r → size r = my_end r - my_begin r.
Proof. intros (? & ? & ?). unfold size. apply Z.mod_small. lia. Qed.

Section right_part.
Import Float32.
Local Lemma of_Z_pos n : 0 < n → 0 < of_Z n.
Proof.
  intros. apply Z.lt_le_trans with unit; [done|]. apply fl_ge; [lia|done|done| |].
  - by apply (representable_pow 24).
  - unfold unit. nia.
Qed.

Local Lemma of_Z_scale n k : 0 < n → 0 ≤ k → of_Z (n * 2 ^ k) = of_Z n * 2 ^ k.
Proof.
  intros. unfold of_Z. replace (n * 2 ^ k * unit) with (n * unit * 2 ^ k) by ring.
  apply fl_scale; rewrite ?Z.div_1_r; unfold unit; lia.
Qed.

Local Lemma of_Z_mono m n : 0 ≤ m ≤ n → of_Z m ≤ of_Z n.
Proof. intros. unfold unit, of_Z. apply fl_mono; unfold unit; nia. Qed.

Local Lemma of_Z_representable n : 0 ≤ n → representable 24 (of_Z n).
Proof. intros. apply fl_representable; unfold unit; lia. Qed.

(** Adding one half to a power of two does not reach the next integer. *)
Local Lemma add_half_pow k : 0 ≤ k → to_Z (add (2 ^ k * unit) half) ≤ 2 ^ k.
Proof.
  intros Hk. unfold to_Z, add.
  destruct (decide (k ≤ 22)).
  - assert (H : fl 24 (2 ^ k * unit + half) 1 ≤ 2 ^ k * unit + half).
    { apply fl_le; try (unfold unit, half; nia). exists (2 ^ (k + 1) + 1), 99.
      assert (2 ^ (k + 1) ≤ 2 ^ 23) by (apply Z.pow_le_mono_r; lia).
      pose proof (pow2_pos (k + 1)). split_and!; try lia.
      rewrite Z.pow_add_r by lia. unfold unit, half. lia. }
    etransitivity; [by apply Z.div_le_mono, H|].
    rewrite Z.div_add_l by done. unfold half, unit. change (2 ^ 99 / 2 ^ 100) with 0. lia.
  - assert (H : fl 24 (2 ^ k * unit + half) 1 ≤ 2 ^ k * unit).
    { transitivity (fl 24 ((2 ^ 24 + 1) * 2 ^ (k + 76)) 1).
      - apply fl_mono; try (unfold unit, half; nia).
        assert (half ≤ 2 ^ (k + 76)) by (apply Z.pow_le_mono_r; lia).
        replace ((2 ^ 24 + 1) * 2 ^ (k + 76)) with (2 ^ k * unit + 2 ^ (k + 76)); [lia|].
        rewrite Z.mul_add_distr_r, Z.mul_1_l, <- Z.pow_add_r by lia.
        unfold unit. rewrite <- Z.pow_add_r by lia. do 2 f_equal. lia.
      - rewrite fl_scale by first [lia|done].
        change (fl 24 (2 ^ 24 + 1) 1) with (2 ^ 24). unfold unit.
        rewrite <- !Z.pow_add_r by lia. apply Z.pow_le_mono_r; lia. }
    etransitivity; [by apply Z.div_le_mono, H|]. by rewrite Z.div_mul.
Qed.

(** A proportional split leaves both parts non-empty, whatever the rounding of
    the four [float] operations does. *)
Lemma right_part_bounds n left right :
  2 ≤ n → 0 < right ≤ left → left ≤ 2 * right → left + right < 2 ^ 64 →
  1 ≤ right_part n left right < n.
Proof.
  intros Hn Hr Hl Hw. unfold right_part. rewrite (Z.mod_small (left + right)) by lia.
  pose proof (of_Z_pos right ltac:(lia)) as HR.
  pose proof (of_Z_pos (left + right) ltac:(lia)) as HT.
  pose proof (of_Z_pos n ltac:(lia)) as HA.
  pose proof (of_Z_representable right ltac:(lia)) as Hrep.
  assert (HT1 : of_Z (left + right) ≤ of_Z right * 2 ^ 2)
    by (rewrite <- of_Z_scale by lia; apply of_Z_mono; lia).
  assert (HT2 : of_Z right * 2 ^ 1 ≤ of_Z (left + right))
    by (rewrite <- of_Z_scale by lia; apply of_Z_mono; lia).
  assert (HA1 : unit * 2 ^ 1 ≤ of_Z n).
  { unfold of_Z. apply fl_ge; try done. { apply (representable_pow 24 ltac:(lia) 101). lia. }
    unfold unit. lia. }
  set (k := Z.log2_up n).
  assert (Hk : 2 ^ (k - 1) < n ≤ 2 ^ k) by (pose proof (Z.log2_up_spec n ltac:(lia)) as E; by rewrite <- Z.sub_1_r in E).
  assert (0 < k) by (apply Z.log2_up_pos; lia).
  assert (Hk2 : 2 ^ k = 2 * 2 ^ (k - 1)) by (rewrite <- Z.pow_succ_r by lia; f_equal; lia).
  assert (HA2 : of_Z n ≤ unit * 2 ^ k).
  { unfold of_Z. apply fl_le; try (unfold unit; lia).
    unfold unit. rewrite <- Z.pow_add_r by lia. apply representable_pow; lia. }
  set (R := of_Z right) in *. set (T := of_Z (left + right)) in *. set (A := of_Z n) in *.
  assert (HM1 : R * 2 ^ 1 ≤ mul A R).
  { apply fl_ge; [lia|lia|done|apply representable_scale; [lia..|done]|]. nia. }
  assert (HM2 : mul A R ≤ R * 2 ^ k).
  { apply fl_le; [lia|nia|done|apply representable_scale; [lia..|done]|]. nia. }
  set (M := mul A R) in *.
  assert (HQ1 : half ≤ div M T).
  { apply fl_ge; [lia|done|done|by apply (representable_pow 24)|].
    change unit with (2 * half). assert (0 < half) by done. nia. }
  assert (HQ2 : div M T ≤ 2 ^ (k - 1) * unit).
  { pose proof (pow2_pos (k - 1) ltac:(lia)). apply fl_le; [lia|unfold unit; nia|done| |].
    - unfold unit. rewrite <- Z.pow_add_r by lia. apply representable_pow; lia.
    - assert (0 < unit) by done. assert (M ≤ 2 ^ (k - 1) * T) by nia. nia. }
  set (Q := div M T) in *. assert (0 < half) by done. split.
  - unfold to_Z. rewrite <- (Z.div_same unit) by done. apply Z.div_le_mono; [done|].
    apply fl_ge; [lia|done|done|by apply (representable_pow 24)|]. change unit with (2 * half). lia.
  - apply Z.le_lt_trans with (2 ^ (k - 1)); [|lia].
    etransitivity; [|apply add_half_pow; lia]. apply Z.div_le_mono; [done|].
    apply fl_mono; lia.
Qed.
End right_part.

Lemma do_split_middle s r :
  proportion_ok s → br_valid r → br_is_divisible r = true →
  my_begin r < (do_split s r).2 < my_end r.
Proof.
  intros Hs Hr Hd. pose proof Hr as (Hg & Hb & Hw).
  unfold br_is_divisible in Hd. apply Z.ltb_lt in Hd. rewrite (size_valid r Hr) in Hd.
  destruct s as [|pl pr]; simpl in *.
  - rewrite Z.quot_div_nonneg by lia.
    pose proof (Z.div_lt (my_end r - my_begin r) 2).
    pose proof (Z.div_le_lower_bound (my_end r - my_begin r) 2 1). lia.
  - rewrite (size_valid r Hr).
    pose proof (right_part_bounds (my_end r - my_begin r) pl pr). lia.
Qed.

Lemma br_split_spec s r l r' :
  proportion_ok s → br_valid r → br_is_divisible r = true → br_split s r = (l, r') →
  br_valid l ∧ br_valid r' ∧ br_elems r = br_elems l ++ br_elems r' ∧
  my_grainsize l = my_grainsize r ∧ my_grainsize r' = my_grainsize r.
Proof.
  intros Hs Hr Hd E. pose proof (do_split_middle s r Hs Hr Hd) as Hm.
  unfold br_split, do_split in E. simpl in *. remember (match s with Split => _ | _ => _ end) as m.
  injection E as <- <-. destruct Hr as (Hg & Hb & Hw).
  unfold br_valid, br_elems; simpl. split_and!; try lia.
  replace (my_end r - my_begin r) with ((m - my_begin r) + (my_end r - m)) by lia.
  rewrite seqZ_app by lia. do 2 f_equal. lia.
Qed.

#[export] Program Instance blocked_range_laws : RangeLaws blocked_range Z := {|
  elems := br_elems;
  valid := br_valid;
|}.
Next Obligation.
  intros r (? & ? & ?) E%(f_equal length). unfold br_elems in E.
  rewrite length_seqZ in E. simpl in E. lia.
Qed.
Next Obligation.
  intros s r l r' Hs Hr Hd E. destruct (br_split_spec s r l r' Hs Hr Hd E) as (? & ? & -> & _).
  auto.
Qed.

#[export] Instance blocked_range_ordered : OrderedRange blocked_range Z.
Proof. constructor. intros s r l r' Hs Hr Hd E. by apply (br_split_spec s r l r'). Qed.
End Blocked.

(** ** Several dimensions *)
Module Multi.
Import Blocked.

(** [first.size() * double(second.grainsize()) < second.size() * double(first.grainsize())] *)
Definition ratio_ltb (first second : blocked_range) : bool :=
  Float64.ltb
    (Float64.mul (Float64.of_Z (size first)) (Float64.of_Z (my_grainsize second)))
    (Float64.mul (Float64.of_Z (size second)) (Float64.of_Z (my_grainsize first))).

Record blocked_range2d := BlockedRange2d {
  my_rows : blocked_range;
  my_cols : blocked_range;
}.

Definition empty2d (r : blocked_range2d) : bool := br_empty (my_rows r) || br_empty (my_cols r).
Definition is_divisible2d (r : blocked_range2d) : bool :=
  br_is_divisible (my_rows r) || br_is_divisible (my_cols r).
Definition split2d (s : split_obj) (r : blocked_range2d) : blocked_range2d * blocked_range2d :=
  if ratio_ltb (my_rows r) (my_cols r) then
    let '(c, c') := br_split s (my_cols r) in
    (BlockedRange2d (my_rows r) c, BlockedRange2d (my_rows r) c')
  else
    let '(w, w') := br_split s (my_rows r) in
    (BlockedRange2d w (my_cols r), BlockedRange2d w' (my_cols r)).

Record blocked_range3d := BlockedRange3d {
  pages : blocked_range;
  rows : blocked_range;
  cols : blocked_range;
}.

Definition empty3d (r : blocked_range3d) : bool :=
  br_empty (pages r) || br_empty (rows r) || br_empty (cols r).
Definition is_divisible3d (r : blocked_range3d) : bool :=
  br_is_divisible (pages r) || br_is_divisible (rows r) || br_is_divisible (cols r).
Definition split_pages s r : blocked_range3d * blocked_range3d :=
  let '(d, d') := br_split s (pages r) in
  (BlockedRange3d d (rows r) (cols r), BlockedRange3d d' (rows r) (cols r)).
Definition split_rows s r : blocked_range3d * blocked_range3d :=
  let '(d, d') := br_split s (rows r) in
  (BlockedRange3d (pages r) d (cols r), BlockedRange3d (pages r) d' (cols r)).
Definition split_cols s r : blocked_range3d * blocked_range3d :=
  let '(d, d') := br_split s (cols r) in
  (BlockedRange3d (pages r) (rows r) d, BlockedRange3d (pages r) (rows r) d').
Definition split3d (s : split_obj) (r : blocked_range3d) : blocked_range3d * blocked_range3d :=
  if ratio_ltb (pages r) (rows r) then
    if ratio_ltb (rows r) (cols r) then split_cols s r else split_rows s r
  else
    if ratio_ltb (pages r) (cols r) then split_cols s r else split_pages s r.

(** [std::max_element]: the index of the largest element so far, and the
    element. *)
Fixpoint max_element_from (i : nat) (d : blocked_range) (idx : nat) (ds : list blocked_range)
  : nat * blocked_range :=
  match ds with
  | [] => (i, d)
  | d' :: ds =>
      if ratio_ltb d d' then max_element_from idx d' (S idx) ds
      else max_element_from i d (S idx) ds
  end.

(** [blocked_nd_range]: the dimensions, of which there is at least one. *)
Record blocked_nd_range := BlockedNdRange {
  dim0 : blocked_range;
  more_dims : list blocked_range;
}.
Definition my_dims (r : blocked_nd_range) : list blocked_range := dim0 r :: more_dims r.
Definition of_dims (ds : list blocked_range) (r : blocked_nd_range) : blocked_nd_range :=
  match ds with [] => r | d :: ds => BlockedNdRange d ds end.

Definition empty_nd (r : blocked_nd_range) : bool := existsb br_empty (my_dims r).
Definition is_divisible_nd (r : blocked_nd_range) : bool := existsb br_is_divisible (my_dims r).
Definition split_nd (s : split_obj) (r : blocked_nd_range) : blocked_nd_range * blocked_nd_range :=
  let '(i, d) := max_element_from 0 (dim0 r) 1 (more_dims r) in
  let '(a, b) := br_split s d in
  (of_dims (<[i := a]> (my_dims r)) r, of_dims (<[i := b]> (my_dims r)) r).

(** *** The points of a product of dimensions *)
Definition nd_elems (ds : list blocked_range) : list (list Z) :=
  foldr (λ d acc, br_elems d ≫= λ x, cons x <$> acc) [[]] ds.

(** Grainsizes are far below the precision of [double]. *)
Definition nd_valid (ds : list blocked_range) : Prop :=
  Forall (λ d, br_valid d ∧ my_grainsize d < 2 ^ 50) ds.

Lemma bind_app_perm {A B} (f g : A → list B) l :
  l ≫= (λ x, f x ++ g x) ≡ₚ (l ≫= f) ++ (l ≫= g).
Proof.
  induction l as [|x l IH]; [done|]. rewrite !bind_cons, IH, <- !app_assoc.
  apply Permutation_app_head. rewrite !app_assoc. apply Permutation_app_tail, Permutation_app_comm.
Qed.

Lemma bind_perm {A B} (f g : A → list B) l :
  (∀ x, f x ≡ₚ g x) → l ≫= f ≡ₚ l ≫= g.
Proof. intros H. induction l as [|x l IH]; [done|]. by rewrite !bind_cons, (H x), IH. Qed.

Lemma nd_elems_split ds i d a b :
  ds !! i = Some d → br_elems d = br_elems a ++ br_elems b →
  nd_elems ds ≡ₚ nd_elems (<[i := a]> ds) ++ nd_elems (<[i := b]> ds).
Proof.
  intros Hi E. revert i Hi. induction ds as [|d' ds IH]; intros [|i] Hi; simplify_eq/=.
  - by rewrite E, bind_app.
  - rewrite <- bind_app_perm. apply bind_perm. intros x.
    by rewrite (IH i Hi), fmap_app.
Qed.

Lemma nd_elems_nonempty ds : nd_valid ds → nd_elems ds ≠ [].
Proof.
  induction 1 as [|d ds [Hd _] _ IH]; simpl; [done|].
  pose proof (valid_nonempty d Hd) as Hne. simpl in Hne.
  destruct (br_elems d) as [|x xs]; [done|]. destruct (nd_elems ds); [done|].
  by rewrite bind_cons.
Qed.

Lemma nd_split ds i d a b s :
  ds !! i = Some d → nd_valid ds → proportion_ok s → br_is_divisible d = true →
  br_split s d = (a, b) →
  nd_valid (<[i := a]> ds) ∧ nd_valid (<[i := b]> ds) ∧
  nd_elems ds ≡ₚ nd_elems (<[i := a]> ds) ++ nd_elems (<[i := b]> ds).
Proof.
  intros Hi Hv Hs Hd E. destruct (Forall_lookup_1 _ _ _ _ Hv Hi) as [Hdv Hg].
  destruct (br_split_spec s d a b Hs Hdv Hd E) as (Ha & Hb & Hel & Hga & Hgb).
  split_and!; [apply Forall_insert; [done|lia || split; [done|lia]]..|].
  by apply nd_elems_split with d.
Qed.

(** *** The dimension that is split is divisible *)
Lemma fl_strict x y gap :
  0 ≤ x → x + gap ≤ y → y ≤ gap * 2 ^ 50 → 0 < gap → fl 53 x 1 < fl 53 y 1.
Proof.
  intros Hx Hy Hg Hp. set (t := Z.log2 y).
  destruct (Z.log2_spec y) as [Hl Hu]; [lia|]. fold t in Hl, Hu.
  pose proof (Z.log2_nonneg y). rewrite Z.pow_succ_r in Hu by lia.
  destruct (decide (t ≤ 51)).
  { assert (2 ^ t ≤ 2 ^ 51) by (apply Z.pow_le_mono_r; lia).
    rewrite <- (Z.mul_1_r x), <- (Z.mul_1_r y), !fl_exact;
      first [lia | apply representable_small; lia]. }
  set (u := 2 ^ (t - 51)). assert (0 < u) by (apply pow2_pos; lia).
  assert (Ht : 2 ^ t = u * 2 ^ 51).
  { unfold u. rewrite <- Z.pow_add_r by lia. f_equal. lia. }
  pose proof (Z.div_mod x u ltac:(lia)). pose proof (Z.mod_pos_bound x u ltac:(lia)).
  assert (0 ≤ x / u < 2 ^ 52).
  { split; [apply Z.div_pos; lia|]. apply Z.div_lt_upper_bound; lia. }
  assert (Hr : ∀ k, 1 ≤ k ≤ 2 → representable 53 ((x / u + k) * u)).
  { intros k Hk. exists (x / u + k), (t - 51). split_and!; try lia. }
  apply Z.le_lt_trans with ((x / u + 1) * u); [apply fl_le; [lia|lia|lia|by apply Hr|lia]|].
  apply Z.lt_le_trans with ((x / u + 2) * u); [lia|]. apply fl_ge; [lia|lia|lia|by apply Hr|lia].
Qed.

Lemma ratio_ltb_divisible a b :
  br_valid a → br_valid b → my_grainsize a < 2 ^ 50 → my_grainsize b < 2 ^ 50 →
  br_is_divisible a = false → br_is_divisible b = true → ratio_ltb a b = true.
Proof.
  intros Ha Hb Hga Hgb Hna Hdb. unfold br_is_divisible in *.
  apply Z.ltb_ge in Hna. apply Z.ltb_lt in Hdb. apply Z.ltb_lt.
  rewrite (size_valid a Ha), (size_valid b Hb) in *.
  destruct Ha as (? & ? & ?), Hb as (? & ? & ?).
  remember (my_grainsize a) as ga. remember (my_grainsize b) as gb.
  assert (Hex : ∀ n, 0 ≤ n ≤ 2 ^ 50 → Float64.of_Z n = n).
  { intros n Hn. unfold Float64.of_Z. rewrite <- (Z.mul_1_r n) at 1.
    apply fl_exact; try lia. apply representable_small; lia. }
  unfold Float64.mul. rewrite !(Hex ga), !(Hex gb), (Hex (my_end a - my_begin a)) by lia.
  assert (gb + 1 ≤ Float64.of_Z (my_end b - my_begin b)).
  { rewrite <- (Hex (gb + 1)) by lia. apply fl_mono; lia. }
  apply Z.le_lt_trans with (fl 53 (ga * gb) 1); [apply fl_mono; nia|].
  apply Z.lt_le_trans with (fl 53 (ga * gb + ga) 1); [|apply fl_mono; nia].
  apply fl_strict with ga; nia.
Qed.

Lemma ratio_ltb_asym a b : ratio_ltb a b = true → ratio_ltb b a = false.
Proof. unfold ratio_ltb, Float64.ltb. rewrite Z.ltb_lt, Z.ltb_ge. lia. Qed.

(** Comparing two dimensions keeps a divisible one if there is one. *)
Lemma ratio_choice a b :
  br_valid a → br_valid b → my_grainsize a < 2 ^ 50 → my_grainsize b < 2 ^ 50 →
  br_is_divisible a || br_is_divisible b = true →
  br_is_divisible (if ratio_ltb a b then b else a) = true.
Proof.
  intros Ha Hb Hga Hgb. destruct (br_is_divisible a) eqn:Ea, (br_is_divisible b) eqn:Eb; try done;
    intros _; [by case_match| |].
  - pose proof (ratio_ltb_asym _ _ (ratio_ltb_divisible b a Hb Ha Hgb Hga Eb Ea)) as ->. done.
  - by rewrite (ratio_ltb_divisible a b).
Qed.

Lemma max_element_from_spec ds d i idx j d' :
  max_element_from i d idx ds = (j, d') → nd_valid (d :: ds) →
  (existsb br_is_divisible (d :: ds) = true → br_is_divisible d' = true) ∧
  ((j = i ∧ d' = d) ∨ ∃ k, j = (idx + k)%nat ∧ ds !! k = Some d').
Proof.
  revert d i idx. induction ds as [|e ds IH]; intros d i idx E Hv; simpl in *.
  { simplify_eq. rewrite orb_false_r. auto. }
  apply Forall_cons in Hv as [[Hd Hgd] [[He Hge] Hv]%Forall_cons].
  pose proof (ratio_choice d e Hd He Hgd Hge) as Hch.
  destruct (ratio_ltb d e).
  - apply IH in E as [H1 H2]; [|by constructor]. split.
    + rewrite orb_assoc, orb_true_iff. intros [H|H]; apply H1; rewrite orb_true_iff; auto.
    + right. destruct H2 as [[-> ->]|(k & -> & Hk)].
      * exists 0%nat. split; [lia|done].
      * exists (S k). split; [lia|done].
  - apply IH in E as [H1 H2]; [|by constructor]. split.
    + rewrite orb_assoc, orb_true_iff. intros [H|H]; apply H1; rewrite orb_true_iff; auto.
    + destruct H2 as [?|(k & -> & Hk)]; [by left|right]. exists (S k). split; [lia|done].
Qed.

Definition dims2d (r : blocked_range2d) : list blocked_range := [my_rows r; my_cols r].
Definition dims3d (r : blocked_range3d) : list blocked_range := [pages r; rows r; cols r].

#[export] Instance blocked_range2d_ops : RangeOps blocked_range2d :=
  {| empty := empty2d; is_divisible := is_divisible2d; split_range := split2d |}.
#[export] Instance blocked_range3d_ops : RangeOps blocked_range3d :=
  {| empty := empty3d; is_divisible := is_divisible3d; split_range := split3d |}.
#[export] Instance blocked_nd_range_ops : RangeOps blocked_nd_range :=
  {| empty := empty_nd; is_divisible := is_divisible_nd; split_range := split_nd |}.

#[export] Program Instance blocked_range2d_laws : RangeLaws blocked_range2d (list Z) := {|
  elems r := nd_elems (dims2d r);
  valid r := nd_valid (dims2d r);
|}.
Next Obligation. intros r. apply nd_elems_nonempty. Qed.
Next Obligation.
  intros s r l r' Hs Hv Hd E. simpl in *.
  pose proof Hv as [[Hr Hgr] [[Hc Hgc] _]%Forall_cons]%Forall_cons.
  pose proof (ratio_choice _ _ Hr Hc Hgr Hgc Hd) as Hch.
  unfold split2d in E. destruct (ratio_ltb _ _).
  - destruct (br_split s (my_cols r)) as [a b] eqn:Es. simplify_eq.
    by apply (nd_split (dims2d r) 1 (my_cols r) a b s).
  - destruct (br_split s (my_rows r)) as [a b] eqn:Es. simplify_eq.
    by apply (nd_split (dims2d r) 0 (my_rows r) a b s).
Qed.

#[export] Program Instance blocked_range3d_laws : RangeLaws blocked_range3d (list Z) := {|
  elems r := nd_elems (dims3d r);
  valid r := nd_valid (dims3d r);
|}.
Next Obligation. intros r. apply nd_elems_nonempty. Qed.
Next Obligation.
  intros s r l r' Hs Hv Hd E. simpl in *.
  destruct (max_element_from 0 (pages r) 1 [rows r; cols r]) as [j d] eqn:Em.
  pose proof (max_element_from_spec _ _ _ _ _ _ Em Hv) as [Hdiv _].
  unfold is_divisible3d in Hd. simpl in Hdiv. rewrite orb_false_r, orb_assoc in Hdiv.
  specialize (Hdiv Hd). simpl in Em. unfold split3d in E.
  destruct (ratio_ltb (pages r) (rows r)); [destruct (ratio_ltb (rows r) (cols r))|
    destruct (ratio_ltb (pages r) (cols r))]; simplify_eq;
    unfold split_pages, split_rows, split_cols in E.
  - destruct (br_split s (cols r)) as [a b] eqn:Es. simplify_eq.
    by apply (nd_split (dims3d r) 2 (cols r) a b s).
  - destruct (br_split s (rows r)) as [a b] eqn:Es. simplify_eq.
    by apply (nd_split (dims3d r) 1 (rows r) a b s).
  - destruct (br_split s (cols r)) as [a b] eqn:Es. simplify_eq.
    by apply (nd_split (dims3d r) 2 (cols r) a b s).
  - destruct (br_split s (pages r)) as [a b] eqn:Es. simplify_eq.
    by apply (nd_split (dims3d r) 0 (pages r) a b s).
Qed.

Lemma my_dims_of_dims ds r : ds ≠ [] → my_dims (of_dims ds r) = ds.
Proof. by destruct ds. Qed.

#[export] Program Instance blocked_nd_range_laws : RangeLaws blocked_nd_range (list Z) := {|
  elems r := nd_elems (my_dims r);
  valid r := nd_valid (my_dims r);
|}.
Next Obligation. intros r. apply nd_elems_nonempty. Qed.
Next Obligation.
  intros s r l r' Hs Hv Hd E. cbn [is_divisible split_range blocked_nd_range_ops] in *.
  unfold split_nd in E.
  destruct (max_element_from 0 (dim0 r) 1 (more_dims r)) as [j d] eqn:Em.
  pose proof (max_element_from_spec _ _ _ _ _ _ Em Hv) as [Hdiv Hj].
  destruct (br_split s d) as [a b] eqn:Es. simplify_eq.
  assert (Hne : ∀ x, <[j := x]> (my_dims r) ≠ []) by (intros x; by destruct j).
  rewrite !my_dims_of_dims by done.
  apply (nd_split (my_dims r) j d a b s); auto.
  destruct Hj as [[-> ->]|(k & -> & Hk)]; done.
Qed.
End Multi.

Module RangeTheorems.
Import Blocked Multi.

(** Splitting a divisible [blocked_range], in half or in a proportion that
    the partitioners use, gives two non-empty ranges whose iterations, first
    those of the old range and then those of the new one, are exactly the
    iterations of the range that was split; the [float] arithmetic of the
    proportional split never makes a part empty. *)
Theorem blocked_range_split (s : split_obj) (r l r' : blocked_range)
    (Hs : proportion_ok s) (Hr : br_valid r) (Hd : br_is_divisible r = true)
    (E : br_split s r = (l, r')) :
  br_empty l = false ∧ br_empty r' = false ∧ my_end l = my_begin r' ∧
  br_elems r = br_elems l ++ br_elems r' ∧
  size l + size r' = size r ∧ 0 < size l ∧ 0 < size r' ∧
  my_grainsize l = my_grainsize r ∧ my_grainsize r' = my_grainsize r.
Proof.
  destruct (br_split_spec s r l r' Hs Hr Hd E) as (Hl & Hr' & He & Hgl & Hgr).
  rewrite !size_valid by done.
  assert (my_end l = my_begin r' ∧ my_begin l = my_begin r ∧ my_end r' = my_end r) as (? & ? & ?)
    by (unfold br_split, do_split in E; by simplify_eq/=).
  destruct Hl as (? & ? & ?), Hr' as (? & ? & ?). unfold br_empty.
  split_and!; try done; try lia; apply negb_false_iff, Z.ltb_lt; done.
Qed.

(** Splitting a divisible range of two, three or any number of dimensions,
    each with a grainsize below [2^50], gives two ranges with no empty
    dimension, whose points are together exactly the points of the range: the
    rounding in the comparison of the [double] products never selects a
    dimension that is not divisible. *)
Theorem multi_range_split (s : split_obj) (r2 : blocked_range2d) (r3 : blocked_range3d)
    (rn : blocked_nd_range) (Hs : proportion_ok s)
    (H2 : nd_valid (dims2d r2)) (H3 : nd_valid (dims3d r3)) (Hn : nd_valid (my_dims rn))
    (D2 : is_divisible2d r2 = true) (D3 : is_divisible3d r3 = true)
    (Dn : is_divisible_nd rn = true) :
  (let '(l, r') := split2d s r2 in
   nd_valid (dims2d l) ∧ nd_valid (dims2d r') ∧
   nd_elems (dims2d r2) ≡ₚ nd_elems (dims2d l) ++ nd_elems (dims2d r')) ∧
  (let '(l, r') := split3d s r3 in
   nd_valid (dims3d l) ∧ nd_valid (dims3d r') ∧
   nd_elems (dims3d r3) ≡ₚ nd_elems (dims3d l) ++ nd_elems (dims3d r')) ∧
  (let '(l, r') := split_nd s rn in
   nd_valid (my_dims l) ∧ nd_valid (my_dims r') ∧
   nd_elems (my_dims rn) ≡ₚ nd_elems (my_dims l) ++ nd_elems (my_dims r')).
Proof.
  destruct (split2d s r2) as [l2 r2'] eqn:E2, (split3d s r3) as [l3 r3'] eqn:E3,
    (split_nd s rn) as [ln rn'] eqn:En.
  split; [|split].
  - exact (split_valid (R := blocked_range2d) (E := list Z) s r2 l2 r2' Hs H2 D2 E2).
  - exact (split_valid (R := blocked_range3d) (E := list Z) s r3 l3 r3' Hs H3 D3 E3).
  - exact (split_valid (R := blocked_nd_range) (E := list Z) s rn ln rn' Hs Hn Dn En).
Qed.

(** A range of one row that needs no split and of columns just above their
    grainsize of [2^53]. *)
Definition huge_grain : blocked_range2d :=
  BlockedRange2d (BlockedRange 1 0 1) (BlockedRange (2 ^ 53 + 1) 0 (2 ^ 53)).

(** Without the bound on the grainsize the rounding matters: a divisible
    range is split along its row, which leaves the old range empty and makes
    the new one equal to the range that was split, so that a partitioner that
    splits while the range is divisible never finishes. *)
Theorem split2d_no_progress :
  is_divisible2d huge_grain = true ∧ empty2d huge_grain = false ∧
  empty2d (split2d Split huge_grain).1 = true ∧ (split2d Split huge_grain).2 = huge_grain.
Proof. by vm_compute. Qed.

Definition range10 : blocked_range := BlockedRange 10 0 2.

Lemma blocked_range_split_witness :
  br_split (ProportionalSplit 2 1) range10 = (BlockedRange 7 0 2, BlockedRange 10 7 2) ∧
  br_elems range10 = br_elems (BlockedRange 7 0 2) ++ br_elems (BlockedRange 10 7 2).
Proof.
  assert (E : br_split (ProportionalSplit 2 1) range10 = (BlockedRange 7 0 2, BlockedRange 10 7 2))
    by by vm_compute.
  split; [done|]. eapply (blocked_range_split (ProportionalSplit 2 1)); [simpl; lia| |done|exact E].
  unfold br_valid; simpl; lia.
Defined.

Lemma multi_range_split_witness :
  nd_elems (dims2d (BlockedRange2d range10 range10)) ≡ₚ
  nd_elems (dims2d (split2d Split (BlockedRange2d range10 range10)).1) ++
  nd_elems (dims2d (split2d Split (BlockedRange2d range10 range10)).2).
Proof.
  assert (H : ∀ n, nd_valid (replicate n range10))
    by (intros n; apply Forall_replicate; unfold br_valid; simpl; lia).
  destruct (multi_range_split Split (BlockedRange2d range10 range10)
    (BlockedRange3d range10 range10 range10) (BlockedNdRange range10 [range10])
    I (H 2%nat) (H 3%nat) (H 2%nat) eq_refl eq_refl eq_refl) as [H2 _].
  destruct (split2d Split _) as [l r']. apply H2.
Defined.
End RangeTheorems.
