(* ===== verification/Partitioner.v ===== *)
(** * Partitioners

    How a task of a parallel algorithm cuts its range: the range pool
    ([range_vector], [RangeVector]), the state that each of the four
    partitioners carries in a task ([Partition]) and the loops that split,
    offer and run ranges ([Execute]).
    Source: include/oneapi/tbb/partitioner.h.

    A task interacts with the others only through the flags it reads (was a
    task stolen, is the group cancelled).  The answers are an input of the
    model, so its theorems hold for every behaviour of the other threads. *)

From S2P Require Import Prelude Ranges.
From stdpp Require Import base numbers relations list.
From Stdlib Require Import ZArith Lia ZifyNat.

(** [depth_t] is an unsigned char. *)
Definition depth_t (x : nat) : nat := x mod 256.

(** ** The range pool: a circular buffer *)
Module RangeVector.
Section range_vector.
Context {R : Type} `{RangeOps R}.

(** [__TBB_RANGE_POOL_CAPACITY] *)
Definition MaxCapacity : nat := 8.

(** A cell of the pool is [None] while no object is constructed in it. *)
Record range_vector := Pool {
  my_head : nat;
  my_tail : nat;
  my_size : nat;
  my_depth : list nat;
  my_pool : list (option R);
}.

Definition init (elem : R) : range_vector :=
  Pool 0 0 1 (replicate MaxCapacity 0) (Some elem :: replicate (MaxCapacity - 1) None).

Definition back (v : range_vector) : option R := mjoin (my_pool v !! my_head v).
Definition front (v : range_vector) : option R := mjoin (my_pool v !! my_tail v).
Definition back_depth (v : range_vector) : option nat := my_depth v !! my_head v.
Definition front_depth (v : range_vector) : option nat := my_depth v !! my_tail v.

Definition is_divisible (max_depth : nat) (v : range_vector) : option bool :=
  d ← back_depth v;
  if d <? max_depth then r ← back v; Some (Ranges.is_divisible r) else Some false.

(** The body of the loop of [split_to_fill]: the cell after the head gets the
    first part of the range, the head keeps the second. *)
Definition split_back (v : range_vector) : option range_vector :=
  let prev := my_head v in
  let head := (my_head v + 1) mod MaxCapacity in
  whole ← back v;
  let '(first, second) := split_range Split whole in
  pool ← write (my_pool v) head (Some first);
  pool ← write pool prev (Some second);
  d ← my_depth v !! prev;
  depth ← write (my_depth v) prev (depth_t (d + 1));
  depth ← write depth head (depth_t (d + 1));
  Some (Pool head (my_tail v) (my_size v + 1) depth pool).

Fixpoint split_to_fill_loop (fuel max_depth : nat) (v : range_vector) : option range_vector :=
  match fuel with
  | O => None
  | S fuel =>
      if my_size v <? MaxCapacity then
        b ← is_divisible max_depth v;
        if b : bool then v' ← split_back v; split_to_fill_loop fuel max_depth v' else Some v
      else Some v
  end.
(** The loop adds an element each time, so [MaxCapacity] iterations are enough. *)
Definition split_to_fill (max_depth : nat) (v : range_vector) : option range_vector :=
  split_to_fill_loop (S MaxCapacity) max_depth v.

Definition pop_back (v : range_vector) : option range_vector :=
  _ ← back v;
  pool ← write (my_pool v) (my_head v) None;
  Some (Pool ((my_head v + MaxCapacity - 1) mod MaxCapacity) (my_tail v) (my_size v - 1)
          (my_depth v) pool).

Definition pop_front (v : range_vector) : option range_vector :=
  _ ← front v;
  pool ← write (my_pool v) (my_tail v) None;
  Some (Pool (my_head v) ((my_tail v + 1) mod MaxCapacity) (my_size v - 1) (my_depth v) pool).

(** *** The deque it implements, from the front to the back *)
Definition split_last (q : list (R * nat)) (max_depth : nat) : option (list (R * nat)) :=
  '(r, d) ← last q;
  if (length q <? MaxCapacity) && (d <? max_depth) && Ranges.is_divisible r then
    let '(first, second) := split_range Split r in
    Some (take (length q - 1) q ++ [(second, depth_t (d + 1)); (first, depth_t (d + 1))])
  else None.

Fixpoint fill (fuel max_depth : nat) (q : list (R * nat)) : list (R * nat) :=
  match fuel with
  | O => q
  | S fuel =>
      match split_last q max_depth with
      | Some q' => fill fuel max_depth q'
      | None => q
      end
  end.

(** The pool holds the elements of [q], in order from the tail, with their
    depths, and no object in any other cell. *)
Definition models (v : range_vector) (q : list (R * nat)) : Prop :=
  length (my_pool v) = MaxCapacity ∧ length (my_depth v) = MaxCapacity ∧
  my_tail v < MaxCapacity ∧ my_size v = length q ∧ length q ≤ MaxCapacity ∧
  my_head v = (my_tail v + my_size v + MaxCapacity - 1) mod MaxCapacity ∧
  (∀ i r d, q !! i = Some (r, d) →
     my_pool v !! ((my_tail v + i) mod MaxCapacity) = Some (Some r) ∧
     my_depth v !! ((my_tail v + i) mod MaxCapacity) = Some d) ∧
  (∀ i, length q ≤ i < MaxCapacity →
     my_pool v !! ((my_tail v + i) mod MaxCapacity) = Some None).

Local Ltac mod_lia := unfold MaxCapacity in *; zify; Z.to_euclidean_division_equations; lia.

Lemma lookup_insert_mod {A} (l : list A) t i j x :
  length l = MaxCapacity → i < MaxCapacity → j < MaxCapacity →
  <[(t + i) mod MaxCapacity := x]> l !! ((t + j) mod MaxCapacity) =
  if decide (i = j) then Some x else l !! ((t + j) mod MaxCapacity).
Proof.
  intros Hl Hi Hj. case_decide as E.
  - subst j. apply list_lookup_insert_eq. rewrite Hl. mod_lia.
  - apply list_lookup_insert_ne. mod_lia.
Qed.

Lemma lookup_insert_tail {A} (l : list A) t j x :
  length l = MaxCapacity → t < MaxCapacity → j < MaxCapacity →
  <[t := x]> l !! ((t + j) mod MaxCapacity) =
  if decide (j = 0) then Some x else l !! ((t + j) mod MaxCapacity).
Proof.
  intros Hl Ht Hj. case_decide as E.
  - subst j. rewrite Nat.add_0_r, Nat.mod_small by done. apply list_lookup_insert_eq. lia.
  - apply list_lookup_insert_ne. mod_lia.
Qed.

Lemma init_models r : models (init r) [(r, 0)].
Proof.
  split_and!; try done; simpl; try (unfold MaxCapacity; lia).
  - intros [|i] r' d E; simplify_eq/=. done.
  - intros i Hi. unfold MaxCapacity in *.
    do 8 (destruct i as [|i]; [first [lia|done]|]). lia.
Qed.

Lemma models_lookup v q i r d :
  models v q → q !! i = Some (r, d) →
  my_pool v !! ((my_tail v + i) mod MaxCapacity) = Some (Some r) ∧
  my_depth v !! ((my_tail v + i) mod MaxCapacity) = Some d.
Proof. intros (_ & _ & _ & _ & _ & _ & Hq & _). apply Hq. Qed.

Lemma models_head v q x :
  models v (q ++ [x]) → my_head v = (my_tail v + length q) mod MaxCapacity.
Proof.
  intros (Hp & Hd & Ht & Hs & Hn & Hh & _). rewrite Hh, Hs.
  rewrite length_app in *; cbn [length] in *. mod_lia.
Qed.

Lemma models_back v q r d :
  models v (q ++ [(r, d)]) → back v = Some r ∧ back_depth v = Some d.
Proof.
  intros Hm. unfold back, back_depth. rewrite (models_head _ _ _ Hm).
  destruct (models_lookup v _ (length q) r d Hm) as [-> ->]; [by apply list_lookup_middle|done].
Qed.

Lemma models_front v q r d :
  models v ((r, d) :: q) → front v = Some r ∧ front_depth v = Some d.
Proof.
  intros Hm. pose proof Hm as (_ & _ & Ht & _). unfold front, front_depth.
  destruct (models_lookup v _ 0 r d Hm) as [H1 H2]; [done|].
  rewrite Nat.add_0_r, Nat.mod_small in H1, H2 by done. by rewrite H1, H2.
Qed.

Lemma split_back_models v q r d first second :
  models v (q ++ [(r, d)]) → length (q ++ [(r, d)]) < MaxCapacity →
  split_range Split r = (first, second) →
  ∃ v', split_back v = Some v' ∧
    models v' (q ++ [(second, depth_t (d + 1)); (first, depth_t (d + 1))]).
Proof.
  intros Hm Hlt E. pose proof (models_back _ _ _ _ Hm) as [Hb Hbd].
  pose proof (models_head _ _ _ Hm) as Hh. unfold back_depth in Hbd.
  destruct Hm as (Hp & Hd & Ht & Hs & Hn & _ & Hq & Hf).
  rewrite length_app in *; cbn [length] in *.
  assert (Hh' : (my_head v + 1) mod MaxCapacity = (my_tail v + S (length q)) mod MaxCapacity)
    by (rewrite Hh; mod_lia).
  assert (Hcap : ∀ x, x mod MaxCapacity < MaxCapacity) by (intros; mod_lia).
  unfold split_back. rewrite Hb. opt_simpl. rewrite E, Hbd, Hh', Hh.
  repeat (rewrite write_Some by (rewrite ?length_insert, ?Hp, ?Hd; apply Hcap); opt_simpl).
  eexists. split; [done|]. unfold models; cbn [my_pool my_depth my_tail my_head my_size].
  rewrite !length_insert, length_app. cbn [length]. split_and!; try done; try lia.
  - rewrite Hs. mod_lia.
  - intros i r' d' Hi. pose proof (lookup_lt_Some _ _ _ Hi) as Hil.
    rewrite length_app in Hil. cbn [length] in Hil.
    rewrite !lookup_insert_mod by (rewrite ?length_insert; unfold MaxCapacity in *; lia).
    destruct (decide (i < length q)).
    + rewrite lookup_app_l in Hi by done. repeat (case_decide; [lia|]).
      apply (Hq i). by rewrite lookup_app_l.
    + rewrite lookup_app_r in Hi by lia.
      destruct (i - length q) as [|[|n']] eqn:En; simplify_eq/=; repeat case_decide; (lia || done).
  - intros i Hi. rewrite !lookup_insert_mod by (rewrite ?length_insert; unfold MaxCapacity in *; lia).
    repeat (case_decide; [lia|]). apply Hf. lia.
Qed.

Lemma pop_back_models v q r d :
  models v (q ++ [(r, d)]) → ∃ v', pop_back v = Some v' ∧ models v' q.
Proof.
  intros Hm. pose proof (models_back _ _ _ _ Hm) as [Hb _]. pose proof (models_head _ _ _ Hm) as Hh.
  destruct Hm as (Hp & Hd & Ht & Hs & Hn & _ & Hq & Hf). rewrite length_app in *; cbn [length] in *.
  unfold pop_back. rewrite Hb. opt_simpl. rewrite Hh, write_Some by (rewrite Hp; mod_lia).
  opt_simpl. eexists. split; [done|]. unfold models; cbn [my_pool my_depth my_tail my_head my_size].
  rewrite length_insert. split_and!; try done; try lia.
  - mod_lia.
  - intros i r' d' Hi. pose proof (lookup_lt_Some _ _ _ Hi).
    rewrite lookup_insert_mod by (unfold MaxCapacity in *; lia). case_decide; [lia|].
    apply Hq. by rewrite lookup_app_l.
  - intros i Hi. rewrite lookup_insert_mod by (unfold MaxCapacity in *; lia).
    case_decide; [done|]. apply Hf. lia.
Qed.

Lemma pop_front_models v q r d :
  models v ((r, d) :: q) → ∃ v', pop_front v = Some v' ∧ models v' q.
Proof.
  intros Hm. pose proof (models_front _ _ _ _ Hm) as [Hb _].
  destruct Hm as (Hp & Hd & Ht & Hs & Hn & Hh & Hq & Hf). cbn [length] in *.
  unfold pop_front. rewrite Hb. opt_simpl. rewrite write_Some by (rewrite Hp; mod_lia).
  assert (Hidx : ∀ i, ((my_tail v + 1) mod MaxCapacity + i) mod MaxCapacity =
                      (my_tail v + S i) mod MaxCapacity) by (intros; mod_lia).
  opt_simpl. eexists. split; [done|]. unfold models; cbn [my_pool my_depth my_tail my_head my_size].
  rewrite length_insert.
  split_and!; try done; try lia; try mod_lia.
  - intros i r' d' Hi. pose proof (lookup_lt_Some _ _ _ Hi). rewrite Hidx.
    rewrite lookup_insert_tail by (unfold MaxCapacity in *; lia). case_decide; [lia|].
    by apply Hq.
  - intros i Hi. rewrite Hidx. destruct (decide (i = MaxCapacity - 1)) as [->|].
    + replace ((my_tail v + S (MaxCapacity - 1)) mod MaxCapacity)
        with ((my_tail v + 0) mod MaxCapacity) by mod_lia.
      rewrite lookup_insert_tail by (unfold MaxCapacity in *; lia). done.
    + rewrite lookup_insert_tail by (unfold MaxCapacity in *; lia). case_decide; [lia|].
      apply Hf. lia.
Qed.

Lemma split_last_snoc q r d max_depth :
  split_last (q ++ [(r, d)]) max_depth =
  if (length q + 1 <? MaxCapacity) && (d <? max_depth) && Ranges.is_divisible r then
    let '(first, second) := split_range Split r in
    Some (q ++ [(second, depth_t (d + 1)); (first, depth_t (d + 1))])
  else None.
Proof.
  unfold split_last. rewrite last_snoc. opt_simpl. rewrite length_app. cbn [length].
  case_match; [|done]. destruct (split_range Split r). by rewrite Nat.add_sub, take_app_length.
Qed.

Lemma is_divisible_models v q r d max_depth :
  models v (q ++ [(r, d)]) →
  is_divisible max_depth v = Some ((d <? max_depth) && Ranges.is_divisible r).
Proof.
  intros Hm. destruct (models_back _ _ _ _ Hm) as [Hb Hd]. unfold is_divisible.
  rewrite Hd, Hb. opt_simpl. by destruct (d <? max_depth).
Qed.

Lemma split_to_fill_loop_models fuel max_depth v q :
  models v q → q ≠ [] → MaxCapacity - length q < fuel →
  ∃ v', split_to_fill_loop fuel max_depth v = Some v' ∧ models v' (fill fuel max_depth q).
Proof.
  revert v q. induction fuel as [|fuel IH]; intros v q Hm Hne Hf; [lia|].
  destruct q as [|[r d] q _] using rev_ind; [done|]. cbn [split_to_fill_loop fill].
  pose proof Hm as (_ & _ & _ & Hs & Hn & _). rewrite split_last_snoc, Hs, length_app.
  rewrite length_app in Hn, Hf. cbn [length] in *.
  destruct (Nat.ltb_spec (length q + 1) MaxCapacity) as [Hlt|Hge]; [|eauto].
  rewrite (is_divisible_models _ _ _ _ _ Hm). opt_simpl. simpl.
  destruct ((d <? max_depth) && Ranges.is_divisible r); [|eauto].
  destruct (split_range Split r) as [first second] eqn:E.
  destruct (split_back_models v q r d first second Hm) as (v' & -> & Hm'); [|done|].
  { by rewrite length_app. }
  opt_simpl. apply IH; [done|by destruct q|]. rewrite length_app. cbn [length]. lia.
Qed.

Lemma split_to_fill_models max_depth v q :
  models v q → q ≠ [] →
  ∃ v', split_to_fill max_depth v = Some v' ∧ models v' (fill (S MaxCapacity) max_depth q).
Proof. intros. apply split_to_fill_loop_models; [done..|lia]. Qed.

(** *** Sequences of operations *)
Inductive op := Fill (max_depth : nat) | PopBack | PopFront.

Definition run_op (o : op) (v : range_vector) : option range_vector :=
  match o with
  | Fill max_depth => split_to_fill max_depth v
  | PopBack => pop_back v
  | PopFront => pop_front v
  end.

(** The operations on the deque; a pool is not used when it is empty. *)
Definition deque_op (o : op) (q : list (R * nat)) : option (list (R * nat)) :=
  match q with
  | [] => None
  | _ :: q' =>
      Some match o with
           | Fill max_depth => fill (S MaxCapacity) max_depth q
           | PopBack => take (length q - 1) q
           | PopFront => q'
           end
  end.

Lemma run_op_models o v q q' :
  models v q → deque_op o q = Some q' → ∃ v', run_op o v = Some v' ∧ models v' q'.
Proof.
  intros Hm Ho. destruct q as [|[r d] q]; [done|]. 
  destruct o as [md| |]; cbn [run_op deque_op] in *; injection Ho as <-.
  - by apply split_to_fill_models.
  - destruct (exists_last (l := (r, d) :: q)) as (q0 & [r0 d0] & E); [done|].
    pose proof (f_equal length E) as El. rewrite length_app in El. cbn [length] in El.
    replace (length q - 0) with (length q0) by lia. rewrite E, take_app_length in *.
    by apply pop_back_models with r0 d0.
  - by apply pop_front_models with r d.
Qed.

Fixpoint run_ops {S} (f : op → S → option S) (ops : list op) (s : S) : option S :=
  match ops with
  | [] => Some s
  | o :: ops => s' ← f o s; run_ops f ops s'
  end.

(** The range pool is a deque in a circular buffer of eight cells: after any
    sequence of operations that is allowed on the deque (nothing is done with
    an empty pool) the pool has stayed within its arrays, holds exactly the
    ranges and depths of the deque, in order, with [front] and [back] at its
    ends, and no live object in any other cell. *)
Theorem range_vector_refines (r : R) (ops : list op) (q : list (R * nat))
    (Hq : run_ops deque_op ops [(r, 0)] = Some q) :
  ∃ v, run_ops run_op ops (init r) = Some v ∧ models v q ∧ length q ≤ MaxCapacity ∧
    (q ≠ [] → back v = fst <$> last q ∧ back_depth v = snd <$> last q ∧
              front v = fst <$> head q ∧ front_depth v = snd <$> head q).
Proof.
  assert (Hrun : ∀ ops v q0, models v q0 → run_ops deque_op ops q0 = Some q →
    ∃ v', run_ops run_op ops v = Some v' ∧ models v' q).
  { clear. intros ops. induction ops as [|o ops IH]; intros v q0 Hm E; simpl in *; [by simplify_eq; eauto|].
    apply bind_Some in E as (q1 & Ho & E). destruct (run_op_models o v q0 q1 Hm Ho) as (v' & -> & Hm').
    opt_simpl. by apply IH with q1. }
  destruct (Hrun ops (init r) _ (init_models r) Hq) as (v & Hv & Hm). exists v.
  split_and!; [done..|by destruct Hm as (_ & _ & _ & _ & ? & _)|]. intros Hne.
  destruct (exists_last Hne) as (q0 & [r1 d1] & ->). rewrite last_snoc.
  destruct (models_back _ _ _ _ Hm) as [-> ->].
  destruct (q0 ++ [(r1, d1)]) as [|[r2 d2] q2] eqn:E; [by destruct q0|].
  destruct (models_front _ _ _ _ Hm) as [-> ->]. done.
Qed.
End range_vector.
Arguments range_vector : clear implicits.
End RangeVector.

(** ** The partition object of a task *)
Module Partition.
Local Open Scope Z_scope.

Inductive kind := Simple | Auto | Static | Affinity.
Inductive delay := Begin | Run | Pass.
#[export] Instance kind_eq_dec : EqDecision kind.
Proof. solve_decision. Defined.

(** The data members of the partition types.  [simple_partition_type] uses
    none of them, [auto_partition_type] has no position in the affinity
    array, [static_partition_type] no depth. *)
Record partition := Partition {
  my_kind : kind;
  my_divisor : Z;
  my_delay : delay;
  my_max_depth : nat;
  my_head : Z;
  my_max_affinity : Z;
}.

Definition size_t (x : Z) : Z := x mod 2 ^ 64.

(** [my_partition::factor]; [factor_power] is 4. *)
Definition factor (k : kind) : Z := match k with Affinity => 16 | _ => 1 end.

Definition get_initial_auto_partitioner_divisor (max_concurrency : Z) : Z := 4 * max_concurrency.

(** The constructors from a partitioner; [head] is
    [get_initial_partition_head()]. *)
Definition create (k : kind) (max_concurrency head : Z) : partition :=
  let divisor := get_initial_auto_partitioner_divisor max_concurrency / 4 * factor k in
  match k with
  | Simple => Partition Simple 0 Begin 0 0 0
  | Auto => Partition Auto (divisor * 2) Begin 5 0 0
  | Static => Partition Static divisor Begin 0 head divisor
  | Affinity => Partition Affinity divisor Begin 5 head divisor
  end.

Definition set_divisor (d : Z) (p : partition) : partition :=
  Partition (my_kind p) d (my_delay p) (my_max_depth p) (my_head p) (my_max_affinity p).
Definition set_depth (d : nat) (p : partition) : partition :=
  Partition (my_kind p) (my_divisor p) (my_delay p) d (my_head p) (my_max_affinity p).
Definition set_delay (d : delay) (p : partition) : partition :=
  Partition (my_kind p) (my_divisor p) d (my_max_depth p) (my_head p) (my_max_affinity p).
Definition set_head (h : Z) (p : partition) : partition :=
  Partition (my_kind p) (my_divisor p) (my_delay p) (my_max_depth p) h (my_max_affinity p).

(** [adaptive_mode::do_split] and [proportional_mode::do_split]: what is left
    in the source and what the new object gets. *)
Definition adaptive_do_split (p : partition) : partition * Z :=
  let d := my_divisor p / 2 in (set_divisor d p, d).
Definition proportional_do_split (right : Z) (p : partition) : partition * Z :=
  let f := factor (my_kind p) in
  let portion := size_t (right * f) in
  let portion := Z.land (size_t (portion + f / 2)) (size_t (0 - f)) in
  (set_divisor (size_t (my_divisor p - portion)) p, portion).

(** The splitting constructors: the source and the new partition. *)
Definition split_partition (s : split_obj) (p : partition) : partition * partition :=
  match my_kind p with
  | Simple => (p, p)
  | Auto =>
      let '(src, d) := adaptive_do_split p in
      (src, set_delay Pass (set_divisor d p))
  | Static | Affinity =>
      let '(src, d) :=
        match s with
        | Split => adaptive_do_split p
        | ProportionalSplit _ r => proportional_do_split r p
        end in
      let head := size_t (my_head src + my_divisor src) mod my_max_affinity src in
      let delay := match s with Split => Pass | ProportionalSplit _ _ => Begin end in
      (src, set_head head (set_delay delay (set_divisor d p)))
  end.

(** [get_split] *)
Definition get_split (p : partition) : split_obj :=
  match my_kind p with
  | Simple | Auto => Split
  | Static | Affinity =>
      let n := my_divisor p / factor (my_kind p) in
      let right := n / 2 in
      let left := n - right in
      ProportionalSplit left right
  end.

(** [is_divisible] of the partition; [simple_partition_type] has none. *)
Definition divisible (p : partition) : bool * partition :=
  match my_kind p with
  | Simple => (false, p)
  | Auto =>
      if my_divisor p >? 1 then (true, p)
      else if negb (my_divisor p =? 0) && negb (my_max_depth p =? 0)%nat then
        (true, set_divisor 0 (set_depth (my_max_depth p - 1) p))
      else (false, p)
  | Static | Affinity => (my_divisor p >? factor (my_kind p), p)
  end.

(** [check_being_stolen]; [concurrent] says that the task was stolen and runs
    concurrently with its left sibling. *)
Definition check_being_stolen (concurrent : bool) (p : partition) : partition * bool :=
  match my_kind p with
  | Simple | Static => (p, false)
  | Auto | Affinity =>
      if my_divisor p / factor (my_kind p) =? 0 then
        let p := set_divisor 1 p in
        if concurrent then
          let depth := if (my_max_depth p =? 0)%nat then 1%nat else my_max_depth p in
          (set_depth (depth_t (depth + 1)) p, true)
        else (p, false)
      else (p, false)
  end.

(** [align_depth], on [unsigned char]. *)
Definition align_depth (base : nat) (p : partition) : partition :=
  set_depth (depth_t (my_max_depth p + 256 - base)) p.

(** [check_for_demand]; [peer] is [tree_node::is_peer_stolen]. *)
Definition check_for_demand (peer : bool) (p : partition) : partition * bool :=
  let deeper := set_depth (depth_t (my_max_depth p + 1)) p in
  match my_kind p with
  | Simple | Static => (p, false)
  | Auto => if peer then (deeper, true) else (p, false)
  | Affinity =>
      match my_delay p with
      | Pass =>
          if my_divisor p >? 1 then (p, true)
          else if negb (my_divisor p =? 0) && negb (my_max_depth p =? 0)%nat then
            (set_divisor 0 p, true)
          else if peer then (deeper, true)
          else (p, false)
      | Begin => (set_delay Pass p, false)
      | Run => (p, false)
      end
  end.

(** The affinity array, shared by the tasks of a loop: where a task is
    remembered, and where it is sent.  [None]: spawned without affinity. *)
Definition note_affinity (id : Z) (p : partition) (my_array : list Z) : option (list Z) :=
  match my_kind p with
  | Affinity =>
      if negb (my_divisor p =? 0) then write my_array (Z.to_nat (my_head p)) id else Some my_array
  | _ => Some my_array
  end.

Definition no_slot : Z := 2 ^ 16 - 1.

(** The slot that [spawn_task] passes to [spawn]; the outer [option] is the
    bounds check of the array. *)
Definition spawn_slot (p : partition) (my_array : list Z) : option (option Z) :=
  match my_kind p with
  | Simple | Auto => Some None
  | Static => Some (if negb (my_divisor p =? 0) then Some (my_head p) else None)
  | Affinity =>
      if negb (my_divisor p =? 0) then
        a ← my_array !! Z.to_nat (my_head p);
        Some (Some (if a =? 0 then my_head p / factor Affinity else a))
      else Some None
  end.

(** *** What the constructors keep

    The positions are within the affinity array.  The divisor of an affinity
    partition is a multiple of the factor as long as it is above it, so that a
    proportional split always has a part for the right side. *)
Definition part_ok (p : partition) : Prop :=
  match my_kind p with
  | Simple | Auto => True
  | Static => 0 ≤ my_divisor p < 2 ^ 32 ∧ 0 ≤ my_head p < my_max_affinity p
  | Affinity =>
      0 ≤ my_divisor p < 2 ^ 32 ∧ 0 ≤ my_head p < my_max_affinity p ∧
      (16 < my_divisor p → my_divisor p mod 16 = 0)
  end.

Lemma create_ok k max_concurrency head :
  0 ≤ head < max_concurrency → max_concurrency < 2 ^ 16 → part_ok (create k max_concurrency head).
Proof.
  intros Hh Hm. unfold part_ok, create, get_initial_auto_partitioner_divisor.
  rewrite (Z.mul_comm 4), Z.div_mul by lia.
  destruct k; simpl; try done; [lia|]. split_and!; lia.
Qed.

Lemma land_16 x : 0 ≤ x < 2 ^ 64 → Z.land x (2 ^ 64 - 16) = 16 * (x / 16).
Proof.
  intros Hx. change (2 ^ 64 - 16) with (Z.ldiff (Z.ones 64) (Z.ones 4)).
  assert (E : Z.land x (Z.ldiff (Z.ones 64) (Z.ones 4)) = Z.ldiff (Z.land x (Z.ones 64)) (Z.ones 4)).
  { apply Z.bits_inj'. intros n Hn. rewrite Z.land_spec, !Z.ldiff_spec, Z.land_spec.
    by rewrite andb_assoc. }
  rewrite E, Z.land_ones, Z.mod_small by lia.
  rewrite Z.ldiff_ones_r, Z.shiftl_mul_pow2, Z.shiftr_div_pow2 by lia. change (2 ^ 4) with 16. lia.
Qed.

Lemma land_full x : 0 ≤ x < 2 ^ 64 → Z.land x (2 ^ 64 - 1) = x.
Proof.
  intros Hx. change (2 ^ 64 - 1) with (Z.ones 64). rewrite Z.land_ones by lia.
  by apply Z.mod_small.
Qed.

(** A proportional split divides the divisor. *)
Lemma proportional_do_split_spec right p :
  part_ok p → my_kind p = Static ∨ my_kind p = Affinity →
  0 ≤ right * factor (my_kind p) ≤ my_divisor p →
  proportional_do_split right p =
  (set_divisor (my_divisor p - right * factor (my_kind p)) p, right * factor (my_kind p)).
Proof.
  intros Hok Hk Hr. unfold part_ok, proportional_do_split, size_t in *.
  destruct Hk as [Hk|Hk]; rewrite Hk in *; simpl in *.
  - destruct Hok as (Hd & _). change ((0 - 1) mod 2 ^ 64) with (2 ^ 64 - 1).
    rewrite Z.mul_1_r in *. rewrite (Z.mod_small right), Z.add_0_r, (Z.mod_small right), land_full by lia.
    by rewrite Z.mod_small by lia.
  - destruct Hok as (Hd & _). change ((0 - 16) mod 2 ^ 64) with (2 ^ 64 - 16).
    change (16 / 2) with 8.
    rewrite (Z.mod_small (right * 16)), (Z.mod_small (right * 16 + 8)), land_16 by lia.
    replace ((right * 16 + 8) / 16) with right by (apply Z.div_unique with 8; lia).
    rewrite (Z.mul_comm 16), Z.mod_small by lia. done.
Qed.

Lemma head_ok (h d m : Z) : 0 < m → 0 ≤ size_t (h + d) mod m < m.
Proof. intros. by apply Z.mod_pos_bound. Qed.

(** Splitting on the way down, in the proportion that [get_split] gives. *)
Lemma spread_split_ok p b p1 a child :
  part_ok p → divisible p = (b, p1) →
  part_ok p1 ∧ my_kind p1 = my_kind p ∧
  (b = true → proportion_ok (get_split p1) ∧
     (split_partition (get_split p1) p1 = (a, child) →
      part_ok a ∧ part_ok child ∧ my_kind a = my_kind p ∧ my_kind child = my_kind p)).
Proof.
  intros Hok E. destruct (my_kind p) eqn:Hk; unfold divisible in E; rewrite Hk in E.
  - simplify_eq. split_and!; auto; done.
  - assert (my_kind p1 = Auto) as Hk1 by (repeat case_match; simplify_eq/=; done).
    unfold part_ok, get_split, split_partition. rewrite Hk1. split; [done|]. split; [done|].
    intros _. split; [done|]. intros. simplify_eq/=. rewrite Hk1. done.
  - injection E as <- <-. split_and!; [done..|]. intros Hgt%Z.gtb_lt.
    assert (Hp : part_ok p) by done.
    unfold part_ok, get_split in *. rewrite Hk in *. simpl in *. rewrite Z.div_1_r.
    set (n := my_divisor p) in *. pose proof (Z.div_mod n 2 ltac:(lia)).
    pose proof (Z.mod_pos_bound n 2 ltac:(lia)).
    split; [unfold proportion_ok; lia|]. unfold split_partition. rewrite Hk.
    rewrite (proportional_do_split_spec (n / 2) p) by (unfold part_ok; rewrite ?Hk; simpl; auto; lia).
    intros E. injection E as <- <-. simpl. rewrite Hk. simpl.
    pose proof (head_ok (my_head p) (n - n / 2 * 1) (my_max_affinity p) ltac:(lia)).
    fold n. split_and!; first [done|lia].
  - injection E as <- <-. split_and!; [done..|]. intros Hgt%Z.gtb_lt.
    assert (Hp : part_ok p) by done.
    unfold part_ok, get_split in *. rewrite Hk in *. simpl in *.
    set (n := my_divisor p / 16) in *. destruct Hok as (Hd & Hh & Hm). specialize (Hm ltac:(lia)).
    pose proof (Z.div_mod (my_divisor p) 16 ltac:(lia)) as En. rewrite Hm in En. fold n in En.
    pose proof (Z.div_mod n 2 ltac:(lia)). pose proof (Z.mod_pos_bound n 2 ltac:(lia)).
    split; [unfold proportion_ok; lia|]. unfold split_partition. rewrite Hk.
    rewrite (proportional_do_split_spec (n / 2) p) by (unfold part_ok; rewrite ?Hk; simpl; auto; lia).
    intros E. injection E as <- <-. simpl. rewrite Hk. simpl.
    pose proof (head_ok (my_head p) (my_divisor p - n / 2 * 16) (my_max_affinity p) ltac:(lia)).
    split_and!; first [done|lia].
Qed.

(** Splitting in the pool loop, where the divisor is down to one slot. *)
Definition pool_ok (p : partition) : Prop := part_ok p ∧ (my_kind p = Affinity → my_divisor p ≤ 16).

Lemma pool_split_ok p a child d :
  pool_ok p → split_partition Split p = (a, child) → pool_ok a ∧ pool_ok (align_depth d child).
Proof.
  intros [Hok Hd] E. unfold pool_ok, part_ok, split_partition, adaptive_do_split in *.
  destruct (my_kind p) eqn:Hk; simplify_eq/=; rewrite ?Hk in *; simpl in *; try done;
    (assert (0 < my_max_affinity p) by lia);
    pose proof (head_ok (my_head p) (my_divisor p / 2) (my_max_affinity p) ltac:(lia));
    pose proof (Z.div_mod (my_divisor p) 2 ltac:(lia));
    pose proof (Z.mod_pos_bound (my_divisor p) 2 ltac:(lia)); split_and!; try done; try lia.
Qed.

Lemma demand_ok peer p p' b : pool_ok p → check_for_demand peer p = (p', b) → pool_ok p'.
Proof.
  intros [Hok Hd] E. unfold pool_ok, part_ok, check_for_demand in *.
  destruct (my_kind p) eqn:Hk; repeat case_match; simplify_eq/=; rewrite ?Hk in *; try done;
    simpl in *; split_and!; try done; lia.
Qed.

Lemma stolen_ok c p p' b :
  part_ok p → check_being_stolen c p = (p', b) → part_ok p' ∧ my_kind p' = my_kind p.
Proof.
  intros Hok E. unfold part_ok, check_being_stolen in *.
  destruct (my_kind p) eqn:Hk; repeat case_match; simplify_eq/=; rewrite ?Hk in *; try done;
    simpl in *; split_and!; try done; lia.
Qed.
End Partition.

(** ** The loops *)
Module Execute.
Import RangeVector Partition.
Section execute.
Context {R : Type} `{RangeOps R}.

(** What a task does, in order: [Body r] applies the body to a range, [Offer r
    p] spawns a right child with that range and partition. *)
Inductive event :=
  | Body (r : R)
  | Offer (r : R) (p : partition).

(** What a task observes of the others in an iteration of the pool loop. *)
Record answer := Answer {
  peer_stolen : bool;
  cancelled : bool;
}.
Definition next (o : list answer) : answer * list answer :=
  match o with
  | [] => (Answer false false, [])
  | a :: o => (a, o)
  end.

(** [partition_type_base::execute] up to the work balance: split while the
    range and the partition are divisible. *)
Fixpoint spread (fuel : nat) (r : R) (p : partition) : option (R * partition * list event) :=
  match fuel with
  | O => None
  | S fuel =>
      if Ranges.is_divisible r then
        let '(b, p) := divisible p in
        if b then
          let split_obj := get_split p in
          let '(r, r') := split_range split_obj r in
          let '(p, p') := split_partition split_obj p in
          '(r, p, evs) ← spread fuel r p;
          Some (r, p, Offer r' p' :: evs)
        else Some (r, p, [])
      else Some (r, p, [])
  end.

(** The body of the loop of [dynamic_grainsize_mode::work_balance] after
    [split_to_fill]; [continue] is the condition of the loop and the rest. *)
Definition iteration (continue : range_vector R → partition → option (list event))
  (a : answer) (v : range_vector R) (p : partition) : option (list event) :=
  let '(p, demand) := check_for_demand (peer_stolen a) p in
  let run_back :=
    r ← back v;
    v ← RangeVector.pop_back v;
    evs ← continue v p;
    Some (Body r :: evs) in
  if demand then
    if 1 <? my_size v then
      let '(p, child) := split_partition Split p in
      r ← front v;
      d ← front_depth v;
      v ← pop_front v;
      evs ← continue v p;
      Some (Offer r (align_depth d child) :: evs)
    else
      b ← RangeVector.is_divisible (my_max_depth p) v;
      if b : bool then continue v p else run_back
  else run_back.

Fixpoint pool_loop (fuel : nat) (v : range_vector R) (p : partition) (o : list answer)
  : option (list event) :=
  match fuel with
  | O => None
  | S fuel =>
      v ← split_to_fill (my_max_depth p) v;
      let '(a, o) := next o in
      iteration (λ v p,
        if (my_size v =? 0) || cancelled a then Some [] else pool_loop fuel v p o) a v p
  end.

Definition work_balance (fuel : nat) (r : R) (p : partition) (o : list answer)
  : option (list event) :=
  match my_kind p with
  | Simple | Static => Some [Body r]
  | Auto | Affinity =>
      if negb (Ranges.is_divisible r) || (my_max_depth p =? 0) then Some [Body r]
      else pool_loop fuel (init r) p o
  end.

(** [simple_partition_type::execute] *)
Fixpoint simple_execute (fuel : nat) (r : R) (p : partition) : option (list event) :=
  match fuel with
  | O => None
  | S fuel =>
      if Ranges.is_divisible r then
        let '(r, r') := split_range Split r in
        let '(p, p') := split_partition Split p in
        evs ← simple_execute fuel r p;
        Some (Offer r' p' :: evs)
      else Some [Body r]
  end.

Definition execute (fuel : nat) (r : R) (p : partition) (o : list answer) : option (list event) :=
  match my_kind p with
  | Simple => simple_execute fuel r p
  | _ =>
      '(r, p, evs) ← spread fuel r p;
      evs' ← work_balance fuel r p o;
      Some (evs ++ evs')
  end.

(** The ranges given to the body, and those of the children, oldest first. *)
Definition bodies (evs : list event) : list R :=
  omap (λ e, match e with Body r => Some r | Offer _ _ => None end) evs.
Definition offers (evs : list event) : list (R * partition) :=
  omap (λ e, match e with Offer r p => Some (r, p) | Body _ => None end) evs.

(** The pieces of the range from left to right: a task works from the left and
    gives away from the right. *)
Definition pieces (evs : list event) : list R := bodies evs ++ reverse (fst <$> offers evs).

(** One piece of a list of ranges is split in place. *)
Inductive split_step : list R → list R → Prop :=
  | Split_step xs ys s r l r' :
      proportion_ok s → Ranges.is_divisible r = true → split_range s r = (l, r') →
      split_step (xs ++ r :: ys) (xs ++ l :: r' :: ys).
Definition splits : list R → list R → Prop := rtc split_step.

Lemma splits_app xs xs' ys ys' : splits xs xs' → splits ys ys' → splits (xs ++ ys) (xs' ++ ys').
Proof.
  intros Hx Hy. transitivity (xs' ++ ys).
  - induction Hx as [|? ? ? [a b s r l r' ? ? ?] _ IH]; [done|].
    eapply rtc_l; [|exact IH]. rewrite <- !app_assoc. by eapply (Split_step a (b ++ ys)).
  - induction Hy as [|? ? ? [a b s r l r' ? ? ?] _ IH]; [done|].
    eapply rtc_l; [|exact IH]. rewrite !app_assoc. by econstructor.
Qed.

Lemma splits_one s r l r' xs ys :
  proportion_ok s → Ranges.is_divisible r = true → split_range s r = (l, r') →
  splits [l] xs → splits [r'] ys → splits [r] (xs ++ ys).
Proof.
  intros Hs Hd E Hl Hr. eapply rtc_l; [by eapply (Split_step [] [])|]. simpl.
  by apply (splits_app [l] xs [r'] ys).
Qed.

(** *** More fuel does not change a result *)
Lemma spread_fuel fuel fuel' r p res :
  spread fuel r p = Some res → fuel ≤ fuel' → spread fuel' r p = Some res.
Proof.
  revert fuel' r p res. induction fuel as [|fuel IH]; intros [|fuel'] r p res E Hle; try done; [lia|].
  cbn [spread] in *. destruct (Ranges.is_divisible r); [|done].
  destruct (divisible p) as [[] p1]; [|done]. destruct (split_range _ r) as [rl rr].
  destruct (split_partition _ p1) as [p2 child].
  apply bind_Some in E as ([[rf pf] evs] & Es & E).
  rewrite (IH fuel' _ _ _ Es) by lia. done.
Qed.

Lemma simple_execute_fuel fuel fuel' r p res :
  simple_execute fuel r p = Some res → fuel ≤ fuel' → simple_execute fuel' r p = Some res.
Proof.
  revert fuel' r p res. induction fuel as [|fuel IH]; intros [|fuel'] r p res E Hle; try done; [lia|].
  cbn [simple_execute] in *. destruct (Ranges.is_divisible r); [|done].
  destruct (split_range _ r) as [rl rr]. destruct (split_partition _ p) as [p2 child].
  apply bind_Some in E as (evs & Es & E). rewrite (IH fuel' _ _ _ Es) by lia. done.
Qed.

Lemma iteration_mono c c' a v p res :
  (∀ v p res, c v p = Some res → c' v p = Some res) →
  iteration c a v p = Some res → iteration c' a v p = Some res.
Proof.
  intros Hc. unfold iteration. destruct (check_for_demand _ p) as [p1 demand].
  assert (Hb : (r ← back v; v ← RangeVector.pop_back v; evs ← c v p1; Some (Body r :: evs)) = Some res →
    (r ← back v; v ← RangeVector.pop_back v; evs ← c' v p1; Some (Body r :: evs)) = Some res).
  { intros (r & -> & (v2 & Ev & (evs & Ec & E)%bind_Some)%bind_Some)%bind_Some. opt_simpl.
    rewrite Ev. opt_simpl. rewrite (Hc _ _ _ Ec). done. }
  destruct demand; [|done]. destruct (1 <? my_size v).
  - destruct (split_partition Split p1) as [p2 child].
    intros (r & -> & (d & -> & (v2 & -> & (evs & Ec & E)%bind_Some)%bind_Some)%bind_Some)%bind_Some.
    opt_simpl. rewrite (Hc _ _ _ Ec). done.
  - destruct (RangeVector.is_divisible _ v) as [[]|]; opt_simpl; auto.
Qed.

Lemma pool_loop_fuel fuel fuel' v p o res :
  pool_loop fuel v p o = Some res → fuel ≤ fuel' → pool_loop fuel' v p o = Some res.
Proof.
  revert fuel' v p o res. induction fuel as [|fuel IH]; intros [|fuel'] v p o res E Hle; try done; [lia|].
  cbn [pool_loop] in *. destruct (split_to_fill _ v) as [v1|]; [|done]. cbn [mbind option_bind] in *.
  destruct (next o) as [a o']. revert E. apply iteration_mono. intros v' p' evs.
  case_match; [done|]. intros Ep. apply IH; [done|lia].
Qed.

Lemma execute_fuel fuel fuel' r p o res :
  execute fuel r p o = Some res → fuel ≤ fuel' → execute fuel' r p o = Some res.
Proof.
  intros E Hle. unfold execute in *.
  destruct (my_kind p); [by apply simple_execute_fuel with fuel|..];
    apply bind_Some in E as ([[r1 p1] evs] & Es & (evs' & Ew & E)%bind_Some);
    rewrite (spread_fuel _ fuel' _ _ _ Es) by done; opt_simpl;
    (assert (work_balance fuel' r1 p1 o = Some evs') as ->; [|done]);
    unfold work_balance in *; destruct (my_kind p1); try done; case_match; try done;
    by apply pool_loop_fuel with fuel.
Qed.

(** *** Partitions are of one kind and share the affinity array *)
Definition inherits (p p' : partition) : Prop :=
  my_kind p' = my_kind p ∧ my_max_affinity p' = my_max_affinity p.
Definition all_inherit (p : partition) (evs : list event) : Prop :=
  Forall (λ x, inherits p x.2) (offers evs).

Lemma inherits_trans p1 p2 p3 : inherits p1 p2 → inherits p2 p3 → inherits p1 p3.
Proof. unfold inherits. intuition congruence. Qed.

Lemma all_inherit_trans p1 p2 evs : inherits p1 p2 → all_inherit p2 evs → all_inherit p1 evs.
Proof.
  intros Hp He. eapply Forall_impl; [exact He|]. intros x Hx. by apply inherits_trans with p2.
Qed.

Lemma divisible_inherits p b p1 : divisible p = (b, p1) → inherits p p1.
Proof. unfold divisible. intros. repeat case_match; by simplify_eq/=. Qed.

Lemma split_inherits s p a b : split_partition s p = (a, b) → inherits p a ∧ inherits p b.
Proof.
  unfold split_partition, proportional_do_split, adaptive_do_split, inherits.
  intros. destruct (my_kind p) eqn:Hk; repeat case_match; by simplify_eq/=.
Qed.

Lemma demand_inherits peer p p1 b : check_for_demand peer p = (p1, b) → inherits p p1.
Proof. unfold check_for_demand, inherits. intros. repeat case_match; by simplify_eq/=. Qed.

Lemma spread_inherits fuel r p r' p' evs :
  spread fuel r p = Some (r', p', evs) → inherits p p' ∧ all_inherit p evs.
Proof.
  revert r p evs. induction fuel as [|fuel IH]; intros r p evs E; [done|]. cbn [spread] in E.
  destruct (Ranges.is_divisible r); [|simplify_eq; split; [done|by constructor]].
  destruct (divisible p) as [[] p1] eqn:Ed; pose proof (divisible_inherits _ _ _ Ed) as H1;
    [|simplify_eq; split; [done|by constructor]].
  destruct (split_range _ r) as [rl rr]. destruct (split_partition _ p1) as [p2 child] eqn:Es.
  apply split_inherits in Es as [H2 H3]. pose proof (inherits_trans _ _ _ H1 H2) as H12.
  destruct (spread fuel rl p2) as [[[rf pf] evs0]|] eqn:Er; [|done]. simplify_eq/=.
  apply IH in Er as [H4 H5]. split; [by apply inherits_trans with p2|].
  constructor; [by apply inherits_trans with p1|by apply all_inherit_trans with p2].
Qed.

Lemma pool_loop_inherits fuel v p o evs : pool_loop fuel v p o = Some evs → all_inherit p evs.
Proof.
  revert v p o evs. induction fuel as [|fuel IH]; intros v p o evs E; [done|]. cbn [pool_loop] in E.
  destruct (split_to_fill _ v) as [v1|]; [|done]. cbn [mbind option_bind] in E.
  destruct (next o) as [a o']. unfold iteration in E.
  destruct (check_for_demand _ p) as [p1 demand] eqn:Ed. apply demand_inherits in Ed.
  assert (Hc : ∀ v p2 evs, (if (my_size v =? 0) || cancelled a then Some [] else
      pool_loop fuel v p2 o') = Some evs → inherits p1 p2 → all_inherit p evs).
  { intros v' p2 evs' Hc Hp. apply all_inherit_trans with p1; [done|].
    apply all_inherit_trans with p2; [done|]. case_match; simplify_eq; [by constructor|eauto]. }
  assert (Hb : (r ← back v1; v ← RangeVector.pop_back v1;
      evs ← (if (my_size v =? 0) || cancelled a then Some [] else pool_loop fuel v p1 o');
      Some (Body r :: evs)) = Some evs → all_inherit p evs).
  { intros (? & _ & (v2 & _ & (evs0 & E0 & Hb)%bind_Some)%bind_Some)%bind_Some. simplify_eq.
    by eapply (Hc v2 p1 evs0). }
  destruct demand; [|by apply Hb]. destruct (1 <? my_size v1).
  - destruct (split_partition Split p1) as [p2 child] eqn:Es. apply split_inherits in Es as [H2 H3].
    apply bind_Some in E
      as (? & _ & (? & _ & (v2 & _ & (evs0 & E0 & E)%bind_Some)%bind_Some)%bind_Some).
    simplify_eq. constructor; [by apply inherits_trans with p1|by eapply (Hc v2 p2 evs0)].
  - destruct (RangeVector.is_divisible _ v1) as [[]|]; simpl in E; [by eapply Hc|by apply Hb|done].
Qed.

Lemma execute_inherits fuel r p o evs : execute fuel r p o = Some evs → all_inherit p evs.
Proof.
  intros E. destruct (decide (my_kind p = Simple)) as [Hk|Hk].
  - unfold execute in E. rewrite Hk in E. revert r evs E.
    induction fuel as [|fuel IH]; intros r evs E; [done|]. cbn [simple_execute] in E.
    destruct (Ranges.is_divisible r); [|simplify_eq; by constructor].
    destruct (split_range Split r) as [l r']. unfold split_partition in E. rewrite Hk in E.
    destruct (simple_execute fuel l p) eqn:Es; [|done]. simplify_eq/=. constructor; [done|by eapply IH].
  - assert (Hex : execute fuel r p o = ('(r, p, evs) ← spread fuel r p;
      evs' ← work_balance fuel r p o; Some (evs ++ evs'))) by (unfold execute; by destruct (my_kind p)).
    rewrite Hex in E. destruct (spread fuel r p) as [[[r' p'] evs1]|] eqn:Es; [|done]. simpl in E.
    destruct (work_balance fuel r' p' o) as [evs2|] eqn:Ew; [|done]. simplify_eq/=.
    apply spread_inherits in Es as [H1 H2]. unfold all_inherit, offers. rewrite omap_app.
    apply Forall_app. split; [done|]. apply all_inherit_trans with p'; [done|].
    unfold work_balance in Ew.
    destruct (my_kind p'); repeat case_match; simplify_eq;
      first [by constructor | by eapply pool_loop_inherits].
Qed.

(** *** The last thing that a task does is to run the body *)
Definition ends_body (evs : list event) : Prop := ∃ evs' r, evs = evs' ++ [Body r].
Definition not_cancelled (o : list answer) : Prop := Forall (λ a, cancelled a = false) o.

Lemma ends_body_cons e evs : ends_body evs → ends_body (e :: evs).
Proof. intros (evs' & r & ->). by exists (e :: evs'), r. Qed.

Lemma split_to_fill_size max_depth (v v' : range_vector R) : split_to_fill max_depth v = Some v' → my_size v ≤ my_size v'.
Proof.
  unfold split_to_fill. generalize (S MaxCapacity). intros fuel. revert v.
  induction fuel as [|fuel IH]; intros v E; [done|]. cbn [split_to_fill_loop] in E.
  destruct (my_size v <? MaxCapacity); [|by simplify_eq].
  apply bind_Some in E as (b & _ & E). destruct b; [|by simplify_eq].
  apply bind_Some in E as (v1 & E1 & E). apply IH in E. unfold split_back in E1.
  apply bind_Some in E1 as (whole & _ & E1). destruct (split_range Split whole).
  apply bind_Some in E1 as (? & _ & (? & _ & (? & _ & (? & _ & (? & _ & [= <-])%bind_Some)%bind_Some)%bind_Some)%bind_Some).
  simpl in E. lia.
Qed.

Lemma pop_front_size (v v' : range_vector R) : pop_front v = Some v' → my_size v' = my_size v - 1.
Proof. by intros (? & _ & (? & _ & [= <-])%bind_Some)%bind_Some. Qed.

Lemma pool_loop_ends fuel v p o evs :
  pool_loop fuel v p o = Some evs → my_size v ≠ 0 → not_cancelled o → ends_body evs.
Proof.
  revert v p o evs. induction fuel as [|fuel IH]; intros v p o evs E Hs Ho; [done|]. cbn [pool_loop] in E.
  apply bind_Some in E as (v1 & Hf%split_to_fill_size & E). destruct (next o) as [a o'] eqn:En.
  assert (Ha : cancelled a = false ∧ not_cancelled o').
  { destruct o as [|a0 o0]; simplify_eq/=; [by split; constructor|]. by apply Forall_cons in Ho. }
  destruct Ha as [Ha Ho']. unfold iteration in E. destruct (check_for_demand _ p) as [p1 demand].
  assert (Hc : ∀ v p2 evs, (if (my_size v =? 0) || cancelled a then Some [] else pool_loop fuel v p2 o') = Some evs →
    evs = [] ∧ my_size v = 0 ∨ ends_body evs).
  { intros v' p2 evs' Hc. rewrite Ha, orb_false_r in Hc. destruct (Nat.eqb_spec (my_size v') 0); [left; by simplify_eq|right; by eapply IH]. }
  assert (Hb : (r ← back v1; v ← RangeVector.pop_back v1;
      evs ← (if (my_size v =? 0) || cancelled a then Some [] else pool_loop fuel v p1 o');
      Some (Body r :: evs)) = Some evs → ends_body evs).
  { intros (r & _ & (v2 & _ & (evs0 & E0 & [= <-])%bind_Some)%bind_Some)%bind_Some.
    apply Hc in E0 as [[-> _]|E0]; [by exists [], r|by apply ends_body_cons]. }
  destruct demand; [|by apply Hb]. destruct (Nat.ltb_spec 1 (my_size v1)).
  - destruct (split_partition Split p1) as [p2 child].
    apply bind_Some in E as (? & _ & (? & _ & (v2 & E2%pop_front_size & (evs0 & E0 & [= <-])%bind_Some)%bind_Some)%bind_Some).
    apply Hc in E0 as [[_ ?]|E0]; [lia|by apply ends_body_cons].
  - apply bind_Some in E as (b & _ & E). destruct b; [|by apply Hb]. apply Hc in E as [[_ ?]|E]; [lia|done].
Qed.

Lemma execute_ends fuel r p o evs : execute fuel r p o = Some evs → not_cancelled o → ends_body evs.
Proof.
  intros E Ho. destruct (decide (my_kind p = Simple)) as [Hk|Hk].
  - unfold execute in E. rewrite Hk in E. revert r p evs E Hk.
    induction fuel as [|fuel IH]; intros r p evs E Hk; [done|]. cbn [simple_execute] in E.
    destruct (Ranges.is_divisible r); [|injection E as <-; by exists [], r].
    destruct (split_range Split r) as [l r']. unfold split_partition in E. rewrite Hk in E.
    apply bind_Some in E as (evs0 & Es & [= <-]). eapply ends_body_cons, IH; done.
  - assert (Hex : execute fuel r p o = ('(r, p, evs) ← spread fuel r p;
      evs' ← work_balance fuel r p o; Some (evs ++ evs'))) by (unfold execute; by destruct (my_kind p)).
    rewrite Hex in E. apply bind_Some in E as ([[r' p'] evs1] & _ & (evs2 & Ew & [= <-])%bind_Some).
    assert (Hw : ends_body evs2).
    { unfold work_balance in Ew. destruct (my_kind p'); try (injection Ew as <-; by exists [], r');
        (destruct (_ || _); [injection Ew as <-; by exists [], r'|by eapply pool_loop_ends]). }
    destruct Hw as (evs' & x & ->). exists (evs1 ++ evs'), x. by rewrite app_assoc.
Qed.
End execute.

(** *** What a task does with its range *)
Section laws.
Context {R E : Type} `{RangeLaws R E}.
Implicit Types (r : R) (q : list (R * nat)) (evs : list (event (R := R))).

Lemma splits_elems (xs ys : list R) :
  splits xs ys → Forall valid xs →
  Forall valid ys ∧ xs ≫= elems ≡ₚ ys ≫= elems.
Proof.
  induction 1 as [|? ? ? [a b s r l r' Hs Hd Hsp] _ IH]; [done|]. intros Hv.
  apply Forall_app in Hv as [Ha [Hr Hb]%Forall_cons].
  destruct (split_valid s r l r' Hs Hr Hd Hsp) as (Hl & Hr' & Hp).
  destruct IH as [? IH]; [apply Forall_app; auto|]. split; [done|].
  rewrite <- IH, !bind_app, !bind_cons, Hp. by rewrite <- app_assoc.
Qed.

Lemma elems_length r : valid r → 0 < length (elems r).
Proof. intros Hr. apply valid_nonempty in Hr. destruct (elems r); [done|simpl; lia]. Qed.

(** A range that is split twice as often as it has elements is used up. *)
Definition weight (q : list (R * nat)) : nat :=
  sum_list ((λ x, 2 * length (elems x.1) - 1) <$> q).

Lemma weight_app q q' : weight (q ++ q') = weight q + weight q'.
Proof. unfold weight. by rewrite fmap_app, sum_list_with_app. Qed.

Lemma split_last_spec q max_depth q' :
  split_last q max_depth = Some q' → Forall (λ x, valid x.1) q →
  q' ≠ [] ∧ Forall (λ x, valid x.1) q' ∧ weight q' < weight q ∧
  splits (reverse (fst <$> q)) (reverse (fst <$> q')).
Proof.
  intros Hs Hv. destruct q as [|[r d] q _] using rev_ind; [done|].
  rewrite split_last_snoc in Hs. case_match eqn:Hc; [|done].
  apply andb_prop in Hc as [_ Hd]. destruct (split_range Split r) as [l r'] eqn:Esp.
  simplify_eq. apply Forall_app in Hv as [Hq [Hr _]%Forall_cons].
  destruct (split_valid Split r l r' I Hr Hd Esp) as (Hl & Hr' & Hp).
  split_and!; [by destruct q|apply Forall_app; auto| |].
  - rewrite !weight_app. unfold weight. simpl.
    pose proof (elems_length _ Hl). pose proof (elems_length _ Hr').
    apply Permutation_length in Hp. rewrite length_app in Hp. lia.
  - rewrite !fmap_app, !reverse_app. simpl.
    eapply rtc_once, (Split_step [] _ Split); done.
Qed.

Lemma fill_spec fuel max_depth q :
  q ≠ [] → Forall (λ x, valid x.1) q →
  let q' := fill fuel max_depth q in
  q' ≠ [] ∧ Forall (λ x, valid x.1) q' ∧ weight q' ≤ weight q ∧
  (is_Some (split_last q max_depth) → fuel ≠ 0 → weight q' < weight q) ∧
  splits (reverse (fst <$> q)) (reverse (fst <$> q')).
Proof.
  revert q. induction fuel as [|fuel IH]; intros q Hne Hv; simpl; [by split_and!|].
  destruct (split_last q max_depth) as [q'|] eqn:Es; [|split_and!; [done..|by intros []|done]].
  destruct (split_last_spec _ _ _ Es Hv) as (Hne' & Hv' & Hw & Hsp).
  destruct (IH q' Hne' Hv') as (H1 & H2 & H3 & _ & H5).
  split_and!; [done..|lia|lia|]. by transitivity (reverse (fst <$> q')).
Qed.

(** The outcome of running a list of ranges from left to right: what the body
    got, what is left after a cancellation, what was given away. *)
Definition outcome (xs rest : list R) evs : Prop :=
  splits xs (bodies evs ++ rest ++ reverse (fst <$> offers evs)) ∧
  Forall (λ x, part_ok x.2) (offers evs).

Lemma outcome_body r xs rest evs : outcome xs rest evs → outcome (r :: xs) rest (Body r :: evs).
Proof. intros [H1 H2]. split; [|done]. by apply (splits_app [r] [r]). Qed.

Lemma outcome_offer r p xs rest evs :
  part_ok p → outcome xs rest evs → outcome (xs ++ [r]) rest (Offer r p :: evs).
Proof.
  intros Hp [H1 H2]. split; [|by constructor].
  cbn [offers omap list_omap fmap list_fmap fst]. fold (offers evs). rewrite reverse_cons, !app_assoc.
  rewrite <- (app_assoc (bodies _)). by apply splits_app.
Qed.

Lemma outcome_splits xs ys rest evs : splits xs ys → outcome ys rest evs → outcome xs rest evs.
Proof. intros Hs [H1 H2]. split; [by transitivity ys|done]. Qed.

Definition loop_measure (q : list (R * nat)) (p : partition) : nat :=
  2 * weight q + (if split_last q (my_max_depth p) is Some _ then 0 else 1).

(** What the pool loop promises for a deque [q]. *)
Definition loop_ok (o : list answer) (q : list (R * nat)) (res : option (list event)) : Prop :=
  ∃ evs rest, res = Some evs ∧ outcome (reverse (fst <$> q)) rest evs ∧
    (q ≠ [] → bodies evs ++ rest ≠ []) ∧ (not_cancelled o → rest = []).

Lemma continue_ok fuel a o v q p :
  models v q → (q ≠ [] → loop_ok o q (pool_loop fuel v p o)) →
  loop_ok (a :: o) q (if (my_size v =? 0) || cancelled a then Some [] else pool_loop fuel v p o).
Proof.
  intros Hm Hrec. pose proof Hm as (_ & _ & _ & Hs & _). rewrite Hs. destruct q as [|x q].
  { exists [], []. split_and!; [done|by split|done|done]. }
  destruct (cancelled a) eqn:Ea.
  - exists [], (reverse (fst <$> x :: q)). rewrite orb_true_r. split_and!; [done| | |].
    + split; [|done]. by rewrite app_nil_r.
    + intros _. cbn [bodies omap list_omap app]. rewrite fmap_cons, reverse_cons.
      by destruct (reverse (fst <$> q)).
    + intros [? _]%Forall_cons. congruence.
  - destruct Hrec as (evs & rest & -> & Ho & Hb & Hc); [done|]. exists evs, rest.
    split_and!; [done..|]. intros [_ Hno]%Forall_cons. auto.
Qed.

Lemma next_cancelled o a o' : next o = (a, o') → not_cancelled o → not_cancelled (a :: o').
Proof. destruct o; intros; simplify_eq/=; [by repeat constructor|done]. Qed.

Lemma weight_pos x q : valid x.1 → 0 < weight (x :: q).
Proof. intros Hx%elems_length. unfold weight. simpl. lia. Qed.

Lemma run_back_ok (cont : range_vector R → option (list event)) o v q r d :
  models v (q ++ [(r, d)]) → (∀ v', models v' q → loop_ok o q (cont v')) →
  loop_ok o (q ++ [(r, d)])
    (r ← back v; v ← RangeVector.pop_back v; evs ← cont v; Some (Body r :: evs)).
Proof.
  intros Hm Hc. destruct (models_back _ _ _ _ Hm) as [-> _]. opt_simpl.
  destruct (pop_back_models _ _ _ _ Hm) as (v' & -> & Hm'). opt_simpl.
  destruct (Hc v' Hm') as (evs & rest & -> & Ho & Hn). opt_simpl.
  exists (Body r :: evs), rest. split_and!; [done| |done|apply Hn].
  rewrite fmap_app, reverse_app. by apply outcome_body.
Qed.

Lemma offer_front_ok (cont : range_vector R → option (list event)) o v q r d child :
  models v ((r, d) :: q) → q ≠ [] → (∀ d, part_ok (align_depth d child)) →
  (∀ v', models v' q → loop_ok o q (cont v')) →
  loop_ok o ((r, d) :: q)
    (r ← front v; d ← front_depth v; v ← pop_front v; evs ← cont v;
     Some (Offer r (align_depth d child) :: evs)).
Proof.
  intros Hm Hne Hch Hc. destruct (models_front _ _ _ _ Hm) as [-> ->]. opt_simpl.
  destruct (pop_front_models _ _ _ _ Hm) as (v' & -> & Hm'). opt_simpl.
  destruct (Hc v' Hm') as (evs & rest & -> & Ho & Hn). opt_simpl.
  exists (Offer r (align_depth d child) :: evs), rest. split_and!; [done| | |apply Hn].
  - rewrite fmap_cons, reverse_cons. by apply outcome_offer.
  - intros _. by apply Hn.
Qed.

Lemma loop_measure_lt q p : loop_measure q p ≤ 2 * weight q + 1.
Proof. unfold loop_measure. case_match; lia. Qed.

Lemma loop_ok_fill q q1 o a o' res :
  splits (reverse (fst <$> q)) (reverse (fst <$> q1)) → q1 ≠ [] → next o = (a, o') →
  loop_ok (a :: o') q1 res → loop_ok o q res.
Proof.
  intros Hsp Hne Eo (evs & rest & -> & Ho & Hb & Hc). exists evs, rest. split_and!; [done| | |].
  - by apply outcome_splits with (reverse (fst <$> q1)).
  - intros _. by apply Hb.
  - intros Hno. apply Hc. by apply next_cancelled with o.
Qed.

(** One iteration, when what comes after it is all right on a smaller deque,
    and on the same one if its last range is divisible. *)
Lemma iteration_ok continue o a v q p :
  models v q → q ≠ [] → Forall (λ x, valid x.1) q → pool_ok p →
  (∀ v q' p, models v q' → Forall (λ x, valid x.1) q' → pool_ok p →
     weight q' < weight q ∨ (q' = q ∧ is_Some (split_last q (my_max_depth p))) →
     loop_ok o q' (continue v p)) →
  loop_ok o q (iteration continue a v p).
Proof.
  intros Hm Hne Hv Hp Hcont. unfold iteration.
  destruct (check_for_demand (peer_stolen a) p) as [p1 demand] eqn:Ed.
  pose proof (demand_ok _ _ _ _ Hp Ed) as Hp1. clear Ed Hp p.
  destruct (exists_last Hne) as (q0 & [r d] & ->).
  assert (Hr : valid r) by (by apply Forall_app in Hv as [_ [? _]%Forall_cons]).
  assert (Hback : loop_ok o (q0 ++ [(r, d)])
    (r ← back v; v ← RangeVector.pop_back v; evs ← continue v p1; Some (Body r :: evs))).
  { apply (run_back_ok (λ v, continue v p1)); [done|]. intros v' Hm'.
    apply Hcont; try done; [by apply Forall_app in Hv as [? _]|left].
    rewrite weight_app. pose proof (weight_pos (r, d) [] Hr). lia. }
  destruct demand; [|exact Hback].
  pose proof Hm as (_ & _ & _ & Hs & _). rewrite Hs, length_app. cbn [length].
  destruct (Nat.ltb_spec 1 (length q0 + 1)) as [Hl|Hl].
  - destruct (split_partition Split p1) as [p2 child] eqn:Ep.
    destruct q0 as [|[r0 d0] q0]; [simpl in Hl; lia|].
    pose proof (pool_split_ok _ _ _ 0%nat Hp1 Ep) as [Hp2 _].
    simpl app in *. apply Forall_cons in Hv as [Hr0 Hv].
    apply (offer_front_ok (λ v, continue v p2)); try done; [by destruct q0| |].
    { intros d'. by destruct (pool_split_ok _ _ _ d' Hp1 Ep) as [_ [? _]]. }
    intros v' Hm'. apply Hcont; try done. left.
    change (_ :: q0 ++ _) with ([(r0, d0)] ++ (q0 ++ [(r, d)])). rewrite (weight_app [_]).
    pose proof (weight_pos (r0, d0) [] Hr0). lia.
  - destruct q0 as [|? q0]; [|simpl in Hl; lia]. rewrite (is_divisible_models _ _ _ _ _ Hm).
    opt_simpl. destruct (_ && _) eqn:Ediv; [|exact Hback].
    apply Hcont; try done. right. split; [done|].
    rewrite split_last_snoc. apply andb_prop in Ediv as [E1 E2]. rewrite E1, E2. simpl.
    destruct (split_range Split r). eauto.
Qed.

Lemma pool_loop_spec fuel v q p o :
  models v q → q ≠ [] → Forall (λ x, valid x.1) q → pool_ok p → loop_measure q p < fuel →
  loop_ok o q (pool_loop fuel v p o).
Proof.
  revert v q p o. induction fuel as [|fuel IH]; intros v q p o Hm Hne Hv Hp Hf; [lia|].
  cbn [pool_loop].
  destruct (split_to_fill_models (my_max_depth p) v q Hm Hne) as (v1 & -> & Hm1). opt_simpl.
  destruct (fill_spec (S MaxCapacity) (my_max_depth p) q Hne Hv) as (Hne1 & Hv1 & Hw & Hw' & Hsp).
  set (q1 := fill _ _ q) in *.
  destruct (next o) as [a o'] eqn:Eo. apply (loop_ok_fill q q1 o a o'); [done..|].
  assert (Hlt : 2 * weight q1 < fuel).
  { unfold loop_measure in Hf. case_match; [|lia].
    assert (weight q1 < weight q) by (apply Hw'; [done|lia]). lia. }
  apply iteration_ok; try done. intros v2 q2 p2 Hm2 Hv2 Hp2 Hdec.
  apply continue_ok; [done|]. intros Hne2. apply IH; try done.
  pose proof (loop_measure_lt q2 p2). destruct Hdec as [?|[-> [x Hx]]]; [lia|].
  unfold loop_measure. rewrite Hx. lia.
Qed.

Lemma split_lengths s r l r' :
  proportion_ok s → valid r → Ranges.is_divisible r = true → split_range s r = (l, r') →
  length (elems l) < length (elems r).
Proof.
  intros Hs Hr Hd Esp. destruct (split_valid s r l r' Hs Hr Hd Esp) as (Hl & Hr' & Hp).
  apply Permutation_length in Hp. rewrite length_app in Hp.
  pose proof (elems_length r' Hr'). lia.
Qed.

Lemma divisible_stop p p1 : divisible p = (false, p1) → part_ok p → pool_ok p1.
Proof.
  intros Ep Hp. unfold divisible, pool_ok, part_ok in *.
  destruct (my_kind p) eqn:Hk; repeat case_match; simplify_eq/=; rewrite ?Hk in *; try done.
  split; [done|]. intros _.
  match goal with Hg : (_ >? _)%Z = false |- _ => by rewrite Z.gtb_ltb, Z.ltb_ge in Hg end.
Qed.

Lemma spread_spec fuel r p :
  valid r → part_ok p → length (elems r) ≤ fuel →
  ∃ r' p' evs, spread fuel r p = Some (r', p', evs) ∧ bodies evs = [] ∧
    splits [r] (r' :: reverse (fst <$> offers evs)) ∧ valid r' ∧
    length (elems r') ≤ length (elems r) ∧
    Forall (λ x, part_ok x.2) (offers evs) ∧ part_ok p' ∧ my_kind p' = my_kind p ∧
    (Ranges.is_divisible r' = true → pool_ok p').
Proof.
  revert r p. induction fuel as [|fuel IH]; intros r p Hr Hp Hf; [pose proof (elems_length r Hr); lia|].
  cbn [spread]. destruct (Ranges.is_divisible r) eqn:Hd.
  2:{ exists r, p, []. split_and!; try done. congruence. }
  destruct (divisible p) as [[] p1] eqn:Ep.
  2:{ destruct (spread_split_ok p false p1 p1 p1 Hp Ep) as (Hp1 & Hk & _).
      exists r, p1, []. split_and!; try done. intros _. by apply divisible_stop with p. }
  destruct (split_range (get_split p1) r) as [l r'] eqn:Esp.
  destruct (split_partition (get_split p1) p1) as [p2 child] eqn:Es.
  destruct (spread_split_ok p true p1 p2 child Hp Ep) as (Hp1 & Hk & Hgo).
  destruct Hgo as [Hs Hgo]; [done|]. destruct (Hgo Es) as (Hp2 & Hch & Hk2 & _).
  destruct (split_valid _ r l r' Hs Hr Hd Esp) as (Hl & Hr' & _).
  pose proof (split_lengths _ r l r' Hs Hr Hd Esp).
  destruct (IH l p2 Hl Hp2) as (rf & pf & evs & -> & Hb & Hsp & Hv & Hle & Hof & Hpf & Hkf & Hpool);
    [lia|]. opt_simpl.
  exists rf, pf, (Offer r' child :: evs). split_and!; try done; try congruence; [|lia|by constructor].
  cbn [offers omap list_omap fmap list_fmap fst]. fold (offers evs).
  rewrite reverse_cons, app_comm_cons. by apply (splits_one (get_split p1) r l r').
Qed.

Lemma simple_execute_spec fuel r p :
  valid r → my_kind p = Simple → length (elems r) ≤ fuel →
  ∃ evs r', simple_execute fuel r p = Some evs ∧ outcome [r] [] evs ∧ bodies evs = [r'] ∧
    Ranges.is_divisible r' = false ∧ Forall (λ x, my_kind x.2 = Simple) (offers evs).
Proof.
  revert r p. induction fuel as [|fuel IH]; intros r p Hr Hp Hf; [pose proof (elems_length r Hr); lia|].
  cbn [simple_execute]. destruct (Ranges.is_divisible r) eqn:Hd.
  2:{ exists [Body r], r. by repeat split. }
  destruct (split_range Split r) as [l r'] eqn:Esp. unfold split_partition. rewrite Hp.
  destruct (split_valid Split r l r' I Hr Hd Esp) as (Hl & Hr' & _).
  pose proof (split_lengths Split r l r' I Hr Hd Esp).
  destruct (IH l p Hl Hp) as (evs & rb & -> & Ho & Hb & Hdiv & Hsimple); [lia|]. opt_simpl.
  exists (Offer r' p :: evs), rb. split_and!; try done; [|by constructor].
  apply outcome_splits with ([l] ++ [r']).
  - by apply rtc_once, (Split_step [] [] Split).
  - apply outcome_offer; [unfold part_ok; by rewrite Hp|done].
Qed.

Lemma work_balance_spec fuel r p o :
  valid r → (Ranges.is_divisible r = true → pool_ok p) → 4 * length (elems r) ≤ fuel →
  ∃ evs rest, work_balance fuel r p o = Some evs ∧ outcome [r] rest evs ∧
    bodies evs ++ rest ≠ [] ∧ (not_cancelled o → rest = []).
Proof.
  intros Hr Hpool Hf. pose proof (elems_length r Hr).
  assert (Hone : ∃ evs rest, Some [Body r] = Some evs ∧ outcome [r] rest evs ∧
    bodies evs ++ rest ≠ [] ∧ (not_cancelled o → rest = [])) by (exists [Body r], []; by repeat split).
  unfold work_balance. destruct (Ranges.is_divisible r) eqn:Hd; [|by destruct (my_kind p)].
  assert (Hloop : loop_ok o [(r, 0)] (pool_loop fuel (init r) p o)).
  { apply pool_loop_spec; [apply init_models|done|by constructor|by apply Hpool|].
    pose proof (loop_measure_lt [(r, 0)] p). unfold weight in *. simpl in *. lia. }
  destruct Hloop as (evs & rest & El & Ho & Hb & Hn).
  destruct (my_kind p); try done; simpl; (case_match; [done|]); exists evs, rest;
    split_and!; auto.
Qed.

(** Every task finishes, with enough fuel; what it gave to the body and to its
    children are pieces of its range, in order, and all of it unless the group
    was cancelled. *)
Lemma execute_spec fuel r p o :
  valid r → part_ok p → 4 * length (elems r) ≤ fuel →
  ∃ evs rest, execute fuel r p o = Some evs ∧ outcome [r] rest evs ∧
    bodies evs ++ rest ≠ [] ∧ (not_cancelled o → rest = []).
Proof.
  intros Hr Hp Hf. pose proof (elems_length r Hr).
  destruct (decide (my_kind p = Simple)) as [Hk|Hk].
  { unfold execute. rewrite Hk.
    destruct (simple_execute_spec fuel r p) as (evs & rb & -> & Ho & Hb & _); [done..|lia|].
    exists evs, []. split_and!; [done..|by rewrite Hb|done]. }
  assert (Hex : execute fuel r p o = ('(r, p, evs) ← spread fuel r p;
      evs' ← work_balance fuel r p o; Some (evs ++ evs'))) by (unfold execute; by destruct (my_kind p)).
  rewrite Hex. clear Hex.
  destruct (spread_spec fuel r p Hr Hp) as (r' & p' & evs & -> & Hb & Hsp & Hv & Hle & Hof & Hp' & Hk' & Hpool);
    [lia|]. opt_simpl.
  destruct (work_balance_spec fuel r' p' o Hv Hpool) as (evs' & rest & -> & [Ho1 Ho2] & Hne & Hn);
    [lia|].
  opt_simpl. exists (evs ++ evs'), rest.
  assert (Hbb : bodies (evs ++ evs') = bodies evs') by (unfold bodies in *; by rewrite omap_app, Hb).
  split_and!; [done| |by rewrite Hbb|done].
  assert (Hoo : offers (evs ++ evs') = offers evs ++ offers evs') by apply omap_app.
  split; [|rewrite Hoo; by apply Forall_app].
  rewrite Hbb, Hoo, fmap_app, reverse_app, !app_assoc.
  transitivity ([r'] ++ reverse (fst <$> offers evs)); [done|].
  apply splits_app; [|done]. by rewrite <- app_assoc.
Qed.

Lemma execute_inv fuel r p o evs :
  valid r → part_ok p → execute fuel r p o = Some evs →
  ∃ rest, outcome [r] rest evs ∧ bodies evs ++ rest ≠ [] ∧ (not_cancelled o → rest = []).
Proof.
  intros Hr Hp Ex.
  destruct (execute_spec (4 * length (elems r)) r p o Hr Hp) as (evs' & rest & Ex' & Ho); [done|].
  pose proof (execute_fuel _ (fuel + 4 * length (elems r)) _ _ _ _ Ex ltac:(lia)) as E1.
  pose proof (execute_fuel _ (fuel + 4 * length (elems r)) _ _ _ _ Ex' ltac:(lia)) as E2.
  rewrite E1 in E2. simplify_eq. by exists rest.
Qed.
End laws.

Lemma splits_elems_ordered `{OrderedRange R E} (xs ys : list R) :
  splits xs ys → Forall valid xs → xs ≫= elems = ys ≫= elems.
Proof.
  induction 1 as [|? ? ? [a b s r l r' Hs Hd Hsp] _ IH]; [done|]. intros Hv.
  apply Forall_app in Hv as [Ha [Hr Hb]%Forall_cons].
  destruct (split_valid s r l r' Hs Hr Hd Hsp) as (Hl & Hr' & _).
  rewrite <- IH by (apply Forall_app; auto).
  by rewrite !bind_app, !bind_cons, (split_ordered s r l r' Hs Hr Hd Hsp), <- app_assoc.
Qed.
Arguments event : clear implicits.
End Execute.

Module PartitionerExamples.
Import Blocked RangeVector Partition.

Definition some_ops : list op := [Fill 5; PopFront; PopBack; Fill 6].

Lemma range_vector_refines_witness :
  ∃ v, run_ops run_op some_ops (init (BlockedRange 100 0 1)) = Some v ∧
       length (my_pool v) = MaxCapacity.
Proof.
  assert (E : run_ops deque_op some_ops [(BlockedRange 100 0 1, 0)] =
    Some [(BlockedRange 50 25 1, 2); (BlockedRange 25 12 1, 3); (BlockedRange 12 6 1, 4);
          (BlockedRange 6 4 1, 6); (BlockedRange 4 3 1, 6)]) by (vm_compute; reflexivity).
  pose proof (range_vector_refines (BlockedRange 100 0 1) some_ops _ E) as (v & Hv & (Hm & _) & _).
  exact (ex_intro _ v (conj Hv Hm)).
Defined.

(** What an affinity partition does with the position of a task when the
    array says that the task last ran in slot 0: it sends the task to the slot
    of its position instead, because 0 is taken for "not yet known"; a new
    array holds [no_slot], for which the task is sent nowhere. *)
Theorem affinity_of_slot_zero (p : partition) (array array' : list Z)
    (Hk : my_kind p = Affinity) (Hd : my_divisor p ≠ 0%Z)
    (Hn : note_affinity 0 p array = Some array') :
  spawn_slot p array' = Some (Some (my_head p / 16)%Z) ∧
  (∀ fresh, Forall (eq no_slot) fresh → Z.to_nat (my_head p) < length fresh →
     spawn_slot p fresh = Some (Some no_slot)).
Proof.
  unfold note_affinity, spawn_slot in *. rewrite Hk in *.
  apply Z.eqb_neq in Hd. rewrite Hd in *. simpl in *. split.
  - unfold write in Hn. case_decide as Hlt; [|done]. injection Hn as <-.
    by rewrite list_lookup_insert_eq.
  - intros fresh Hf Hlt. destruct (lookup_lt_is_Some_2 fresh _ Hlt) as [a Ha].
    rewrite Ha. opt_simpl. rewrite Forall_lookup in Hf. by rewrite <- (Hf _ _ Ha).
Qed.

Lemma affinity_of_slot_zero_witness :
  spawn_slot (Partition Affinity 16 Begin 5 48 64) (<[48 := 0%Z]> (replicate 64 no_slot)) =
  Some (Some 3%Z).
Proof.
  destruct (affinity_of_slot_zero (Partition Affinity 16 Begin 5 48 64) (replicate 64 no_slot)
    (<[48 := 0%Z]> (replicate 64 no_slot)) eq_refl ltac:(done) ltac:(by vm_compute)) as [H _].
  exact H.
Defined.
End PartitionerExamples.
