(* ===== verification/TaskTree.v ===== *)
(** * The tree of tasks and its reference counts

    How a parallel algorithm finds out that all its tasks are finished: every
    split puts a [tree_node] with two references above the two tasks, a task
    that finishes gives up its reference, and whoever gives up the last one
    goes on with the parent; at the root the waiting thread is released.
    Source: [node], [wait_node], [tree_node] and [fold_tree] of
    include/oneapi/tbb/partitioner.h; [offer_work_impl], [finalize] and [run]
    of parallel_for.h (the reductions use the same scheme).

    Nodes live in a heap, so that touching a node after it was freed is an
    error ([None]). *)

From S2P Require Import Prelude.
From stdpp Require Import base numbers relations gmap list.
From Stdlib Require Import ZArith Lia.

Module TaskTree.
Record node := Node {
  my_parent : option nat;
  m_ref_count : Z;
}.

(** [tasks]: the parent of every task that is not finished; [next]: the next
    address; [released]: how often the wait context of the root was released. *)
Record state := State {
  heap : gmap nat node;
  next : nat;
  tasks : list nat;
  released : nat;
}.

(** [start_for::run]: the wait node, with one reference, and the root task. *)
Definition start : state := State {[ 0%nat := Node None 1 ]} 1 [0%nat] 0.

(** [offer_work_impl]: a new node with two references between the parent of the
    task and the task with its new sibling. *)
Definition offer_work (my_parent : nat) (others : list nat) (σ : state) : state :=
  State (<[ next σ := Node (Some my_parent) 2 ]> (heap σ)) (S (next σ))
    (next σ :: next σ :: others) (released σ).

(** [fold_tree]: the heap after it and whether it released the wait context. *)
Fixpoint fold_tree (fuel : nat) (n : nat) (h : gmap nat node) : option (gmap nat node * bool) :=
  match fuel with
  | O => None
  | S fuel =>
      x ← h !! n;
      let count := (m_ref_count x - 1)%Z in
      let h := <[ n := Node (my_parent x) count ]> h in
      if (0 <? count)%Z then Some (h, false)
      else
        match my_parent x with
        | None => Some (h, true)
        | Some parent => fold_tree fuel parent (delete n h)
        end
  end.

(** A loop may stop at every node but no more often. *)
Definition finalize (my_parent : nat) (others : list nat) (σ : state) : option state :=
  '(h, b) ← fold_tree (S (size (heap σ))) my_parent (heap σ);
  Some (State h (next σ) others (released σ + if b : bool then 1 else 0)).

Inductive step (σ : state) : state → Prop :=
  | step_offer l1 p l2 :
      tasks σ = l1 ++ p :: l2 → step σ (offer_work p (l1 ++ l2) σ)
  | step_finish l1 p l2 σ' :
      tasks σ = l1 ++ p :: l2 → finalize p (l1 ++ l2) σ = Some σ' → step σ σ'.

(** ** The invariant *)

Definition occ (n : nat) (l : list nat) : Z := Z.of_nat (length (filter (eq n) l)).
Definition parents (h : gmap nat node) : list nat := omap (λ kx, my_parent kx.2) (map_to_list h).
(** The references to a node: of tasks and of nodes. *)
Definition refs (n : nat) (ts : list nat) (h : gmap nat node) : Z := (occ n ts + occ n (parents h))%Z.

(** [extra]: the nodes of which a reference is just being given up. *)
Definition inv (h : gmap nat node) (nxt : nat) (ts : list nat) (extra : list nat) : Prop :=
  (∀ n x, h !! n = Some x →
     n < nxt ∧ m_ref_count x = refs n (extra ++ ts) h ∧
     (0 < m_ref_count x ∨ my_parent x = None)%Z ∧
     match my_parent x with
     | None => n = 0
     | Some p => p < n ∧ is_Some (h !! p)
     end) ∧
  Forall (λ t, is_Some (h !! t)) (extra ++ ts).

Lemma occ_app n l l' : occ n (l ++ l') = (occ n l + occ n l')%Z.
Proof. unfold occ. rewrite filter_app, length_app. lia. Qed.
Lemma occ_cons n m l : occ n (m :: l) = ((if decide (n = m) then 1 else 0) + occ n l)%Z.
Proof. unfold occ. rewrite filter_cons. case_decide; simpl; lia. Qed.
Lemma occ_nil n : occ n [] = 0%Z.
Proof. done. Qed.
Lemma occ_nonneg n l : (0 ≤ occ n l)%Z.
Proof. unfold occ. lia. Qed.
Lemma occ_perm n l l' : l ≡ₚ l' → occ n l = occ n l'.
Proof. unfold occ. intros H. by rewrite H. Qed.
Lemma occ_elem n l : n ∈ l → (0 < occ n l)%Z.
Proof. intros (l1 & l2 & ->)%list_elem_of_split. rewrite occ_app, occ_cons. case_decide; [|done].
  pose proof (occ_nonneg n l1). pose proof (occ_nonneg n l2). lia. Qed.
Lemma occ_not_elem n l : n ∉ l → occ n l = 0%Z.
Proof.
  intros Hn. unfold occ. destruct (filter (eq n) l) as [|m k] eqn:E; [done|].
  exfalso. assert (m ∈ filter (eq n) l) as Hm by (rewrite E; left).
  apply list_elem_of_filter in Hm as [<- Hm]. done.
Qed.

Lemma parents_insert h n x :
  h !! n = None →
  parents (<[n := x]> h) ≡ₚ match my_parent x with Some p => [p] | None => [] end ++ parents h.
Proof.
  intros Hn. unfold parents. rewrite (map_to_list_insert h n x Hn). simpl. by destruct (my_parent x).
Qed.

Lemma parents_delete h n x :
  h !! n = Some x →
  parents h ≡ₚ match my_parent x with Some p => [p] | None => [] end ++ parents (delete n h).
Proof.
  intros Hn. rewrite <- (insert_delete_id h n x Hn) at 1.
  apply parents_insert, lookup_delete_eq.
Qed.

Lemma parents_update h n x c :
  h !! n = Some x → parents (<[n := Node (my_parent x) c]> h) ≡ₚ parents h.
Proof.
  intros Hn. rewrite (parents_delete h n x Hn), <- insert_delete_eq.
  etransitivity; [apply parents_insert, lookup_delete_eq|done].
Qed.

Lemma parents_elem h n x p : h !! n = Some x → my_parent x = Some p → p ∈ parents h.
Proof. intros Hn Hp. rewrite (parents_delete h n x Hn), Hp. left. Qed.

Lemma elem_parents h p : p ∈ parents h → ∃ n x, h !! n = Some x ∧ my_parent x = Some p.
Proof.
  intros ([n x] & Hin & Hp)%list_elem_of_omap. apply elem_of_map_to_list in Hin. eauto.
Qed.

(** Giving up a reference that is not the last one, or one to the root. *)
Lemma inv_decrement h nxt ts n x :
  inv h nxt ts [n] → h !! n = Some x → (0 < m_ref_count x - 1 ∨ my_parent x = None)%Z →
  inv (<[n := Node (my_parent x) (m_ref_count x - 1)]> h) nxt ts [].
Proof.
  intros [Hinv Hts] Hn Hc. assert (Hsome : ∀ m, is_Some (h !! m) →
    is_Some (<[n := Node (my_parent x) (m_ref_count x - 1)]> h !! m)).
  { intros m Hm. destruct (decide (n = m)) as [<-|]; [rewrite lookup_insert_eq; eauto|].
    by rewrite lookup_insert_ne. }
  split; [|apply Forall_cons in Hts as [_ Hts]; eapply Forall_impl; [exact Hts|auto]].
  intros m y Hm. unfold refs. rewrite (occ_perm _ _ _ (parents_update h n x _ Hn)).
  destruct (decide (n = m)) as [<-|Hne].
  - rewrite lookup_insert_eq in Hm. simplify_eq/=.
    destruct (Hinv n x Hn) as (Hlt & Hcnt & _ & Hp). unfold refs in Hcnt.
    cbn [app] in Hcnt. rewrite occ_cons, decide_True in Hcnt by done. split_and!; [done|lia|done|].
    case_match; [|done]. destruct Hp. auto.
  - rewrite lookup_insert_ne in Hm by done. destruct (Hinv m y Hm) as (Hlt & Hcnt & Hpos & Hp).
    unfold refs in Hcnt. cbn [app] in Hcnt. rewrite occ_cons, decide_False in Hcnt by done.
    split_and!; [done|simpl; lia|done|]. case_match; [|done]. destruct Hp. auto.
Qed.

(** Giving up the last reference to a node other than the root: the reference
    that the node held is given up next. *)
Lemma inv_free h nxt ts n x p :
  inv h nxt ts [n] → h !! n = Some x → (m_ref_count x - 1 ≤ 0)%Z → my_parent x = Some p →
  inv (delete n (<[n := Node (my_parent x) (m_ref_count x - 1)]> h)) nxt ts [p].
Proof.
  intros [Hinv Hts] Hn Hc Hp. rewrite delete_insert_eq.
  destruct (Hinv n x Hn) as (_ & Hcnt & _ & Hpx). rewrite Hp in Hpx. destruct Hpx as [Hlt Hps].
  unfold refs in Hcnt. cbn [app] in Hcnt. rewrite occ_cons, decide_True in Hcnt by done.
  pose proof (occ_nonneg n ts). pose proof (occ_nonneg n (parents h)).
  assert (Hnt : n ∉ ts) by (intros Hin%occ_elem; lia).
  assert (Hnp : n ∉ parents h) by (intros Hin%occ_elem; lia).
  apply Forall_cons in Hts as [_ Hts]. split.
  - intros m y Hm. apply lookup_delete_Some in Hm as [Hne Hm].
    destruct (Hinv m y Hm) as (Hltm & Hcm & Hpos & Hpm). split_and!; [done| |done|].
    + rewrite Hcm. unfold refs. rewrite (occ_perm _ _ _ (parents_delete h n x Hn)), Hp.
      cbn [app]. rewrite !occ_cons. repeat case_decide; simplify_eq; lia.
    + case_match eqn:Epm; [|done]. destruct Hpm as [? Hps']. split; [done|].
      rewrite lookup_delete_ne; [done|]. intros ->. apply Hnp. by eapply parents_elem.
  - constructor; [rewrite lookup_delete_ne by lia; done|].
    apply Forall_forall. intros t Ht. rewrite Forall_forall in Hts.
    rewrite lookup_delete_ne; [by apply Hts|]. by intros ->.
Qed.

Lemma fold_tree_inv fuel n h nxt ts :
  inv h nxt ts [n] → size h < fuel →
  ∃ h' b, fold_tree fuel n h = Some (h', b) ∧ inv h' nxt ts [] ∧
    (b = true → ∃ x, h' !! 0 = Some x ∧ (m_ref_count x ≤ 0)%Z) ∧
    (b = false → ∃ m x, h' !! m = Some x ∧ (0 < m_ref_count x)%Z).
Proof.
  revert n h. induction fuel as [|fuel IH]; intros n h Hinv Hf; [lia|]. cbn [fold_tree].
  pose proof Hinv as [Hi [[x Hn] _]%Forall_cons]. rewrite Hn. opt_simpl.
  destruct (Z.ltb_spec 0 (m_ref_count x - 1)) as [Hpos|Hle].
  - do 2 eexists. split; [done|]. split; [by apply inv_decrement; auto|]. split; [done|].
    intros _. exists n. eexists. split; [apply lookup_insert_eq|done].
  - destruct (my_parent x) as [p|] eqn:Hp.
    + destruct (IH p (delete n (<[n := Node (Some p) (m_ref_count x - 1)]> h))) as (h' & b & Hft & H').
      * rewrite <- Hp. by eapply inv_free.
      * rewrite delete_insert_eq, map_size_delete, Hn.
        assert (size h ≠ 0) by (apply map_size_ne_0_lookup; eauto). lia.
      * eauto.
    + do 2 eexists. split; [done|]. split; [rewrite <- Hp; apply inv_decrement; auto|].
      split; [|done]. intros _. destruct (Hi n x Hn) as (_ & _ & _ & H0). rewrite Hp in H0. subst n.
      eexists. split; [apply lookup_insert_eq|done].
Qed.

(** Without tasks there is nothing left but the root, with no reference. *)
Lemma inv_no_tasks h nxt : inv h nxt [] [] → ∀ n x, h !! n = Some x → n = 0 ∧ m_ref_count x = 0%Z.
Proof.
  intros [Hinv _].
  assert (Hroot : ∀ k n x, nxt - n ≤ k → h !! n = Some x → n = 0).
  { induction k as [|k IH]; intros n x Hk Hn; destruct (Hinv n x Hn) as (Hlt & Hc & Hpos & Hp); [lia|].
    destruct (my_parent x) as [p|] eqn:Epx; [|done]. destruct Hpos as [Hpos|]; [|done].
    unfold refs in Hc. simpl in Hc.
    destruct (decide (n ∈ parents h)) as [Hin|Hnin]; [|rewrite (occ_not_elem _ _ Hnin) in Hc; rewrite occ_nil in Hc; lia].
    apply elem_parents in Hin as (m & y & Hm & Hpm).
    destruct (Hinv m y Hm) as (Hltm & _ & _ & Hpy). rewrite Hpm in Hpy.
    assert (m = 0) by (apply (IH m y); [lia|done]). lia. }
  intros n x Hn. assert (n = 0) as -> by (by eapply Hroot). split; [done|].
  destruct (Hinv 0 x Hn) as (_ & -> & _). unfold refs. simpl. rewrite occ_nil.
  rewrite occ_not_elem; [done|]. intros (m & y & Hm & Hpm)%elem_parents.
  destruct (Hinv m y Hm) as (_ & _ & _ & Hpy). rewrite Hpm in Hpy.
  pose proof (Hroot nxt m y ltac:(lia) Hm). lia.
Qed.

(** When the root has no reference there is no task. *)
Lemma inv_root_zero h nxt ts x :
  inv h nxt ts [] → h !! 0 = Some x → (m_ref_count x ≤ 0)%Z → ts = [].
Proof.
  intros [Hinv Hts] H0 Hc. simpl in Hts.
  destruct (Hinv 0 x H0) as (_ & Hcnt & _). unfold refs in Hcnt. simpl in Hcnt.
  pose proof (occ_nonneg 0 ts). pose proof (occ_nonneg 0 (parents h)).
  assert (Hnp : 0 ∉ parents h) by (intros Hin%occ_elem; lia).
  assert (Honly : ∀ n y, h !! n = Some y → n = 0).
  { intros n. induction (lt_wf n) as [n _ IH]. intros y Hn.
    destruct (Hinv n y Hn) as (_ & _ & _ & Hp). destruct (my_parent y) as [p|] eqn:Epy; [|done].
    destruct Hp as [Hlt [z Hz]]. assert (p = 0) as -> by (by eapply IH).
    exfalso. apply Hnp. exact (parents_elem h n y 0 Hn Epy). }
  destruct ts as [|t ts]; [done|]. apply Forall_cons in Hts as [[y Hy] _].
  apply Honly in Hy as ->. assert (0 < occ 0 (0%nat :: ts))%Z by (apply occ_elem; left). lia.
Qed.

Lemma inv_root h nxt ts n x : inv h nxt ts [] → h !! n = Some x → is_Some (h !! 0).
Proof.
  intros [Hinv _]. revert x. induction (lt_wf n) as [n _ IH]. intros x Hn.
  destruct (Hinv n x Hn) as (_ & _ & _ & Hp). destruct (my_parent x); [|by rewrite <- Hp].
  destruct Hp as [Hlt [y Hy]]. by eapply IH.
Qed.

Definition state_inv (σ : state) : Prop :=
  inv (heap σ) (next σ) (tasks σ) [] ∧ is_Some (heap σ !! 0) ∧
  released σ = match tasks σ with [] => 1 | _ => 0 end.

Lemma start_inv : state_inv start.
Proof.
  split_and!; [|simpl; rewrite lookup_singleton_eq; eauto|done]. split; [|by repeat constructor].
  intros n x Hn. simpl in Hn. apply lookup_singleton_Some in Hn as [<- <-]. split_and!; [simpl; lia| |by right|done].
  by vm_compute.
Qed.

Lemma inv_perm h nxt ts ts' : ts ≡ₚ ts' → inv h nxt ts [] → inv h nxt ts' [].
Proof.
  intros Hp [Hinv Hts]. split; [|simpl in *; by rewrite <- Hp].
  intros n x Hn. destruct (Hinv n x Hn) as (H1 & H2 & H3 & H4).
  split_and!; [done| |done..]. rewrite H2. unfold refs. simpl. by rewrite (occ_perm _ _ _ Hp).
Qed.

Lemma offer_inv h nxt p ts :
  inv h nxt (p :: ts) [] → inv (<[nxt := Node (Some p) 2]> h) (S nxt) (nxt :: nxt :: ts) [].
Proof.
  intros [Hinv Hts]. simpl in Hts. pose proof Hts as [[y Hy] Hts']%Forall_cons.
  assert (Hfresh : h !! nxt = None).
  { destruct (h !! nxt) as [z|] eqn:E; [|done]. destruct (Hinv nxt z E). lia. }
  assert (Hne : ∀ t, is_Some (h !! t) → t ≠ nxt) by (intros t [? ?] ->; congruence).
  assert (Hsome : ∀ t, is_Some (h !! t) → is_Some (<[nxt := Node (Some p) 2]> h !! t))
    by (intros t Ht; rewrite lookup_insert_ne; [done|by apply not_eq_sym, Hne]).
  assert (Hnp : nxt ∉ parents h).
  { intros (m & z & Hm & Hpm)%elem_parents. destruct (Hinv m z Hm) as (? & _ & _ & Hpz).
    rewrite Hpm in Hpz. lia. }
  assert (Hnt : nxt ∉ ts) by (intros Hin; rewrite Forall_forall in Hts'; by apply (Hne nxt); auto).
  destruct (Hinv p y Hy) as (Hpn & _). split.
  - intros n x Hn. unfold refs. rewrite (occ_perm _ _ _ (parents_insert h nxt _ Hfresh)).
    cbn [app my_parent]. rewrite !occ_cons.
    destruct (decide (nxt = n)) as [<-|Hnn].
    + rewrite lookup_insert_eq in Hn. simplify_eq/=. rewrite decide_True by done.
      rewrite (occ_not_elem _ _ Hnt), (occ_not_elem _ _ Hnp), decide_False by lia.
      split_and!; [lia|done|by left|done|]. apply Hsome. eauto.
    + rewrite lookup_insert_ne in Hn by done. destruct (Hinv n x Hn) as (H1 & H2 & H3 & H4).
      rewrite decide_False by done. split_and!; [lia| |done|case_match; [destruct H4; auto|done]].
      rewrite H2. unfold refs. simpl. rewrite occ_cons. lia.
  - simpl. repeat constructor; try (rewrite lookup_insert_eq; eauto).
    eapply Forall_impl; [exact Hts'|auto].
Qed.

Lemma finalize_ok σ l1 p l2 :
  state_inv σ → tasks σ = l1 ++ p :: l2 →
  ∃ σ', finalize p (l1 ++ l2) σ = Some σ' ∧ state_inv σ' ∧ tasks σ' = l1 ++ l2.
Proof.
  intros (Hinv & H0 & Hrel) Hts. rewrite Hts in *.
  assert (Hinv' : inv (heap σ) (next σ) (l1 ++ l2) [p]).
  { apply (inv_perm _ _ _ (p :: l1 ++ l2)) in Hinv; [exact Hinv|].
    by rewrite Permutation_middle. }
  destruct (fold_tree_inv (S (size (heap σ))) p (heap σ) (next σ) (l1 ++ l2) Hinv')
    as (h' & b & Hft & Hi & Ht & Hf); [lia|].
  unfold finalize. rewrite Hft. opt_simpl. eexists. split; [done|].
  assert (Hr0 : released σ = 0) by (by destruct l1).
  split; [|done]. unfold state_inv. cbn [heap next tasks released]. rewrite Hr0.
  split; [done|]. destruct b.
  - destruct (Ht eq_refl) as (x & Hx & Hc). rewrite (inv_root_zero _ _ _ _ Hi Hx Hc). eauto.
  - destruct (Hf eq_refl) as (m & x & Hm & Hc). split; [by eapply inv_root|].
    destruct (l1 ++ l2) eqn:El; [|done]. exfalso.
    destruct (inv_no_tasks _ _ Hi m x Hm). lia.
Qed.

Lemma step_inv σ σ' : step σ σ' → state_inv σ → state_inv σ'.
Proof.
  intros [l1 p l2 Hts|l1 p l2 σ'' Hts Hfin] Hinv.
  - destruct Hinv as (Hinv & [y Hy] & Hrel). rewrite Hts in *. split_and!; simpl; [| |by destruct l1].
    + apply offer_inv. eapply inv_perm; [|exact Hinv]. by rewrite Permutation_middle.
    + destruct Hinv as [Hinv _]. destruct (Hinv 0 y Hy) as (Hlt & _).
      rewrite lookup_insert_ne by lia. eauto.
  - destruct (finalize_ok σ l1 p l2 Hinv Hts) as (σ1 & Hfin' & Hinv' & _).
    rewrite Hfin in Hfin'. by simplify_eq.
Qed.

(** The waiting thread of a parallel algorithm is released exactly once,
    precisely when the last of its tasks has finished, in every order of splits
    and completions; until then no node is used after it was freed and every
    [fold_tree] comes to an end; and in the end all tree nodes are freed. *)
Theorem wait_released_once (σ : state) (Hr : rtc step start σ) :
  released σ = (match tasks σ with [] => 1 | _ => 0 end) ∧
  (∀ l1 p l2, tasks σ = l1 ++ p :: l2 → is_Some (finalize p (l1 ++ l2) σ)) ∧
  (tasks σ = [] → heap σ = {[ 0 := Node None 0 ]}).
Proof.
  assert (Hinv : state_inv σ).
  { pose proof start_inv as Hs. revert Hs. induction Hr as [|x y z Hst _ IH]; [done|].
    intros Hx. by apply IH, (step_inv x). }
  pose proof Hinv as (Hi & [x H0] & Hrel). split_and!; [done| |].
  - intros l1 p l2 Hts. destruct (finalize_ok σ l1 p l2 Hinv Hts) as (σ' & -> & _). eauto.
  - intros Hts. rewrite Hts in Hi. apply map_eq. intros n.
    destruct (heap σ !! n) as [y|] eqn:En.
    + destruct (inv_no_tasks _ _ Hi n y En) as [-> Hc]. rewrite lookup_singleton_eq.
      destruct Hi as [Hi _]. destruct (Hi 0 y En) as (_ & _ & _ & Hp). destruct y as [[p|] c]; simpl in *; [lia|].
      by subst c.
    + symmetry. apply lookup_singleton_None. intros <-. congruence.
Qed.
End TaskTree.

Module TaskTreeExamples.
Import TaskTree.

(** A split, the left task finishes, the right one splits, both finish. *)
Lemma wait_released_once_witness :
  ∃ σ, rtc step start σ ∧ tasks σ = [] ∧ released σ = 1 ∧ heap σ = {[ 0 := Node None 0 ]}.
Proof.
  assert (H : ∃ σ, rtc step start σ ∧ tasks σ = []).
  { eexists. split.
    { eapply rtc_l; [by eapply (step_offer _ [] 0 [])|]. simpl.
      eapply rtc_l; [by eapply (step_finish _ [] 1 [1])|]. simpl.
      eapply rtc_l; [by eapply (step_offer _ [] 1 [])|]. simpl.
      eapply rtc_l; [by eapply (step_finish _ [2] 2 [])|]. simpl.
      eapply rtc_l; [by eapply (step_finish _ [] 2 [])|]. apply rtc_refl. }
    done. }
  destruct H as (σ & Hr & Ht). exists σ.
  pose proof (wait_released_once σ Hr) as (H1 & _ & H2). rewrite Ht in H1.
  exact (conj Hr (conj Ht (conj H1 (H2 Ht)))).
Defined.
End TaskTreeExamples.
