(* ===== verification/ParallelFor.v ===== *)
(** * parallel_for

    The tasks of [parallel_for] ([start_for]) with any of the four
    partitioners and any range, and the loop over integers with a step.
    Source: include/oneapi/tbb/parallel_for.h, with the partition objects and
    loops of [Partitioner].

    A state is the set of tasks that are spawned and not yet executed, the log
    of the body calls and the affinity array.  A step executes one task, in any
    order, with any answers about stealing and cancellation. *)

From S2P Require Import Prelude Ranges Partitioner.
From stdpp Require Import base numbers relations list.
From Stdlib Require Import ZArith Lia.

Module ParallelFor.
Import Partition Execute.

(** [start_for]: the data members that matter here. *)
Record start_for (R : Type) := StartFor {
  my_range : R;
  my_partition : partition;
}.
Arguments StartFor {R}.
Arguments my_range {R}.
Arguments my_partition {R}.

(** What is observed when a task is executed: the slot to note when it is not
    the one the task has affinity to, whether it was stolen and runs
    concurrently with its left sibling, the answers in the pool loop. *)
Record observed := Observed {
  new_affinity : option Z;
  concurrent : bool;
  answers : list answer;
}.

Record state (R : Type) := State {
  pending : list (start_for R);
  log : list (R * Z);           (* the range and the position of the task *)
  my_array : list Z;
}.
Arguments State {R}.
Arguments pending {R}.
Arguments log {R}.
Arguments my_array {R}.

Section parallel_for.
Context {R : Type} `{RangeOps R}.

(** [start_for::execute]: what it does, and the affinity array after it. *)
Definition task_execute (fuel : nat) (ob : observed) (t : start_for R) (array : list Z)
  : option (list (event R) * list Z) :=
  array ← match new_affinity ob with
          | Some id => note_affinity id (my_partition t) array
          | None => Some array
          end;
  let '(p, _) := check_being_stolen (concurrent ob) (my_partition t) in
  evs ← execute fuel (my_range t) p (answers ob);
  Some (evs, array).

(** The right children, which [offer_work] constructs and spawns; [spawn_task]
    reads the affinity array. *)
Definition children (evs : list (event R)) : list (start_for R) :=
  (λ x, StartFor x.1 x.2) <$> offers evs.
Definition spawned (evs : list (event R)) (array : list Z) : option (list (option Z)) :=
  mapM (λ t, spawn_slot (my_partition t) array) (children evs).

(** [start_for::run]: the root task, unless the range is empty. *)
Definition run (range : R) (k : kind) (max_concurrency head : Z) (array : list Z) : state R :=
  State (if negb (Ranges.empty range) then [StartFor range (create k max_concurrency head)] else [])
    [] array.

(** One task is executed or, when the group is cancelled, dropped. *)
Inductive step (cancel : bool) (σ : state R) : state R → Prop :=
  | step_execute l1 t l2 fuel ob evs array slots :
      pending σ = l1 ++ t :: l2 →
      (cancel = false → not_cancelled (answers ob)) →
      (∀ id, new_affinity ob = Some id → (0 ≤ id < 2 ^ 16)%Z) →
      task_execute fuel ob t (my_array σ) = Some (evs, array) →
      spawned evs array = Some slots →
      step cancel σ
        (State (l1 ++ children evs ++ l2)
           (log σ ++ ((λ r, (r, my_head (my_partition t))) <$> bodies evs)) array)
  | step_cancel l1 t l2 :
      cancel = true → pending σ = l1 ++ t :: l2 →
      step cancel σ (State (l1 ++ l2) (log σ) (my_array σ)).
End parallel_for.

Section laws.
Context {R E : Type} `{RangeLaws R E}.
Implicit Types (σ : state R) (t : start_for R).

Definition task_elems t : list E := elems (my_range t).

(** The array has a cell for every position. *)
Definition task_ok (array : list Z) t : Prop :=
  valid (my_range t) ∧ part_ok (my_partition t) ∧
  (my_kind (my_partition t) = Affinity →
   (my_max_affinity (my_partition t) ≤ Z.of_nat (length array))%Z).

Lemma stolen_affinity c p p' b :
  check_being_stolen c p = (p', b) → my_max_affinity p' = my_max_affinity p ∧ my_head p' = my_head p.
Proof. unfold check_being_stolen. intros. repeat case_match; by simplify_eq/=. Qed.

Lemma note_affinity_ok id p array :
  part_ok p → (my_kind p = Affinity → (my_max_affinity p ≤ Z.of_nat (length array))%Z) →
  ∃ array', note_affinity id p array = Some array' ∧ length array' = length array.
Proof.
  intros Hp Ha. unfold note_affinity, part_ok in *. destruct (my_kind p); eauto.
  case_match; [|eauto]. specialize (Ha eq_refl). rewrite write_Some by lia.
  eexists. split; [done|]. apply length_insert.
Qed.

Lemma spawn_slot_ok p array :
  part_ok p → (my_kind p = Affinity → (my_max_affinity p ≤ Z.of_nat (length array))%Z) →
  is_Some (spawn_slot p array).
Proof.
  intros Hp Ha. unfold spawn_slot, part_ok in *. destruct (my_kind p); eauto.
  case_match; [|eauto]. specialize (Ha eq_refl).
  destruct (lookup_lt_is_Some_2 array (Z.to_nat (my_head p))) as [a ->]; [lia|]. simpl. eauto.
Qed.

(** Executing a task: it finishes, the accesses to the affinity array are in
    bounds, and the range is divided between body and children. *)
Definition task_done (array : list Z) (ob : observed) t evs (array' : list Z) : Prop :=
  length array' = length array ∧ Forall (task_ok array') (children evs) ∧
  is_Some (spawned evs array') ∧
  ∃ rest, outcome [my_range t] rest evs ∧ bodies evs ++ rest ≠ [] ∧
    (not_cancelled (answers ob) → rest = []).

Lemma children_ok array p r rest evs :
  valid r → outcome [r] rest evs → all_inherit p evs →
  (my_kind p = Affinity → (my_max_affinity p ≤ Z.of_nat (length array))%Z) →
  Forall (task_ok array) (children evs).
Proof.
  intros Hr [Hsp Hok] Hin Ha. destruct (splits_elems _ _ Hsp) as [Hv _]; [by constructor|].
  apply Forall_app in Hv as [_ [_ Hv]%Forall_app]. rewrite Forall_reverse, Forall_fmap in Hv.
  apply Forall_fmap. unfold all_inherit in Hin.
  rewrite Forall_forall in *. intros [r' p'] Hx.
  destruct (Hin _ Hx) as [Hk Hm]. split_and!; simpl; [by apply (Hv (r', p'))|by apply (Hok (r', p'))|].
  simpl in *. rewrite Hk, Hm. done.
Qed.

Lemma task_execute_done array ob t :
  task_ok array t → ∃ fuel evs array',
    task_execute fuel ob t array = Some (evs, array') ∧ task_done array ob t evs array'.
Proof.
  intros (Hr & Hp & Ha). unfold task_execute.
  assert (∃ array', match new_affinity ob with
    | Some id => note_affinity id (my_partition t) array | None => Some array end = Some array' ∧
    length array' = length array) as (array' & -> & Hlen)
    by (case_match; [by apply note_affinity_ok|eauto]).
  opt_simpl. destruct (check_being_stolen _ _) as [p b] eqn:Es.
  destruct (stolen_ok _ _ _ _ Hp Es) as [Hp' Hk]. destruct (stolen_affinity _ _ _ _ Es) as [Hm _].
  destruct (execute_spec (4 * length (elems (my_range t))) (my_range t) p (answers ob) Hr Hp')
    as (evs & rest & Ex & Ho & Hne & Hn); [done|].
  exists (4 * length (elems (my_range t))), evs, array'. rewrite Ex. split; [done|].
  assert (Hch : Forall (task_ok array') (children evs)).
  { apply (children_ok array' p (my_range t) rest); try done; [by eapply execute_inherits|].
    rewrite Hk, Hm, Hlen. done. }
  split_and!; [done..| |by exists rest].
  apply mapM_is_Some. apply Forall_impl with (task_ok array'); [done|].
  intros t' (_ & ? & ?). by apply spawn_slot_ok.
Qed.

Lemma task_execute_inv fuel array ob t evs array' :
  task_ok array t → task_execute fuel ob t array = Some (evs, array') →
  task_done array ob t evs array'.
Proof.
  intros Ht Ex. destruct (task_execute_done array ob t Ht) as (fuel0 & evs0 & array0 & Ex0 & Hd).
  unfold task_execute in *. apply bind_Some in Ex as (a & Ea & Ex). rewrite Ea in Ex0.
  cbn [mbind option_bind] in Ex0. destruct (check_being_stolen _ _) as [p b].
  apply bind_Some in Ex as (e & Ex & ?). apply bind_Some in Ex0 as (e0 & Ex0 & ?). simplify_eq.
  apply (execute_fuel _ (fuel + fuel0)) in Ex, Ex0; [|lia..]. by rewrite Ex in Ex0; simplify_eq.
Qed.

Definition log_elems σ : list E := log σ ≫= λ x, elems x.1.
Definition pending_elems σ : list E := pending σ ≫= task_elems.

Definition state_ok σ : Prop := Forall (task_ok (my_array σ)) (pending σ).

Lemma task_ok_length array array' t :
  length array' = length array → task_ok array t → task_ok array' t.
Proof. intros Hl (? & ? & ?). split_and!; [done..|]. by rewrite Hl. Qed.

Lemma log_app (l : list (R * Z)) (rs : list R) h :
  (l ++ ((λ r, (r, h)) <$> rs)) ≫= (λ x, elems x.1) = (l ≫= λ x, elems x.1) ++ (rs ≫= elems).
Proof. rewrite bind_app. f_equal. induction rs as [|r rs IH]; [done|]. by rewrite fmap_cons, !bind_cons, IH. Qed.

Lemma children_elems evs : children evs ≫= task_elems = (fst <$> offers evs) ≫= elems.
Proof.
  unfold children. induction (offers evs) as [|[r p] l IH]; [done|].
  by rewrite !fmap_cons, !bind_cons, IH.
Qed.

(** A step divides the points of its task between the log, the new tasks and,
    only if the group is cancelled, nothing; and at least one is used up. *)
Lemma step_ok cancel σ σ' :
  step cancel σ σ' → state_ok σ →
  state_ok σ' ∧ ∃ lost,
    log_elems σ ++ pending_elems σ ≡ₚ log_elems σ' ++ pending_elems σ' ++ lost ∧
    (cancel = false → lost = []) ∧ length (pending_elems σ') < length (pending_elems σ).
Proof.
  intros Hst Hok. unfold state_ok, log_elems, pending_elems in *.
  destruct Hst as [l1 t l2 fuel ob evs array slots Hp Hc _ Ex _|l1 t l2 -> Hp];
    rewrite Hp in *; apply Forall_app in Hok as [Hl1 [Ht Hl2]%Forall_cons]; simpl.
  - destruct (task_execute_inv _ _ _ _ _ _ Ht Ex) as (Hlen & Hch & _ & rest & [Hsp _] & Hne & Hn).
    destruct Ht as (Hv & _). destruct (splits_elems _ _ Hsp) as [Hvs Hperm]; [by constructor|].
    split.
    { rewrite !Forall_app. split_and!; [|done|]; (eapply Forall_impl; [done|]);
        intros t'; by apply task_ok_length. }
    assert (Hpos : 0 < length ((bodies evs ++ rest) ≫= elems)).
    { rewrite app_assoc in Hvs. apply Forall_app in Hvs as [Hvs _].
      destruct (bodies evs ++ rest) as [|r0 rs]; [done|]. apply Forall_cons in Hvs as [Hr0 _].
      rewrite bind_cons, length_app. pose proof (elems_length r0 Hr0). lia. }
    rewrite bind_cons, app_nil_r, app_assoc, bind_app in Hperm.
    exists (rest ≫= elems). rewrite log_app, !bind_app, bind_cons, children_elems.
    assert (Hrev : reverse (fst <$> offers evs) ≫= elems ≡ₚ (fst <$> offers evs) ≫= elems)
      by (by rewrite reverse_Permutation).
    rewrite Hrev, bind_app in Hperm. unfold task_elems at 2 5. rewrite Hperm.
    split_and!; [solve_Permutation| |].
    + intros Hf. by rewrite (Hn (Hc Hf)).
    + rewrite bind_app in Hpos. rewrite !length_app in *.
      apply Permutation_length in Hperm. rewrite !length_app in Hperm. unfold task_elems. lia.
  - split; [by apply Forall_app|]. exists (task_elems t).
    destruct Ht as (Hv & _). pose proof (elems_length _ Hv). rewrite !bind_app, bind_cons.
    split_and!; [solve_Permutation|done|]. rewrite !length_app. unfold task_elems. lia.
Qed.

(** The loops that the theorems are about: a non-empty range, the affinity
    array of the partitioner resized for the arena, a thread of the arena. *)
Definition loop_start (range : R) (k : kind) (max_concurrency head : Z) (array : list Z) : Prop :=
  valid range ∧ Ranges.empty range = false ∧ (0 ≤ head < max_concurrency)%Z ∧
  (max_concurrency < 2 ^ 16)%Z ∧
  Z.of_nat (length array) = (factor Affinity * max_concurrency)%Z.

Lemma run_ok range k P head array :
  loop_start range k P head array →
  state_ok (run range k P head array) ∧ log_elems (run range k P head array) = [] ∧
  pending_elems (run range k P head array) = elems range.
Proof.
  intros (Hv & He & Hh & HP & Ha). unfold run, state_ok, log_elems, pending_elems. rewrite He.
  simpl. rewrite app_nil_r. split_and!; try done. constructor; [|done].
  split_and!; [done|by apply create_ok|]. simpl. intros Hk.
  assert (k = Affinity) as -> by (by destruct k). unfold create. simpl in *.
  unfold get_initial_auto_partitioner_divisor. rewrite (Z.mul_comm 4), Z.div_mul by lia. lia.
Qed.

Lemma steps_ok cancel σ σ' :
  rtc (step cancel) σ σ' → state_ok σ →
  state_ok σ' ∧ ∃ lost,
    log_elems σ ++ pending_elems σ ≡ₚ log_elems σ' ++ pending_elems σ' ++ lost ∧
    (cancel = false → lost = []).
Proof.
  induction 1 as [|σ σ1 σ2 Hst _ IH]; intros Hok.
  { split; [done|]. exists []. by rewrite app_nil_r. }
  destruct (step_ok _ _ _ Hst Hok) as (Hok1 & lost1 & Hp1 & Hl1 & _).
  destruct (IH Hok1) as (Hok2 & lost2 & Hp2 & Hl2). split; [done|].
  exists (lost2 ++ lost1). split.
  - rewrite Hp1, app_assoc, Hp2. by rewrite !app_assoc.
  - intros Hc. by rewrite (Hl1 Hc), (Hl2 Hc).
Qed.

(** The body is called for valid ranges only. *)
Lemma step_log_valid cancel σ σ' :
  step cancel σ σ' → state_ok σ → Forall valid (log σ).*1 → Forall valid (log σ').*1.
Proof.
  intros Hst Hok Hlog. destruct Hst as [l1 t l2 fuel ob evs array slots Hp Hc _ Ex _|]; [|done]. simpl.
  unfold state_ok in Hok. rewrite Hp in Hok. apply Forall_app in Hok as [_ [Ht _]%Forall_cons].
  destruct (task_execute_inv _ _ _ _ _ _ Ht Ex) as (_ & _ & _ & rest & [Hsp _] & _).
  destruct Ht as (Hv & _). destruct (splits_elems _ _ Hsp) as [Hvs _]; [by constructor|].
  apply Forall_app in Hvs as [Hb _]. rewrite fmap_app, <- list_fmap_compose. apply Forall_app. split; [done|].
  unfold compose. simpl. by rewrite list_fmap_id.
Qed.
Lemma steps_log_valid cancel σ σ' :
  rtc (step cancel) σ σ' → state_ok σ → Forall valid (log σ).*1 → Forall valid (log σ').*1.
Proof.
  induction 1 as [|σ σ1 σ2 Hst _ IH]; [done|]. intros Hok Hlog.
  destruct (step_ok _ _ _ Hst Hok) as [Hok1 _]. apply IH; [done|]. by eapply step_log_valid.
Qed.

(** Any pending task can be executed, whatever it observes. *)
Lemma progress cancel σ ob :
  state_ok σ → pending σ ≠ [] → (cancel = false → not_cancelled (answers ob)) →
  (∀ id, new_affinity ob = Some id → (0 ≤ id < 2 ^ 16)%Z) → ∃ σ', step cancel σ σ'.
Proof.
  intros Hok Hne Hc Hid. unfold state_ok in Hok. destruct (pending σ) as [|t ts] eqn:Hp; [done|].
  apply Forall_cons in Hok as [Ht _].
  destruct (task_execute_done (my_array σ) ob t Ht) as (fuel & evs & array & Ex & Hd).
  pose proof Hd as (_ & _ & [slots Hs] & _).
  eexists. by eapply (step_execute cancel σ [] t ts fuel ob evs array slots).
Qed.

(** A loop can be run to its end without being cancelled, and what can happen
    without cancellation can happen with it. *)
Lemma runs_to_end range k P head array :
  loop_start range k P head array →
  ∃ σ, rtc (step false) (run range k P head array) σ ∧ pending σ = [].
Proof.
  intros Hs. destruct (run_ok _ _ _ _ _ Hs) as (Hok & _ & _). revert Hok. generalize (run range k P head array).
  intros σ. remember (length (pending_elems σ)) as m eqn:Hm. revert σ Hm.
  induction (lt_wf m) as [m _ IH]; intros σ -> Hok.
  destruct (decide (length (pending σ) = 0)) as [?%nil_length_inv|Hne]; [by exists σ|].
  destruct (progress false σ (Observed None false [])) as [σ1 Hst]; [done| |by constructor|done|].
  { intros Hnil. by rewrite Hnil in Hne. }
  destruct (step_ok _ _ _ Hst Hok) as (Hok1 & lost & _ & _ & Hlt).
  destruct (IH _ Hlt σ1 eq_refl Hok1) as (σ2 & Hr & Hp). exists σ2. split; [by eapply rtc_l|done].
Qed.
Lemma step_cancel_mono σ σ' : step false σ σ' → step true σ σ'.
Proof. intros [l1 t l2 fuel ob evs array slots ? ? ? ? ?|]; [by eapply step_execute|done]. Qed.

Lemma points_conserved range k P head array σ :
  loop_start range k P head array → rtc (step false) (run range k P head array) σ →
  state_ok σ ∧ log_elems σ ++ pending_elems σ ≡ₚ elems range.
Proof.
  intros Hs Hr. destruct (run_ok _ _ _ _ _ Hs) as (Hok & Hlog & Hpend).
  destruct (steps_ok _ _ _ Hr Hok) as (Hok' & lost & Hp & Hl).
  by rewrite Hlog, Hpend, (Hl eq_refl), app_nil_r in Hp.
Qed.

(** C2: a [parallel_for] with any partitioner that is not cancelled applies the
    body exactly once to every point of its range: at every moment the points
    of the log and of the tasks not yet executed are together those of the
    range, in every order of execution and for every pattern of stealing; when
    no task is left they are all in the log; and as long as a task is left it
    can be executed without leaving the affinity array. *)
Theorem parallel_for_exactly_once (range : R) (k : kind) (P head : Z) (array : list Z)
    (σ : state R) (Hs : loop_start range k P head array)
    (Hr : rtc (step false) (run range k P head array) σ) :
  log_elems σ ++ pending_elems σ ≡ₚ elems range ∧
  (pending σ = [] → log_elems σ ≡ₚ elems range) ∧
  (pending σ ≠ [] → ∃ σ', step false σ σ').
Proof.
  destruct (points_conserved _ _ _ _ _ _ Hs Hr) as [Hok Hp]. split_and!; [done| |].
  - intros Hnil. unfold pending_elems in Hp. rewrite Hnil, app_nil_r in Hp. done.
  - intros Hne. apply (progress false σ (Observed None false [])); [done|done| |done].
    intros _. by constructor.
Qed.

(** A [parallel_for], cancelled or not, finishes after at most as many tasks
    as the range has points, and no point is given to the body twice. *)
Theorem parallel_for_terminates (range : R) (k : kind) (P head : Z) (array : list Z)
    (Hs : loop_start range k P head array) :
  (∀ n σ, nsteps (step true) n (run range k P head array) σ → n ≤ length (elems range)) ∧
  (∀ σ, rtc (step true) (run range k P head array) σ →
     log_elems σ ⊆+ elems range ∧ (nf (step true) σ → pending σ = [])).
Proof.
  destruct (run_ok _ _ _ _ _ Hs) as (Hok & Hlog & Hpend). split.
  - assert (Hn : ∀ n σ σ', nsteps (step true) n σ σ' → state_ok σ → n ≤ length (pending_elems σ)).
    { induction 1 as [|n σ1 σ2 σ3 Hst _ IH]; intros Hok1; [lia|].
      destruct (step_ok _ _ _ Hst Hok1) as (Hok2 & lost & _ & _ & Hlt). specialize (IH Hok2). lia. }
    intros n σ Hst. rewrite <- Hpend. by eapply Hn.
  - intros σ Hr. destruct (steps_ok _ _ _ Hr Hok) as (Hok' & lost & Hp & _).
    rewrite Hlog, Hpend in Hp. simpl in Hp. split; [rewrite Hp; by apply submseteq_inserts_r|].
    intros Hnf. destruct (decide (length (pending σ) = 0)) as [?%nil_length_inv|Hne]; [done|].
    exfalso. apply Hnf.
    destruct (progress true σ (Observed None false [])) as [σ' Hst]; try done; [|by exists σ'].
    intros Hnil. by rewrite Hnil in Hne.
Qed.
End laws.

(** ** The static partitioner: one chunk per slot *)
Section static.
Context {R : Type} `{RangeOps R}.
Implicit Types (σ : state R).
Local Open Scope Z_scope.

(** The slots that a partition is responsible for. *)
Definition slots (p : partition) : list Z :=
  (λ i, (my_head p + i) mod my_max_affinity p) <$> seqZ 0 (my_divisor p).

Definition static_ok (m : Z) (p : partition) : Prop :=
  my_kind p = Static ∧ my_max_affinity p = m ∧ 0 ≤ my_head p < m ∧ 1 ≤ my_divisor p ≤ m ∧ m < 2 ^ 16.

Lemma static_part_ok m p : static_ok m p → part_ok p.
Proof. intros (Hk & Hm & Hh & Hd & HP). unfold part_ok. rewrite Hk. lia. Qed.

Lemma slots_split (h d1 d2 m : Z) :
  0 < m → 0 ≤ h < m → 0 ≤ d1 → 0 ≤ d2 → h + d1 < 2 ^ 64 →
  (λ i, (h + i) mod m) <$> seqZ 0 (d1 + d2) =
  ((λ i, (h + i) mod m) <$> seqZ 0 d1) ++
  ((λ i, (size_t (h + d1) mod m + i) mod m) <$> seqZ 0 d2).
Proof.
  intros Hm Hh H1 H2 Hw. unfold size_t. rewrite (Z.mod_small (h + d1)) by lia.
  rewrite seqZ_app, fmap_app by lia. f_equal.
  rewrite Z.add_0_l. replace d1 with (d1 + 0) at 1 by lia. rewrite <- fmap_add_seqZ, <- list_fmap_compose.
  apply list_fmap_ext. intros i x _. unfold compose.
  rewrite Z.add_mod_idemp_l by lia. f_equal. lia.
Qed.

Lemma static_split m p a child :
  static_ok m p → (my_divisor p >? 1) = true → split_partition (get_split p) p = (a, child) →
  static_ok m a ∧ static_ok m child ∧ my_head a = my_head p ∧ slots p = slots a ++ slots child.
Proof.
  intros Hok Hgt E. pose proof (static_part_ok m p Hok) as Hp.
  destruct Hok as (Hk & Hm & Hh & Hd & HP). apply Z.gtb_lt in Hgt.
  unfold get_split in E. rewrite Hk in E. simpl in E. rewrite Z.div_1_r in E.
  set (right := my_divisor p / 2) in *.
  assert (1 ≤ right < my_divisor p).
  { unfold right. pose proof (Z.div_mod (my_divisor p) 2 ltac:(lia)).
    pose proof (Z.mod_pos_bound (my_divisor p) 2 ltac:(lia)). lia. }
  unfold split_partition in E. rewrite Hk in E.
  rewrite (proportional_do_split_spec right p) in E by (rewrite ?Hk; simpl; auto; lia).
  rewrite Hk in E. simpl in E. rewrite Z.mul_1_r in E. injection E as <- <-.
  unfold static_ok, slots. simpl. rewrite Hk, Hm.
  pose proof (head_ok (my_head p) (my_divisor p - right) m ltac:(lia)).
  split_and!; try done; try lia. rewrite <- slots_split by lia. do 2 f_equal. lia.
Qed.

Lemma static_spread m fuel (r : R) p r' p' evs :
  spread fuel r p = Some (r', p', evs) → static_ok m p →
  static_ok m p' ∧ my_head p' = my_head p ∧ bodies evs = [] ∧
  Forall (λ x, static_ok m x.2) (offers evs) ∧
  slots p ≡ₚ slots p' ++ (offers evs ≫= λ x, slots x.2).
Proof.
  revert r p evs. induction fuel as [|fuel IH]; intros r p evs E Hok; [done|]. cbn [spread] in E.
  assert (Hstop : r' = r ∧ p' = p ∧ evs = [] → static_ok m p' ∧ my_head p' = my_head p ∧
    bodies evs = [] ∧ Forall (λ x, static_ok m x.2) (offers evs) ∧
    slots p ≡ₚ slots p' ++ (offers evs ≫= λ x, slots x.2)).
  { intros (-> & -> & ->). split_and!; try done. by rewrite app_nil_r. }
  destruct (Ranges.is_divisible r); [|simplify_eq; auto].
  pose proof Hok as (Hk & _). unfold divisible in E. rewrite Hk in E. simpl in E.
  destruct (my_divisor p >? 1) eqn:Hgt; [|simplify_eq; auto].
  destruct (split_range _ r) as [rl rr]. destruct (split_partition _ p) as [p2 child] eqn:Es.
  apply bind_Some in E as ([[rf pf] evs0] & Er & E). simplify_eq.
  destruct (static_split m p p2 child Hok Hgt Es) as (H2 & Hc & Hhd & Hsl).
  destruct (IH _ _ _ Er H2) as (Hp' & Hhd' & Hb & Hof & Hperm).
  split_and!; [done|congruence|done|by constructor|].
  cbn [offers omap list_omap]. fold (offers evs0). rewrite bind_cons, Hsl, Hperm. simpl.
  solve_Permutation.
Qed.

Definition static_inv (m : Z) σ : Prop :=
  Forall (λ t, static_ok m (my_partition t)) (pending σ) ∧
  NoDup ((pending σ ≫= λ t, slots (my_partition t)) ++ (snd <$> log σ)) ∧
  Forall (λ h, 0 ≤ h < m) (snd <$> log σ).

Lemma head_in_slots m p : static_ok m p → [my_head p] ⊆+ slots p.
Proof.
  intros (Hk & Hm & Hh & Hd & HP). unfold slots. rewrite Hm. rewrite seqZ_cons by lia.
  rewrite fmap_cons, Z.add_0_r, Z.mod_small by lia. apply submseteq_skip, submseteq_nil_l.
Qed.

Lemma static_step m cancel σ σ' : step cancel σ σ' → static_inv m σ → static_inv m σ'.
Proof.
  intros Hst (Hok & Hnd & Hr).
  destruct Hst as [l1 t l2 fuel ob evs array sl Hp Hc _ Ex _|l1 t l2 -> Hp]; rewrite Hp in *;
    apply Forall_app in Hok as [Hl1 [Ht Hl2]%Forall_cons]; rewrite !bind_app, !bind_cons in Hnd.
  - pose proof Ht as (Hk & _). unfold task_execute in Ex.
    destruct (match new_affinity ob with Some _ => _ | None => _ end); [|done].
    cbn [mbind option_bind] in Ex.
    unfold check_being_stolen in Ex. rewrite Hk in Ex.
    apply bind_Some in Ex as (evs0 & Ex & E1). simplify_eq. unfold execute in Ex. rewrite Hk in Ex.
    apply bind_Some in Ex as ([[r' p'] evs0] & Es & (evs' & Ew & E1)%bind_Some). simplify_eq.
    destruct (static_spread m _ _ _ _ _ _ Es Ht) as (Hp' & Hhd & Hb & Hof & Hperm).
    pose proof Hp' as (Hk' & _). unfold work_balance in Ew. rewrite Hk' in Ew. simplify_eq.
    assert (Hoff : offers (evs0 ++ [Body r']) = offers evs0)
      by (unfold offers; rewrite omap_app; apply app_nil_r).
    assert (Hbod : bodies (evs0 ++ [Body r']) = [r'])
      by (unfold bodies in *; by rewrite omap_app, Hb).
    unfold static_inv, children. simpl. rewrite Hoff, Hbod, fmap_app. simpl.
    rewrite <- Hhd. split_and!.
    + rewrite !Forall_app. split_and!; try done. apply Forall_fmap. eapply Forall_impl; [exact Hof|]. done.
    + rewrite !bind_app, list_fmap_bind. rewrite Hperm in Hnd.
      pose proof (head_in_slots m p' Hp') as (k' & Ek)%submseteq_Permutation. rewrite Ek in Hnd.
      eapply (NoDup_perm_app _ _ k'); [|exact Hnd]. unfold compose. simpl. solve_Permutation.
    + apply Forall_app. split; [done|]. constructor; [|done]. by destruct Hp' as (_ & _ & ? & _).
  - split_and!; simpl; [by apply Forall_app| |done].
    eapply (NoDup_perm_app _ _ (slots (my_partition t))); [|exact Hnd].
    rewrite bind_app. solve_Permutation.
Qed.

Lemma static_run m head (range : R) array :
  0 ≤ head < m → m < 2 ^ 16 → static_inv m (run range Static m head array).
Proof.
  intros Hh Hm. unfold run, static_inv. simpl. case_match; [|split_and!; by constructor].
  unfold get_initial_auto_partitioner_divisor. simpl.
  rewrite app_nil_r, app_nil_r. split_and!; [|..|done].
  - constructor; [|done]. unfold static_ok. simpl. rewrite (Z.mul_comm 4), Z.div_mul by lia.
    split_and!; first [done|lia].
  - unfold slots. simpl. rewrite (Z.mul_comm 4), Z.div_mul, Z.mul_1_r by lia.
    apply NoDup_fmap_2_strong; [|apply NoDup_seqZ]. intros i j Hi Hj E.
    apply elem_of_seqZ in Hi, Hj.
    assert (Hmod : ∀ k, 0 ≤ k < m → (head + k) mod m = if head + k <? m then head + k else head + k - m).
    { intros k Hk. destruct (Z.ltb_spec (head + k) m); [by apply Z.mod_small; lia|].
      rewrite <- (Z.mod_small (head + k - m) m) by lia.
      rewrite <- (Z.mod_add (head + k - m) 1 m) by lia. f_equal. lia. }
    rewrite !Hmod in E by lia.
    destruct (Z.ltb_spec (head + i) m), (Z.ltb_spec (head + j) m); lia.
Qed.

(** With the static partitioner every body call belongs to a task that was
    sent to its own slot of the arena: the slots are pairwise different, so
    there are at most as many chunks as the arena has slots. *)
Theorem static_partitioner_slots (cancel : bool) (range : R) (P head : Z) (array : list Z) (σ : state R)
    (Hh : 0 ≤ head < P) (HP : P < 2 ^ 16)
    (Hr : rtc (step cancel) (run range Static P head array) σ) :
  NoDup (snd <$> log σ) ∧ Forall (λ slot, 0 ≤ slot < P) (snd <$> log σ) ∧
  Z.of_nat (length (log σ)) ≤ P.
Proof.
  assert (Hinv : static_inv P σ).
  { assert (Hi := static_run P head range array Hh HP).
    induction Hr as [|? ? ? Hst _ IH]; [done|]. apply IH. by apply (static_step P cancel x y). }
  destruct Hinv as (_ & Hnd & Hlt). apply NoDup_app in Hnd as (_ & _ & Hnd). split_and!; [done..|].
  assert (Hsub : (snd <$> log σ) ⊆+ seqZ 0 P).
  { apply NoDup_submseteq; [done|]. intros h Hin. apply elem_of_seqZ.
    rewrite Forall_forall in Hlt. apply Hlt in Hin. lia. }
  apply submseteq_length in Hsub. rewrite length_fmap, length_seqZ in Hsub. lia.
Qed.
End static.

(** ** The simple partitioner: chunks near the grainsize *)
Section simple.
Context {R : Type} `{RangeOps R}.
Variable Q : R → Prop.
Hypothesis Q_split : ∀ r l r', Q r → Ranges.is_divisible r = true →
  split_range Split r = (l, r') → Q l ∧ Q r'.

Definition simple_inv (σ : state R) : Prop :=
  Forall (λ t, my_kind (my_partition t) = Simple ∧ Q (my_range t)) (pending σ) ∧
  Forall (λ x, Q x.1 ∧ Ranges.is_divisible x.1 = false) (log σ).

Lemma simple_execute_chunks fuel r p evs :
  simple_execute fuel r p = Some evs → my_kind p = Simple → Q r →
  Forall (λ r, Q r ∧ Ranges.is_divisible r = false) (bodies evs) ∧
  Forall (λ x, my_kind x.2 = Simple ∧ Q x.1) (offers evs).
Proof.
  intros E Hk. revert r evs E. induction fuel as [|fuel IH]; intros r evs E Hr; [done|].
  cbn [simple_execute] in E. destruct (Ranges.is_divisible r) eqn:Hd.
  - destruct (split_range Split r) as [l r'] eqn:Es. unfold split_partition in E. rewrite Hk in E.
    apply bind_Some in E as (evs0 & E & ?). simplify_eq.
    destruct (Q_split r l r' Hr Hd Es) as [Hl Hr']. destruct (IH _ _ E Hl) as [H1 H2].
    split; [done|]. by constructor.
  - simplify_eq. split; [by constructor|constructor].
Qed.

Lemma simple_step cancel σ σ' : step cancel σ σ' → simple_inv σ → simple_inv σ'.
Proof.
  intros Hst [Hp Hl]. destruct Hst as [l1 t l2 fuel ob evs array sl E Hc _ Ex _|l1 t l2 -> E];
    rewrite E in Hp; apply Forall_app in Hp as [H1 [[Hk Ht] H2]%Forall_cons].
  - unfold task_execute, check_being_stolen in Ex. rewrite Hk in Ex.
    apply bind_Some in Ex as (? & _ & (evs0 & Ex & ?)%bind_Some). simplify_eq.
    unfold execute in Ex. rewrite Hk in Ex.
    destruct (simple_execute_chunks _ _ _ _ Ex Hk Ht) as [Hb Ho]. split; simpl.
    + rewrite !Forall_app. split_and!; [done| |done]. by apply Forall_fmap.
    + apply Forall_app. split; [done|]. by apply Forall_fmap.
  - split; [|done]. by apply Forall_app.
Qed.

Lemma simple_run range P head array : Q range → simple_inv (run range Simple P head array).
Proof. intros. unfold run, simple_inv. simpl. case_match; repeat constructor; done. Qed.
End simple.

Section blocked.
Import Blocked.
Local Open Scope Z_scope.

(** With the simple partitioner every chunk of a [blocked_range] larger
    than its grainsize [G] has between [G / 2], rounded up, and [G]
    iterations. *)
Theorem simple_partitioner_chunks (cancel : bool) (range : blocked_range) (P head : Z)
    (array : list Z) (σ : state blocked_range)
    (Hv : br_valid range) (Hd : br_is_divisible range = true)
    (Hr : rtc (step cancel) (run range Simple P head array) σ) :
  Forall (λ x, (my_grainsize range + 1) / 2 ≤ size x.1 ≤ my_grainsize range) (log σ).
Proof.
  set (G := my_grainsize range).
  set (Q := λ r, br_valid r ∧ my_grainsize r = G ∧ (G + 1) / 2 ≤ size r).
  assert (HQ : ∀ r l r', Q r → Ranges.is_divisible r = true →
    split_range Split r = (l, r') → Q l ∧ Q r').
  { intros r l r' (Hrv & Hg & Hs) Hdr Es.
    destruct (br_split_spec Split r l r' I Hrv Hdr Es) as (Hl & Hr' & _ & Hgl & Hgr).
    unfold Ranges.is_divisible, blocked_range_ops, br_is_divisible in Hdr. apply Z.ltb_lt in Hdr.
    unfold Q. rewrite !size_valid in * by done. unfold split_range, blocked_range_ops, br_split, do_split in Es.
    injection Es as <- <-. simpl in *. destruct Hrv as (Hrg & Hrb & Hrw).
    rewrite !Z.quot_div_nonneg in * by lia. rewrite Hg in *.
    pose proof (Z.div_mod (G + 1) 2 ltac:(lia)). pose proof (Z.mod_pos_bound (G + 1) 2 ltac:(lia)).
    pose proof (Z.div_mod (my_end r - my_begin r) 2 ltac:(lia)).
    pose proof (Z.mod_pos_bound (my_end r - my_begin r) 2 ltac:(lia)).
    split_and!; try done; lia. }
  assert (Hinv : simple_inv Q σ).
  { assert (Hi : simple_inv Q (run range Simple P head array)).
    { apply simple_run. unfold Q. split_and!; [done..|].
      unfold br_is_divisible in Hd. apply Z.ltb_lt in Hd. fold G in Hd. destruct Hv as (? & _).
      apply Z.div_le_upper_bound; lia. }
    induction Hr as [|? ? ? Hst _ IH]; [done|]. apply IH. by apply (simple_step Q HQ cancel x y). }
  destruct Hinv as [_ Hlog]. eapply Forall_impl; [exact Hlog|]. intros [r h] [(Hrv & Hg & Hs) Hnd].
  simpl in *. unfold br_is_divisible in Hnd. apply Z.ltb_ge in Hnd. lia.
Qed.
End blocked.

(** ** Loops over integers with a step *)
Section stepped.
Import Blocked.
Local Open Scope Z_scope.

(** Conversion to a signed [Index] type of [w] bits. *)
Definition to_index (w x : Z) : Z := (x + 2 ^ (w - 1)) mod 2 ^ w - 2 ^ (w - 1).

(** [parallel_for_body_wrapper::operator()]: the values given to the function. *)
Fixpoint wrapper_loop (n : nat) (k ms : Z) : list Z :=
  match n with
  | O => []
  | S n => k :: wrapper_loop n (k + ms) ms
  end.
Definition body_wrapper (my_begin my_step : Z) (r : blocked_range) : list Z :=
  let b := Blocked.my_begin r in
  let e := my_end r in
  let ms := my_step in
  let k := my_begin + b * ms in
  wrapper_loop (Z.to_nat (e - b)) k ms.

Inductive started :=
  | NonpositiveStep
  | NoIterations
  | Started (σ : state blocked_range).

(** [parallel_for_impl]; [last - first - 1ul] is computed in [unsigned long]. *)
Definition parallel_for_impl (w first last step : Z) (k : kind) (max_concurrency head : Z)
  (array : list Z) : started :=
  if step <=? 0 then NonpositiveStep
  else if first <? last then
    let end_ := Z.quot (to_index w ((last - first - 1) mod 2 ^ 64)) step + 1 in
    Started (run (BlockedRange end_ 0 1) k max_concurrency head array)
  else NoIterations.

Definition calls (first step : Z) (σ : state blocked_range) : list Z :=
  log σ ≫= λ x, body_wrapper first step x.1.

Lemma wrapper_loop_spec n k ms : wrapper_loop n k ms = (λ i, k + i * ms) <$> seqZ 0 (Z.of_nat n).
Proof.
  revert k. induction n as [|n IH]; intros k; [done|]. cbn [wrapper_loop].
  rewrite seqZ_cons by lia. rewrite fmap_cons, Z.mul_0_l, Z.add_0_r. f_equal.
  rewrite IH. change (Z.succ 0) with (1 + 0). rewrite <- fmap_add_seqZ, <- list_fmap_compose.
  replace (Z.pred (Z.of_nat (S n))) with (Z.of_nat n) by lia.
  apply list_fmap_ext. intros. unfold compose. lia.
Qed.

Lemma body_wrapper_spec first step r :
  body_wrapper first step r = (λ i, first + i * step) <$> br_elems r.
Proof.
  unfold body_wrapper, br_elems. rewrite wrapper_loop_spec.
  destruct (decide (0 ≤ my_end r - Blocked.my_begin r)) as [Hle|Hlt].
  - rewrite Z2Nat.id by lia.
    assert (E : seqZ (Blocked.my_begin r) = seqZ (Blocked.my_begin r + 0)) by (f_equal; lia).
    rewrite E, <- fmap_add_seqZ, <- list_fmap_compose. apply list_fmap_ext.
    intros. unfold compose. lia.
  - rewrite Z2Nat.nonpos by lia. by rewrite !seqZ_nil by lia.
Qed.

Lemma calls_spec first step σ : calls first step σ = (λ i, first + i * step) <$> log_elems σ.
Proof.
  unfold calls, log_elems. induction (log σ) as [|x l IH]; [done|].
  by rewrite !bind_cons, fmap_app, IH, body_wrapper_spec.
Qed.

Lemma to_index_id w x : 1 ≤ w ≤ 64 → 0 ≤ x < 2 ^ (w - 1) → to_index w (x mod 2 ^ 64) = x.
Proof.
  intros Hw Hx. unfold to_index.
  assert (2 ^ w = 2 * 2 ^ (w - 1)) by (rewrite <- Z.pow_succ_r by lia; f_equal; lia).
  assert (2 ^ (w - 1) ≤ 2 ^ 63) by (apply Z.pow_le_mono_r; lia).
  rewrite (Z.mod_small x) by lia. rewrite Z.mod_small by lia. lia.
Qed.

(** The loop over [first, first + step, ...] below [last], for a signed
    index type of [w] bits in which [last - first] does not overflow: once no
    task is left the function has been called exactly once with each of these
    values and with nothing else. *)
Theorem parallel_for_step (w first last step_ : Z) (k : kind) (P head : Z) (array : list Z)
    (σ0 σ : state blocked_range) (Hw : 1 ≤ w ≤ 64) (Hstep : 0 < step_)
    (Hlt : first < last) (Hov : last - first < 2 ^ (w - 1))
    (Hh : 0 ≤ head < P) (HP : P < 2 ^ 16) (Ha : Z.of_nat (length array) = 16 * P)
    (H0 : parallel_for_impl w first last step_ k P head array = Started σ0)
    (Hr : rtc (step false) σ0 σ) (Hdone : pending σ = []) :
  NoDup (calls first step_ σ) ∧
  ∀ x, x ∈ calls first step_ σ ↔ first ≤ x < last ∧ (x - first) mod step_ = 0.
Proof.
  unfold parallel_for_impl in H0.
  destruct (Z.leb_spec step_ 0); [lia|]. destruct (Z.ltb_spec first last); [|lia].
  rewrite to_index_id in H0 by lia. injection H0 as <-. rewrite Z.quot_div_nonneg in Hr by lia.
  set (n := (last - first - 1) / step_ + 1) in *.
  pose proof (Z.div_mod (last - first - 1) step_ ltac:(lia)) as Edm.
  pose proof (Z.mod_pos_bound (last - first - 1) step_ ltac:(lia)).
  pose proof (Z.div_pos (last - first - 1) step_ ltac:(lia) ltac:(lia)).
  assert (n ≤ last - first) by nia.
  assert (2 ^ (w - 1) ≤ 2 ^ 63) by (apply Z.pow_le_mono_r; lia).
  assert (Hs : loop_start (BlockedRange n 0 1) k P head array).
  { split_and!; try done; try lia; simpl; unfold br_valid, br_empty; simpl; [lia..|].
    destruct (Z.ltb_spec 0 n); [done|lia]. }
  destruct (points_conserved _ _ _ _ _ _ Hs Hr) as [_ Hp]. unfold pending_elems in Hp.
  rewrite Hdone, app_nil_r in Hp. rewrite calls_spec. simpl in Hp. unfold br_elems in Hp. simpl in Hp.
  rewrite Z.sub_0_r in Hp. rewrite Hp. split.
  - apply NoDup_fmap_2_strong; [|apply NoDup_seqZ]. intros i j _ _ E. nia.
  - intros x. rewrite Hp, list_elem_of_fmap. split.
    + intros (i & -> & Hi%elem_of_seqZ). split; [nia|].
      replace (first + i * step_ - first) with (i * step_) by lia. apply Z.mod_mul. lia.
    + intros (Hx & Hm). exists ((x - first) / step_).
      pose proof (Z.div_mod (x - first) step_ ltac:(lia)) as Ex. rewrite Hm in Ex.
      split; [lia|]. apply elem_of_seqZ. split; [apply Z.div_pos; lia|]. unfold n.
      assert ((x - first) / step_ ≤ (last - first - 1) / step_) by (apply Z.div_le_mono; lia). lia.
Qed.

(** The last increment of [k] in the body wrapper computes a value that no call
    uses and that an [int] may not hold. *)
Example wrapper_increment_overflows :
  let first := 0 in let last := 2 ^ 31 - 1 in let step := 2 ^ 31 - 2 in
  ∃ σ0, parallel_for_impl 32 first last step Simple 1 0 [] = Started σ0 ∧
  ∃ r, (my_range <$> pending σ0) = [r] ∧ body_wrapper first step r = [0; 2 ^ 31 - 2] ∧
       2 ^ 31 ≤ List.last (body_wrapper first step r) 0 + step.
Proof. eexists. split; [reflexivity|]. eexists. split; [reflexivity|]. by vm_compute. Qed.
End stepped.
End ParallelFor.

Module ParallelForExamples.
Import Blocked Partition Execute ParallelFor.
Local Open Scope Z_scope.

(** Execute the first pending task, [n] times, nothing being stolen. *)
Definition quiet : observed := Observed None false [].

Fixpoint drive (n : nat) (σ : state blocked_range) : option (state blocked_range) :=
  match n, pending σ with
  | O, _ => Some σ
  | S n, [] => Some σ
  | S n, t :: ts =>
      '(evs, array) ← task_execute 200 quiet t (my_array σ);
      _ ← spawned evs array;
      drive n (State (children evs ++ ts)
        (log σ ++ ((λ r, (r, my_head (my_partition t))) <$> bodies evs)) array)
  end.

Lemma drive_steps n σ σ' : drive n σ = Some σ' → rtc (step false) σ σ'.
Proof.
  revert σ. induction n as [|n IH]; intros σ E; simpl in E; [by simplify_eq|].
  destruct (pending σ) as [|t ts] eqn:Hp; [by simplify_eq|].
  apply bind_Some in E as ([evs array] & Ex & (slots & Hs & E)%bind_Some).
  eapply rtc_l; [|by apply IH].
  eapply (step_execute false σ [] t ts 200 quiet evs array slots); try done. by intros _; constructor.
Qed.

(** Thirty-two iterations in an arena of two threads. *)
Definition range32 : blocked_range := BlockedRange 32 0 5.
Definition array2 : list Z := replicate 32 no_slot.

Lemma range32_start k : loop_start range32 k 2 0 array2.
Proof. split_and!; try done; simpl; unfold br_valid; simpl; lia. Qed.

Lemma range32_reach k σ :
  drive 40 (run range32 k 2 0 array2) = Some σ → rtc (step false) (run range32 k 2 0 array2) σ.
Proof. apply drive_steps. Qed.

Definition final (k : kind) : state blocked_range :=
  match drive 40 (run range32 k 2 0 array2) with Some σ => σ | None => run range32 k 2 0 [] end.

Lemma final_reach k : drive 40 (run range32 k 2 0 array2) ≠ None →
  rtc (step false) (run range32 k 2 0 array2) (final k).
Proof. unfold final. intros Hn. destruct (drive _ _) eqn:E; [|done]. by apply drive_steps with 40%nat. Qed.

Lemma final_drive k : drive 40 (run range32 k 2 0 array2) ≠ None.
Proof. destruct k; by vm_compute. Qed.

Lemma parallel_for_exactly_once_witness :
  log_elems (final Auto) ≡ₚ elems range32 ∧ log_elems (final Affinity) ≡ₚ elems range32.
Proof.
  pose proof (parallel_for_exactly_once range32 Auto 2 0 array2 (final Auto)
    (range32_start Auto) (final_reach Auto (final_drive Auto))) as (_ & H1 & _).
  pose proof (parallel_for_exactly_once range32 Affinity 2 0 array2 (final Affinity)
    (range32_start Affinity) (final_reach Affinity (final_drive Affinity))) as (_ & H2 & _).
  split; [apply H1|apply H2]; by vm_compute.
Defined.

Lemma step_weaken (σ σ' : state blocked_range) : step false σ σ' → step true σ σ'.
Proof. destruct 1; [|done]. by eapply step_execute. Qed.

Lemma parallel_for_terminates_witness : log_elems (final Auto) ⊆+ elems range32.
Proof.
  pose proof (parallel_for_terminates range32 Auto 2 0 array2 (range32_start Auto)) as [_ H].
  apply H. eapply rtc_subrel; [exact step_weaken|]. exact (final_reach Auto (final_drive Auto)).
Defined.

Lemma static_partitioner_slots_witness :
  log (final Static) = [(BlockedRange 16 0 5, 0); (BlockedRange 32 16 5, 1)] ∧
  NoDup (snd <$> log (final Static)).
Proof.
  pose proof (static_partitioner_slots false range32 2 0 array2 (final Static)
    ltac:(lia) ltac:(lia) (final_reach Static (final_drive Static))) as [H _].
  split; [by vm_compute|exact H].
Defined.

Lemma simple_partitioner_chunks_witness :
  Forall (λ x, 3 ≤ size x.1 ≤ 5) (log (final Simple)) ∧ length (log (final Simple)) = 8%nat.
Proof.
  pose proof (simple_partitioner_chunks false range32 2 0 array2 (final Simple)
    ltac:(unfold br_valid; simpl; lia) ltac:(by vm_compute)
    (final_reach Simple (final_drive Simple))) as H.
  split; [exact H|by vm_compute].
Defined.

(** The loop over 3, 7, ..., 27 with an [int] index. *)
Definition stepped_start : state blocked_range := run (BlockedRange 7 0 1) Simple 2 0 array2.
Definition stepped_final : state blocked_range :=
  match drive 40 stepped_start with Some σ => σ | None => stepped_start end.

Lemma parallel_for_step_witness : NoDup (calls 3 4 stepped_final) ∧ 27 ∈ calls 3 4 stepped_final.
Proof.
  assert (Hr : rtc (step false) stepped_start stepped_final).
  { apply drive_steps with 40%nat. by vm_compute. }
  pose proof (parallel_for_step 32 3 28 4 Simple 2 0 array2 stepped_start stepped_final
    ltac:(lia) ltac:(lia) ltac:(lia) ltac:(lia) ltac:(lia) ltac:(lia) ltac:(done)
    ltac:(by vm_compute) Hr ltac:(by vm_compute)) as [H1 H2].
  split; [exact H1|]. apply H2. split; [lia|done].
Defined.
End ParallelForExamples.
