(* ===== verification/ParallelReduce.v ===== *)
(** * parallel_reduce and parallel_deterministic_reduce

    The tasks of a reduction, the tree nodes that join their results and the
    lazily split bodies.  Source: include/oneapi/tbb/parallel_reduce.h, with
    [fold_tree] of partitioner.h and the task loops of [Partitioner].

    The nodes of a reduction form a binary tree, and a body is either the one
    that the left side of a node uses or the one in the node's own zombie
    space.  So the state is a tree with the zombie bodies in its nodes, and the
    body that the whole tree contributes to.  A node whose left side is [Done]
    has its reference count down to one. *)

From S2P Require Import Prelude Ranges Partitioner.
From stdpp Require Import base numbers relations list.
From Stdlib Require Import ZArith Lia.

Module Reduce.
Import Partition Execute.

(** The requirements on a body, and [lambda_reduce_body]. *)
Record body (R B : Type) := MkBody {
  apply : R → B → B;             (* operator()(range) *)
  split_body : B → B;            (* Body(other, split) *)
  join : B → B → B;              (* join(rhs) *)
}.
Arguments MkBody {R B}.
Arguments apply {R B}.
Arguments split_body {R B}.
Arguments join {R B}.

Definition lambda_reduce_body {R V} (identity : V) (real_body : R → V → V) (reduction : V → V → V)
  : body R V :=
  MkBody real_body (λ _, identity) reduction.

Section reduce.
Context {R B : Type} `{RangeOps R} (Body_ : body R B).

(** What a task is going to do from [execute] on. *)
Definition starts (r : R) (p : partition) (evs : list (event R)) : Prop :=
  ∃ fuel concurrent o p' b,
    check_being_stolen concurrent p = (p', b) ∧ not_cancelled o ∧
    execute fuel r p' o = Some evs.

(** A task that is spawned, a task that runs, a subtree that is finished, and a
    [reduction_tree_node] with the body in its zombie space, if there is one. *)
Inductive tree :=
  | Spawned (r : R) (p : partition)
  | Running (evs : list (event R))
  | Done
  | Node (left right : tree) (zombie : option B).

Definition started (t : tree) : Prop := match t with Spawned _ _ => False | _ => True end.

(** The steps of [start_reduce]: the body that the subtree contributes to and
    the subtree. *)
Inductive step : B * tree → B * tree → Prop :=
  | step_run v r evs :                                          (* run_body *)
      step (v, Running (Body r :: evs)) (apply Body_ r v, Running evs)
  | step_offer v r p evs :                                      (* offer_work *)
      step (v, Running (Offer r p :: evs)) (v, Node (Running evs) (Spawned r p) None)
  | step_finish v :                                             (* finalize *)
      step (v, Running []) (v, Done)
  | step_start_split v l r p evs :           (* execute, m_ref_count == 2 *)
      l ≠ Done → starts r p evs →
      step (v, Node l (Spawned r p) None) (v, Node l (Running evs) (Some (split_body Body_ v)))
  | step_start_shared v r p evs :            (* execute, the left side is finished *)
      starts r p evs →
      step (v, Node Done (Spawned r p) None) (v, Node Done (Running evs) None)
  | step_left v v' l l' r z :
      step (v, l) (v', l') → step (v, Node l r z) (v', Node l' r z)
  | step_right_zombie v z z' l r r' :
      step (z, r) (z', r') → step (v, Node l r (Some z)) (v, Node l r' (Some z'))
  | step_right_shared v v' l r r' :
      started r → step (v, r) (v', r') → step (v, Node l r None) (v', Node l r' None)
  | step_join v z :                          (* reduction_tree_node::join *)
      step (v, Node Done Done (Some z)) (join Body_ v z, Done)
  | step_join_shared v :
      step (v, Node Done Done None) (v, Done).

(** The steps of [start_deterministic_reduce]: the node gets the split body
    when it is made. *)
Inductive det_step : B * tree → B * tree → Prop :=
  | det_run v r evs :
      det_step (v, Running (Body r :: evs)) (apply Body_ r v, Running evs)
  | det_offer v r p evs :
      det_step (v, Running (Offer r p :: evs))
        (v, Node (Running evs) (Spawned r p) (Some (split_body Body_ v)))
  | det_finish v :
      det_step (v, Running []) (v, Done)
  | det_start v l r p evs z :
      starts r p evs → det_step (v, Node l (Spawned r p) z) (v, Node l (Running evs) z)
  | det_left v v' l l' r z :
      det_step (v, l) (v', l') → det_step (v, Node l r z) (v', Node l' r z)
  | det_right v z z' l r r' :
      det_step (z, r) (z', r') → det_step (v, Node l r (Some z)) (v, Node l r' (Some z'))
  | det_join v z :
      det_step (v, Node Done Done (Some z)) (join Body_ v z, Done).
End reduce.
Arguments tree : clear implicits.

(** What a reduction relies on: the results form a monoid, applying a body
    appends the result of a range, a split body starts from the identity and a
    join appends the result of its argument. *)
Class ReduceLaws {R E B M : Type} `{RangeLaws R E} (Body_ : body R B)
    (val : B → M) (op : M → M → M) (unit : M) (inj : E → M) := {
  op_assoc x y z : op x (op y z) = op (op x y) z;
  op_unit_l x : op unit x = x;
  op_unit_r x : op x unit = x;
  val_apply r b : valid r → val (apply Body_ r b) = op (val b) (foldr (λ x, op (inj x)) unit (elems r));
  val_split b : val (split_body Body_ b) = unit;
  val_join a b : val (join Body_ a b) = op (val a) (val b);
}.

Section laws.
Context {R E B M : Type} `{OrderedRange R E} (Body_ : body R B).
Context (val : B → M) (op : M → M → M) (unit : M) (inj : E → M).
Context `{!ReduceLaws Body_ val op unit inj}.
Implicit Types (t l : tree R B).
Local Infix "•" := op (at level 50, left associativity).

Lemma opA x y z : x • (y • z) = x • y • z.
Proof. apply (op_assoc (Body_ := Body_)). Qed.
Lemma op1 x : unit • x = x.
Proof. apply (op_unit_l (Body_ := Body_)). Qed.
Lemma op0 x : x • unit = x.
Proof. apply (op_unit_r (Body_ := Body_)). Qed.

(** The sequential reduction. *)
Definition reduce (xs : list E) : M := foldr (λ x, op (inj x)) unit xs.

Lemma reduce_app xs ys : reduce (xs ++ ys) = reduce xs • reduce ys.
Proof.
  unfold reduce. induction xs as [|x xs IH]; simpl; [by rewrite op1|].
  by rewrite IH, opA.
Qed.

Definition script_elems (evs : list (event R)) : list E := pieces evs ≫= elems.

Definition script_ok (evs : list (event R)) : Prop :=
  Forall valid (pieces evs) ∧ Forall (λ x, part_ok x.2) (offers evs).

Lemma starts_ok r p evs :
  valid r → part_ok p → starts r p evs →
  script_ok evs ∧ script_elems evs = elems r ∧ bodies evs ≠ [].
Proof.
  intros Hr Hp (fuel & c & o & p' & b & Es & Hn & Ex). apply stolen_ok in Es as [Hp' _]; [|done].
  destruct (execute_inv _ _ _ _ _ Hr Hp' Ex) as (rest & [Hsp Hof] & Hne & Hrest).
  rewrite (Hrest Hn) in *. rewrite app_nil_r in Hne. simpl in Hsp.
  assert (Hv : Forall valid [r]) by (by constructor).
  destruct (splits_elems _ _ Hsp Hv) as [Hvs _]. split_and!; [by split| |done].
  unfold script_elems, pieces. rewrite <- (splits_elems_ordered _ _ Hsp Hv).
  by rewrite bind_cons, app_nil_r.
Qed.

Lemma starts_exist r p : valid r → part_ok p → ∃ evs, starts r p evs.
Proof.
  intros Hr Hp. destruct (check_being_stolen false p) as [p' b] eqn:Es.
  pose proof (stolen_ok _ _ _ _ Hp Es) as [Hp' _].
  destruct (execute_spec (4 * length (elems r)) r p' [] Hr Hp') as (evs & _ & Ex & _); [done|].
  exists evs, (4 * length (elems r)), false, [], p', b. split_and!; [done|by constructor|done].
Qed.

Fixpoint wf t : Prop :=
  match t with
  | Spawned r p => valid r ∧ part_ok p
  | Running evs => script_ok evs
  | Done => True
  | Node l r z =>
      wf l ∧ wf r ∧ started l ∧ (z = None → started r → l = Done) ∧ (z = None ∨ started r)
  end.

(** What a subtree will still append to its body. *)
Fixpoint contrib t : M :=
  match t with
  | Spawned r _ => reduce (elems r)
  | Running evs => reduce (script_elems evs)
  | Done => unit
  | Node l r z =>
      contrib l • (match z with Some b => val b • contrib r | None => contrib r end)
  end.

Lemma script_body r evs :
  script_ok (Body r :: evs) → valid r ∧ script_ok evs ∧
  script_elems (Body r :: evs) = elems r ++ script_elems evs.
Proof. intros [[Hr Hv]%Forall_cons Ho]. by split_and!. Qed.

Lemma script_offer r p evs :
  script_ok (Offer r p :: evs) → valid r ∧ part_ok p ∧ script_ok evs ∧
  script_elems (Offer r p :: evs) = script_elems evs ++ elems r.
Proof.
  intros [Hv [Hp Ho]%Forall_cons]. unfold script_elems, script_ok, pieces in *.
  cbn [bodies offers omap list_omap fmap list_fmap fst] in *.
  rewrite reverse_cons, app_assoc in *. apply Forall_app in Hv as [Hv [Hr _]%Forall_cons].
  split_and!; try done. by rewrite bind_app, bind_cons, app_nil_r.
Qed.

(** Every step preserves what the body will have in the end. *)
Lemma step_contrib s s' :
  step Body_ s s' → wf s.2 → started s.2 →
  wf s'.2 ∧ started s'.2 ∧ val s'.1 • contrib s'.2 = val s.1 • contrib s.2.
Proof.
  induction 1 as [v r evs|v r p evs|v|v l r p evs Hl Hs|v r p evs Hs|v0 v1 l l' r z Hst IH
    |v0 z z' l r r' Hst IH|v0 v1 l r r' Hsr Hst IH|v z|v]; simpl in *; intros Hwf Hst0.
  - apply script_body in Hwf as (Hr & Hok & Hel). split_and!; try done; try (by left); try (by right).
    by rewrite (val_apply (Body_ := Body_)), Hel, reduce_app, opA by done.
  - apply script_offer in Hwf as (Hr & Hp & Hok & Hel). split_and!; try done; try (by left); try (by right).
    by rewrite Hel, reduce_app.
  - split_and!; try done; try (by left); try (by right).
  - destruct Hwf as (Hwl & [Hr Hp] & Hsl & Hz & _). destruct (starts_ok _ _ _ Hr Hp Hs) as (Hok & Hel & _).
    split_and!; try done; try (by left); try (by right). by rewrite (val_split (Body_ := Body_)), op1, Hel.
  - destruct Hwf as (Hwl & [Hr Hp] & Hsl & Hz & _). destruct (starts_ok _ _ _ Hr Hp Hs) as (Hok & Hel & _).
    split_and!; try done; try (by left); try (by right). by rewrite Hel.
  - destruct Hwf as (Hwl & Hwr & Hsl & Hz & Hzs). destruct (IH Hwl Hsl) as (Hwl' & Hsl' & Hc).
    split_and!; try done; try (by left); try (by right).
    + intros -> Hsr. rewrite (Hz eq_refl Hsr) in Hst. inversion Hst.
    + by rewrite !opA, Hc.
  - destruct Hwf as (Hwl & Hwr & Hsl & Hz & Hzs).
    assert (Hsr : started r) by (destruct r; try done; inversion Hst).
    destruct (IH Hwr Hsr) as (Hwr' & Hsr' & Hc). split_and!; try done; try (by left); try (by right).
    by rewrite Hc.
  - destruct Hwf as (Hwl & Hwr & Hsl & Hz & Hzs). rewrite (Hz eq_refl Hsr) in *. simpl.
    destruct (IH Hwr Hsr) as (Hwr' & Hsr' & Hc). split_and!; try done; try (by left); try (by right).
    by rewrite !op1.
  - split_and!; try done; try (by left); try (by right). by rewrite (val_join (Body_ := Body_)), !op0, op1.
  - split_and!; try done; try (by left); try (by right). by rewrite op1.
Qed.

(** Every step uses up some of this. *)
Definition task_weight (r : R) : nat := 6 * length (elems r) - 2.
Definition event_weight (e : event R) : nat :=
  match e with Body _ => 1 | Offer r _ => task_weight r + 2 end.
Definition events_weight (evs : list (event R)) : nat :=
  foldr (λ e n, event_weight e + n) 0 evs.
Fixpoint weight t : nat :=
  match t with
  | Spawned r _ => task_weight r
  | Running evs => 1 + events_weight evs
  | Done => 0
  | Node l r _ => 1 + weight l + weight r
  end.

Lemma script_weight evs :
  script_ok evs →
  events_weight evs + 5 * length (bodies evs ≫= elems) ≤ 6 * length (script_elems evs).
Proof.
  induction evs as [|[r|r p] evs IH]; intros Hok; [done|..].
  - apply script_body in Hok as (Hr & Hok & ->). specialize (IH Hok).
    cbn [events_weight foldr event_weight bodies omap list_omap].
    fold (bodies evs) (events_weight evs). rewrite bind_cons, !length_app.
    pose proof (elems_length r Hr). lia.
  - apply script_offer in Hok as (Hr & Hp & Hok & ->). specialize (IH Hok).
    cbn [events_weight foldr event_weight bodies omap list_omap].
    fold (bodies evs) (events_weight evs). rewrite !length_app.
    pose proof (elems_length r Hr). unfold task_weight. lia.
Qed.

Lemma starts_weight r p evs (b : option B) :
  valid r → part_ok p → starts r p evs → weight (Running evs) < task_weight r.
Proof.
  intros Hr Hp Hs. destruct (starts_ok r p evs Hr Hp Hs) as (Hok & Hel & Hne).
  pose proof (script_weight evs Hok) as Hw. rewrite Hel in Hw. cbn [weight]. unfold task_weight.
  assert (0 < length (bodies evs ≫= elems)); [|lia].
  destruct Hok as [Hv _]. apply Forall_app in Hv as [Hv _].
  destruct (bodies evs) as [|x xs]; [done|]. apply Forall_cons in Hv as [Hx _].
  rewrite bind_cons, length_app. pose proof (elems_length x Hx). lia.
Qed.

Lemma step_weight s s' : step Body_ s s' → wf s.2 → weight s'.2 < weight s.2.
Proof.
  induction 1 as [v r evs|v r p evs|v|v l r p evs Hl Hs|v r p evs Hs|v0 v1 l l' r z Hst IH
    |v0 z z' l r r' Hst IH|v0 v1 l r r' Hsr Hst IH|v z|v]; cbn [snd] in *; intros Hwf;
    try (cbn [weight]; unfold events_weight; cbn [foldr event_weight]; lia).
  - cbn [wf] in Hwf. destruct Hwf as (_ & [Hr Hp] & _). pose proof (starts_weight _ _ _ None Hr Hp Hs).
    cbn [weight] in *. lia.
  - cbn [wf] in Hwf. destruct Hwf as (_ & [Hr Hp] & _). pose proof (starts_weight _ _ _ None Hr Hp Hs).
    cbn [weight] in *. lia.
  - destruct Hwf as (Hwl & _). specialize (IH Hwl). cbn [weight]. lia.
  - destruct Hwf as (_ & Hwr & _). specialize (IH Hwr). cbn [weight]. lia.
  - destruct Hwf as (_ & Hwr & _). specialize (IH Hwr). cbn [weight]. lia.
Qed.

Lemma reduce_progress t v : wf t → started t → t ≠ Done → ∃ s, step Body_ (v, t) s.
Proof.
  revert v. induction t as [r p|evs| |l IHl r IHr z]; intros v Hwf Hs Hne; try done.
  - destruct evs as [|[r|r p] evs]; eexists; constructor.
  - destruct Hwf as (Hwl & Hwr & Hsl & Hz & Hzs).
    destruct (decide (weight l = 0)) as [Hl|Hl].
    2:{ destruct (IHl v Hwl Hsl) as [[v' l'] Hst]; [by intros ->|]. eexists. by apply step_left. }
    assert (l = Done) as -> by (destruct l; simpl in *; try done; lia).
    destruct r as [r p|evs| |rl rr rz].
    + destruct (starts_exist r p) as [evs Hev]; [by destruct Hwr..|].
      destruct Hzs as [->|[]]. eexists. by apply step_start_shared.
    + destruct (IHr (match z with Some b => b | None => v end) Hwr I) as [[v' r'] Hst]; [done|].
      destruct z; eexists; [by apply step_right_zombie|by apply step_right_shared].
    + destruct z; eexists; [apply step_join|apply step_join_shared].
    + destruct (IHr (match z with Some b => b | None => v end) Hwr I) as [[v' r'] Hst]; [done|].
      destruct z; eexists; [by apply step_right_zombie|by apply step_right_shared].
Qed.

Lemma steps_contrib s s' :
  rtc (step Body_) s s' → wf s.2 → started s.2 →
  wf s'.2 ∧ started s'.2 ∧ val s'.1 • contrib s'.2 = val s.1 • contrib s.2.
Proof.
  induction 1 as [|s s1 s2 Hst _ IH]; [done|]. intros Hwf Hs.
  destruct (step_contrib _ _ Hst Hwf Hs) as (Hwf1 & Hs1 & E1).
  destruct (IH Hwf1 Hs1) as (Hwf2 & Hs2 & E2). split_and!; [done..|]. by rewrite E2.
Qed.

(** C1: [parallel_reduce] with any partitioner computes the sequential
    reduction of its range, in the order of the range, for every associative
    operation: however the tasks are scheduled and stolen, and whether a right
    child gets its own split body or continues with the body of its finished
    left sibling, the body of the caller has in the end its initial value
    followed by the values of all the elements in order. *)
Theorem parallel_reduce_correct (range : R) (p : partition) (evs : list (event R)) (v v' : B)
    (t : tree R B) (Hr : valid range) (Hp : part_ok p) (Hs : starts range p evs)
    (Hst : rtc (step Body_) (v, Running evs) (v', t)) :
  val v' • contrib t = val v • reduce (elems range) ∧
  (t = Done → val v' = val v • reduce (elems range)).
Proof.
  destruct (starts_ok range p evs Hr Hp Hs) as (Hok & Hel & _).
  destruct (steps_contrib _ _ Hst Hok I) as (_ & _ & Heq). simpl in Heq. rewrite Hel in Heq.
  split; [done|]. intros ->. by rewrite <- Heq, op0.
Qed.

(** A reduction finishes: it takes at most a number of steps linear in the
    size of the range, and while the tree is not finished a step is possible,
    so that every execution reaches the state in which all tasks are done and
    all bodies joined. *)
Theorem parallel_reduce_terminates (range : R) (p : partition) (evs : list (event R)) (v : B)
    (Hr : valid range) (Hp : part_ok p) (Hs : starts range p evs) :
  (∀ n s, nsteps (step Body_) n (v, Running evs) s → n ≤ 6 * length (elems range)) ∧
  (∀ s, rtc (step Body_) (v, Running evs) s → nf (step Body_) s → s.2 = Done).
Proof.
  destruct (starts_ok range p evs Hr Hp Hs) as (Hok & _).
  pose proof (starts_weight range p evs None Hr Hp Hs) as Hw. unfold task_weight in Hw. split.
  - assert (Hn : ∀ n s s', nsteps (step Body_) n s s' → wf s.2 → started s.2 → n ≤ weight s.2).
    { induction 1 as [|n s s1 s2 Hst _ IH]; intros Hwf Hs0; [lia|].
      destruct (step_contrib _ _ Hst Hwf Hs0) as (Hwf1 & Hs1 & _).
      pose proof (step_weight _ _ Hst Hwf). specialize (IH Hwf1 Hs1). lia. }
    intros n s Hst. specialize (Hn _ _ _ Hst Hok I). cbn [snd] in Hn. lia.
  - intros [v' t] Hst Hnf. destruct (steps_contrib _ _ Hst Hok I) as (Hwf & Hs' & _).
    cbn [snd] in *. destruct (decide (weight t = 0)) as [E0|E0].
    + destruct t; simpl in *; try done; lia.
    + exfalso. apply Hnf. destruct (reduce_progress t v' Hwf Hs') as [s Hs1]; [by intros ->|].
      by exists s.
Qed.
End laws.

(** ** The history of a body

    For a body that changes memory outside of itself: what was applied to which
    range and joined with what. *)
Section trace.
Context {R E : Type} `{OrderedRange R E}.

Inductive trace :=
  | TStart
  | TApply (t : trace) (r : R)
  | TJoin (t t' : trace).
Definition trace_body : body R trace := MkBody (λ r t, TApply t r) (λ _, TStart) TJoin.

Fixpoint trace_elems (t : trace) : list E :=
  match t with
  | TStart => []
  | TApply t r => trace_elems t ++ elems r
  | TJoin t t' => trace_elems t ++ trace_elems t'
  end.

#[local] Instance trace_laws : ReduceLaws trace_body trace_elems (++) [] (λ x, [x]).
Proof.
  constructor; try done; [apply app_assoc|apply app_nil_r|].
  intros r t _. simpl. f_equal. by induction (elems r) as [|x l IH]; simpl; [|f_equal].
Qed.

(** Only bodies that have been applied are joined. *)
Fixpoint trace_ok (t : trace) : Prop :=
  match t with
  | TStart => True
  | TApply t r => trace_ok t ∧ valid r
  | TJoin t t' => trace_ok t ∧ trace_ok t' ∧ trace_elems t ≠ [] ∧ trace_elems t' ≠ []
  end.

Local Abbreviation contrib := (contrib trace_elems (++) [] (λ x, [x])).

(** Both sides of a node with two bodies are going to have elements. *)
Fixpoint fed (t : trace) (tr : tree R trace) : Prop :=
  match tr with
  | Spawned _ _ | Done => True
  | Running evs => evs = [] ∨ ends_body evs
  | Node l r z =>
      trace_elems t ++ contrib l ≠ [] ∧ fed t l ∧
      match z with Some b => trace_ok b ∧ trace_elems b ++ contrib r ≠ [] ∧ fed b r | None => fed t r end
  end.

Lemma elems_reduce (l : list E) : reduce (++) [] (λ x, [x]) l = l.
Proof. unfold reduce. by induction l as [|x l IH]; simpl; [|f_equal]. Qed.

Lemma running_nonempty evs : script_ok evs → ends_body evs → contrib (Running evs) ≠ [].
Proof.
  intros [Hv _] (evs' & r & ->). simpl. rewrite elems_reduce. unfold script_elems, pieces, bodies in *. rewrite omap_app in *.
  simpl in *. rewrite !Forall_app, Forall_singleton in Hv. destruct Hv as [[_ Hr] _].
  rewrite !bind_app. simpl. pose proof (valid_nonempty r Hr). destruct (elems r); [done|].
  rewrite app_nil_r. intros E0. apply app_nil in E0 as [E0 _]. by apply app_nil in E0 as [_ ?].
Qed.

Lemma starts_fed r p evs : starts r p evs → ends_body evs.
Proof. intros (fuel & c & o & p' & b & _ & Hn & Ex). by eapply execute_ends. Qed.

Lemma ends_body_tail e (evs : list (event R)) : ends_body (e :: evs) → evs = [] ∨ ends_body evs.
Proof. intros ([|e' evs'] & r & Heq); simplify_eq/=; [by left|right]. by exists evs', r. Qed.

Lemma ends_body_offer r p (evs : list (event R)) : ends_body (Offer r p :: evs) → ends_body evs.
Proof. intros ([|e' evs'] & x & Heq); simplify_eq/=. by exists evs', x. Qed.

(** A body does not lose elements. *)
Lemma step_nonempty s s' : step trace_body s s' → trace_elems s.1 ≠ [] → trace_elems s'.1 ≠ [].
Proof. induction 1; cbn [fst] in *; try done; intros Hne; simpl; intros [? _]%app_nil; done. Qed.

Lemma step_fed s s' :
  step trace_body s s' → wf s.2 → started s.2 → trace_ok s.1 → fed s.1 s.2 → trace_ok s'.1 ∧ fed s'.1 s'.2.
Proof.
  induction 1 as [v r evs|v r p evs|v|v l r p evs Hl Hs|v r p evs Hs|v0 v1 l l' r z Hst IH
    |v0 z z' l r r' Hst IH|v0 v1 l r r' Hsr Hst IH|v z|v]; cbn [fst snd] in *; intros Hwf Hst0 Hok Hf.
  - apply script_body in Hwf as (Hr & _ & _). destruct Hf as [|Hf%ends_body_tail]; [done|]. by split.
  - apply script_offer in Hwf as (Hr & Hp & Hwf & _). destruct Hf as [|Hf%ends_body_offer]; [done|].
    split; [done|]. cbn [fed]. split_and!; auto. intros [_ ?]%app_nil. by eapply running_nonempty.
  - by split.
  - destruct Hwf as (_ & [Hr Hp] & _). destruct Hf as (F1 & F2 & _). split; [done|]. simpl. split_and!; auto.
    + pose proof (starts_ok r p evs Hr Hp Hs) as (Hok' & _). apply (running_nonempty evs Hok'). by eapply starts_fed.
    + right. by eapply starts_fed.
  - destruct Hf as (F1 & F2 & _). split; [done|]. simpl. split_and!; auto. right. by eapply starts_fed.
  - destruct Hwf as (Hwl & Hwr & Hsl & Hz & Hzs). destruct Hf as (F1 & F2 & F3).
    destruct (IH Hwl Hsl Hok F2) as [Hok' Hf']. split; [done|]. cbn [fed]. split_and!; [|done|].
    + destruct (step_contrib _ trace_elems (++) [] (λ x, [x]) _ _ Hst Hwl Hsl) as (_ & _ & E0). cbn [fst snd] in E0. by rewrite E0.
    + destruct z as [b|]; [done|]. destruct r; try done; rewrite (Hz eq_refl I) in Hst; inversion Hst.
  - destruct Hwf as (Hwl & Hwr & Hsl & Hz & Hzs). destruct Hf as (F1 & F2 & Hz1 & Hz2 & Hz3).
    assert (Hsr : started r) by (destruct r; try done; inversion Hst).
    destruct (IH Hwr Hsr Hz1 Hz3) as [Hok' Hf']. split; [done|]. cbn [fed]. split_and!; try done.
    destruct (step_contrib _ trace_elems (++) [] (λ x, [x]) _ _ Hst Hwr Hsr) as (_ & _ & E0). cbn [fst snd] in E0. by rewrite E0.
  - destruct Hwf as (Hwl & Hwr & Hsl & Hz & Hzs). rewrite (Hz eq_refl Hsr) in *. destruct Hf as (F1 & F2 & F3).
    destruct (IH Hwr Hsr Hok F3) as [Hok' Hf']. split; [done|]. cbn [fed]. split_and!; try done.
    simpl in *. rewrite app_nil_r in *. by apply (step_nonempty _ _ Hst).
  - destruct Hf as (F1 & F2 & Hz1 & Hz2 & Hz3). simpl in *. rewrite !app_nil_r in *. by split_and!.
  - by split.
Qed.

(** Every execution of a reduction gives a history of this kind, over the whole
    range in its order. *)
Lemma reduce_trace range p evs t :
  valid range → part_ok p → starts range p evs → rtc (step trace_body) (TStart, Running evs) (t, Done) →
  trace_ok t ∧ trace_elems t = elems range.
Proof.
  intros Hr Hp Hs Hst. destruct (starts_ok range p evs Hr Hp Hs) as (Hok & Hel & _).
  assert (Hinv : ∀ s s', rtc (step trace_body) s s' → wf s.2 → started s.2 → trace_ok s.1 → fed s.1 s.2 → trace_ok s'.1).
  { induction 1 as [|s s1 s2 Hst1 _ IH]; [done|]. intros Hwf Hst0 Hok0 Hf.
    destruct (step_fed _ _ Hst1 Hwf Hst0 Hok0 Hf) as [Hok1 Hf1].
    destruct (step_contrib _ trace_elems (++) [] (λ x, [x]) _ _ Hst1 Hwf Hst0) as (Hwf1 & Hs1 & _). auto. }
  split; [eapply (Hinv _ _ Hst); try done; right; by eapply starts_fed|].
  destruct (steps_contrib _ trace_elems (++) [] (λ x, [x]) _ _ Hst Hok I) as (_ & _ & Heq). cbn [fst snd] in Heq.
  simpl in Heq. by rewrite app_nil_r, elems_reduce, Hel in Heq.
Qed.
End trace.
Arguments trace : clear implicits.

(** ** Deterministic reduction *)
Section deterministic.
Context {R B : Type} `{RangeOps R} (Body_ : body R B).
Implicit Types (t l : tree R B).

(** The partitioners that [parallel_deterministic_reduce] accepts. *)
Definition fixed_kind (p : partition) : Prop := my_kind p = Simple ∨ my_kind p = Static.

Lemma starts_fixed (r : R) p evs :
  fixed_kind p → starts r p evs → ∃ fuel, execute fuel r p [] = Some evs.
Proof.
  intros Hk (fuel & c & o & p' & b & Es & _ & Ex). exists fuel.
  assert (p' = p) as -> by (unfold check_being_stolen in Es; destruct Hk as [Hk|Hk];
    rewrite Hk in Es; by simplify_eq).
  unfold execute in *. destruct Hk as [Hk|Hk]; rewrite Hk in *; [done|].
  apply bind_Some in Ex as ([[r' p'] evs1] & Esp & (evs2 & Ew & E)%bind_Some).
  rewrite Esp. opt_simpl. pose proof (spread_inherits _ _ _ _ _ _ Esp) as [[Hk' _] _].
  unfold work_balance in *. rewrite Hk', Hk in *. by simplify_eq.
Qed.

Lemma starts_unique (r : R) p evs evs' :
  fixed_kind p → starts r p evs → starts r p evs' → evs = evs'.
Proof.
  intros Hk Hs Hs'. apply starts_fixed in Hs as [f E]; [|done]. apply starts_fixed in Hs' as [f' E']; [|done].
  apply (execute_fuel _ (f + f')) in E, E'; [|lia..]. rewrite E in E'. by simplify_eq.
Qed.

Lemma starts_inherit (r : R) p evs :
  fixed_kind p → starts r p evs → Forall (λ x, fixed_kind x.2) (offers evs).
Proof.
  intros Hk Hs. apply starts_fixed in Hs as [f E]; [|done]. apply execute_inherits in E.
  eapply Forall_impl; [exact E|]. intros [r' p'] [Hk' _]. unfold fixed_kind in *. simpl in *.
  by rewrite Hk'.
Qed.

Fixpoint fixed t : Prop :=
  match t with
  | Spawned _ p => fixed_kind p
  | Running evs => Forall (λ x, fixed_kind x.2) (offers evs)
  | Done => True
  | Node l r z => fixed l ∧ fixed r
  end.

(** The value of a subtree, from its structure alone. *)
Inductive eval : tree R B → B → B → Prop :=
  | eval_spawned r p evs v x :
      starts r p evs → eval (Running evs) v x → eval (Spawned r p) v x
  | eval_nil v : eval (Running []) v v
  | eval_body r evs v x :
      eval (Running evs) (apply Body_ r v) x → eval (Running (Body r :: evs)) v x
  | eval_offer r p evs v x y :
      eval (Running evs) v x → eval (Spawned r p) (split_body Body_ v) y →
      eval (Running (Offer r p :: evs)) v (join Body_ x y)
  | eval_done v : eval Done v v
  | eval_node l r z v x y :
      eval l v x → eval r z y → eval (Node l r (Some z)) v (join Body_ x y).

Lemma eval_unique t v x y : eval t v x → eval t v y → fixed t → x = y.
Proof.
  intros Hx. revert y. induction Hx as [r p evs v x Hs Hx IH|v|r evs v x Hx IH
    |r p evs v x1 x2 Hx IH1 Hy IH2|v|l r z v x1 x2 Hx IH1 Hy IH2]; intros y Hev Hf;
    inversion Hev; simplify_eq; try done.
  - match goal with Hs' : starts r p ?e |- _ => pose proof (starts_unique r p evs e Hf Hs Hs') as <- end.
    apply IH; [done|]. by eapply starts_inherit.
  - by apply IH.
  - apply Forall_cons in Hf as [Hp Hf]. f_equal; auto.
  - destruct Hf. f_equal; auto.
Qed.

Lemma det_step_eval s s' x : det_step Body_ s s' → eval s'.2 s'.1 x → eval s.2 s.1 x.
Proof.
  intros Hst. revert x. induction Hst as [| | |v l r p evs z Hs|v v' l l' r z Hst IH|v z z' l r r' Hst IH|];
    intros x Hev; simpl in *.
  - by constructor.
  - inversion Hev; simplify_eq. by constructor.
  - inversion Hev; simplify_eq. constructor.
  - inversion Hev; simplify_eq. constructor; [done|]. by apply eval_spawned with evs.
  - inversion Hev; simplify_eq. constructor; [by apply IH|done].
  - inversion Hev; simplify_eq. constructor; [done|by apply IH].
  - inversion Hev; simplify_eq. constructor; constructor.
Qed.

(** The result of [parallel_deterministic_reduce] is the same in every
    execution, for any body, associative or not: it depends only on the range,
    the partitioner and the initial body, not on the order in which tasks run,
    on stealing or on the number of threads that take part. *)
Theorem deterministic_reduce_deterministic (range : R) (p : partition) (v x y : B)
    (evs evs' : list (event R)) (Hk : fixed_kind p)
    (Hs : starts range p evs) (Hs' : starts range p evs')
    (Hx : rtc (det_step Body_) (v, Running evs) (x, Done))
    (Hy : rtc (det_step Body_) (v, Running evs') (y, Done)) : x = y.
Proof.
  assert (Hev : ∀ s w, rtc (det_step Body_) s (w, Done) → eval s.2 s.1 w).
  { intros s w Hst. remember (w, Done) as s' eqn:E. induction Hst; subst; [constructor|].
    by eapply det_step_eval, IHHst. }
  apply Hev in Hx, Hy. simpl in *. rewrite (starts_unique _ _ _ _ Hk Hs Hs') in *.
  eapply eval_unique; [done..|]. by eapply starts_inherit.
Qed.
End deterministic.
End Reduce.

Module ReduceExamples.
Import Blocked Partition Execute Reduce.
Local Open Scope Z_scope.

(** The sum of the iterations of a range, as [parallel_reduce] with lambdas. *)
Definition sum_body : body blocked_range Z :=
  lambda_reduce_body 0 (λ r v, v + foldr Z.add 0 (br_elems r)) Z.add.

#[local] Instance sum_laws : ReduceLaws sum_body id Z.add 0 id.
Proof.
  constructor; intros; simpl; try lia. done.
Qed.

Definition two : blocked_range := BlockedRange 6 4 1.
Definition left_one : blocked_range := BlockedRange 5 4 1.
Definition right_one : blocked_range := BlockedRange 6 5 1.
Definition simple : partition := create Simple 2 0.
Definition script : list (event blocked_range) := [Offer right_one simple; Body left_one].

Lemma two_starts : starts two simple script.
Proof. exists 10%nat, false, [], simple, false. split_and!; [done|by constructor|by vm_compute]. Qed.

Lemma right_starts : starts right_one simple [Body right_one].
Proof. exists 10%nat, false, [], simple, false. split_and!; [done|by constructor|by vm_compute]. Qed.

Lemma two_valid : br_valid two.
Proof. unfold br_valid, two; simpl; lia. Qed.

(** The right task is stolen before the left one runs. *)
Lemma two_nsteps : nsteps (step sum_body) 7 (10, Running script) (19, Done).
Proof.
  eapply nsteps_l; [apply step_offer|]. eapply nsteps_l; [by apply step_start_split, right_starts|].
  eapply nsteps_l; [apply step_right_zombie, step_run|]. eapply nsteps_l; [apply step_left, step_run|].
  eapply nsteps_l; [apply step_left, step_finish|].
  eapply nsteps_l; [apply step_right_zombie, step_finish|]. eapply nsteps_l; [apply step_join|].
  apply nsteps_O.
Qed.

Lemma two_steps : rtc (step sum_body) (10, Running script) (19, Done).
Proof. eapply rtc_nsteps_2, two_nsteps. Qed.

Lemma parallel_reduce_correct_witness : id 19 = id 10 + reduce Z.add 0 id (br_elems two).
Proof.
  pose proof (parallel_reduce_correct sum_body id Z.add 0 id two simple script 10 19 Done
    two_valid I two_starts two_steps) as [_ H].
  exact (H eq_refl).
Defined.

Lemma parallel_reduce_terminates_witness : (7 ≤ 6 * length (br_elems two))%nat.
Proof.
  pose proof (parallel_reduce_terminates sum_body id Z.add 0 id two simple script 10
    two_valid I two_starts) as [H _].
  exact (H 7%nat _ two_nsteps).
Defined.

(** The same with a body that is not associative, in two orders. *)
Definition minus_body : body blocked_range Z :=
  lambda_reduce_body 1 (λ r v, foldr Z.sub v (br_elems r)) Z.sub.

Lemma minus_steps : rtc (det_step minus_body) (10, Running script) (-10, Done).
Proof.
  eapply rtc_l; [apply det_offer|]. eapply rtc_l; [by apply det_left, det_run|].
  eapply rtc_l; [apply det_start, right_starts|]. eapply rtc_l; [apply det_right, det_run|].
  eapply rtc_l; [apply det_left, det_finish|]. eapply rtc_l; [apply det_right, det_finish|].
  eapply rtc_l; [apply det_join|]. apply rtc_refl.
Qed.

Lemma minus_steps_right_first :
  ∃ y, rtc (det_step minus_body) (10, Running script) (y, Done).
Proof.
  eexists. eapply rtc_l; [apply det_offer|].
  eapply rtc_l; [apply det_start, right_starts|]. eapply rtc_l; [apply det_right, det_run|].
  eapply rtc_l; [apply det_right, det_finish|]. eapply rtc_l; [by apply det_left, det_run|].
  eapply rtc_l; [apply det_left, det_finish|]. eapply rtc_l; [apply det_join|]. apply rtc_refl.
Qed.

Lemma deterministic_reduce_deterministic_witness :
  ∃ y, rtc (det_step minus_body) (10, Running script) (y, Done) ∧ -10 = y.
Proof.
  destruct minus_steps_right_first as [y Hy]. exists y. split; [exact Hy|].
  exact (deterministic_reduce_deterministic minus_body two simple 10 (-10) y script script
    (or_introl eq_refl) two_starts two_starts minus_steps Hy).
Defined.
End ReduceExamples.
