(* ===== verification/ParallelScan.v ===== *)
(** * parallel_scan

    The parallel prefix: a first pass that sums subranges, and finishes those for
    which it has the prefix already, and a second pass for the rest.  Source:
    include/oneapi/tbb/parallel_scan.h ([start_scan], [finish_scan], [sum_node],
    [final_sum], [lambda_scan_body]) and the partitioners for it in
    include/oneapi/tbb/partitioner.h.

    The bodies, which the tasks share by address, are in a heap of [final_sum]
    objects; an access to one that was destroyed is [None].  The tasks of a pass
    are a tree: a task that waits for its children has them below it, and what a
    subtree has written to the slots of its parent is read off the subtree.  A step
    executes one task, chosen by its path in the tree. *)

From S2P Require Import Prelude Ranges.
From stdpp Require Import base numbers relations gmap list.
From Stdlib Require Import ZArith Lia.

Module Scan.

(** The requirements on a body; the flag says that the scan is final. *)
Record body (R B : Type) := MkBody {
  apply : bool → R → B → B;      (* operator()(range, tag) *)
  split_body : B → B;            (* Body(other, split) *)
  reverse_join : B → B → B;      (* this, the argument *)
  assign : B → B → B;            (* this, the argument *)
}.
Arguments MkBody {R B}.
Arguments apply {R B}.
Arguments split_body {R B}.
Arguments reverse_join {R B}.
Arguments assign {R B}.

Definition lambda_scan_body {R V} (identity : V) (scan : R → V → bool → V) (rev_join : V → V → V) : body R V :=
  MkBody (λ final r v, scan r v final) (λ _, identity) (λ v a, rev_join a v) (λ _ b, b).

(** [partition_type] of [simple_partitioner] and of [auto_partitioner] *)
Inductive partition := SimplePartition | AutoPartition (num_chunks : Z).
Definition VICTIM_CHUNKS : Z := 4.
Definition should_execute_range (stolen : bool) (p : partition) : partition * bool :=
  match p with
  | SimplePartition => (p, false)
  | AutoPartition n => let n := if (n <? VICTIM_CHUNKS)%Z && stolen then VICTIM_CHUNKS else n in (AutoPartition n, (n =? 1)%Z)
  end.
Definition split_partition (p : partition) : partition :=
  match p with SimplePartition => p | AutoPartition n => AutoPartition ((n + 1) mod 2 ^ 64 / 2)%Z end.

Section scan.
Context {R B : Type} `{RangeOps R} (Body_ : body R B).

(** The address of a [final_sum]; that of [temp_body] is zero. *)
Local Abbreviation heap := (gmap nat B).
Implicit Types (h : heap) (r : R) (a : nat).

(** A [start_scan]; [m_sum_slot] says whether there is a slot. *)
Record start_scan := StartScan {
  m_range : R;
  m_body : nat;
  m_partition : partition;
  m_sum_slot : bool;
  m_is_final : bool;
  m_is_right_child : bool;
}.
(** A pointer to a [sum_node] that the first pass has made *)
Inductive sum_node :=
  | NullNode
  | SumNode (n_range : R) (left_is_final : bool) (left_sum : option nat) (m_left m_right : sum_node).
Definition is_null (n : sum_node) : bool := match n with NullNode => true | _ => false end.

(** The first pass: a task that is not finished; a [finish_scan] with its
    [sum_node] and [m_right_zombie]; a subtree that is finished, with what it has
    written to [m_return_slot] and to [*m_sum_slot]. *)
Inductive tree :=
  | Start (s : start_scan)
  | Finish (n_range : R) (left_is_final sum_slot : bool) (right_zombie : option nat) (left right : tree)
  | Finished (ret : sum_node) (sum : option nat).
Fixpoint slot_of (t : tree) : option nat :=
  match t with Start _ => None | Finish _ _ _ _ _ r => slot_of r | Finished _ sum => sum end.

(** The answers of a step: was the task stolen, where is a new [final_sum]. *)
Record answer := Answer { stolen : bool; address : nat }.

(** What a step leaves: the heap and the final scans, with the body before. *)
Local Abbreviation result A := (option (heap * list (R * B) * A)).

(** The second half of [start_scan::execute]: the range is scanned by [body], or it
    is split and the task goes on with the left part. *)
Definition scan_or_split (w : answer) (whole : bool) (s : start_scan) (body : nat) (final : bool) h : result tree :=
  let '(p, execute) := should_execute_range (stolen w) (m_partition s) in
  if whole || negb (is_divisible (m_range s)) || execute then
    let t := Finished NullNode (if m_sum_slot s then Some body else None) in
    if final || m_sum_slot s then
      b ← h !! body;
      Some (<[body := apply Body_ final (m_range s) b]> h, if final then [(m_range s, b)] else [], t)
    else Some (h, [], t)
  else
    let '(rl, rr) := split_range Split (m_range s) in
    let p := split_partition p in
    Some (h, [], Finish (m_range s) final (m_sum_slot s) None
      (Start (StartScan rl body p true final false)) (Start (StartScan rr body p (m_sum_slot s) final true))).

(** [start_scan::execute]; [left_sum] is that of the parent.  The results are the
    new zombie and the subtree. *)
Definition start_execute (w : answer) (left_sum : option nat) (s : start_scan) h : result (option nat * tree) :=
  let treat_as_stolen := m_is_right_child s && (stolen w || negb (bool_decide (left_sum = Some (m_body s)))) in
  if treat_as_stolen then
    b ← h !! m_body s;
    if decide (h !! address w = None) then
      '(h, log, t) ← scan_or_split w false s (address w) false (<[address w := split_body Body_ b]> h);
      Some (h, log, (Some (address w), t))
    else None
  else
    '(h, log, t) ← scan_or_split w (m_is_right_child s) s (m_body s) (m_is_final s) h;
    Some (h, log, (None, t)).

(** [finish_scan::execute], with the results of both sides *)
Definition finish_execute n_range (left_is_final sum_slot : bool) (zombie : option nat)
    (lret : sum_node) (left_sum : option nat) (rret : sum_node) (sum : option nat) h : option (heap * tree) :=
  let left_is_final := if is_null lret then left_is_final else false in
  h ← (if bool_decide (is_Some zombie) then
         if sum_slot then
           σ ← sum; λl ← left_sum;
           b ← h !! σ; bl ← h !! λl;
           Some (<[σ := reverse_join Body_ b bl]> h)
         else Some h
       else Some h);
  let node := SumNode n_range left_is_final left_sum lret rret in
  let ret := match zombie, rret with None, NullNode => NullNode | _, _ => node end in
  let h := match zombie, sum_slot, rret with Some z, false, NullNode => delete z h | _, _, _ => h end in
  Some (h, Finished ret sum).

Fixpoint pass1_step (path : list bool) (w : answer) (t : tree) h : result tree :=
  match path, t with
  | [], Start s => '(h, log, (_, t)) ← start_execute w None s h; Some (h, log, t)
  | [], Finish nr lf slot z (Finished lret lsum) (Finished rret rsum) =>
      '(h, t) ← finish_execute nr lf slot z lret lsum rret rsum h; Some (h, [], t)
  | false :: path, Finish nr lf slot z l r => '(h, log, l) ← pass1_step path w l h; Some (h, log, Finish nr lf slot z l r)
  | true :: path, Finish nr lf slot z l r =>
      match path, r with
      | [], Start s => '(h, log, (z, r)) ← start_execute w (slot_of l) s h; Some (h, log, Finish nr lf slot z l r)
      | _, _ => '(h, log, r) ← pass1_step path w r h; Some (h, log, Finish nr lf slot z l r)
      end
  | _, _ => None
  end.

(** The second pass: a [sum_node] that was prepared, a [final_sum] that is a task, a
    [sum_node] that waits for its children, and a subtree that is finished. *)
Inductive tree2 :=
  | Visit (n : sum_node) (body : nat) (incoming : option nat) (stuff_last : bool)
  | Final (sum : nat) r (stuff_last : bool)
  | Wait (left right : tree2)
  | Done.

Definition create_child r (body : nat) (child : sum_node) (incoming : option nat) (stuff_last : bool) : tree2 :=
  match child with NullNode => Final body r stuff_last | _ => Visit child body incoming stuff_last end.

(** [sum_node::execute] with a body *)
Definition node_execute (n : sum_node) (body : nat) (incoming : option nat) (stuff_last : bool) h : option (heap * tree2) :=
  match n with
  | NullNode => None
  | SumNode nr left_is_final left_sum m_left m_right =>
      λl ← left_sum;
      bl ← h !! λl;
      h ← match incoming with Some i => bi ← h !! i; Some (<[λl := reverse_join Body_ bl bi]> h) | None => Some h end;
      let '(rl, rr) := split_range Split nr in
      let right_child := create_child rr λl m_right (Some λl) stuff_last in
      let left_child := if (left_is_final : bool) then Done else create_child rl body m_left incoming false in
      Some (h, Wait left_child right_child)
  end.

(** [final_sum::execute]; the [final_sum] is deleted.  [user] is the body of the
    caller. *)
Definition final_execute (sum : nat) r (stuff_last : bool) (user : B) h : result B :=
  b ← h !! sum;
  let b' := apply Body_ true r b in
  Some (delete sum h, [(r, b)], if stuff_last then assign Body_ user b' else user).

Fixpoint pass2_step (path : list bool) (t : tree2) (user : B) h : result (B * tree2) :=
  match path, t with
  | [], Visit n body incoming last => '(h, t) ← node_execute n body incoming last h; Some (h, [], (user, t))
  | [], Final sum r last => '(h, log, user) ← final_execute sum r last user h; Some (h, log, (user, Done))
  | [], Wait Done Done => Some (h, [], (user, Done))
  | false :: path, Wait l r => '(h, log, (user, l)) ← pass2_step path l user h; Some (h, log, (user, Wait l r))
  | true :: path, Wait l r => '(h, log, (user, r)) ← pass2_step path r user h; Some (h, log, (user, Wait l r))
  | _, _ => None
  end.

(** [start_scan::run] *)
Inductive phase := Pass1 (t : tree) | Pass2 (t : tree2) | Over.
Record state := State { the_heap : heap; user : B; log : list (R * B); the_phase : phase }.

Definition run (range : R) (p : partition) (b : B) : state :=
  if Ranges.empty range then State ∅ b [] Over
  else State {[0 := reverse_join Body_ (split_body Body_ b) b]} b [] (Pass1 (Start (StartScan range 0 p false true false))).

Definition next (path : list bool) (w : answer) (σ : state) : option state :=
  match the_phase σ with
  | Pass1 (Finished (SumNode _ _ _ _ _ as root) _) => Some (State (the_heap σ) (user σ) (log σ) (Pass2 (Visit root 0 None true)))
  | Pass1 (Finished NullNode _) =>
      b ← the_heap σ !! 0;
      Some (State (delete 0 (the_heap σ)) (assign Body_ (user σ) b) (log σ) Over)
  | Pass1 t => '(h, l, t) ← pass1_step path w t (the_heap σ); Some (State h (user σ) (log σ ++ l) (Pass1 t))
  | Pass2 Done => Some (State (the_heap σ) (user σ) (log σ) Over)
  | Pass2 t => '(h, l, (u, t)) ← pass2_step path t (user σ) (the_heap σ); Some (State h u (log σ ++ l) (Pass2 t))
  | Over => None
  end.
Inductive step : state → state → Prop :=
  | step_task path w σ σ' : next path w σ = Some σ' → step σ σ'.

Lemma over_nf (σ : state) : the_phase σ = Over → nf step σ.
Proof. intros E [σ' Hst]. destruct Hst as [path w σ σ' Hn]. unfold next in Hn. by rewrite E in Hn. Qed.
End scan.
Arguments tree : clear implicits.
Arguments tree2 : clear implicits.
Arguments sum_node : clear implicits.
Arguments state : clear implicits.

(** What a scan relies on: the sums form a monoid; a body that is applied to a
    range, in either pass, appends the sum of the range; a split body starts from
    the identity, and a reverse join puts the sum of its argument in front. *)
Class ScanLaws {R E B M : Type} `{RangeLaws R E} (Body_ : body R B)
    (val : B → M) (op : M → M → M) (unit : M) (inj : E → M) := {
  op_assoc x y z : op x (op y z) = op (op x y) z;
  op_unit_l x : op unit x = x;
  op_unit_r x : op x unit = x;
  val_apply final r b : valid r → val (apply Body_ final r b) = op (val b) (foldr (λ x, op (inj x)) unit (elems r));
  val_split b : val (split_body Body_ b) = unit;
  val_reverse_join b a : val (reverse_join Body_ b a) = op (val a) (val b);
  val_assign b a : val (assign Body_ b a) = val a;
}.

Section laws.
Context {R E B M : Type} `{OrderedRange R E} (Body_ : body R B).
Context (val : B → M) (op : M → M → M) (unit : M) (inj : E → M).
Context `{!ScanLaws Body_ val op unit inj}.
Local Infix "•" := op (at level 50, left associativity).
Implicit Types (t : tree R) (n : sum_node R) (xs u : list E) (h : gmap nat B) (β ζ : nat) (acc : M).

Lemma scan_opA x y z : x • (y • z) = x • y • z.
Proof. apply (op_assoc (Body_ := Body_)). Qed.
Lemma scan_op1 x : unit • x = x.
Proof. apply (op_unit_l (Body_ := Body_)). Qed.
Lemma scan_op0 x : x • unit = x.
Proof. apply (op_unit_r (Body_ := Body_)). Qed.

Lemma scan_split b : val (split_body Body_ b) = unit.
Proof. by eapply (val_split (Body_ := Body_)). Qed.
Lemma scan_reverse_join b a : val (reverse_join Body_ b a) = val a • val b.
Proof. by eapply (val_reverse_join (Body_ := Body_)). Qed.
Lemma scan_assign b a : val (assign Body_ b a) = val a.
Proof. by eapply (val_assign (Body_ := Body_)). Qed.

(** The sequential sum and the sequential scan: each element with the sum of those
    before it. *)
Definition sum xs : M := foldr (λ x, op (inj x)) unit xs.
Fixpoint prefixes acc xs : list (E * M) := match xs with [] => [] | x :: xs => (x, acc) :: prefixes (acc • inj x) xs end.
(** What the final scans of a log have seen *)
Definition scanned (l : list (R * B)) : list (E * M) := l ≫= λ x, prefixes (val x.2) (elems x.1).

Lemma sum_app xs ys : sum (xs ++ ys) = sum xs • sum ys.
Proof. unfold sum. induction xs as [|x xs IH]; simpl; [by rewrite scan_op1|]. by rewrite IH, scan_opA. Qed.
Lemma prefixes_app acc xs ys : prefixes acc (xs ++ ys) = prefixes acc xs ++ prefixes (acc • sum xs) ys.
Proof. revert acc. induction xs as [|x xs IH]; intros acc; simpl; [by rewrite scan_op0|]. by rewrite IH, scan_opA. Qed.

(** *** Ownership of the bodies *)

(** The heap consists of bodies with these values. *)
Definition owns h (A : list (nat * M)) : Prop := NoDup A.*1 ∧ ∀ a m, (a, m) ∈ A ↔ ∃ b, h !! a = Some b ∧ val b = m.

Lemma owns_perm h A A' : A ≡ₚ A' → owns h A → owns h A'.
Proof. intros E' [Hn Ha]. split; [by rewrite <- E'|]. intros a m. by rewrite <- E'. Qed.
#[local] Instance owns_proper h : Proper ((≡ₚ) ==> iff) (owns h).
Proof. intros A A' E'. split; by apply owns_perm. Qed.
Lemma owns_lookup h a m A : owns h ((a, m) :: A) → ∃ b, h !! a = Some b ∧ val b = m.
Proof. intros [_ Ha]. apply Ha. left. Qed.
Lemma owns_other h a m A a' m' : owns h ((a, m) :: A) → (a', m') ∈ A → a' ≠ a.
Proof. intros [Hn _] Hin ->. simpl in Hn. apply NoDup_cons in Hn as [Hn _]. apply Hn. apply list_elem_of_fmap. by exists (a, m'). Qed.
Lemma owns_update h a m A b : owns h ((a, m) :: A) → owns (<[a := b]> h) ((a, val b) :: A).
Proof.
  intros Ho. assert (Hne : ∀ a' m', (a', m') ∈ A → a' ≠ a) by (intros; by eapply owns_other). destruct Ho as [Hn Ha]. split; [done|].
  intros a' m'. rewrite elem_of_cons. destruct (decide (a' = a)) as [->|Hd].
  - rewrite lookup_insert_eq. split; [intros [[= ->]|Hin]; [eauto|by destruct (Hne _ _ Hin)]|]. intros (b' & [= <-] & <-). by left.
  - rewrite lookup_insert_ne by done. rewrite <- Ha, elem_of_cons. split; (intros [[= ? ?]|?]; [done|by right]).
Qed.
Lemma owns_delete h a m A : owns h ((a, m) :: A) → owns (delete a h) A.
Proof.
  intros Ho. assert (Hne : ∀ a' m', (a', m') ∈ A → a' ≠ a) by (intros; by eapply owns_other). destruct Ho as [Hn Ha].
  split; [by apply NoDup_cons in Hn as [_ Hn]|]. intros a' m'. destruct (decide (a' = a)) as [->|Hd].
  - rewrite lookup_delete_eq. split; [intros Hin; by destruct (Hne _ _ Hin)|by intros (? & ? & _)].
  - rewrite lookup_delete_ne by done. rewrite <- Ha, elem_of_cons. split; [by right|intros [[= ? ?]|?]; done].
Qed.
Lemma owns_new h a A b : owns h A → h !! a = None → owns (<[a := b]> h) ((a, val b) :: A).
Proof.
  intros [Hn Ha] Hnone. assert (Hne : ∀ a' m', (a', m') ∈ A → a' ≠ a).
  { intros a' m' Hin ->. apply Ha in Hin as (? & ? & _). congruence. }
  split; [simpl; apply NoDup_cons; split; [|done]; intros ([a' m'] & -> & Hin)%list_elem_of_fmap; by destruct (Hne _ _ Hin)|].
  intros a' m'. rewrite elem_of_cons. destruct (decide (a' = a)) as [->|Hd].
  - rewrite lookup_insert_eq. split; [intros [[= ->]|Hin]; [eauto|by destruct (Hne _ _ Hin)]|]. intros (b' & [= <-] & <-). by left.
  - rewrite lookup_insert_ne by done. rewrite <- Ha. split; [intros [[= ? ?]|?]; done|by right].
Qed.
Lemma owns_nil h : owns h [] → h = ∅.
Proof. intros [_ Ha]. apply map_empty. intros a. destruct (h !! a) as [b|] eqn:E'; [|done]. assert (Hin : (a, val b) ∈ []) by (apply Ha; eauto). by apply elem_of_nil in Hin. Qed.

(** *** The nodes that the first pass leaves

    A chain is a body [β] with the value [b0] when it starts: the body of the
    caller, whose scans are final, or a zombie, which starts from the identity.  A
    node that starts with the chain is described by the elements [u] that the chain
    has seen, from the start of the node on, and the other bodies that it has. *)
Definition split_at (rg rl rr : R) : Prop := valid rg ∧ is_divisible rg = true ∧ split_range Split rg = (rl, rr).

Inductive node_ok : bool → M → nat → list E → sum_node R → list E → list (nat * M) → Prop :=
  | ok_bottom f b0 β rg rl rr rn Ar : split_at rg rl rr → right_ok (elems rr) rn Ar →
      node_ok f b0 β (elems rg) (SumNode rg f (Some β) NullNode rn) (elems rl) Ar
  | ok_left f b0 β rg rl rr nl u A a rn Ar : split_at rg rl rr → node_ok f b0 β (elems rl) nl u A → right_ok (elems rr) rn Ar →
      node_ok f b0 β (elems rg) (SumNode rg false (Some a) nl rn) u (A ++ (a, b0 • sum (elems rl)) :: Ar)
with right_ok : list E → sum_node R → list (nat * M) → Prop :=
  | right_leaf xs : right_ok xs NullNode []
  | right_node ζ xs n u A : node_ok false unit ζ xs n u A → right_ok xs n ((ζ, sum u) :: A).

(** *** The tasks of the first pass *)
Definition started t : Prop := match t with Start _ => False | _ => True end.
Inductive good : bool → M → nat → bool → list E → tree R → list E → list (nat * M) → Prop :=
  | good_start f b0 β s r p : valid r → good f b0 β s (elems r) (Start (StartScan r β p s f false)) [] []
  | good_leaf f b0 β s xs u : (f || s = true → u = xs) → good f b0 β s xs (Finished NullNode (if s then Some β else None)) u []
  | good_pending f b0 β s rg rl rr p l u A : split_at rg rl rr → good f b0 β true (elems rl) l u A →
      good f b0 β s (elems rg) (Finish rg f s None l (Start (StartScan rr β p s f true))) u A
  | good_shared f b0 β s rg rl rr l u : split_at rg rl rr → good f b0 β true (elems rl) l (elems rl) [] → slot_of l = Some β →
      (f || s = true → u = elems rg) →
      good f b0 β s (elems rg) (Finish rg f s None l (Finished NullNode (if s then Some β else None))) u []
  | good_stolen f b0 β s rg rl rr ζ l r u A ur Ar : split_at rg rl rr → good f b0 β true (elems rl) l u A → good false unit ζ s (elems rr) r ur Ar → started r →
      good f b0 β s (elems rg) (Finish rg f s (Some ζ) l r) u (A ++ (ζ, sum ur) :: Ar)
  | good_node f b0 β xs n u A : node_ok f b0 β xs n u A → good f b0 β false xs (Finished n None) u A
  | good_total f b0 β xs n u A a : node_ok f b0 β xs n u A → good f b0 β true xs (Finished n (Some a)) u ((a, b0 • sum xs) :: A).

Lemma split_elems rg rl rr : split_at rg rl rr → valid rl ∧ valid rr ∧ elems rg = elems rl ++ elems rr.
Proof.
  intros (Hv & Hd & Hs). destruct (split_valid Split rg rl rr I Hv Hd Hs) as (? & ? & _). split_and!; [done..|]. by apply (split_ordered Split).
Qed.
Lemma good_slot f b0 β xs t u A a : good f b0 β true xs t u A → slot_of t = Some a → a = β ∨ a ∈ A.*1.
Proof.
  intros Hg. remember true as s eqn:Es. revert a.
  induction Hg as [| |f b0 β s rg rl rr p l u A Hsp Hl IHl|f b0 β s rg rl rr l u Hsp Hl IHl Hslot Hu
    |f b0 β s rg rl rr ζ l r u A ur Ar Hsp Hl IHl Hr IHr Hstd| |f b0 β xs n u A a' Hn]; simpl; intros a Ha; subst; simplify_eq; auto.
  - right. rewrite fmap_app, elem_of_app. right. simpl. rewrite elem_of_cons. destruct (IHr eq_refl a Ha); auto.
  - right. simpl. left.
Qed.
(** If the total of a subtree is in the body that it started with, then nothing of
    the subtree was stolen. *)
Lemma good_clean f b0 β xs t u A : good f b0 β true xs t u A → slot_of t = Some β → β ∉ A.*1 → u = xs ∧ A = [].
Proof.
  intros Hg Hs Hn. inversion Hg; subst; simpl in *; simplify_eq; try done.
  - by rewrite orb_true_r in *; auto.
  - by rewrite orb_true_r in *; auto.
  - destruct Hn. rewrite fmap_app, elem_of_app. right. simpl. rewrite elem_of_cons. eapply good_slot in Hs; [|done]. tauto.
  - destruct Hn. left.
Qed.

(** The chain has seen more elements; its scans are final, or it is a zombie. *)
Definition grew (f : bool) b0 u u' (lg : list (R * B)) : Prop :=
  if f then ∃ ys, u' = u ++ ys ∧ scanned lg = prefixes (b0 • sum u) ys else lg = [].
Lemma grew_refl f b0 u : grew f b0 u u [].
Proof. destruct f; [|done]. exists []. by rewrite app_nil_r. Qed.

Lemma scan_or_split_ok w (whole : bool) sc β f b0 u h h' lg t F :
  scan_or_split Body_ w whole sc β f h = Some (h', lg, t) → valid (m_range sc) → owns h ((β, b0 • sum u) :: F) →
  (∃ u', t = Finished NullNode (if m_sum_slot sc then Some β else None) ∧ (f || m_sum_slot sc = true → u' = u ++ elems (m_range sc)) ∧
    owns h' ((β, b0 • sum u') :: F) ∧ grew f b0 u u' lg) ∨
  (whole = false ∧ h' = h ∧ lg = [] ∧ ∃ rl rr p, split_at (m_range sc) rl rr ∧
    t = Finish (m_range sc) f (m_sum_slot sc) None (Start (StartScan rl β p true f false)) (Start (StartScan rr β p (m_sum_slot sc) f true))).
Proof.
  intros E' Hv Ho. unfold scan_or_split in E'. destruct (should_execute_range (stolen w) (m_partition sc)) as [p ex].
  destruct (whole || negb (is_divisible (m_range sc)) || ex) eqn:Ec.
  - left. destruct (owns_lookup _ _ _ _ Ho) as (b & Hb & Hval). destruct (f || m_sum_slot sc) eqn:Ef.
    + rewrite Hb in E'. simplify_eq/=. exists (u ++ elems (m_range sc)). split_and!; [done|done| |].
      * rewrite sum_app, scan_opA, <- Hval. unfold sum. erewrite <- (val_apply (Body_ := Body_)) by done. by eapply owns_update.
      * destruct f; [|done]. exists (elems (m_range sc)). split; [done|]. unfold scanned. simpl. by rewrite app_nil_r, Hval.
    + simplify_eq/=. exists u. split_and!; [done..|]. apply grew_refl.
  - right. destruct (split_range Split (m_range sc)) as [rl rr] eqn:Es. simplify_eq/=. apply orb_false_iff in Ec as [[-> Hd%negb_false_iff]%orb_false_iff _].
    split_and!; [done..|]. by exists rl, rr, (split_partition p).
Qed.

Lemma owns_not_in h β m A F : owns h ((β, m) :: A ++ F) → β ∉ A.*1.
Proof. intros [Hn _] Hin. simpl in Hn. apply NoDup_cons in Hn as [Hn _]. apply Hn. rewrite fmap_app, elem_of_app. by left. Qed.
(** The parts of the heap are permuted. *)
Local Ltac owns := eapply owns_perm; [|eassumption]; simpl; rewrite ?app_nil_r; solve_Permutation.

Lemma right_start_ok w f b0 β s rg rl rr p l u A h h' lg z r F : split_at rg rl rr → good f b0 β true (elems rl) l u A →
  owns h ((β, b0 • sum u) :: A ++ F) → start_execute Body_ w (slot_of l) (StartScan rr β p s f true) h = Some (h', lg, (z, r)) →
  ∃ u' A', good f b0 β s (elems rg) (Finish rg f s z l r) u' A' ∧ owns h' ((β, b0 • sum u') :: A' ++ F) ∧ grew f b0 u u' lg.
Proof.
  intros Hsp Hl Ho E'. destruct (split_elems _ _ _ Hsp) as (Hvl & Hvr & Eel). unfold start_execute in E'. simpl in E'.
  destruct (stolen w || negb (bool_decide (slot_of l = Some β))) eqn:Et.
  - apply bind_Some in E' as (b & Hb & E'). case_decide as Hfresh; [|done]. apply bind_Some in E' as ([[h1 lg1] t1] & E1 & [= -> -> <- ->]).
    pose proof (owns_new _ _ _ (split_body Body_ b) Ho Hfresh) as Ho1. rewrite scan_split, <- (scan_op1 unit) in Ho1.
    change (unit • unit) with (unit • sum []) in Ho1.
    destruct (scan_or_split_ok _ _ _ _ _ _ _ _ _ _ _ _ E1 Hvr Ho1) as [(ur & -> & Hur & Ho2 & Hgr)|(_ & -> & -> & rl' & rr' & p' & Hsp' & ->)]; simpl in *.
    + unfold grew in Hgr. subst lg. exists u, (A ++ [(address w, sum ur)]). split_and!; [eapply good_stolen; [done|done|by apply good_leaf|done]| |apply grew_refl]. rewrite scan_op1 in Ho2. owns.
    + exists u, (A ++ [(address w, sum [])]). split_and!; [|rewrite scan_op1 in Ho1; owns|apply grew_refl].
      eapply good_stolen; [done|done| |done]. eapply good_pending; [done|]. apply good_start. by destruct (split_elems _ _ _ Hsp').
  - apply orb_false_iff in Et as [Hst Hslot%negb_false_iff%bool_decide_eq_true]. apply bind_Some in E' as ([[h1 lg1] t1] & E1 & [= -> -> <- ->]).
    destruct (good_clean _ _ _ _ _ _ _ Hl Hslot (owns_not_in _ _ _ _ _ Ho)) as [-> ->].
    destruct (scan_or_split_ok _ _ _ _ _ _ _ _ _ _ _ _ E1 Hvr Ho) as [(ur & -> & Hur & Ho2 & Hgr)|(? & _)]; [|done]. simpl in *.
    exists ur, []. split_and!; [|done|done]. eapply good_shared; [done..|]. by rewrite Eel.
Qed.

Lemma right_of f b0 β s xs n sm u A : good f b0 β s xs (Finished n sm) u A →
  n = NullNode ∧ A = [] ∧ sm = (if s then Some β else None) ∧ (f || s = true → u = xs) ∨
  node_ok f b0 β xs n u (if s then tail A else A) ∧ if s then ∃ a, sm = Some a ∧ A = (a, b0 • sum xs) :: tail A else sm = None.
Proof. intros Hg. inversion Hg; subst; [left; by split_and!|right..]; simpl; eauto. Qed.

Lemma owns_elem h A a m : owns h A → (a, m) ∈ A → ∃ b, h !! a = Some b ∧ val b = m.
Proof. intros [_ Ha] Hin. by apply Ha. Qed.
Lemma node_ok_nonnull f b0 β xs n u A : node_ok f b0 β xs n u A → is_null n = false.
Proof. by intros []. Qed.

(** The left side of a node is finished: the node with any right side *)
Lemma left_of f b0 β rg rl rr lret lsum u A : split_at rg rl rr → good f b0 β true (elems rl) (Finished lret lsum) u A →
  (∃ a, lsum = Some a ∧ (a, b0 • sum (elems rl)) ∈ (β, b0 • sum u) :: A) ∧
  ∀ rn Ar, right_ok (elems rr) rn Ar → ∃ A', A' ≡ₚ A ++ Ar ∧
    node_ok f b0 β (elems rg) (SumNode rg (if is_null lret then f else false) lsum lret rn) u A'.
Proof.
  intros Hsp [(-> & -> & -> & Hu)|[Hn (a & -> & Ea)]]%right_of.
  - rewrite orb_true_r in Hu. rewrite Hu by done. split; [exists β; split; [done|by left]|]. intros rn Ar Hr. exists Ar. split; [done|]. by eapply ok_bottom.
  - split; [exists a; split; [done|right; rewrite Ea; by left]|]. intros rn Ar Hr. rewrite (node_ok_nonnull _ _ _ _ _ _ _ Hn).
    exists (tail A ++ (a, b0 • sum (elems rl)) :: Ar). split; [rewrite Ea at 2; simpl; solve_Permutation|]. by eapply ok_left.
Qed.

(** The total of the right side is joined with that of the left side. *)
Lemma join_ok h σ a b0 G (xl xr : list E) : owns h ((σ, unit • sum xr) :: G) → (a, b0 • sum xl) ∈ G →
  ∃ h', (b ← h !! σ; bl ← h !! a; Some (<[σ := reverse_join Body_ b bl]> h)) = Some h' ∧ owns h' ((σ, b0 • sum (xl ++ xr)) :: G).
Proof.
  intros Ho Ha. destruct (owns_lookup _ _ _ _ Ho) as (b & Eb & Hb). destruct (owns_elem _ _ a (b0 • sum xl) Ho) as (bl & El & Hl); [by right|].
  rewrite Eb, El. simpl. eexists. split; [done|]. replace (b0 • sum (xl ++ xr)) with (val (reverse_join Body_ b bl)); [by eapply owns_update|].
  by rewrite scan_reverse_join, Hb, Hl, scan_op1, sum_app, scan_opA.
Qed.

Lemma finish_ok f b0 β s xs rg lf sl z lret lsum rret rsum u A F h h' t :
  good f b0 β s xs (Finish rg lf sl z (Finished lret lsum) (Finished rret rsum)) u A → owns h ((β, b0 • sum u) :: A ++ F) →
  finish_execute Body_ rg lf sl z lret lsum rret rsum h = Some (h', t) →
  ∃ A', good f b0 β s xs t u A' ∧ owns h' ((β, b0 • sum u) :: A' ++ F).
Proof.
  intros Hg Ho E'. inversion Hg as [| | |? ? ? ? ? rl rr ? ? Hsp Hl Hslot Hu|? ? ? ? ? rl rr ζ ? ? ? Al ur Ar Hsp Hl Hr Hstd| |]; subst; simpl in *.
  { exists []. unfold finish_execute in E'. simplify_eq/=. split; [by apply good_leaf|done]. }
  destruct (left_of _ _ _ _ _ _ _ _ _ _ Hsp Hl) as [(a & -> & Ha) Hnode]. destruct (split_elems _ _ _ Hsp) as (_ & _ & Eel). unfold finish_execute in E'. simpl in E'.
  assert (Hin : ∀ x G, x ∈ (β, b0 • sum u) :: Al → x ∈ (β, b0 • sum u) :: Al ++ G) by (intros x G Hx; apply (elem_of_app ((β, b0 • sum u) :: Al)); by left).
  destruct (right_of _ _ _ _ _ _ _ _ _ Hr) as [(-> & -> & -> & Hur)|[Hn Hsm]]; destruct sl; simpl in *.
  - rewrite Hur in Ho by done. destruct (Hnode NullNode [] (right_leaf _)) as (A' & EA & HA).
    destruct (join_ok h ζ a b0 ((β, b0 • sum u) :: Al ++ F) (elems rl) (elems rr)) as (h1 & Eh & Ho1); [rewrite scan_op1; owns|apply Hin, Ha|].
    rewrite Eh in E'. simplify_eq/=. exists ((ζ, b0 • sum (elems rg)) :: A'). split; [by apply good_total|]. rewrite EA, Eel. owns.
  - simplify_eq. destruct (Hnode NullNode [] (right_leaf _)) as (A' & EA & HA). exists A'. split; [by apply good_node|]. rewrite EA, app_nil_r.
    eapply owns_delete, owns_perm, Ho. solve_Permutation.
  - destruct Hsm as (σ & -> & Eσ). destruct (Hnode rret ((ζ, sum ur) :: tail Ar) (right_node _ _ _ _ _ Hn)) as (A' & EA & HA).
    destruct (join_ok h σ a b0 ((β, b0 • sum u) :: Al ++ (ζ, sum ur) :: tail Ar ++ F) (elems rl) (elems rr)) as (h1 & Eh & Ho1); [rewrite Eσ in Ho; owns|apply Hin, Ha|].
    simpl in E'. rewrite Eh in E'. simpl in E'. exists ((σ, b0 • sum (elems rg)) :: A'). destruct rret; [by inversion Hn|]. simplify_eq. split; [by apply good_total|]. rewrite EA, Eel. owns.
  - subst rsum. destruct (Hnode rret ((ζ, sum ur) :: Ar) (right_node _ _ _ _ _ Hn)) as (A' & EA & HA). destruct rret; [by inversion Hn|]. simplify_eq.
    exists A'. split; [by apply good_node|]. rewrite EA. owns.
Qed.

(** A subtree that was not stolen from and is over only has its nodes to finish. *)
Lemma clean_step path w f b0 β xs t h h' lg t' : good f b0 β true xs t xs [] → slot_of t = Some β → pass1_step Body_ path w t h = Some (h', lg, t') →
  h' = h ∧ lg = [] ∧ good f b0 β true xs t' xs [] ∧ slot_of t' = Some β.
Proof.
  revert xs t t'. induction path as [|d path IH]; intros xs t t' Hg Hs E'.
  all: inversion Hg as [| | |? ? ? ? rg rl rr l ? Hsp Hl Hslot Hu EE Eu|? ? ? ? rg rl rr ζ l r ? Al ur Ar ? Hl Hr Hstd EE Et Eu EA| |]; subst; try done; try by destruct Al.
  all: simpl in *; try by destruct d.
  - destruct l as [| |lret lsum]; try done. simplify_eq/=. split_and!; [done|done|by apply (good_leaf _ _ _ true)|done].
  - destruct d; [by destruct path as [|[]]|]. apply bind_Some in E' as ([[h1 lg1] l'] & E1 & [= -> -> <-]). destruct (IH _ _ _ Hl Hslot E1) as (-> & -> & Hl' & Hs').
    split_and!; [done|done|by eapply (good_shared f b0 β true)|done].
Qed.

Lemma scan_started w whole sc β f h h' lg t : scan_or_split Body_ w whole sc β f h = Some (h', lg, t) → started t.
Proof.
  unfold scan_or_split. destruct (should_execute_range _ _). case_match; [case_match; [intros (? & _ & E')%bind_Some|intros E']|case_match; intros E']; by simplify_eq.
Qed.
Lemma start_started w ls sc h h' lg z t : start_execute Body_ w ls sc h = Some (h', lg, (z, t)) → started t.
Proof.
  unfold start_execute. case_match; [intros (? & _ & E')%bind_Some; case_decide; [|done]|intros E']; apply bind_Some in E' as ([[h1 lg1] t1] & E1 & E'); simplify_eq;
    by eapply scan_started.
Qed.
Lemma pass1_started path w t h h' lg t' : pass1_step Body_ path w t h = Some (h', lg, t') → started t'.
Proof.
  destruct path as [|d path], t as [sc|rg lf sl z l r|]; simpl; try done; try by destruct d.
  - intros ([[h1 lg1] [z1 t1]] & E1 & E')%bind_Some. simplify_eq. by eapply start_started.
  - destruct l, r; try done. intros ([h1 t1] & E1 & E')%bind_Some. simplify_eq. unfold finish_execute in E1. apply bind_Some in E1 as (h2 & _ & E1). by simplify_eq.
  - destruct d; [destruct path, r|]; intros E'; apply bind_Some in E' as ([[h1 lg1] ?] & E1 & E'); repeat case_match; by simplify_eq.
Qed.

(** The invariant of the first pass: [F] is the rest of the heap. *)
Lemma pass1_ok path w f b0 β s xs t u A F h h' lg t' : good f b0 β s xs t u A → owns h ((β, b0 • sum u) :: A ++ F) →
  pass1_step Body_ path w t h = Some (h', lg, t') →
  ∃ u' A', good f b0 β s xs t' u' A' ∧ owns h' ((β, b0 • sum u') :: A' ++ F) ∧ grew f b0 u u' lg.
Proof.
  revert f b0 β s xs t u A F t' lg. induction path as [|d path IH]; intros f b0 β s xs t u A F t' lg Hg Ho E'.
  - destruct t as [sc|rg lf sl z [| |lret lsum] [| |rret rsum]|]; try done.
    + simpl in E'. apply bind_Some in E' as ([[h1 lg1] [z t1]] & E1 & [= -> -> <-]). inversion Hg; subst. unfold start_execute in E1. simpl in E1.
      apply bind_Some in E1 as ([[h1 lg1] t2] & E1 & [= -> -> <- ->]).
      destruct (scan_or_split_ok _ _ _ _ _ _ _ _ _ _ _ _ E1 ltac:(done) Ho) as [(u' & -> & Hu & Ho' & Hgr)|(_ & -> & -> & rl & rr & p' & Hsp & ->)]; simpl in *.
      * exists u', []. split_and!; [by apply good_leaf|done..].
      * exists [], []. split_and!; [|done|apply grew_refl]. eapply good_pending; [done|]. apply good_start. by destruct (split_elems _ _ _ Hsp).
    + apply bind_Some in E' as ([h1 t1] & E1 & [= -> <- <-]). destruct (finish_ok _ _ _ _ _ _ _ _ _ _ _ _ _ _ _ _ _ _ _ Hg Ho E1) as (A' & Hg' & Ho').
      exists u, A'. split_and!; [done..|apply grew_refl].
  - destruct t as [sc|rg lf sl z l r|]; try by destruct d. destruct d.
    + inversion Hg as [| |? ? ? ? ? rl rr p ? ? ? Hsp Hl|? ? ? ? ? rl rr ? ? Hsp Hl Hslot Hu|? ? ? ? ? rl rr ζ ? ? ? Al ur Ar Hsp Hl Hr Hstd| |]; subst.
      * destruct path as [|[]]; try done. simpl in E'. apply bind_Some in E' as ([[h1 lg1] [z t1]] & E1 & [= -> -> <-]). by eapply right_start_ok.
      * by destruct path as [|[]].
      * assert (Er : ∃ h1 lg1 r1, pass1_step Body_ path w r h = Some (h1, lg1, r1) ∧ h' = h1 ∧ lg = lg1 ∧ t' = Finish rg lf sl (Some ζ) l r1).
        { simpl in E'. destruct path, r as [| |]; try done; apply bind_Some in E' as ([[h2 lg2] tr] & E1 & [= -> -> <-]); eauto 10. }
        destruct Er as (h1 & lg1 & r1 & E1 & -> & -> & ->). rewrite <- (scan_op1 (sum ur)) in Ho.
        destruct (IH false unit ζ sl (elems rr) r ur Ar ((β, b0 • sum u) :: Al ++ F) r1 lg1 Hr ltac:(owns) E1) as (ur' & Ar' & Hr' & Ho' & Hgr).
        unfold grew in Hgr. subst lg1. exists u, (Al ++ (ζ, sum ur') :: Ar'). split_and!; [|rewrite scan_op1 in Ho'; owns|apply grew_refl].
        eapply good_stolen; [done..|by eapply pass1_started].
    + simpl in E'. apply bind_Some in E' as ([[h1 lg1] l1] & E1 & [= -> -> <-]).
      inversion Hg as [| |? ? ? ? ? rl rr p ? ? ? Hsp Hl|? ? ? ? ? rl rr ? ? Hsp Hl Hslot Hu|? ? ? ? ? rl rr ζ ? ? ? Al ur Ar Hsp Hl Hr Hstd| |]; subst.
      * destruct (IH _ _ _ _ _ _ _ _ _ _ _ Hl Ho E1) as (u' & A' & Hl' & Ho' & Hgr). exists u', A'. split_and!; [by eapply good_pending|done..].
      * destruct (clean_step _ _ _ _ _ _ _ _ _ _ _ Hl Hslot E1) as (-> & -> & Hl' & Hs'). exists u, []. split_and!; [by eapply good_shared|done|apply grew_refl].
      * destruct (IH _ _ _ _ _ _ _ _ ((ζ, sum ur) :: Ar ++ F) _ _ Hl ltac:(owns) E1) as (u' & A' & Hl' & Ho' & Hgr).
        exists u', (A' ++ (ζ, sum ur) :: Ar). split_and!; [by eapply good_stolen|owns|done].
Qed.

(** *** The tasks of the second pass

    [v] is the value of the body of the caller and [acc] the sum of everything
    before the subtree; the subtree still has to scan the pairs of [P]. *)
Inductive good2 (v : M) : M → bool → list E → tree2 R → list (E * M) → list (nat * M) → Prop :=
  | good2_done acc (last : bool) xs : (last = true → v = acc • sum xs) → good2 v acc last xs Done [] []
  | good2_visit acc last ζ xs n u A a : node_ok false unit ζ xs n u A →
      good2 v acc last xs (Visit n a (Some a) last) (prefixes acc xs) ((a, acc) :: (ζ, sum u) :: A)
  | good2_visit_final acc last β xs n u ys A : node_ok true acc β xs n u A → xs = u ++ ys →
      good2 v acc last xs (Visit n β None last) (prefixes (acc • sum u) ys) ((β, acc • sum u) :: A)
  | good2_final acc last r a : valid r → good2 v acc last (elems r) (Final a r last) (prefixes acc (elems r)) [(a, acc)]
  | good2_wait acc last xl xr l r Pl Pr Al Ar : good2 v acc false xl l Pl Al → good2 v (acc • sum xl) last xr r Pr Ar →
      good2 v acc last (xl ++ xr) (Wait l r) (Pl ++ Pr) (Al ++ Ar).

Lemma good2_user v v' acc xs (t : tree2 R) P A : good2 v acc false xs t P A → good2 v' acc false xs t P A.
Proof.
  intros Hg. remember false as last eqn:El. revert El. induction Hg; intros El; subst; try (by constructor).
  apply good2_wait; auto.
Qed.
Lemma node_ok_prefix f b0 β xs n u A : node_ok f b0 β xs n u A → ∃ ys, xs = u ++ ys.
Proof.
  induction 1 as [f b0 β rg rl rr rn Ar Hsp|f b0 β rg rl rr nl u A a rn Ar Hsp _ [ys IH]]; destruct (split_elems _ _ _ Hsp) as (_ & _ & ->); [by eexists|].
  rewrite IH, <- app_assoc. by eexists.
Qed.

Lemma right_child_ok v acc last rr a rn Ar : valid rr → right_ok (elems rr) rn Ar →
  good2 v acc last (elems rr) (create_child rr a rn (Some a) last) (prefixes acc (elems rr)) ((a, acc) :: Ar).
Proof. intros Hv Hr. inversion Hr as [|ζ ? ? u A Hn]; subst; simpl; [by apply good2_final|]. destruct rn; [by inversion Hn|]. by eapply good2_visit. Qed.
Lemma left_child_ok v acc rl ζ u a nl A : node_ok false unit ζ (elems rl) nl u A →
  good2 v acc false (elems rl) (create_child rl a nl (Some a) false) (prefixes acc (elems rl)) ((a, acc) :: (ζ, sum u) :: A).
Proof. intros Hn. destruct nl; [by inversion Hn|]. by eapply good2_visit. Qed.
Lemma left_final_ok v acc rl β u ys nl A : node_ok true acc β (elems rl) nl u A → elems rl = u ++ ys →
  good2 v acc false (elems rl) (create_child rl β nl None false) (prefixes (acc • sum u) ys) ((β, acc • sum u) :: A).
Proof. intros Hn El. destruct nl; [by inversion Hn|]. by eapply good2_visit_final. Qed.

Lemma visit_ok v acc last ζ xs n u A a F h h' (t : tree2 R) : node_ok false unit ζ xs n u A → owns h ((a, acc) :: (ζ, sum u) :: A ++ F) →
  node_execute Body_ n a (Some a) last h = Some (h', t) → ∃ A', good2 v acc last xs t (prefixes acc xs) A' ∧ owns h' (A' ++ F).
Proof.
  intros Hn Ho E'. inversion Hn as [? ? β rg rl rr rn Ar Hsp Hr|? ? β rg rl rr nl ? A0 λl rn Ar Hsp Hnl Hr]; subst;
    destruct (split_elems _ _ _ Hsp) as (Hvl & Hvr & Eel); rewrite Eel in *; destruct Hsp as (_ & _ & Es); simpl in E'; rewrite Es in E'; rewrite prefixes_app.
  - destruct (join_ok h ζ a acc ((a, acc) :: A ++ F) [] (elems rl)) as (h1 & Eh & Ho1); [rewrite scan_op1; owns|rewrite scan_op0; by left|].
    destruct (h !! ζ) as [bl|]; [|done]. simpl in *. destruct (h !! a) as [bi|]; [|done]. simplify_eq/=.
    exists ([(a, acc)] ++ (ζ, acc • sum (elems rl)) :: A). split; [|owns]. apply good2_wait; [by apply good2_final|by apply right_child_ok].
  - destruct (join_ok h λl a acc ((a, acc) :: (ζ, sum u) :: A0 ++ Ar ++ F) [] (elems rl)) as (h1 & Eh & Ho1); [owns|rewrite scan_op0; by left|].
    destruct (h !! λl) as [bl|]; [|done]. simpl in *. destruct (h !! a) as [bi|]; [|done]. simplify_eq/=.
    exists (((a, acc) :: (ζ, sum u) :: A0) ++ (λl, acc • sum (elems rl)) :: Ar). split; [|owns]. apply good2_wait; [by apply left_child_ok|by apply right_child_ok].
Qed.
Lemma visit_final_ok v acc last β xs n u ys A F h h' (t : tree2 R) : node_ok true acc β xs n u A → xs = u ++ ys → owns h ((β, acc • sum u) :: A ++ F) →
  node_execute Body_ n β None last h = Some (h', t) → ∃ A', good2 v acc last xs t (prefixes (acc • sum u) ys) A' ∧ owns h' (A' ++ F).
Proof.
  intros Hn -> Ho E'. inversion Hn as [? ? ? rg rl rr rn Ar Hsp Hr|? ? ? rg rl rr nl ? A0 λl rn Ar Hsp Hnl Hr]; clear Hn; subst;
    destruct (split_elems _ _ _ Hsp) as (Hvl & Hvr & El); rewrite El in *; destruct Hsp as (_ & _ & Es); simpl in E'; rewrite Es in E';
    apply bind_Some in E' as (bl & Hbl & [= <- <-]); match goal with Eq : elems rl ++ elems rr = _ |- _ => rename Eq into Eu end.
  - apply app_inv_head in Eu as <-. exists ((β, acc • sum (elems rl)) :: A). split; [|done].
    apply (good2_wait v acc last (elems rl) (elems rr) Done _ [] _ [] _); [by apply good2_done|by apply right_child_ok].
  - destruct (node_ok_prefix _ _ _ _ _ _ _ Hnl) as [zs Ez]. rewrite Ez, <- app_assoc in Eu. apply app_inv_head in Eu as <-.
    exists (((β, acc • sum u) :: A0) ++ (λl, acc • sum (elems rl)) :: Ar). split; [|owns]. rewrite prefixes_app, <- scan_opA, <- sum_app, <- Ez.
    apply good2_wait; [by apply left_final_ok|by apply right_child_ok].
Qed.

Lemma scanned_app l l' : scanned (l ++ l') = scanned l ++ scanned l'.
Proof. apply bind_app. Qed.

Lemma final_ok v user acc (last : bool) r a F h h' lg user' : val user = v → valid r → owns h ((a, acc) :: F) →
  final_execute Body_ a r last user h = Some (h', lg, user') →
  good2 (val user') acc last (elems r) Done [] [] ∧ owns h' F ∧ scanned lg = prefixes acc (elems r) ∧ (last = false → user' = user).
Proof.
  intros Ev Hv Ho E'. unfold final_execute in E'. destruct (owns_lookup _ _ _ _ Ho) as (b & Hb & Hval). rewrite Hb in E'. simplify_eq/=.
  split_and!; [|by eapply owns_delete|unfold scanned; simpl; by rewrite app_nil_r|by intros ->]. constructor. intros ->. rewrite scan_assign.
  unfold sum. by eapply (val_apply (Body_ := Body_)).
Qed.

Lemma pass2_ok path (t : tree2 R) usr h h' lg usr' (t' : tree2 R) acc last xs P A F : good2 (val usr) acc last xs t P A → owns h (A ++ F) →
  pass2_step Body_ path t usr h = Some (h', lg, (usr', t')) →
  ∃ P' A', good2 (val usr') acc last xs t' P' A' ∧ owns h' (A' ++ F) ∧ scanned lg ++ P' ≡ₚ P ∧ (last = false → usr' = usr).
Proof.
  revert acc last xs t t' P A F. induction path as [|d path IH]; intros acc last xs t t' P A F Hg Ho E'.
  - destruct Hg as [|acc last ζ xs n u A a Hn|acc last β xs n u ys A Hn Ex|acc last r a Hv|acc last xl xr l r Pl Pr Al Ar Hl Hr]; [done|..]; simpl in E'.
    + apply bind_Some in E' as ([h1 t1] & E1 & [= -> <- <- <-]). destruct (visit_ok (val usr) _ _ _ _ _ _ _ _ _ _ _ _ Hn Ho E1) as (A' & Hg' & Ho'). eauto 10.
    + apply bind_Some in E' as ([h1 t1] & E1 & [= -> <- <- <-]).
      destruct (visit_final_ok (val usr) _ _ _ _ _ _ _ _ _ _ _ _ Hn Ex Ho E1) as (A' & Hg' & Ho'). eauto 10.
    + apply bind_Some in E' as ([[h1 lg1] u1] & E1 & [= -> -> <- <-]). destruct (final_ok _ _ _ _ _ _ _ _ _ _ _ eq_refl Hv Ho E1) as (Hg' & Ho' & Hs & Hu).
      exists [], []. split_and!; [done..|by rewrite app_nil_r, Hs|done].
    + destruct l; try done. destruct r; try done. simplify_eq/=. inversion Hl; inversion Hr as [? ? ? Hlast| | | |]; subst. exists [], []. split_and!; [|done..].
      constructor. intros Elast. by rewrite (Hlast Elast), sum_app, scan_opA.
  - destruct Hg as [| | | |acc last xl xr l r Pl Pr Al Ar Hl Hr]; try by destruct d. destruct d; simpl in E'; apply bind_Some in E' as ([[h1 lg1] [u1 t1]] & E1 & [= -> -> <- <-]).
    + destruct (IH _ _ _ _ _ _ _ (Al ++ F) Hr ltac:(owns) E1) as (P' & A' & Hr' & Ho' & HP & Hu).
      exists (Pl ++ P'), (Al ++ A'). split_and!; [|owns|rewrite <- HP; solve_Permutation|done]. apply good2_wait; [by eapply good2_user|done].
    + destruct (IH _ _ _ _ _ _ _ (Ar ++ F) Hl ltac:(owns) E1) as (P' & A' & Hl' & Ho' & HP & Hu). rewrite (Hu eq_refl) in *.
      exists (P' ++ Pr), (A' ++ Ar). split_and!; [by apply good2_wait|owns|rewrite <- HP; solve_Permutation|done].
Qed.

(** *** The whole scan *)
Definition inv (range : R) (b : B) (σ : state R B) : Prop :=
  match the_phase σ with
  | Pass1 t => ∃ u A, good true (val b) 0 false (elems range) t u A ∧ owns (the_heap σ) ((0, val b • sum u) :: A) ∧ scanned (log σ) = prefixes (val b) u
  | Pass2 t => ∃ P A, good2 (val (user σ)) (val b) true (elems range) t P A ∧ owns (the_heap σ) A ∧ scanned (log σ) ++ P ≡ₚ prefixes (val b) (elems range)
  | Over => the_heap σ = ∅ ∧ val (user σ) = val b • sum (elems range) ∧ scanned (log σ) ≡ₚ prefixes (val b) (elems range)
  end.
Lemma run_inv range p b : valid range → Ranges.empty range = false → inv range b (run Body_ range p b).
Proof.
  intros Hv He. unfold run. rewrite He. exists [], []. split_and!; [by apply good_start| |done]. change (sum []) with unit. rewrite scan_op0.
  replace (val b) with (val (reverse_join Body_ (split_body Body_ b) b)) by (by rewrite scan_reverse_join, scan_split, scan_op0).
  rewrite <- insert_empty. apply owns_new; [|by rewrite lookup_empty]. split; [apply NoDup_nil; done|]. intros a m. split; [by intros ?%elem_of_nil|].
  intros (? & ? & _). by rewrite lookup_empty in *.
Qed.

Lemma scan_step_inv range b σ σ' : inv range b σ → step Body_ σ σ' → inv range b σ'.
Proof.
  intros Hi Hst. destruct Hst as [path w σ σ' E']. unfold next in E'. unfold inv in Hi. destruct (the_phase σ) as [t|t|] eqn:Eph; [| |done].
  - destruct Hi as (u & A & Hg & Ho & Hs). assert (Hp1 : ∀ h1 l1 t1, pass1_step Body_ path w t (the_heap σ) = Some (h1, l1, t1) →
      inv range b (State h1 (user σ) (log σ ++ l1) (Pass1 t1))).
    { intros h1 l1 t1 E1. destruct (pass1_ok _ _ _ _ _ _ _ _ _ _ [] _ _ _ _ Hg ltac:(by rewrite app_nil_r) E1) as (u' & A' & Hg' & Ho' & ys & -> & Hgr).
      rewrite app_nil_r in Ho'. exists (u ++ ys), A'. split_and!; [done..|]. simpl. by rewrite scanned_app, Hs, Hgr, prefixes_app. }
    destruct t as [sc|rg lf sl z l r|n sm]; [apply bind_Some in E' as ([[h1 l1] t1] & E1 & [= <-]); by apply Hp1..|].
    destruct (right_of _ _ _ _ _ _ _ _ _ Hg) as [(-> & -> & -> & Hu)|[Hn ->]].
    + rewrite (Hu eq_refl) in *. apply bind_Some in E' as (b0 & Hb0 & [= <-]). destruct (owns_lookup _ _ _ _ Ho) as (b1 & Hb1 & Hv). simplify_eq. unfold inv. simpl.
      split_and!; [by eapply owns_nil, owns_delete|by rewrite scan_assign|by rewrite Hs].
    + destruct n as [|rg lf ls nl nr]; [by inversion Hn|]. simplify_eq. destruct (node_ok_prefix _ _ _ _ _ _ _ Hn) as [ys Ey].
      exists (prefixes (val b • sum u) ys), ((0, val b • sum u) :: A). simpl. split_and!; [by eapply good2_visit_final|done|by rewrite Hs, Ey, prefixes_app].
  - destruct Hi as (P & A & Hg & Ho & Hs). assert (Hp2 : ∀ h1 l1 (u1 : B) (t1 : tree2 R), pass2_step Body_ path t (user σ) (the_heap σ) = Some (h1, l1, (u1, t1)) →
      inv range b (State h1 u1 (log σ ++ l1) (Pass2 t1))).
    { intros h1 l1 u1 t1 E1. destruct (pass2_ok _ _ _ _ _ _ _ _ _ _ _ _ _ [] Hg ltac:(by rewrite app_nil_r) E1) as (P' & A' & Hg' & Ho' & HP & _).
      rewrite app_nil_r in Ho'. exists P', A'. split_and!; [done..|]. simpl. by rewrite scanned_app, <- app_assoc, HP. }
    destruct t as [n a i la|a r la|l r|]; [apply bind_Some in E' as ([[h1 l1] [u1 t1]] & E1 & [= <-]); by apply Hp2..|].
    simplify_eq. inversion Hg as [? ? ? Hu| | | |]; subst. rewrite app_nil_r in Hs. unfold inv. simpl. split_and!; [by apply owns_nil|by apply Hu|done].
Qed.
Lemma scan_reach_inv range p b σ : valid range → Ranges.empty range = false → rtc (step Body_) (run Body_ range p b) σ → inv range b σ.
Proof.
  intros Hv He Hs. pose proof (run_inv range p b Hv He) as Hi. induction Hs as [|σ σ1 σ2 Hst _ IH]; [done|]. apply IH. by eapply scan_step_inv.
Qed.

(** C4: [parallel_scan] with any partitioner is the sequential scan.  However the
    tasks are scheduled and stolen, when it is over each element of the range has
    been given to exactly one final scan, by a body with the sum of the initial
    value and of all the elements before it; the body of the caller has the sum of
    everything; and every temporary body was destroyed once. *)
Theorem parallel_scan_correct (range : R) (p : partition) (b : B) (σ : state R B) (Hv : valid range) (He : Ranges.empty range = false)
    (Hs : rtc (step Body_) (run Body_ range p b) σ) : the_phase σ = Over →
  scanned (log σ) ≡ₚ prefixes (val b) (elems range) ∧ val (user σ) = val b • sum (elems range) ∧ the_heap σ = ∅.
Proof. intros Hover. pose proof (scan_reach_inv _ _ _ _ Hv He Hs) as Hi. unfold inv in Hi. rewrite Hover in Hi. by destruct Hi as (? & ? & ?). Qed.

(** *** Termination *)

(** Every step uses up some of this. *)
Fixpoint node_weight n : nat := match n with NullNode => 1 | SumNode _ _ _ l r => 2 + node_weight l + node_weight r end.
Fixpoint weight1 t : nat :=
  match t with
  | Start sc => 6 * length (elems (m_range sc)) - 4
  | Finish _ _ _ _ l r => 3 + weight1 l + weight1 r
  | Finished n _ => node_weight n
  end.
Fixpoint weight2 (t : tree2 R) : nat :=
  match t with Visit n _ _ _ => node_weight n | Final _ _ _ => 1 | Wait l r => 1 + weight2 l + weight2 r | Done => 0 end.
Definition weight (σ : state R B) : nat :=
  match the_phase σ with Pass1 t => weight1 t + 2 | Pass2 t => weight2 t + 1 | Over => 0 end.

Fixpoint valid_ranges t : Prop :=
  match t with Start sc => valid (m_range sc) | Finish _ _ _ _ l r => valid_ranges l ∧ valid_ranges r | Finished _ _ => True end.
Lemma good_valid f b0 β s xs t u A : good f b0 β s xs t u A → valid_ranges t.
Proof. induction 1 as [| |? ? ? ? ? ? ? ? ? ? ? Hsp| | | |]; simpl; try done. split; [done|]. by apply split_elems in Hsp as (? & ? & _). Qed.
Lemma range_length r : valid r → 0 < length (elems r).
Proof. intros Hv%valid_nonempty. destruct (elems r); [done|simpl; lia]. Qed.

Lemma scan_weight w whole sc β f h h' lg t : scan_or_split Body_ w whole sc β f h = Some (h', lg, t) → valid (m_range sc) →
  weight1 t < 6 * length (elems (m_range sc)) - 4.
Proof.
  intros E' Hv. unfold scan_or_split in E'. destruct (should_execute_range (stolen w) (m_partition sc)) as [p ex]. pose proof (range_length _ Hv).
  destruct (whole || negb (is_divisible (m_range sc)) || ex) eqn:Ec.
  - assert (Et : t = Finished NullNode (if m_sum_slot sc then Some β else None)).
    { case_match; [apply bind_Some in E' as (? & _ & E')|]; by simplify_eq. }
    subst t. simpl. lia.
  - destruct (split_range Split (m_range sc)) as [rl rr] eqn:Es. simplify_eq/=. apply orb_false_iff in Ec as [[_ Hd%negb_false_iff]%orb_false_iff _].
    destruct (split_elems (m_range sc) rl rr) as (Hvl & Hvr & ->); [done|]. rewrite length_app. pose proof (range_length _ Hvl). pose proof (range_length _ Hvr). lia.
Qed.
Lemma start_weight w ls sc h h' lg z t : start_execute Body_ w ls sc h = Some (h', lg, (z, t)) → valid (m_range sc) →
  weight1 t < 6 * length (elems (m_range sc)) - 4.
Proof.
  unfold start_execute. intros E' Hv. case_match; [apply bind_Some in E' as (? & _ & E'); case_decide; [|done]|];
    apply bind_Some in E' as ([[h1 lg1] t1] & E1 & E'); simplify_eq; by eapply scan_weight.
Qed.
Lemma pass1_weight path w t h h' lg t' : pass1_step Body_ path w t h = Some (h', lg, t') → valid_ranges t → weight1 t' < weight1 t.
Proof.
  revert t t' lg. induction path as [|d path IH]; intros t t' lg E' Hv.
  - destruct t as [sc|rg lf sl z [| |lret lsum] [| |rret rsum]|]; try done; simpl in E'.
    + apply bind_Some in E' as ([[h1 lg1] [z t1]] & E1 & [= -> -> <-]). by eapply start_weight.
    + apply bind_Some in E' as ([h1 t1] & E1 & [= -> <- <-]). unfold finish_execute in E1. apply bind_Some in E1 as (h2 & _ & E1).
      destruct z, rret; simplify_eq; simpl; lia.
  - destruct t as [sc|rg lf sl z l r|]; try by destruct d. destruct Hv as [Hvl Hvr]. destruct d; simpl in E'.
    + assert (Er : ∃ z1 r1, t' = Finish rg lf sl z1 l r1 ∧ weight1 r1 < weight1 r).
      { destruct path, r as [sc| |]; apply bind_Some in E' as ([[h1 lg1] tr] & E1 & E'); repeat case_match; simplify_eq; eexists _, _; (split; [done|]);
          (by eapply start_weight) || by eapply IH. }
      destruct Er as (z1 & r1 & -> & Hlt). simpl. lia.
    + apply bind_Some in E' as ([[h1 lg1] tr] & E1 & [= -> -> <-]). specialize (IH _ _ _ E1 Hvl). simpl. lia.
Qed.
Lemma child_weight r a n i la : weight2 (create_child r a n i la) = node_weight n.
Proof. by destruct n. Qed.
Lemma pass2_weight path (t : tree2 R) usr h h' lg usr' (t' : tree2 R) : pass2_step Body_ path t usr h = Some (h', lg, (usr', t')) → weight2 t' < weight2 t.
Proof.
  revert t t'. induction path as [|d path IH]; intros t t' E'.
  - destruct t as [n a i la|a r la|l r|]; try done; simpl in E'.
    + apply bind_Some in E' as ([h1 t1] & E1 & [= -> <- <- <-]). destruct n as [|rg lf ls nl nr]; [done|]. simpl in E1. apply bind_Some in E1 as (λl & _ & E1).
      apply bind_Some in E1 as (bl & _ & E1). apply bind_Some in E1 as (h2 & _ & E1). destruct (split_range Split rg). simplify_eq.
      simpl. rewrite child_weight. destruct lf; rewrite ?child_weight; simpl; lia.
    + apply bind_Some in E' as ([[h1 lg1] u1] & E1 & [= -> -> <- <-]). simpl. lia.
    + destruct l, r; try done. simplify_eq. simpl. lia.
  - destruct t as [| |l r|]; try by destruct d. destruct d; simpl in E'; apply bind_Some in E' as ([[h1 lg1] [u1 t1]] & E1 & [= -> -> <- <-]); specialize (IH _ _ E1); simpl; lia.
Qed.
Lemma scan_step_weight range b σ σ' : inv range b σ → step Body_ σ σ' → weight σ' < weight σ.
Proof.
  intros Hi Hst. destruct Hst as [path w σ σ' E']. unfold next in E'. unfold inv, weight in *. destruct (the_phase σ) as [t|t|] eqn:Eph; [| |done].
  - destruct Hi as (u & A & Hg%good_valid & _). destruct t as [sc|rg lf sl z l r|n sm].
    1,2: apply bind_Some in E' as ([[h1 l1] t1] & E1 & [= <-]); pose proof (pass1_weight _ _ _ _ _ _ _ E1 Hg); simpl in *; lia.
    destruct n; [apply bind_Some in E' as (b0 & _ & [= <-])|simplify_eq]; simpl; lia.
  - destruct t as [n a i la|a r la|l r|]; [apply bind_Some in E' as ([[h1 l1] [u1 t1]] & E1 & [= <-]); apply pass2_weight in E1; simpl in *; lia..|].
    simplify_eq. simpl. lia.
Qed.

(** *** Progress *)
Definition is_finished t : bool := match t with Finished _ _ => true | _ => false end.
Lemma scan_total w whole sc β f h : is_Some (h !! β) → is_Some (scan_or_split Body_ w whole sc β f h).
Proof.
  intros [b Hb]. unfold scan_or_split. destruct (should_execute_range _ _). case_match; [case_match; [rewrite Hb|]; by eexists|].
  destruct (split_range Split (m_range sc)). by eexists.
Qed.
Lemma finish_total f b0 β s xs rg lf sl z lret lsum rret rsum u A h :
  good f b0 β s xs (Finish rg lf sl z (Finished lret lsum) (Finished rret rsum)) u A → (∀ a, a = β ∨ a ∈ A.*1 → is_Some (h !! a)) →
  is_Some (finish_execute Body_ rg lf sl z lret lsum rret rsum h).
Proof.
  intros Hg Hh. unfold finish_execute. inversion Hg as [| | |? ? ? ? ? rl rr ? ? Hsp Hl Hslot Hu|? ? ? ? ? rl rr ζ ? ? ? Al ur Ar Hsp Hl Hr Hstd| |]; subst; simpl; [by eexists|].
  destruct sl; [|by eexists]. assert (Hsum : ∃ σ, rsum = Some σ) by (destruct (right_of _ _ _ _ _ _ _ _ _ Hr) as [(_ & _ & -> & _)|[_ (a & -> & _)]]; eauto).
  destruct (left_of _ _ _ _ _ _ _ _ _ _ Hsp Hl) as [(a & -> & Ha) _]. destruct Hsum as [σ ->]. simpl.
  destruct (Hh σ) as [b Hb]. { right. rewrite fmap_app, elem_of_app. right. simpl. rewrite elem_of_cons. by apply (good_slot _ _ _ _ _ _ _ _ Hr). }
  destruct (Hh a) as [bl Hbl]. { apply elem_of_cons in Ha as [[= -> _]|Ha]; [by left|right]. rewrite fmap_app, elem_of_app. left. apply list_elem_of_fmap. by exists (a, b0 • sum (elems rl)). }
  rewrite Hb. simpl. rewrite Hbl. by eexists.
Qed.
Lemma pass1_progress f b0 β s xs t u A h : good f b0 β s xs t u A → (∀ a, a = β ∨ a ∈ A.*1 → is_Some (h !! a)) → is_finished t = false →
  ∃ path w, is_Some (pass1_step Body_ path w t h).
Proof.
  intros Hg. induction Hg as [f b0 β s r p Hv| |f b0 β s rg rl rr p l u A Hsp Hl IHl|f b0 β s rg rl rr l u Hsp Hl IHl Hslot Hu
    |f b0 β s rg rl rr ζ l r u A ur Ar Hsp Hl IHl Hr IHr Hstd| |]; intros Hh Hf; try done.
  - exists [], (Answer false 0). simpl. destruct (scan_total (Answer false 0) false (StartScan r β p s f false) β f h) as [[[h1 lg1] t1] E1]; [by apply Hh; left|].
    unfold start_execute. simpl. rewrite E1. by eexists.
  - destruct (is_finished l) eqn:Efl.
    + pose (a := fresh (dom h)). assert (Ha : h !! a = None) by (apply not_elem_of_dom, is_fresh). exists [true], (Answer true a). simpl. unfold start_execute. simpl.
      destruct (Hh β) as [b Hb]; [by left|]. rewrite Hb. simpl. rewrite decide_True by done.
      destruct (scan_total (Answer true a) false (StartScan rr β p s f true) a false (<[a := split_body Body_ b]> h)) as [[[h1 lg1] t1] E1]; [by rewrite lookup_insert_eq|].
      rewrite E1. by eexists.
    + destruct (IHl Hh eq_refl) as (path & w & [[h1 lg1] l1] & E1). exists (false :: path), w. simpl. rewrite E1. by eexists.
  - destruct (is_finished l) eqn:Efl.
    + destruct l; try done. exists [], (Answer false 0). simpl. by eexists.
    + destruct IHl as (path & w & [[h1 lg1] l1] & E1); [|done|exists (false :: path), w; simpl; rewrite E1; by eexists]. intros a [-> | []%elem_of_nil]. apply Hh. by left.
  - assert (Hm : ∀ a, a ∈ (A ++ (ζ, sum ur) :: Ar).*1 ↔ a ∈ A.*1 ∨ a = ζ ∨ a ∈ Ar.*1) by (intros a; rewrite fmap_app, elem_of_app; simpl; by rewrite elem_of_cons).
    destruct (is_finished l) eqn:Efl; [destruct (is_finished r) eqn:Efr|].
    + destruct l as [| |lret lsum], r as [| |rret rsum]; try done. exists [], (Answer false 0). simpl.
      destruct (finish_total f b0 β s (elems rg) rg f s (Some ζ) lret lsum rret rsum u (A ++ (ζ, sum ur) :: Ar) h) as [[h1 t1] E1]; [by eapply good_stolen|done|].
      rewrite E1. by eexists.
    + destruct IHr as (path & w & [[h1 lg1] r1] & E1); [|done|]. { intros a Ha. apply Hh. right. rewrite Hm. by right. }
      exists (true :: path), w. simpl. destruct path, r; try done; rewrite E1; by eexists.
    + destruct IHl as (path & w & [[h1 lg1] l1] & E1); [|done|exists (false :: path), w; simpl; rewrite E1; by eexists].
      intros a [-> | Ha]; apply Hh; [by left|right]. rewrite Hm. by left.
Qed.
Lemma node_total f b0 β xs n u A a i la h : node_ok f b0 β xs n u A → (∀ a', a' = β ∨ a' ∈ A.*1 → is_Some (h !! a')) →
  (∀ i', i = Some i' → is_Some (h !! i')) → is_Some (node_execute Body_ n a i la h).
Proof.
  intros Hn Hh Hinc. assert (Hls : ∃ rg lf λl nl nr, n = SumNode rg lf (Some λl) nl nr ∧ (λl = β ∨ λl ∈ A.*1)).
  { destruct Hn; do 6 eexists; try done; [by left|right]. rewrite fmap_app, elem_of_app. right. simpl. left. }
  destruct Hls as (rg & lf & λl & nl & nr & -> & Hl). destruct (Hh λl Hl) as [bl Hbl]. simpl. rewrite Hbl. simpl. destruct (split_range Split rg).
  destruct i as [i|]; [|by eexists]. destruct (Hinc i eq_refl) as [bi Hbi]. rewrite Hbi. by eexists.
Qed.
Lemma pass2_progress v acc last xs (t : tree2 R) P A usr h : good2 v acc last xs t P A → (∀ a, a ∈ A.*1 → is_Some (h !! a)) → t ≠ Done →
  ∃ path, is_Some (pass2_step Body_ path t usr h).
Proof.
  intros Hg. induction Hg as [|acc last ζ xs n u A a Hn|acc last β xs n u ys A Hn Ex|acc last r a Hv|acc last xl xr l r Pl Pr Al Ar Hl IHl Hr IHr]; intros Hh Hne; [done|..].
  - exists []. simpl. destruct (node_total _ _ _ _ _ _ _ a (Some a) last h Hn) as [[h1 t1] E1]; [|by intros ? [= <-]; apply Hh; left|rewrite E1; by eexists].
    intros a' Ha'. apply Hh. simpl. rewrite !elem_of_cons. tauto.
  - exists []. simpl. destruct (node_total _ _ _ _ _ _ _ β None last h Hn) as [[h1 t1] E1]; [|done|rewrite E1; by eexists].
    intros a' Ha'. apply Hh. simpl. rewrite !elem_of_cons. tauto.
  - exists []. simpl. unfold final_execute. destruct (Hh a) as [b Hb]; [left|]. rewrite Hb. by eexists.
  - rewrite fmap_app in Hh. destruct (decide (weight2 l = 0)) as [El|El].
    + assert (l = Done) as -> by (destruct l as [[]| | |]; simpl in *; done || lia). destruct (decide (weight2 r = 0)) as [Er|Er].
      * assert (r = Done) as -> by (destruct r as [[]| | |]; simpl in *; done || lia). exists []. by eexists.
      * destruct IHr as (path & [[h1 lg1] [u1 t1]] & E1); [intros a Ha; apply Hh, elem_of_app; by right|by intros ->|]. exists (true :: path). simpl. rewrite E1. by eexists.
    + destruct IHl as (path & [[h1 lg1] [u1 t1]] & E1); [intros a Ha; apply Hh, elem_of_app; by left|by intros ->|]. exists (false :: path). simpl. rewrite E1. by eexists.
Qed.

Lemma owns_some h A a : owns h A → a ∈ A.*1 → is_Some (h !! a).
Proof. intros Ho ([a' m] & -> & Hin)%list_elem_of_fmap. destruct (owns_elem _ _ _ _ Ho Hin) as (b & Hb & _). by eexists. Qed.
Lemma scan_progress range b σ : inv range b σ → the_phase σ ≠ Over → ∃ σ', step Body_ σ σ'.
Proof.
  intros Hi Hne. assert (Hn : ∃ path w, is_Some (next Body_ path w σ)); [|destruct Hn as (path & w & σ' & E'); exists σ'; by econstructor].
  unfold next. unfold inv in Hi. destruct (the_phase σ) as [t|t|] eqn:Eph; [| |done].
  - destruct Hi as (u & A & Hg & Ho & _). assert (Hh : ∀ a, a = 0 ∨ a ∈ A.*1 → is_Some (the_heap σ !! a)).
    { intros a Ha. apply (owns_some _ _ _ Ho). simpl. by rewrite elem_of_cons. }
    destruct (is_finished t) eqn:Ef.
    + destruct t as [| |n sm]; try done. exists [], (Answer false 0). destruct n; [|by eexists]. destruct (Hh 0) as [b' Hb]; [by left|]. rewrite Hb. by eexists.
    + destruct (pass1_progress _ _ _ _ _ _ _ _ _ Hg Hh Ef) as (path & w & [[h1 lg1] t1] & E1). exists path, w. destruct t; try done; rewrite E1; by eexists.
  - destruct Hi as (P & A & Hg & Ho & _). destruct (decide (weight2 t = 0)) as [Et|Et].
    + assert (t = Done) as -> by (destruct t as [[]| | |]; simpl in *; done || lia). exists [], (Answer false 0). by eexists.
    + destruct (pass2_progress _ _ _ _ _ _ _ (user σ) (the_heap σ) Hg) as (path & [[h1 lg1] [u1 t1]] & E1); [intros a; by apply owns_some|by intros ->|].
      exists path, (Answer false 0). destruct t; try done; rewrite E1; by eexists.
Qed.

(** C31: [parallel_scan] finishes: it takes at most a number of steps linear in the
    size of the range, and in every state it reaches before it is over a task can be
    executed without using a body that is destroyed or a slot that is not set. *)
Theorem parallel_scan_terminates (range : R) (p : partition) (b : B) (Hv : valid range) (He : Ranges.empty range = false) :
  (∀ (n : nat) σ, nsteps (step Body_) n (run Body_ range p b) σ → n ≤ 6 * length (elems range)) ∧
  (∀ σ, rtc (step Body_) (run Body_ range p b) σ → nf (step Body_) σ → the_phase σ = Over).
Proof.
  split.
  - assert (Hn : ∀ (n : nat) σ σ', nsteps (step Body_) n σ σ' → inv range b σ → n ≤ weight σ).
    { induction 1 as [|n σ σ1 σ2 Hst _ IH]; intros Hi; [lia|]. pose proof (scan_step_weight _ _ _ _ Hi Hst). specialize (IH (scan_step_inv _ _ _ _ Hi Hst)). lia. }
    intros n σ Hst. specialize (Hn _ _ _ Hst (run_inv range p b Hv He)). pose proof (range_length _ Hv). unfold weight, run in Hn. rewrite He in Hn. simpl in Hn. lia.
  - intros σ Hst Hnf. pose proof (scan_reach_inv _ _ _ _ Hv He Hst) as Hi. destruct (the_phase σ) eqn:Eph; [| |done]; destruct Hnf; apply (scan_progress range b σ Hi); by rewrite Eph.
Qed.
End laws.
End Scan.

(** ** Examples *)
Module ScanExamples.
Import Blocked Scan.
Local Open Scope Z_scope.

Definition sum_body : body blocked_range Z := lambda_scan_body 0 (λ r v _, foldr Z.add v (br_elems r)) Z.add.
Lemma foldr_start l v : foldr Z.add v l = v + foldr Z.add 0 l.
Proof. induction l as [|x l IH]; simpl; lia. Qed.
#[local] Instance sum_laws : ScanLaws sum_body id Z.add 0 id.
Proof. constructor; simpl; try done; try lia. intros _ r b _. apply foldr_start. Qed.

Definition four : blocked_range := BlockedRange 9 5 1.
Lemma four_valid : valid four.
Proof. done. Qed.

(** The run of the tasks at these paths *)
Definition run_tasks (l : list (list bool * answer)) σ : option (state blocked_range Z) := run_trace (λ x σ, next sum_body x.1 x.2 σ) l σ.
Lemma run_tasks_steps l σ σ' : run_tasks l σ = Some σ' → rtc (step sum_body) σ σ'.
Proof. apply run_trace_rtc. intros [path w] s s' E. by econstructor. Qed.
Definition mine : answer := Answer false 0.
Definition thief (a : nat) : answer := Answer true a.
(** The range is split into two halves; the left half is scanned by one thread; the
    right half is stolen and split, and its right part is stolen again. *)
Definition two_passes : list (list bool * answer) :=
  [([], mine); ([true], thief 1); ([false], mine); ([false; false], mine); ([true; false], mine); ([false; true], mine); ([true; true], thief 2);
   ([false], mine); ([true], mine); ([], mine); ([], mine); ([], mine); ([true], mine); ([true; true], mine); ([true; false], mine); ([true], mine); ([], mine); ([], mine)].
Definition scan_end : state blocked_range Z := default (run sum_body four SimplePartition 100) (run_tasks two_passes (run sum_body four SimplePartition 100)).
Lemma two_passes_end : run_tasks two_passes (run sum_body four SimplePartition 100) = Some scan_end.
Proof. vm_compute. reflexivity. Qed.

Lemma parallel_scan_correct_witness : user scan_end = 100 + 26 ∧ scanned id Z.add id (log scan_end) ≡ₚ [(5, 100); (6, 105); (7, 111); (8, 118)].
Proof.
  destruct (parallel_scan_correct sum_body id Z.add 0 id four SimplePartition 100 scan_end four_valid eq_refl (run_tasks_steps _ _ _ two_passes_end)
    ltac:(vm_compute; reflexivity)) as (H1 & H2 & _).
  split; [exact H2|exact H1].
Defined.
Lemma scan_end_over : the_phase scan_end = Over.
Proof. vm_compute. reflexivity. Qed.
Lemma parallel_scan_terminates_witness : the_phase scan_end = Over.
Proof.
  exact (proj2 (parallel_scan_terminates sum_body id Z.add 0 id four SimplePartition 100 four_valid eq_refl) scan_end
    (run_tasks_steps _ _ _ two_passes_end) (over_nf sum_body scan_end scan_end_over)).
Defined.
End ScanExamples.
