(* ===== verification/MirrorPartition.v ===== *)
(** * Parallel partition of an array

    The partition step of [parallel_sort]: a reduction over the first half of
    the range in which each chunk is paired with its mirror image in the second
    half.  Source: include/oneapi/tbb/detail/_parallel_partition.h
    ([parallel_partition_body], [parallel_partition]).

    The array is a list; an operation on it is a computation in a monad [M] of
    state and failure, in which an access outside of the array fails.
    [std::partition] is any function with its postcondition.  The reduction is
    its history ([history]): which body was applied to which chunks and which
    bodies were joined; the file shows which histories [ParallelReduce] allows,
    that each of them partitions the array, and that parts of a history that work
    on different chunks do not interfere, so that they may run at the same time. *)

From S2P Require Import Prelude Ranges Partitioner ParallelReduce.
From stdpp Require Import base numbers relations list.
From Stdlib Require Import ZArith Lia.

(** ** Arrays *)
Module Arrays.

(** A computation on an array: it fails on an access out of bounds. *)
Definition M (A X : Type) : Type := list A → option (X * list A).
#[export] Instance M_ret A : MRet (M A) := λ X x l, Some (x, l).
#[export] Instance M_bind A : MBind (M A) := λ X Y f m l, '(x, l') ← m l; f x l'.

Section arrays.
Context {A : Type}.
Implicit Types (l : list A) (S T : nat → Prop).

Definition read (i : nat) : M A A := λ l, x ← l !! i; Some (x, l).
Definition write_at (i : nat) (x : A) : M A () := λ l, l' ← write l i x; Some ((), l').
Definition iter_swap (i j : nat) : M A () :=
  x ← read i; y ← read j; write_at j x;; write_at i y.

(** The elements of a range, and their replacement. *)
Definition slice (a b : nat) l : list A := take (b - a) (drop a l).
Definition splice (a b : nat) (new l : list A) : list A := take a l ++ new ++ drop b l.

(** An algorithm of the standard library on the range: it gets the elements. *)
Definition on_range {X} (a b : nat) (f : list A → X * list A) : M A X := λ l,
  if decide (a ≤ b ≤ length l) then let '(x, new) := f (slice a b l) in Some (x, splice a b new l) else None.

(** The array is permuted, and only at the positions [S]. *)
Definition reorders S l l' : Prop := l' ≡ₚ l ∧ ∀ i, ¬ S i → l' !! i = l !! i.

(** The computation on arrays of length [n] accesses only the positions [S]. *)
Definition local (n : nat) S {X} (m : M A X) : Prop := ∀ l1 l2,
  length l1 = n → length l2 = n → (∀ i, S i → l1 !! i = l2 !! i) →
  match m l1, m l2 with
  | Some (x1, l1'), Some (x2, l2') =>
      x1 = x2 ∧ length l1' = n ∧ length l2' = n ∧ (∀ i, S i → l1' !! i = l2' !! i) ∧
      (∀ i, ¬ S i → l1' !! i = l1 !! i) ∧ (∀ i, ¬ S i → l2' !! i = l2 !! i)
  | None, None => True
  | _, _ => False
  end.

Lemma bind_run {X Y} (m : M A X) (f : X → M A Y) l x l' : m l = Some (x, l') → (m ≫= f) l = f x l'.
Proof. intros E. unfold mbind, M_bind. by rewrite E. Qed.

(** *** What changes *)
Lemma reorders_refl S l : reorders S l l.
Proof. done. Qed.
Lemma reorders_trans S T l1 l2 l3 : reorders S l1 l2 → reorders T l2 l3 → reorders (λ i, S i ∨ T i) l1 l3.
Proof.
  intros [H1 F1] [H2 F2]. split; [by rewrite H2|]. intros i Hi. rewrite F2, F1; [done|..]; intros ?; apply Hi; auto.
Qed.
Lemma reorders_mono S T l l' : (∀ i, S i → T i) → reorders S l l' → reorders T l l'.
Proof. intros HST [H F]. split; [done|]. intros i Hi. apply F. intros ?. by apply Hi, HST. Qed.
Lemma reorders_length S l l' : reorders S l l' → length l' = length l.
Proof. intros [H _]. by apply Permutation_length. Qed.

Lemma iter_swap_spec i j l :
  i < length l → j < length l → i ≠ j →
  ∃ l', iter_swap i j l = Some ((), l') ∧ reorders (λ k, k = i ∨ k = j) l l' ∧
    l' !! i = l !! j ∧ l' !! j = l !! i.
Proof.
  intros [x Hx]%lookup_lt_is_Some_2 [y Hy]%lookup_lt_is_Some_2 Hne.
  assert (Hj : j < length l) by (by eapply lookup_lt_Some).
  assert (Hi : i < length (<[j := x]> l)) by (rewrite length_insert; by eapply lookup_lt_Some).
  exists (<[i := y]> (<[j := x]> l)). split_and!.
  - unfold iter_swap, read, write_at, mbind, M_bind. simpl. rewrite Hx. simpl. rewrite Hy. simpl.
    rewrite write_Some by done. simpl. by rewrite write_Some.
  - split; [by apply insert_swap|]. intros k Hk. rewrite !list_lookup_insert_ne by (intros ->; auto). done.
  - by rewrite list_lookup_insert_eq, Hy.
  - rewrite list_lookup_insert_ne, list_lookup_insert_eq by done. done.
Qed.

(** *** Ranges *)
Lemma slice_lookup a b l i : i < b - a → slice a b l !! i = l !! (a + i).
Proof. intros Hi. unfold slice. by rewrite lookup_take_lt, lookup_drop by done. Qed.

Lemma slice_splice a b l : a ≤ b → l = take a l ++ slice a b l ++ drop b l.
Proof.
  intros Hab. unfold slice. rewrite <- (take_drop a l) at 1. f_equal.
  rewrite <- (take_drop (b - a) (drop a l)) at 1. rewrite drop_drop. do 2 f_equal. lia.
Qed.

Lemma length_slice a b l : a ≤ b ≤ length l → length (slice a b l) = b - a.
Proof. intros. unfold slice. rewrite length_take, length_drop. lia. Qed.

Lemma splice_lookup a b new l i :
  a ≤ b ≤ length l → length new = b - a →
  splice a b new l !! i = if decide (a ≤ i < b) then new !! (i - a) else l !! i.
Proof.
  intros Hab Hn. unfold splice. assert (Ht : length (take a l) = a) by (rewrite length_take; lia).
  case_decide as Hi.
  - rewrite lookup_app_r, Ht by lia. by rewrite lookup_app_l by lia.
  - destruct (decide (i < a)).
    + rewrite lookup_app_l by lia. by apply lookup_take_lt.
    + rewrite !lookup_app_r by lia. rewrite lookup_drop, Ht. f_equal. lia.
Qed.

Lemma splice_reorders a b new l :
  a ≤ b ≤ length l → new ≡ₚ slice a b l → reorders (λ i, a ≤ i < b) l (splice a b new l).
Proof.
  intros Hab Hn. split.
  - rewrite (slice_splice a b l) at 2 by lia. unfold splice. by rewrite Hn.
  - intros i Hi. rewrite splice_lookup; [by rewrite decide_False|done|].
    rewrite (Permutation_length Hn). by apply length_slice.
Qed.

(** Inside of the range the elements are the same. *)
Lemma reorders_slice a b l l' :
  a ≤ b ≤ length l → reorders (λ i, a ≤ i < b) l l' → slice a b l' ≡ₚ slice a b l.
Proof.
  intros Hab H. pose proof (reorders_length _ _ _ H) as Hlen. destruct H as [Hp Hf].
  assert (E1 : take a l' = take a l).
  { apply list_eq. intros i. destruct (decide (i < a)); [|rewrite !lookup_take_ge by lia; done].
    rewrite !lookup_take_lt by done. apply Hf. lia. }
  assert (E2 : drop b l' = drop b l).
  { apply list_eq. intros i. rewrite !lookup_drop. apply Hf. lia. }
  rewrite (slice_splice a b l') in Hp by lia. rewrite (slice_splice a b l) in Hp by lia.
  rewrite E1, E2 in Hp. apply Permutation_app_inv_l in Hp. by apply Permutation_app_inv_r in Hp.
Qed.

(** *** Locality *)
Section local.
Context (n : nat) (S : nat → Prop).

Lemma local_ret {X} (x : X) : local n S (mret x).
Proof. intros l1 l2 L1 L2 Heq. simpl. by split_and!. Qed.

(** [P] is what the first computation says about its result. *)
Lemma local_bind {X Y} (P : X → Prop) (m : M A X) (f : X → M A Y) :
  local n S m → (∀ l x l', length l = n → m l = Some (x, l') → P x) → (∀ x, P x → local n S (f x)) → local n S (m ≫= f).
Proof.
  intros Hm HP Hf l1 l2 L1 L2 Heq. specialize (Hm l1 l2 L1 L2 Heq). unfold mbind, M_bind.
  destruct (m l1) as [[x1 k1]|] eqn:E, (m l2) as [[x2 k2]|]; simpl; try done.
  destruct Hm as (-> & Hl1 & Hl2 & He & Hn1 & Hn2). specialize (Hf x2 (HP _ _ _ L1 E) k1 k2 Hl1 Hl2 He).
  destruct (f x2 k1) as [[y1 k1']|], (f x2 k2) as [[y2 k2']|]; try done.
  destruct Hf as (-> & Hl1' & Hl2' & He' & Hn1' & Hn2'). split_and!; try done.
  - intros i Hi. by rewrite Hn1', Hn1.
  - intros i Hi. by rewrite Hn2', Hn2.
Qed.

Lemma local_bind' {X Y} (m : M A X) (f : X → M A Y) : local n S m → (∀ x, local n S (f x)) → local n S (m ≫= f).
Proof. intros Hm Hf. apply (local_bind (λ _, True)); auto. Qed.

Lemma local_read i : S i → local n S (read i).
Proof.
  intros Hi l1 l2 L1 L2 Heq. unfold read. rewrite (Heq i Hi). destruct (l2 !! i); simpl; [by split_and!|done].
Qed.

Lemma local_write i x : S i → local n S (write_at i x).
Proof.
  intros Hi l1 l2 L1 L2 Heq. unfold write_at, write. rewrite L1, L2. case_decide as Hlt; simpl; [|done].
  rewrite !length_insert. split_and!; try done; intros k Hk.
  - destruct (decide (i = k)) as [<-|Hne]; [by rewrite !list_lookup_insert_eq by lia|].
    rewrite !list_lookup_insert_ne by done. by apply Heq.
  - rewrite list_lookup_insert_ne; [done|]. by intros ->.
  - rewrite list_lookup_insert_ne; [done|]. by intros ->.
Qed.

Lemma local_iter_swap i j : S i → S j → local n S (iter_swap i j).
Proof.
  intros Hi Hj. apply local_bind'; [by apply local_read|]. intros x. apply local_bind'; [by apply local_read|].
  intros y. apply local_bind'; [by apply local_write|]. intros _. by apply local_write.
Qed.

Lemma local_on_range {X} a b (f : list A → X * list A) :
  (∀ k, length (f k).2 = length k) → (∀ i, a ≤ i < b → S i) → local n S (on_range a b f).
Proof.
  intros Hf HS l1 l2 L1 L2 Heq. unfold on_range. rewrite L1, L2. case_decide as Hab; [|done].
  assert (E : slice a b l1 = slice a b l2).
  { apply list_eq. intros i. destruct (decide (i < b - a)).
    - rewrite !slice_lookup by done. apply Heq, HS. lia.
    - rewrite !lookup_ge_None_2; [done|rewrite length_slice; lia..]. }
  rewrite E. pose proof (Hf (slice a b l2)) as Hn. destruct (f (slice a b l2)) as [x new]; simpl in Hn.
  rewrite length_slice in Hn by lia.
  assert (Hl : ∀ l, length l = n → length (splice a b new l) = n).
  { intros l Hl. unfold splice. rewrite !length_app, length_take, length_drop. lia. }
  assert (Ho : ∀ l, length l = n → ∀ i, ¬ S i → splice a b new l !! i = l !! i).
  { intros l Hl' i Hi. rewrite splice_lookup by lia. rewrite decide_False; [done|]. by intros ?%HS. }
  split_and!; auto. intros i Hi. rewrite !splice_lookup by lia. case_decide; [done|]. by apply Heq.
Qed.
End local.

(** Computations on different positions may be exchanged. *)
Lemma local_commute n S T `{!∀ i, Decision (S i)} `{!∀ i, Decision (T i)} {X Y} (f : M A X) (g : M A Y) l x l1 y l2 :
  length l = n → local n S f → local n T g → (∀ i, S i → T i → False) → f l = Some (x, l1) → g l1 = Some (y, l2) →
  ∃ l1', g l = Some (y, l1') ∧ f l1' = Some (x, l2).
Proof.
  intros L Hf Hg Hd Ef Eg.
  assert (F1 : length l1 = n ∧ ∀ i, ¬ S i → l1 !! i = l !! i).
  { specialize (Hf l l L L ltac:(done)). rewrite Ef in Hf. by destruct Hf as (_ & ? & _ & _ & ? & _). }
  destruct F1 as [L1 F1].
  assert (HT : ∀ i, T i → l1 !! i = l !! i) by (intros i Hi; apply F1; eauto).
  specialize (Hg l1 l L1 L HT). rewrite Eg in Hg. destruct (g l) as [[y' l1']|]; [|done].
  destruct Hg as (<- & L2 & L1' & G1 & G2 & G3). exists l1'. split; [done|].
  assert (HS : ∀ i, S i → l !! i = l1' !! i) by (intros i Hi; symmetry; apply G3; eauto).
  specialize (Hf l l1' L L1' HS). rewrite Ef in Hf. destruct (f l1') as [[x' l3]|]; [|done].
  destruct Hf as (<- & _ & L3 & H1 & _ & H3). do 2 f_equal. apply list_eq. intros i.
  destruct (decide (S i)) as [Hi|Hi]; [rewrite <- H1, G2; eauto|]. rewrite H3 by done.
  destruct (decide (T i)) as [Hj|Hj]; [by rewrite G1|]. by rewrite G3, G2, F1 by done.
Qed.
End arrays.
End Arrays.

(** ** The body of the reduction *)
Module Mirror.
Import Arrays Blocked Partition Execute Reduce.

(** [std::partition] on the elements of a range: the number of elements that
    satisfy the predicate, and the elements with these in front. *)
Class StdPartition (A : Type) := std_partition : (A → bool) → list A → nat * list A.
Class StdPartitionLaws (A : Type) `{StdPartition A} := {
  std_partition_spec p l k l' : std_partition p l = (k, l') →
    l' ≡ₚ l ∧ k ≤ length l ∧ Forall (λ x, p x = true) (take k l') ∧ Forall (λ x, p x = false) (drop k l');
}.

(** Positions of [parallel_partition_body]. *)
Record body := Body {
  m_real_chunk_begin : nat;
  m_real_chunk_end : nat;
  m_mirror_chunk_begin : nat;
  m_mirror_chunk_end : nat;
  m_false_leftover : nat;
  m_true_leftover : nat;
}.

(** What happened to a body: it was made by the constructor or by a split,
    applied to a chunk, joined with another one. *)
Inductive history :=
  | Start
  | Applied (h : history) (first last : nat)
  | Joined (h src : history).

(** The history of an execution of [parallel_reduce]. *)
Fixpoint positions (t : trace blocked_range) : history :=
  match t with
  | TStart => Start
  | TApply t r => Applied (positions t) (Z.to_nat (my_begin r)) (Z.to_nat (my_end r))
  | TJoin t t' => Joined (positions t) (positions t')
  end.

Section partition.
Context {A : Type} `{StdPartition A}.
(** The order in which a [parallel_for] over [first, last) does its elements. *)
Context (sched : nat → nat → list nat).
Context (m_pred : A → bool) (g_first g_last : nat).

(** [std::swap_ranges] and [parallel_swap_ranges] *)
Fixpoint swap_ranges (order : list nat) (first target_begin : nat) : M A () :=
  match order with
  | [] => mret ()
  | i :: order => iter_swap (first + i) (target_begin + i);; swap_ranges order first target_begin
  end.
Definition serial_cutoff : nat := 2 ^ 13.
Definition parallel_swap_ranges (first last target_begin : nat) : M A () :=
  swap_ranges (if decide (last - first < serial_cutoff) then seq 0 (last - first) else sched first last)
    first target_begin.

Definition partial_swap (false_begin false_end true_begin true_end : nat) : M A nat :=
  let swap_size := (false_end - false_begin) `min` (true_end - true_begin) in
  parallel_swap_ranges false_begin (false_begin + swap_size) (true_end - swap_size);;
  mret swap_size.

Definition flip_partition (false_begin false_end true_end : nat) : M A nat :=
  partial_swap false_begin false_end false_end true_end;;
  mret (true_end - (false_end - false_begin)).

Definition has_false_leftover (b : body) : bool := negb (m_false_leftover b =? m_real_chunk_end b).
Definition has_true_leftover (b : body) : bool := negb (m_true_leftover b =? m_mirror_chunk_begin b).

(** The constructor, and the split of another body. *)
Definition new_body : body := Body g_last g_last g_last g_last g_last g_last.

(** The loops of [operator()]; the number of iterations left is their measure. *)
Fixpoint skip_true (n left : nat) : M A nat :=
  match n with
  | O => mret left
  | S n => x ← read left; if m_pred x then skip_true n (left + 1) else mret left
  end.
Fixpoint skip_false (n right : nat) : M A nat :=
  match n with
  | O => mret right
  | S n => x ← read (right - 1); if m_pred x then mret right else skip_false n (right - 1)
  end.
Fixpoint partition_pair (fuel left right real_chunk_end mirror_chunk_begin : nat) : M A (nat * nat) :=
  match fuel with
  | O => λ _, None
  | S fuel =>
      left ← skip_true (real_chunk_end - left) left;
      right ← skip_false (right - mirror_chunk_begin) right;
      if decide (left ≠ real_chunk_end ∧ right ≠ mirror_chunk_begin) then
        iter_swap left (right - 1);;
        partition_pair fuel (left + 1) (right - 1) real_chunk_end mirror_chunk_begin
      else mret (left, right)
  end.

Definition std_partition_range (first last : nat) : M A nat :=
  k ← on_range first last (std_partition m_pred); mret (first + k).

Definition join (b src : body) : M A body :=
  '(false_leftover, true_leftover) ←
    (if has_false_leftover b then
       swap_size ← (if has_true_leftover src then
                      partial_swap (m_false_leftover b) (m_real_chunk_end b)
                        (m_mirror_chunk_begin src) (m_true_leftover src)
                    else mret 0);
       false_leftover ← flip_partition (m_false_leftover b + swap_size) (m_real_chunk_end b) (m_false_leftover src);
       mret (false_leftover, m_true_leftover src - swap_size)
     else
       swap_size ← (if has_false_leftover src then
                      partial_swap (m_false_leftover src) (m_real_chunk_end src)
                        (m_mirror_chunk_begin b) (m_true_leftover b)
                    else mret 0);
       true_leftover ← flip_partition (m_true_leftover src) (m_mirror_chunk_begin b) (m_true_leftover b - swap_size);
       mret (m_false_leftover src + swap_size, true_leftover));
  mret (Body (m_real_chunk_begin b) (m_real_chunk_end src) (m_mirror_chunk_begin src) (m_mirror_chunk_end b)
          false_leftover true_leftover).

(** The part of [operator()] that works on the two chunks. *)
Definition mid : nat := g_first + (g_last - g_first) / 2.
Definition mirror_begin (real_chunk_end : nat) : nat :=
  if decide (real_chunk_end = mid) then mid else g_last - (real_chunk_end - g_first).
Definition mirror_end (real_chunk_begin : nat) : nat := g_last - (real_chunk_begin - g_first).
Definition partition_chunks (real_chunk_begin real_chunk_end : nat) : M A body :=
  let mirror_chunk_begin := mirror_begin real_chunk_end in
  let mirror_chunk_end := mirror_end real_chunk_begin in
  '(lft, rgt) ← partition_pair (real_chunk_end - real_chunk_begin + 1) real_chunk_begin mirror_chunk_end
                    real_chunk_end mirror_chunk_begin;
  '(false_leftover, true_leftover) ←
    (if decide (lft ≠ real_chunk_end) then
       k ← std_partition_range lft real_chunk_end; mret (k, mirror_chunk_begin)
     else k ← std_partition_range mirror_chunk_begin rgt; mret (real_chunk_end, k));
  mret (Body real_chunk_begin real_chunk_end mirror_chunk_begin mirror_chunk_end false_leftover true_leftover).

(** [operator()]; a body that has chunks already is joined with the new ones. *)
Definition apply_body (first last : nat) (b : body) : M A body :=
  tmp ← partition_chunks first last;
  if decide (m_real_chunk_begin b = m_real_chunk_end b) then mret tmp else join b tmp.

Fixpoint eval (h : history) : M A body :=
  match h with
  | Start => mret new_body
  | Applied h first last => b ← eval h; apply_body first last b
  | Joined h src => b ← eval h; c ← eval src; join b c
  end.

(** The result of the reduction. *)
Definition partition_point (b : body) : nat :=
  if has_true_leftover b then m_true_leftover b else m_false_leftover b.

(** [parallel_partition] of [g_first, g_last), for a history of its reduction;
    the cutoff is 500 elements for each thread of the arena. *)
Definition parallel_partition (serial_partition_cutoff : nat) (h : history) : M A nat :=
  if decide (g_last - g_first < serial_partition_cutoff) then std_partition_range g_first g_last
  else b ← eval h; mret (partition_point b).

(** ** Specifications *)
Context `{!StdPartitionLaws A} (Hsched : ∀ a b, sched a b ≡ₚ seq 0 (b - a)).
Implicit Types (l : list A).

(** The predicate has the value [v] at the positions from [a] to [b]. *)
Definition holds (v : bool) (a b : nat) l : Prop := ∀ i x, a ≤ i < b → l !! i = Some x → m_pred x = v.

Lemma holds_sub v a b a' b' l : holds v a b l → a ≤ a' → b' ≤ b → holds v a' b' l.
Proof. intros Hh Ha Hb i x Hi. apply Hh. lia. Qed.
Lemma holds_app v a m b l : holds v a m l → holds v m b l → holds v a b l.
Proof. intros H1 H2 i x Hi. destruct (decide (i < m)); [apply H1|apply H2]; lia. Qed.
Lemma holds_empty v a b l : b ≤ a → holds v a b l.
Proof. intros Hb i x Hi. lia. Qed.
Lemma holds_frame P v a b l l' :
  reorders P l l' → (∀ i, P i → ¬ a ≤ i < b) → holds v a b l → holds v a b l'.
Proof. intros [_ Hf] HP Hh i x Hi. rewrite Hf; [by apply Hh|]. intros ?. by eapply HP. Qed.

Lemma swap_ranges_spec order first target s l :
  NoDup order → Forall (λ i, i < s) order → first + s ≤ target ∨ target + s ≤ first →
  first + s ≤ length l → target + s ≤ length l →
  ∃ l', swap_ranges order first target l = Some ((), l') ∧
    reorders (λ k, first ≤ k < first + s ∨ target ≤ k < target + s) l l' ∧
    (∀ i, i ∈ order → l' !! (first + i) = l !! (target + i) ∧ l' !! (target + i) = l !! (first + i)) ∧
    (∀ i, i ∉ order → l' !! (first + i) = l !! (first + i) ∨ s ≤ i) ∧
    (∀ i, i ∉ order → l' !! (target + i) = l !! (target + i) ∨ s ≤ i).
Proof.
  intros Hnd Hlt Hdis Hf Ht. revert l Hf Ht. induction Hnd as [|i order Hi Hnd IH]; intros l Hf Ht; simpl.
  { exists l. split_and!; auto using reorders_refl. by intros i ?%elem_of_nil. }
  apply Forall_cons in Hlt as [His Hlt].
  destruct (iter_swap_spec (first + i) (target + i) l) as (l1 & E1 & R1 & S1 & S2); [lia..|].
  pose proof (reorders_length _ _ _ R1) as L1.
  destruct (IH Hlt l1) as (l2 & E2 & R2 & S3 & S4 & S5); [lia..|].
  exists l2. rewrite (bind_run _ _ _ _ _ E1). split_and!; [done| | | |].
  - eapply reorders_mono, reorders_trans; [|exact R1|exact R2]. simpl. lia.
  - destruct R1 as [_ F1]. intros j [->|Hj]%elem_of_cons.
    + destruct (S4 i Hi) as [->|]; [|lia]. destruct (S5 i Hi) as [->|]; [|lia]. done.
    + assert (j ≠ i) by (by intros ->). assert (j < s) by (by eapply Forall_forall in Hlt).
      destruct (S3 j Hj) as [-> ->]. rewrite !F1; [done|lia..].
  - destruct R1 as [_ F1]. intros j [Hne Hj]%not_elem_of_cons. destruct (S4 j Hj) as [->|]; [|by right].
    destruct (decide (j < s)); [|right; lia]. left. apply F1. lia.
  - destruct R1 as [_ F1]. intros j [Hne Hj]%not_elem_of_cons. destruct (S5 j Hj) as [->|]; [|by right].
    destruct (decide (j < s)); [|right; lia]. left. apply F1. lia.
Qed.

Lemma parallel_swap_ranges_spec first last target l :
  first ≤ last → last ≤ target ∨ target + (last - first) ≤ first →
  last ≤ length l → target + (last - first) ≤ length l →
  ∃ l', parallel_swap_ranges first last target l = Some ((), l') ∧
    reorders (λ k, first ≤ k < last ∨ target ≤ k < target + (last - first)) l l' ∧
    (∀ i, i < last - first → l' !! (first + i) = l !! (target + i) ∧ l' !! (target + i) = l !! (first + i)).
Proof.
  intros Hfl Hdis Hl Ht. unfold parallel_swap_ranges.
  set (order := if decide _ then _ else _).
  assert (Ho : order ≡ₚ seq 0 (last - first)) by (unfold order; case_decide; [done|apply Hsched]).
  destruct (swap_ranges_spec order first target (last - first) l) as (l' & E & R & Hs & _); [..|lia|lia|lia|].
  { rewrite Ho. apply NoDup_seq. }
  { apply Forall_forall. intros i. rewrite Ho, elem_of_seq. lia. }
  exists l'. split_and!; [done| |].
  - eapply reorders_mono; [|exact R]. simpl. lia.
  - intros i Hi. apply Hs. rewrite Ho, elem_of_seq. lia.
Qed.

(** A block of false elements before a block of true ones. *)
Lemma partial_swap_spec fb fe tb te l :
  fb ≤ fe ≤ tb → tb ≤ te ≤ length l → holds false fb fe l → holds true tb te l →
  let s := (fe - fb) `min` (te - tb) in
  ∃ l', partial_swap fb fe tb te l = Some (s, l') ∧
    reorders (λ k, fb ≤ k < fb + s ∨ te - s ≤ k < te) l l' ∧
    holds true fb (fb + s) l' ∧ holds false (te - s) te l'.
Proof.
  intros H1 H2 Hf Ht s. unfold partial_swap. fold s.
  destruct (parallel_swap_ranges_spec fb (fb + s) (te - s) l) as (l' & E & R & Hs); [lia..|].
  replace (fb + s - fb) with s in * by lia. exists l'. rewrite (bind_run _ _ _ _ _ E). split_and!.
  - done.
  - eapply reorders_mono; [|exact R]. simpl. lia.
  - intros i x Hi. destruct (Hs (i - fb)) as [E1 _]; [lia|]. replace (fb + (i - fb)) with i in E1 by lia.
    rewrite E1. apply Ht. lia.
  - intros i x Hi. destruct (Hs (i - (te - s))) as [_ E1]; [lia|].
    replace (te - s + (i - (te - s))) with i in E1 by lia. rewrite E1. apply Hf. lia.
Qed.

Lemma flip_partition_spec fb fe te l :
  fb ≤ fe ≤ te → te ≤ length l → holds false fb fe l → holds true fe te l →
  let p := te - (fe - fb) in
  ∃ l', flip_partition fb fe te l = Some (p, l') ∧ reorders (λ k, fb ≤ k < te) l l' ∧
    holds true fb p l' ∧ holds false p te l'.
Proof.
  intros H1 H2 Hf Ht p. unfold flip_partition.
  destruct (partial_swap_spec fb fe fe te l) as (l' & E & R & Hs1 & Hs2); [lia|lia|done|done|].
  set (s := (fe - fb) `min` (te - fe)) in *. assert (Es : s = (fe - fb) `min` (te - fe)) by done. clearbody s. exists l'. rewrite (bind_run _ _ _ _ _ E).
  assert (Hmid : holds false (fb + s) fe l') by (eapply holds_frame; [exact R|simpl; lia|eapply holds_sub; [exact Hf|lia..]]).
  assert (Hmid2 : holds true fe (te - s) l') by (eapply holds_frame; [exact R|simpl; lia|eapply holds_sub; [exact Ht|lia..]]).
  split_and!; [done| | |].
  - eapply reorders_mono; [|exact R]. simpl. lia.
  - destruct (decide (fe - fb ≤ te - fe)).
    + apply (holds_app _ _ fe); [eapply holds_sub; [exact Hs1|lia..]|eapply holds_sub; [exact Hmid2|lia..]].
    + eapply holds_sub; [exact Hs1|lia..].
  - destruct (decide (fe - fb ≤ te - fe)).
    + eapply holds_sub; [exact Hs2|lia..].
    + apply (holds_app _ _ fe); [eapply holds_sub; [exact Hmid|lia..]|eapply holds_sub; [exact Hs2|lia..]].
Qed.

(** *** One pair of chunks *)
Lemma skip_true_spec n left l :
  left + n ≤ length l →
  ∃ k, skip_true n left l = Some (k, l) ∧ left ≤ k ≤ left + n ∧ holds true left k l ∧
    (k < left + n → holds false k (k + 1) l).
Proof.
  revert left. induction n as [|n IH]; intros left Hl; simpl.
  { exists left. split_and!; [done|lia..|apply holds_empty; lia|lia]. }
  destruct (lookup_lt_is_Some_2 l left) as [x Hx]; [lia|].
  assert (E : read left l = Some (x, l)) by (unfold read; by rewrite Hx).
  rewrite (bind_run _ _ _ _ _ E). destruct (m_pred x) eqn:Hp.
  - destruct (IH (left + 1)) as (k & Ek & Hk & Hh & Hn); [lia|]. exists k. split_and!; [done|lia..| |intros; apply Hn; lia].
    apply (holds_app _ _ (left + 1)); [|done]. intros i y Hi Hy. replace i with left in Hy by lia. congruence.
  - exists left. split_and!; [done|lia..|apply holds_empty; lia|]. intros _ i y Hi Hy.
    replace i with left in Hy by lia. congruence.
Qed.

Lemma skip_false_spec n right l :
  n ≤ right ≤ length l →
  ∃ k, skip_false n right l = Some (k, l) ∧ right - n ≤ k ≤ right ∧ holds false k right l ∧
    (right - n < k → holds true (k - 1) k l).
Proof.
  revert right. induction n as [|n IH]; intros right Hl; simpl.
  { exists right. split_and!; [done|lia..|apply holds_empty; lia|lia]. }
  destruct (lookup_lt_is_Some_2 l (right - 1)) as [x Hx]; [lia|].
  assert (E : read (right - 1) l = Some (x, l)) by (unfold read; by rewrite Hx).
  rewrite (bind_run _ _ _ _ _ E). destruct (m_pred x) eqn:Hp.
  - exists right. split_and!; [done|lia..|apply holds_empty; lia|]. intros _ i y Hi Hy.
    replace i with (right - 1) in Hy by lia. congruence.
  - destruct (IH (right - 1)) as (k & Ek & Hk & Hh & Hn); [lia|]. exists k. split_and!; [done|lia..| |intros; apply Hn; lia].
    apply (holds_app _ _ (right - 1)); [done|]. intros i y Hi Hy. replace i with (right - 1) in Hy by lia. congruence.
Qed.

Lemma partition_pair_spec fuel left right re mb l :
  left ≤ re ≤ mb → mb ≤ right ≤ length l → re - left < fuel →
  ∃ a b l', partition_pair fuel left right re mb l = Some ((a, b), l') ∧
    left ≤ a ≤ re ∧ mb ≤ b ≤ right ∧ (a = re ∨ b = mb) ∧ holds true left a l' ∧ holds false b right l' ∧
    reorders (λ k, left ≤ k < re ∨ mb ≤ k < right) l l'.
Proof.
  revert left right l. induction fuel as [|fuel IH]; intros left right l H1 H2 Hf; [lia|]. cbn [partition_pair].
  destruct (skip_true_spec (re - left) left l) as (a & Ea & Ha & Hta & Hna); [lia|].
  destruct (skip_false_spec (right - mb) right l) as (b & Eb & Hb & Hfb & Hnb); [lia|].
  rewrite (bind_run _ _ _ _ _ Ea), (bind_run _ _ _ _ _ Eb). case_decide as Hv.
  2:{ exists a, b, l. split_and!; [done|lia..|done|done|apply reorders_refl]. }
  destruct (iter_swap_spec a (b - 1) l) as (l1 & E1 & R1 & S1 & S2); [lia..|].
  pose proof (reorders_length _ _ _ R1) as L1.
  destruct (IH (a + 1) (b - 1) l1) as (a' & b' & l2 & E2 & Ha' & Hb' & Hor & Ht' & Hf' & R2); [lia..|].
  exists a', b', l2. rewrite (bind_run _ _ _ _ _ E1). split_and!; [done|lia|lia|lia|lia|done|..].
  - apply (holds_app _ _ (a + 1)); [|done]. eapply holds_frame; [exact R2|simpl; lia|].
    apply (holds_app _ _ a); [eapply holds_frame; [exact R1|simpl; lia|done]|].
    intros i x Hi. replace i with a by lia. rewrite S1. apply Hnb; lia.
  - apply (holds_app _ _ (b - 1)); [done|]. eapply holds_frame; [exact R2|simpl; lia|].
    apply (holds_app _ _ b); [|eapply holds_frame; [exact R1|simpl; lia|done]].
    intros i x Hi. replace i with (b - 1) by lia. rewrite S2. apply Hna; lia.
  - eapply reorders_mono, reorders_trans; [|exact R1|exact R2]. simpl. lia.
Qed.

Lemma std_partition_range_spec first last l :
  first ≤ last ≤ length l →
  ∃ k l', std_partition_range first last l = Some (k, l') ∧ first ≤ k ≤ last ∧
    holds true first k l' ∧ holds false k last l' ∧ reorders (λ i, first ≤ i < last) l l'.
Proof.
  intros Hl. unfold std_partition_range.
  destruct (std_partition m_pred (slice first last l)) as [k new] eqn:E.
  destruct (std_partition_spec _ _ _ _ E) as (Hp & Hk & Ht & Hf).
  pose proof (Permutation_length Hp) as Hlen. rewrite length_slice in Hk, Hlen by done.
  assert (Er : on_range first last (std_partition m_pred) l = Some (k, splice first last new l)).
  { unfold on_range. rewrite decide_True by done. by rewrite E. }
  exists (first + k), (splice first last new l). rewrite (bind_run _ _ _ _ _ Er).
  rewrite Forall_lookup in Ht, Hf. split_and!; [done|lia..| | |by apply splice_reorders].
  - intros i x Hi. rewrite splice_lookup, decide_True by lia. intros Hx. apply (Ht (i - first)).
    rewrite lookup_take_lt by lia. done.
  - intros i x Hi. rewrite splice_lookup, decide_True by lia. intros Hx. apply (Hf (i - first - k)).
    rewrite lookup_drop. rewrite <- Hx. f_equal. lia.
Qed.

(** *** Bodies *)

(** The positions of the chunks that a body has got for [lo, hi). *)
Definition footprint (lo hi i : nat) : Prop := lo ≤ i < hi ∨ mirror_begin hi ≤ i < mirror_end lo.

Record body_ok (lo hi : nat) (b : body) l : Prop := {
  ok_begin : m_real_chunk_begin b = lo;
  ok_end : m_real_chunk_end b = hi;
  ok_mbegin : m_mirror_chunk_begin b = mirror_begin hi;
  ok_mend : m_mirror_chunk_end b = mirror_end lo;
  ok_false : lo ≤ m_false_leftover b ≤ hi;
  ok_true : mirror_begin hi ≤ m_true_leftover b ≤ mirror_end lo;
  ok_one : m_false_leftover b = hi ∨ m_true_leftover b = mirror_begin hi;
  ok_real_true : holds true lo (m_false_leftover b) l;
  ok_real_false : holds false (m_false_leftover b) hi l;
  ok_mirror_true : holds true (mirror_begin hi) (m_true_leftover b) l;
  ok_mirror_false : holds false (m_true_leftover b) (mirror_end lo) l;
}.

Context (Hglobal : g_first ≤ g_last).

Lemma mid_bounds : g_first ≤ mid ∧ mid - g_first ≤ g_last - mid ≤ mid - g_first + 1 ∧ mid ≤ g_last.
Proof.
  unfold mid. pose proof (Nat.div_mod_eq (g_last - g_first) 2). pose proof (Nat.mod_upper_bound (g_last - g_first) 2). lia.
Qed.

Lemma mirror_bounds lo hi :
  g_first ≤ lo → lo < hi → hi ≤ mid → hi ≤ mirror_begin hi ∧ mirror_begin hi ≤ mirror_end lo ∧ mirror_end lo ≤ g_last.
Proof. pose proof mid_bounds. intros. unfold mirror_begin, mirror_end. case_decide; lia. Qed.

(** The mirror image of adjacent chunks is adjacent. *)
Lemma mirror_adjacent m hi : m < hi → hi ≤ mid → mirror_begin m = mirror_end m.
Proof. intros. unfold mirror_begin, mirror_end. rewrite decide_False by lia. done. Qed.

Lemma partition_chunks_spec lo hi l :
  g_first ≤ lo → lo < hi → hi ≤ mid → g_last ≤ length l →
  ∃ b l', partition_chunks lo hi l = Some (b, l') ∧ body_ok lo hi b l' ∧ reorders (footprint lo hi) l l'.
Proof.
  intros H1 H2 H3 Hl. pose proof (mirror_bounds lo hi H1 H2 H3) as (M1 & M2 & M3). unfold partition_chunks.
  destruct (partition_pair_spec (hi - lo + 1) lo (mirror_end lo) hi (mirror_begin hi) l)
    as (a & c & l1 & E1 & Ha & Hc & Hor & Ht & Hf & R1); [lia..|].
  pose proof (reorders_length _ _ _ R1) as L1. rewrite (bind_run _ _ _ _ _ E1). cbn beta iota.
  case_decide as Hd.
  - assert (c = mirror_begin hi) as -> by lia.
    destruct (std_partition_range_spec a hi l1) as (k & l2 & E2 & Hk & Hkt & Hkf & R2); [lia|].
    eexists _, l2. unfold mbind, M_bind. rewrite E2. simpl. split_and!; [done| |].
    + constructor; simpl; try done; try lia; [|apply holds_empty; lia|].
      * apply (holds_app _ _ a); [|done]. eapply holds_frame; [exact R2|simpl; lia|done].
      * eapply holds_frame; [exact R2|simpl; lia|done].
    + eapply reorders_mono, reorders_trans; [|exact R1|exact R2]. unfold footprint. simpl. lia.
  - assert (a = hi) as -> by lia.
    destruct (std_partition_range_spec (mirror_begin hi) c l1) as (k & l2 & E2 & Hk & Hkt & Hkf & R2); [lia|].
    eexists _, l2. unfold mbind, M_bind. rewrite E2. simpl. split_and!; [done| |].
    + constructor; simpl; try done; try lia; [|apply holds_empty; lia|].
      * eapply holds_frame; [exact R2|simpl; lia|done].
      * apply (holds_app _ _ c); [done|]. eapply holds_frame; [exact R2|simpl; lia|done].
    + eapply reorders_mono, reorders_trans; [|exact R1|exact R2]. unfold footprint. simpl. lia.
Qed.

(** The first part of [join]: leftovers of opposite kinds are swapped. *)
Lemma neutralize_spec (c : bool) fb fe tb te l :
  fb ≤ fe ≤ tb → tb ≤ te ≤ length l → holds false fb fe l → holds true tb te l → (c = false → fb = fe ∨ tb = te) →
  ∃ s l', (if c then partial_swap fb fe tb te else mret 0) l = Some (s, l') ∧ s = (fe - fb) `min` (te - tb) ∧
    reorders (λ k, fb ≤ k < fb + s ∨ te - s ≤ k < te) l l' ∧
    holds true fb (fb + s) l' ∧ holds false (te - s) te l'.
Proof.
  intros H1 H2 Hf Ht Hc. destruct c.
  - destruct (partial_swap_spec fb fe tb te l) as (l' & E & R & Hs1 & Hs2); try done. by eexists _, l'.
  - specialize (Hc eq_refl). exists 0, l. split_and!; [done|lia|apply reorders_refl|apply holds_empty; lia..].
Qed.

Lemma has_false_spec b lo hi l : body_ok lo hi b l → has_false_leftover b = false ↔ m_false_leftover b = hi.
Proof. intros [? E _ _ _ _ _ _ _ _ _]. unfold has_false_leftover. rewrite E. destruct (Nat.eqb_spec (m_false_leftover b) hi); naive_solver. Qed.
Lemma has_true_spec b lo hi l : body_ok lo hi b l → has_true_leftover b = false ↔ m_true_leftover b = mirror_begin hi.
Proof.
  intros [? _ E _ _ _ _ _ _ _ _]. unfold has_true_leftover. rewrite E.
  destruct (Nat.eqb_spec (m_true_leftover b) (mirror_begin hi)); naive_solver.
Qed.

(** A fact about an interval survives changes elsewhere. *)
Ltac frame := eapply holds_frame; [eassumption|simpl; lia|].
Ltac interval H := eapply holds_sub; [exact H|lia..].

Lemma join_spec lo m hi b src l :
  g_first ≤ lo → lo < m → m < hi → hi ≤ mid → g_last ≤ length l → body_ok lo m b l → body_ok m hi src l →
  ∃ b' l', join b src l = Some (b', l') ∧ body_ok lo hi b' l' ∧ reorders (footprint lo hi) l l'.
Proof.
  intros H1 H2 H3 H4 Hl Hb Hsrc. pose proof (mirror_bounds m hi) as (M1 & M2 & _); [lia..|].
  pose proof (mirror_bounds lo m) as (M3 & M4 & M5); [lia..|]. pose proof (mirror_adjacent m hi H3 H4) as Madj.
  pose proof (has_false_spec _ _ _ _ Hb) as Hhf. pose proof (has_true_spec _ _ _ _ Hsrc) as Hst.
  pose proof (has_false_spec _ _ _ _ Hsrc) as Hsf. unfold join.
  destruct Hb as [B1 B2 B3 B4 B5 B6 B7 B8 B9 B10 B11], Hsrc as [C1 C2 C3 C4 C5 C6 C7 C8 C9 C10 C11].
  rewrite B1, B2, B3, B4, C2, C3. rewrite <- Madj in *.
  destruct (has_false_leftover b) eqn:Eb.
  - assert (HT : m_true_leftover b = mirror_begin m) by (destruct B7 as [E%Hhf|]; [congruence|done]).
    rewrite HT in B6, B7, B10, B11.
    destruct (neutralize_spec (has_true_leftover src) (m_false_leftover b) m (mirror_begin hi) (m_true_leftover src) l)
      as (s & l1 & E1 & Es & R1 & N1 & N2); [lia|lia|done|done|by intros ?%Hst; right|].
    pose proof (reorders_length _ _ _ R1) as L1.
    destruct (flip_partition_spec (m_false_leftover b + s) m (m_false_leftover src) l1) as (l2 & E2 & R2 & F1 & F2);
      [lia|lia|frame; interval B9|frame; interval C8|].
    eexists _, l2. unfold mbind, M_bind. rewrite E1. simpl. rewrite E2. simpl. split_and!; [done| |].
    + constructor; simpl; try done; try lia.
      * apply (holds_app _ _ (m_false_leftover b + s)); [|done]. frame.
        apply (holds_app _ _ (m_false_leftover b)); [|done]. by frame.
      * apply (holds_app _ _ (m_false_leftover src)); [done|]. frame. by frame.
      * frame. frame. interval C10.
      * apply (holds_app _ _ (m_true_leftover src)); [by frame|]. apply (holds_app _ _ (mirror_begin m)); frame; by frame.
    + eapply reorders_mono, reorders_trans; [|exact R1|exact R2]. unfold footprint. simpl. lia.
  - assert (HF : m_false_leftover b = m) by (by apply Hhf). rewrite HF in *.
    destruct (neutralize_spec (has_false_leftover src) (m_false_leftover src) hi (mirror_begin m) (m_true_leftover b) l)
      as (s & l1 & E1 & Es & R1 & N1 & N2); [lia|lia|done|done|by intros ?%Hsf; left|].
    pose proof (reorders_length _ _ _ R1) as L1.
    destruct (flip_partition_spec (m_true_leftover src) (mirror_begin m) (m_true_leftover b - s) l1) as (l2 & E2 & R2 & F1 & F2);
      [lia|lia|frame; interval C11|frame; interval B10|].
    eexists _, l2. unfold mbind, M_bind. rewrite E1. simpl. rewrite E2. simpl. split_and!; [done| |].
    + constructor; simpl; try done; try lia.
      * apply (holds_app _ _ m); [frame; by frame|]. frame. apply (holds_app _ _ (m_false_leftover src)); [|done]. by frame.
      * frame. frame. interval C9.
      * apply (holds_app _ _ (m_true_leftover src)); [|done]. frame. by frame.
      * apply (holds_app _ _ (m_true_leftover b - s)); [done|]. apply (holds_app _ _ (m_true_leftover b)); frame; [done|by frame].
    + eapply reorders_mono, reorders_trans; [|exact R1|exact R2]. unfold footprint. simpl. lia.
Qed.

(** *** Histories *)

(** The chunks of a history are adjacent, from [lo] to [hi]. *)
Inductive covers : history → nat → nat → Prop :=
  | covers_first lo hi : lo < hi → covers (Applied Start lo hi) lo hi
  | covers_apply h lo m hi : covers h lo m → m < hi → covers (Applied h m hi) lo hi
  | covers_join h src lo m hi : covers h lo m → covers src m hi → covers (Joined h src) lo hi.

Lemma covers_lt h lo hi : covers h lo hi → lo < hi.
Proof. induction 1; lia. Qed.

Lemma footprint_app lo m hi i : g_first ≤ lo → lo < m → m < hi → hi ≤ mid →
  footprint lo m i ∨ footprint m hi i → footprint lo hi i.
Proof.
  intros. pose proof (mirror_bounds m hi) as (M1 & M2 & _); [lia..|].
  pose proof (mirror_bounds lo m) as (M3 & M4 & M5); [lia..|]. pose proof (mirror_adjacent m hi ltac:(lia) ltac:(lia)).
  unfold footprint in *. lia.
Qed.

Lemma footprint_disjoint lo m hi i : g_first ≤ lo → lo < m → m < hi → hi ≤ mid → footprint m hi i → ¬ footprint lo m i.
Proof.
  intros. pose proof (mirror_bounds m hi) as (M1 & M2 & _); [lia..|].
  pose proof (mirror_bounds lo m) as (M3 & M4 & M5); [lia..|]. pose proof (mirror_adjacent m hi ltac:(lia) ltac:(lia)).
  unfold footprint in *. lia.
Qed.

Lemma body_ok_frame S lo hi b l l' :
  reorders S l l' → (∀ i, S i → ¬ footprint lo hi i) → body_ok lo hi b l → body_ok lo hi b l'.
Proof.
  intros R HS [B1 B2 B3 B4 B5 B6 B7 B8 B9 B10 B11].
  constructor; try done; (eapply holds_frame; [exact R| |eassumption]); unfold footprint in HS; intros i Hi Hr; apply (HS i Hi); lia.
Qed.

(** Every history over a part of the first half leaves a partition of its chunks. *)
Lemma eval_spec h lo hi l :
  covers h lo hi → g_first ≤ lo → hi ≤ mid → g_last ≤ length l →
  ∃ b l', eval h l = Some (b, l') ∧ body_ok lo hi b l' ∧ reorders (footprint lo hi) l l'.
Proof.
  intros Hc. revert l. induction Hc as [lo hi Hlt|h lo m hi Hc IH Hlt|h src lo m hi Hc IH Hc' IH'];
    intros l H1 H2 Hl; simpl.
  - destruct (partition_chunks_spec lo hi l) as (b & l' & E & Hok & R); [done..|]. exists b, l'. split_and!; try done.
    rewrite (bind_run _ _ l new_body l) by done. unfold apply_body. rewrite (bind_run _ _ _ _ _ E).
    by rewrite decide_True.
  - pose proof (covers_lt _ _ _ Hc). destruct (IH l) as (b & l1 & E1 & Hok1 & R1); [lia..|].
    pose proof (reorders_length _ _ _ R1) as L1.
    destruct (partition_chunks_spec m hi l1) as (c & l2 & E2 & Hok2 & R2); [lia..|].
    pose proof (reorders_length _ _ _ R2) as L2.
    destruct (join_spec lo m hi b c l2) as (b' & l3 & E3 & Hok3 & R3); [lia..| |done|].
    { eapply body_ok_frame; [exact R2| |done]. intros i. apply footprint_disjoint; lia. }
    exists b', l3. rewrite (bind_run _ _ _ _ _ E1). unfold apply_body. rewrite (bind_run _ _ _ _ _ E2).
    destruct Hok1 as [B1 B2 _ _ _ _ _ _ _ _ _]. rewrite decide_False by lia. split_and!; try done.
    eapply reorders_mono; [|eapply reorders_trans; [eapply reorders_trans; [exact R1|exact R2]|exact R3]]. simpl.
    intros i [Hi|Hi]; [by apply (footprint_app lo m hi)|done].
  - pose proof (covers_lt _ _ _ Hc). pose proof (covers_lt _ _ _ Hc').
    destruct (IH l) as (b & l1 & E1 & Hok1 & R1); [lia..|].
    pose proof (reorders_length _ _ _ R1) as L1.
    destruct (IH' l1) as (c & l2 & E2 & Hok2 & R2); [lia..|].
    pose proof (reorders_length _ _ _ R2) as L2.
    destruct (join_spec lo m hi b c l2) as (b' & l3 & E3 & Hok3 & R3); [lia..| |done|].
    { eapply body_ok_frame; [exact R2| |done]. intros i. apply footprint_disjoint; lia. }
    exists b', l3. rewrite (bind_run _ _ _ _ _ E1), (bind_run _ _ _ _ _ E2). split_and!; try done.
    eapply reorders_mono; [|eapply reorders_trans; [eapply reorders_trans; [exact R1|exact R2]|exact R3]]. simpl.
    intros i [Hi|Hi]; [by apply (footprint_app lo m hi)|done].
Qed.

(** *** Locality: a history accesses only its chunks *)
Lemma partial_swap_result fb fe tb te l s l' : partial_swap fb fe tb te l = Some (s, l') → s = (fe - fb) `min` (te - tb).
Proof. unfold partial_swap. intros ([? ?] & _ & [= <- _])%bind_Some. done. Qed.
Lemma skip_true_result k left l r l' : skip_true k left l = Some (r, l') → left ≤ r ≤ left + k.
Proof.
  revert left. induction k as [|k IH]; intros left; simpl; [intros [= <- _]; lia|].
  intros ([x l1] & (y & _ & [= -> ->])%bind_Some & E)%bind_Some. destruct (m_pred x); [apply IH in E; lia|].
  injection E as <- _. lia.
Qed.
Lemma skip_false_result k right l r l' : k ≤ right → skip_false k right l = Some (r, l') → right - k ≤ r ≤ right.
Proof.
  revert right. induction k as [|k IH]; intros right Hk; simpl; [intros [= <- _]; lia|].
  intros ([x l1] & (y & _ & [= -> ->])%bind_Some & E)%bind_Some. destruct (m_pred x); [injection E as <- _; lia|].
  apply IH in E; lia.
Qed.
Lemma partition_pair_result fuel left right re mb l a b l' :
  left ≤ re → mb ≤ right → partition_pair fuel left right re mb l = Some ((a, b), l') → left ≤ a ≤ re ∧ mb ≤ b ≤ right.
Proof.
  revert left right l. induction fuel as [|fuel IH]; intros left right l H1 H2; [done|]. cbn [partition_pair].
  intros ([x l1] & E1%skip_true_result & ([y l2] & E2%skip_false_result & E)%bind_Some)%bind_Some; [|lia].
  case_decide; [|injection E as <- <- _; lia]. apply bind_Some in E as ([[] l3] & _ & E). apply IH in E; lia.
Qed.

Section locality.
Context (n : nat) (P : nat → Prop).

Lemma swap_ranges_local order first target s :
  Forall (λ i, i < s) order → (∀ i, first ≤ i < first + s → P i) → (∀ i, target ≤ i < target + s → P i) →
  local n P (swap_ranges order first target).
Proof.
  intros Hs H1 H2. induction Hs as [|i order Hi _ IH]; simpl; [apply local_ret|].
  apply local_bind'; [|done]. apply local_iter_swap; [apply H1|apply H2]; lia.
Qed.

Lemma partial_swap_local fb fe tb te :
  fb ≤ fe → tb ≤ te → (∀ i, fb ≤ i < fe → P i) → (∀ i, tb ≤ i < te → P i) → local n P (partial_swap fb fe tb te).
Proof.
  intros H1 H2 HP1 HP2. unfold partial_swap. apply local_bind'; [|intros; apply local_ret].
  unfold parallel_swap_ranges. set (s := _ `min` _). assert (Es : s = (fe - fb) `min` (te - tb)) by done. clearbody s.
  apply (swap_ranges_local _ _ _ s); [|intros; apply HP1; lia|intros; apply HP2; lia].
  apply Forall_forall. intros i. case_decide; rewrite ?Hsched, elem_of_seq; lia.
Qed.

Lemma flip_partition_local fb fe te :
  fb ≤ fe ≤ te → (∀ i, fb ≤ i < te → P i) → local n P (flip_partition fb fe te).
Proof.
  intros H1 HP. apply local_bind'; [|intros; apply local_ret]. apply partial_swap_local; try lia; intros; apply HP; lia.
Qed.

Lemma neutralize_local (c : bool) fb fe tb te {Y} (f : nat → M A Y) :
  fb ≤ fe → tb ≤ te → (∀ i, fb ≤ i < fe → P i) → (∀ i, tb ≤ i < te → P i) →
  (∀ s, s ≤ fe - fb → s ≤ te - tb → local n P (f s)) →
  local n P ((if c then partial_swap fb fe tb te else mret 0) ≫= f).
Proof.
  intros H1 H2 HP1 HP2 Hf. apply (local_bind _ _ (λ s, s ≤ fe - fb ∧ s ≤ te - tb)).
  - destruct c; [by apply partial_swap_local|apply local_ret].
  - intros l s l' _ E. destruct c; [apply partial_swap_result in E; lia|]. injection E as <- _. lia.
  - intros s [? ?]. by apply Hf.
Qed.

Lemma skip_true_local k left : (∀ i, left ≤ i < left + k → P i) → local n P (skip_true k left).
Proof.
  revert left. induction k as [|k IH]; intros left HP; simpl; [apply local_ret|].
  apply local_bind'; [apply local_read, HP; lia|]. intros x. destruct (m_pred x); [|apply local_ret].
  apply IH. intros i Hi. apply HP. lia.
Qed.

Lemma skip_false_local k right : k ≤ right → (∀ i, right - k ≤ i < right → P i) → local n P (skip_false k right).
Proof.
  revert right. induction k as [|k IH]; intros right Hk HP; simpl; [apply local_ret|].
  apply local_bind'; [apply local_read, HP; lia|]. intros x. destruct (m_pred x); [apply local_ret|].
  apply IH; [lia|]. intros i Hi. apply HP. lia.
Qed.

Lemma partition_pair_local fuel left right re mb :
  left ≤ re → mb ≤ right → (∀ i, left ≤ i < re → P i) → (∀ i, mb ≤ i < right → P i) →
  local n P (partition_pair fuel left right re mb).
Proof.
  revert left right. induction fuel as [|fuel IH]; intros left right H1 H2 HP1 HP2; [by intros l1 l2|]. cbn [partition_pair].
  apply (local_bind _ _ (λ a, left ≤ a ≤ re)); [apply skip_true_local; intros; apply HP1; lia| |].
  { intros l a l' _ E%skip_true_result. lia. }
  intros a Ha. apply (local_bind _ _ (λ b, mb ≤ b ≤ right)); [apply skip_false_local; [lia|]; intros; apply HP2; lia| |].
  { intros l b l' _ E%skip_false_result; lia. }
  intros b Hb. case_decide as Hv; [|apply local_ret].
  apply local_bind'; [apply local_iter_swap; [apply HP1|apply HP2]; lia|]. intros _.
  apply IH; [lia|lia|intros; apply HP1; lia|intros; apply HP2; lia].
Qed.

Lemma std_partition_range_local first last :
  (∀ i, first ≤ i < last → P i) → local n P (std_partition_range first last).
Proof.
  intros HP. apply local_bind'; [|intros; apply local_ret]. apply local_on_range; [|done].
  intros k. destruct (std_partition m_pred k) as [j k'] eqn:E. destruct (std_partition_spec _ _ _ _ E) as (Hp & _).
  simpl. by rewrite Hp.
Qed.
End locality.

Lemma partition_chunks_local n lo hi :
  g_first ≤ lo → lo < hi → hi ≤ mid → local n (footprint lo hi) (partition_chunks lo hi).
Proof.
  intros H1 H2 H3. pose proof (mirror_bounds lo hi H1 H2 H3) as (M1 & M2 & M3). unfold partition_chunks.
  apply (local_bind _ _ (λ p, lo ≤ p.1 ≤ hi ∧ mirror_begin hi ≤ p.2 ≤ mirror_end lo)).
  - apply partition_pair_local; [lia|lia|unfold footprint; lia..].
  - intros l [a b] l' _ E%partition_pair_result; simpl; lia.
  - intros [a b] [Ha Hb]. simpl in *. apply local_bind'; [|intros [? ?]; apply local_ret].
    case_decide; (apply local_bind'; [|intros; apply local_ret]); apply std_partition_range_local; unfold footprint; lia.
Qed.

Lemma join_local n lo m hi b src l l' :
  g_first ≤ lo → lo < m → m < hi → hi ≤ mid → body_ok lo m b l → body_ok m hi src l' →
  local n (footprint lo hi) (join b src).
Proof.
  intros H1 H2 H3 H4 Hb Hsrc. pose proof (mirror_bounds m hi) as (M1 & M2 & _); [lia..|].
  pose proof (mirror_bounds lo m) as (M3 & M4 & M5); [lia..|]. pose proof (mirror_adjacent m hi H3 H4) as Madj.
  destruct Hb as [B1 B2 B3 B4 B5 B6 _ _ _ _ _], Hsrc as [C1 C2 C3 C4 C5 C6 _ _ _ _ _].
  unfold join. rewrite B1, B2, B3, B4, C2, C3. apply local_bind'; [|intros [? ?]; apply local_ret].
  unfold footprint. destruct (has_false_leftover b);
    (apply neutralize_local; [lia|lia|simpl; lia|simpl; lia|]; intros s Hs1 Hs2;
     apply local_bind'; [|intros; apply local_ret]; apply flip_partition_local; simpl; lia).
Qed.

Lemma local_mono n S T {X} (m : M A X) `{!∀ i, Decision (S i)} : (∀ i, S i → T i) → local n S m → local n T m.
Proof.
  intros HST Hm l1 l2 L1 L2 Heq. specialize (Hm l1 l2 L1 L2 (λ i Hi, Heq i (HST i Hi))).
  destruct (m l1) as [[x1 k1]|], (m l2) as [[x2 k2]|]; try done. destruct Hm as (-> & ? & ? & H1 & H2 & H3).
  split_and!; auto. intros i Hi. destruct (decide (S i)); [auto|]. by rewrite H2, H3, Heq.
Qed.

#[local] Instance footprint_dec lo hi i : Decision (footprint lo hi i).
Proof. unfold footprint. apply _. Defined.

Lemma local_widen n lo m hi lo' hi' {X} (f : M A X) :
  g_first ≤ lo → lo < m → m < hi → hi ≤ mid → (lo' = lo ∧ hi' = m ∨ lo' = m ∧ hi' = hi) →
  local n (footprint lo' hi') f → local n (footprint lo hi) f.
Proof.
  intros H1 H2 H3 H4 H5. apply local_mono; [apply _|]. intros i Hi. apply (footprint_app lo m hi); try done.
  destruct H5 as [[-> ->]|[-> ->]]; auto.
Qed.

Lemma eval_local h lo hi n :
  covers h lo hi → g_first ≤ lo → hi ≤ mid → g_last ≤ n → local n (footprint lo hi) (eval h).
Proof.
  intros Hc. induction Hc as [lo hi Hlt|h lo m hi Hc IH Hlt|h src lo m hi Hc IH Hc' IH']; intros H1 H2 Hn; simpl.
  - apply (local_bind _ _ (λ b, b = new_body)); [apply local_ret|by intros l b l' _ [= <- _]|]. intros b ->.
    unfold apply_body. apply local_bind'; [by apply partition_chunks_local|]. intros c.
    rewrite decide_True by done. apply local_ret.
  - pose proof (covers_lt _ _ _ Hc). apply (local_bind _ _ (λ b, ∃ l, body_ok lo m b l)).
    + eapply (local_widen n lo m hi); [..|apply IH; lia]; auto; lia.
    + intros l b l' L E. destruct (eval_spec h lo m l) as (b' & l1 & E' & Hok & _); [done|lia..|]. rewrite E in E'. naive_solver.
    + intros b [l Hok]. unfold apply_body. apply (local_bind _ _ (λ c, ∃ l, body_ok m hi c l)).
      * eapply (local_widen n lo m hi); [..|apply partition_chunks_local; lia]; auto; lia.
      * intros l1 c l' L E. destruct (partition_chunks_spec m hi l1) as (b' & l2 & E' & Hok' & _); [lia..|].
        rewrite E in E'. naive_solver.
      * intros c [l' Hok']. case_decide; [apply local_ret|]. eapply (join_local n lo m hi); try done; lia.
  - pose proof (covers_lt _ _ _ Hc). pose proof (covers_lt _ _ _ Hc'). apply (local_bind _ _ (λ b, ∃ l, body_ok lo m b l)).
    + eapply (local_widen n lo m hi); [..|apply IH; lia]; auto; lia.
    + intros l b l' L E. destruct (eval_spec h lo m l) as (b' & l1 & E' & Hok & _); [done|lia..|]. rewrite E in E'. naive_solver.
    + intros b [l Hok]. apply (local_bind _ _ (λ c, ∃ l, body_ok m hi c l)).
      * eapply (local_widen n lo m hi); [..|apply IH'; lia]; auto; lia.
      * intros l1 c l' L E. destruct (eval_spec src m hi l1) as (b' & l2 & E' & Hok' & _); [done|lia..|].
        rewrite E in E'. naive_solver.
      * intros c [l' Hok']. eapply (join_local n lo m hi); try done; lia.
Qed.

(** *** The whole partition *)
Lemma app_seqZ (xs ys : list Z) (a n : Z) :
  xs ++ ys = seqZ a n → xs ≠ [] → ys ≠ [] →
  xs = seqZ a (Z.of_nat (length xs)) ∧ ys = seqZ (a + Z.of_nat (length xs)) (n - Z.of_nat (length xs)).
Proof.
  intros E Hx Hy. assert (Hn : (Z.of_nat (length xs + length ys) = n)%Z).
  { apply (f_equal length) in E. rewrite length_app, length_seqZ in E. destruct xs; simpl in *; [done|lia]. }
  assert (E' : seqZ a n = seqZ a (Z.of_nat (length xs)) ++ seqZ (a + Z.of_nat (length xs)) (n - Z.of_nat (length xs))).
  { rewrite <- seqZ_app by lia. f_equal. lia. }
  rewrite E' in E. apply app_inj_1 in E; [done|]. rewrite length_seqZ. lia.
Qed.

Lemma trace_covers (t : trace blocked_range) (a n : Z) :
  trace_ok t → trace_elems t = seqZ a n → (0 < n)%Z → (0 ≤ a)%Z → covers (positions t) (Z.to_nat a) (Z.to_nat (a + n)).
Proof.
  revert a n. induction t as [|t IH r|t1 IH1 t2 IH2]; intros a n Hok E Hn Ha; simpl in *.
  - rewrite seqZ_cons in E by done. done.
  - destruct Hok as [Hok Hr]. pose proof (valid_nonempty r Hr) as Hne. simpl in Hne. unfold br_elems in *.
    assert (Hlt : (my_begin r < my_end r)%Z) by (destruct Hr; lia).
    destruct (decide (trace_elems t = [])) as [E0|E0].
    + rewrite E0 in E. simpl in E.
      assert (my_begin r = a ∧ my_end r = a + n)%Z as [-> ->].
      { pose proof (f_equal length E) as El. rewrite !length_seqZ in El. rewrite (seqZ_cons a n), (seqZ_cons (my_begin r)) in E by lia.
        injection E as <- _. lia. }
      assert (positions t = Start) as ->.
      { destruct t as [|t' r'|t1 t2]; [done|..]; simpl in *; exfalso.
        - apply app_nil in E0 as [_ E0]. destruct Hok as [_ Hr']. unfold br_elems in E0.
          by rewrite seqZ_cons in E0 by (destruct Hr'; lia).
        - apply app_nil in E0 as [E0 _]. by destruct Hok as (_ & _ & ? & _). }
      constructor. lia.
    + destruct (app_seqZ _ _ _ _ E E0 Hne) as [E1 E2]. set (k := Z.of_nat (length (trace_elems t))) in *.
      assert (my_begin r = a + k ∧ my_end r = a + n)%Z as [Eb Ee].
      { pose proof (f_equal length E2) as El. rewrite !length_seqZ in El.
        destruct (decide (n - k ≤ 0)%Z). { rewrite (seqZ_nil (a + k)) in E2 by lia. congruence. }
        rewrite (seqZ_cons (a + k)), (seqZ_cons (my_begin r)) in E2 by lia. injection E2 as E3 _. lia. }
      assert (0 < k)%Z by (unfold k; destruct (trace_elems t); [done|simpl; lia]).
      rewrite Eb, Ee in *. apply (covers_apply _ _ (Z.to_nat (a + k))); [|lia]. by apply IH.
  - destruct Hok as (Hok1 & Hok2 & Hne1 & Hne2). destruct (app_seqZ _ _ _ _ E Hne1 Hne2) as [E1 E2].
    set (k := Z.of_nat (length (trace_elems t1))) in *.
    assert (0 < k)%Z by (unfold k; destruct (trace_elems t1); [done|simpl; lia]).
    assert (0 < n - k)%Z by (destruct (decide (0 < n - k)%Z); [done|]; rewrite (seqZ_nil (a + k)) in E2 by lia; done).
    apply (covers_join _ _ _ (Z.to_nat (a + k))); [by apply IH1|].
    replace (a + n)%Z with (a + k + (n - k))%Z by lia. apply IH2; try done. lia.
Qed.

(** What [parallel_partition] promises of a range of the array. *)
Definition partitioned (first last k : nat) l l' : Prop :=
  first ≤ k ≤ last ∧ reorders (λ i, first ≤ i < last) l l' ∧ holds true first k l' ∧ holds false k last l'.

Lemma parallel_partition_spec cutoff h l :
  2 ≤ cutoff → g_last ≤ length l → (cutoff ≤ g_last - g_first → covers h g_first mid) →
  ∃ k l', parallel_partition cutoff h l = Some (k, l') ∧ partitioned g_first g_last k l l'.
Proof.
  intros Hc Hl Hh. unfold parallel_partition. case_decide as Hd.
  - destruct (std_partition_range_spec g_first g_last l) as (k & l' & E & Hk & Ht & Hf & R); [lia|].
    exists k, l'. by split_and!.
  - destruct (eval_spec h g_first mid l) as (b & l' & E & Hok & R); [apply Hh; lia|lia..|].
    exists (partition_point b), l'. rewrite (bind_run _ _ _ _ _ E). split; [done|].
    pose proof mid_bounds as (M1 & M2 & M3). pose proof (has_true_spec _ _ _ _ Hok) as Ht.
    destruct Hok as [B1 B2 B3 B4 B5 B6 B7 B8 B9 B10 B11].
    unfold mirror_begin, mirror_end in *. rewrite decide_True in * by done. replace (g_last - (g_first - g_first)) with g_last in * by lia.
    assert (Hp : partitioned g_first g_last (partition_point b) l l'); [|done]. unfold partition_point, partitioned.
    assert (R' : reorders (λ i, g_first ≤ i < g_last) l l').
    { eapply reorders_mono; [|exact R]. intros i. unfold footprint, mirror_begin, mirror_end. rewrite decide_True by done. lia. }
    destruct (has_true_leftover b).
    + assert (m_false_leftover b = mid) as Em by (destruct B7 as [|B7%Ht]; done). rewrite Em in *.
      split_and!; [lia|lia|done|by eapply holds_app|done].
    + assert (m_true_leftover b = mid) as Em by (by apply Ht). rewrite Em in *.
      split_and!; [lia|lia|done|done|by eapply holds_app].
Qed.

Lemma parallel_partition_local cutoff h n (P : nat → Prop) :
  2 ≤ cutoff → g_last ≤ n → (cutoff ≤ g_last - g_first → covers h g_first mid) →
  (∀ i, g_first ≤ i < g_last → P i) → local n P (parallel_partition cutoff h).
Proof.
  intros Hc Hn Hh HP. unfold parallel_partition. case_decide as Hd; [by apply std_partition_range_local|].
  apply local_bind'; [|intros; apply local_ret]. pose proof mid_bounds.
  assert (Hcov : covers h g_first mid) by (apply Hh; lia). pose proof (mirror_bounds g_first mid ltac:(lia) (covers_lt _ _ _ Hcov)).
  eapply (local_mono n (footprint g_first mid)); [apply _| |apply eval_local; [done|lia..]].
  intros i Hi. apply HP. unfold footprint, mirror_begin, mirror_end in Hi. rewrite decide_True in Hi by done. lia.
Qed.

Lemma mirror_order b c d : g_first ≤ b → b ≤ c → c < d → d ≤ mid → mirror_end c ≤ mirror_begin b.
Proof. intros. unfold mirror_begin, mirror_end. rewrite decide_False by lia. lia. Qed.

Lemma footprints_disjoint a b c d i :
  g_first ≤ a → a < b → b ≤ c → c < d → d ≤ mid → footprint a b i → footprint c d i → False.
Proof.
  intros H1 H2 H3 H4 H5. pose proof (mirror_bounds a b) as (M1 & _ & _); [lia..|].
  pose proof (mirror_bounds c d) as (M3 & M5 & _); [lia..|]. pose proof (mirror_order b c d) as M4.
  specialize (M4 ltac:(lia) H3 H4 H5). clear H5. unfold footprint. intros [?|?] [?|?]; lia.
Qed.

(** A history of the reduction of [parallel_partition]. *)
Definition executed (t : trace blocked_range) : Prop :=
  ∃ p evs, part_ok p ∧ starts (BlockedRange (Z.of_nat mid) (Z.of_nat g_first) 1) p evs ∧
    rtc (step trace_body) (TStart, Running evs) (t, Done).

Lemma executed_covers t : 2 ≤ g_last - g_first → (Z.of_nat g_last < 2 ^ 63)%Z → executed t → covers (positions t) g_first mid.
Proof.
  intros Hd H64 (p & evs & Hp & Hs & Hst). pose proof mid_bounds as (M1 & M2 & M3).
  assert (Hv : valid (BlockedRange (Z.of_nat mid) (Z.of_nat g_first) 1)) by (simpl; unfold br_valid; simpl; lia).
  destruct (reduce_trace _ p evs t Hv Hp Hs Hst) as [Hok Hel]. simpl in Hel. unfold br_elems in Hel. simpl in Hel.
  pose proof (trace_covers t _ _ Hok Hel ltac:(lia) ltac:(lia)) as Hcov.
  replace (Z.to_nat (Z.of_nat g_first + (Z.of_nat mid - Z.of_nat g_first))) with mid in Hcov by lia.
  by rewrite Nat2Z.id in Hcov.
Qed.

(** C25: [parallel_partition], for every execution of its reduction: the
    computation stays inside of the array; it moves elements only within the
    range, the elements that satisfy the predicate come first, and the position
    it returns is the one where the others begin.  Two parts of a reduction that
    work on different chunks access different elements: in either order they
    have the same results and leave the same array. *)
Theorem parallel_partition_correct (cutoff : nat) (t : trace blocked_range) (l : list A)
    (Hc : 2 ≤ cutoff) (Hl : g_last ≤ length l) (H64 : (Z.of_nat g_last < 2 ^ 63)%Z)
    (Hr : cutoff ≤ g_last - g_first → executed t) :
  (∃ k l', parallel_partition cutoff (positions t) l = Some (k, l') ∧ partitioned g_first g_last k l l') ∧
  (∀ h h' a b c d l1 x l2 y l3, covers h a b → covers h' c d → g_first ≤ a → b ≤ c → d ≤ mid → g_last ≤ length l1 →
     eval h l1 = Some (x, l2) → eval h' l2 = Some (y, l3) →
     ∃ l2', eval h' l1 = Some (y, l2') ∧ eval h l2' = Some (x, l3)).
Proof.
  split.
  - apply parallel_partition_spec; [done..|]. intros Hd. apply executed_covers; [lia|done|auto].
  - intros h h' a b c d l1 x l2 y l3 Hh Hh' Ha Hbc Hd Hl1 E1 E2.
    pose proof (covers_lt _ _ _ Hh). pose proof (covers_lt _ _ _ Hh').
    apply (local_commute (length l1) (footprint a b) (footprint c d) (eval h) (eval h') l1 x l2 y l3); try done.
    + apply eval_local; [done|lia..].
    + apply eval_local; [done|lia..].
    + intros i. apply footprints_disjoint; lia.
Qed.
End partition.
End Mirror.

Module MirrorExamples.
Import Blocked Partition Execute Reduce ReduceExamples Arrays Mirror.

#[local] Instance filter_partition (A : Type) : StdPartition A :=
  λ p l, (length (filter (λ x, p x = true) l), filter (λ x, p x = true) l ++ filter (λ x, ¬ p x = true) l).
#[local] Instance filter_partition_laws (A : Type) : StdPartitionLaws A.
Proof.
  constructor. intros p l k l' [= <- <-]. split_and!.
  - induction l as [|x l IH]; [done|]. rewrite !filter_cons. repeat case_decide; try done; simpl; [by f_equiv|].
    by rewrite <- Permutation_middle, IH.
  - apply length_filter.
  - rewrite take_app_length. apply Forall_forall. by intros x [? _]%list_elem_of_filter.
  - rewrite drop_app_length. apply Forall_forall. intros x [Hx _]%list_elem_of_filter. by apply not_true_is_false.
Qed.

(** Positions 4 to 8 of an array; the right half of the reduction is stolen. *)
Definition array : list Z := [9; 9; 9; 9; 7; 8; 1; 2; 3; 9]%Z.
Definition small (x : Z) : bool := (x <? 5)%Z.
Definition stolen : trace blocked_range := TJoin (TApply TStart left_one) (TApply TStart right_one).

Lemma stolen_steps : rtc (step trace_body) (TStart, Running script) (stolen, Done).
Proof.
  eapply rtc_l; [apply step_offer|]. eapply rtc_l; [by apply step_start_split, right_starts|].
  eapply rtc_l; [apply step_right_zombie, step_run|]. eapply rtc_l; [apply step_left, step_run|].
  eapply rtc_l; [apply step_left, step_finish|].
  eapply rtc_l; [apply step_right_zombie, step_finish|]. eapply rtc_l; [apply step_join|].
  apply rtc_refl.
Qed.

Lemma parallel_partition_correct_witness :
  ∃ k l', parallel_partition (λ a b, seq 0 (b - a)) small 4 9 2 (positions stolen) array = Some (k, l') ∧
    k = 7%nat ∧ partitioned small 4 9 k array l'.
Proof.
  pose proof (parallel_partition_correct (λ a b, seq 0 (b - a)) small 4 9 ltac:(done) ltac:(lia)
    2 stolen array ltac:(lia) ltac:(simpl; lia) ltac:(lia)
    (λ _, ex_intro _ simple (ex_intro _ script (conj I (conj two_starts stolen_steps))))) as [(k & l' & E & H) _].
  exists k, l'. split; [exact E|]. split; [|exact H]. vm_compute in E. by injection E as <- _.
Defined.
End MirrorExamples.
