(* ===== verification/ParallelSort.v ===== *)
(** * parallel_sort

    Quicksort as a [parallel_for] over a range that partitions the array when it
    is split.  Source: include/oneapi/tbb/parallel_sort.h ([quick_sort_range],
    [quick_sort_pretest_body], [parallel_quick_sort], [parallel_sort]).

    The partition is that of [MirrorPartition]; for every part of the array that
    is partitioned the model is given an execution of its reduction.  The tasks
    of the [parallel_for] are the ranges that are not yet sorted; a step splits
    one of them or sorts it as a leaf, in any order.  [std::sort] is any function
    with its postcondition. *)

From S2P Require Import Prelude Ranges Partitioner ParallelFor ParallelReduce MirrorPartition.
From stdpp Require Import base numbers relations sorting list.
From Stdlib Require Import ZArith Lia.

Module QuickSort.
Import Blocked Reduce Arrays Mirror.

(** In order: no element is less than one before it. *)
Definition in_order {A} (lt : A → A → bool) (l : list A) : Prop :=
  ∀ i j x y, i < j → l !! i = Some x → l !! j = Some y → lt y x = false.

Class StdSort (A : Type) := std_sort : (A → A → bool) → list A → list A.
Class StdSortLaws (A : Type) `{StdSort A} := {
  std_sort_perm lt l : std_sort lt l ≡ₚ l;
  std_sort_order lt l : StrictWeakOrder lt → in_order lt (std_sort lt l);
}.

Record quick_sort_range := Range {
  m_first : nat;
  m_last : nat;
  m_leftmost : bool;
}.

Section sort.
Context {A : Type} `{StdPartition A} `{StdSort A}.
Context (m_comp : A → A → bool).
(** 500 in the source; the cutoff of [parallel_partition] is 500 for each thread. *)
Context (grainsize serial_partition_cutoff : nat).
(** The executions of the parallel algorithms that are called. *)
Context (sched : nat → nat → list nat) (runs : nat → nat → trace blocked_range).

Definition is_divisible (r : quick_sort_range) : bool := grainsize <=? m_last r - m_first r.

Definition leaf_sort (r : quick_sort_range) : M A () :=
  on_range (m_first r) (m_last r) (λ l, ((), std_sort m_comp l)).

(** The elements are those of [m_first[l]], [m_first[m]], [m_first[r]]. *)
Definition median_of_three (m_first l m r : nat) : M A nat :=
  x ← read (m_first + l); y ← read (m_first + m); z ← read (m_first + r);
  mret (if m_comp x y then (if m_comp y z then m else if m_comp x z then r else l)
        else (if m_comp z y then m else if m_comp z x then r else l)).

Definition pseudo_median_of_nine (m_first m_last : nat) : M A nat :=
  let n := m_last - m_first in
  let offset := n / 8 in
  a ← median_of_three m_first 0 offset (offset * 2);
  b ← median_of_three m_first (offset * 3) (offset * 4) (offset * 5);
  c ← median_of_three m_first (offset * 6) (offset * 7) (n - 1);
  median_of_three m_first a b c.

(** [parallel_partition(first, last, pred)] *)
Definition partition (pred : A → bool) (first last : nat) : M A nat :=
  parallel_partition sched pred first last serial_partition_cutoff (positions (runs first last)).

(** The pivot is moved to the beginning of the range.  The source keeps it in a
    local variable during the partition, which does not access that position. *)
Definition choose_pivot (r : quick_sort_range) : M A A :=
  pivot_index ← pseudo_median_of_nine (m_first r) (m_last r);
  (if decide (pivot_index ≠ 0) then iter_swap (m_first r) (m_first r + pivot_index) else mret ());;
  read (m_first r).

(** The range is not the leftmost one and its pivot is the one of the partition before. *)
Definition same_pivot (r : quick_sort_range) (pivot : A) : M A bool :=
  if m_leftmost r then mret false
  else prev ← read (m_first r - 1); mret (negb (m_comp prev pivot)).

(** Partition around the pivot, which gets to its place. *)
Definition partition_pivot (r : quick_sort_range) (pivot : A) : M A nat :=
  it ← partition (λ x, m_comp x pivot) (m_first r + 1) (m_last r);
  if decide (it = m_first r + 1) then mret (m_first r)
  else iter_swap (m_first r) (it - 1);; mret (it - 1).

(** [split_unchecked], with [split_checked]: this range and the new one.  The
    calls are on smaller ranges: the size of the range is enough fuel. *)
Fixpoint split_unchecked (fuel : nat) (r : quick_sort_range) : M A (quick_sort_range * quick_sort_range) :=
  match fuel with
  | O => λ _, None
  | S fuel =>
      let split_checked (r : quick_sort_range) :=
        if is_divisible r then split_unchecked fuel r else mret (r, Range (m_last r) (m_last r) false) in
      pivot ← choose_pivot r;
      same ← same_pivot r pivot;
      if (same : bool) then
        equal_end ← partition (λ x, negb (m_comp pivot x)) (m_first r + 1) (m_last r);
        split_checked (Range equal_end (m_last r) (m_leftmost r))
      else
        pivot_pos ← partition_pivot r pivot;
        let left_size := pivot_pos - m_first r in
        let right_size := m_last r - (pivot_pos + 1) in
        if decide (left_size = 0) then split_checked (Range (pivot_pos + 1) (m_last r) false)
        else if decide (right_size = 0) then split_checked (Range (m_first r) pivot_pos (m_leftmost r))
        else if right_size <? left_size then
          mret (Range (pivot_pos + 1) (m_last r) false, Range (m_first r) pivot_pos (m_leftmost r))
        else mret (Range (m_first r) pivot_pos (m_leftmost r), Range (pivot_pos + 1) (m_last r) false)
  end.
Definition split_range (r : quick_sort_range) : M A (quick_sort_range * quick_sort_range) :=
  split_unchecked (m_last r - m_first r) r.

(** A task of the [parallel_for] splits its range or sorts it; the ranges that remain. *)
Definition execute_range (split : bool) (r : quick_sort_range) : M A (list quick_sort_range) :=
  if split then res ← split_range r; mret [res.1; res.2] else leaf_sort r;; mret [].

(** [do_parallel_quick_sort]: the ranges of the tasks, and the array. *)
Inductive sort_step : list quick_sort_range * list A → list quick_sort_range * list A → Prop :=
  | sort_execute l1 r l2 split news arr arr' :
      (split = true → is_divisible r = true) → execute_range split r arr = Some (news, arr') →
      sort_step (l1 ++ r :: l2, arr) (l1 ++ news ++ l2, arr').
Definition do_parallel_quick_sort (arr arr' : list A) : Prop :=
  rtc sort_step ([Range 0 (length arr) true], arr) ([], arr').

(** [quick_sort_pretest_body] on a chunk: whether it calls
    [cancel_group_execution]; [seen] is what the checks of the cancellation answer. *)
Fixpoint pretest (n k i : nat) (seen : nat → bool) : M A bool :=
  match n with
  | O => mret false
  | S n =>
      if (i mod 64 =? 0) && seen (i / 64) then mret false
      else x ← read k; y ← read (k - 1);
           if m_comp x y then mret true else pretest n (k + 1) (i + 1) seen
  end.
Definition pretest_body (first last : nat) (seen : nat → bool) : M A bool := pretest (last - first) first 0 seen.

(** The serial part of the check, over the first pairs. *)
Definition serial_cutoff : nat := 9.
Fixpoint prefix_in_order (n k : nat) : M A bool :=
  match n with
  | O => mret true
  | S n => x ← read (k + 1); y ← read k; if m_comp x y then mret false else prefix_in_order n (k + 1)
  end.

(** The parallel check: a [parallel_for] with the [auto_partitioner], all of
    whose tasks are executed or, once the group is cancelled, dropped; [log]
    has the chunks that the body was called for, [seen] what its checks of the
    cancellation answered.  The group is cancelled by the body only. *)
Definition pretest_range (n : nat) : blocked_range := BlockedRange (Z.of_nat n) (Z.of_nat (serial_cutoff + 1)) 1.
Definition pretest_chunk (arr : list A) (seen : blocked_range → nat → bool) (r : blocked_range) : option bool :=
  fst <$> pretest_body (Z.to_nat (my_begin r)) (Z.to_nat (my_end r)) (seen r) arr.
Definition pretest_outcome (arr : list A) (cancelled : bool) : Prop :=
  ∃ P head affinities σ seen,
    ParallelFor.loop_start (pretest_range (length arr)) Partition.Auto P head affinities ∧
    rtc (ParallelFor.step cancelled)
      (ParallelFor.run (pretest_range (length arr)) Partition.Auto P head affinities) σ ∧
    ParallelFor.pending σ = [] ∧
    (∀ r i, seen r i = true → cancelled = true) ∧
    (cancelled = true ↔ ∃ r, r ∈ (ParallelFor.log σ).*1 ∧ pretest_chunk arr seen r = Some true).

Definition min_parallel_size : nat := 500.
Inductive parallel_sort (arr : list A) : list A → Prop :=
  | sort_serial : length arr < min_parallel_size → parallel_sort arr (std_sort m_comp arr)
  | sort_prefix arr' :
      min_parallel_size ≤ length arr → prefix_in_order serial_cutoff 0 arr = Some (false, arr) →
      do_parallel_quick_sort arr arr' → parallel_sort arr arr'
  | sort_presorted :
      min_parallel_size ≤ length arr → prefix_in_order serial_cutoff 0 arr = Some (true, arr) →
      pretest_outcome arr false → parallel_sort arr arr
  | sort_cancelled arr' :
      min_parallel_size ≤ length arr → prefix_in_order serial_cutoff 0 arr = Some (true, arr) →
      pretest_outcome arr true → do_parallel_quick_sort arr arr' → parallel_sort arr arr'.

(** ** Ranges that remain to be sorted *)
Context `{!StrictWeakOrder m_comp}.
Implicit Types (r R : quick_sort_range) (live : list quick_sort_range) (arr : list A).

Definition contains r (i : nat) : Prop := m_first r ≤ i < m_last r.
#[local] Instance contains_dec r i : Decision (contains r i) := _.
Definition hits (i : nat) live : nat := length (filter (λ r, contains r i) live).

Lemma hits_cons i r live : hits i (r :: live) = (if decide (contains r i) then 1 else 0) + hits i live.
Proof. unfold hits. rewrite filter_cons. by case_decide. Qed.
Lemma hits_app i l1 l2 : hits i (l1 ++ l2) = hits i l1 + hits i l2.
Proof. unfold hits. by rewrite filter_app, length_app. Qed.
Lemma hits_pos i r live : r ∈ live → contains r i → 1 ≤ hits i live.
Proof. intros [l1 [l2 ->]]%list_elem_of_split Hc. rewrite hits_app, hits_cons, decide_True by done. lia. Qed.
Lemma hits_zero i live : (∀ r, r ∈ live → ¬ contains r i) → hits i live = 0.
Proof.
  intros Hl. induction live as [|r live IH]; [done|]. rewrite hits_cons, decide_False by (apply Hl; by left).
  apply IH. intros r' Hr'. apply Hl. by right.
Qed.

(** The array after some work on [R] of which the ranges [live] remain: the
    others are sorted and in their places. *)
Record refines R arr arr' live : Prop := {
  rf_reorders : reorders (contains R) arr arr';
  rf_bounds r : r ∈ live → m_first R ≤ m_first r ∧ m_first r ≤ m_last r ∧ m_last r ≤ m_last R;
  rf_alone i : hits i live ≤ 1;
  rf_order i j x y : contains R i → contains R j → i < j → arr' !! i = Some x → arr' !! j = Some y →
    m_comp y x = false ∨ ∃ r, r ∈ live ∧ contains r i ∧ contains r j;
  rf_flag r : r ∈ live → m_leftmost r = false → m_first r < m_last r →
    m_first r = m_first R ∧ m_leftmost R = false ∨ m_first R < m_first r ∧ hits (m_first r - 1) live = 0;
}.

(** What a range may rely on: unless it is the leftmost one, the element
    before it is not greater than any of its own. *)
Definition range_ok r arr : Prop :=
  m_first r ≤ m_last r ≤ length arr ∧
  (m_leftmost r = false → m_first r < m_last r → 1 ≤ m_first r ∧
   ∀ i x y, contains r i → arr !! (m_first r - 1) = Some x → arr !! i = Some y → m_comp y x = false).

(** Where an element of the range comes from. *)
Lemma reorders_from r arr arr' i x :
  m_first r ≤ m_last r ≤ length arr → reorders (contains r) arr arr' → contains r i → arr' !! i = Some x →
  ∃ j, contains r j ∧ arr !! j = Some x.
Proof.
  intros Hb Hre Hi Hx. assert (Hin : x ∈ slice (m_first r) (m_last r) arr').
  { apply list_elem_of_lookup. exists (i - m_first r). unfold contains in *. rewrite slice_lookup by lia.
    rewrite <- Hx. f_equal. lia. }
  rewrite (reorders_slice _ _ _ _ Hb Hre), list_elem_of_lookup in Hin. destruct Hin as [k Hk].
  pose proof (lookup_lt_Some _ _ _ Hk) as Hlt. rewrite length_slice in Hlt by done. rewrite slice_lookup in Hk by done.
  exists (m_first r + k). unfold contains. split; [lia|done].
Qed.

Lemma refines_refl r arr : m_first r ≤ m_last r → refines r arr arr [r].
Proof.
  intros Hr. split.
  - apply reorders_refl.
  - intros r' ->%list_elem_of_singleton. lia.
  - intros i. rewrite hits_cons. change (hits i []) with 0. case_decide; lia.
  - intros i j x y Hi Hj _ _ _. right. exists r. split; [by apply list_elem_of_singleton|done].
  - intros r' ->%list_elem_of_singleton Hf _. by left.
Qed.

Lemma refines_ext R arr arr' live live' :
  refines R arr arr' live → (∀ r, m_first r < m_last r → r ∈ live ↔ r ∈ live') → (∀ i, hits i live' = hits i live) →
  (∀ r, r ∈ live' → m_first R ≤ m_first r ∧ m_first r ≤ m_last r ∧ m_last r ≤ m_last R) → refines R arr arr' live'.
Proof.
  intros [H1 H2 H3 H4 H5] He Hh Hb. split; [done|done| | |].
  - intros i. by rewrite Hh.
  - intros i j x y Hi Hj Hij Hx Hy. destruct (H4 i j x y Hi Hj Hij Hx Hy) as [|(r & Hr & ? & ?)]; [by left|].
    right. exists r. split; [|done]. apply He; [|done]. unfold contains in *. lia.
  - intros r Hr Hf Hn. rewrite Hh. apply H5; [by apply He|done..].
Qed.

Lemma refines_swap R arr arr' r1 r2 : refines R arr arr' [r1; r2] → refines R arr arr' [r2; r1].
Proof.
  intros Hr. assert (E : [r1; r2] ≡ₚ [r2; r1]) by constructor. apply (refines_ext _ _ _ _ _ Hr).
  - intros r _. by rewrite E.
  - intros i. rewrite !hits_cons. lia.
  - intros r Hi. apply (rf_bounds _ _ _ _ Hr). by rewrite E.
Qed.

Lemma refines_drop R arr arr' r e : refines R arr arr' [r; e] → m_first e = m_last e → refines R arr arr' [r].
Proof.
  intros Hr He. apply (refines_ext _ _ _ _ _ Hr).
  - intros r' Hn. rewrite !elem_of_cons. split; [|tauto]. intros [?|[->|?]]; [tauto|lia|tauto].
  - intros i. rewrite !hits_cons. rewrite (decide_False (P := contains e i)) by (unfold contains; lia). lia.
  - intros r' ->%list_elem_of_singleton. apply (rf_bounds _ _ _ _ Hr). by left.
Qed.

Lemma refines_add_empty R arr arr' r e :
  refines R arr arr' [r] → m_first e = m_last e → m_first R ≤ m_first e ≤ m_last R → refines R arr arr' [r; e].
Proof.
  intros Hr He Hb. apply (refines_ext _ _ _ _ _ Hr).
  - intros r' Hn. rewrite !elem_of_cons. split; [tauto|]. intros [?|[->|?]]; [tauto|lia|tauto].
  - intros i. rewrite !hits_cons. rewrite (decide_False (P := contains e i)) by (unfold contains; lia). lia.
  - intros r' [->|Hin]%elem_of_cons; [apply (rf_bounds _ _ _ _ Hr); by left|].
    apply list_elem_of_singleton in Hin as ->. lia.
Qed.

Lemma refines_inside R arr arr' live i : refines R arr arr' live → ¬ contains R i → hits i live = 0.
Proof.
  intros Hr Hi. apply hits_zero. intros r Hin Hc. apply Hi.
  pose proof (rf_bounds _ _ _ _ Hr r Hin). unfold contains in *. lia.
Qed.
Lemma contains_between r i j k : contains r i → contains r j → i ≤ k ≤ j → contains r k.
Proof. unfold contains. lia. Qed.

(** Work on one of the ranges that remain. *)
Section compose.
Context R arr0 arr arr' r (l1 l2 news : list quick_sort_range).
Hypothesis (HR : refines R arr0 arr (l1 ++ r :: l2)) (Hr : refines r arr arr' news) (Hlen : m_last R ≤ length arr0).

Lemma hits_middle i : hits i (l1 ++ r :: l2) = (if decide (contains r i) then 1 else 0) + hits i (l1 ++ l2).
Proof. rewrite !hits_app, hits_cons. lia. Qed.
Lemma hits_inserted i : hits i (l1 ++ news ++ l2) = hits i news + hits i (l1 ++ l2).
Proof. rewrite !hits_app. lia. Qed.

Lemma compose_bounds : m_first R ≤ m_first r ∧ m_first r ≤ m_last r ∧ m_last r ≤ m_last R.
Proof. apply (rf_bounds _ _ _ _ HR). rewrite elem_of_part. by left. Qed.

(** No other range has a position of [r]. *)
Lemma compose_alone i r' : contains r i → r' ∈ l1 ++ l2 → ¬ contains r' i.
Proof.
  intros Hi Hin Hc. pose proof (rf_alone _ _ _ _ HR i) as Ha. rewrite hits_middle, decide_True in Ha by done.
  pose proof (hits_pos i r' (l1 ++ l2) Hin Hc). lia.
Qed.

(** A range of which no more than one of two positions is in [r] is not [r]. *)
Lemma compose_order i j x y :
  contains R i → contains R j → i < j → arr !! i = Some x → arr !! j = Some y → ¬ (contains r i ∧ contains r j) →
  m_comp y x = false ∨ ∃ r', r' ∈ l1 ++ l2 ∧ contains r' i ∧ contains r' j.
Proof.
  intros Hi Hj Hij Hx Hy Hn. destruct (rf_order _ _ _ _ HR i j x y Hi Hj Hij Hx Hy) as [|(r' & Hin & ? & ?)]; [by left|].
  apply elem_of_part in Hin as [->|Hin]; [tauto|]. right. by exists r'.
Qed.

Lemma compose_in i : contains r i → contains R i.
Proof. pose proof compose_bounds. unfold contains. lia. Qed.

(** An element at a position before the work, which is in [r] if the position is. *)
Lemma compose_from i x : contains R i → arr' !! i = Some x →
  ∃ k, arr !! k = Some x ∧ (contains r i ∧ contains r k ∨ ¬ contains r i ∧ k = i).
Proof.
  intros Hi Hx. destruct (decide (contains r i)) as [Hc|Hc].
  - pose proof compose_bounds. pose proof (reorders_length _ _ _ (rf_reorders _ _ _ _ HR)).
    destruct (reorders_from r arr arr' i x) as (k & Hk & E); [lia|apply Hr|done..|]. exists k. auto.
  - exists i. rewrite <- Hx. split; [|auto]. symmetry. by apply (rf_reorders _ _ _ _ Hr).
Qed.

Lemma compose_order' i j x y :
  contains R i → contains R j → i < j → arr' !! i = Some x → arr' !! j = Some y →
  m_comp y x = false ∨ ∃ r', r' ∈ l1 ++ news ++ l2 ∧ contains r' i ∧ contains r' j.
Proof.
  intros Hi Hj Hij Hx Hy. destruct (decide (contains r i ∧ contains r j)) as [[Hci Hcj]|Hn].
  { destruct (rf_order _ _ _ _ Hr i j x y Hci Hcj Hij Hx Hy) as [|(r' & ? & ?)]; [by left|].
    right. exists r'. rewrite elem_of_replaced. auto. }
  destruct (compose_from i x Hi Hx) as (i0 & Hx0 & Hi0). destruct (compose_from j y Hj Hy) as (j0 & Hy0 & Hj0).
  assert (i0 < j0) by (unfold contains in *; lia).
  assert (Hn0 : ¬ (contains r i0 ∧ contains r j0)) by (intros [??]; destruct Hi0 as [[??]|[? ->]], Hj0 as [[??]|[? ->]]; tauto).
  assert (contains R i0) by (destruct Hi0 as [[_ ?%compose_in]|[_ ->]]; done).
  assert (contains R j0) by (destruct Hj0 as [[_ ?%compose_in]|[_ ->]]; done).
  destruct (compose_order i0 j0 x y) as [|(r' & Hin & C1 & C2)]; [done..|by left|].
  right. exists r'. rewrite elem_of_replaced. split; [by right|].
  assert (¬ contains r i0) by (intros ?; by eapply compose_alone). assert (¬ contains r j0) by (intros ?; by eapply compose_alone).
  destruct Hi0 as [[??]|[? ->]]; [done|]. destruct Hj0 as [[??]|[? ->]]; done.
Qed.

Lemma compose_hits i : hits i (l1 ++ r :: l2) = 0 → hits i (l1 ++ news ++ l2) = 0.
Proof.
  rewrite hits_middle, hits_inserted. case_decide as Hc; [lia|]. rewrite (refines_inside _ _ _ _ _ Hr Hc). lia.
Qed.

Lemma compose_flag r' : r' ∈ l1 ++ news ++ l2 → m_leftmost r' = false → m_first r' < m_last r' →
  m_first r' = m_first R ∧ m_leftmost R = false ∨ m_first R < m_first r' ∧ hits (m_first r' - 1) (l1 ++ news ++ l2) = 0.
Proof.
  intros Hin Hf Hne. pose proof compose_bounds as Hb. apply elem_of_replaced in Hin as [Hin|Hin].
  - pose proof (rf_bounds _ _ _ _ Hr r' Hin) as Hb'. destruct (rf_flag _ _ _ _ Hr r' Hin Hf Hne) as [[E Hf']|[Hlt Hz]].
    + rewrite E. destruct (rf_flag _ _ _ _ HR r) as [?|[? Hz]]; [rewrite elem_of_part; by left|done|lia|by left|].
      right. split; [done|]. by apply compose_hits.
    + right. split; [lia|]. rewrite hits_inserted, Hz. apply hits_zero. intros r1 Hin1.
      apply compose_alone; [|done]. unfold contains. lia.
  - destruct (rf_flag _ _ _ _ HR r') as [?|[? Hz]]; [rewrite elem_of_part; by right|done..|by left|].
    right. split; [done|]. by apply compose_hits.
Qed.

Lemma refines_compose : refines R arr0 arr' (l1 ++ news ++ l2).
Proof.
  split.
  - eapply reorders_mono; [|exact (reorders_trans _ _ _ _ _ (rf_reorders _ _ _ _ HR) (rf_reorders _ _ _ _ Hr))].
    intros i [?|?%compose_in]; done.
  - intros r' [Hin|Hin]%elem_of_replaced; [|apply (rf_bounds _ _ _ _ HR), elem_of_part; by right].
    pose proof compose_bounds. pose proof (rf_bounds _ _ _ _ Hr r' Hin). lia.
  - intros i. pose proof (rf_alone _ _ _ _ HR i) as H1. pose proof (rf_alone _ _ _ _ Hr i) as H2.
    rewrite hits_inserted. rewrite hits_middle in H1. case_decide as Hc; [lia|]. rewrite (refines_inside _ _ _ _ _ Hr Hc). lia.
  - apply compose_order'.
  - apply compose_flag.
Qed.
End compose.

Lemma refines_ok R arr arr' live r : refines R arr arr' live → range_ok R arr → r ∈ live → range_ok r arr'.
Proof.
  intros HR [Hb Hf] Hin. pose proof (rf_bounds _ _ _ _ HR r Hin) as Hb'.
  pose proof (reorders_length _ _ _ (rf_reorders _ _ _ _ HR)) as El. split; [lia|]. intros Hl Hne.
  destruct (rf_flag _ _ _ _ HR r Hin Hl Hne) as [[E Hl']|[Hlt Hz]].
  - destruct (Hf Hl') as [H1 H2]; [lia|]. rewrite E. split; [done|]. intros i x y Hi Hx Hy.
    destruct (reorders_from R arr arr' i y) as (k & Hk & Hy'); [done|apply HR|unfold contains in *; lia|done|].
    apply (H2 k x y); [done| |done]. rewrite <- Hx. symmetry. apply (rf_reorders _ _ _ _ HR). unfold contains. lia.
  - split; [lia|]. intros i x y Hi Hx Hy. unfold contains in Hi.
    destruct (rf_order _ _ _ _ HR (m_first r - 1) i x y) as [?|(r' & Hin' & Hc & _)]; [unfold contains; lia..|done|done|done|].
    pose proof (hits_pos _ _ _ Hin' Hc). lia.
Qed.

(** ** The operations on a range *)
Context `{!StdPartitionLaws A} `{!StdSortLaws A} (Hsched : ∀ a b, sched a b ≡ₚ seq 0 (b - a)).
Context (n : nat) (Hgrain : 1 ≤ grainsize) (Hcutoff : 2 ≤ serial_partition_cutoff).
Context (Hn : (Z.of_nat n < 2 ^ 63)%Z).
Context (Hruns : ∀ a b, a ≤ b ≤ n → serial_partition_cutoff ≤ b - a → executed a b (runs a b)).

Lemma runs_cover a b : a ≤ b ≤ n → serial_partition_cutoff ≤ b - a → covers (positions (runs a b)) a (mid a b).
Proof. intros Hab Hc. apply executed_covers; [lia..|]. by apply Hruns. Qed.

Lemma partition_spec pred a b arr : a ≤ b ≤ n → length arr = n →
  ∃ k arr', partition pred a b arr = Some (k, arr') ∧ partitioned pred a b k arr arr'.
Proof. intros Hab El. apply parallel_partition_spec; [done|done|lia|done|lia|]. by apply runs_cover. Qed.

Lemma median_of_three_spec first l m (r : nat) arr :
  first + l < length arr → first + m < length arr → first + r < length arr →
  ∃ k, median_of_three first l m r arr = Some (k, arr) ∧ (k = l ∨ k = m ∨ k = r).
Proof.
  intros [x Hx]%lookup_lt_is_Some_2 [y Hy]%lookup_lt_is_Some_2 [z Hz]%lookup_lt_is_Some_2. unfold median_of_three.
  do 3 (erewrite bind_run; [|unfold read; rewrite ?Hx, ?Hy, ?Hz; simpl; reflexivity]). repeat case_match; eauto.
Qed.

Lemma pseudo_median_of_nine_spec first last arr :
  first < last → last ≤ length arr →
  ∃ k, pseudo_median_of_nine first last arr = Some (k, arr) ∧ first + k < last.
Proof.
  intros H1 H2. unfold pseudo_median_of_nine. set (len := last - first). set (o := len / 8).
  assert (len = last - first ∧ 8 * o ≤ len) as [El Ho] by (split; [done|]; unfold o; apply Nat.Div0.mul_div_le).
  clearbody o len.
  destruct (median_of_three_spec first 0 o (o * 2) arr) as (a & E1 & Ha); [lia..|].
  destruct (median_of_three_spec first (o * 3) (o * 4) (o * 5) arr) as (b & E2 & Hb); [lia..|].
  destruct (median_of_three_spec first (o * 6) (o * 7) (len - 1) arr) as (c & E3 & Hc); [lia..|].
  destruct (median_of_three_spec first a b c arr) as (k & E4 & Hk); [lia..|].
  exists k. rewrite (bind_run _ _ _ _ _ E1), (bind_run _ _ _ _ _ E2), (bind_run _ _ _ _ _ E3). split; [done|lia].
Qed.

Lemma choose_pivot_spec r arr : m_first r < m_last r → m_last r ≤ length arr →
  ∃ pivot arr', choose_pivot r arr = Some (pivot, arr') ∧ reorders (contains r) arr arr' ∧ arr' !! m_first r = Some pivot.
Proof.
  intros H1 H2. destruct (pseudo_median_of_nine_spec _ _ arr H1 H2) as (k & E & Hk). unfold choose_pivot.
  rewrite (bind_run _ _ _ _ _ E). case_decide as Hz.
  - destruct (iter_swap_spec (m_first r) (m_first r + k) arr) as (arr' & Es & Hre & Ef & _); [lia..|].
    destruct (lookup_lt_is_Some_2 arr (m_first r + k)) as [x Hx]; [lia|]. rewrite Hx in Ef. exists x, arr'.
    rewrite (bind_run _ _ _ _ _ Es). unfold read. rewrite Ef. split_and!; [done| |done].
    eapply reorders_mono; [|exact Hre]. unfold contains. intros i [-> | ->]; lia.
  - destruct (lookup_lt_is_Some_2 arr (m_first r)) as [x Hx]; [lia|]. exists x, arr.
    rewrite (bind_run _ _ arr () arr eq_refl). unfold read. rewrite Hx. split_and!; [done|apply reorders_refl|done].
Qed.

(** The positions of the pivot of a partition and of the other elements. *)
Definition split_at r (pivot : A) (pos : nat) arr : Prop :=
  contains r pos ∧ arr !! pos = Some pivot ∧
  (∀ i x, m_first r ≤ i < pos → arr !! i = Some x → m_comp x pivot = true) ∧
  (∀ i x, pos < i < m_last r → arr !! i = Some x → m_comp x pivot = false).

Lemma partition_pivot_spec r pivot arr :
  m_first r < m_last r → m_last r ≤ n → length arr = n → arr !! m_first r = Some pivot →
  ∃ pos arr', partition_pivot r pivot arr = Some (pos, arr') ∧ reorders (contains r) arr arr' ∧ split_at r pivot pos arr'.
Proof.
  intros H1 H2 El Hp. unfold partition_pivot.
  destruct (partition_spec (λ x, m_comp x pivot) (m_first r + 1) (m_last r) arr) as (it & arr1 & E & Hb & Hre & Ht & Hf); [lia|done|].
  rewrite (bind_run _ _ _ _ _ E). assert (Hre1 : reorders (contains r) arr arr1).
  { eapply reorders_mono; [|exact Hre]. unfold contains. simpl. lia. }
  assert (Hp1 : arr1 !! m_first r = Some pivot) by (rewrite <- Hp; apply Hre; lia).
  pose proof (reorders_length _ _ _ Hre) as El1. unfold split_at, contains. case_decide as Hit.
  - exists (m_first r), arr1. split_and!; [done..|lia| | |]; [done|intros; lia|].
    intros i x Hi. apply Hf. lia.
  - destruct (iter_swap_spec (m_first r) (it - 1) arr1) as (arr2 & Es & Hre2 & E1 & E2); [lia..|].
    exists (it - 1), arr2. rewrite (bind_run _ _ _ _ _ Es).
    split_and!; [done| |lia..|by rewrite E2| |].
    + eapply reorders_mono; [|exact (reorders_trans _ _ _ _ _ Hre1 Hre2)]. unfold contains. intros i [?|[-> | ->]]; lia.
    + intros i x Hi Hx. destruct (decide (i = m_first r)) as [->|Hne].
      * rewrite E1 in Hx. apply (Ht (it - 1)); [lia|done].
      * apply (Ht i); [lia|]. rewrite <- Hx. symmetry. apply Hre2. lia.
    + intros i x Hi Hx. apply (Hf i); [lia|]. rewrite <- Hx. symmetry. apply Hre2. lia.
Qed.

Lemma pivot_refines r pivot pos arr arr' : reorders (contains r) arr arr' → split_at r pivot pos arr' →
  refines r arr arr' [Range (m_first r) pos (m_leftmost r); Range (pos + 1) (m_last r) false].
Proof.
  intros Hre (Hpos & Hp & Hlt & Hge). unfold contains in *. split; [done|..].
  - intros r' [->|Hin]%elem_of_cons; [simpl; lia|]. apply list_elem_of_singleton in Hin as ->. simpl. lia.
  - intros i. rewrite !hits_cons. change (hits i []) with 0. unfold contains. simpl. repeat case_decide; lia.
  - intros i j x y Hi Hj Hij Hx Hy. unfold contains in *. destruct (decide (j < pos)) as [Hjp|Hjp].
    { right. eexists. split; [by left|]. unfold contains. simpl. lia. }
    destruct (decide (pos < i)) as [Hip|Hip].
    { right. eexists. split; [right; by left|]. unfold contains. simpl. lia. }
    left. assert (Hy' : m_comp y pivot = false).
    { destruct (decide (j = pos)) as [->|]; [|apply (Hge j); [lia|done]]. rewrite Hp in Hy. injection Hy as <-. apply swo_irrefl. }
    destruct (decide (i = pos)) as [->|]; [by simplify_eq|].
    apply (swo_ge_trans _ pivot); [done|]. apply swo_asym, (Hlt i); [lia|done].
  - intros r' Hin Hf Hne. apply elem_of_cons in Hin as [->|Hin]; [by left|]. apply list_elem_of_singleton in Hin as ->.
    right. simpl in *. split; [lia|]. rewrite !hits_cons. unfold contains. simpl. by rewrite !decide_False by lia.
Qed.

Lemma equal_refines r (prev pivot : A) k arr arr1 arr2 :
  range_ok r arr → m_leftmost r = false → m_first r < m_last r → reorders (contains r) arr arr1 →
  arr1 !! m_first r = Some pivot → arr1 !! (m_first r - 1) = Some prev → m_comp prev pivot = false →
  partitioned (λ x, negb (m_comp pivot x)) (m_first r + 1) (m_last r) k arr1 arr2 →
  refines r arr arr2 [Range k (m_last r) (m_leftmost r)].
Proof.
  intros [Hb Hf] Hl Hne Hre1 Hp Hprev Heq (Hk & Hre & Ht & _). destruct (Hf Hl Hne) as [H1 Hge].
  assert (Hre2 : reorders (contains r) arr arr2).
  { eapply reorders_mono; [|exact (reorders_trans _ _ _ _ _ Hre1 Hre)]. unfold contains. lia. }
  split; [done|..].
  - intros r' ->%list_elem_of_singleton. simpl. lia.
  - intros i. rewrite hits_cons. change (hits i []) with 0. case_decide; lia.
  - intros i j x y Hi Hj Hij Hx Hy. destruct (decide (k ≤ i)) as [Hki|Hki].
    { right. eexists. split; [by left|]. unfold contains in *. simpl. lia. }
    left. apply (swo_ge_trans _ pivot).
    + destruct (reorders_from r arr arr2 j y) as (j0 & Hj0 & Hy0); [done..|]. apply (swo_ge_trans _ prev); [|done].
      apply (Hge j0); [done| |done]. rewrite <- Hprev. symmetry. apply Hre1. unfold contains. lia.
    + destruct (decide (i = m_first r)) as [->|Hne'].
      * assert (x = pivot) as ->; [|apply swo_irrefl]. destruct Hre as [_ Hre]. rewrite Hre, Hp in Hx by lia. by injection Hx.
      * apply negb_true_iff, (Ht i); [unfold contains in *; lia|done].
  - intros r' ->%list_elem_of_singleton _ _. right. simpl. split; [lia|].
    rewrite hits_cons. unfold contains. simpl. by rewrite decide_False by lia.
Qed.

Definition size r : nat := m_last r - m_first r.

(** What a split promises: it divides the range, and leaves an element out. *)
Definition split_ok r arr (res : quick_sort_range * quick_sort_range) arr' : Prop :=
  refines r arr arr' [res.1; res.2] ∧ size res.1 + size res.2 < size r.

Lemma split_ok_trans r r1 arr arr1 res arr2 :
  m_last r ≤ length arr → refines r arr arr1 [r1] → size r1 ≤ size r → split_ok r1 arr1 res arr2 → split_ok r arr res arr2.
Proof.
  intros Hl H1 Hs [H2 Hs2]. split; [|lia]. by apply (refines_compose r arr arr1 arr2 r1 [] [] [res.1; res.2]).
Qed.

(** [split_checked], on a part of the range after some work. *)
Lemma split_checked_ok fuel r r1 arr arr1 :
  (∀ r arr, range_ok r arr → m_first r < m_last r → length arr = n → size r ≤ fuel →
    ∃ res arr', split_unchecked fuel r arr = Some (res, arr') ∧ split_ok r arr res arr') →
  range_ok r arr → refines r arr arr1 [r1] → size r1 < size r → length arr = n → size r1 ≤ fuel →
  ∃ res arr', (if is_divisible r1 then split_unchecked fuel r1 else mret (r1, Range (m_last r1) (m_last r1) false)) arr1
    = Some (res, arr') ∧ split_ok r arr res arr'.
Proof.
  intros IH Hok Hr1 Hs El Hfuel. pose proof (reorders_length _ _ _ (rf_reorders _ _ _ _ Hr1)) as El1.
  assert (Hin : r1 ∈ [r1]) by (by left). pose proof (rf_bounds _ _ _ _ Hr1 r1 Hin) as Hb.
  pose proof Hok as [[_ Hlast] _]. destruct (is_divisible r1) eqn:Hd.
  - apply Nat.leb_le in Hd. destruct (IH r1 arr1) as (res & arr2 & E & Hres); [|lia|lia|done|].
    { by apply (refines_ok _ _ _ _ _ Hr1). }
    exists res, arr2. split; [done|]. eapply split_ok_trans; [done..|lia|done].
  - eexists _, arr1. split; [reflexivity|]. split; simpl; [|unfold size at 2; simpl; lia].
    apply refines_add_empty; simpl; [done|done|lia].
Qed.

Lemma split_unchecked_ok fuel r arr :
  range_ok r arr → m_first r < m_last r → length arr = n → size r ≤ fuel →
  ∃ res arr', split_unchecked fuel r arr = Some (res, arr') ∧ split_ok r arr res arr'.
Proof.
  revert r arr. induction fuel as [|fuel IH]; intros r arr Hok Hne El Hs; [unfold size in Hs; lia|]. cbn [split_unchecked].
  pose proof Hok as [Hb Hf]. destruct (choose_pivot_spec r arr Hne ltac:(lia)) as (pivot & arr1 & E1 & Hre1 & Hp).
  rewrite (bind_run _ _ _ _ _ E1). pose proof (reorders_length _ _ _ Hre1) as El1.
  assert (∃ same, same_pivot r pivot arr1 = Some (same, arr1) ∧ (same = true → m_leftmost r = false ∧
    ∃ prev, arr1 !! (m_first r - 1) = Some prev ∧ m_comp prev pivot = false)) as (same & E2 & Hsame).
  { unfold same_pivot. destruct (m_leftmost r); [by exists false|]. destruct (lookup_lt_is_Some_2 arr1 (m_first r - 1)) as [x Hx]; [lia|].
    erewrite bind_run by (unfold read; rewrite Hx; reflexivity). eexists. split; [reflexivity|].
    intros Hc%negb_true_iff. split; [done|]. by exists x. }
  rewrite (bind_run _ _ _ _ _ E2). destruct same.
  - destruct (Hsame eq_refl) as (Hl & prev & Hprev & Heq).
    destruct (partition_spec (λ x, negb (m_comp pivot x)) (m_first r + 1) (m_last r) arr1) as (k & arr2 & E3 & Hpart); [lia..|].
    rewrite (bind_run _ _ _ _ _ E3). pose proof Hpart as (Hk & _).
    apply (split_checked_ok fuel r); [done|done|by eapply equal_refines|unfold size in *; simpl; lia..].
  - destruct (partition_pivot_spec r pivot arr1) as (pos & arr2 & E3 & Hre2 & Hat); [lia..|done|].
    rewrite (bind_run _ _ _ _ _ E3). pose proof Hat as (Hpos & _). unfold contains in Hpos.
    assert (Href : refines r arr arr2 [Range (m_first r) pos (m_leftmost r); Range (pos + 1) (m_last r) false]).
    { eapply pivot_refines, Hat. eapply reorders_mono; [|exact (reorders_trans _ _ _ _ _ Hre1 Hre2)]. tauto. }
    case_decide; [|case_decide].
    + apply (split_checked_ok fuel r); [done|done| |unfold size in *; simpl; lia..].
      apply refines_swap in Href. eapply refines_drop; [done|]. simpl. lia.
    + apply (split_checked_ok fuel r); [done|done| |unfold size in *; simpl; lia..]. eapply refines_drop; [done|]. simpl. lia.
    + case_match; eexists _, arr2; (split; [reflexivity|]); (split; [|unfold size; simpl; lia]); [by apply refines_swap|done].
Qed.

Lemma leaf_sort_ok r arr : m_first r ≤ m_last r ≤ length arr →
  ∃ arr', leaf_sort r arr = Some ((), arr') ∧ refines r arr arr' [].
Proof.
  intros Hb. unfold leaf_sort, on_range. rewrite decide_True by done. eexists. split; [reflexivity|].
  pose proof (std_sort_perm m_comp (slice (m_first r) (m_last r) arr)) as Hp.
  pose proof (Permutation_length Hp) as Hl. rewrite length_slice in Hl by done. split.
  - by apply splice_reorders.
  - by intros r' ?%elem_of_nil.
  - intros i. change (hits i []) with 0. lia.
  - intros i j x y Hi Hj Hij. unfold contains in *. rewrite !splice_lookup, !decide_True by done. intros Hx Hy.
    left. eapply std_sort_order; [done| |exact Hx|exact Hy]. lia.
  - by intros r' ?%elem_of_nil.
Qed.

Lemma execute_range_ok split r arr :
  range_ok r arr → length arr = n → (split = true → is_divisible r = true) →
  ∃ news arr', execute_range split r arr = Some (news, arr') ∧ refines r arr arr' news ∧
    sum_list_with (λ r, 2 * size r + 1) news < 2 * size r + 1.
Proof.
  intros Hok El Hd. unfold execute_range. destruct split.
  - specialize (Hd eq_refl). apply Nat.leb_le in Hd.
    destruct (split_unchecked_ok (m_last r - m_first r) r arr) as (res & arr' & E & Hr & Hs); [done|lia|done|done|].
    exists [res.1; res.2], arr'. rewrite (bind_run _ _ _ _ _ E). split_and!; [done|done|simpl; lia].
  - destruct (leaf_sort_ok r arr) as (arr' & E & Hr); [apply Hok|]. exists [], arr'.
    rewrite (bind_run _ _ _ _ _ E). split_and!; [done|done|simpl; lia].
Qed.

(** ** The sort *)
Definition sort_inv arr (s : list quick_sort_range * list A) : Prop := refines (Range 0 n true) arr s.2 s.1.

Lemma whole_ok arr : length arr = n → range_ok (Range 0 n true) arr.
Proof. intros El. split; simpl; [lia|done]. Qed.

Lemma sort_inv_ok arr s r : length arr = n → sort_inv arr s → r ∈ s.1 → range_ok r s.2 ∧ length s.2 = n.
Proof.
  intros El Hi Hin. split; [by eapply (refines_ok (Range 0 n true)); [|apply whole_ok|]|].
  rewrite <- El. apply (reorders_length _ _ _ (rf_reorders _ _ _ _ Hi)).
Qed.

Definition remaining (s : list quick_sort_range * list A) : nat := sum_list_with (λ r, 2 * size r + 1) s.1.

Lemma sort_step_inv arr s s' : length arr = n → sort_inv arr s → sort_step s s' → sort_inv arr s' ∧ remaining s' < remaining s.
Proof.
  intros El Hi Hst. destruct Hst as [l1 r l2 split news arr1 arr2 Hd E]. destruct (sort_inv_ok arr (l1 ++ r :: l2, arr1) r El Hi) as [Hok El1].
  { simpl. rewrite elem_of_app, elem_of_cons. auto. }
  destruct (execute_range_ok split r arr1 Hok El1 Hd) as (news' & arr' & E' & Hr & Hs). rewrite E in E'. injection E' as <- <-.
  split.
  - apply (refines_compose (Range 0 n true) arr arr1 arr2 r l1 l2 news); [done|done|simpl; lia].
  - unfold remaining. cbn [fst]. rewrite !sum_list_with_app. cbn [sum_list_with]. lia.
Qed.

Lemma sort_steps_inv arr s s' : length arr = n → rtc sort_step s s' → sort_inv arr s → sort_inv arr s'.
Proof. intros El. induction 1 as [|s s1 s2 Hst _ IH]; [done|]. intros Hi. by apply IH, (sort_step_inv arr s). Qed.

Lemma sort_start_inv arr : sort_inv arr ([Range 0 n true], arr).
Proof. apply refines_refl. simpl. lia. Qed.

Lemma sort_nsteps arr k s s' : length arr = n → nsteps sort_step k s s' → sort_inv arr s → k ≤ remaining s.
Proof.
  intros El. induction 1 as [|k s s1 s2 Hst _ IH]; [lia|]. intros Hi.
  destruct (sort_step_inv arr s s1 El Hi Hst) as [Hi1 Hlt]. specialize (IH Hi1). lia.
Qed.

Lemma quick_sort_sorts arr arr' : length arr = n → do_parallel_quick_sort arr arr' → arr' ≡ₚ arr ∧ in_order m_comp arr'.
Proof.
  intros El Hs. unfold do_parallel_quick_sort in Hs. rewrite El in Hs.
  pose proof (sort_steps_inv _ _ _ El Hs (sort_start_inv arr)) as [Hre _ _ Ho _]. simpl in *. split; [apply Hre|].
  pose proof (reorders_length _ _ _ Hre) as El'. intros i j x y Hij Hx Hy.
  pose proof (lookup_lt_Some _ _ _ Hx). pose proof (lookup_lt_Some _ _ _ Hy).
  destruct (Ho i j x y) as [?|(r & ?%elem_of_nil & _)]; [unfold contains; simpl; lia..|done|done|done|done].
Qed.

Lemma quick_sort_total arr : length arr = n → ∃ arr', do_parallel_quick_sort arr arr'.
Proof.
  intros El. unfold do_parallel_quick_sort. rewrite El. pose proof (sort_start_inv arr) as Hi. revert Hi.
  generalize ([Range 0 n true], arr) at 1 2 as s. intros s. remember (remaining s) as k eqn:Hk. revert s Hk.
  induction (lt_wf k) as [k _ IH]; intros [live arr1] -> Hi. destruct live as [|r live]; [by exists arr1|].
  destruct (sort_inv_ok arr _ r El Hi) as [Hok El1]; [by left|].
  destruct (execute_range_ok false r arr1 Hok El1 ltac:(done)) as (news & arr2 & E & _).
  pose proof (sort_execute [] r live false news arr1 arr2 ltac:(done) E) as Hst.
  destruct (sort_step_inv arr _ _ El Hi Hst) as [Hi' Hlt]. destruct (IH _ Hlt _ eq_refl Hi') as [arr' Hr].
  exists arr'. by eapply rtc_l.
Qed.

(** ** The positions that a task accesses *)
Definition reads r (i : nat) : Prop := m_first r - (if m_leftmost r then 0 else 1) ≤ i < m_last r.

Section locality.
Context (P : nat → Prop).

Lemma median_of_three_local first l m (r : nat) :
  P (first + l) → P (first + m) → P (first + r) → local n P (median_of_three first l m r).
Proof. intros H1 H2 H3. do 3 (apply local_bind'; [by apply local_read|]; intros ?). apply local_ret. Qed.

Lemma pseudo_median_of_nine_local first last :
  first < last → last ≤ n → (∀ i, first ≤ i < last → P i) → local n P (pseudo_median_of_nine first last).
Proof.
  intros H1 H2 HP. unfold pseudo_median_of_nine. set (len := last - first). set (o := len / 8).
  assert (len = last - first ∧ 8 * o ≤ len) as [El Ho] by (split; [done|]; unfold o; apply Nat.Div0.mul_div_le).
  clearbody o len. assert (Hres : ∀ l m (r : nat), first + l < last → first + m < last → first + r < last → ∀ arr k arr',
    length arr = n → median_of_three first l m r arr = Some (k, arr') → first + k < last).
  { intros l m r Hl Hm Hr arr k arr' E0 E. destruct (median_of_three_spec first l m r arr) as (k' & E' & Hk); [lia..|].
    rewrite E in E'. injection E' as <- _. lia. }
  do 3 (apply (local_bind _ _ (λ k, first + k < last));
    [apply median_of_three_local; apply HP; lia|intros arr k arr' L E; eapply Hres; [..|exact L|exact E]; lia|intros ? ?]).
  apply median_of_three_local; apply HP; lia.
Qed.

Lemma choose_pivot_local r :
  m_first r < m_last r → m_last r ≤ n → (∀ i, contains r i → P i) → local n P (choose_pivot r).
Proof.
  intros H1 H2 HP. unfold choose_pivot. apply (local_bind _ _ (λ k, m_first r + k < m_last r)).
  - by apply pseudo_median_of_nine_local.
  - intros arr k arr' L E. destruct (pseudo_median_of_nine_spec (m_first r) (m_last r) arr) as (k' & E' & Hk); [lia..|].
    rewrite E in E'. injection E' as <- _. done.
  - intros k Hk. unfold contains in HP. apply local_bind'; [|intros _; apply local_read, HP; lia].
    case_decide; [|apply local_ret]. apply local_iter_swap; apply HP; lia.
Qed.

Lemma partition_local pred a b : a ≤ b ≤ n → (∀ i, a ≤ i < b → P i) → local n P (partition pred a b).
Proof. intros Hab HP. apply parallel_partition_local; [done|done|lia|done|lia| |done]. by apply runs_cover. Qed.

Lemma partition_result pred a b arr k arr' :
  a ≤ b ≤ n → length arr = n → partition pred a b arr = Some (k, arr') → a ≤ k ≤ b.
Proof.
  intros Hab El E. destruct (partition_spec pred a b arr Hab El) as (k' & arr1 & E' & Hk & _).
  rewrite E in E'. by injection E' as <- _.
Qed.

Lemma partition_pivot_local r pivot :
  m_first r < m_last r → m_last r ≤ n → (∀ i, contains r i → P i) → local n P (partition_pivot r pivot).
Proof.
  intros H1 H2 HP. unfold contains in HP. apply (local_bind _ _ (λ k, m_first r + 1 ≤ k ≤ m_last r)).
  - apply partition_local; [lia|]. intros i Hi. apply HP. lia.
  - intros arr k arr' L E. apply partition_result in E; lia.
  - intros k Hk. case_decide; [apply local_ret|]. apply local_bind'; [|intros; apply local_ret].
    apply local_iter_swap; apply HP; lia.
Qed.

Lemma partition_pivot_result r pivot arr pos arr' :
  m_first r < m_last r → m_last r ≤ n → length arr = n → partition_pivot r pivot arr = Some (pos, arr') → contains r pos.
Proof.
  intros H1 H2 El E. unfold partition_pivot in E. unfold mbind, M_bind in E. apply bind_Some in E as ([it arr1] & E & E').
  apply partition_result in E; [|lia..]. unfold contains. case_decide; [injection E' as <- _; lia|].
  apply bind_Some in E' as ([[] arr2] & _ & [= <- _]). lia.
Qed.
End locality.

Lemma split_unchecked_local (P : nat → Prop) fuel r :
  m_first r < m_last r → m_last r ≤ n → (m_leftmost r = false → 1 ≤ m_first r) → (∀ i, reads r i → P i) →
  local n P (split_unchecked fuel r).
Proof.
  revert r. induction fuel as [|fuel IH]; intros r H1 H2 H3 HP; cbn [split_unchecked]; [by intros l1 l2 _ _ _|].
  assert (HC : ∀ i, contains r i → P i) by (intros i; unfold contains; intros; apply HP; unfold reads; lia).
  assert (Hnext : ∀ r1, m_first r ≤ m_first r1 → m_last r1 ≤ m_last r → (m_leftmost r1 = false → 1 ≤ m_first r1) →
    (∀ i, reads r1 i → reads r i) → local n P
      (if is_divisible r1 then split_unchecked fuel r1 else mret (r1, Range (m_last r1) (m_last r1) false))).
  { intros r1 Hf Hl Hm Hr. destruct (is_divisible r1) eqn:Hd; [|apply local_ret]. apply Nat.leb_le in Hd.
    apply IH; [lia|lia|done|auto]. }
  apply local_bind'; [by apply choose_pivot_local|]. intros pivot.
  apply (local_bind _ _ (λ same, same = true → m_leftmost r = false)).
  { unfold same_pivot. destruct (m_leftmost r) eqn:Hm; [apply local_ret|].
    apply local_bind'; [|intros; apply local_ret]. apply local_read, HP. specialize (H3 eq_refl). unfold reads. rewrite Hm. lia. }
  { intros arr same arr' L. unfold same_pivot. destruct (m_leftmost r); [by intros [= <- _]|done]. }
  intros [] Hm.
  - apply (local_bind _ _ (λ k, m_first r + 1 ≤ k ≤ m_last r)).
    + apply partition_local; [lia|]. intros i Hi. apply HC. unfold contains. lia.
    + intros arr k arr' L E. apply partition_result in E; lia.
    + intros k Hk. apply Hnext; unfold reads; simpl; [lia..|]. rewrite (Hm eq_refl). lia.
  - apply (local_bind _ _ (contains r)); [by apply partition_pivot_local|intros arr pos arr' L E; by eapply partition_pivot_result|].
    unfold contains. intros pos Hpos. case_decide; [|case_decide; [|case_match; apply local_ret]];
      apply Hnext; unfold reads; simpl; lia || (intros; case_match; lia) || done.
Qed.

Definition accesses (split : bool) r (i : nat) : Prop := if split then reads r i else contains r i.
#[local] Instance accesses_dec split r i : Decision (accesses split r i).
Proof. destruct split; unfold accesses, reads, contains; apply _. Defined.

Lemma execute_range_local split r arr :
  range_ok r arr → length arr = n → (split = true → is_divisible r = true) → local n (accesses split r) (execute_range split r).
Proof.
  intros [Hb Hf] El Hd. unfold execute_range. destruct split.
  - specialize (Hd eq_refl). apply Nat.leb_le in Hd. apply local_bind'; [|intros; apply local_ret].
    apply split_unchecked_local; [lia|lia| |done]. intros Hm. apply Hf; [done|lia].
  - apply local_bind'; [|intros; apply local_ret]. apply local_on_range; [|done].
    intros k. simpl. by rewrite std_sort_perm.
Qed.

(** Tasks on two of the ranges access different positions. *)
Lemma accesses_disjoint arr live arr1 r1 r2 rest split1 split2 i :
  sort_inv arr (live, arr1) → live ≡ₚ r1 :: r2 :: rest →
  (split1 = true → m_first r1 < m_last r1) → (split2 = true → m_first r2 < m_last r2) →
  accesses split1 r1 i → accesses split2 r2 i → False.
Proof.
  intros Hi Hp H1 H2 A1 A2.
  assert (Hh : ∀ j, hits j live = hits j (r1 :: r2 :: rest)) by (intros j; unfold hits; by rewrite Hp).
  assert (Hone : ∀ j, contains r1 j → contains r2 j → False).
  { intros j C1 C2. pose proof (rf_alone _ _ _ _ Hi j) as Ha. simpl in Ha. rewrite Hh, !hits_cons, !decide_True in Ha by done. lia. }
  assert (Hbefore : ∀ r r', r ∈ [r1; r2] → r' ∈ [r1; r2] → m_leftmost r = false → m_first r < m_last r →
    1 ≤ m_first r ∧ ¬ contains r' (m_first r - 1)).
  { intros r r' Hr Hr' Hm Hne. assert (Hin : ∀ r, r ∈ [r1; r2] → r ∈ live).
    { intros r0. rewrite Hp, !elem_of_cons. intros [?|[?|?%elem_of_nil]]; auto; done. }
    destruct (rf_flag _ _ _ _ Hi r (Hin r Hr) Hm Hne) as [[_ ?]|[Hlt Hz]]; [done|]. simpl in *. split; [lia|].
    intros Hc. pose proof (hits_pos _ _ _ (Hin r' Hr') Hc). lia. }
  assert (Hcase : ∀ split r, r ∈ [r1; r2] → accesses split r i → (split = true → m_first r < m_last r) →
    contains r i ∨ m_leftmost r = false ∧ m_first r < m_last r ∧ i = m_first r - 1).
  { intros split r Hr Ha Hne. destruct split; [|by left]. unfold accesses, reads in Ha. unfold contains.
    destruct (m_leftmost r); [left; lia|]. destruct (decide (i < m_first r)); [right; split_and!; [done|auto|lia]|left; lia]. }
  assert (I1 : r1 ∈ [r1; r2]) by (by left). assert (I2 : r2 ∈ [r1; r2]) by (right; by left).
  destruct (Hcase _ _ I1 A1 H1) as [C1|(M1 & N1 & E1)], (Hcase _ _ I2 A2 H2) as [C2|(M2 & N2 & E2)].
  - eauto.
  - destruct (Hbefore r2 r1 I2 I1 M2 N2) as [_ Hn2]. by rewrite <- E2 in Hn2.
  - destruct (Hbefore r1 r2 I1 I2 M1 N1) as [_ Hn1]. by rewrite <- E1 in Hn1.
  - destruct (Hbefore r1 r1 I1 I1 M1 N1) as [B1 _]. destruct (Hbefore r2 r2 I2 I2 M2 N2) as [B2 _].
    apply (Hone (m_first r1)); unfold contains; lia.
Qed.

Lemma tasks_commute arr live arr1 r1 r2 rest split1 split2 news1 arr2 news2 arr3 :
  length arr = n → sort_inv arr (live, arr1) → live ≡ₚ r1 :: r2 :: rest →
  (split1 = true → is_divisible r1 = true) → (split2 = true → is_divisible r2 = true) →
  execute_range split1 r1 arr1 = Some (news1, arr2) → execute_range split2 r2 arr2 = Some (news2, arr3) →
  ∃ arr2', execute_range split2 r2 arr1 = Some (news2, arr2') ∧ execute_range split1 r1 arr2' = Some (news1, arr3).
Proof.
  intros El Hi Hp D1 D2 E1 E2. destruct (sort_inv_ok _ _ r1 El Hi) as [Ok1 El1]; [simpl; rewrite Hp; by left|].
  destruct (sort_inv_ok _ _ r2 El Hi) as [Ok2 _]; [simpl; rewrite Hp; right; by left|].
  apply (local_commute n (accesses split1 r1) (accesses split2 r2) _ _ arr1 news1 arr2 news2 arr3); try done.
  - by eapply execute_range_local.
  - by eapply execute_range_local.
  - intros i. assert (Hne : ∀ r, is_divisible r = true → m_first r < m_last r).
    { intros r Hd%Nat.leb_le. lia. }
    eapply accesses_disjoint; eauto.
Qed.

(** ** The check for sorted input *)

(** [m_comp arr[i] arr[i-1]] does not hold for the positions from [a] to [b]. *)
Definition pairs_ok arr (a b : nat) : Prop :=
  ∀ i x y, a ≤ i < b → arr !! (i - 1) = Some x → arr !! i = Some y → m_comp y x = false.

Lemma pairs_in_order arr : pairs_ok arr 1 (length arr) → in_order m_comp arr.
Proof.
  intros Hp i j x y Hij Hx. remember (j - i - 1) as d eqn:Hd. revert j y Hij Hd.
  induction d as [|d IH]; intros j y Hij Hd Hy; pose proof (lookup_lt_Some _ _ _ Hy).
  - apply (Hp j); [lia| |done]. rewrite <- Hx. f_equal. lia.
  - destruct (lookup_lt_is_Some_2 arr (j - 1)) as [z Hz]; [lia|]. apply (swo_ge_trans _ z).
    + by apply (Hp j); [lia|..].
    + by apply (IH (j - 1)); [lia|lia|].
Qed.

Lemma prefix_in_order_spec m k arr : k + m < length arr →
  ∃ b, prefix_in_order m k arr = Some (b, arr) ∧ (b = true → pairs_ok arr (k + 1) (k + m + 1)).
Proof.
  revert k. induction m as [|m IH]; intros k Hk; simpl; [exists true; split; [done|]; intros _ i x y ?; lia|].
  destruct (lookup_lt_is_Some_2 arr (k + 1)) as [x Hx]; [lia|]. destruct (lookup_lt_is_Some_2 arr k) as [y Hy]; [lia|].
  do 2 (erewrite bind_run; [|unfold read; rewrite ?Hx, ?Hy; simpl; reflexivity]). destruct (m_comp x y) eqn:Hc; [by exists false|].
  destruct (IH (k + 1)) as (b & E & Hb); [lia|]. exists b. split; [done|]. intros Hbt i x' y' Hi Hx' Hy'.
  destruct (decide (i = k + 1)) as [->|]; [|apply (Hb Hbt i); [lia|done..]].
  replace (k + 1 - 1) with k in Hx' by lia. by simplify_eq.
Qed.

Lemma pretest_spec m k i seen arr : 1 ≤ k → k + m ≤ length arr →
  ∃ b, pretest m k i seen arr = Some (b, arr) ∧ (b = false → (∀ j, seen j = false) → pairs_ok arr k (k + m)).
Proof.
  revert k i. induction m as [|m IH]; intros k i Hk Hl; cbn [pretest]; [exists false; split; [done|]; intros _ _ j x y ?; lia|].
  destruct (_ && _) eqn:Hs.
  { exists false. split; [done|]. intros _ Hseen. by rewrite Hseen, andb_false_r in Hs. }
  destruct (lookup_lt_is_Some_2 arr k) as [x Hx]; [lia|]. destruct (lookup_lt_is_Some_2 arr (k - 1)) as [y Hy]; [lia|].
  do 2 (erewrite bind_run; [|unfold read; rewrite ?Hx, ?Hy; simpl; reflexivity]). destruct (m_comp x y) eqn:Hc; [by exists true|].
  destruct (IH (k + 1) (i + 1)) as (b & E & Hb); [lia..|]. exists b. split; [done|]. intros Hbf Hseen j x' y' Hj Hx' Hy'.
  destruct (decide (j = k)) as [->|]; [by simplify_eq|apply (Hb Hbf Hseen j); [lia|done..]].
Qed.

Lemma pretest_start arr : length arr = n → min_parallel_size ≤ n →
  ParallelFor.loop_start (pretest_range n) Partition.Auto 1 0 (replicate (Z.to_nat (Partition.factor Partition.Affinity)) 0%Z).
Proof.
  intros El Hm. unfold min_parallel_size in Hm. unfold ParallelFor.loop_start, pretest_range, serial_cutoff. split_and!; try lia; try done.
  - simpl. unfold br_valid. simpl. lia.
  - simpl. unfold br_empty. simpl. apply negb_false_iff, Z.ltb_lt. lia.
Qed.

(** A chunk of the check lies in the array, after its first element. *)
Lemma chunk_bounds (c : blocked_range) : valid c → br_elems c ⊆+ br_elems (pretest_range n) →
  (10 ≤ my_begin c < my_end c)%Z ∧ (my_end c ≤ Z.of_nat n)%Z.
Proof.
  intros Hv Hsub. unfold br_elems, pretest_range, serial_cutoff in *. simpl in *. unfold br_valid in Hv.
  assert (Hin : ∀ z, z ∈ seqZ (my_begin c) (my_end c - my_begin c) → (10 ≤ z < Z.of_nat n)%Z).
  { intros z Hz. eapply elem_of_submseteq in Hz; [|exact Hsub]. apply elem_of_seqZ in Hz. lia. }
  pose proof (Hin (my_begin c)) as Hb. rewrite elem_of_seqZ in Hb.
  pose proof (Hin (my_end c - 1)%Z) as He. rewrite elem_of_seqZ in He. lia.
Qed.

Section pretest.
Context arr (El : length arr = n) (P head : Z) (affinities : list Z) (cancelled : bool) (σ : ParallelFor.state blocked_range).
Hypothesis (Hstart : ParallelFor.loop_start (pretest_range n) Partition.Auto P head affinities).
Hypothesis (Hrun : rtc (ParallelFor.step cancelled) (ParallelFor.run (pretest_range n) Partition.Auto P head affinities) σ).

Lemma pretest_log c seen : c ∈ (ParallelFor.log σ).*1 →
  ∃ b, pretest_chunk arr seen c = Some b ∧
    (b = false → (∀ j, seen c j = false) → pairs_ok arr (Z.to_nat (my_begin c)) (Z.to_nat (my_end c))).
Proof.
  intros Hin. destruct (ParallelFor.run_ok _ _ _ _ _ Hstart) as (Hok & Hlog & Hpend).
  pose proof (ParallelFor.steps_log_valid _ _ _ Hrun Hok (Forall_nil_2 _)) as Hv. rewrite Forall_forall in Hv.
  destruct (ParallelFor.steps_ok _ _ _ Hrun Hok) as (_ & lost & Hperm & _). rewrite Hlog, Hpend in Hperm. simpl in Hperm.
  destruct (chunk_bounds c) as [B1 B2].
  - by apply Hv.
  - rewrite Hperm. apply submseteq_inserts_r. unfold ParallelFor.log_elems. apply list_elem_of_fmap in Hin as (x & -> & Hx).
    apply list_elem_of_split in Hx as (l1 & l2 & ->). rewrite bind_app, bind_cons. simpl.
    by apply submseteq_inserts_l, submseteq_inserts_r.
  - destruct (pretest_spec (Z.to_nat (my_end c) - Z.to_nat (my_begin c)) (Z.to_nat (my_begin c)) 0 (seen c) arr) as (b & E & Hb); [lia..|].
    exists b. unfold pretest_chunk, pretest_body. rewrite E. split; [done|]. intros Hbf Hs i x y Hi. apply (Hb Hbf Hs i). lia.
Qed.

Lemma pretest_elem i : cancelled = false → ParallelFor.pending σ = [] → 10 ≤ i < n →
  ∃ c, c ∈ (ParallelFor.log σ).*1 ∧ Z.to_nat (my_begin c) ≤ i < Z.to_nat (my_end c).
Proof.
  intros Hc Hnil Hi. rewrite Hc in Hrun. destruct (ParallelFor.points_conserved _ _ _ _ _ _ Hstart Hrun) as [_ Hp].
  unfold ParallelFor.pending_elems in Hp. rewrite Hnil, app_nil_r in Hp.
  assert (Hin : Z.of_nat i ∈ elems (pretest_range n)).
  { simpl. unfold br_elems, pretest_range, serial_cutoff. simpl. apply elem_of_seqZ. lia. }
  rewrite <- Hp in Hin. unfold ParallelFor.log_elems in Hin. apply list_elem_of_bind in Hin as (x & Hx & Hl).
  exists x.1. split; [by apply list_elem_of_fmap_2|]. simpl in Hx. unfold br_elems in Hx. apply elem_of_seqZ in Hx. lia.
Qed.
End pretest.

Lemma pretest_sorted arr : length arr = n → pretest_outcome arr false → pairs_ok arr (serial_cutoff + 1) n.
Proof.
  intros El (P & head & aff & σ & seen & Hs & Hr & Hnil & Hseen & Hc) i x y Hi. rewrite El in *.
  destruct (pretest_elem arr El P head aff false σ Hs Hr i) as (c & Hin & Hi'); [done|done|unfold serial_cutoff in Hi; lia|].
  destruct (pretest_log arr El P head aff false σ Hs Hr c seen Hin) as (b & E & Hb).
  apply (Hb); [| |done].
  - destruct b; [|done]. exfalso. assert (false = true); [|done]. apply Hc. by exists c.
  - intros j. destruct (seen c j) eqn:Ej; [|done]. by apply Hseen in Ej.
Qed.

Lemma pretest_total arr : length arr = n → min_parallel_size ≤ n → ∃ cancelled, pretest_outcome arr cancelled.
Proof.
  intros El Hm. pose proof (pretest_start arr El Hm) as Hs.
  destruct (ParallelFor.runs_to_end _ _ _ _ _ Hs) as (σ & Hr & Hnil).
  destruct (decide (Exists (λ c, pretest_chunk arr (λ _ _, false) c = Some true) (ParallelFor.log σ).*1)) as [Hx|Hx];
    rewrite Exists_exists in Hx.
  - exists true. eexists _, _, _, σ, (λ _ _, false). rewrite El. split_and!; [exact Hs| |done|done|by split].
    eapply rtc_subrel; [|exact Hr]. apply ParallelFor.step_cancel_mono.
  - exists false. eexists _, _, _, σ, (λ _ _, false). rewrite El. split_and!; [exact Hs|done|done|done|by split].
Qed.

(** ** [parallel_sort] *)

Lemma parallel_sort_sorts arr arr' : length arr = n → parallel_sort arr arr' → arr' ≡ₚ arr ∧ in_order m_comp arr'.
Proof.
  intros El [Hlt|arr1 Hm Hp Hs|Hm Hp Ho|arr1 Hm Hp Ho Hs].
  - split; [apply std_sort_perm|by apply std_sort_order].
  - by apply quick_sort_sorts.
  - split; [done|]. apply pairs_in_order. rewrite El. intros i x y Hi. unfold min_parallel_size, serial_cutoff in *.
    destruct (prefix_in_order_spec 9 0 arr) as (b & E & Hb); [lia|]. rewrite Hp in E. injection E as <-.
    destruct (decide (i < 10)); [apply (Hb eq_refl i); lia|]. apply (pretest_sorted arr El Ho i). unfold serial_cutoff. lia.
  - by apply quick_sort_sorts.
Qed.

Lemma parallel_sort_total arr : length arr = n → ∃ arr', parallel_sort arr arr'.
Proof.
  intros El. destruct (decide (length arr < min_parallel_size)) as [Hlt|Hge].
  { eexists. by apply sort_serial. }
  assert (Hm : min_parallel_size ≤ length arr) by lia. destruct (quick_sort_total arr El) as [arr' Hs].
  destruct (prefix_in_order_spec serial_cutoff 0 arr) as ([] & E & _); [unfold min_parallel_size, serial_cutoff in *; lia|..].
  - destruct (pretest_total arr El) as [[] Ho]; [lia|..].
    + exists arr'. by eapply sort_cancelled.
    + exists arr. by eapply sort_presorted.
  - exists arr'. by eapply sort_prefix.
Qed.

(** C3: [parallel_sort] sorts: for a comparison that is a strict weak order,
    whatever the order and the interleaving of its tasks, the patterns of
    stealing of the loops and reductions it calls and the moments at which the
    check for sorted input sees a cancellation, the array ends up a permutation
    of the input in which no element is less than one before it; and there is
    such an end. *)
Theorem parallel_sort_correct (arr : list A) (El : length arr = n) :
  (∀ arr', parallel_sort arr arr' → arr' ≡ₚ arr ∧ in_order m_comp arr') ∧ ∃ arr', parallel_sort arr arr'.
Proof. split; [intros arr'; by apply parallel_sort_sorts|by apply parallel_sort_total]. Qed.

(** The tasks of the quicksort are safe to run concurrently and there are
    finitely many: in every reachable state each range can be sorted, and split
    if it is divisible, with all accesses inside of the array; the tasks of two
    ranges access different elements, so that they have the same results and
    leave the same array in either order; and after at most two steps for each
    element and one more, nothing is left to do. *)
Theorem quick_sort_tasks_safe (arr : list A) (El : length arr = n) :
  (∀ live arr1, rtc sort_step ([Range 0 n true], arr) (live, arr1) →
    (∀ r split, r ∈ live → (split = true → is_divisible r = true) → is_Some (execute_range split r arr1)) ∧
    (∀ r1 r2 rest split1 split2 news1 arr2 news2 arr3, live ≡ₚ r1 :: r2 :: rest →
      (split1 = true → is_divisible r1 = true) → (split2 = true → is_divisible r2 = true) →
      execute_range split1 r1 arr1 = Some (news1, arr2) → execute_range split2 r2 arr2 = Some (news2, arr3) →
      ∃ arr2', execute_range split2 r2 arr1 = Some (news2, arr2') ∧ execute_range split1 r1 arr2' = Some (news1, arr3))) ∧
  (∀ k s, nsteps sort_step k ([Range 0 n true], arr) s → k ≤ 2 * n + 1).
Proof.
  split.
  - intros live arr1 Hr. pose proof (sort_steps_inv _ _ _ El Hr (sort_start_inv arr)) as Hi. split.
    + intros r split Hin Hd. destruct (sort_inv_ok arr _ r El Hi Hin) as [Hok El1].
      destruct (execute_range_ok split r arr1 Hok El1 Hd) as (news & arr' & E & _). eauto.
    + intros. by eapply (tasks_commute arr).
  - intros k s Hs. pose proof (sort_nsteps arr k _ s El Hs (sort_start_inv arr)) as Hk.
    unfold remaining, size in Hk. simpl in Hk. lia.
Qed.
End sort.
End QuickSort.

Module SortExamples.
Import Partition Execute Blocked Reduce Arrays Mirror MirrorExamples QuickSort.

#[local] Existing Instance filter_partition.
#[local] Existing Instance filter_partition_laws.

Definition not_after {A} (lt : A → A → bool) (x y : A) : Prop := lt y x = false.
#[local] Instance not_after_dec {A} (lt : A → A → bool) x y : Decision (not_after lt x y) := decide (lt y x = false).
#[local] Instance merge_std_sort (A : Type) : StdSort A := λ lt, merge_sort (not_after lt).
#[local] Instance merge_std_sort_laws (A : Type) : StdSortLaws A.
Proof.
  constructor; intros lt l; unfold std_sort, merge_std_sort; [apply merge_sort_Permutation|].
  intros Hlt i j x y Hij Hx Hy. set (R := not_after lt) in *.
  assert (Transitive R) by (intros a b c Hab Hbc; by apply (swo_ge_trans c b a)).
  assert (Total R). { intros a b. unfold R, not_after. destruct (lt b a) eqn:E; [right; by apply swo_asym|by left]. }
  pose proof (StronglySorted_merge_sort R l) as Hs. rewrite <- (take_drop j (merge_sort R l)) in Hs.
  apply (StronglySorted_app_1_elem_of R _ _ _ _ Hs).
  - apply list_elem_of_lookup. exists i. by rewrite lookup_take_lt.
  - apply list_elem_of_lookup. exists 0. by rewrite lookup_drop, Nat.add_0_r.
Qed.

#[local] Instance ltb_order : StrictWeakOrder Z.ltb.
Proof. constructor; intros; lia. Qed.

(** Reductions by one thread, without a split. *)
Definition alone : Partition.partition := create Static 1 0.
Definition one_chunk (a b : nat) : trace blocked_range := TApply TStart (BlockedRange (Z.of_nat (mid a b)) (Z.of_nat a) 1).
Lemma one_chunk_executed a b : executed a b (one_chunk a b).
Proof.
  unfold executed, one_chunk. generalize (BlockedRange (Z.of_nat (mid a b)) (Z.of_nat a) 1) as r; intros r. exists alone, [Execute.Body r].
  split_and!; [by apply create_ok| |].
  - exists 1, false, [], alone, false. split_and!; [done|by constructor|]. unfold execute, alone. simpl.
    by destruct (br_is_divisible r).
  - eapply rtc_l; [apply step_run|]. eapply rtc_l; [apply step_finish|]. apply rtc_refl.
Qed.

Definition in_turn (a b : nat) : list nat := seq 0 (b - a).
Definition falling : list Z := reverse (seqZ 0 600).

Lemma parallel_sort_correct_witness :
  ∃ arr', parallel_sort Z.ltb 500 1000 in_turn one_chunk falling arr' ∧ arr' ≡ₚ falling ∧ in_order Z.ltb arr'.
Proof.
  destruct (parallel_sort_correct Z.ltb 500 1000 in_turn one_chunk ltac:(done) 600 ltac:(lia) ltac:(lia) ltac:(lia)
    (λ a b _ _, one_chunk_executed a b) falling ltac:(reflexivity)) as [H1 [arr' H2]].
  exists arr'. split; [exact H2|]. exact (H1 arr' H2).
Defined.

(** With small bounds: a split leaves two ranges around the pivot 5. *)
Definition nine : list Z := [8; 2; 5; 1; 4; 7; 3; 9; 6]%Z.
Lemma quick_sort_tasks_safe_witness :
  is_Some (execute_range Z.ltb 4 4 in_turn one_chunk true (Range 0 9 true) nine) ∧
  execute_range Z.ltb 4 4 in_turn one_chunk true (Range 0 9 true) nine =
    Some ([Range 0 4 true; Range 5 9 false], [4; 2; 3; 1; 5; 7; 8; 9; 6]%Z).
Proof.
  split; [|vm_compute; reflexivity].
  destruct (quick_sort_tasks_safe Z.ltb 4 4 in_turn one_chunk ltac:(done) 9 ltac:(lia) ltac:(lia) ltac:(lia)
    (λ a b _ _, one_chunk_executed a b) nine ltac:(reflexivity)) as [H _].
  destruct (H [Range 0 9 true] nine) as [H1 _]; [apply rtc_refl|]. apply H1; [by left|reflexivity].
Defined.
End SortExamples.

