(* ===== verification/TaskPool.v ===== *)
(** * The task pool of an arena slot

    The deque of tasks that the owner of a slot pushes to and pops from at the
    tail, and that thieves take from at the head.
    Source: src/tbb/arena_slot.h and src/tbb/arena_slot.cpp.

    [TaskPool] has the operations.  A system is the slot, the owner in the
    middle of [spawn] or [get_task], the other thread that holds the lock, if any
    (a thief in [steal_task], or a caller of [has_tasks]), and the history (the tasks spawned and the tasks consumed).  A step is one
    access to shared memory by one thread.  What a thread does while it holds
    the lock and has excluded all others is one step.  Memory is sequentially
    consistent: the accesses that need it ([--tail] before the load of [head],
    [++head] before the load of [tail]) are full fences in the source. *)

From S2P Require Import Prelude.
From stdpp Require Import base numbers relations list.
From Stdlib Require Import ZArith Lia.
Local Open Scope Z_scope.

Module TaskPool.

(** A task as the pool sees it. *)
Record task := Task {
  ident : nat;
  isolation : Z;
  is_proxy : bool;
}.
Definition no_isolation : Z := 0.

(** [task_pool]: empty, free to be locked, or locked by a thief. *)
Inductive lock := EmptyTaskPool | Unlocked | LockedTaskPool.
#[export] Instance lock_eq_dec : EqDecision lock.
Proof. solve_decision. Defined.

(** A cell is [None] when it holds a null pointer.  [poison_pointer] only does
    something in a debug build, so a consumed cell keeps its old pointer. *)
Record arena_slot := Slot {
  task_pool : lock;
  head : Z;
  tail : Z;
  task_pool_ptr : list (option task);
}.

Definition my_task_pool_size (s : arena_slot) : Z := Z.of_nat (length (task_pool_ptr s)).
Definition min_task_pool_size : Z := 64.
Definition max_nfs_size : Z := 128.
Definition pointer_size : Z := 8.

(** The number of cells that [allocate_task_pool(n)] makes. *)
Definition allocated_size (n : Z) : Z :=
  (n * pointer_size + max_nfs_size - 1) / max_nfs_size * max_nfs_size / pointer_size.

Definition cell (s : arena_slot) (i : Z) : option (option task) :=
  if 0 <=? i then task_pool_ptr s !! Z.to_nat i else None.
Definition set_cell (i : Z) (c : option task) (s : arena_slot) : arena_slot :=
  Slot (task_pool s) (head s) (tail s) (<[Z.to_nat i := c]> (task_pool_ptr s)).
Definition set_head (h : Z) (s : arena_slot) : arena_slot :=
  Slot (task_pool s) h (tail s) (task_pool_ptr s).
Definition set_tail (t : Z) (s : arena_slot) : arena_slot :=
  Slot (task_pool s) (head s) t (task_pool_ptr s).
Definition set_lock (l : lock) (s : arena_slot) : arena_slot :=
  Slot l (head s) (tail s) (task_pool_ptr s).

(** [check_task_isolation] *)
Definition isolation_ok (iso : Z) (t : task) : bool :=
  (iso =? no_isolation) || (iso =? isolation t).

(** ** The owner *)

(** The tasks between two positions, without the holes. *)
Definition region (cells : list (option task)) (a b : Z) : list task :=
  omap id (take (Z.to_nat (b - a)) (drop (Z.to_nat a) cells)).

(** [prepare_task_pool(1)] when there is no room after the tail: the first
    allocation, or compaction with or without growth; the pool is locked or
    not published.  The result is the new tail. *)
Definition grow_task_pool (s : arena_slot) : arena_slot :=
  if my_task_pool_size s =? 0 then
    Slot (task_pool s) (head s) 0 (replicate (Z.to_nat (allocated_size min_task_pool_size)) None)
  else
    let kept := region (task_pool_ptr s) (head s) (tail s) in
    let T1 := Z.of_nat (length kept) in
    let new_size := 1 + T1 in
    let allocate := new_size >? my_task_pool_size s - min_task_pool_size / 4 in
    let new_size := if new_size <? 2 * my_task_pool_size s then 2 * my_task_pool_size s else new_size in
    let cells :=
      if allocate then replicate (Z.to_nat (allocated_size new_size)) None
      else task_pool_ptr s in
    Slot (task_pool s) 0 T1 ((Some <$> kept) ++ drop (length kept) cells).

(** Where the owner is.  [T0], [T], [skipped] are the local variables of
    [get_task]; [checked] is [all_tasks_checked] with the candidate that the
    check under the lock found. *)
Inductive owner :=
  | OIdle
  | OWrite (t : task)                                       (* spawn: before the store to the pool *)
  | OCommit (t : task)                                      (* before the store of the tail *)
  | OPublish                                                (* before publish_task_pool *)
  | OGet (iso T0 : Z) (skipped : bool)                      (* before --tail *)
  | OHead (iso T0 T : Z) (skipped : bool)                   (* before the load of the head *)
  | OLock (iso T0 T : Z) (skipped : bool)                   (* in acquire_task_pool *)
  | OTake (iso T0 T : Z) (skipped : bool) (checked : option bool)   (* before the access to cell T *)
  | OEnd (T0 : Z) (skipped : bool).                         (* after the loop *)

(** [release_task_pool], [reset_task_pool_and_leave] *)
Definition release_task_pool (s : arena_slot) : arena_slot :=
  if decide (task_pool s = EmptyTaskPool) then s else set_lock Unlocked s.
Definition reset_task_pool_and_leave (s : arena_slot) : arena_slot :=
  set_lock EmptyTaskPool (set_head 0 (set_tail 0 s)).

(** [commit_spawned_tasks], [publish_task_pool], and the end of [get_task]. *)
Definition commit_spawned_tasks (s : arena_slot) : arena_slot := set_tail (tail s + 1) s.
Definition publish_task_pool (s : arena_slot) : arena_slot :=
  if decide (task_pool s = EmptyTaskPool) then set_lock Unlocked s else s.
Definition restore_tail (T0 : Z) (skipped : bool) (s : arena_slot) : arena_slot :=
  if skipped then set_tail T0 s else s.

(** The part of [get_task] under the lock. *)
Definition get_locked (iso T0 T : Z) (skipped : bool) (s : arena_slot) : option (arena_slot * owner) :=
  let H0 := head s in
  if H0 >? T then
    Some (if skipped then release_task_pool s else reset_task_pool_and_leave s, OEnd T0 skipped)
  else if H0 =? T then
    c ← cell s T;
    let result := match c with Some t => isolation_ok iso t | None => false end in
    let skipped := match c with Some t => skipped || negb (isolation_ok iso t) | None => skipped end in
    Some (if skipped then release_task_pool s else reset_task_pool_and_leave s,
          OTake iso T0 T skipped (Some result))
  else Some (release_task_pool s, OTake iso T0 T skipped None).

(** The access to the cell: the slot, the pointer consumed and where the loop
    goes on.  [empty] says that the pointer is a proxy whose task is gone. *)
Definition get_cell (empty : bool) (iso T0 T : Z) (skipped : bool) (checked : option bool) (s : arena_slot)
  : option (arena_slot * option task * owner) :=
  c ← cell s T;
  let result :=
    match c, checked with
    | Some t, None => isolation_ok iso t
    | Some t, Some result => result
    | None, _ => false
    end in
  let skipped :=
    match c, checked with
    | Some t, None => skipped || negb (isolation_ok iso t)
    | _, _ => skipped
    end in
  let s' := if result && skipped then set_cell T None s else s in
  let consumed := if result then c else None in
  let T0' := if skipped then T0 else T in
  let again := match checked with Some _ => OEnd T0' skipped | None => OGet iso T0' skipped end in
  Some (s', consumed, if result && negb empty then OEnd T0 skipped else again).

(** ** A thief *)

(** [H0], [H], [skipped]: the local variables of [steal_task]. *)
Inductive thief :=
  | TNone
  | TInc (iso H0 : Z) (skipped : bool)                      (* before ++head *)
  | TTail (iso H0 H : Z) (skipped : bool)                   (* before the load of the tail *)
  | TCell (iso H0 H : Z) (skipped : bool)                   (* before the access to cell H-1 *)
  | TRestore (H0 : Z)                                       (* before head.store(H0) *)
  | TUnlock
  | HAccessed                                               (* has_tasks: before the load of accessed_by_owner *)
  | HHead (stable : bool)                                   (* before the load of the head *)
  | HTail (stable : bool) (hd : Z)                          (* before the load of the tail *)
  | HUnlock (result : bool).                                (* before unlock_task_pool *)

(** [lock_task_pool] when it gets the lock, [unlock_task_pool], the answer of [has_tasks]. *)
Definition lock_task_pool (s : arena_slot) : option arena_slot :=
  match task_pool s with Unlocked => Some (set_lock LockedTaskPool s) | _ => None end.
Definition unlock_task_pool (s : arena_slot) : arena_slot := set_lock Unlocked s.
Definition has_tasks (tail_stable : bool) (hd tl : Z) : bool := negb ((hd >=? tl) && tail_stable).

(** [accessed_by_owner]: from the entry of [get_task] to its end. *)
Definition accessed_by_owner (o : owner) : bool :=
  match o with OGet _ _ _ | OHead _ _ _ _ | OLock _ _ _ _ | OTake _ _ _ _ _ | OEnd _ _ => true | _ => false end.

(** The access to the cell of a thief.  [skip] says that the pointer is a proxy
    whose addressee is likely to take it. *)
Definition steal_cell (skip : bool) (iso H0 H : Z) (skipped : bool) (s : arena_slot)
  : option (arena_slot * option task * thief) :=
  c ← cell s (H - 1);
  match c with
  | Some t =>
      if isolation_ok iso t && negb skip then
        if skipped then Some (set_cell (H - 1) None s, Some t, TRestore H0)
        else Some (s, Some t, TUnlock)
      else Some (s, None, TInc iso H0 true)
  | None => Some (s, None, TInc iso (if skipped then H0 else H) skipped)
  end.

(** ** The system *)
Record system := System {
  slot : arena_slot;
  own : owner;
  thf : thief;
  spawned : list task;
  consumed : list task;
}.

Definition init : system := System (Slot EmptyTaskPool 0 0 []) OIdle TNone [] [].

Definition lockable (s : arena_slot) : Prop := task_pool s ≠ LockedTaskPool.

(** One access to shared memory by the owner, by a thief. *)
Inductive owner_step (σ : system) : system → Prop :=
  | step_spawn t :
      own σ = OIdle → tail (slot σ) + 1 ≤ my_task_pool_size (slot σ) →
      owner_step σ (System (slot σ) (OWrite t) (thf σ) (spawned σ) (consumed σ))
  | step_spawn_grow t :
      own σ = OIdle → my_task_pool_size (slot σ) < tail (slot σ) + 1 → lockable (slot σ) →
      owner_step σ (System (grow_task_pool (slot σ)) (OWrite t) (thf σ) (spawned σ) (consumed σ))
  | step_write t :
      own σ = OWrite t → tail (slot σ) < my_task_pool_size (slot σ) →
      owner_step σ (System (set_cell (tail (slot σ)) (Some t) (slot σ)) (OCommit t) (thf σ)
                (spawned σ) (consumed σ))
  | step_commit t :
      own σ = OCommit t →
      owner_step σ (System (commit_spawned_tasks (slot σ)) OPublish (thf σ)
                (spawned σ ++ [t]) (consumed σ))
  | step_publish :
      own σ = OPublish →
      owner_step σ (System (publish_task_pool (slot σ)) OIdle (thf σ)
                (spawned σ) (consumed σ))
  | step_get iso :
      own σ = OIdle → task_pool (slot σ) ≠ EmptyTaskPool →
      owner_step σ (System (slot σ) (OGet iso (tail (slot σ)) false) (thf σ) (spawned σ) (consumed σ))
  | step_dec iso T0 sk :
      own σ = OGet iso T0 sk →
      owner_step σ (System (set_tail (tail (slot σ) - 1) (slot σ))
                (OHead iso T0 (tail (slot σ) - 1) sk) (thf σ) (spawned σ) (consumed σ))
  | step_load_head iso T0 T sk :
      own σ = OHead iso T0 T sk →
      owner_step σ (System (slot σ)
                (if head (slot σ) >? T then OLock iso T0 T sk else OTake iso T0 T sk None)
                (thf σ) (spawned σ) (consumed σ))
  | step_locked iso T0 T sk s' o' :
      own σ = OLock iso T0 T sk → lockable (slot σ) →
      get_locked iso T0 T sk (slot σ) = Some (s', o') →
      owner_step σ (System s' o' (thf σ) (spawned σ) (consumed σ))
  | step_take empty iso T0 T sk ck s' c o' :
      own σ = OTake iso T0 T sk ck →
      get_cell empty iso T0 T sk ck (slot σ) = Some (s', c, o') →
      (empty = true → ∃ t, c = Some t ∧ is_proxy t = true) →
      owner_step σ (System s' o' (thf σ) (spawned σ) (consumed σ ++ option_list c))
  | step_end T0 sk :
      own σ = OEnd T0 sk →
      owner_step σ (System (restore_tail T0 sk (slot σ)) OIdle (thf σ)
                (spawned σ) (consumed σ)).

Inductive thief_step (σ : system) : system → Prop :=
  | step_lock iso s' :
      lock_task_pool (slot σ) = Some s' →
      thief_step σ (System s' (own σ)
                (TInc iso (head (slot σ)) false) (spawned σ) (consumed σ))
  | step_inc iso H0 sk :
      thf σ = TInc iso H0 sk →
      thief_step σ (System (set_head (head (slot σ) + 1) (slot σ)) (own σ)
                (TTail iso H0 (head (slot σ) + 1) sk) (spawned σ) (consumed σ))
  | step_load_tail iso H0 H sk :
      thf σ = TTail iso H0 H sk →
      thief_step σ (System (slot σ) (own σ)
                (if H >? tail (slot σ) then TRestore H0 else TCell iso H0 H sk)
                (spawned σ) (consumed σ))
  | step_steal skip iso H0 H sk s' c t' :
      thf σ = TCell iso H0 H sk →
      steal_cell skip iso H0 H sk (slot σ) = Some (s', c, t') →
      (skip = true → ∃ t, cell (slot σ) (H - 1) = Some (Some t) ∧ is_proxy t = true) →
      thief_step σ (System s' (own σ) t' (spawned σ) (consumed σ ++ option_list c))
  | step_restore H0 :
      thf σ = TRestore H0 →
      thief_step σ (System (set_head H0 (slot σ)) (own σ) TUnlock (spawned σ) (consumed σ))
  | step_unlock :
      thf σ = TUnlock →
      thief_step σ (System (unlock_task_pool (slot σ)) (own σ) TNone (spawned σ) (consumed σ))
  | step_has_lock s' :
      lock_task_pool (slot σ) = Some s' →
      thief_step σ (System s' (own σ) HAccessed
                      (spawned σ) (consumed σ))
  | step_has_accessed :
      thf σ = HAccessed →
      thief_step σ (System (slot σ) (own σ) (HHead (negb (accessed_by_owner (own σ))))
                      (spawned σ) (consumed σ))
  | step_has_head stable :
      thf σ = HHead stable →
      thief_step σ (System (slot σ) (own σ) (HTail stable (head (slot σ)))
                      (spawned σ) (consumed σ))
  | step_has_tail stable hd :
      thf σ = HTail stable hd →
      thief_step σ (System (slot σ) (own σ) (HUnlock (has_tasks stable hd (tail (slot σ))))
                      (spawned σ) (consumed σ))
  | step_has_unlock result :
      thf σ = HUnlock result →
      thief_step σ (System (unlock_task_pool (slot σ)) (own σ) TNone (spawned σ) (consumed σ)).

Definition step (σ σ' : system) : Prop := owner_step σ σ' ∨ thief_step σ σ'.

(** ** The invariant *)

(** The first and one past the last position of the tasks that are in the pool:
    a thief that skipped tasks will move the head back, the owner that skipped
    tasks will move the tail back. *)
Definition lo (head : Z) (th : thief) : Z :=
  match th with
  | TNone | TUnlock | HAccessed | HHead _ | HTail _ _ | HUnlock _ => head
  | TInc _ H0 _ | TTail _ H0 _ _ | TCell _ H0 _ _ | TRestore H0 => H0
  end.
Definition hi (tail : Z) (o : owner) : Z :=
  match o with
  | OIdle | OWrite _ | OCommit _ | OPublish => tail
  | OGet _ T0 _ | OHead _ T0 _ _ | OLock _ T0 _ _ | OTake _ T0 _ _ None
  | OTake _ T0 _ true _ | OEnd T0 true => T0
  | OTake _ _ _ false (Some _) | OEnd _ false => tail
  end.
(** The task that the owner keeps after it has reset the pool. *)
Definition in_hand (s : arena_slot) (o : owner) : list task :=
  match o with
  | OTake _ _ T false (Some true) => option_list (mjoin (cell s T))
  | _ => []
  end.

(** How far the head may be ahead of the tail: by one while the owner has
    decremented the tail and not yet seen the head, or has found nothing. *)
Definition slack (o : owner) : Z :=
  match o with OHead _ _ _ _ | OLock _ _ _ _ | OEnd _ true => 1 | _ => 0 end.
(** The same for a thief that has seen the tail. *)
Definition slack_seen (o : owner) : Z :=
  match o with OHead _ _ _ _ | OLock _ _ _ _ => 1 | _ => 0 end.

Definition owner_ok (s : arena_slot) (o : owner) : Prop :=
  match o with
  | OIdle | OPublish => True
  | OWrite _ => tail s < my_task_pool_size s
  | OCommit t => tail s < my_task_pool_size s ∧ cell s (tail s) = Some (Some t)
  | OGet _ T0 sk => tail s ≤ T0 ∧ (sk = false → T0 = tail s) ∧ task_pool s ≠ EmptyTaskPool
  | OHead _ T0 T sk | OLock _ T0 T sk =>
      tail s = T ∧ T < T0 ∧ (sk = false → T0 = T + 1) ∧ task_pool s ≠ EmptyTaskPool
  | OTake iso T0 T sk None =>
      tail s = T ∧ 0 ≤ T < T0 ∧ (sk = false → T0 = T + 1) ∧ task_pool s ≠ EmptyTaskPool
  | OTake iso T0 T true (Some r) =>
      tail s = T ∧ 0 ≤ T < T0 ∧ task_pool s ≠ EmptyTaskPool ∧
      (r = true → ∃ t, cell s T = Some (Some t))
  | OTake iso T0 T false (Some r) =>
      task_pool s = EmptyTaskPool ∧ head s = 0 ∧ tail s = 0 ∧ 0 ≤ T < my_task_pool_size s ∧
      (if r : bool then ∃ t, cell s T = Some (Some t) else cell s T = Some None)
  | OEnd T0 sk => (sk = true → tail s < T0 ∧ task_pool s ≠ EmptyTaskPool)
  end.

Definition thief_ok (s : arena_slot) (o : owner) (th : thief) : Prop :=
  match th with
  | TNone | TUnlock | HAccessed | HHead _ | HTail _ _ | HUnlock _ => head s ≤ tail s + slack o
  | TInc _ H0 sk => H0 ≤ head s ≤ tail s + slack o ∧ (sk = false → H0 = head s)
  | TTail _ H0 H sk =>
      H = head s ∧ H0 ≤ H - 1 ≤ tail s + slack o ∧ (sk = false → H0 = H - 1)
  | TCell _ H0 H sk =>
      H = head s ∧ H0 ≤ H - 1 ∧ H ≤ tail s + slack_seen o ∧ (sk = false → H0 = H - 1)
  | TRestore H0 => H0 ≤ head s ∧ H0 ≤ tail s + slack o
  end.

Definition inv (σ : system) : Prop :=
  let s := slot σ in
  0 ≤ lo (head s) (thf σ) ∧ hi (tail s) (own σ) ≤ my_task_pool_size s ∧
  (thf σ = TNone ↔ task_pool s ≠ LockedTaskPool) ∧
  owner_ok s (own σ) ∧ thief_ok s (own σ) (thf σ) ∧
  (task_pool s = EmptyTaskPool → own σ ≠ OPublish → head s = tail s) ∧
  spawned σ ≡ₚ consumed σ ++ region (task_pool_ptr s) (lo (head s) (thf σ)) (hi (tail s) (own σ)) ++
               in_hand s (own σ).

(** *** Regions *)
Lemma region_nil cells a b : b ≤ a → region cells a b = [].
Proof. intros. unfold region. replace (Z.to_nat (b - a)) with 0%nat by lia. done. Qed.

Lemma region_app cells a m b :
  0 ≤ a ≤ m → m ≤ b → region cells a b = region cells a m ++ region cells m b.
Proof.
  intros Ha Hm. unfold region.
  replace (Z.to_nat (b - a)) with (Z.to_nat (m - a) + Z.to_nat (b - m))%nat by lia.
  rewrite <- take_take_drop, omap_app, drop_drop.
  by replace (Z.to_nat a + Z.to_nat (m - a))%nat with (Z.to_nat m) by lia.
Qed.

Lemma region_one cells a c :
  0 ≤ a → cells !! Z.to_nat a = Some c → region cells a (a + 1) = option_list c.
Proof.
  intros Ha Hc. unfold region. replace (Z.to_nat (a + 1 - a)) with 1%nat by lia.
  rewrite (drop_S _ _ _ Hc). simpl. by destruct c.
Qed.

Lemma region_insert cells a b i c :
  0 ≤ a → 0 ≤ i → i < a ∨ b ≤ i → region (<[Z.to_nat i := c]> cells) a b = region cells a b.
Proof.
  intros Ha Hi Hout. unfold region. f_equal. destruct Hout as [Hlt|Hge].
  - by rewrite drop_insert_lt by lia.
  - destruct (decide (a ≤ i)); [|by replace (Z.to_nat (b - a)) with 0%nat by lia].
    by rewrite drop_insert_ge, take_insert_ge by lia.
Qed.

Lemma region_set_null cells a b i t :
  0 ≤ a → a ≤ i < b → cells !! Z.to_nat i = Some (Some t) →
  region cells a b ≡ₚ t :: region (<[Z.to_nat i := None]> cells) a b.
Proof.
  intros Ha Hi Hc. pose proof (lookup_lt_Some _ _ _ Hc) as Hl.
  set (cells' := <[Z.to_nat i := None]> cells).
  assert (Hsplit : ∀ l, region l a b = region l a i ++ region l i (i + 1) ++ region l (i + 1) b).
  { intros l. rewrite (region_app l a i b), (region_app l i (i + 1) b) by lia. done. }
  rewrite (Hsplit cells), (Hsplit cells').
  rewrite (region_one cells i (Some t) ltac:(lia) Hc).
  rewrite (region_one cells' i None) by (lia || (unfold cells'; apply list_lookup_insert_eq; lia)).
  unfold cells'. rewrite !region_insert by lia. simpl. by rewrite Permutation_middle.
Qed.

Lemma cell_lookup s i c : cell s i = Some c → 0 ≤ i ∧ task_pool_ptr s !! Z.to_nat i = Some c.
Proof. unfold cell. case_match eqn:E; [|done]. apply Z.leb_le in E. auto. Qed.

Lemma cell_in_range s i : 0 ≤ i < my_task_pool_size s → ∃ c, cell s i = Some c.
Proof.
  intros Hi. unfold cell, my_task_pool_size in *. destruct (Z.leb_spec 0 i); [|lia].
  apply lookup_lt_is_Some. lia.
Qed.

Lemma cell_set_other s i j c : 0 ≤ i → i ≠ j → cell (set_cell i c s) j = cell s j.
Proof.
  intros Hi Hij. unfold cell; simpl. destruct (Z.leb_spec 0 j); [|done].
  apply list_lookup_insert_ne. lia.
Qed.

(** *** Consequences of the invariant *)
Ltac inv_destruct H :=
  let H1 := fresh "Hlo" in let H2 := fresh "Hhi" in let H3 := fresh "Hlock" in
  let H4 := fresh "Hown" in let H5 := fresh "Hthf" in let H6 := fresh "Hempty" in
  let H7 := fresh "Hcons" in
  destruct H as (H1 & H2 & H3 & H4 & H5 & H6 & H7); simpl in H1, H2, H3, H4, H5, H6, H7.

Lemma slack_bound s o : owner_ok s o → tail s + slack_seen o ≤ tail s + slack o ≤ hi (tail s) o.
Proof.
  destruct o as [| | | | | | |? ? ? [] []|? []]; simpl; intuition (subst; lia).
Qed.

Lemma inv_bounds σ :
  inv σ → lo (head (slot σ)) (thf σ) ≤ tail (slot σ) + slack (own σ) ≤ hi (tail (slot σ)) (own σ).
Proof.
  intros H. inv_destruct H. pose proof (slack_bound _ _ Hown).
  destruct (thf σ); simpl in *; lia.
Qed.

Lemma set_cell_size i c s : my_task_pool_size (set_cell i c s) = my_task_pool_size s.
Proof. unfold my_task_pool_size; simpl. by rewrite length_insert. Qed.

(** The owner's assertions are about cells at or after the tail. *)
Lemma owner_ok_set_cell s o i c :
  0 ≤ i < tail s + slack_seen o → task_pool s ≠ EmptyTaskPool →
  owner_ok s o → owner_ok (set_cell i c s) o.
Proof.
  intros Hi Hl.
  destruct o as [| | | | | | |? ? ? [] []|? []]; simpl in *; rewrite ?set_cell_size; try done;
    intros Ho; destruct_and? Ho; split_and?; try rewrite cell_set_other by lia; done || lia.
Qed.

(** *** Steps of the owner *)
Ltac clear_not_publish :=
  repeat match goal with
  | H : _ → _ ≠ OPublish → _ |- _ => specialize (λ Hp, H Hp ltac:(discriminate))
  end.
Ltac owner_facts H E :=
  intros H; pose proof (inv_bounds _ H); inv_destruct H; rewrite E in *; simpl in *;
  clear_not_publish.
Ltac side := first [done | lia | intros; by auto | intros; congruence].

Ltac thief_cases σ := destruct (thf σ); simpl in *; intuition (subst; lia).

Lemma inv_spawn σ t :
  own σ = OIdle → tail (slot σ) + 1 ≤ my_task_pool_size (slot σ) →
  inv σ → inv (System (slot σ) (OWrite t) (thf σ) (spawned σ) (consumed σ)).
Proof. intros E Hroom. owner_facts H E. split_and!; simpl; side. Qed.

Lemma inv_write σ t :
  own σ = OWrite t →
  inv σ → inv (System (set_cell (tail (slot σ)) (Some t) (slot σ)) (OCommit t) (thf σ)
                 (spawned σ) (consumed σ)).
Proof.
  intros E. owner_facts H E.
  unfold inv; simpl. rewrite set_cell_size, region_insert by lia.
  split_and!; try side.
  unfold cell; simpl. destruct (Z.leb_spec 0 (tail (slot σ))); [|lia].
  apply list_lookup_insert_eq. unfold my_task_pool_size in *. lia.
Qed.

Lemma inv_commit σ t :
  own σ = OCommit t →
  inv σ → inv (System (set_tail (tail (slot σ) + 1) (slot σ)) OPublish (thf σ)
                 (spawned σ ++ [t]) (consumed σ)).
Proof.
  intros E. owner_facts H E. destruct Hown as [Hs Hc]. apply cell_lookup in Hc as [Ht Hc].
  unfold inv, my_task_pool_size in *; simpl.
  rewrite (region_app _ _ (tail (slot σ)) (tail (slot σ) + 1)) by lia.
  rewrite (region_one _ _ _ Ht Hc), Hcons.
  split_and!; try side; [thief_cases σ|solve_Permutation].
Qed.

Lemma inv_publish σ :
  own σ = OPublish →
  inv σ → inv (System (if decide (task_pool (slot σ) = EmptyTaskPool)
                       then set_lock Unlocked (slot σ) else slot σ) OIdle (thf σ)
                 (spawned σ) (consumed σ)).
Proof.
  intros E. owner_facts H E. case_decide as El; [|split_and!; side].
  split_and!; simpl; try side. rewrite El in Hlock. intuition congruence.
Qed.

Lemma inv_get σ iso :
  own σ = OIdle → task_pool (slot σ) ≠ EmptyTaskPool →
  inv σ → inv (System (slot σ) (OGet iso (tail (slot σ)) false) (thf σ) (spawned σ) (consumed σ)).
Proof. intros E Hp. owner_facts H E. split_and!; simpl; side. Qed.

Lemma inv_dec σ iso T0 sk :
  own σ = OGet iso T0 sk →
  inv σ → inv (System (set_tail (tail (slot σ) - 1) (slot σ))
                 (OHead iso T0 (tail (slot σ) - 1) sk) (thf σ) (spawned σ) (consumed σ)).
Proof.
  intros E. owner_facts H E. destruct_and! Hown. split_and!; simpl; try side; try (intuition lia).
  thief_cases σ.
Qed.

Lemma inv_load_head σ iso T0 T sk :
  own σ = OHead iso T0 T sk →
  inv σ → inv (System (slot σ)
                 (if head (slot σ) >? T then OLock iso T0 T sk else OTake iso T0 T sk None)
                 (thf σ) (spawned σ) (consumed σ)).
Proof.
  intros E. owner_facts H E. destruct_and! Hown.
  destruct (Z.gtb_spec (head (slot σ)) T), sk; split_and!; simpl; try side; thief_cases σ.
Qed.

Lemma inv_end σ T0 sk :
  own σ = OEnd T0 sk →
  inv σ → inv (System (if sk then set_tail T0 (slot σ) else slot σ) OIdle (thf σ)
                 (spawned σ) (consumed σ)).
Proof.
  intros E. owner_facts H E. destruct sk; [|split_and!; side].
  destruct (Hown eq_refl). split_and!; simpl; try side.
  thief_cases σ.
Qed.

(** Growing keeps the tasks, in their order, and makes room for one more. *)
Lemma region_length cells a b : Z.of_nat (length (region cells a b)) ≤ Z.of_nat (length cells).
Proof.
  unfold region. transitivity (Z.of_nat (length (take (Z.to_nat (b - a)) (drop (Z.to_nat a) cells)))).
  - generalize (take (Z.to_nat (b - a)) (drop (Z.to_nat a) cells)). intros l.
    induction l as [|[] ? ?]; csimpl; lia.
  - rewrite length_take, length_drop. lia.
Qed.

Lemma allocated_size_ge n : n ≤ allocated_size n.
Proof.
  unfold allocated_size, pointer_size, max_nfs_size.
  pose proof (Z.div_mod (n * 8 + 128 - 1) 128). pose proof (Z.mod_pos_bound (n * 8 + 128 - 1) 128).
  apply Z.div_le_lower_bound; lia.
Qed.

Lemma region_prefix (l : list task) cells : region ((Some <$> l) ++ cells) 0 (Z.of_nat (length l)) = l.
Proof.
  unfold region. rewrite Z.sub_0_r, Nat2Z.id, drop_0, take_app_length' by (by rewrite length_fmap).
  induction l; simpl; by f_equal.
Qed.

Lemma grow_task_pool_spec s :
  0 ≤ head s ≤ tail s → tail s ≤ my_task_pool_size s →
  let s' := grow_task_pool s in
  task_pool s' = task_pool s ∧ head s' = 0 ∧ 0 ≤ tail s' < my_task_pool_size s' ∧
  tail s' = Z.of_nat (length (region (task_pool_ptr s) (head s) (tail s))) ∧
  region (task_pool_ptr s') 0 (tail s') = region (task_pool_ptr s) (head s) (tail s).
Proof.
  intros Hh Ht. unfold grow_task_pool.
  destruct (Z.eqb_spec (my_task_pool_size s) 0) as [E|E].
  - split_and!; simpl; try (unfold my_task_pool_size; simpl; rewrite ?length_replicate; vm_compute; done); try lia; by rewrite !region_nil by lia.
  - set (kept := region _ _ _). simpl. split_and!; try side; [|apply region_prefix].
    pose proof (region_length (task_pool_ptr s) (head s) (tail s)) as Hk. fold kept in Hk.
    unfold my_task_pool_size in *; simpl. rewrite length_app, length_fmap, length_drop.
    set (ns := if _ <? _ then _ else _).
    assert (1 + Z.of_nat (length kept) ≤ ns) by (unfold ns; case_match eqn:Ens; lia).
    pose proof (allocated_size_ge ns).
    case_match eqn:Ea; rewrite ?length_replicate; [|change (min_task_pool_size / 4) with 16 in Ea]; lia.
Qed.

Lemma inv_grow σ t :
  own σ = OIdle → lockable (slot σ) →
  inv σ → inv (System (grow_task_pool (slot σ)) (OWrite t) (thf σ) (spawned σ) (consumed σ)).
Proof.
  intros E Hl. owner_facts H E. assert (Ht : thf σ = TNone) by (by apply Hlock).
  rewrite Ht in *; simpl in *.
  destruct (grow_task_pool_spec (slot σ)) as (Hp & Hh & Hs & Htl & Hr); [lia..|].
  unfold inv; simpl. rewrite Hp, Hh, Hr. split_and!; try side.
  intros Hem _. rewrite Htl, region_nil; [done|]. rewrite (Hempty Hem). lia.
Qed.

(** Under the lock: nothing is left, one task is left, or the pool is released. *)
Lemma inv_locked σ iso T0 T sk s' o' :
  own σ = OLock iso T0 T sk → lockable (slot σ) →
  get_locked iso T0 T sk (slot σ) = Some (s', o') →
  inv σ → inv (System s' o' (thf σ) (spawned σ) (consumed σ)).
Proof.
  intros E Hl Hg. owner_facts H E. destruct Hown as (<- & HT0 & Hsk & Hpool).
  assert (Ht : thf σ = TNone) by (by apply Hlock). rewrite Ht in *; simpl in *.
  assert (Hrel : release_task_pool (slot σ) = slot σ).
  { unfold release_task_pool. rewrite decide_False by done. unfold lockable in Hl.
    destruct (slot σ) as [[] ? ? ?]; done. }
  revert Hg. unfold get_locked. rewrite Hrel. unfold inv, my_task_pool_size, cell in *.
  destruct (Z.gtb_spec (head (slot σ)) (tail (slot σ))) as [Hgt|Hle].
  { intros [= <- <-]. destruct sk; split_and!; simpl; try side.
    by rewrite region_nil in Hcons by lia. }
  destruct (Z.eqb_spec (head (slot σ)) (tail (slot σ))) as [Heq|Hne].
  2:{ intros [= <- <-]. destruct sk; simpl; split_and!; first [done|lia|auto]. }
  intros (c & Hc & [= <- <-])%bind_Some. destruct (Z.leb_spec 0 (tail (slot σ))) as [Hp|]; [|lia].
  destruct c as [t|]; [destruct (isolation_ok iso t)|]; destruct sk; simpl;
    unfold cell, my_task_pool_size; simpl; rewrite ?(proj2 (Z.leb_le _ _) Hp), ?Hc; simpl;
    split_and!; try side; try (by eauto);
    rewrite ?Heq, ?(Hsk eq_refl), ?(region_one _ _ _ Hp Hc) in Hcons; done.
Qed.

(** The owner takes the cell at the tail: no thief is that far.  When tasks have
    been skipped, the cell becomes a hole. *)
Lemma inv_take_null σ iso T0 T ck t o' :
  own σ = OTake iso T0 T true ck → cell (slot σ) T = Some (Some t) →
  o' = OEnd T0 true ∨ o' = OGet iso T0 true →
  inv σ → inv (System (set_cell T None (slot σ)) o' (thf σ) (spawned σ) (consumed σ ++ [t])).
Proof.
  intros E Hc Ho'. owner_facts H E. apply cell_lookup in Hc as [Hp Hc].
  assert (tail (slot σ) = T ∧ T < T0 ∧ task_pool (slot σ) ≠ EmptyTaskPool) as (<- & HT & Hpool)
    by (destruct ck; intuition lia).
  assert (HhiT : match ck with Some _ | _ => T0 end = T0) by (by destruct ck). rewrite HhiT in *.
  unfold inv; simpl. rewrite set_cell_size.
  rewrite Hcons, (region_set_null _ _ T0 (tail (slot σ)) t Hlo) by (side).
  destruct Ho' as [->| ->]; simpl; split_and!; try side; try thief_cases σ; solve_Permutation.
Qed.

(** When none has been skipped, the cell leaves the pool. *)
Lemma inv_take_last σ iso T0 T c o' :
  own σ = OTake iso T0 T false None → cell (slot σ) T = Some c →
  o' = OEnd T0 false ∨ o' = OGet iso T false →
  inv σ → inv (System (slot σ) o' (thf σ) (spawned σ) (consumed σ ++ option_list c)).
Proof.
  intros E Hc Ho'. owner_facts H E. apply cell_lookup in Hc as [Hp Hc].
  destruct Hown as (<- & HT & Hsk & Hpool). rewrite (Hsk eq_refl) in *.
  rewrite (region_app _ _ (tail (slot σ)) (tail (slot σ) + 1)) in Hcons by lia.
  rewrite (region_one _ _ _ Hp Hc) in Hcons.
  unfold inv; simpl. rewrite Hcons.
  destruct Ho' as [->| ->]; simpl; split_and!; try side; try thief_cases σ; solve_Permutation.
Qed.

Lemma inv_take σ empty iso T0 T sk ck s' c o' :
  own σ = OTake iso T0 T sk ck →
  get_cell empty iso T0 T sk ck (slot σ) = Some (s', c, o') →
  inv σ → inv (System s' o' (thf σ) (spawned σ) (consumed σ ++ option_list c)).
Proof.
  intros E (c0 & Hc & [= <- <- <-])%bind_Some.
  destruct sk, ck as [r|].
  - destruct c0 as [t|], r; simpl; rewrite ?app_nil_r;
      try (eapply inv_take_null; [done..|by destruct empty; auto]);
      owner_facts H E; split_and!; simpl; try side; thief_cases σ.
  - destruct c0 as [t|]; [destruct (isolation_ok iso t)|]; simpl; rewrite ?app_nil_r;
      try (eapply inv_take_null; [done..|by destruct empty; auto]);
      owner_facts H E; split_and!; simpl; try side; thief_cases σ.
  - (* the pool has been reset *)
    owner_facts H E. destruct Hown as (Hpool & Hh & Ht & HT & Hr).
    destruct r; [destruct Hr as [t Hr]|]; rewrite Hr in Hc; injection Hc as <-; simpl;
      rewrite ?Hr in Hcons; destruct empty; split_and!; simpl; try side;
      rewrite Hcons; simpl; solve_Permutation.
  - destruct c0 as [t|]; [destruct (isolation_ok iso t) eqn:Hiso|]; simpl.
    + eapply (inv_take_last _ _ _ _ (Some t)); [done..|by destruct empty; auto].
    + rewrite app_nil_r. owner_facts H E; split_and!; simpl; try side; thief_cases σ.
    + eapply (inv_take_last _ _ _ _ None); [done..|by auto].
Qed.

(** *** Steps of a thief *)
Ltac owner_cases σ := destruct (own σ) as [| | | | | | |? ? ? [] []|? []]; simpl in *.

Lemma owner_ok_lock s l o :
  task_pool s ≠ EmptyTaskPool → l ≠ EmptyTaskPool → owner_ok s o → owner_ok (set_lock l s) o.
Proof. intros Hs Hl. destruct o as [| | | | | | |? ? ? [] []|? []]; simpl; intuition. Qed.

Lemma owner_ok_head s h o :
  task_pool s ≠ EmptyTaskPool → owner_ok s o → owner_ok (set_head h s) o.
Proof. intros Hs. destruct o as [| | | | | | |? ? ? [] []|? []]; simpl; intuition. Qed.

Lemma in_hand_nil s o : task_pool s ≠ EmptyTaskPool → owner_ok s o → in_hand s o = [].
Proof. intros Hs. destruct o as [| | | | | | |? ? ? [] [[]|]|? []]; simpl; intuition. Qed.

Lemma active_locked σ :
  inv σ → thf σ ≠ TNone → task_pool (slot σ) = LockedTaskPool.
Proof. intros H Ht. inv_destruct H. destruct (task_pool (slot σ)); intuition congruence. Qed.

Lemma inv_lock σ th' :
  task_pool (slot σ) = Unlocked → (∃ iso, th' = TInc iso (head (slot σ)) false) ∨ th' = HAccessed →
  inv σ → inv (System (set_lock LockedTaskPool (slot σ)) (own σ) th' (spawned σ) (consumed σ)).
Proof.
  intros E Hth H. inv_destruct H. assert (Ht : thf σ = TNone) by (apply Hlock; congruence).
  rewrite Ht in *; simpl in *.
  assert (in_hand (slot σ) (own σ) = []) as Hh by (apply in_hand_nil; congruence).
  rewrite Hh in Hcons.
  destruct Hth as [[iso ->]| ->]; split_and!; simpl; try side; try (apply owner_ok_lock; congruence);
    by rewrite in_hand_nil by (done || (apply owner_ok_lock; congruence)).
Qed.

(** What the thief does to the bounds of the pool and to the history, for a step
    that keeps the lock. *)
Lemma inv_thief σ s' th' c :
  inv σ → thf σ ≠ TNone → th' ≠ TNone →
  task_pool s' = LockedTaskPool → tail s' = tail (slot σ) →
  my_task_pool_size s' = my_task_pool_size (slot σ) →
  0 ≤ lo (head s') th' → owner_ok s' (own σ) → thief_ok s' (own σ) th' →
  region (task_pool_ptr (slot σ)) (lo (head (slot σ)) (thf σ)) (hi (tail (slot σ)) (own σ)) ≡ₚ
    c ++ region (task_pool_ptr s') (lo (head s') th') (hi (tail (slot σ)) (own σ)) →
  inv (System s' (own σ) th' (spawned σ) (consumed σ ++ c)).
Proof.
  intros H Ht Ht' Hl Htl Hsz Hlo' Ho' Hth' Hreg.
  pose proof (active_locked _ H Ht) as Hlk. inv_destruct H.
  rewrite in_hand_nil in Hcons by (congruence || done).
  split_and!; simpl; rewrite ?Htl, ?Hsz; try side.
  rewrite in_hand_nil by (congruence || done). rewrite Hcons, Hreg. solve_Permutation.
Qed.

Lemma inv_inc σ iso H0 sk :
  thf σ = TInc iso H0 sk →
  inv σ → inv (System (set_head (head (slot σ) + 1) (slot σ)) (own σ)
                 (TTail iso H0 (head (slot σ) + 1) sk) (spawned σ) (consumed σ)).
Proof.
  intros E H. assert (thf σ ≠ TNone) as Hn by congruence.
  pose proof (active_locked _ H Hn). pose proof H as H'. inv_destruct H'. rewrite E in *; simpl in *.
  rewrite <- (app_nil_r (consumed σ)).
  apply inv_thief; rewrite ?E; simpl; try side; [apply owner_ok_head; congruence|intuition lia].
Qed.

Lemma inv_load_tail σ iso H0 H1 sk :
  thf σ = TTail iso H0 H1 sk →
  inv σ → inv (System (slot σ) (own σ)
                 (if H1 >? tail (slot σ) then TRestore H0 else TCell iso H0 H1 sk)
                 (spawned σ) (consumed σ)).
Proof.
  intros E H. assert (thf σ ≠ TNone) as Hn by congruence.
  pose proof (active_locked _ H Hn). pose proof H as H'. inv_destruct H'. rewrite E in *; simpl in *.
  rewrite <- (app_nil_r (consumed σ)).
  assert (0 ≤ slack_seen (own σ)) by (owner_cases σ; lia).
  destruct (Z.gtb_spec H1 (tail (slot σ)));
    (apply inv_thief; rewrite ?E; simpl; try side; intuition lia).
Qed.

Lemma inv_restore σ H0 :
  thf σ = TRestore H0 →
  inv σ → inv (System (set_head H0 (slot σ)) (own σ) TUnlock (spawned σ) (consumed σ)).
Proof.
  intros E H. assert (thf σ ≠ TNone) as Hn by congruence.
  pose proof (active_locked _ H Hn). pose proof H as H'. inv_destruct H'. rewrite E in *; simpl in *.
  rewrite <- (app_nil_r (consumed σ)).
  apply inv_thief; rewrite ?E; simpl; try side; apply owner_ok_head; congruence.
Qed.

Lemma inv_unlock σ :
  thf σ = TUnlock ∨ (∃ r, thf σ = HUnlock r) →
  inv σ → inv (System (set_lock Unlocked (slot σ)) (own σ) TNone (spawned σ) (consumed σ)).
Proof.
  intros E H. assert (thf σ ≠ TNone) as Hn by (destruct E as [E|[? E]]; congruence).
  pose proof (active_locked _ H Hn). inv_destruct H.
  assert (lo (head (slot σ)) (thf σ) = head (slot σ) ∧ head (slot σ) ≤ tail (slot σ) + slack (own σ))
    as [Hlo_eq Hle] by (by destruct E as [E|[? E]]; rewrite E in *). rewrite Hlo_eq in *.
  rewrite in_hand_nil in Hcons by (congruence || done).
  split_and!; simpl; try side; [apply owner_ok_lock; congruence|].
  by rewrite in_hand_nil by (done || (apply owner_ok_lock; congruence)).
Qed.

(** [has_tasks] reads only. *)
Lemma inv_has σ th' :
  thf σ ≠ TNone → lo (head (slot σ)) (thf σ) = head (slot σ) →
  lo (head (slot σ)) th' = head (slot σ) → th' ≠ TNone →
  (thief_ok (slot σ) (own σ) (thf σ) → thief_ok (slot σ) (own σ) th') →
  inv σ → inv (System (slot σ) (own σ) th' (spawned σ) (consumed σ)).
Proof.
  intros Hn El El' Hn' Hok H. pose proof (active_locked _ H Hn). pose proof H as H'. inv_destruct H'.
  rewrite <- (app_nil_r (consumed σ)). apply inv_thief; rewrite ?El, ?El' in *; simpl; try side.
Qed.

(** A thief takes a cell before the tail that the owner left to it. *)
Lemma inv_steal σ skip iso H0 H1 sk s' c t' :
  thf σ = TCell iso H0 H1 sk →
  steal_cell skip iso H0 H1 sk (slot σ) = Some (s', c, t') →
  inv σ → inv (System s' (own σ) t' (spawned σ) (consumed σ ++ option_list c)).
Proof.
  intros E (c0 & Hc & Hs)%bind_Some H. assert (thf σ ≠ TNone) as Hn by congruence.
  pose proof (active_locked _ H Hn) as Hlk. pose proof H as H'. inv_destruct H'.
  pose proof (slack_bound _ _ Hown). apply cell_lookup in Hc as [Hp Hc].
  rewrite E in *; simpl in *. destruct Hthf as (-> & HH & Hseen & Hsk).
  destruct c0 as [t|]; [destruct (isolation_ok iso t && negb skip)|].
  - destruct sk; injection Hs as <- <- <-; apply inv_thief; rewrite ?E; simpl; try side.
    + by rewrite set_cell_size.
    + apply owner_ok_set_cell; side.
    + apply region_set_null; side.
    + rewrite (Hsk eq_refl), (region_app _ _ (head (slot σ))) by lia.
      replace (head (slot σ)) with (head (slot σ) - 1 + 1) at 2 by lia.
      by rewrite (region_one _ _ _ Hp Hc).
  - injection Hs as <- <- <-; apply inv_thief; rewrite ?E; simpl; side.
  - injection Hs as <- <- <-; apply inv_thief; rewrite ?E; destruct sk; simpl; try side.
    rewrite (Hsk eq_refl), (region_app _ _ (head (slot σ))) by lia.
    replace (head (slot σ)) with (head (slot σ) - 1 + 1) at 2 by lia.
    by rewrite (region_one _ _ _ Hp Hc).
Qed.

(** *** All steps *)
Lemma init_inv : inv init.
Proof. split_and!; simpl; try done; unfold my_task_pool_size; simpl; lia. Qed.

Lemma lock_task_pool_Some s s' :
  lock_task_pool s = Some s' → task_pool s = Unlocked ∧ s' = set_lock LockedTaskPool s.
Proof. unfold lock_task_pool. destruct (task_pool s); naive_solver. Qed.

Lemma pool_step_inv σ σ' : step σ σ' → inv σ → inv σ'.
Proof.
  intros [Hs|Hs]; destruct Hs.
  - by apply inv_spawn.
  - by apply inv_grow.
  - by apply inv_write.
  - by apply inv_commit.
  - by apply inv_publish.
  - by apply inv_get.
  - by apply inv_dec.
  - by apply inv_load_head.
  - by eapply inv_locked.
  - by eapply inv_take.
  - by apply inv_end.
  - destruct (lock_task_pool_Some _ _ H) as [? ->]. apply inv_lock; by eauto.
  - by apply inv_inc.
  - by apply inv_load_tail.
  - by eapply inv_steal.
  - by apply inv_restore.
  - apply inv_unlock; by auto.
  - destruct (lock_task_pool_Some _ _ H) as [? ->]. apply inv_lock; by auto.
  - apply inv_has; rewrite ?H; done.
  - apply inv_has; rewrite ?H; done.
  - apply inv_has; rewrite ?H; done.
  - apply inv_unlock; by eauto.
Qed.

Lemma reachable_inv σ : rtc step init σ → inv σ.
Proof.
  intros Hr. pattern σ. eapply rtc_ind_r; [apply init_inv| |exact Hr].
  intros y z _ Hs Hy. by eapply pool_step_inv.
Qed.

(** C13: In every interleaving of the owner of a slot with the thieves, a spawned
    task is taken out of the task pool at most once, by the owner or by one
    thief, and is not lost.  Whenever no thread is in the middle of an operation
    the pool holds, in the cells between head and tail and without the holes,
    exactly the tasks that were spawned and not taken; the bounds are in the
    allocated array; and a pool that is marked empty has no task. *)
Theorem task_pool_exactly_once σ :
  rtc step init σ →
  (∃ rest, spawned σ ≡ₚ consumed σ ++ rest) ∧
  (NoDup (spawned σ) → NoDup (consumed σ)) ∧
  (own σ = OIdle → thf σ = TNone →
   0 ≤ head (slot σ) ≤ tail (slot σ) ∧ tail (slot σ) ≤ my_task_pool_size (slot σ) ∧
   spawned σ ≡ₚ consumed σ ++ region (task_pool_ptr (slot σ)) (head (slot σ)) (tail (slot σ)) ∧
   (task_pool (slot σ) = EmptyTaskPool → spawned σ ≡ₚ consumed σ)).
Proof.
  intros Hr. apply reachable_inv in Hr as H. pose proof (inv_bounds _ H) as Hb. inv_destruct H.
  split_and!; [by eauto|rewrite Hcons; by intros [? _]%NoDup_app|].
  intros Ho Ht. rewrite Ho, Ht in *; simpl in *. rewrite app_nil_r in Hcons.
  split_and!; try done; try lia. intros He. rewrite (Hempty He ltac:(done)) in Hcons.
  by rewrite region_nil, app_nil_r in Hcons by lia.
Qed.

(** *** Progress *)
Lemma owner_progress σ :
  inv σ → own σ ≠ OIdle →
  (∃ σ', owner_step σ σ') ∨
  (∃ iso T0 T sk, own σ = OLock iso T0 T sk) ∧ task_pool (slot σ) = LockedTaskPool.
Proof.
  intros H Hn. pose proof (inv_bounds _ H) as Hb. inv_destruct H.
  destruct (own σ) as [|t|t| |iso T0 sk|iso T0 T sk|iso T0 T sk|iso T0 T sk ck|T0 sk] eqn:E; [done|..].
  - left; eexists; by eapply step_write.
  - left; eexists; by eapply step_commit.
  - left; eexists; by eapply step_publish.
  - left; eexists; by eapply step_dec.
  - left; eexists; by eapply step_load_head.
  - destruct (decide (task_pool (slot σ) = LockedTaskPool)) as [?|Hl]; [right; by eauto 6|left].
    assert (Ht : thf σ = TNone) by (by apply Hlock). rewrite Ht in *; simpl in *.
    destruct (get_locked iso T0 T sk (slot σ)) as [[s' o']|] eqn:Eg; [eexists; by eapply step_locked|].
    exfalso. revert Eg. unfold get_locked. destruct (Z.gtb_spec (head (slot σ)) T); [done|].
    destruct (Z.eqb_spec (head (slot σ)) T); [|done].
    destruct (cell_in_range (slot σ) T) as [c ->]; [lia|done].
  - left. destruct (cell_in_range (slot σ) T) as [c Hc].
    { destruct sk, ck; simpl in *; lia. }
    destruct (get_cell false iso T0 T sk ck (slot σ)) as [[[s' c'] o']|] eqn:Eg.
    + eexists. by eapply step_take.
    + unfold get_cell in Eg. by rewrite Hc in Eg.
  - left; eexists; by eapply step_end.
Qed.

Lemma thief_progress σ : inv σ → thf σ ≠ TNone → ∃ σ', thief_step σ σ'.
Proof.
  intros H Hn. inv_destruct H. pose proof (slack_bound _ _ Hown).
  destruct (thf σ) as [|iso H0 sk|iso H0 H1 sk|iso H0 H1 sk|H0| | |stable|stable hd|r] eqn:E; [done|..].
  1: eexists; by eapply step_inc.
  1: eexists; by eapply step_load_tail.
  2: eexists; by eapply step_restore.
  2: eexists; by eapply step_unlock.
  2: eexists; by eapply step_has_accessed.
  2: eexists; by eapply step_has_head.
  2: eexists; by eapply step_has_tail.
  2: eexists; by eapply step_has_unlock.
  simpl in *. destruct Hthf as (-> & ? & ? & ?).
  destruct (cell_in_range (slot σ) (head (slot σ) - 1)) as [c Hc]; [lia|].
  destruct (steal_cell false iso H0 (head (slot σ)) sk (slot σ)) as [[[s' c'] t']|] eqn:Es.
  - eexists. by eapply step_steal.
  - unfold steal_cell in Es. rewrite Hc in Es. simpl in Es. repeat case_match; done.
Qed.

(** How long a thief can still hold the lock. *)
Definition steal_measure (σ : system) : Z :=
  let d := tail (slot σ) + 2 - head (slot σ) in
  match thf σ with
  | TNone => 0
  | TUnlock | HUnlock _ => 1
  | TRestore _ | HTail _ _ => 2
  | HHead _ => 3
  | HAccessed => 4
  | TInc _ _ _ => 3 * d + 3
  | TCell _ _ _ _ => 3 * d + 4
  | TTail _ _ _ _ => 3 * d + 5
  end.

Lemma steal_measure_nonneg σ : inv σ → 0 ≤ steal_measure σ.
Proof.
  intros H. inv_destruct H. unfold steal_measure.
  assert (slack (own σ) ≤ 1 ∧ slack_seen (own σ) ≤ 1) by (owner_cases σ; lia).
  destruct (thf σ); simpl in *; lia.
Qed.

Lemma steal_measure_decreases σ σ' :
  inv σ → thf σ ≠ TNone → thief_step σ σ' → steal_measure σ' < steal_measure σ.
Proof.
  intros H Hn Hs. pose proof (steal_measure_nonneg _ H) as Hm. pose proof (active_locked _ H Hn) as Hl.
  inv_destruct H. assert (slack (own σ) ≤ 1 ∧ slack_seen (own σ) ≤ 1) by (owner_cases σ; lia).
  unfold steal_measure in *. destruct Hs as [? ? E|? ? ? E|? ? Hd ? E|? ? ? ? ? ? ? ? E Hc|? E|E|? E|E|? E|? ? E|? E];
    try (apply lock_task_pool_Some in E as [? _]; congruence); rewrite E in *; simpl in *; try lia; try congruence.
  - destruct (Z.gtb_spec Hd (tail (slot σ))); simpl; lia.
  - apply bind_Some in Hc as (c0 & _ & Hc).
    destruct c0; [destruct (_ && _); [destruct sk|]|]; injection Hc as <- <- <-; simpl; lia.
Qed.

Lemma steal_bound n σ σ' :
  inv σ → nsteps (λ a b, thf a ≠ TNone ∧ thief_step a b) n σ σ' → Z.of_nat n ≤ steal_measure σ.
Proof.
  intros H Hn. induction Hn as [σ|n σ σ1 σ2 [Ht Hs] _ IH].
  - by apply steal_measure_nonneg in H.
  - pose proof (steal_measure_decreases _ _ H Ht Hs).
    specialize (IH (pool_step_inv _ _ (or_intror Hs) H)). lia.
Qed.

(** No operation on a task pool gets stuck or reads outside the array.  The
    owner in the middle of [spawn] or [get_task] can make its next access unless
    it waits for a thief to give the lock back; a thief that holds the lock can
    always make its next access, and releases the lock after a number of its own
    steps bounded by the distance between head and tail. *)
Theorem task_pool_progress σ :
  rtc step init σ →
  (own σ ≠ OIdle →
   (∃ σ', owner_step σ σ') ∨
   (∃ iso T0 T sk, own σ = OLock iso T0 T sk) ∧ task_pool (slot σ) = LockedTaskPool) ∧
  (thf σ ≠ TNone → ∃ σ', thief_step σ σ') ∧
  (∀ n σ', nsteps (λ a b, thf a ≠ TNone ∧ thief_step a b) n σ σ' →
   Z.of_nat n ≤ 3 * (Z.max 0 (tail (slot σ) + 2 - head (slot σ))) + 5).
Proof.
  intros Hr%reachable_inv. split_and!; [by apply owner_progress|by apply thief_progress|].
  intros n σ' Hn%steal_bound; [|done]. unfold steal_measure in Hn. destruct (thf σ); lia.
Qed.

(** *** Runs *)

(** The steps as a function of who moves and of what the tasks are. *)
Inductive action :=
  | Spawn (t : task) | Get (iso : Z) | Owner (empty : bool)
  | Steal (iso : Z) | Has | Thief (skip : bool).

Definition proxy_cell (c : option (option task)) : bool :=
  match c with Some (Some t) => is_proxy t | _ => false end.

Definition owner_next (empty : bool) (σ : system) : option system :=
  let s := slot σ in
  let next s' o' := System s' o' (thf σ) (spawned σ) (consumed σ) in
  match own σ with
  | OIdle => None
  | OWrite t => if tail s <? my_task_pool_size s
                then Some (next (set_cell (tail s) (Some t) s) (OCommit t)) else None
  | OCommit t => Some (System (commit_spawned_tasks s) OPublish (thf σ) (spawned σ ++ [t]) (consumed σ))
  | OPublish => Some (next (publish_task_pool s) OIdle)
  | OGet iso T0 sk => Some (next (set_tail (tail s - 1) s) (OHead iso T0 (tail s - 1) sk))
  | OHead iso T0 T sk =>
      Some (next s (if head s >? T then OLock iso T0 T sk else OTake iso T0 T sk None))
  | OLock iso T0 T sk =>
      if decide (task_pool s = LockedTaskPool) then None
      else '(s', o') ← get_locked iso T0 T sk s; Some (next s' o')
  | OTake iso T0 T sk ck =>
      '(s', c, o') ← get_cell empty iso T0 T sk ck s;
      if negb empty || proxy_cell (Some c)
      then Some (System s' o' (thf σ) (spawned σ) (consumed σ ++ option_list c)) else None
  | OEnd T0 sk => Some (next (restore_tail T0 sk s) OIdle)
  end.

Definition thief_next (skip : bool) (σ : system) : option system :=
  let s := slot σ in
  let next s' t' := System s' (own σ) t' (spawned σ) (consumed σ) in
  match thf σ with
  | TNone => None
  | TInc iso H0 sk => Some (next (set_head (head s + 1) s) (TTail iso H0 (head s + 1) sk))
  | TTail iso H0 H sk => Some (next s (if H >? tail s then TRestore H0 else TCell iso H0 H sk))
  | TCell iso H0 H sk =>
      '(s', c, t') ← steal_cell skip iso H0 H sk s;
      if negb skip || proxy_cell (cell s (H - 1))
      then Some (System s' (own σ) t' (spawned σ) (consumed σ ++ option_list c)) else None
  | TRestore H0 => Some (next (set_head H0 s) TUnlock)
  | TUnlock => Some (next (unlock_task_pool s) TNone)
  | HAccessed => Some (next s (HHead (negb (accessed_by_owner (own σ)))))
  | HHead stable => Some (next s (HTail stable (head s)))
  | HTail stable hd => Some (next s (HUnlock (has_tasks stable hd (tail s))))
  | HUnlock result => Some (next (unlock_task_pool s) TNone)
  end.

Definition act (a : action) (σ : system) : option system :=
  let s := slot σ in
  match a, own σ, task_pool s with
  | Spawn t, OIdle, l =>
      if tail s + 1 <=? my_task_pool_size s
      then Some (System s (OWrite t) (thf σ) (spawned σ) (consumed σ))
      else if decide (l = LockedTaskPool) then None
      else Some (System (grow_task_pool s) (OWrite t) (thf σ) (spawned σ) (consumed σ))
  | Get iso, OIdle, (Unlocked | LockedTaskPool) =>
      Some (System s (OGet iso (tail s) false) (thf σ) (spawned σ) (consumed σ))
  | Owner empty, _, _ => owner_next empty σ
  | Steal iso, _, _ =>
      s' ← lock_task_pool s; Some (System s' (own σ) (TInc iso (head s) false) (spawned σ) (consumed σ))
  | Has, _, _ => s' ← lock_task_pool s; Some (System s' (own σ) HAccessed (spawned σ) (consumed σ))
  | Thief skip, _, _ => thief_next skip σ
  | _, _, _ => None
  end.

Fixpoint run (acts : list action) (σ : system) : option system :=
  match acts with
  | [] => Some σ
  | a :: acts => σ' ← act a σ; run acts σ'
  end.

Lemma proxy_cell_spec c : proxy_cell c = true → ∃ t, c = Some (Some t) ∧ is_proxy t = true.
Proof. destruct c as [[t|]|]; try done. by exists t. Qed.

Lemma owner_next_step empty σ σ' : owner_next empty σ = Some σ' → owner_step σ σ'.
Proof.
  unfold owner_next. destruct (own σ) as [|t|t| |iso T0 sk|iso T0 T sk|iso T0 T sk|iso T0 T sk ck|T0 sk] eqn:E;
    [done|..].
  - destruct (Z.ltb_spec (tail (slot σ)) (my_task_pool_size (slot σ))); [|done].
    intros [= <-]. by eapply step_write.
  - intros [= <-]. by eapply step_commit.
  - intros [= <-]. by eapply step_publish.
  - intros [= <-]. by eapply step_dec.
  - intros [= <-]. by eapply step_load_head.
  - case_decide; [done|]. intros ([s' o'] & Hg & [= <-])%bind_Some. by eapply step_locked.
  - intros ([[s' c] o'] & Hg & H)%bind_Some. case_match eqn:Ep; [|done]. injection H as <-.
    eapply step_take; [done..|]. intros ->. simpl in Ep.
    apply (proxy_cell_spec (Some c)) in Ep as (t & [= ->] & ?). by exists t.
  - intros [= <-]. by eapply step_end.
Qed.

Lemma thief_next_step skip σ σ' : thief_next skip σ = Some σ' → thief_step σ σ'.
Proof.
  unfold thief_next.
  destruct (thf σ) as [|iso H0 sk|iso H0 H1 sk|iso H0 H1 sk|H0| | |stable|stable hd|r] eqn:E; [done|..].
  3: { intros ([[s' c] t'] & Hg & H)%bind_Some. case_match eqn:Ep; [|done]. injection H as <-.
       eapply step_steal; [done..|]. intros ->. by apply proxy_cell_spec. }
  all: intros [= <-].
  - by eapply step_inc.
  - by eapply step_load_tail.
  - by eapply step_restore.
  - by eapply step_unlock.
  - by eapply step_has_accessed.
  - by eapply step_has_head.
  - by eapply step_has_tail.
  - by eapply step_has_unlock.
Qed.

Lemma act_step a σ σ' : act a σ = Some σ' → step σ σ'.
Proof.
  unfold act. destruct a as [t|iso|empty|iso| |skip].
  - destruct (own σ) eqn:E; try (by destruct (task_pool (slot σ))).
    destruct (Z.leb_spec (tail (slot σ) + 1) (my_task_pool_size (slot σ))); [|case_decide; [done|]];
      intros [= <-]; left; [by apply step_spawn|by apply step_spawn_grow].
  - destruct (own σ) eqn:E, (task_pool (slot σ)) eqn:El; try done;
      intros [= <-]; left; apply step_get; congruence.
  - intros H. left. eapply owner_next_step. by destruct (own σ), (task_pool (slot σ)).
  - intros (s' & Hl & [= <-])%bind_Some. right. by apply step_lock.
  - intros (s' & Hl & [= <-])%bind_Some. right. by apply step_has_lock.
  - intros H. right. eapply thief_next_step. by destruct (own σ), (task_pool (slot σ)).
Qed.

Lemma run_steps acts σ σ' : run acts σ = Some σ' → rtc step σ σ'.
Proof.
  revert σ. induction acts as [|a acts IH]; simpl; intros σ; [intros [= ->]; constructor|].
  intros (σ1 & H1%act_step & H2%IH)%bind_Some. by eapply rtc_l.
Qed.

(** A task that owner and thief want at the same time, with the thief ahead. *)
Definition one_task : task := Task 1 0 false.
Definition spawning (t : task) : list action := [Spawn t; Owner false; Owner false; Owner false].
Definition contest : list action :=
  spawning one_task ++ [Steal 0; Thief false; Thief false; Get 0; Owner false; Owner false].
Definition settle : list action := [Thief false; Thief false; Owner false; Owner false].

Definition contested : system :=
  System (Slot LockedTaskPool 1 0 (Some one_task :: replicate 63 None)) (OLock 0 1 0 false)
    (TCell 0 0 1 false) [one_task] [].
Definition settled : system :=
  System (Slot EmptyTaskPool 0 0 (Some one_task :: replicate 63 None)) OIdle TNone
    [one_task] [one_task].

Lemma contested_reachable : rtc step init contested.
Proof. apply (run_steps contest). vm_compute. reflexivity. Qed.

Lemma settled_reachable : rtc step init settled.
Proof. apply (run_steps (contest ++ settle)). vm_compute. reflexivity. Qed.

Lemma task_pool_exactly_once_witness :
  rtc step init settled ∧ spawned settled ≡ₚ consumed settled ∧
  0 ≤ head (slot settled) ≤ tail (slot settled).
Proof.
  pose proof (task_pool_exactly_once settled settled_reachable) as (_ & _ & H).
  destruct (H eq_refl eq_refl) as (H1 & _ & _ & H2).
  exact (conj settled_reachable (conj (H2 eq_refl) H1)).
Defined.

Lemma task_pool_progress_witness :
  rtc step init contested ∧ task_pool (slot contested) = LockedTaskPool ∧
  ∃ σ', thief_step contested σ'.
Proof.
  pose proof (task_pool_progress contested contested_reachable) as (_ & H & _).
  exact (conj contested_reachable (conj eq_refl (H ltac:(discriminate)))).
Defined.

(** [has_tasks] can answer no although a task is in the pool all the time: the
    owner, which skips that task twice, ends one [get_task] before the load of
    [accessed_by_owner] and begins the next before the load of the tail. *)
Definition task_a : task := Task 1 5 false.
Definition task_b : task := Task 2 7 false.
Definition missed : system :=
  System (Slot LockedTaskPool 0 0 (None :: Some task_b :: replicate 62 None)) (OHead 5 2 0 true)
    (HUnlock false) [task_a; task_b] [task_a].

Example has_tasks_misses_task : rtc step init missed.
Proof.
  apply (run_steps (spawning task_a ++ spawning task_b ++
    Get 5 :: replicate 5 (Owner false) ++ Has :: [Owner false; Owner false; Thief false] ++
    Get 5 :: replicate 4 (Owner false) ++ [Thief false; Thief false])).
  vm_compute. reflexivity.
Qed.
End TaskPool.
