(* ===== verification/Unordered.v ===== *)
(** * The concurrent unordered containers

    The split-ordered list under concurrent_unordered_map, _set and the multi
    variants.  Source: include/oneapi/tbb/detail/_concurrent_unordered_base.h.

    [SplitOrder] has the order keys of elements and buckets.  [Table] has the
    list, the bucket table, and [insert], [find], [rehash] as state machines in
    which every access to shared memory is a step; a system is a table and any
    number of threads.  The list is kept in its order: the [next] pointer of a
    node is its successor, and a compare-exchange of [next] inserts a node after
    it.  The user's hash function and the kind of container (unique or multi)
    are parameters. *)

From S2P Require Import Prelude Floats Bits.
From stdpp Require Import base numbers relations sorting gmap list.
From Stdlib Require Import ZArith Lia.
Import Bits.
Local Open Scope Z_scope.

Module SplitOrder.

(** A regular order key has its original hash value reversed and the last bit set. *)
Definition split_order_key_regular (hash : Z) : Z := Z.lor (reverse_bits hash) 1.
(** A dummy order key has its original hash value reversed and the last bit unset. *)
Definition split_order_key_dummy (hash : Z) : Z := Z.land (reverse_bits hash) (Z.lnot 1).

Definition get_parent (bucket : Z) : Z :=
  Z.land bucket (Z.lnot (Z.shiftl 1 (machine_log2 bucket))).

Definition get_next_bucket_index (bucket_count bucket : Z) : Z :=
  let bits := machine_log2 bucket_count in
  let reversed_next := wrap (reverse_n_bits bucket bits + 1) in
  reverse_n_bits reversed_next bits.

Definition round_up_to_power_of_two (bucket_count : Z) : Z :=
  wrap (Z.shiftl 1 (machine_log2 (wrap ((if bucket_count =? 0 then 1 else bucket_count) * 2 - 1)))).

(** ** Facts on the keys *)
Lemma regular_odd h : Z.testbit (split_order_key_regular h) 0 = true.
Proof. unfold split_order_key_regular. rewrite Z.lor_spec. by rewrite orb_true_r. Qed.

Lemma dummy_even h : Z.testbit (split_order_key_dummy h) 0 = false.
Proof. unfold split_order_key_dummy. rewrite Z.land_spec. by rewrite andb_false_r. Qed.

Lemma bit_high x i n : 0 ≤ n → 0 ≤ x < 2 ^ n → n ≤ i → Z.testbit x i = false.
Proof. intros. rewrite <- (Z.mod_small x (2 ^ n)) by lia. by apply Z.mod_pow2_bits_high. Qed.

(** The key of a bucket that the table can have is the reversed index. *)
Lemma dummy_reverse b : 0 ≤ b < 2 ^ 63 → split_order_key_dummy b = reverse_bits b.
Proof.
  intros Hb. assert (Hw : word b) by (unfold word; lia). unfold split_order_key_dummy.
  apply Z.bits_inj'. intros i Hi. rewrite Z.land_spec, Z.lnot_spec by lia.
  destruct (Z.eqb_spec i 0) as [->|].
  - rewrite reverse_bits_testbit by (lia || done). change (63 - 0) with 63.
    by rewrite (bit_high b 63 63) by lia.
  - rewrite (Z.bits_above_log2 1 i) by (simpl; lia). by rewrite andb_true_r.
Qed.

Lemma dummy_nonneg b : 0 ≤ b < 2 ^ 63 → 0 ≤ split_order_key_dummy b.
Proof.
  intros Hb. rewrite dummy_reverse by done. apply reverse_bits_word. unfold word. lia.
Qed.

(** Fewer bits, smaller reversed word. *)
Lemma reverse_bits_subset a b :
  word a → word b → (∀ i, 0 ≤ i < 64 → Z.testbit a i = true → Z.testbit b i = true) →
  reverse_bits a ≤ reverse_bits b.
Proof.
  intros Ha Hb H. apply bits_le; [by apply reverse_bits_word|]. intros i Hi Hbit.
  destruct (Z.ltb_spec i 64).
  - rewrite reverse_bits_testbit in * by (done || lia). apply H; [lia|done].
  - by rewrite (bit_high _ i 64) in Hbit by (lia || by apply reverse_bits_word).
Qed.

(** The bucket of a hash value comes before its elements in the list. *)
Lemma dummy_lt_regular h k :
  word h → 0 ≤ k ≤ 63 → split_order_key_dummy (h mod 2 ^ k) < split_order_key_regular h.
Proof.
  intros Hh Hk. assert (Hp : 0 < 2 ^ k) by (apply Z.pow_pos_nonneg; lia).
  pose proof (Z.mod_pos_bound h (2 ^ k) Hp) as Hm.
  assert (2 ^ k ≤ 2 ^ 63) by (apply Z.pow_le_mono_r; lia).
  assert (Hle : split_order_key_dummy (h mod 2 ^ k) ≤ split_order_key_regular h).
  { rewrite dummy_reverse by lia. trans (reverse_bits h).
    - apply reverse_bits_subset; [unfold word; lia|done|]. intros i Hi Hbit.
      destruct (Z.ltb_spec i k); [by rewrite Z.mod_pow2_bits_low in Hbit by lia|].
      by rewrite Z.mod_pow2_bits_high in Hbit by lia.
    - unfold split_order_key_regular. apply bits_le.
      + apply Z.lor_nonneg. split; [by apply reverse_bits_word|lia].
      + intros i Hi Hbit. rewrite Z.lor_spec, Hbit. done. }
  assert (split_order_key_dummy (h mod 2 ^ k) ≠ split_order_key_regular h); [|lia].
  intros E. pose proof (dummy_even (h mod 2 ^ k)) as H1. by rewrite E, regular_odd in H1.
Qed.

Lemma get_parent_bits b i :
  0 < b < 2 ^ 63 → 0 ≤ i →
  Z.testbit (get_parent b) i = Z.testbit b i && negb (i =? Z.log2 b).
Proof.
  intros Hb Hi. unfold get_parent. rewrite machine_log2_spec by (unfold word; lia).
  pose proof (Z.log2_nonneg b).
  rewrite Z.land_spec, Z.lnot_spec, Z.shiftl_1_l, Z.pow2_bits_eqb by lia.
  by rewrite Z.eqb_sym.
Qed.

(** The parent of a bucket is an earlier bucket, and comes before it in the list. *)
Lemma get_parent_lt b : 0 < b < 2 ^ 63 → 0 ≤ get_parent b < b.
Proof.
  intros Hb. assert (Hle : get_parent b ≤ b).
  { apply bits_le; [lia|]. intros i Hi. rewrite get_parent_bits by lia.
    by intros [? _]%andb_prop. }
  assert (get_parent b ≠ b).
  { intros E. apply (f_equal (λ x, Z.testbit x (Z.log2 b))) in E.
    rewrite get_parent_bits, Z.bit_log2, Z.eqb_refl in E by (lia || apply Z.log2_nonneg). done. }
  assert (0 ≤ get_parent b) by (apply Z.land_nonneg; lia). lia.
Qed.

Lemma dummy_parent_lt b :
  0 < b < 2 ^ 63 → split_order_key_dummy (get_parent b) < split_order_key_dummy b.
Proof.
  intros Hb. pose proof (get_parent_lt b Hb) as Hp. rewrite !dummy_reverse by lia.
  assert (reverse_bits (get_parent b) ≤ reverse_bits b).
  { apply reverse_bits_subset; [unfold word; lia..|]. intros i Hi.
    rewrite get_parent_bits by lia. by intros [? _]%andb_prop. }
  assert (reverse_bits (get_parent b) ≠ reverse_bits b); [|lia].
  intros E. apply (f_equal reverse_bits) in E.
  rewrite !reverse_bits_involutive in E by (unfold word; lia). lia.
Qed.
End SplitOrder.

Module Table.
Import SplitOrder.

Section table.
Context {K : Type} `{EqDecision K}.
(** The user's hash function; whether equal keys may be repeated; the maximal
    load factor, a quotient (with the denominator 0 for infinity). *)
Context (hash : K → Z) (allow_multimapping : bool) (mlf_num mlf_den : Z).

(** ** Data *)

(** [list_node], [value_node]: a dummy node has no value. *)
Record node := Node {
  ident : nat;
  order_key : Z;
  value : option K;
}.
Definition is_dummy (n : node) : bool := Z.land (order_key n) 1 =? 0.

(** The list from [my_head] on, the nodes of the buckets, the counters; and how
    many nodes were ever made. *)
Record table := Tbl {
  chain : list node;
  my_segments : gmap Z nat;
  my_size : Z;
  my_bucket_count : Z;
  nodes_made : nat;
}.
Definition my_head : node := Node 0 0 None.
Definition initial_bucket_count : Z := 8.
Definition init_table (bucket_count : Z) : table :=
  Tbl [my_head] ∅ 0 (round_up_to_power_of_two bucket_count) 1.

Definition set_chain (l : list node) (t : table) : table :=
  Tbl l (my_segments t) (my_size t) (my_bucket_count t) (nodes_made t).
Definition set_segment (b : Z) (i : nat) (t : table) : table :=
  Tbl (chain t) (<[b := i]> (my_segments t)) (my_size t) (my_bucket_count t) (nodes_made t).
Definition set_size (n : Z) (t : table) : table :=
  Tbl (chain t) (my_segments t) n (my_bucket_count t) (nodes_made t).
Definition set_bucket_count (n : Z) (t : table) : table :=
  Tbl (chain t) (my_segments t) (my_size t) n (nodes_made t).

(** [create_node], [create_dummy_node] *)
Definition create_node (key : Z) (v : option K) (t : table) : table * node :=
  (Tbl (chain t) (my_segments t) (my_size t) (my_bucket_count t) (S (nodes_made t)),
   Node (nodes_made t) key v).

(** ** The list *)
Fixpoint node_at (l : list node) (i : nat) : option node :=
  match l with
  | [] => None
  | n :: l => if decide (ident n = i) then Some n else node_at l i
  end.

(** [next()]: the outer option is [None] for a node that is not in the list. *)
Fixpoint next (l : list node) (i : nat) : option (option nat) :=
  match l with
  | [] => None
  | n :: l => if decide (ident n = i) then Some (ident <$> head l) else next l i
  end.

Fixpoint insert_after (l : list node) (i : nat) (new : node) : list node :=
  match l with
  | [] => []
  | n :: l => if decide (ident n = i) then n :: new :: l else n :: insert_after l i new
  end.

(** [try_insert]: [set_next] on the new node, then the compare-exchange. *)
Definition try_insert (prev : nat) (new : node) (current_next : option nat) (t : table)
  : option (table * bool) :=
  n ← next (chain t) prev;
  if decide (n = current_next) then Some (set_chain (insert_after (chain t) prev new) t, true)
  else Some (t, false).

(** ** Threads *)

(** The operation of a thread.  [Find] remembers whether the key was in the
    table when it began. *)
Inductive op := Insert (k : K) | Find (k : K) (seen : bool).
Definition key_of (o : op) : K := match o with Insert k | Find k _ => k end.
Definition hash_key (o : op) : Z := hash (key_of o).

(** Where a thread is.  [todo] are the buckets that [init_bucket] is initialising,
    the innermost call first. *)
Inductive pc :=
  | Idle
  | PBucket (o : op)                                          (* prepare_bucket: before the load of my_bucket_count *)
  | PInit (o : op) (todo : list Z)                            (* before the load of the segment of the first bucket *)
  | PHead (o : op) (todo : list Z)                            (* init_bucket(0): before the compare-exchange *)
  | PDummy (o : op) (todo : list Z) (d : node) (prev : nat)   (* insert_dummy_node: before the load of next *)
  | PDummyAt (o : op) (todo : list Z) (d : node) (prev : nat) (nxt : option nat)
  | PStore (o : op) (todo : list Z) (i : nat)                 (* before the store to my_segments *)
  | PSearch (k : K) (new : option node) (prev : nat)          (* search_after: before the load of next *)
  | PAt (k : K) (new : option node) (prev : nat) (curr : option nat)
  | PSize (k : K) (i : nat)                                   (* before my_size.fetch_add *)
  | PAdjust (k : K) (i : nat) (sz : Z)                        (* before the load of my_bucket_count *)
  | PGrow (k : K) (i : nat) (sz current_size : Z)             (* adjust_table_size *)
  | PFind (k : K) (seen : bool) (curr : option nat)           (* internal_find: the loop *)
  | PResult (o : op) (i : option nat) (inserted : bool).

(** [get_bucket] has returned. *)
Definition enter (o : op) (i : nat) : pc :=
  match o with
  | Insert k => PSearch k None i
  | Find k seen => PFind k seen (Some i)
  end.

(** [float(total_elements) / float(current_size) > my_max_load_factor]: the
    number of buckets is a power of two, so only the conversion of the number of
    elements rounds. *)
Definition overloaded (total_elements current_size : Z) : bool :=
  fl 24 total_elements 1 * mlf_den >? mlf_num * current_size.

Definition adjust_table_size (total_elements current_size : Z) (t : table) : table :=
  if overloaded total_elements current_size && (my_bucket_count t =? current_size)
  then set_bucket_count (wrap (2 * current_size)) t else t.

(** [search_after] goes on past [n]. *)
Definition passes (k : K) (n : node) : bool :=
  let ok := split_order_key_regular (hash k) in
  (order_key n <? ok) || ((order_key n =? ok) && negb (bool_decide (value n = Some k))).
Definition finds (k : K) (n : node) : bool :=
  (order_key n =? split_order_key_regular (hash k)) && bool_decide (value n = Some k).

(** The node of an element that is ready to be inserted: made before, or now. *)
Definition ready (t : table) (k : K) (new : option node) : table * node :=
  match new with
  | Some n => (t, n)
  | None => create_node (split_order_key_regular (hash k)) (Some k) t
  end.

(** The loop of [internal_find]. *)
Definition internal_find (k : K) (seen : bool) (curr : option nat) (t : table) : option (table * pc) :=
  match curr with
  | None => Some (t, PResult (Find k seen) None false)
  | Some i =>
      n ← node_at (chain t) i;
      if order_key n >? split_order_key_regular (hash k) then Some (t, PResult (Find k seen) None false)
      else if finds k n then Some (t, PResult (Find k seen) (Some i) false)
      else n ← next (chain t) i; Some (t, PFind k seen n)
  end.

(** One access to shared memory. *)
Definition advance (t : table) (p : pc) : option (table * pc) :=
  match p with
  | Idle | PResult _ _ _ => None
  | PBucket o =>
      if my_bucket_count t =? 0 then None       (* division by zero *)
      else Some (t, PInit o [hash_key o mod my_bucket_count t])
  | PInit o [] => None
  | PInit o (b :: rest) =>
      match my_segments t !! b, rest with
      | Some i, [] => Some (t, enter o i)
      | Some i, b' :: _ =>
          let '(t', d) := create_node (split_order_key_dummy b') None t in
          Some (t', PDummy o rest d i)
      | None, _ =>
          if b =? 0 then Some (t, PHead o rest)
          else Some (t, PInit o (get_parent b :: b :: rest))
      end
  | PHead o rest =>
      Some (match my_segments t !! 0 with None => set_segment 0 (ident my_head) t | Some _ => t end,
            PInit o (0 :: rest))
  | PDummy o todo d prev =>
      n ← next (chain t) prev;
      Some (t, PDummyAt o todo d prev n)
  | PDummyAt o todo d prev nxt =>
      let insert :=
        '(t', ok) ← try_insert prev d nxt t;
        Some (t', if ok : bool then PStore o todo (ident d) else PDummy o todo d prev) in
      match nxt with
      | None => insert
      | Some i =>
          n ← node_at (chain t) i;
          if order_key n <? order_key d then Some (t, PDummy o todo d i)
          else if order_key n =? order_key d then Some (t, PStore o todo i)
          else insert
      end
  | PStore o [] i => None
  | PStore o (b :: rest) i => Some (set_segment b i t, PInit o (b :: rest))
  | PSearch k new prev =>
      n ← next (chain t) prev;
      Some (t, PAt k new prev n)
  | PAt k new prev curr =>
      let insert :=
        let '(t1, n1) := ready t k new in
        '(t', ok) ← try_insert prev n1 curr t1;
        Some (t', if ok : bool then PSize k (ident n1) else PSearch k (Some n1) prev) in
      match curr with
      | None => insert
      | Some i =>
          n ← node_at (chain t) i;
          if passes k n then Some (t, PSearch k new i)
          else if (order_key n =? split_order_key_regular (hash k)) && negb allow_multimapping
          then Some (t, PResult (Insert k) (Some i) false)
          else insert
      end
  | PSize k i => Some (set_size (wrap (my_size t + 1)) t, PAdjust k i (wrap (my_size t + 1)))
  | PAdjust k i sz => Some (t, PGrow k i sz (my_bucket_count t))
  | PGrow k i sz cur => Some (adjust_table_size sz cur t, PResult (Insert k) (Some i) true)
  | PFind k seen curr => internal_find k seen curr t
  end.

(** [rehash]; the new count is a power of two. *)
Definition rehash (bucket_count : Z) (t : table) : table :=
  if my_bucket_count t <? bucket_count then set_bucket_count (round_up_to_power_of_two bucket_count) t else t.

(** ** The system: a table, its threads and the operations that have returned *)
Record system := System {
  tbl : table;
  threads : list pc;
  returned : list (op * option nat * bool);
}.

Definition holds (k : K) (t : table) : bool := bool_decide (Some k ∈ value <$> chain t).
Definition begin (o : op) (t : table) : pc :=
  match o with Insert k => PBucket (Insert k) | Find k _ => PBucket (Find k (holds k t)) end.

Inductive step (σ : system) : system → Prop :=
  | step_begin o l1 l2 :
      threads σ = l1 ++ Idle :: l2 →
      step σ (System (tbl σ) (l1 ++ begin o (tbl σ) :: l2) (returned σ))
  | step_advance p l1 l2 t' p' :
      threads σ = l1 ++ p :: l2 →
      advance (tbl σ) p = Some (t', p') →
      step σ (System t' (l1 ++ p' :: l2) (returned σ))
  | step_return o i ins l1 l2 :
      threads σ = l1 ++ PResult o i ins :: l2 →
      step σ (System (tbl σ) (l1 ++ Idle :: l2) (returned σ ++ [(o, i, ins)]))
  | step_rehash bucket_count :
      word bucket_count →
      step σ (System (rehash bucket_count (tbl σ)) (threads σ) (returned σ)).

Definition init (bucket_count : Z) (n : nat) : system :=
  System (init_table bucket_count) (replicate n Idle) [].

(** ** The list: successors and insertion *)
Implicit Types (l a : list node) (n m : node) (t : table) (k : K).

Lemma in_decomp l i : i ∈ ident <$> l → ∃ a n b, l = a ++ n :: b ∧ ident n = i.
Proof.
  intros (n & -> & Hn)%list_elem_of_fmap. apply list_elem_of_split in Hn as (a & b & ->). by exists a, n, b.
Qed.

Lemma decomp_fresh a n b : NoDup (ident <$> (a ++ n :: b)) → ident n ∉ ident <$> a.
Proof. rewrite fmap_app, fmap_cons. intros (_ & H & _)%NoDup_app Hn. apply (H _ Hn). by left. Qed.

Lemma decomp_unique a n b a' n' b' :
  NoDup (ident <$> (a ++ n :: b)) → a ++ n :: b = a' ++ n' :: b' → ident n = ident n' →
  a = a' ∧ n = n' ∧ b = b'.
Proof.
  intros Hnd E Hid. pose proof (decomp_fresh _ _ _ Hnd) as H1. rewrite E in Hnd.
  pose proof (decomp_fresh _ _ _ Hnd) as H2. rewrite Hid in H1. clear Hnd.
  revert a' E H1 H2. induction a as [|x a IH]; intros [|x' a'] E H1 H2; simplify_eq/=; try done.
  - destruct H2. rewrite <- Hid. by left.
  - destruct H1. by left.
  - rewrite not_elem_of_cons in H1, H2. destruct (IH a') as (-> & -> & ->); tauto || done.
Qed.

Lemma node_at_decomp a n b : NoDup (ident <$> (a ++ n :: b)) → node_at (a ++ n :: b) (ident n) = Some n.
Proof.
  intros H%decomp_fresh. induction a as [|x a IH]; simpl; [by rewrite decide_True|].
  rewrite fmap_cons, not_elem_of_cons in H. rewrite decide_False by intuition congruence. apply IH. tauto.
Qed.

Lemma next_decomp a n b : NoDup (ident <$> (a ++ n :: b)) → next (a ++ n :: b) (ident n) = Some (ident <$> head b).
Proof.
  intros H%decomp_fresh. induction a as [|x a IH]; simpl; [by rewrite decide_True|].
  rewrite fmap_cons, not_elem_of_cons in H. rewrite decide_False by intuition congruence. apply IH. tauto.
Qed.

Lemma insert_after_app_l a b i new : i ∈ ident <$> a → insert_after (a ++ b) i new = insert_after a i new ++ b.
Proof.
  induction a as [|x a IH]; simpl; [by intros ?%elem_of_nil|]. rewrite elem_of_cons.
  intros Hi. case_decide; [done|]. rewrite IH by intuition congruence. done.
Qed.

Lemma insert_after_app_r a b i new : i ∉ ident <$> a → insert_after (a ++ b) i new = a ++ insert_after b i new.
Proof.
  induction a as [|x a IH]; simpl; [done|]. rewrite not_elem_of_cons. intros [? ?].
  rewrite decide_False by done. by rewrite IH.
Qed.

Lemma insert_after_decomp a n b new :
  NoDup (ident <$> (a ++ n :: b)) → insert_after (a ++ n :: b) (ident n) new = a ++ n :: new :: b.
Proof. intros H%decomp_fresh. rewrite insert_after_app_r by done. simpl. by rewrite decide_True. Qed.

Lemma insert_after_perm l i new : i ∈ ident <$> l → insert_after l i new ≡ₚ new :: l.
Proof.
  induction l as [|x l IH]; simpl; [by intros ?%elem_of_nil|]. rewrite elem_of_cons. intros Hi.
  case_decide; [by rewrite Permutation_swap|]. rewrite IH by intuition congruence. by rewrite Permutation_swap.
Qed.

Lemma node_at_Some l i n :
  node_at l i = Some n → ∃ a b, l = a ++ n :: b ∧ ident n = i.
Proof.
  induction l as [|x l IH]; simpl; [done|]. case_decide.
  - intros [= ->]. by exists [], l.
  - intros (a & b & -> & ?)%IH. by exists (x :: a), b.
Qed.

(** ** The invariant *)

(** The order of the list: by key; equal keys only for elements. *)
Definition before n m : Prop :=
  order_key n < order_key m ∨ (order_key n = order_key m ∧ value n ≠ None ∧ value m ≠ None).

Definition node_ok n : Prop :=
  match value n with
  | Some k => order_key n = split_order_key_regular (hash k)
  | None => Z.testbit (order_key n) 0 = false
  end.

Definition chain_ok l : Prop :=
  NoDup (ident <$> l) ∧ Forall node_ok l ∧ StronglySorted before l ∧ head l = Some my_head.

Definition on_chain l (i : nat) (P : node → Prop) : Prop := ∃ n, n ∈ l ∧ ident n = i ∧ P n.

(** The node [i] and those before it are not after the place of [k] and do not hold [k]. *)
Definition clear_upto k (i : nat) l : Prop :=
  ∃ a n b, l = a ++ n :: b ∧ ident n = i ∧
    order_key n ≤ split_order_key_regular (hash k) ∧ Forall (λ m, value m ≠ Some k) (a ++ [n]).
(** The key [k] is in the node [i] or after it. *)
Definition ahead k (i : nat) l : Prop :=
  ∃ a n b, l = a ++ n :: b ∧ ident n = i ∧ Some k ∈ value <$> (n :: b).

(** An element with key [k] may be inserted after node [i]. *)
Definition place k (i : nat) l : Prop :=
  ∃ a n b, l = a ++ n :: b ∧ ident n = i ∧
    order_key n ≤ split_order_key_regular (hash k) ∧ Forall (λ m, value m ≠ Some k) (a ++ [n]) ∧
    ∀ m, head b = Some m →
      split_order_key_regular (hash k) < order_key m ∨ (allow_multimapping = true ∧ value m = Some k).

(** What one step can do to the list. *)
Inductive evolves l : list node → Prop :=
  | evolves_same : evolves l l
  | evolves_insert i new :
      i ∈ ident <$> l → (∀ k, value new = Some k → place k i l) → evolves l (insert_after l i new).

Definition op_ok t (o : op) : Prop :=
  match o with Find k true => Some k ∈ value <$> chain t | _ => True end.

Fixpoint path_ok (h : Z) (todo : list Z) : Prop :=
  match todo with
  | [] => False
  | b :: rest =>
      0 ≤ b < 2 ^ 63 ∧
      match rest with
      | [] => split_order_key_dummy b < split_order_key_regular h
      | b' :: _ => split_order_key_dummy b < split_order_key_dummy b' ∧ path_ok h rest
      end
  end.

Definition dummy_ok (todo : list Z) n : Prop :=
  value n = None ∧ ∃ (b : Z) rest, todo = b :: rest ∧ order_key n = split_order_key_dummy b.
Definition new_ok k (new : option node) : Prop :=
  ∀ n, new = Some n → value n = Some k ∧ order_key n = split_order_key_regular (hash k).
Definition link_ok l (i : option nat) : Prop := ∀ j, i = Some j → j ∈ ident <$> l.
Definition curr_ok l k (i : option nat) : Prop :=
  ∀ j, i = Some j → ∃ n, n ∈ l ∧ ident n = j ∧ (passes k n = true → clear_upto k j l).

Definition result_ok t (o : op) (i : option nat) : Prop :=
  match i, o with
  | Some i, _ => on_chain (chain t) i (λ n, value n = Some (key_of o))
  | None, Find _ seen => seen = false
  | None, Insert _ => False
  end.

Definition thread_ok t (p : pc) : Prop :=
  match p with
  | Idle => True
  | PBucket o => op_ok t o
  | PInit o todo => op_ok t o ∧ path_ok (hash_key o) todo
  | PHead o rest => op_ok t o ∧ path_ok (hash_key o) (0 :: rest)
  | PDummy o todo d prev =>
      op_ok t o ∧ path_ok (hash_key o) todo ∧ dummy_ok todo d ∧
      on_chain (chain t) prev (λ n, order_key n < order_key d)
  | PDummyAt o todo d prev nxt =>
      op_ok t o ∧ path_ok (hash_key o) todo ∧ dummy_ok todo d ∧
      on_chain (chain t) prev (λ n, order_key n < order_key d) ∧ link_ok (chain t) nxt
  | PStore o todo i =>
      op_ok t o ∧ path_ok (hash_key o) todo ∧ on_chain (chain t) i (dummy_ok todo)
  | PSearch k new prev => new_ok k new ∧ clear_upto k prev (chain t)
  | PAt k new prev curr => new_ok k new ∧ clear_upto k prev (chain t) ∧ curr_ok (chain t) k curr
  | PSize k i => on_chain (chain t) i (λ n, value n = Some k)
  | PAdjust k i sz | PGrow k i sz _ =>
      on_chain (chain t) i (λ n, value n = Some k) ∧ 0 ≤ sz ≤ Z.of_nat (nodes_made t)
  | PFind k seen curr =>
      link_ok (chain t) curr ∧
      (seen = true → match curr with Some i => ahead k i (chain t) | None => False end)
  | PResult o i _ => result_ok t o i
  end.

(** Nodes that a thread has made and not yet inserted. *)
Definition owned (p : pc) : list nat :=
  match p with
  | PDummy _ _ d _ | PDummyAt _ _ d _ _ => [ident d]
  | PSearch _ (Some n) _ | PAt _ (Some n) _ _ => [ident n]
  | _ => []
  end.
(** Elements inserted by an operation that has not yet returned. *)
Definition pending (p : pc) : list K :=
  match p with
  | PSize k _ | PAdjust k _ _ | PGrow k _ _ _ | PResult (Insert k) _ true => [k]
  | _ => []
  end.
Definition uncounted (p : pc) : Z := match p with PSize _ _ => 1 | _ => 0 end.
(** The key that a returned operation added. *)
Definition added (r : op * option nat * bool) : option K :=
  match r with (Insert k, _, true) => Some k | _ => None end.

Definition elements t : list K := omap value (chain t).

Definition segments_ok t : Prop :=
  ∀ (b : Z) i, my_segments t !! b = Some i →
    on_chain (chain t) i (λ n, value n = None ∧ order_key n = split_order_key_dummy b).

Record inv (σ : system) : Prop := {
  inv_chain : chain_ok (chain (tbl σ));
  inv_segments : segments_ok (tbl σ);
  inv_buckets : ∃ e, 0 ≤ e ≤ 63 ∧ my_bucket_count (tbl σ) = 2 ^ e;
  inv_fresh : NoDup ((ident <$> chain (tbl σ)) ++ (threads σ ≫= owned));
  inv_made : Forall (λ i, (i < nodes_made (tbl σ))%nat) ((ident <$> chain (tbl σ)) ++ (threads σ ≫= owned));
  inv_threads : Forall (thread_ok (tbl σ)) (threads σ);
  inv_returned : Forall (λ r, result_ok (tbl σ) r.1.1 r.1.2) (returned σ);
  inv_unique : allow_multimapping = false → NoDup (elements (tbl σ));
  inv_elements : elements (tbl σ) ≡ₚ omap added (returned σ) ++ (threads σ ≫= pending);
  inv_size : my_size (tbl σ) + zsum uncounted (threads σ) = Z.of_nat (length (elements (tbl σ)));
}.

(** *** Stability: what a thread knows survives the steps of the others *)
Lemma evolves_elem l l' n : evolves l l' → n ∈ l → n ∈ l'.
Proof. intros [|i new Hi _]; [done|]. rewrite insert_after_perm by done. by right. Qed.

Lemma evolves_ids l l' i : evolves l l' → i ∈ ident <$> l → i ∈ ident <$> l'.
Proof.
  intros He (n & -> & Hn)%list_elem_of_fmap. apply list_elem_of_fmap.
  exists n. split; [done|]. by eapply evolves_elem.
Qed.

Lemma evolves_on_chain l l' i P : evolves l l' → on_chain l i P → on_chain l' i P.
Proof. intros He (n & Hn & Hp). exists n. split; [by eapply evolves_elem|done]. Qed.

Lemma evolves_holds l l' k : evolves l l' → Some k ∈ value <$> l → Some k ∈ value <$> l'.
Proof.
  intros He (n & E & Hn)%list_elem_of_fmap. apply list_elem_of_fmap.
  exists n. split; [done|]. by eapply evolves_elem.
Qed.

Lemma evolves_ahead l l' k i :
  NoDup (ident <$> l) → evolves l l' → ahead k i l → ahead k i l'.
Proof.
  intros Hnd [|j new Hj _] (a & n & b & -> & <- & Hk); [by exists a, n, b|].
  destruct (decide (j ∈ ident <$> a)).
  - rewrite insert_after_app_l by done. by eexists _, n, b.
  - rewrite insert_after_app_r by done. simpl. case_decide as E.
    + exists a, n, (new :: b). split_and!; [done..|]. rewrite fmap_cons, elem_of_cons in Hk.
      rewrite !fmap_cons, !elem_of_cons. tauto.
    + exists a, n, (insert_after b j new). split_and!; [done..|].
      assert (Hb : j ∈ ident <$> b).
      { rewrite fmap_app, fmap_cons, elem_of_app, elem_of_cons in Hj. intuition congruence. }
      rewrite fmap_cons, elem_of_cons in Hk |- *. rewrite insert_after_perm by done.
      rewrite fmap_cons, elem_of_cons. tauto.
Qed.

Lemma before_le n m : before n m → order_key n ≤ order_key m.
Proof. intros [?|[-> _]]; lia. Qed.

Lemma sorted_before a n b m :
  StronglySorted before (a ++ n :: b) → (m ∈ a → order_key m ≤ order_key n) ∧ (m ∈ b → order_key n ≤ order_key m).
Proof.
  intros H. apply StronglySorted_app in H as (Hab & _ & Hb). split; intros Hm.
  - apply before_le, Hab; [done|by left].
  - apply StronglySorted_inv in Hb as [_ Hb]. apply before_le. by apply (proj1 (Forall_forall _ _) Hb).
Qed.

Lemma evolves_clear l l' k i :
  chain_ok l → evolves l l' → clear_upto k i l → clear_upto k i l'.
Proof.
  intros (Hnd & _ & Hs & _) [|j new Hj Hnew] (a & n & b & -> & <- & Hle & Hno); [by exists a, n, b|].
  destruct (decide (j ∈ ident <$> a)) as [Hja|Hja].
  - rewrite insert_after_app_l by done. eexists _, n, b. split_and!; [done..|].
    apply Forall_app in Hno as [Ha Hn]. rewrite insert_after_perm by done. simpl. constructor; [|by apply Forall_app].
    intros Ek. destruct (Hnew _ Ek) as (a2 & n2 & b2 & E & Hid & _ & _ & Hhd).
    apply in_decomp in Hja as (a1 & x & c & -> & Hx). rewrite <- app_assoc in E, Hnd, Hs. simpl in E, Hnd, Hs.
    destruct (decomp_unique _ _ _ _ _ _ Hnd E ltac:(congruence)) as (_ & _ & <-).
    assert (Hm : ∃ m, head (c ++ n :: b) = Some m ∧ value m ≠ Some k ∧ order_key m ≤ order_key n).
    { destruct c as [|m c]; simpl.
      - exists n. split_and!; [done|by apply Forall_inv in Hn|done].
      - exists m. split_and!; [done| |].
        + apply Forall_app in Ha as [_ [_ Ha]%Forall_cons]. by apply Forall_inv in Ha.
        + assert (Hs' : StronglySorted before ((a1 ++ x :: m :: c) ++ n :: b)) by (by rewrite <- app_assoc).
          apply (sorted_before _ _ _ m) in Hs' as [Hs' _]. apply Hs'.
          rewrite elem_of_app, !elem_of_cons. auto. }
    destruct Hm as (m & Hm & Hmk & Hmn). destruct (Hhd m Hm) as [?|[_ ?]]; [lia|done].
  - rewrite insert_after_app_r by done. simpl.
    case_decide; eexists a, n, _; (split_and!; [done..|by apply Forall_app in Hno]) || done.
Qed.

Lemma thread_ok_mono t t' p :
  chain_ok (chain t) → evolves (chain t) (chain t') → (nodes_made t ≤ nodes_made t')%nat →
  thread_ok t p → thread_ok t' p.
Proof.
  intros Hc He Hm. pose proof Hc as (Hnd & _).
  assert (Hop : ∀ o, op_ok t o → op_ok t' o).
  { intros [|k []]; simpl; [done| |done]. by apply evolves_holds. }
  assert (Hlink : ∀ i, link_ok (chain t) i → link_ok (chain t') i).
  { intros i Hi j Hj. eapply evolves_ids; [done|]. by apply Hi. }
  pose proof (λ i P, evolves_on_chain (chain t) (chain t') i P He) as Hon.
  pose proof (λ k i, evolves_clear (chain t) (chain t') k i Hc He) as Hcl.
  assert (Hcur : ∀ k i, curr_ok (chain t) k i → curr_ok (chain t') k i).
  { intros k i Hi j Hj. destruct (Hi j Hj) as (n & Hn & ? & ?). exists n.
    split_and!; [by eapply evolves_elem|done|by auto]. }
  destruct p as [| | | | | | | | | | | |k seen curr|o i ins]; simpl; intros;
    destruct_and?; split_and?; try first [done|lia|by eauto].
  - intros Hseen. match goal with H : seen = true → _ |- _ => specialize (H Hseen) end.
    destruct curr; [|done]. by eapply evolves_ahead.
  - destruct i; simpl in *; [by apply Hon|done].
Qed.

Lemma result_ok_mono t t' o i :
  evolves (chain t) (chain t') → result_ok t o i → result_ok t' o i.
Proof. intros He. destruct i; simpl; [by apply evolves_on_chain|done]. Qed.

(** *** Insertion keeps the list *)
#[local] Instance before_trans : Transitive before.
Proof. intros n m o [?|(? & ? & ?)] [?|(? & ? & ?)]; [left; lia..|right; split_and!; done || lia]. Qed.

Lemma sorted_insert a n b new :
  StronglySorted before (a ++ n :: b) → before n new → (∀ m, head b = Some m → before new m) →
  StronglySorted before (a ++ n :: new :: b).
Proof.
  intros Hs Hn Hb. apply StronglySorted_app in Hs as (Hab & Ha & Hnb).
  apply StronglySorted_inv in Hnb as [Hsb Hnb].
  assert (Hnew : Forall (before new) b).
  { destruct b as [|m b]; [constructor|]. specialize (Hb m eq_refl). constructor; [done|].
    apply StronglySorted_inv in Hsb as [_ Hsb]. eapply Forall_impl; [exact Hsb|]. intros x Hx. by trans m. }
  apply StronglySorted_app. split_and!; [|done|].
  - intros x y Hx. rewrite !elem_of_cons. intros [->|[->|Hy]].
    + apply Hab; [done|by left].
    + trans n; [|done]. apply Hab; [done|by left].
    + apply Hab; [done|by right].
  - apply SSorted_cons; [by apply SSorted_cons|by constructor].
Qed.

Lemma chain_ok_insert a n b new :
  chain_ok (a ++ n :: b) → node_ok new → ident new ∉ ident <$> (a ++ n :: b) →
  before n new → (∀ m, head b = Some m → before new m) →
  chain_ok (a ++ n :: new :: b).
Proof.
  intros (Hnd & Hok & Hs & Hh) Hnew Hfr Hb1 Hb2. split_and!.
  - assert (E : a ++ n :: new :: b ≡ₚ new :: a ++ n :: b) by solve_Permutation.
    rewrite E. simpl. by constructor.
  - apply Forall_app in Hok as [? [? ?]%Forall_cons]. apply Forall_app. split; [done|].
    apply Forall_cons. split; [done|]. by apply Forall_cons.
  - by apply sorted_insert.
  - by destruct a.
Qed.

(** *** Replacing one thread *)
Lemma inv_update t t' (p p' : pc) (l1 l2 : list pc) r :
  inv (System t (l1 ++ p :: l2) r) →
  evolves (chain t) (chain t') → chain_ok (chain t') → segments_ok t' →
  (∃ e, 0 ≤ e ≤ 63 ∧ my_bucket_count t' = 2 ^ e) →
  ((∃ dropped, (ident <$> chain t) ++ owned p ≡ₚ dropped ++ (ident <$> chain t') ++ owned p') ∧
     nodes_made t' = nodes_made t ∨
   (ident <$> chain t') ++ owned p' ≡ₚ nodes_made t :: (ident <$> chain t) ++ owned p ∧
     nodes_made t' = S (nodes_made t)) →
  thread_ok t' p' →
  (allow_multimapping = false → NoDup (elements t')) →
  elements t' ++ pending p ≡ₚ elements t ++ pending p' →
  my_size t' + uncounted p' - Z.of_nat (length (elements t')) =
    my_size t + uncounted p - Z.of_nat (length (elements t)) →
  inv (System t' (l1 ++ p' :: l2) r).
Proof.
  intros [Hc Hsg Hbk Hfr Hmd Hth Hrt Hun Hel Hsz] Hev Hc' Hsg' Hbk' Hids Hp' Hun' Hel' Hsz'; simpl in *.
  assert (Hmono : (nodes_made t ≤ nodes_made t')%nat) by (destruct Hids as [[_ ->]|[_ ->]]; lia).
  assert (Hids' : NoDup ((ident <$> chain t') ++ ((l1 ++ p' :: l2) ≫= owned)) ∧
    Forall (λ i, (i < nodes_made t')%nat) ((ident <$> chain t') ++ ((l1 ++ p' :: l2) ≫= owned))).
  { rewrite bind_app, bind_cons in *. set (o1 := l1 ≫= owned) in *. set (o2 := l2 ≫= owned) in *.
    assert (E : (ident <$> chain t) ++ o1 ++ owned p ++ o2 ≡ₚ ((ident <$> chain t) ++ owned p) ++ o1 ++ o2)
      by solve_Permutation.
    assert (E' : (ident <$> chain t') ++ o1 ++ owned p' ++ o2 ≡ₚ ((ident <$> chain t') ++ owned p') ++ o1 ++ o2)
      by solve_Permutation.
    rewrite E in Hfr, Hmd. rewrite E'. destruct Hids as [[[dr Hdr] Em]|[Hnew Em]]; rewrite Em.
    - rewrite Hdr in Hfr, Hmd. rewrite <- app_assoc in Hfr, Hmd.
      apply NoDup_app in Hfr as (_ & _ & Hfr). by apply Forall_app in Hmd as [_ Hmd].
    - rewrite Hnew. simpl. split; [|constructor; [lia|eapply Forall_impl; [exact Hmd|]; simpl; lia]].
      constructor; [|done]. intros Hin. apply (proj1 (Forall_forall _ _) Hmd) in Hin. lia. }
  destruct Hids' as [Hfr' Hmd'].
  constructor; simpl; try done.
  - apply Forall_app in Hth as [H1 [_ H2]%Forall_cons].
    apply Forall_app. split; [|constructor; [done|]];
      (eapply Forall_impl; [eassumption|]; intros x Hx; by apply (thread_ok_mono t)).
  - eapply Forall_impl; [exact Hrt|]. intros x Hx. by apply (result_ok_mono t).
  - rewrite bind_app, bind_cons in *. apply (Permutation_app_inv_r (pending p)). rewrite Hel', Hel.
    solve_Permutation.
  - rewrite zsum_app, zsum_cons in *. lia.
Qed.

(** *** The steps that only read *)
Lemma inv_same t (p p' : pc) (l1 l2 : list pc) r :
  inv (System t (l1 ++ p :: l2) r) →
  thread_ok t p' → (∃ dropped, owned p ≡ₚ dropped ++ owned p') →
  pending p' = pending p → uncounted p' = uncounted p →
  inv (System t (l1 ++ p' :: l2) r).
Proof.
  intros H Hp [dr Hdr] Hpe Hun. pose proof H as [Hc Hsg Hbk _ _ _ _ Hu _ _].
  eapply (inv_update t t p p'); try done; rewrite ?Hpe, ?Hun; try done.
  - constructor.
  - left. split; [|done]. exists dr. rewrite Hdr. solve_Permutation.
Qed.

Lemma thread_inv t p (l1 l2 : list pc) r : inv (System t (l1 ++ p :: l2) r) → thread_ok t p.
Proof. intros [_ _ _ _ _ H _ _ _ _]. by apply Forall_app in H as [_ [H _]%Forall_cons]. Qed.

(** In terms of a place in the list. *)
Lemma on_chain_decomp l i P : on_chain l i P → ∃ a n b, l = a ++ n :: b ∧ ident n = i ∧ P n.
Proof.
  intros (n & Hn & <- & HP). apply list_elem_of_split in Hn as (a & b & ->). by exists a, n, b.
Qed.

Lemma decomp_on_chain a n b (P : node → Prop) : P n → on_chain (a ++ n :: b) (ident n) P.
Proof. intros HP. exists n. split_and!; [|done..]. rewrite elem_of_app, elem_of_cons. auto. Qed.

Lemma regular_not_dummy n : node_ok n → ∀ h, order_key n = split_order_key_regular h → value n ≠ None.
Proof.
  intros Hn h Eh Ev. unfold node_ok in Hn. rewrite Ev, Eh, regular_odd in Hn. done.
Qed.

(** From a node before the place of [k] on, the elements with key [k] are ahead. *)
Lemma dummy_clear l i k :
  chain_ok l → on_chain l i (λ n, value n = None ∧ order_key n < split_order_key_regular (hash k)) →
  clear_upto k i l ∧ (Some k ∈ value <$> l → ahead k i l).
Proof.
  intros (_ & Hok & Hs & _) (a & n & b & -> & <- & Hv & Hlt)%on_chain_decomp.
  assert (Ha : Forall (λ m, value m ≠ Some k) (a ++ [n])).
  { apply Forall_app. split; [|constructor; [congruence|constructor]].
    apply Forall_forall. intros m Hm Ek.
    apply (sorted_before _ _ _ m) in Hs as [Hs _]. specialize (Hs Hm).
    apply Forall_app in Hok as [Hok _]. apply (proj1 (Forall_forall _ _) Hok) in Hm.
    unfold node_ok in Hm. rewrite Ek in Hm. lia. }
  split; [exists a, n, b; split_and!; [done..|lia|done]|].
  intros Hin. exists a, n, b. split_and!; [done..|].
  rewrite fmap_app, elem_of_app in Hin. destruct Hin as [(m & Em & Hm)%list_elem_of_fmap|]; [|done].
  apply Forall_app in Ha as [Ha _]. apply (proj1 (Forall_forall _ _) Ha) in Hm. congruence.
Qed.

Lemma next_link l i j : NoDup (ident <$> l) → next l i = Some j → link_ok l j.
Proof.
  intros Hnd. induction l as [|x l IH]; simpl; [done|]. case_decide.
  - intros [= <-] y Hy. destruct l as [|z l]; simplify_eq/=. right. by left.
  - intros Hj y Hy. apply NoDup_cons in Hnd as [_ Hnd]. right. by apply IH.
Qed.

Lemma on_chain_unique l i P n :
  NoDup (ident <$> l) → on_chain l i P → n ∈ l → ident n = i → P n.
Proof.
  intros Hnd (a & m & b & -> & <- & HP)%on_chain_decomp Hn Hid.
  apply list_elem_of_split in Hn as (a' & b' & E).
  by destruct (decomp_unique _ _ _ _ _ _ Hnd E) as (_ & <- & _).
Qed.

(** *** The bucket of a key *)
Context (hash_word : ∀ k, word (hash k)).

Lemma inv_bucket t o (l1 l2 : list pc) r :
  inv (System t (l1 ++ PBucket o :: l2) r) →
  inv (System t (l1 ++ PInit o [hash_key o mod my_bucket_count t] :: l2) r).
Proof.
  intros H. apply (inv_same _ (PBucket o)); try done; [|by exists []].
  pose proof (thread_inv _ _ _ _ _ H) as Ho. split; [done|].
  destruct H as [_ _ (e & He & Hb) _ _ _ _ _ _ _]. simpl in Hb. rewrite Hb.
  pose proof (Z.mod_pos_bound (hash_key o) (2 ^ e) ltac:(apply Z.pow_pos_nonneg; lia)).
  assert (2 ^ e ≤ 2 ^ 63) by (apply Z.pow_le_mono_r; lia).
  simpl. split; [lia|]. apply dummy_lt_regular; [apply hash_word|lia].
Qed.

Lemma inv_init t o b rest (l1 l2 : list pc) r t' p' :
  advance t (PInit o (b :: rest)) = Some (t', p') →
  inv (System t (l1 ++ PInit o (b :: rest) :: l2) r) → inv (System t' (l1 ++ p' :: l2) r).
Proof.
  intros Ha H. pose proof (thread_inv _ _ _ _ _ H) as [Ho [Hb Hpath]].
  pose proof H as [Hc Hsg Hbk _ _ _ _ Hu _ _]; simpl in *.
  destruct (my_segments t !! b) as [i|] eqn:Es.
  - pose proof (Hsg _ _ Es) as Hi. destruct rest as [|b' rest]; injection Ha as <- <-.
    + assert (Hcl : clear_upto (key_of o) i (chain t) ∧
        (Some (key_of o) ∈ value <$> chain t → ahead (key_of o) i (chain t))).
      { apply dummy_clear; [done|]. destruct Hi as (n & ? & ? & ? & Hk). exists n.
        split_and!; try done. rewrite Hk. exact Hpath. }
      destruct Hcl as [Hcl Hah].
      apply (inv_same _ (PInit o [b])); try done; [|by destruct o; exists []..|by destruct o|by destruct o].
      destruct o as [k|k seen]; simpl in *; [done|]. split.
      * intros j [= <-]. destruct Hi as (n & ? & <- & _). by apply list_elem_of_fmap_2.
      * intros ->. by apply Hah.
    + destruct Hpath as [Hlt Hpath].
      eapply (inv_update t); try done; simpl.
      * constructor.
      * right. split; [|done]. rewrite app_nil_r. solve_Permutation.
      * split; [by destruct o as [|? []]|split; [exact Hpath|split]].
        { split; [done|by eexists _, _]. }
        destruct Hi as (n & ? & ? & ? & Hk). exists n. split_and!; [done..|]. simpl. lia.
  - destruct (Z.eqb_spec b 0) as [->|Hb0]; injection Ha as <- <-.
    + apply (inv_same _ (PInit o (0 :: rest))); try done. by exists [].
    + apply (inv_same _ (PInit o (b :: rest))); try done; [|by exists []].
      pose proof (get_parent_lt b ltac:(lia)). split; [done|]. split; [lia|].
      split; [apply dummy_parent_lt; lia|by split].
Qed.

Lemma head_on_chain l : chain_ok l → on_chain l (ident my_head) (λ n, n = my_head).
Proof.
  intros (_ & _ & _ & Hh). destruct l as [|n l]; simplify_eq/=.
  exists my_head. split_and!; [by left|done..].
Qed.

Lemma segments_set t b i :
  segments_ok t →
  on_chain (chain t) i (λ n, value n = None ∧ order_key n = split_order_key_dummy b) →
  segments_ok (set_segment b i t).
Proof.
  intros Hs Hi b' i'. simpl. destruct (decide (b = b')) as [<-|Hne].
  - rewrite lookup_insert_eq. by intros [= <-].
  - rewrite lookup_insert_ne by done. apply Hs.
Qed.

(** A step that writes only to the bucket table. *)
Lemma inv_segment t t' (p p' : pc) (l1 l2 : list pc) r :
  inv (System t (l1 ++ p :: l2) r) →
  chain t' = chain t → my_size t' = my_size t → my_bucket_count t' = my_bucket_count t →
  nodes_made t' = nodes_made t → segments_ok t' → thread_ok t' p' →
  owned p = [] → owned p' = [] → pending p' = pending p → uncounted p' = uncounted p →
  inv (System t' (l1 ++ p' :: l2) r).
Proof.
  intros H Ec Esz Ebc Em Hs Hp Ho Ho' Hpe Hun. pose proof H as [Hc Hsg Hbk _ _ _ _ Hu _ _]; simpl in *.
  eapply (inv_update t t' p p'); try done; rewrite ?Ho, ?Ho', ?Hpe, ?Hun, ?Ec, ?Ebc, ?Esz; try done.
  - constructor.
  - left. split; [|done]. by exists [].
  - unfold elements. by rewrite Ec.
  - unfold elements. by rewrite Ec.
  - unfold elements. by rewrite Ec.
Qed.

Lemma inv_head t o rest (l1 l2 : list pc) r :
  inv (System t (l1 ++ PHead o rest :: l2) r) →
  inv (System (match my_segments t !! 0 with None => set_segment 0 (ident my_head) t | Some _ => t end)
         (l1 ++ PInit o (0 :: rest) :: l2) r).
Proof.
  intros H. pose proof (thread_inv _ _ _ _ _ H) as Hp. pose proof H as [Hc Hsg _ _ _ _ _ _ _ _]; simpl in *.
  destruct (my_segments t !! 0); [by apply (inv_same _ (PHead o rest)); [..|by exists []| |]|].
  eapply inv_segment; try done.
  apply segments_set; [done|]. destruct (head_on_chain _ Hc) as (n & ? & ? & ->).
  exists my_head. split_and!; [done..|]. vm_compute. reflexivity.
Qed.

Lemma inv_store t o b rest i (l1 l2 : list pc) r :
  inv (System t (l1 ++ PStore o (b :: rest) i :: l2) r) →
  inv (System (set_segment b i t) (l1 ++ PInit o (b :: rest) :: l2) r).
Proof.
  intros H. pose proof (thread_inv _ _ _ _ _ H) as (Ho & Hp & n & Hn & Hid & Hv & b' & rest' & [= <- <-] & Hk).
  pose proof H as [_ Hsg _ _ _ _ _ _ _ _]; simpl in *.
  eapply inv_segment; try done.
  apply segments_set; [done|]. by exists n.
Qed.

(** *** Insertion *)
Lemma try_insert_spec prev new cur t t' ok :
  NoDup (ident <$> chain t) → try_insert prev new cur t = Some (t', ok) →
  ok = false ∧ t' = t ∨
  ok = true ∧ ∃ a n b, chain t = a ++ n :: b ∧ ident n = prev ∧ cur = ident <$> head b ∧
    t' = set_chain (a ++ n :: new :: b) t.
Proof.
  intros Hnd (nx & Hn & Ht)%bind_Some. case_decide as E; simplify_eq; [|by left]. right. split; [done|].
  assert (Hin : prev ∈ ident <$> chain t).
  { clear -Hn. induction (chain t) as [|x l IH]; simpl in *; [done|]. rewrite elem_of_cons.
    case_decide; auto. }
  apply in_decomp in Hin as (a & n & b & E & <-). rewrite E in *. exists a, n, b.
  rewrite next_decomp in Hn by done. injection Hn as <-.
  by rewrite insert_after_decomp.
Qed.

Lemma owned_fresh t p (l1 l2 : list pc) r i :
  inv (System t (l1 ++ p :: l2) r) → i ∈ owned p → i ∉ ident <$> chain t.
Proof.
  intros [_ _ _ Hfr _ _ _ _ _ _] Hi Hin; simpl in *. apply NoDup_app in Hfr as (_ & Hfr & _).
  apply (Hfr _ Hin). rewrite bind_app, bind_cons, !elem_of_app. auto.
Qed.

Lemma made_fresh σ : inv σ → nodes_made (tbl σ) ∉ ident <$> chain (tbl σ).
Proof.
  intros [_ _ _ _ Hmd _ _ _ _ _] Hin. apply Forall_app in Hmd as [Hmd _].
  apply (proj1 (Forall_forall _ _) Hmd) in Hin. lia.
Qed.

Lemma evolves_decomp a n b new :
  NoDup (ident <$> (a ++ n :: b)) → (∀ k, value new = Some k → place k (ident n) (a ++ n :: b)) →
  evolves (a ++ n :: b) (a ++ n :: new :: b).
Proof.
  intros Hnd Hp. rewrite <- insert_after_decomp by done. constructor; [|done].
  rewrite fmap_app, fmap_cons, elem_of_app, elem_of_cons. auto.
Qed.

Lemma segments_mono t t' :
  evolves (chain t) (chain t') → my_segments t' = my_segments t → segments_ok t → segments_ok t'.
Proof. intros He E Hs b i Hb. rewrite E in Hb. eapply evolves_on_chain; [done|]. by apply Hs. Qed.

Lemma node_at_head a n b i m :
  NoDup (ident <$> (a ++ n :: b)) → node_at (a ++ n :: b) i = Some m →
  Some i = ident <$> head b → ∃ b', b = m :: b'.
Proof.
  intros Hnd (a' & c & E & Hm)%node_at_Some Hb. destruct b as [|m' b']; simplify_eq/=.
  exists b'. f_equal.
  assert (E' : (a ++ [n]) ++ m' :: b' = a' ++ m :: c) by (by rewrite <- app_assoc).
  assert (Hnd' : NoDup (ident <$> ((a ++ [n]) ++ m' :: b'))) by (by rewrite <- app_assoc).
  by destruct (decomp_unique _ _ _ _ _ _ Hnd' E' ltac:(congruence)) as (_ & ? & _).
Qed.

(** A dummy node goes in between smaller and greater keys. *)
Lemma inv_dummy_insert t o todo d prev nxt (l1 l2 : list pc) r t' p' :
  (∀ i n, nxt = Some i → node_at (chain t) i = Some n → order_key d < order_key n) →
  (∀ i, nxt = Some i → is_Some (node_at (chain t) i)) →
  ('(t', ok) ← try_insert prev d nxt t;
   Some (t', if ok : bool then PStore o todo (ident d) else PDummy o todo d prev)) = Some (t', p') →
  inv (System t (l1 ++ PDummyAt o todo d prev nxt :: l2) r) → inv (System t' (l1 ++ p' :: l2) r).
Proof.
  intros Hgt Hsome ([t1 ok] & Htry & [= <- <-])%bind_Some H.
  pose proof (thread_inv _ _ _ _ _ H) as (Ho & Hpath & Hd & Hprev & _).
  pose proof (owned_fresh _ _ _ _ _ (ident d) H ltac:(by left)) as Hfr.
  pose proof H as [Hc Hsg Hbk _ _ _ _ Hu _ _]; simpl in *. pose proof Hc as (Hnd & Hok & Hs & _).
  apply try_insert_spec in Htry as [[-> ->]|[-> (a & n & b & E & Hid & En & ->)]]; [..|done].
  { apply (inv_same _ (PDummyAt o todo d prev nxt)); try done. by exists []. }
  assert (Hlt : order_key n < order_key d).
  { apply (on_chain_unique _ _ _ n Hnd Hprev); [|done]. rewrite E, elem_of_app, elem_of_cons. auto. }
  destruct Hd as [Hdv Hdk]. rewrite E in *.
  assert (Hhd : ∀ m, head b = Some m → before d m).
  { intros m Hm. rewrite Hm in En. simpl in En. left.
    destruct (Hsome _ En) as [m' Hm']. pose proof (Hgt _ _ En Hm') as Hlt'.
    destruct (node_at_head _ _ _ _ _ Hnd Hm' ltac:(by rewrite Hm)) as [b' ->]. by simplify_eq/=. }
  assert (Hev : evolves (a ++ n :: b) (a ++ n :: d :: b)).
  { apply evolves_decomp; [done|]. intros k. by rewrite Hdv. }
  assert (Hel : elements (set_chain (a ++ n :: d :: b) t) = elements t).
  { unfold elements; simpl. rewrite E, !omap_app. f_equal. simpl. by rewrite Hdv. }
  eapply (inv_update t); try done; rewrite ?Hel, ?E; try done; simpl.
  - apply chain_ok_insert; try done; [|by left]. unfold node_ok. rewrite Hdv.
    destruct Hdk as (b0 & rest & _ & ->). apply dummy_even.
  - eapply (segments_mono t); simpl; [by rewrite E|done..].
  - left. split; [|done]. exists []. rewrite app_nil_r. simpl.
    assert (Ep : a ++ n :: d :: b ≡ₚ d :: a ++ n :: b) by solve_Permutation. rewrite Ep.
    simpl. solve_Permutation.
  - split_and!; [|done|].
    + destruct o as [|k []]; simpl in *; [done| |done]. eapply evolves_holds; [exact Hev|]. by rewrite <- E.
    + exists d. split_and!; [|done..]. rewrite elem_of_app, !elem_of_cons. auto.
Qed.

Lemma link_node_at l i : i ∈ ident <$> l → NoDup (ident <$> l) → ∃ n, node_at l i = Some n ∧ n ∈ l ∧ ident n = i.
Proof.
  intros (a & n & b & -> & <-)%in_decomp Hnd. exists n. rewrite node_at_decomp by done.
  rewrite elem_of_app, elem_of_cons. auto.
Qed.

Lemma inv_dummy t o todo d prev (l1 l2 : list pc) r t' p' :
  advance t (PDummy o todo d prev) = Some (t', p') →
  inv (System t (l1 ++ PDummy o todo d prev :: l2) r) → inv (System t' (l1 ++ p' :: l2) r).
Proof.
  intros (nx & Hn & [= <- <-])%bind_Some H. pose proof (thread_inv _ _ _ _ _ H) as Hp.
  apply (inv_same _ (PDummy o todo d prev)); try done; [|by exists []].
  destruct H as [(Hnd & _) _ _ _ _ _ _ _ _ _]. simpl in *. split_and!; try tauto. by eapply next_link.
Qed.

Lemma inv_dummy_at t o todo d prev nxt (l1 l2 : list pc) r t' p' :
  advance t (PDummyAt o todo d prev nxt) = Some (t', p') →
  inv (System t (l1 ++ PDummyAt o todo d prev nxt :: l2) r) → inv (System t' (l1 ++ p' :: l2) r).
Proof.
  intros Ha H. pose proof (thread_inv _ _ _ _ _ H) as (Ho & Hpath & Hd & Hprev & Hlink).
  pose proof H as [(Hnd & Hok & _) _ _ _ _ _ _ _ _ _]; simpl in *.
  destruct nxt as [i|]; [|by eapply (inv_dummy_insert t o todo d prev None)].
  destruct (link_node_at _ _ (Hlink i eq_refl) Hnd) as (n & Hi & Hn & Hid). rewrite Hi in Ha. simpl in Ha.
  destruct (Z.ltb_spec (order_key n) (order_key d)) as [Hlt|Hge].
  { injection Ha as <- <-. apply (inv_same _ (PDummyAt o todo d prev (Some i))); try done; [|by exists []].
    split_and!; try done. by exists n. }
  destruct (Z.eqb_spec (order_key n) (order_key d)) as [Heq|Hne].
  - injection Ha as <- <-. apply (inv_same _ (PDummyAt o todo d prev (Some i))); try done; [|by exists [ident d]].
    split_and!; try done. exists n. split_and!; try done.
    destruct Hd as [Hdv (b & rest & -> & Hk)]. split; [|by eexists _, _; split; [done|congruence]].
    apply (proj1 (Forall_forall _ _) Hok) in Hn. unfold node_ok in Hn.
    destruct (value n) as [k|]; [|done]. rewrite Hn in Heq. pose proof (dummy_even b) as He.
    by rewrite <- Hk, <- Heq, regular_odd in He.
  - eapply (inv_dummy_insert t o todo d prev (Some i)); [..|exact Ha|done].
    + intros i' n' [= <-]. rewrite Hi. intros [= <-]. lia.
    + intros i' [= <-]. by rewrite Hi.
Qed.

Lemma inv_search t k new prev (l1 l2 : list pc) r t' p' :
  advance t (PSearch k new prev) = Some (t', p') →
  inv (System t (l1 ++ PSearch k new prev :: l2) r) → inv (System t' (l1 ++ p' :: l2) r).
Proof.
  intros (nx & Hn & [= <- <-])%bind_Some H. pose proof (thread_inv _ _ _ _ _ H) as [Hnew Hcl].
  apply (inv_same _ (PSearch k new prev)); try done; [|by exists []; destruct new].
  destruct H as [(Hnd & Hok & Hs & _) _ _ _ _ _ _ _ _ _]. simpl in *. split_and!; try done.
  destruct Hcl as (a & n & b & E & <- & Hle & Hno). rewrite E in *.
  rewrite next_decomp in Hn by done. injection Hn as <-. intros j Hj.
  destruct b as [|m b]; simplify_eq/=. exists m. split_and!; [|done|].
  { rewrite elem_of_app, !elem_of_cons. auto. }
  intros Hpass. exists (a ++ [n]), m, b. split_and!; [by rewrite <- app_assoc|done| |].
  - unfold passes in Hpass. lia.
  - apply Forall_app. split; [done|]. constructor; [|constructor]. intros Ek.
    unfold passes in Hpass. rewrite Ek, bool_decide_true in Hpass by done.
    apply Forall_app in Hok as [_ Hok]. rewrite !Forall_cons in Hok. destruct Hok as (_ & Hm & _).
    unfold node_ok in Hm. rewrite Ek in Hm. rewrite Hm, Z.ltb_irrefl in Hpass. lia.
Qed.

(** What comes after a node whose key is too large does not hold [k]. *)
Lemma no_key_after a n b k :
  Forall node_ok (a ++ n :: b) → StronglySorted before (a ++ n :: b) →
  (∀ m, head b = Some m → split_order_key_regular (hash k) < order_key m) →
  Forall (λ m, value m ≠ Some k) b.
Proof.
  intros Hok Hs Hhd. destruct b as [|m b]; [constructor|]. specialize (Hhd m eq_refl).
  apply Forall_app in Hok as [_ Hok]. apply Forall_cons in Hok as [_ Hok].
  apply StronglySorted_app in Hs as (_ & _ & Hs). apply StronglySorted_inv in Hs as [Hs _].
  apply StronglySorted_inv in Hs as [_ Hs].
  assert (Hge : ∀ x, x ∈ m :: b → order_key m ≤ order_key x).
  { intros x. rewrite elem_of_cons. intros [->|Hx]; [lia|]. apply before_le.
    by apply (proj1 (Forall_forall _ _) Hs). }
  apply Forall_forall. intros x Hx Ek. specialize (Hge x Hx).
  apply (proj1 (Forall_forall _ _) Hok) in Hx. unfold node_ok in Hx. rewrite Ek in Hx. lia.
Qed.

Lemma ready_spec t k new prev curr (l1 l2 : list pc) r :
  inv (System t (l1 ++ PAt k new prev curr :: l2) r) →
  (let (t1, n1) := ready t k new in
  value n1 = Some k ∧ order_key n1 = split_order_key_regular (hash k) ∧
  (ident n1 ∉ ident <$> chain t) ∧ chain t1 = chain t ∧ my_segments t1 = my_segments t ∧
  my_size t1 = my_size t ∧ my_bucket_count t1 = my_bucket_count t ∧
  (owned (PAt k new prev curr) = [ident n1] ∧ nodes_made t1 = nodes_made t ∨
   owned (PAt k new prev curr) = [] ∧ ident n1 = nodes_made t ∧ nodes_made t1 = S (nodes_made t))).
Proof.
  intros H. pose proof (thread_inv _ _ _ _ _ H) as (Hnew & _). destruct new as [n|]; simpl.
  - destruct (Hnew n eq_refl). split_and!; try done; [|by left].
    apply (owned_fresh _ _ _ _ _ _ H). by left.
  - split_and!; try done; [|by right]. apply (made_fresh _ H).
Qed.

Lemma elements_insert t a n b new k :
  chain t = a ++ n :: b → value new = Some k →
  elements (set_chain (a ++ n :: new :: b) t) ≡ₚ k :: elements t.
Proof.
  intros E Ev. unfold elements; simpl. rewrite E, !omap_app. simpl.
  destruct (value n); rewrite Ev; solve_Permutation.
Qed.

Lemma elements_spec t k : k ∈ elements t ↔ Some k ∈ value <$> chain t.
Proof.
  unfold elements. rewrite list_elem_of_omap, list_elem_of_fmap.
  split; intros (n & Hn); exists n; intuition congruence.
Qed.

Lemma place_unique a n b k t :
  chain_ok (chain t) → chain t = a ++ n :: b →
  Forall (λ m, value m ≠ Some k) (a ++ [n]) →
  (∀ m, head b = Some m → split_order_key_regular (hash k) < order_key m) → k ∉ elements t.
Proof.
  intros (_ & Hok & Hs & _) E Hno Hhd Hin. rewrite E in Hok, Hs.
  pose proof (no_key_after _ _ _ _ Hok Hs Hhd) as Hb.
  apply elements_spec, list_elem_of_fmap in Hin as (m & Em & Hm).
  assert (Hall : Forall (λ m, value m ≠ Some k) (chain t)).
  { rewrite E. apply Forall_app in Hno as [? Hn]. apply Forall_app. split; [done|].
    apply Forall_inv in Hn. by constructor. }
  apply (proj1 (Forall_forall _ _) Hall) in Hm. congruence.
Qed.

Lemma inv_value_inserted t t1 n1 k (p : pc) a n b (l1 l2 : list pc) r :
  inv (System t (l1 ++ p :: l2) r) → pending p = [] → uncounted p = 0 →
  value n1 = Some k → order_key n1 = split_order_key_regular (hash k) → ident n1 ∉ ident <$> chain t →
  chain t1 = chain t → my_segments t1 = my_segments t → my_size t1 = my_size t →
  my_bucket_count t1 = my_bucket_count t →
  (owned p = [ident n1] ∧ nodes_made t1 = nodes_made t ∨
   owned p = [] ∧ ident n1 = nodes_made t ∧ nodes_made t1 = S (nodes_made t)) →
  chain t = a ++ n :: b → order_key n ≤ split_order_key_regular (hash k) →
  Forall (λ m, value m ≠ Some k) (a ++ [n]) →
  (∀ m, head b = Some m →
     split_order_key_regular (hash k) < order_key m ∨ (allow_multimapping = true ∧ value m = Some k)) →
  inv (System (set_chain (a ++ n :: n1 :: b) t1) (l1 ++ PSize k (ident n1) :: l2) r).
Proof.
  intros H Hpe Hunc Hv Hkey Hfr Ec Esg Esz Ebc Hown E Hle Hno Hhd.
  pose proof H as [Hc Hsg Hbk _ _ _ _ Hu _ _]; simpl in *. pose proof Hc as (Hnd & Hok & Hs & _).
  assert (Hel : elements (set_chain (a ++ n :: n1 :: b) t1) ≡ₚ k :: elements t)
    by (by apply (elements_insert t)).
  rewrite E in Hnd, Hok.
  assert (Hev : evolves (chain t) (a ++ n :: n1 :: b)).
  { rewrite E. apply evolves_decomp; [done|]. intros k' Hk'. assert (k' = k) as -> by congruence.
    exists a, n, b. by split_and!. }
  assert (Hnok : node_ok n) by (apply Forall_app in Hok as [_ Hok]; by apply Forall_inv in Hok).
  eapply (inv_update t); [exact H|exact Hev|..]; simpl.
  - rewrite E in Hc, Hfr. apply chain_ok_insert; try done.
    + unfold node_ok. by rewrite Hv.
    + destruct (decide (order_key n = order_key n1)); [right|left; lia].
      split_and!; [done|apply (regular_not_dummy n Hnok (hash k)); congruence|by rewrite Hv].
    + intros m Hm. destruct (Hhd m Hm) as [?|[_ Hmk]]; [left; lia|right].
      assert (Hmok : node_ok m).
      { destruct b; simplify_eq/=. apply Forall_app in Hok as [_ Hok]. rewrite !Forall_cons in Hok. tauto. }
      unfold node_ok in Hmok. rewrite Hmk in Hmok. split_and!; congruence.
  - eapply (segments_mono t); done.
  - by rewrite Ebc.
  - assert (Ep : a ++ n :: n1 :: b ≡ₚ n1 :: chain t) by (rewrite E; solve_Permutation).
    destruct Hown as [[-> ->]|(-> & <- & ->)]; [left|right]; (split; [|done]); rewrite app_nil_r.
    + exists []. rewrite Ep. simpl. solve_Permutation.
    + rewrite Ep. simpl. by rewrite app_nil_r.
  - exists n1. split_and!; [|done..]. rewrite elem_of_app, !elem_of_cons. auto.
  - intros Hm. rewrite Hel. constructor; [|by apply Hu].
    apply (place_unique a n b k t); try done. intros m Hm'. destruct (Hhd m Hm') as [?|[? _]]; [done|congruence].
  - rewrite Hel, Hpe, app_nil_r. solve_Permutation.
  - rewrite Hel, Esz, Hunc. simpl. lia.
Qed.

Lemma inv_value_insert t k new prev curr (l1 l2 : list pc) r t' p' :
  (∀ i n, curr = Some i → node_at (chain t) i = Some n →
     split_order_key_regular (hash k) < order_key n ∨ (allow_multimapping = true ∧ value n = Some k)) →
  (∀ i, curr = Some i → is_Some (node_at (chain t) i)) →
  (let '(t1, n1) := ready t k new in
   '(t', ok) ← try_insert prev n1 curr t1;
   Some (t', if ok : bool then PSize k (ident n1) else PSearch k (Some n1) prev)) = Some (t', p') →
  inv (System t (l1 ++ PAt k new prev curr :: l2) r) → inv (System t' (l1 ++ p' :: l2) r).
Proof.
  intros Hgt Hsome Ha H. pose proof (ready_spec _ _ _ _ _ _ _ _ H) as Hr.
  destruct (ready t k new) as [t1 n1]. destruct Hr as (Hv & Hkey & Hfr & Ec & Esg & Esz & Ebc & Hown).
  apply bind_Some in Ha as ([t2 ok] & Htry & [= <- <-]).
  pose proof (thread_inv _ _ _ _ _ H) as (Hnew & Hcl & _).
  pose proof H as [Hc Hsg Hbk _ _ _ _ Hu _ _]; simpl in *. pose proof Hc as (Hnd & Hok & Hs & _).
  assert (Hsg1 : segments_ok t1) by (intros b i; rewrite Esg, Ec; apply Hsg).
  apply try_insert_spec in Htry as [[-> ->]|[-> (a & n & b & E & Hid & En & ->)]]; [..|by rewrite Ec].
  - (* another thread was faster *)
    eapply (inv_update t t1); try done; rewrite ?Ec, ?Ebc, ?Esz; try done.
    + constructor.
    + simpl. destruct Hown as [[-> ->]|(-> & <- & ->)]; [left|right]; (split; [|done]).
      * by exists [].
      * rewrite app_nil_r. solve_Permutation.
    + split; [intros ? [= <-]; done|]. by rewrite Ec.
    + unfold elements. by rewrite Ec.
    + unfold elements. by rewrite Ec.
    + unfold elements. by rewrite Ec.
  - rewrite Ec in E. destruct Hcl as (a' & n' & b' & E' & Hid' & Hle & Hno). rewrite E in E', Hnd.
    destruct (decomp_unique _ _ _ _ _ _ Hnd E' ltac:(congruence)) as (<- & <- & <-).
    assert (Hhd : ∀ m, head b = Some m →
      split_order_key_regular (hash k) < order_key m ∨ (allow_multimapping = true ∧ value m = Some k)).
    { intros m Hm. rewrite Hm in En. simpl in En. destruct (Hsome _ En) as [m' Hm'].
      pose proof (Hgt _ _ En Hm') as Hcase. rewrite E in Hm'.
      destruct (node_at_head _ _ _ _ _ Hnd Hm' ltac:(by rewrite Hm)) as [b' ->]. by simplify_eq/=. }
    by eapply (inv_value_inserted t).
Qed.

Lemma inv_at t k new prev curr (l1 l2 : list pc) r t' p' :
  advance t (PAt k new prev curr) = Some (t', p') →
  inv (System t (l1 ++ PAt k new prev curr :: l2) r) → inv (System t' (l1 ++ p' :: l2) r).
Proof.
  intros Ha H. pose proof (thread_inv _ _ _ _ _ H) as (Hnew & Hcl & Hcur).
  pose proof H as [(Hnd & Hok & _) _ _ _ _ _ _ _ _ _]; simpl in *.
  destruct curr as [i|]; [|by eapply (inv_value_insert t k new prev None)].
  destruct (Hcur i eq_refl) as (n & Hn & Hid & Hpass).
  assert (Hi : node_at (chain t) i = Some n).
  { apply list_elem_of_split in Hn as (a & b & E). rewrite E in *. rewrite <- Hid. by apply node_at_decomp. }
  rewrite Hi in Ha. simpl in Ha. destruct (passes k n) eqn:Ep.
  { injection Ha as <- <-. apply (inv_same _ (PAt k new prev (Some i))); try done.
    - split; [done|by apply Hpass].
    - exists []. by destruct new. }
  unfold passes in Ep. apply orb_false_iff in Ep as [Elt%Z.ltb_ge Eeq].
  destruct (Z.eqb_spec (order_key n) (split_order_key_regular (hash k))) as [Ek|Ek]; simpl in Ha, Eeq.
  - apply negb_false_iff, bool_decide_eq_true in Eeq. destruct allow_multimapping eqn:Em; simpl in Ha.
    + eapply (inv_value_insert t k new prev (Some i)); [..|exact Ha|done].
      * intros i' n' [= <-]. rewrite Hi. intros [= <-]. by right.
      * intros i' [= <-]. by rewrite Hi.
    + injection Ha as <- <-. apply (inv_same _ (PAt k new prev (Some i))); try done.
      * by exists n.
      * simpl. destruct new as [n0|]; [by exists [ident n0]|by exists []].
  - eapply (inv_value_insert t k new prev (Some i)); [..|exact Ha|done].
    + intros i' n' [= <-]. rewrite Hi. intros [= <-]. left. lia.
    + intros i' [= <-]. by rewrite Hi.
Qed.

(** *** Counting and growing *)
Lemma chain_le_made σ : inv σ → (length (chain (tbl σ)) ≤ nodes_made (tbl σ))%nat.
Proof.
  intros [(Hnd & _) _ _ _ Hmd _ _ _ _ _]. apply Forall_app in Hmd as [Hmd _].
  rewrite <- (length_fmap ident), <- (length_seq (nodes_made (tbl σ)) 0).
  apply submseteq_length, NoDup_submseteq; [done|].
  intros i Hi. apply elem_of_seq. apply (proj1 (Forall_forall _ _) Hmd) in Hi. lia.
Qed.

Lemma elements_le t : (length (elements t) ≤ length (chain t))%nat.
Proof.
  unfold elements. induction (chain t) as [|n l IH]; [done|]. csimpl. destruct (value n); csimpl; lia.
Qed.

Lemma uncounted_pending (ps : list pc) : zsum uncounted ps ≤ Z.of_nat (length (ps ≫= pending)).
Proof.
  induction ps as [|p ps IH]; [done|]. rewrite zsum_cons, bind_cons, length_app.
  destruct p; simpl; lia.
Qed.

Lemma my_size_nonneg σ : inv σ → 0 ≤ my_size (tbl σ).
Proof.
  intros [_ _ _ _ _ _ _ _ Hel Hsz]. rewrite Hel, length_app in Hsz.
  pose proof (uncounted_pending (threads σ)). lia.
Qed.

Lemma inv_size_step t k i (l1 l2 : list pc) r :
  Z.of_nat (nodes_made t) < 2 ^ 64 →
  inv (System t (l1 ++ PSize k i :: l2) r) →
  inv (System (set_size (wrap (my_size t + 1)) t) (l1 ++ PAdjust k i (wrap (my_size t + 1)) :: l2) r).
Proof.
  intros Hmade H. pose proof (thread_inv _ _ _ _ _ H) as Hp. pose proof (chain_le_made _ H) as Hle.
  pose proof (elements_le t). pose proof (my_size_nonneg _ H). pose proof H as [Hc Hsg Hbk _ _ _ _ Hu _ Hsz]; simpl in *.
  assert (Hnext : my_size t + 1 ≤ Z.of_nat (nodes_made t)).
  { rewrite zsum_app, zsum_cons in Hsz. simpl in Hsz.
    assert (∀ ps : list pc, 0 ≤ zsum uncounted ps) as Hnn.
    { intros ps. apply zsum_nonneg, Forall_forall. intros [] _; simpl; lia. }
    pose proof (Hnn l1). pose proof (Hnn l2). lia. }
  assert (E : wrap (my_size t + 1) = my_size t + 1) by (apply Z.mod_small; lia). rewrite E.
  eapply (inv_update t); try done; simpl.
  - constructor.
  - left. split; [|done]. by exists [].
  - split; [done|]. lia.
  - change (elements (set_size (my_size t + 1) t)) with (elements t). lia.
Qed.

(** Rounding at most doubles. *)
Lemma fl_double sz : 0 ≤ sz → fl 24 sz 1 ≤ 2 * sz.
Proof.
  intros Hsz. destruct (decide (sz = 0)) as [->|]; [by vm_compute|].
  pose proof (Z.log2_spec sz ltac:(lia)) as [H1 H2]. pose proof (Z.log2_nonneg sz).
  trans (2 ^ Z.succ (Z.log2 sz)); [|rewrite Z.pow_succ_r by lia; lia].
  apply fl_le; [lia..| |lia]. apply representable_pow; lia.
Qed.

(** The number of nodes fits in a word and within [2 ^ 62] times the maximal load
    factor, so that a table of [2 ^ 63] buckets is never overloaded. *)
Definition within_load (made : Z) : Prop :=
  made < 2 ^ 64 ∧ 0 ≤ mlf_den ∧ 0 ≤ mlf_num ∧ made * mlf_den ≤ mlf_num * 2 ^ 62.

Lemma within_load_le (x y : Z) : y ≤ x → within_load x → within_load y.
Proof. intros Hle (H0 & H1 & H2 & H3). split_and!; [lia|done..|]. nia. Qed.

(** The number of buckets stays a power of two and does not overflow as long as
    the number of nodes is within the load. *)
Lemma adjust_buckets t sz cur :
  0 ≤ sz → within_load sz → (∃ e, 0 ≤ e ≤ 63 ∧ my_bucket_count t = 2 ^ e) →
  ∃ e, 0 ≤ e ≤ 63 ∧ my_bucket_count (adjust_table_size sz cur t) = 2 ^ e.
Proof.
  intros Hp (_ & Hden & Hnum & Hl) (e & He & Hb). unfold adjust_table_size.
  destruct (overloaded sz cur && (my_bucket_count t =? cur)) eqn:E; [|by eauto].
  apply andb_prop in E as [Ho <-%Z.eqb_eq]. simpl. unfold overloaded in Ho.
  pose proof (fl_double sz Hp) as Hfl. apply Z.gtb_lt in Ho.
  assert (Hlt : 2 ^ e < 2 ^ 63).
  { rewrite <- Hb. apply (Zmult_lt_reg_r _ _ mlf_num); nia. }
  assert (e < 63) by (apply (Z.pow_lt_mono_r_iff 2); lia).
  exists (e + 1). split; [lia|]. rewrite Hb. unfold wrap. rewrite Z.pow_add_r, Z.mul_comm by lia.
  apply Z.mod_small. change (2 ^ 1) with 2. lia.
Qed.

Lemma inv_grow_buckets t k i sz cur (l1 l2 : list pc) r :
  within_load (Z.of_nat (nodes_made t)) →
  inv (System t (l1 ++ PGrow k i sz cur :: l2) r) →
  inv (System (adjust_table_size sz cur t) (l1 ++ PResult (Insert k) (Some i) true :: l2) r).
Proof.
  intros Hb H. pose proof (thread_inv _ _ _ _ _ H) as [Hp Hle].
  pose proof H as [Hc Hsg Hbk _ _ _ _ Hu _ _]; simpl in *.
  pose proof (adjust_buckets t sz cur ltac:(lia) (within_load_le (Z.of_nat (nodes_made t)) sz ltac:(lia) Hb) Hbk) as Hbk'.
  assert (E : chain (adjust_table_size sz cur t) = chain t ∧ nodes_made (adjust_table_size sz cur t) = nodes_made t ∧
    my_segments (adjust_table_size sz cur t) = my_segments t ∧ my_size (adjust_table_size sz cur t) = my_size t).
  { unfold adjust_table_size. by case_match. }
  destruct E as (Ec & Em & Es & Esz).
  eapply (inv_update t); try done; rewrite ?Ec, ?Em, ?Esz; try done; simpl.
  - constructor.
  - eapply (segments_mono t); [rewrite Ec; constructor|done..].
  - left. split; [|done]. by exists [].
  - by rewrite Ec.
  - unfold elements. by rewrite Ec.
  - unfold elements. by rewrite Ec.
  - unfold elements. by rewrite Ec.
Qed.

(** *** Lookup *)
Lemma inv_find t k seen curr (l1 l2 : list pc) r t' p' :
  advance t (PFind k seen curr) = Some (t', p') →
  inv (System t (l1 ++ PFind k seen curr :: l2) r) → inv (System t' (l1 ++ p' :: l2) r).
Proof.
  intros Ha H. pose proof (thread_inv _ _ _ _ _ H) as [Hlink Hah].
  pose proof H as [(Hnd & Hok & Hs & _) _ _ _ _ _ _ _ _ _]; simpl in *.
  assert (Hgo : ∀ p'', t' = t → p' = p'' → thread_ok t p'' → owned p'' = [] → pending p'' = [] →
    uncounted p'' = 0 → inv (System t' (l1 ++ p' :: l2) r)).
  { intros p'' -> -> Hp Ho Hpe Hun. apply (inv_same _ (PFind k seen curr)); try done. exists []. by rewrite Ho. }
  destruct curr as [i|]; simpl in Ha.
  2:{ injection Ha as <- <-. eapply Hgo; try done. simpl. destruct seen; [by specialize (Hah eq_refl)|done]. }
  destruct (in_decomp _ _ (Hlink i eq_refl)) as (a & n & b & E & <-). rewrite E in Ha, Hnd, Hok, Hs.
  rewrite node_at_decomp in Ha by done. simpl in Ha.
  assert (Hk : seen = true → Some k ∈ value <$> (n :: b)).
  { intros Hse. destruct (Hah Hse) as (a' & n' & b' & E' & Hid & Hin). rewrite E in E'.
    by destruct (decomp_unique _ _ _ _ _ _ Hnd E' ltac:(congruence)) as (_ & <- & <-). }
  apply Forall_app in Hok as [_ [Hn Hb]%Forall_cons].
  destruct (Z.gtb_spec (order_key n) (split_order_key_regular (hash k))) as [Hgt|Hle].
  - injection Ha as <- <-. eapply Hgo; try done. simpl. destruct seen; [|done]. exfalso.
    specialize (Hk eq_refl). apply list_elem_of_fmap in Hk as (m & Em & Hm). apply elem_of_cons in Hm as [->|Hm].
    + unfold node_ok in Hn. rewrite <- Em in Hn. lia.
    + apply (sorted_before _ _ _ m) in Hs as [_ Hs]. specialize (Hs Hm).
      apply (proj1 (Forall_forall _ _) Hb) in Hm. unfold node_ok in Hm. rewrite <- Em in Hm. lia.
  - destruct (finds k n) eqn:Ef.
    + injection Ha as <- <-. eapply Hgo; try done. simpl. rewrite E. apply decomp_on_chain.
      unfold finds in Ef. apply andb_prop in Ef as [_ Ef]. by apply bool_decide_eq_true in Ef.
    + rewrite next_decomp in Ha by done. injection Ha as <- <-. eapply Hgo; try done. simpl. split.
      * rewrite E. eapply next_link; [done|]. by apply next_decomp.
      * intros Hse. specialize (Hk Hse). rewrite fmap_cons, elem_of_cons in Hk. destruct Hk as [Hk|Hk].
        { exfalso. unfold node_ok in Hn. rewrite <- Hk in Hn. unfold finds in Ef.
          rewrite Hn, Z.eqb_refl, bool_decide_true in Ef by done. done. }
        destruct b as [|m b]; [by apply elem_of_nil in Hk|]. rewrite E. simpl.
        exists (a ++ [n]), m, b. split_and!; [by rewrite <- app_assoc|done..].
Qed.

(** *** All steps *)
Lemma inv_advance t p (l1 l2 : list pc) r t' p' :
  within_load (Z.of_nat (nodes_made t')) → advance t p = Some (t', p') →
  inv (System t (l1 ++ p :: l2) r) → inv (System t' (l1 ++ p' :: l2) r).
Proof.
  intros Hm Ha H.
  destruct p as [|o|o [|b rest]|o rest|o todo d prev|o todo d prev nxt|o [|b rest] i|k new prev|
    k new prev curr|k i|k i sz|k i sz cur|k seen curr|o i ins]; try done.
  - simpl in Ha. case_match; [done|]. injection Ha as <- <-. by apply inv_bucket.
  - by eapply inv_init.
  - injection Ha as <- <-. by apply inv_head.
  - by eapply inv_dummy.
  - by eapply inv_dummy_at.
  - injection Ha as <- <-. by apply inv_store.
  - by eapply inv_search.
  - by eapply inv_at.
  - injection Ha as <- <-. apply inv_size_step; [apply Hm|done].
  - injection Ha as <- <-. pose proof (thread_inv _ _ _ _ _ H).
    apply (inv_same _ (PAdjust k i sz)); try done. by exists [].
  - injection Ha as <- <-. apply inv_grow_buckets; [|done]. revert Hm. unfold adjust_table_size. by case_match.
  - by eapply inv_find.
Qed.

Lemma inv_begin t o (l1 l2 : list pc) r :
  inv (System t (l1 ++ Idle :: l2) r) → inv (System t (l1 ++ begin o t :: l2) r).
Proof.
  intros H. apply (inv_same _ Idle); try done; destruct o as [k|k seen]; simpl; try done; try (by exists []).
  destruct (holds k t) eqn:E; [|done]. by apply bool_decide_eq_true in E.
Qed.

Lemma inv_return t o i ins (l1 l2 : list pc) r :
  inv (System t (l1 ++ PResult o i ins :: l2) r) →
  inv (System t (l1 ++ Idle :: l2) (r ++ [(o, i, ins)])).
Proof.
  intros H. pose proof (thread_inv _ _ _ _ _ H) as Hp.
  destruct H as [Hc Hsg Hbk Hfr Hmd Hth Hrt Hu Hel Hsz]; simpl in *.
  rewrite bind_app, bind_cons in Hfr, Hmd. rewrite bind_app, bind_cons in Hel. rewrite zsum_app, zsum_cons in Hsz.
  constructor; simpl; try done; rewrite ?bind_app, ?bind_cons; try done.
  - apply Forall_app in Hth as [? [_ ?]%Forall_cons]. apply Forall_app. split; [done|]. by constructor.
  - apply Forall_app. split; [done|]. by repeat constructor.
  - rewrite Hel, omap_app. destruct o, ins; simpl; solve_Permutation.
  - rewrite zsum_app, zsum_cons. simpl in *. lia.
Qed.

(** Whatever number of buckets is asked for, the rounded one is a power of two,
    even where the rounding overflows. *)
Lemma round_up_spec (n : Z) : word n → ∃ e, 0 ≤ e ≤ 63 ∧ round_up_to_power_of_two n = 2 ^ e.
Proof.
  unfold word. intros Hn. unfold round_up_to_power_of_two. set (m := if n =? 0 then 1 else n).
  set (x := wrap (m * 2 - 1)).
  assert (Hx : 0 < x < 2 ^ 64).
  { unfold x, wrap. assert (Hodd : (m * 2 - 1) mod 2 ^ 64 ≠ 0).
    { intros [q Hq]%Z.mod_divide; lia. }
    pose proof (Z.mod_pos_bound (m * 2 - 1) (2 ^ 64)). lia. }
  rewrite machine_log2_spec by (unfold word; lia). exists (Z.log2 x).
  pose proof (Z.log2_nonneg x).
  assert (Z.log2 x < 64) by (apply Z.log2_lt_pow2; lia). split; [lia|].
  rewrite Z.shiftl_1_l. unfold wrap. apply Z.mod_small.
  assert (2 ^ Z.log2 x ≤ 2 ^ 63) by (apply Z.pow_le_mono_r; lia).
  pose proof (Z.pow_pos_nonneg 2 (Z.log2 x)). lia.
Qed.

Lemma inv_rehash t (n : Z) (ps : list pc) r :
  word n → inv (System t ps r) → inv (System (rehash n t) ps r).
Proof.
  intros Hn H. unfold rehash. destruct (Z.ltb_spec (my_bucket_count t) n) as [Hlt|]; [|done].
  destruct H as [Hc Hsg Hbk Hfr Hmd Hth Hrt Hu Hel Hsz]; simpl in *.
  constructor; simpl; try done. by apply round_up_spec.
Qed.

Lemma step_made σ σ' : step σ σ' → (nodes_made (tbl σ) ≤ nodes_made (tbl σ'))%nat.
Proof.
  intros [| p l1 l2 t' p' _ Ha | |n _]; simpl; try done; [|unfold rehash; by destruct (_ <? n)].
  assert (Htry : ∀ prev new c t t1 ok, try_insert prev new c t = Some (t1, ok) → nodes_made t1 = nodes_made t).
  { intros prev new c t t1 ok (x & _ & Hx)%bind_Some. by case_decide; simplify_eq/=. }
  destruct p as [|o|o [|b rest]|o rest|o todo d prev|o todo d prev nxt|o [|b rest] i|k new prev|
    k new prev curr|k i|k i sz|k i sz cur|k seen curr|o i ins]; simpl in Ha; try done.
  - by case_match; simplify_eq.
  - repeat case_match; simplify_eq/=; lia.
  - by case_match; simplify_eq/=.
  - by apply bind_Some in Ha as (? & _ & [= <- <-]).
  - destruct nxt as [j|].
    + apply bind_Some in Ha as (n & _ & Ha). repeat case_match; simplify_eq; try done.
      apply bind_Some in Ha as ([t1 ok] & Ht%Htry & [= <- <-]). lia.
    + apply bind_Some in Ha as ([t1 ok] & Ht%Htry & [= <- <-]). lia.
  - by simplify_eq/=.
  - by apply bind_Some in Ha as (? & _ & [= <- <-]).
  - assert (Hins : (let '(t1, n1) := ready (tbl σ) k new in
      '(t2, ok) ← try_insert prev n1 curr t1;
      Some (t2, if ok : bool then PSize k (ident n1) else PSearch k (Some n1) prev)) = Some (t', p') →
      (nodes_made (tbl σ) ≤ nodes_made t')%nat).
    { destruct (ready (tbl σ) k new) as [t1 n1] eqn:Er. intros ([t2 ok] & Ht%Htry & [= <- <-])%bind_Some.
      unfold ready, create_node in Er. destruct new; simplify_eq/=; lia. }
    destruct curr as [j|]; [|by apply Hins]. apply bind_Some in Ha as (n & _ & Ha).
    repeat (case_match; simplify_eq; try done). by apply Hins.
  - by simplify_eq/=.
  - by simplify_eq/=.
  - unfold adjust_table_size in Ha. by case_match; simplify_eq/=.
  - unfold internal_find in Ha. destruct curr as [i|]; [|by simplify_eq]. apply bind_Some in Ha as (n & _ & Ha).
    repeat case_match; simplify_eq; try done. by apply bind_Some in Ha as (? & _ & [= <- <-]).
Qed.

Lemma inv_step σ σ' : within_load (Z.of_nat (nodes_made (tbl σ'))) → step σ σ' → inv σ → inv σ'.
Proof.
  intros Hm Hs. destruct σ as [t ps r].
  destruct Hs as [o l1 l2 E|p l1 l2 t' p' E Ha|o i ins l1 l2 E|n Hn]; simpl in *; try rewrite E; intros H.
  - by apply inv_begin.
  - by eapply inv_advance.
  - by apply inv_return.
  - by apply inv_rehash.
Qed.

Lemma inv_init_system bucket_count (n : nat) : word bucket_count → inv (init bucket_count n).
Proof.
  intros Hb.
  assert (Ho : replicate n Idle ≫= owned = []) by (clear; by induction n).
  assert (Hpe : replicate n Idle ≫= pending = []) by (clear; by induction n).
  assert (Hun : zsum uncounted (replicate n Idle) = 0) by (clear; by induction n).
  constructor; simpl; rewrite ?Ho, ?Hpe.
  - split_and!; [apply NoDup_singleton|by apply Forall_singleton|by repeat constructor|done].
  - intros b i. simpl. by rewrite lookup_empty.
  - by apply round_up_spec.
  - apply NoDup_singleton.
  - apply Forall_singleton. simpl. lia.
  - by apply Forall_replicate.
  - constructor.
  - intros _. constructor.
  - done.
  - by rewrite Hun.
Qed.

Lemma reachable_table_inv bucket_count (n : nat) σ :
  word bucket_count → rtc step (init bucket_count n) σ →
  within_load (Z.of_nat (nodes_made (tbl σ))) → inv σ.
Proof.
  intros Hb Hr. pattern σ. eapply rtc_ind_r; [intros _; by apply inv_init_system| |exact Hr].
  intros y z _ Hs IH Hm. pose proof (step_made _ _ Hs). eapply inv_step; [done..|].
  apply IH. eapply within_load_le; [|exact Hm]. lia.
Qed.

(** *** No thread gets stuck: every pointer it follows is in the list *)
Lemma next_total l i P : NoDup (ident <$> l) → on_chain l i P → is_Some (next l i).
Proof.
  intros Hnd (a & n & b & -> & <- & _)%on_chain_decomp. rewrite next_decomp by done. by eexists.
Qed.

Lemma try_insert_total prev new c t P :
  NoDup (ident <$> chain t) → on_chain (chain t) prev P → is_Some (try_insert prev new c t).
Proof.
  intros Hnd Hp. destruct (next_total _ _ _ Hnd Hp) as [x Hx]. unfold try_insert. rewrite Hx.
  simpl. case_decide; by eexists.
Qed.

Lemma clear_on_chain k i l : clear_upto k i l → on_chain l i (λ _, True).
Proof. intros (a & n & b & -> & <- & _). by apply decomp_on_chain. Qed.

Definition waiting (p : pc) : bool :=
  match p with Idle | PResult _ _ _ => true | _ => false end.

Lemma advance_total σ p : inv σ → p ∈ threads σ → waiting p = false → is_Some (advance (tbl σ) p).
Proof.
  intros [(Hnd & _) _ Hbk _ _ Hth _ _ _ _] Hp Hw. apply (proj1 (Forall_forall _ _) Hth) in Hp.
  assert (Hat : ∀ i, i ∈ ident <$> chain (tbl σ) → ∃ n, node_at (chain (tbl σ)) i = Some n).
  { intros i Hi. destruct (link_node_at _ _ Hi Hnd) as (n & ? & _). by exists n. }
  destruct p as [|o|o [|b rest]|o rest|o todo d prev|o todo d prev nxt|o [|b rest] i|k new prev|
    k new prev curr|k i|k i sz|k i sz cur|k seen curr|o i ins]; simpl in *; try done; try (by eexists).
  - destruct Hbk as (e & He & ->). pose proof (Z.pow_pos_nonneg 2 e).
    rewrite (proj2 (Z.eqb_neq _ _)) by lia. by eexists.
  - tauto.
  - repeat case_match; by eexists.
  - destruct Hp as (_ & _ & _ & Hp). destruct (next_total _ _ _ Hnd Hp) as [x ->]. by eexists.
  - destruct Hp as (_ & _ & _ & Hp & Hl).
    destruct (try_insert_total prev d nxt _ _ Hnd Hp) as [[t1 ok] ->]. simpl.
    destruct nxt as [i|]; [|by eexists]. destruct (Hat i (Hl i eq_refl)) as [n ->]. simpl.
    repeat case_match; by eexists.
  - by destruct Hp as (_ & [] & _).
  - destruct Hp as [_ Hp%clear_on_chain]. destruct (next_total _ _ _ Hnd Hp) as [x ->]. by eexists.
  - destruct Hp as (_ & Hp%clear_on_chain & Hc).
    assert (Hins : is_Some (let '(t1, n1) := ready (tbl σ) k new in
      '(t2, ok) ← try_insert prev n1 curr t1;
      Some (t2, if ok : bool then PSize k (ident n1) else PSearch k (Some n1) prev))).
    { destruct (ready (tbl σ) k new) as [t1 n1] eqn:Er.
      assert (E : chain t1 = chain (tbl σ)) by (unfold ready, create_node in Er; destruct new; by simplify_eq).
      rewrite <- E in Hnd, Hp. destruct (try_insert_total prev n1 curr _ _ Hnd Hp) as [[t2 ok] ->]. by eexists. }
    destruct curr as [i|]; [|done]. destruct (Hc i eq_refl) as (n & Hn & <- & _).
    destruct (Hat (ident n)) as [m ->]; [by apply list_elem_of_fmap_2|]. simpl.
    repeat (case_match; try by eexists). done.
  - destruct curr as [i|]; [|by eexists]. destruct Hp as [Hl _]. destruct (Hat i (Hl i eq_refl)) as [n Hn].
    unfold internal_find. rewrite Hn. simpl. repeat (case_match; try by eexists).
    apply node_at_Some in Hn as (a & b & E & <-). rewrite E in *. rewrite next_decomp by done. by eexists.
Qed.

(** C14: Concurrent [insert], [find] and [rehash] on an unordered container, in
    every interleaving of any number of threads.  The list stays sorted by order
    key.  Its elements are exactly those for which an [insert] reported success,
    or is about to; a container with unique keys holds no key twice, so of the
    competing inserts of a key exactly one succeeds; any result points to an
    element with the key that was asked for; and a [find] that reports absence
    was begun before the key was in the container.  No thread ever follows a
    pointer out of the list or takes a remainder modulo zero.  Once all
    operations have returned, [size] is the number of elements.  Any initial and
    any requested number of buckets is allowed; what is assumed is that the
    number of nodes ever made is less than [2^64] and at most [2^62] times the
    maximal load factor, which the code does not check. *)
Theorem unordered_linearizable bucket_count (n : nat) σ :
  word bucket_count → rtc step (init bucket_count n) σ →
  within_load (Z.of_nat (nodes_made (tbl σ))) →
  StronglySorted before (chain (tbl σ)) ∧
  elements (tbl σ) ≡ₚ omap added (returned σ) ++ (threads σ ≫= pending) ∧
  (allow_multimapping = false → NoDup (elements (tbl σ))) ∧
  (∀ o i ins, (o, i, ins) ∈ returned σ →
     match i, o with
     | Some i, _ => on_chain (chain (tbl σ)) i (λ m, value m = Some (key_of o))
     | None, Find _ seen => seen = false
     | None, Insert _ => False
     end) ∧
  (∀ p, p ∈ threads σ → waiting p = false → is_Some (advance (tbl σ) p)) ∧
  (Forall (λ p, p = Idle) (threads σ) →
     elements (tbl σ) ≡ₚ omap added (returned σ) ∧ my_size (tbl σ) = Z.of_nat (length (elements (tbl σ)))).
Proof.
  intros Hb Hr Hm. pose proof (reachable_table_inv _ _ _ Hb Hr Hm) as H.
  pose proof H as [(_ & _ & Hs & _) _ _ _ _ _ Hrt Hu Hel Hsz].
  split_and!; [done..| | |].
  - intros o i ins Hin. by apply (proj1 (Forall_forall _ _) Hrt) in Hin.
  - intros p. by apply advance_total.
  - intros Hidle. assert (threads σ ≫= pending = [] ∧ zsum uncounted (threads σ) = 0) as [Hp Hz].
    { clear -Hidle. induction Hidle as [|p ps -> _ [IH1 IH2]]; [done|]. rewrite bind_cons, zsum_cons, IH1, IH2. done. }
    rewrite Hp, app_nil_r in Hel. split; [done|lia].
Qed.

(** *** Runs *)
Inductive event := Begin (i : nat) (o : op) | Go (i : nat) | Return (i : nat).

Definition set_thread (i : nat) (p : pc) (ps : list pc) : list pc := <[i := p]> ps.

Definition exec (e : event) (σ : system) : option system :=
  match e with
  | Begin i o =>
      p ← threads σ !! i;
      match p with
      | Idle => Some (System (tbl σ) (set_thread i (begin o (tbl σ)) (threads σ)) (returned σ))
      | _ => None
      end
  | Go i =>
      p ← threads σ !! i;
      '(t', p') ← advance (tbl σ) p;
      Some (System t' (set_thread i p' (threads σ)) (returned σ))
  | Return i =>
      p ← threads σ !! i;
      match p with
      | PResult o j ins => Some (System (tbl σ) (set_thread i Idle (threads σ)) (returned σ ++ [(o, j, ins)]))
      | _ => None
      end
  end.

Fixpoint run (es : list event) (σ : system) : option system :=
  match es with
  | [] => Some σ
  | e :: es => σ' ← exec e σ; run es σ'
  end.

Lemma set_thread_decomp (i : nat) (p p' : pc) (ps : list pc) :
  ps !! i = Some p → ∃ l1 l2 : list pc, ps = l1 ++ p :: l2 ∧ set_thread i p' ps = l1 ++ p' :: l2.
Proof.
  intros Hi. exists (take i ps), (drop (S i) ps). split; [by rewrite take_drop_middle|].
  apply insert_take_drop. by eapply lookup_lt_Some.
Qed.

Lemma exec_step e σ σ' : exec e σ = Some σ' → step σ σ'.
Proof.
  destruct e as [i o|i|i]; simpl; intros (p & Hp & H)%bind_Some.
  - destruct p; try done. injection H as <-.
    destruct (set_thread_decomp i _ (begin o (tbl σ)) _ Hp) as (l1 & l2 & E & ->). by apply step_begin.
  - apply bind_Some in H as ([t' p'] & Ha & [= <-]).
    destruct (set_thread_decomp i _ p' _ Hp) as (l1 & l2 & E & ->). by eapply step_advance.
  - destruct p; try done. injection H as <-.
    destruct (set_thread_decomp i _ Idle _ Hp) as (l1 & l2 & E & ->). by apply step_return.
Qed.

Lemma run_events es σ σ' : run es σ = Some σ' → rtc step σ σ'.
Proof.
  revert σ. induction es as [|e es IH]; simpl; intros σ; [intros [= ->]; constructor|].
  intros (σ1 & H1%exec_step & H2%IH)%bind_Some. by eapply rtc_l.
Qed.
End table.
End Table.

(** Two threads insert the key 13 at the same time, a third looks for it. *)
Module UnorderedExamples.
Import Table.

Definition hash_Z (k : Z) : Z := wrap k.
Lemma hash_Z_word k : word (hash_Z k).
Proof. apply Z.mod_pos_bound. lia. Qed.

(** Thread 0 has found its place when thread 1 inserts; its compare-exchange
    fails, it searches again and finds the element. *)
Definition race : list (event (K := Z)) :=
  [Begin 0 (Insert 13); Begin 1 (Insert 13)] ++
  replicate 15 (Go 0) ++ replicate 7 (Go 1) ++ [Return 1; Begin 2 (Find 13 false)] ++
  replicate 3 (Go 0) ++ [Return 0] ++ replicate 4 (Go 2) ++ [Return 2].

Definition dummy1 : node (K := Z) := Node 1 0x8000000000000000 None.
Definition dummy5 : node (K := Z) := Node 2 0xA000000000000000 None.
Definition element13 : node (K := Z) := Node 3 0xB000000000000001 (Some 13).
Definition raced : system (K := Z) :=
  System (Tbl [my_head; dummy1; dummy5; element13] {[0 := 0%nat; 1 := 1%nat; 5 := 2%nat]} 1 8 5)
    [Idle; Idle; Idle]
    [(Insert 13, Some 3%nat, true); (Insert 13, Some 3%nat, false); (Find 13 true, Some 3%nat, false)].

Lemma raced_reachable : rtc (step hash_Z false 4 1) (init 8 3) raced.
Proof. apply (run_events _ _ _ _ race). vm_compute. reflexivity. Qed.

Lemma unordered_linearizable_witness :
  rtc (step hash_Z false 4 1) (init 8 3) raced ∧ elements (tbl raced) ≡ₚ [13] ∧ my_size (tbl raced) = 1.
Proof.
  destruct (unordered_linearizable hash_Z false 4 1 hash_Z_word 8 3 raced ltac:(unfold word; lia)
    raced_reachable ltac:(by vm_compute)) as (_ & _ & _ & _ & _ & H).
  destruct H as [H1 H2]; [repeat constructor|].
  split; [exact raced_reachable|split; [exact H1|exact H2]].
Defined.

(** One thread inserts [k] and returns. *)
Fixpoint finish (fuel : nat) (σ : system (K := Z)) : option (system (K := Z)) :=
  match fuel, threads σ with
  | S fuel, [PResult _ _ _] => exec hash_Z false 0 1 (Return 0) σ
  | S fuel, _ => σ' ← exec hash_Z false 0 1 (Go 0) σ; finish fuel σ'
  | O, _ => None
  end.
Fixpoint insert_all (ks : list Z) (σ : system (K := Z)) : option (system (K := Z)) :=
  match ks with
  | [] => Some σ
  | k :: ks =>
      σ1 ← exec hash_Z false 0 1 (Begin 0 (Insert k)) σ;
      σ2 ← finish 200 σ1;
      insert_all ks σ2
  end.

Lemma finish_reachable fuel σ σ' :
  finish fuel σ = Some σ' → rtc (step hash_Z false 0 1) σ σ'.
Proof.
  revert σ. induction fuel as [|fuel IH]; intros σ; [done|]. cbn [finish].
  repeat case_match; try (intros Hx%exec_step; by apply rtc_once);
    intros (σ1 & Ha%exec_step & Hb%IH)%bind_Some; by eapply rtc_l.
Qed.

Lemma insert_all_reachable ks σ σ' :
  insert_all ks σ = Some σ' → rtc (step hash_Z false 0 1) σ σ'.
Proof.
  revert σ. induction ks as [|k ks IH]; intros σ; cbn [insert_all]; [intros [= ->]; constructor|].
  intros (σ1 & H1%exec_step & (σ2 & H2%finish_reachable & H3%IH)%bind_Some)%bind_Some.
  eapply rtc_l; [exact H1|]. by etrans.
Qed.

(** [max_load_factor] accepts 0, but then every insertion doubles the number of
    buckets: after 61 insertions into a default container it has wrapped to 0,
    and the next operation computes a remainder modulo 0. *)
Theorem zero_load_factor_divides_by_zero :
  ∃ σ, rtc (step hash_Z false 0 1) (init initial_bucket_count 1) σ ∧
    threads σ = [PBucket (Insert 61)] ∧ length (elements (tbl σ)) = 61%nat ∧
    my_bucket_count (tbl σ) = 0 ∧ advance hash_Z false 0 1 (tbl σ) (PBucket (Insert 61)) = None.
Proof.
  assert (H : ∃ σ, (σ1 ← insert_all (Z.of_nat <$> seq 0 61) (init initial_bucket_count 1);
                    exec hash_Z false 0 1 (Begin 0 (Insert 61)) σ1) = Some σ ∧
    threads σ = [PBucket (Insert 61)] ∧ length (elements (tbl σ)) = 61%nat ∧
    my_bucket_count (tbl σ) = 0 ∧ advance hash_Z false 0 1 (tbl σ) (PBucket (Insert 61)) = None).
  { vm_compute. eexists. split; [reflexivity|]. by split_and!. }
  destruct H as (σ & (σ1 & H1%insert_all_reachable & H2%exec_step)%bind_Some & Hrest).
  exists σ. split; [|exact Hrest]. by eapply rtc_r.
Qed.
End UnorderedExamples.
