(* ===== verification/Monitor.v ===== *)
(** * The concurrent monitor

    The wait queue on which threads sleep until a condition may have changed:
    under the mutexes with sleeping ([wait_on_address]), the arenas and the
    bounded queues.  Source: src/tbb/concurrent_monitor.h ([wait_node],
    [sleep_node], [concurrent_monitor_base]) and src/tbb/address_waiter.cpp.

    A thread has one [sleep_node], with a binary semaphore, and is in the middle
    of [wait] or of one of the notifications.  Every access to shared memory is
    a step; the sections under [my_mutex] are one step each.  What the predicate
    of [wait] answers is left open. *)

From S2P Require Import Prelude.
From stdpp Require Import base numbers relations list.
From Stdlib Require Import ZArith Lia.
Local Open Scope Z_scope.

Module Monitor.
Section monitor.
(** The context by which notifications choose among the waiters. *)
Context {C : Type}.

(** [wait_node] and [sleep_node]; the semaphore counts its tokens. *)
Record wait_node := WaitNode {
  my_context : C;
  my_is_in_list : bool;
  my_initialized : bool;
  my_skipped_wakeup : bool;
  my_aborted : bool;
  my_epoch : Z;
  sema : Z;
}.
Definition fresh_node (ctx : C) : wait_node := WaitNode ctx false false false false 0 0.

(** Which waiters a notification takes: [notify_all], [notify(predicate)],
    [notify_one], [notify_one_relaxed(predicate)], [abort_all]. *)
Inductive selection :=
  | All
  | Where (predicate : C → bool)
  | One
  | OneWhere (predicate : C → bool)
  | Abort.

(** What to do after [cancel_wait]: prepare again, or leave [wait]. *)
Inductive after := Again | Leave.

Inductive pc :=
  | Idle
  | WPrepare                             (* prepare_wait *)
  | WPump                                (* reset(): before P *)
  | WInsert                              (* before the section under my_mutex *)
  | WCheck                               (* before the predicate *)
  | WCommit                              (* commit_wait: before the load of my_epoch *)
  | WSleep                               (* before P *)
  | WCancel (a : after)                  (* cancel_wait *)
  | WCancelLock (a : after)              (* before its section under my_mutex *)
  | WDestroy                             (* destructor of sleep_node: before P *)
  | NEmpty (s : selection)               (* before my_waitset.empty() *)
  | NLock (s : selection)                (* before the section under my_mutex *)
  | NSignal (aborted : bool) (l : list nat).   (* before the notify() of the nodes taken *)

Record monitor := Mon {
  my_waitset : list nat;
  epoch : Z;
  threads : list (wait_node * pc);
}.

Definition set_list (b : bool) (n : wait_node) : wait_node :=
  WaitNode (my_context n) b (my_initialized n) (my_skipped_wakeup n) (my_aborted n) (my_epoch n) (sema n).
Definition set_skipped (b : bool) (n : wait_node) : wait_node :=
  WaitNode (my_context n) (my_is_in_list n) (my_initialized n) b (my_aborted n) (my_epoch n) (sema n).
Definition set_node_epoch (e : Z) (n : wait_node) : wait_node :=
  WaitNode (my_context n) (my_is_in_list n) (my_initialized n) (my_skipped_wakeup n) (my_aborted n) e (sema n).
Definition set_sema (t : Z) (n : wait_node) : wait_node :=
  WaitNode (my_context n) (my_is_in_list n) (my_initialized n) (my_skipped_wakeup n) (my_aborted n) (my_epoch n) t.
Definition set_aborted (n : wait_node) : wait_node :=
  WaitNode (my_context n) (my_is_in_list n) (my_initialized n) (my_skipped_wakeup n) true (my_epoch n) (sema n).
Definition init_node (n : wait_node) : wait_node :=
  WaitNode (my_context n) (my_is_in_list n) true (my_skipped_wakeup n) (my_aborted n) (my_epoch n) 0.

(** The nodes of the wait set that a notification takes, in the order in which
    it signals them: [notify_relaxed] goes through the set from its back. *)
Definition satisfies (predicate : C → bool) (m : monitor) (i : nat) : Prop :=
  match threads m !! i with Some (n, _) => predicate (my_context n) = true | None => False end.
#[global] Instance satisfies_dec P m i : Decision (satisfies P m i).
Proof. unfold satisfies. destruct (threads m !! i) as [[n ?]|]; apply _. Defined.
Definition notify_relaxed (P : C → bool) (m : monitor) : list nat :=
  filter (satisfies P m) (reverse (my_waitset m)).
Definition notify_one (m : monitor) : list nat := option_list (head (my_waitset m)).
Definition notify_one_where (P : C → bool) (m : monitor) : list nat :=
  option_list (head (filter (satisfies P m) (reverse (my_waitset m)))).
Definition notify_all (m : monitor) : list nat := my_waitset m.
Definition abort_all (m : monitor) : list nat := my_waitset m.
Definition taken (s : selection) (m : monitor) : list nat :=
  match s with
  | All => notify_all m
  | Abort => abort_all m
  | Where P => notify_relaxed P m
  | One => notify_one m
  | OneWhere P => notify_one_where P m
  end.

Definition unlist (l : list nat) (ts : list (wait_node * pc)) : list (wait_node * pc) :=
  imap (λ i th, if decide (i ∈ l) then (set_list false th.1, th.2) else th) ts.

Definition go (i : nat) (n : wait_node) (p : pc) (m : monitor) : monitor :=
  Mon (my_waitset m) (epoch m) (<[i := (n, p)]> (threads m)).

Definition leave (a : after) : pc :=
  match a with Again => WPrepare | Leave => Idle end.

(** *** The operations of a waiter, up to their next access to shared memory *)

(** [prepare_wait]: [init] of a new node, or [reset] of one with a skipped wake-up. *)
Definition prepare_wait (i : nat) (n : wait_node) (m : monitor) : monitor :=
  if my_initialized n then
    if my_skipped_wakeup n then go i (set_skipped false n) WPump m else go i n WInsert m
  else go i (init_node n) WInsert m.
Definition reset_pump (i : nat) (n : wait_node) (m : monitor) : monitor :=
  go i (set_sema (sema n - 1) n) WInsert m.
(** The section of [prepare_wait] under [my_mutex]. *)
Definition enter_waitset (i : nat) (n : wait_node) (m : monitor) : monitor :=
  Mon (my_waitset m ++ [i]) (epoch m)
    (<[i := (set_node_epoch (epoch m) (set_list true n), WCheck)]> (threads m)).
(** [guarded_call] of the predicate of [wait]. *)
Definition guarded_call (i : nat) (n : wait_node) (result : bool) (m : monitor) : monitor :=
  go i n (if result then WCancel Leave else WCommit) m.
Definition commit_wait (i : nat) (n : wait_node) (m : monitor) : monitor :=
  go i n (if decide (my_epoch n = epoch m) then WSleep else WCancel Again) m.
Definition sleep_wait (i : nat) (n : wait_node) (m : monitor) : monitor :=
  go i (set_sema (sema n - 1) n) Idle m.
Definition cancel_wait (i : nat) (n : wait_node) (a : after) (m : monitor) : monitor :=
  go i (set_skipped true n) (if my_is_in_list n then WCancelLock a else leave a) m.
(** The section of [cancel_wait] under [my_mutex]. *)
Definition cancel_locked (i : nat) (n : wait_node) (a : after) (m : monitor) : monitor :=
  if my_is_in_list n then
    Mon (filter (λ j, j ≠ i) (my_waitset m)) (epoch m)
      (<[i := (set_skipped false (set_list false n), leave a)]> (threads m))
  else go i n (leave a) m.
Definition destroy_node (i : nat) (n : wait_node) (ctx : C) (m : monitor) : monitor :=
  if my_initialized n && my_skipped_wakeup n then go i n WDestroy m else go i (fresh_node ctx) Idle m.

(** *** The operations of a notification *)
Definition check_empty (i : nat) (n : wait_node) (s : selection) (m : monitor) : monitor :=
  go i n (if decide (my_waitset m = []) then Idle else NLock s) m.
(** The section under [my_mutex]. *)
Definition take_nodes (i : nat) (n : wait_node) (s : selection) (m : monitor) : monitor :=
  Mon (filter (λ j, j ∉ taken s m) (my_waitset m)) ((epoch m + 1) mod 2 ^ 32)
    (<[i := (n, NSignal (match s with Abort => true | _ => false end) (taken s m))]>
       (unlist (taken s m) (threads m))).
(** The loop over the nodes taken: [notify] of the first one. *)
Definition notify_node (i : nat) (n : wait_node) (ab : bool) (j : nat) (l : list nat)
    (nj : wait_node) (pj : pc) (m : monitor) : monitor :=
  Mon (my_waitset m) (epoch m)
    (<[i := (n, NSignal ab l)]>
       (<[j := (set_sema (sema nj + 1) (if ab then set_aborted nj else nj), pj)]> (threads m))).

(** One step of thread [i]. *)
Inductive step (m : monitor) (i : nat) : monitor → Prop :=
  | step_wait n :
      threads m !! i = Some (n, Idle) → step m i (go i n WPrepare m)
  | step_prepare n :
      threads m !! i = Some (n, WPrepare) → step m i (prepare_wait i n m)
  | step_pump n :
      threads m !! i = Some (n, WPump) → 0 < sema n → step m i (reset_pump i n m)
  | step_insert n :
      threads m !! i = Some (n, WInsert) → step m i (enter_waitset i n m)
  | step_check n result :
      threads m !! i = Some (n, WCheck) → step m i (guarded_call i n result m)
  | step_commit n :
      threads m !! i = Some (n, WCommit) → step m i (commit_wait i n m)
  | step_sleep n :
      threads m !! i = Some (n, WSleep) → 0 < sema n → step m i (sleep_wait i n m)
  | step_cancel n a :
      threads m !! i = Some (n, WCancel a) → step m i (cancel_wait i n a m)
  | step_cancel_lock n a :
      threads m !! i = Some (n, WCancelLock a) → step m i (cancel_locked i n a m)
  | step_destroy n ctx :
      threads m !! i = Some (n, Idle) → step m i (destroy_node i n ctx m)
  | step_destroy_pump n ctx :
      threads m !! i = Some (n, WDestroy) → 0 < sema n → step m i (go i (fresh_node ctx) Idle m)
  | step_notify n s :
      threads m !! i = Some (n, Idle) → step m i (go i n (NEmpty s) m)
  | step_empty n s :
      threads m !! i = Some (n, NEmpty s) → step m i (check_empty i n s m)
  | step_lock n s :
      threads m !! i = Some (n, NLock s) → step m i (take_nodes i n s m)
  | step_signal n ab j l nj pj :
      threads m !! i = Some (n, NSignal ab (j :: l)) → threads m !! j = Some (nj, pj) → i ≠ j →
      my_initialized nj = true → step m i (notify_node i n ab j l nj pj m)
  | step_done n ab :
      threads m !! i = Some (n, NSignal ab []) → step m i (go i n Idle m).

Definition steps (m m' : monitor) : Prop := ∃ i, step m i m'.
Definition init (ctxs : list C) : monitor := Mon [] 0 ((λ ctx, (fresh_node ctx, Idle)) <$> ctxs).

(** ** The invariant *)

(** How often the thread is still to signal [j]; by all threads together. *)
Definition occ (j : nat) (p : pc) : Z :=
  match p with NSignal _ l => Z.of_nat (length (filter (λ k, k = j) l)) | _ => 0 end.
Definition signals (j : nat) (ts : list (wait_node * pc)) : Z := zsum (λ th, occ j th.2) ts.

(** The places where the node may be in the wait set, and those where the thread
    will still consume a token that was sent to it. *)
Definition listed (p : pc) : bool :=
  match p with WCheck | WCommit | WSleep | WCancel _ | WCancelLock _ => true | _ => false end.
Definition waiting (p : pc) : bool :=
  match p with WPump | WCheck | WCommit | WSleep | WCancel _ => true | _ => false end.
Definition owed (n : wait_node) (p : pc) : bool :=
  negb (my_is_in_list n) && (waiting p || my_skipped_wakeup n).
(** The node in use. *)
Definition live (p : pc) : bool :=
  match p with
  | WPump | WInsert | WCheck | WCommit | WSleep | WCancel _ | WCancelLock _ | WDestroy => true
  | _ => false
  end.

Definition thread_ok (i : nat) (inset : Prop) (sig : Z) (n : wait_node) (p : pc) : Prop :=
  (inset ↔ my_is_in_list n = true) ∧
  (my_is_in_list n = true → listed p = true) ∧
  (live p = true ∨ my_skipped_wakeup n = true → my_initialized n = true) ∧
  match p with
  | WPump | WInsert | WCheck | WCommit | WSleep | WCancel _ => my_skipped_wakeup n = false
  | WCancelLock _ | WDestroy => my_skipped_wakeup n = true
  | NSignal _ l => i ∉ l
  | _ => True
  end ∧
  0 ≤ sema n ∧ sema n + sig = if owed n p then 1 else 0.

Record inv (m : monitor) : Prop := {
  inv_nodup : NoDup (my_waitset m);
  inv_waitset : ∀ i, i ∈ my_waitset m → is_Some (threads m !! i);
  inv_signals : ∀ i, signals i (threads m) ≠ 0 → is_Some (threads m !! i);
  inv_thread : ∀ i n p, threads m !! i = Some (n, p) →
    thread_ok i (i ∈ my_waitset m) (signals i (threads m)) n p;
}.

Lemma lookup_insert_is_Some_list {A} (l : list A) (i j : nat) x :
  is_Some (<[i := x]> l !! j) ↔ is_Some (l !! j).
Proof. rewrite !lookup_lt_is_Some, length_insert. done. Qed.

(** *** Sums *)
Lemma signal_occ_nonneg j p : 0 ≤ occ j p.
Proof. destruct p; simpl; lia. Qed.

Lemma signals_nonneg j ts : 0 ≤ signals j ts.
Proof. apply zsum_nonneg, Forall_forall. intros [n p] _. apply signal_occ_nonneg. Qed.

Lemma signals_insert j i n p n' p' ts :
  ts !! i = Some (n, p) → signals j (<[i := (n', p')]> ts) = signals j ts - occ j p + occ j p'.
Proof. intros Hi. unfold signals. by rewrite (zsum_insert _ _ _ _ _ Hi). Qed.

Lemma signals_unlist j l ts : signals j (unlist l ts) = signals j ts.
Proof.
  unfold signals, unlist.
  assert (H : ∀ f : nat → wait_node * pc → wait_node * pc,
    (∀ i th, (f i th).2 = th.2) → zsum (λ th, occ j th.2) (imap f ts) = zsum (λ th, occ j th.2) ts).
  { intros f. revert f. induction ts as [|th ts IH]; intros f Hf; [done|].
    rewrite imap_cons, !zsum_cons, Hf, (IH (f ∘ S)); [done|]. intros k. apply Hf. }
  apply H. intros i th. by case_decide.
Qed.

Lemma occ_le_signals j i n p ts : ts !! i = Some (n, p) → occ j p ≤ signals j ts.
Proof.
  intros Hi. apply (zsum_member (λ th, occ j th.2) ts (n, p)).
  - apply Forall_forall. intros [? ?] _. apply signal_occ_nonneg.
  - by eapply list_elem_of_lookup_2.
Qed.

(** *** A step that changes only the thread itself *)
Lemma go_inv m i n p n' p' :
  inv m → threads m !! i = Some (n, p) → (∀ j, occ j p = 0) → (∀ j, occ j p' = 0) →
  thread_ok i (i ∈ my_waitset m) (signals i (threads m)) n' p' → inv (go i n' p' m).
Proof.
  intros [Hnd Hws Hsg Hth] Hi Ho Ho' Hok.
  assert (Hs : ∀ j, signals j (<[i := (n', p')]> (threads m)) = signals j (threads m)).
  { intros j. rewrite (signals_insert _ _ _ _ _ _ _ Hi), Ho, Ho'. lia. }
  constructor; simpl; [done| | |].
  - intros j Hj. apply Hws in Hj. by rewrite lookup_insert_is_Some_list.
  - intros j. rewrite Hs. intros Hj. apply Hsg in Hj. by rewrite lookup_insert_is_Some_list.
  - intros j nj pj. rewrite Hs. destruct (decide (i = j)) as [<-|Hne].
    + rewrite list_lookup_insert_eq by (by eapply lookup_lt_Some). by intros [= <- <-].
    + rewrite list_lookup_insert_ne by done. apply Hth.
Qed.

Ltac thread_solve :=
  unfold thread_ok, owed in *; simpl in *; destruct_and?;
  repeat match goal with
  | n : wait_node |- _ => destruct n as [? [] [] [] ? ? ?]; simpl in *
  end;
  split_and?; intuition (first [done|lia|congruence]).

Lemma listed_occ p : listed p = true → ∀ j, occ j p = 0.
Proof. by destruct p. Qed.

Lemma step_local_inv m i n p n' p' :
  inv m → threads m !! i = Some (n, p) → (∀ j, occ j p = 0) → (∀ j, occ j p' = 0) →
  (∀ inset sig, 0 ≤ sig → thread_ok i inset sig n p → thread_ok i inset sig n' p') → inv (go i n' p' m).
Proof.
  intros H Hi Ho Ho' Hok. eapply go_inv; [done..|]. apply Hok; [apply signals_nonneg|].
  by apply (inv_thread _ H).
Qed.

Lemma inv_insert_step m i n :
  inv m → threads m !! i = Some (n, WInsert) →
  inv (Mon (my_waitset m ++ [i]) (epoch m)
         (<[i := (set_node_epoch (epoch m) (set_list true n), WCheck)]> (threads m))).
Proof.
  intros H Hi. pose proof (inv_thread _ H _ _ _ Hi) as Hok. destruct H as [Hnd Hws Hsg Hth].
  assert (Hnot : i ∉ my_waitset m).
  { intros Hin. destruct Hok as ((Hl & _) & Hlist & _). specialize (Hlist (Hl Hin)). done. }
  assert (Hs : ∀ j, signals j (<[i := (set_node_epoch (epoch m) (set_list true n), WCheck)]> (threads m)) =
    signals j (threads m)).
  { intros j. rewrite (signals_insert _ _ _ _ _ _ _ Hi). simpl. lia. }
  constructor; simpl.
  - apply NoDup_app. split_and!; [done| |apply NoDup_singleton].
    intros x Hx ->%list_elem_of_singleton. done.
  - intros j. rewrite lookup_insert_is_Some_list, elem_of_app, list_elem_of_singleton.
    intros [Hj| ->]; [by apply Hws|by rewrite Hi].
  - intros j. rewrite Hs, lookup_insert_is_Some_list. apply Hsg.
  - intros j nj pj. rewrite Hs. destruct (decide (i = j)) as [<-|Hne].
    + rewrite list_lookup_insert_eq by (by eapply lookup_lt_Some). intros [= <- <-].
      assert (Hin : i ∈ my_waitset m ++ [i] ↔ True) by (rewrite elem_of_app, list_elem_of_singleton; tauto).
      pose proof (signals_nonneg i (threads m)). thread_solve.
    + rewrite list_lookup_insert_ne by done. intros Hj. pose proof (Hth _ _ _ Hj) as Hokj.
      unfold thread_ok in *. split; [|apply Hokj]. destruct Hokj as (<- & _).
      rewrite elem_of_app, list_elem_of_singleton. split; [by intros [?| ->]|auto].
Qed.

Lemma inv_cancel_lock_step m i n a :
  inv m → threads m !! i = Some (n, WCancelLock a) → my_is_in_list n = true →
  inv (Mon (filter (λ j, j ≠ i) (my_waitset m)) (epoch m)
         (<[i := (set_skipped false (set_list false n), leave a)]> (threads m))).
Proof.
  intros H Hi Hin. pose proof (inv_thread _ H _ _ _ Hi) as Hok. destruct H as [Hnd Hws Hsg Hth].
  assert (Hs : ∀ j, signals j (<[i := (set_skipped false (set_list false n), leave a)]> (threads m)) =
    signals j (threads m)).
  { intros j. rewrite (signals_insert _ _ _ _ _ _ _ Hi). destruct a; simpl; lia. }
  constructor; simpl.
  - by apply NoDup_filter.
  - intros j [_ Hj]%list_elem_of_filter. rewrite lookup_insert_is_Some_list. by apply Hws.
  - intros j. rewrite Hs, lookup_insert_is_Some_list. apply Hsg.
  - intros j nj pj. rewrite Hs. destruct (decide (i = j)) as [<-|Hne].
    + rewrite list_lookup_insert_eq by (by eapply lookup_lt_Some). intros [= <- <-].
      assert (Hout : i ∈ filter (λ j, j ≠ i) (my_waitset m) ↔ False) by (rewrite list_elem_of_filter; tauto).
      destruct a; thread_solve.
    + rewrite list_lookup_insert_ne by done. intros Hj. pose proof (Hth _ _ _ Hj) as Hokj.
      unfold thread_ok in *. split; [|apply Hokj]. destruct Hokj as (<- & _).
      rewrite list_elem_of_filter. intuition congruence.
Qed.

Lemma thread_ok_ext i (P Q : Prop) sig n p : (P ↔ Q) → thread_ok i P sig n p → thread_ok i Q sig n p.
Proof. unfold thread_ok. intros HPQ (H & ?). split; [tauto|done]. Qed.

Lemma thread_ok_taken i (P : Prop) sig n p :
  P → thread_ok i P sig n p → thread_ok i False (sig + 1) (set_list false n) p.
Proof.
  intros HP ([Hin _] & Hl & Hi & Hsk & Hs & Hsum). specialize (Hin HP). specialize (Hl Hin).
  unfold thread_ok, owed in *. simpl. rewrite Hin in Hsum. simpl in Hsum.
  split_and!; [done..|]. destruct p; try done; simpl in *; try lia. rewrite Hsk. lia.
Qed.

Lemma thread_ok_notify i P sig n s ab T :
  i ∉ T → thread_ok i P sig n (NLock s) → thread_ok i P sig n (NSignal ab T).
Proof. unfold thread_ok, owed. simpl. intuition done. Qed.

Lemma unlist_lookup l (ts : list (wait_node * pc)) j :
  unlist l ts !! j = (λ th, if decide (j ∈ l) then (set_list false th.1, th.2) else th) <$> ts !! j.
Proof. unfold unlist. by rewrite list_lookup_imap. Qed.

Lemma taken_waitset s m j : j ∈ taken s m → j ∈ my_waitset m.
Proof.
  assert (Hhead : ∀ l : list nat, j ∈ option_list (head l) → j ∈ l).
  { intros [|x l]; simpl; [done|]. rewrite list_elem_of_singleton. intros ->. by constructor. }
  destruct s as [|P| |P|]; simpl; [done| |apply Hhead| |done].
  - unfold notify_relaxed. rewrite list_elem_of_filter, elem_of_reverse. tauto.
  - intros Hj%Hhead. rewrite list_elem_of_filter, elem_of_reverse in Hj. tauto.
Qed.

Lemma taken_nodup s m : NoDup (my_waitset m) → NoDup (taken s m).
Proof.
  intros Hnd. assert (Hhead : ∀ l : list nat, NoDup (option_list (head l))).
  { intros [|x l]; simpl; [constructor|apply NoDup_singleton]. }
  destruct s as [|P| |P|]; simpl; [done| |apply Hhead|apply Hhead|done].
  apply NoDup_filter. by rewrite reverse_Permutation.
Qed.

Lemma occ_nodup ab l j : NoDup l → occ j (NSignal ab l) = if decide (j ∈ l) then 1 else 0.
Proof.
  simpl. induction 1 as [|x l Hx Hnd IH]; simpl; [done|]. rewrite filter_cons.
  destruct (decide (x = j)) as [->|Hne].
  - rewrite (decide_True (P := j ∈ j :: l)) by constructor. simpl.
    rewrite decide_False in IH by done. lia.
  - rewrite IH. apply decide_ext. rewrite elem_of_cons. intuition congruence.
Qed.

Lemma inv_lock_step m i n s :
  inv m → threads m !! i = Some (n, NLock s) →
  inv (Mon (filter (λ j, j ∉ taken s m) (my_waitset m)) ((epoch m + 1) mod 2 ^ 32)
         (<[i := (n, NSignal (match s with Abort => true | _ => false end) (taken s m))]>
            (unlist (taken s m) (threads m)))).
Proof.
  intros H Hi. pose proof (inv_thread _ H _ _ _ Hi) as Hok. destruct H as [Hnd Hws Hsg Hth].
  pose proof (taken_waitset s m) as Hsub. pose proof (taken_nodup s m Hnd) as HndT.
  set (T := taken s m) in *. set (ab := match s with Abort => true | _ => false end).
  assert (HiT : i ∉ T).
  { intros Hin%Hsub. destruct Hok as ((Hl & _) & Hlist & _). by specialize (Hlist (Hl Hin)). }
  assert (Hi' : unlist T (threads m) !! i = Some (n, NLock s)).
  { rewrite unlist_lookup, Hi. simpl. by rewrite decide_False. }
  assert (Hs : ∀ j, signals j (<[i := (n, NSignal ab T)]> (unlist T (threads m))) =
    signals j (threads m) + if decide (j ∈ T) then 1 else 0).
  { intros j. rewrite (signals_insert _ _ _ _ _ _ _ Hi'), signals_unlist, occ_nodup by done. simpl. lia. }
  assert (Hsome : ∀ j, is_Some (<[i := (n, NSignal ab T)]> (unlist T (threads m)) !! j) ↔ is_Some (threads m !! j)).
  { intros j. by rewrite lookup_insert_is_Some_list, unlist_lookup, fmap_is_Some. }
  constructor; simpl.
  - by apply NoDup_filter.
  - intros j [_ Hj]%list_elem_of_filter. apply Hsome. by apply Hws.
  - intros j. rewrite Hs, Hsome. case_decide as Hj; [intros _; by apply Hws, Hsub|].
    rewrite Z.add_0_r. apply Hsg.
  - intros j nj pj. rewrite Hs. destruct (decide (i = j)) as [<-|Hne].
    + rewrite list_lookup_insert_eq by (by eapply lookup_lt_Some). intros [= <- <-].
      rewrite decide_False, Z.add_0_r by done. eapply thread_ok_ext; [|by apply (thread_ok_notify _ _ _ _ s)].
      rewrite list_elem_of_filter. tauto.
    + rewrite list_lookup_insert_ne, unlist_lookup by done. intros ([nj' pj'] & Hj & Heq)%fmap_Some.
      pose proof (Hth _ _ _ Hj) as Hokj. simpl in Heq.
      assert (Hf : j ∈ filter (λ j, j ∉ T) (my_waitset m) ↔ j ∈ my_waitset m ∧ j ∉ T).
      { rewrite list_elem_of_filter. tauto. }
      destruct (decide (j ∈ T)) as [HjT|HjT]; simplify_eq Heq; intros -> ->.
      * pose proof (Hsub _ HjT) as Hjw. eapply thread_ok_ext; [|by apply (thread_ok_taken j _ _ nj' pj' Hjw)].
        tauto.
      * rewrite Z.add_0_r. eapply thread_ok_ext; [|exact Hokj]. tauto.
Qed.

Lemma signal_occ_cons k ab j l : occ k (NSignal ab (j :: l)) = occ k (NSignal ab l) + if decide (j = k) then 1 else 0.
Proof. simpl. rewrite filter_cons. case_decide; simpl; lia. Qed.

Lemma thread_ok_signalled j P sig n p ab :
  thread_ok j P sig n p →
  thread_ok j P (sig - 1) (set_sema (sema n + 1) (if ab : bool then set_aborted n else n)) p.
Proof.
  intros (H1 & H2 & H3 & H4 & H5 & H6). unfold thread_ok, owed in *.
  destruct ab; simpl; split_and!; try done; lia.
Qed.

Lemma inv_signal_step m i n ab j l nj pj :
  inv m → threads m !! i = Some (n, NSignal ab (j :: l)) → threads m !! j = Some (nj, pj) → i ≠ j →
  inv (Mon (my_waitset m) (epoch m)
         (<[i := (n, NSignal ab l)]>
            (<[j := (set_sema (sema nj + 1) (if ab : bool then set_aborted nj else nj), pj)]> (threads m)))).
Proof.
  intros [Hnd Hws Hsg Hth] Hi Hj Hne. set (nj' := set_sema _ _).
  assert (Hi' : <[j := (nj', pj)]> (threads m) !! i = Some (n, NSignal ab (j :: l))).
  { by rewrite list_lookup_insert_ne. }
  assert (Hs : ∀ k, signals k (<[i := (n, NSignal ab l)]> (<[j := (nj', pj)]> (threads m))) =
    signals k (threads m) - if decide (j = k) then 1 else 0).
  { intros k. rewrite (signals_insert _ _ _ _ _ _ _ Hi'), (signals_insert _ _ _ _ _ _ _ Hj), signal_occ_cons. lia. }
  constructor; simpl; [done| | |].
  - intros k Hk. rewrite !lookup_insert_is_Some_list. by apply Hws.
  - intros k. rewrite Hs, !lookup_insert_is_Some_list. case_decide as Hjk; [by rewrite <- Hjk, Hj|].
    rewrite Z.sub_0_r. apply Hsg.
  - intros k nk pk. rewrite Hs. destruct (decide (i = k)) as [<-|Hik].
    + rewrite list_lookup_insert_eq by (by eapply lookup_lt_Some). intros [= <- <-].
      rewrite decide_False, Z.sub_0_r by done. pose proof (Hth _ _ _ Hi) as (H1 & H2 & H3 & H4 & H5 & H6).
      unfold thread_ok. split_and!; try done. intros Hin. apply H4. rewrite elem_of_cons. tauto.
    + rewrite list_lookup_insert_ne by done. destruct (decide (j = k)) as [<-|Hjk].
      * rewrite list_lookup_insert_eq by (by eapply lookup_lt_Some). intros [= <- <-].
        by apply thread_ok_signalled, Hth.
      * rewrite list_lookup_insert_ne, Z.sub_0_r by done. apply Hth.
Qed.

Ltac local_step H Hi :=
  eapply step_local_inv; [exact H|exact Hi|done|done|]; clear H Hi; intros; thread_solve.

Lemma monitor_step_inv m i m' : inv m → step m i m' → inv m'.
Proof.
  intros H Hstep. destruct Hstep as [n Hi|n Hi|n Hi Hpos|n Hi|n result Hi|n Hi|n Hi Hpos|n a Hi|n a Hi
    |n ctx Hi|n ctx Hi Hpos|n s Hi|n s Hi|n s Hi|n ab j l nj pj Hi Hj Hne Hinit|n ab Hi];
    unfold prepare_wait, commit_wait, cancel_wait, cancel_locked, destroy_node, check_empty.
  - local_step H Hi.
  - destruct (my_initialized n) eqn:E1; [destruct (my_skipped_wakeup n) eqn:E2|]; local_step H Hi.
  - local_step H Hi.
  - by apply inv_insert_step.
  - destruct result; local_step H Hi.
  - case_decide as E; clear E; local_step H Hi.
  - local_step H Hi.
  - destruct (my_is_in_list n) eqn:E; [|destruct a]; local_step H Hi.
  - destruct (my_is_in_list n) eqn:E; [by apply inv_cancel_lock_step|]. destruct a; local_step H Hi.
  - destruct (my_initialized n && my_skipped_wakeup n) eqn:E; local_step H Hi.
  - local_step H Hi.
  - local_step H Hi.
  - case_decide as E; clear E; local_step H Hi.
  - by apply inv_lock_step.
  - by apply inv_signal_step.
  - local_step H Hi.
Qed.

Lemma monitor_init_inv ctxs : inv (init ctxs).
Proof.
  assert (Hs : ∀ j, signals j (threads (init ctxs)) = 0).
  { intros j. unfold init, signals. simpl. induction ctxs as [|ctx ctxs IH]; [done|].
    rewrite fmap_cons, zsum_cons, IH. done. }
  constructor; simpl.
  - constructor.
  - by intros i ?%elem_of_nil.
  - intros i Hi. by rewrite Hs in Hi.
  - intros i n p. rewrite list_lookup_fmap. intros (ctx & Hi & [= -> ->])%fmap_Some.
    rewrite Hs. unfold thread_ok, owed. simpl. rewrite elem_of_nil. intuition done.
Qed.

Lemma monitor_reachable_inv ctxs m : rtc steps (init ctxs) m → inv m.
Proof.
  intros Hr. pattern m. eapply rtc_ind_r; [apply monitor_init_inv| |exact Hr].
  intros m1 m2 _ [i Hstep] IH. by eapply monitor_step_inv.
Qed.

(** The wake-up of [j] has been issued: its semaphore has the token, or a
    notification has taken the node and is about to signal it. *)
Definition woken (m : monitor) (j : nat) (n : wait_node) : Prop :=
  0 < sema n ∨ ∃ k nk ab l, threads m !! k = Some (nk, NSignal ab l) ∧ j ∈ l.

Lemma signals_pos j ts : 0 < signals j ts → ∃ k nk ab l, ts !! k = Some (nk, NSignal ab l) ∧ j ∈ l.
Proof.
  unfold signals. induction ts as [|[n p] ts IH]; [done|]. rewrite zsum_cons. simpl. intros Hpos.
  destruct (decide (0 < occ j p)) as [Ho|Ho].
  - destruct p as [| | | | | | | | | | | |ab l]; simpl in Ho; try lia. exists 0%nat, n, ab, l.
    split; [done|]. destruct (filter (λ k, k = j) l) as [|x l'] eqn:E; simpl in Ho; [lia|].
    assert (Hx : x ∈ filter (λ k, k = j) l) by (rewrite E; constructor).
    by apply list_elem_of_filter in Hx as [-> ?].
  - destruct IH as (k & H); [lia|]. by exists (S k).
Qed.

Lemma owed_woken m i n p : inv m → threads m !! i = Some (n, p) → owed n p = true → woken m i n.
Proof.
  intros H Hi Ho. pose proof (inv_thread _ H _ _ _ Hi) as (_ & _ & _ & _ & Hs & Hsum). rewrite Ho in Hsum.
  destruct (decide (0 < sema n)); [by left|]. right. apply signals_pos. lia.
Qed.

(** The thread has entered the wait set and has not yet returned from P. *)
Definition in_wait (p : pc) : bool := match p with WCheck | WCommit | WSleep => true | _ => false end.

(** The waiters that a notification must wake, all of them. *)
Definition selects (s : selection) (ctx : C) : bool :=
  match s with All | Abort => true | Where P => P ctx | One | OneWhere _ => false end.

(** The step at which thread [i] decides whom to wake: it finds the set empty,
    or takes the nodes under the lock. *)
Definition decides (i : nat) (s : selection) (m m' : monitor) : Prop :=
  step m i m' ∧ ∃ n, threads m !! i = Some (n, NLock s) ∨
    (threads m !! i = Some (n, NEmpty s) ∧ threads m' !! i = Some (n, Idle)).

Lemma in_wait_woken m j n p :
  inv m → threads m !! j = Some (n, p) → in_wait p = true → j ∉ my_waitset m → woken m j n.
Proof.
  intros H Hj Hw Hnot. eapply owed_woken; [done..|].
  pose proof (inv_thread _ H _ _ _ Hj) as ([_ Hin] & _). unfold owed.
  destruct (my_is_in_list n); [by destruct Hnot; apply Hin|]. by destruct p.
Qed.

Lemma decides_waitset i s m m' j nj pj :
  decides i s m m' → threads m' !! j = Some (nj, pj) → in_wait pj = true →
  selects s (my_context nj) = true → j ∉ my_waitset m'.
Proof.
  intros [Hstep (n & Hd)] Hj Hw Hsel. destruct Hd as [Hi|[Hi Hi']]; inversion Hstep; simplify_eq.
  - simpl in *. destruct (decide (i = j)) as [<-|Hne].
    { rewrite list_lookup_insert_eq in Hj; [by simplify_eq|].
      unfold unlist. rewrite length_imap. by eapply lookup_lt_Some. }
    rewrite list_lookup_insert_ne, unlist_lookup in Hj by done.
    apply fmap_Some in Hj as ([n' p'] & Hj & Heq). rewrite list_elem_of_filter. intros [Hnot Hin].
    assert (Hctx : my_context nj = my_context n') by (destruct (decide _); by simplify_eq/=).
    apply Hnot. rewrite Hctx in Hsel. destruct s; simpl in *; try done.
    unfold notify_relaxed. apply list_elem_of_filter. unfold satisfies. rewrite Hj, elem_of_reverse. done.
  - simpl in *. rewrite list_lookup_insert_eq in Hi' by (by eapply lookup_lt_Some).
    case_decide as He; [|by simplify_eq]. rewrite He. apply not_elem_of_nil.
Qed.

Lemma signal_target m i n ab j l :
  inv m → threads m !! i = Some (n, NSignal ab (j :: l)) →
  ∃ nj pj, threads m !! j = Some (nj, pj) ∧ i ≠ j ∧ my_initialized nj = true ∧ sema nj = 0.
Proof.
  intros H Hi. pose proof (occ_le_signals j _ _ _ _ Hi) as Hle. rewrite signal_occ_cons, decide_True in Hle by done.
  pose proof (signal_occ_nonneg j (NSignal ab l)).
  destruct (inv_signals _ H j) as [[nj pj] Hj]; [lia|].
  pose proof (inv_thread _ H _ _ _ Hi) as (_ & _ & _ & Hnot & _).
  pose proof (inv_thread _ H _ _ _ Hj) as (_ & _ & Hinit & _ & Hs & Hsum).
  exists nj, pj. split_and!; [done| | |].
  - intros ->. apply Hnot. by constructor.
  - apply Hinit. destruct (owed nj pj) eqn:Ho; [|lia]. unfold owed in Ho.
    destruct pj; simpl in Ho |- *; auto; right; by destruct (my_is_in_list nj), (my_skipped_wakeup nj).
  - destruct (owed nj pj); lia.
Qed.

(** C15: in every execution of waits and notifications by any number of threads,
    (1) a thread blocked on its semaphore, in [wait], in the [reset] of a skipped
    wake-up or in the destructor of its node, is still in the wait set (only in
    [wait]) or its wake-up has been issued; (2) from the moment at which a
    [notify_all], [notify(predicate)] or [abort_all] has looked at the wait set,
    every waiter that had entered the set, and whose context the predicate
    accepts, has its wake-up issued; (3) a node about to be signalled is alive and
    its binary semaphore has no token, so that no signal is lost. *)
Theorem monitor_no_lost_wakeup (ctxs : list C) (m : monitor) (Hr : rtc steps (init ctxs) m) :
  (∀ i n p, threads m !! i = Some (n, p) → p = WSleep ∨ p = WPump ∨ p = WDestroy →
     (p = WSleep ∧ i ∈ my_waitset m) ∨ woken m i n) ∧
  (∀ i s m', decides i s m m' → ∀ j nj pj, threads m' !! j = Some (nj, pj) →
     in_wait pj = true → selects s (my_context nj) = true → woken m' j nj) ∧
  (∀ i n ab j l, threads m !! i = Some (n, NSignal ab (j :: l)) →
     ∃ nj pj, threads m !! j = Some (nj, pj) ∧ i ≠ j ∧ my_initialized nj = true ∧ sema nj = 0).
Proof.
  apply monitor_reachable_inv in Hr as H. split_and!.
  - intros i n p Hi Hp. pose proof (inv_thread _ H _ _ _ Hi) as ([_ Hin] & Hl & _ & Hsk & _).
    destruct (decide (i ∈ my_waitset m)) as [Hw|Hw].
    + left. destruct Hp as [->|[->| ->]]; [done| |]; apply (inv_thread _ H _ _ _ Hi) in Hw; by apply Hl in Hw.
    + right. eapply owed_woken; [done..|]. unfold owed. destruct (my_is_in_list n); [by destruct Hw; apply Hin|].
      destruct Hp as [->|[->| ->]]; simpl in *; [done..|by rewrite Hsk].
  - intros i s m' Hd j nj pj Hj Hw Hsel. assert (inv m') by (destruct Hd; by eapply monitor_step_inv).
    eapply in_wait_woken; [done..|]. by eapply decides_waitset.
  - intros i n ab j l. by apply signal_target.
Qed.

(** ** Executions *)

(** What a thread does next, where it has the choice. *)
Inductive choice := Go | Destroy (ctx : C) | Notify (s : selection) | Answer (result : bool).

Definition advance (i : nat) (c : choice) (m : monitor) : option monitor :=
  '(n, p) ← threads m !! i;
  match p, c with
  | Idle, Go => Some (go i n WPrepare m)
  | Idle, Destroy ctx => Some (destroy_node i n ctx m)
  | Idle, Notify s => Some (go i n (NEmpty s) m)
  | WPrepare, Go => Some (prepare_wait i n m)
  | WPump, Go => if decide (0 < sema n) then Some (reset_pump i n m) else None
  | WInsert, Go => Some (enter_waitset i n m)
  | WCheck, Answer result => Some (guarded_call i n result m)
  | WCommit, Go => Some (commit_wait i n m)
  | WSleep, Go => if decide (0 < sema n) then Some (sleep_wait i n m) else None
  | WCancel a, Go => Some (cancel_wait i n a m)
  | WCancelLock a, Go => Some (cancel_locked i n a m)
  | WDestroy, Destroy ctx => if decide (0 < sema n) then Some (go i (fresh_node ctx) Idle m) else None
  | NEmpty s, Go => Some (check_empty i n s m)
  | NLock s, Go => Some (take_nodes i n s m)
  | NSignal ab (j :: l), Go =>
      '(nj, pj) ← threads m !! j;
      if decide (i ≠ j ∧ my_initialized nj = true) then Some (notify_node i n ab j l nj pj m) else None
  | NSignal ab [], Go => Some (go i n Idle m)
  | _, _ => None
  end.

Fixpoint execute (trace : list (nat * choice)) (m : monitor) : option monitor :=
  match trace with
  | [] => Some m
  | (i, c) :: trace => advance i c m ≫= execute trace
  end.

Lemma advance_step i c m m' : advance i c m = Some m' → step m i m'.
Proof.
  unfold advance. destruct (threads m !! i) as [[n p]|] eqn:Hi; [|done]. simpl.
  destruct p as [| | | | | | |a|a| |s|s|ab [|j l]], c; intros H; try done; simplify_eq/=;
    try (by econstructor).
  1-3: case_decide; simplify_eq; by econstructor.
  destruct (threads m !! j) as [[nj pj]|] eqn:Hj; [|done]. simplify_eq/=. case_decide as Hne; [|done].
  destruct Hne. simplify_eq. by eapply step_signal.
Qed.

Lemma execute_steps trace m m' : execute trace m = Some m' → rtc steps m m'.
Proof.
  revert m. induction trace as [|[i c] trace IH]; intros m; simpl; [by intros [= ->]|].
  intros (m1 & E & H)%bind_Some. apply (rtc_l _ _ m1); [|by apply IH].
  exists i. by apply (advance_step i c).
Qed.
End monitor.
Arguments wait_node : clear implicits.
Arguments selection : clear implicits.
Arguments pc : clear implicits.
Arguments monitor : clear implicits.
Arguments choice : clear implicits.
End Monitor.

(** ** Waiting on an address (address_waiter.cpp) *)
Module AddressWaiter.
Import Monitor.

(** [address_context]: the address and the context of the waiter. *)
Definition address_context : Type := Z * Z.

Definition num_address_waiters : Z := Z.shiftl 2 10.

(** The index in [address_waiter_table]. *)
Definition get_address_waiter (address : Z) : Z :=
  Z.lxor (Z.shiftr address 5) address mod num_address_waiters.

(** [notify_by_address], [notify_by_address_one], [notify_by_address_all]: the
    notification on the monitor of the address. *)
Definition notify_by_address (address target_context : Z) : selection address_context :=
  Where (λ ctx, bool_decide (ctx.1 = address) && bool_decide (ctx.2 = target_context)).
Definition notify_by_address_one (address : Z) : selection address_context :=
  OneWhere (λ ctx, bool_decide (ctx.1 = address)).
Definition notify_by_address_all (address : Z) : selection address_context :=
  Where (λ ctx, bool_decide (ctx.1 = address)).

Lemma get_address_waiter_range address : 0 ≤ get_address_waiter address < 2048.
Proof. apply Z.mod_pos_bound. done. Qed.
End AddressWaiter.

Module MonitorExamples.
Import Monitor AddressWaiter.

(** Threads 0 and 1 wait at the addresses 64 and 96 of one monitor, thread 2
    notifies address 96 while thread 1 is between its insertion and its P. *)
Definition scenario : list (nat * choice address_context) :=
  ((λ c, (0%nat, c)) <$> [Go; Go; Go; Answer false; Go]) ++
  ((λ c, (1%nat, c)) <$> [Go; Go; Go; Answer false]) ++
  ((λ c, (2%nat, c)) <$> [Notify (notify_by_address 96 7); Go]).
Definition contexts : list address_context := [(64, 7); (96, 7); (0, 0)].

Lemma monitor_no_lost_wakeup_witness :
  ∃ m m' n0 n1, execute scenario (init contexts) = Some m ∧ advance 2 Go m = Some m' ∧
    threads m' !! 0%nat = Some (n0, WSleep) ∧ 0%nat ∈ my_waitset m' ∧
    threads m' !! 1%nat = Some (n1, WCommit) ∧ woken m' 1 n1.
Proof.
  destruct (execute scenario (init contexts)) as [m|] eqn:E; [|vm_compute in E; discriminate E].
  pose proof (monitor_no_lost_wakeup contexts m (execute_steps _ _ _ E)) as (_ & H & _).
  destruct (advance 2 Go m) as [m'|] eqn:E'; [|vm_compute in E; injection E as <-; vm_compute in E'; discriminate E'].
  specialize (H 2%nat (notify_by_address 96 7) m').
  pose proof (advance_step _ _ _ _ E') as Hstep.
  destruct (threads m !! 2%nat) as [[n2 p2]|] eqn:E2; [|vm_compute in E; injection E as <-; vm_compute in E2; discriminate E2].
  assert (Hd : decides 2 (notify_by_address 96 7) m m').
  { split; [done|]. exists n2. left. vm_compute in E. injection E as <-. vm_compute in E2.
    injection E2 as <- <-. reflexivity. }
  specialize (H Hd 1%nat). vm_compute in E. injection E as <-. vm_compute in E'. injection E' as <-.
  do 4 eexists. split; [reflexivity|]. split; [reflexivity|]. split; [reflexivity|].
  split; [vm_compute; constructor|]. split; [reflexivity|]. by eapply H.
Defined.
End MonitorExamples.
