(* ===== verification/RwMutex.v ===== *)
(** * The reader-writer mutexes

    [spin_rw_mutex] (include/oneapi/tbb/spin_rw_mutex.h) and [rw_mutex]
    (include/oneapi/tbb/rw_mutex.h), which sleeps on its address.  Both keep one
    word: bit 0 says that a writer holds the lock, bit 1 that a writer wants it,
    the bits above count readers.

    A thread is at a program point; every access to the word is a step, chosen
    among the threads at will.  [next] is one step of one thread. *)

From S2P Require Import Prelude.
From stdpp Require Import base numbers relations list.
From Stdlib Require Import ZArith Lia.
Local Open Scope Z_scope.

Module RwState.

Definition WRITER : Z := 1.
Definition WRITER_PENDING : Z := 2.
Definition READERS : Z := Z.lnot (Z.lor WRITER WRITER_PENDING).
Definition ONE_READER : Z := 4.
Definition BUSY : Z := Z.lor WRITER READERS.

(** The condition of the loop of [upgrade]. *)
Definition may_upgrade (s : Z) : bool :=
  bool_decide (Z.land s READERS = ONE_READER) || bool_decide (Z.land s WRITER_PENDING = 0).

(** The word, from its three parts. *)
Definition word (w p : bool) (c : Z) : Z := Z.b2z w + 2 * Z.b2z p + 4 * c.

Lemma word_testbit k c n :
  0 ≤ k < 4 → 0 ≤ n → Z.testbit (k + 4 * c) n = if decide (n < 2) then Z.testbit k n else Z.testbit c (n - 2).
Proof.
  intros Hk Hn. case_decide.
  - rewrite <- (Z.mod_pow2_bits_low (k + 4 * c) 2), <- (Z.mod_pow2_bits_low k 2) by lia.
    f_equal. change (2 ^ 2) with 4. by rewrite Z.mul_comm, Z.mod_add.
  - replace n with ((n - 2) + 2) at 1 by lia. rewrite <- Z.shiftr_spec by lia. f_equal.
    rewrite Z.shiftr_div_pow2 by lia. change (2 ^ 2) with 4.
    rewrite Z.mul_comm, Z.div_add, Z.div_small by lia. lia.
Qed.

Lemma low_high k c : 0 ≤ k < 4 → Z.lor k (4 * c) = k + 4 * c.
Proof.
  intros Hk. apply Z.bits_inj'. intros n Hn. rewrite Z.lor_spec, (word_testbit k) by lia.
  rewrite <- (Z.add_0_l (4 * c)), (word_testbit 0), Z.bits_0 by lia. case_decide; [by rewrite orb_false_r|].
  rewrite <- (Z.add_0_r k), <- (Z.mul_0_r 4), (word_testbit k 0), decide_False by lia. by rewrite Z.bits_0.
Qed.

Lemma b2z_low w p : 0 ≤ Z.b2z w + 2 * Z.b2z p < 4.
Proof. destruct w, p; simpl; lia. Qed.

(** The operations on the word. *)
Lemma word_low w p c m : 0 ≤ m < 4 → Z.land (word w p c) m = Z.land (Z.b2z w + 2 * Z.b2z p) m.
Proof.
  intros Hm. unfold word. rewrite <- (low_high _ c (b2z_low w p)), Z.land_lor_distr_l.
  replace (Z.land (4 * c) m) with 0; [by rewrite Z.lor_0_r|].
  symmetry. apply Z.bits_inj'. intros n Hn. rewrite Z.land_spec, Z.bits_0.
  rewrite <- (Z.add_0_l (4 * c)), (word_testbit 0), Z.bits_0 by lia. case_decide; [done|].
  rewrite <- (Z.add_0_r m), <- (Z.mul_0_r 4), (word_testbit m 0), decide_False, Z.bits_0 by lia.
  apply andb_false_r.
Qed.

Lemma word_writer w p c : Z.land (word w p c) WRITER = Z.b2z w.
Proof. rewrite word_low by (unfold WRITER; lia). by destruct w, p. Qed.
Lemma word_pending w p c : Z.land (word w p c) WRITER_PENDING = 2 * Z.b2z p.
Proof. rewrite word_low by (unfold WRITER_PENDING; lia). by destruct w, p. Qed.
Lemma word_has_writer w p c : Z.land (word w p c) (Z.lor WRITER WRITER_PENDING) = Z.b2z w + 2 * Z.b2z p.
Proof. rewrite word_low by (by split). by destruct w, p. Qed.

Lemma word_readers w p c : Z.land (word w p c) READERS = 4 * c.
Proof.
  unfold word. rewrite <- (low_high _ c (b2z_low w p)), Z.land_lor_distr_l.
  replace (Z.land (Z.b2z w + 2 * Z.b2z p) READERS) with 0 by (by destruct w, p).
  rewrite Z.lor_0_l. apply Z.bits_inj'. intros n Hn. rewrite Z.land_spec.
  unfold READERS. rewrite Z.lnot_spec by done. change (Z.lor WRITER WRITER_PENDING) with (3 + 4 * 0).
  rewrite <- (Z.add_0_l (4 * c)), !word_testbit, !Z.bits_0 by lia. case_decide; [done|apply andb_true_r].
Qed.

Lemma word_readers_pending w p c : Z.land (word w p c) (Z.lor READERS WRITER_PENDING) = word false p c.
Proof.
  rewrite Z.land_lor_distr_r, word_readers, word_pending, Z.lor_comm.
  rewrite low_high by (destruct p; simpl; lia). unfold word. by destruct p.
Qed.

Lemma word_busy w p c : Z.land (word w p c) BUSY = 0 ↔ w = false ∧ c = 0.
Proof.
  unfold BUSY. rewrite Z.land_lor_distr_r, word_readers, word_writer, Z.lor_eq_0_iff.
  destruct w; simpl; intuition lia.
Qed.

Lemma word_set_pending w p c : Z.lor (word w p c) WRITER_PENDING = word w true c.
Proof.
  unfold word. rewrite <- !low_high by (apply b2z_low || (destruct w; simpl; lia)).
  rewrite <- Z.lor_assoc, (Z.lor_comm (4 * c)), Z.lor_assoc. f_equal. by destruct w, p.
Qed.

Lemma word_set_both w p c : Z.lor (Z.lor (word w p c) WRITER) WRITER_PENDING = word true true c.
Proof.
  unfold word. rewrite <- !low_high by (apply b2z_low || lia).
  rewrite <- !Z.lor_assoc, (Z.lor_comm (4 * c)), !Z.lor_assoc. f_equal. by destruct w, p.
Qed.

Lemma word_inj w p c w' p' c' : word w p c = word w' p' c' → w = w' ∧ p = p' ∧ c = c'.
Proof. unfold word. destruct w, p, w', p'; simpl; intros; split_and!; (done || lia). Qed.

(** The word against the numbers of threads that own the lock exclusively, are
    upgrading, own it shared, are about to undo an increment, are about to finish
    an upgrade, are in the loop of [lock]. *)
Definition word_ok (s W U R T F L : Z) : Prop :=
  (∃ w p, s = word w p (R + T) ∧ Z.b2z w = W + U ∧ (0 < U → p = true) ∧ (p = true → 0 < L + U)) ∧
  (0 < W → R = 0) ∧ (0 < F → R = 1).

Lemma may_upgrade_alone w pd R T U :
  may_upgrade (word w pd (R + T)) = true → (0 < U → pd = true) → 0 ≤ U < R → 0 ≤ T → U = 0.
Proof.
  unfold may_upgrade. rewrite word_readers, word_pending. intros Hl Hp HU HT.
  destruct (decide (0 < U)) as [Hpos|]; [|lia]. rewrite (Hp Hpos) in Hl.
  apply orb_true_iff in Hl as [Hl%bool_decide_eq_true|Hl%bool_decide_eq_true]; [|done].
  unfold ONE_READER in Hl. lia.
Qed.

Ltac word_case Hp HL w' p' :=
  simpl in *;
  split; [split; [exists w', p'; unfold word, WRITER, WRITER_PENDING, ONE_READER in *; simpl in *;
                  split_and!; (lia || (intros; done) || (intros; exfalso; lia) || (intros; apply Hp; lia) || (intros Hpd; specialize (HL Hpd); lia))
                 |simpl in *; split; intros; lia]|try done].
End RwState.

(** [lock] and [lock_shared] retry until they succeed, the [try_] forms give up. *)
Inductive how := Block | Try.

(** ** spin_rw_mutex *)
Module SpinRw.
Import RwState.

Inductive pc :=
  | Idle
  | LLoad (h : how)                 (* lock, try_lock: before the load *)
  | LCas (h : how) (s : Z)          (* before compare_exchange_strong *)
  | LPend                           (* before m_state |= WRITER_PENDING *)
  | Writer
  | SLoad (h : how)                 (* lock_shared, try_lock_shared: before the load *)
  | SAdd (h : how)                  (* before fetch_add *)
  | SUndo (h : how)                 (* before m_state -= ONE_READER *)
  | Reader
  | ULoad                           (* upgrade: before the load *)
  | UCas (s : Z)                    (* before compare_exchange_strong *)
  | UWait                           (* before the load that waits for the other readers *)
  | UFinish                         (* before m_state -= ONE_READER + WRITER_PENDING *)
  | URelease.                       (* slow reacquire: before unlock_shared *)

(** What a thread outside the operations calls. *)
Inductive call := Lock (h : how) | LockShared (h : how) | Unlock | UnlockShared | Upgrade | Downgrade | Run.

Definition failed (h : how) (retry : pc) : pc := match h with Block => retry | Try => Idle end.

Definition upgrade_loop (s : Z) : pc := if may_upgrade s then UCas s else URelease.

Definition next (c : call) (p : pc) (m_state : Z) : option (Z * pc) :=
  match p, c with
  | Idle, Lock h => Some (m_state, LLoad h)
  | Idle, LockShared h => Some (m_state, SLoad h)
  | LLoad h, Run =>
      Some (m_state,
        if decide (Z.land m_state BUSY = 0) then LCas h m_state
        else match h with
             | Block => if decide (Z.land m_state WRITER_PENDING = 0) then LPend else LLoad Block
             | Try => Idle
             end)
  | LCas h s, Run => Some (if decide (m_state = s) then (WRITER, Writer) else (m_state, failed h (LLoad Block)))
  | LPend, Run => Some (Z.lor m_state WRITER_PENDING, LLoad Block)
  | Writer, Unlock => Some (Z.land m_state READERS, Idle)
  | Writer, Downgrade => Some (m_state + (ONE_READER - WRITER), Reader)
  | SLoad h, Run =>
      Some (m_state, if decide (Z.land m_state (Z.lor WRITER WRITER_PENDING) = 0) then SAdd h
                     else failed h (SLoad Block))
  | SAdd h, Run =>
      Some (m_state + ONE_READER, if decide (Z.land m_state WRITER = 0) then Reader else SUndo h)
  | SUndo h, Run => Some (m_state - ONE_READER, failed h (SLoad Block))
  | Reader, UnlockShared => Some (m_state - ONE_READER, Idle)
  | Reader, Upgrade => Some (m_state, ULoad)
  | ULoad, Run => Some (m_state, upgrade_loop m_state)
  | UCas s, Run =>
      Some (if decide (m_state = s) then (Z.lor (Z.lor s WRITER) WRITER_PENDING, UWait)
            else (m_state, upgrade_loop m_state))
  | UWait, Run => Some (m_state, if decide (Z.land m_state READERS = ONE_READER) then UFinish else UWait)
  | UFinish, Run => Some (m_state - (ONE_READER + WRITER_PENDING), Writer)
  | URelease, Run => Some (m_state - ONE_READER, LLoad Block)
  | _, _ => None
  end.

Record mutex := Mutex { m_state : Z; threads : list pc }.
Definition init (n : nat) : mutex := Mutex 0 (replicate n Idle).

Definition advance (i : nat) (c : call) (m : mutex) : option mutex :=
  p ← threads m !! i;
  '(s, p') ← next c p (m_state m);
  Some (Mutex s (<[i := p']> (threads m))).
Definition step (m m' : mutex) : Prop := ∃ i c, advance i c m = Some m'.

(** The threads that own the lock: exclusively, or shared with other readers
    (a thread inside [upgrade] still does, until it releases). *)
Definition exclusive (p : pc) : bool := match p with Writer => true | _ => false end.
Definition shared (p : pc) : bool :=
  match p with Reader | ULoad | UCas _ | UWait | UFinish | URelease => true | _ => false end.
Definition upgrading (p : pc) : bool := match p with UWait | UFinish => true | _ => false end.

(** How many threads: own the lock exclusively, are upgrading, own it shared,
    are about to undo an increment, are about to finish an upgrade, are in the loop
    of [lock]. *)
Definition wr (p : pc) : Z := Z.b2z (exclusive p).
Definition up (p : pc) : Z := Z.b2z (upgrading p).
Definition rd (p : pc) : Z := Z.b2z (shared p).
Definition tr (p : pc) : Z := match p with SUndo _ => 1 | _ => 0 end.
Definition fin (p : pc) : Z := match p with UFinish => 1 | _ => 0 end.
Definition lp (p : pc) : Z := match p with LLoad Block | LCas Block _ | LPend => 1 | _ => 0 end.

Definition local_ok (p : pc) : Prop :=
  match p with LCas _ s => Z.land s BUSY = 0 | UCas s => may_upgrade s = true | _ => True end.

Record inv (m : mutex) : Prop := {
  inv_word : word_ok (m_state m) (zsum wr (threads m)) (zsum up (threads m)) (zsum rd (threads m))
    (zsum tr (threads m)) (zsum fin (threads m)) (zsum lp (threads m));
  inv_local : Forall local_ok (threads m);
}.

Lemma next_ok c p s s' p' W U R T F L :
  local_ok p → word_ok s W U R T F L →
  wr p ≤ W → up p ≤ U → rd p - up p ≤ R - U → tr p ≤ T → fin p ≤ F → up p - fin p ≤ U - F → 0 ≤ T →
  lp p ≤ L →
  next c p s = Some (s', p') →
  word_ok s' (W - wr p + wr p') (U - up p + up p') (R - rd p + rd p') (T - tr p + tr p') (F - fin p + fin p')
    (L - lp p + lp p') ∧
  local_ok p'.
Proof.
  intros Hl ((w & pd & -> & Hw & Hp & HL) & HWR & HF) HW HU HRU HT HF' HUF HT0 HL0 Hn.
  destruct p as [| []|[] s| | |h|h|h| | |s| | |], c as [ []|h'| | | | |];
    simplify_eq/=; unfold wr, up, rd in *; simpl in *.
  1-3: word_case Hp HL w pd.
  1-2: repeat case_decide; word_case Hp HL w pd.
  1-2: case_decide as Heq; simplify_eq/=; [|word_case Hp HL w pd];
    apply word_busy in Hl as [-> Hc]; simpl in Hw; word_case Hp HL true false.
  - rewrite word_set_pending. word_case Hp HL w true.
  - rewrite word_readers. destruct w; simpl in Hw; [|lia]. word_case Hp HL false false.
  - destruct w; simpl in Hw; [|lia]. word_case Hp HL false pd.
  - case_decide; [|destruct h]; word_case Hp HL w pd.
  - rewrite word_writer. case_decide as Hz; destruct w; try done; [word_case Hp HL false pd|word_case Hp HL true pd].
  - destruct h; word_case Hp HL w pd.
  - word_case Hp HL w pd.
  - word_case Hp HL w pd.
  - unfold upgrade_loop. destruct (may_upgrade (word w pd (R + T))) eqn:E; word_case Hp HL w pd.
  - case_decide as Heq; simplify_eq/=.
    2: unfold upgrade_loop; destruct (may_upgrade (word w pd (R + T))) eqn:E; word_case Hp HL w pd.
    rewrite word_set_both. rewrite (may_upgrade_alone _ _ _ _ _ Hl Hp) in * by lia. word_case Hp HL true true.
  - rewrite word_readers. unfold ONE_READER. case_decide; word_case Hp HL w pd.
  - rewrite (Hp ltac:(lia)) in *. destruct w; simpl in Hw; [|lia]. word_case Hp HL true false.
  - word_case Hp HL w pd.
Qed.

Lemma member_sums p ts : p ∈ ts →
  wr p ≤ zsum wr ts ∧ up p ≤ zsum up ts ∧ rd p - up p ≤ zsum rd ts - zsum up ts ∧ tr p ≤ zsum tr ts ∧
  fin p ≤ zsum fin ts ∧ up p - fin p ≤ zsum up ts - zsum fin ts ∧ lp p ≤ zsum lp ts.
Proof.
  intros Hp. rewrite <- !zsum_minus.
  split_and!; match goal with |- _ ≤ zsum ?f _ => apply (zsum_member f); [|done] end;
    apply Forall_forall; intros q _; destruct q as [| []|[]| | | | | | | | | | | ]; done.
Qed.

Lemma spin_step_inv m m' : inv m → step m m' → inv m'.
Proof.
  intros [Hw Hl] (i & c & Hs). unfold advance in Hs.
  destruct (threads m !! i) as [p|] eqn:Hi; [|done]. simpl in Hs.
  destruct (next c p (m_state m)) as [[s p']|] eqn:Hn; [|done]. simplify_eq/=.
  destruct (member_sums p (threads m)) as (H1 & H2 & H3 & H4 & H5 & H6 & H7); [by eapply list_elem_of_lookup_2|].
  edestruct (next_ok c p) as [Hok Hl']; [by eapply Forall_lookup_1|exact Hw|done..| |done|exact Hn|].
  { apply zsum_nonneg, Forall_forall. intros q _. by destruct q. }
  constructor; simpl; [|by apply Forall_insert].
  by rewrite !(zsum_insert _ _ _ _ _ Hi).
Qed.

Lemma spin_reachable_inv n m : rtc step (init n) m → inv m ∧ length (threads m) = n.
Proof.
  intros Hr. pattern m. eapply rtc_ind_r; [| |exact Hr].
  - split; [|apply length_replicate]. constructor; simpl; [|by apply Forall_replicate].
    rewrite !zsum_replicate. simpl. rewrite !Z.mul_0_r. split; [|lia]. by exists false, false.
  - intros m1 m2 _ Hs [H Hlen]. split; [by eapply spin_step_inv|].
    destruct Hs as (i & c & Hs). unfold advance in Hs. destruct (threads m1 !! i); [|done]. simpl in Hs.
    destruct (next c p (m_state m1)) as [[??]|]; [|done]. simplify_eq/=. by rewrite length_insert.
Qed.


(** In every execution of lock, try_lock, unlock, lock_shared,
    try_lock_shared, unlock_shared, upgrade and downgrade by any number of
    threads on a [spin_rw_mutex]: a thread that owns the lock exclusively is the
    only owner; the word is never negative and its reader count is at most the
    number of threads, so that it does not overflow; when no thread is inside an
    operation or owns the lock, the word is 0 again. *)
Theorem spin_rw_mutex_exclusion (n : nat) (m : mutex) (Hr : rtc step (init n) m) :
  (∀ i j p q, threads m !! i = Some p → threads m !! j = Some q → i ≠ j →
     exclusive p = true → exclusive q = false ∧ shared q = false) ∧
  0 ≤ m_state m < 4 * Z.of_nat n + 4 ∧
  (Forall (λ p, p = Idle) (threads m) → m_state m = 0).
Proof.
  apply spin_reachable_inv in Hr as [[((w & pd & Hs & Hw & Hp & HL) & HWR & HF) _] Hlen].
  assert (Hnn : ∀ f : pc → Z, (∀ p, 0 ≤ f p) → 0 ≤ zsum f (threads m)).
  { intros f Hf. apply zsum_nonneg, Forall_forall. auto. }
  split_and!.
  - intros i j p q Hi Hj Hne Hex. pose proof (zsum_two wr _ _ _ _ _ ltac:(by intros []) Hne Hi Hj).
    destruct (member_sums q (threads m)) as (H1 & H2 & H3 & H4 & H5 & H6 & H7); [by eapply list_elem_of_lookup_2|].
    pose proof (Hnn up ltac:(by intros [])). destruct p; try done. change (wr Writer) with 1 in *.
    assert (wr q = 0 ∧ rd q = 0) as [Hq1 Hq2].
    { unfold wr, up, rd in *. destruct w, q; simpl in *; lia. }
    by destruct q.
  - rewrite Hs. pose proof (Hnn rd ltac:(by intros [])). pose proof (Hnn tr ltac:(by intros [])).
    unfold word. destruct w, pd; simpl; lia.
  - rewrite Hs. pose proof (zsum_le_length (λ p, rd p + tr p) (threads m) ltac:(by intros [])) as Hle.
    rewrite zsum_plus, Hlen in Hle. unfold word. destruct w, pd; simpl; lia.
  - intros Hall. rewrite Hs. assert (Hz : ∀ f : pc → Z, f Idle = 0 → zsum f (threads m) = 0).
    { intros f Hf. apply zsum_all_zero. eapply Forall_impl; [exact Hall|]. by intros ? ->. }
    rewrite !Hz in * by done. destruct w, pd; try done. specialize (HL eq_refl). lia.
Qed.
End SpinRw.

(** ** rw_mutex *)
Module Rw.
Import RwState.

Definition WRITER_CONTEXT : Z := 0.
Definition READER_CONTEXT : Z := 1.

(** Where [adaptive_wait_on_address] is called, with its condition and context. *)
Inductive waiter := WLock | WShared | WUpgrade.
Definition wakeup_condition (k : waiter) (s : Z) : bool :=
  match k with
  | WLock => bool_decide (Z.land s BUSY = 0)
  | WShared => bool_decide (Z.land s (Z.lor WRITER WRITER_PENDING) = 0)
  | WUpgrade => bool_decide (Z.land s READERS = ONE_READER)
  end.
Definition context (k : waiter) : Z := match k with WShared => READER_CONTEXT | _ => WRITER_CONTEXT end.

(** Inside [adaptive_wait_on_address]: spinning; before the insertion in the wait
    set; in the set, before the condition; in the set, the condition was false.
    The flag says that a notification has taken the thread out of the set. *)
Inductive phase := Spin | Enter | Listed (woken : bool) | Asleep (woken : bool).

(** What follows a notification. *)
Inductive rest := RIdle | RLock | RShared | RReader.

Inductive pc :=
  | Idle
  | LLoad (h : how)                 (* try_lock: before the load *)
  | LCas (h : how) (s : Z)          (* before compare_exchange_strong *)
  | LCheck                          (* lock: before the load of WRITER_PENDING *)
  | LPend                           (* before m_state |= WRITER_PENDING *)
  | Wait (k : waiter) (ph : phase)
  | Writer
  | SLoad (h : how)                 (* try_lock_shared: before the load *)
  | SAdd (h : how)                  (* before fetch_add *)
  | SUndo (h : how)                 (* before m_state -= ONE_READER *)
  | Reader
  | ULoad                           (* upgrade: before the load *)
  | UCas (s : Z)                    (* before compare_exchange_strong *)
  | UWait                           (* before the load of the loop that waits for the other readers *)
  | UFinish                         (* before m_state -= ONE_READER + WRITER_PENDING *)
  | URelease                        (* slow reacquire: before unlock_shared *)
  | DLoad                           (* downgrade: before the load of WRITER_PENDING *)
  | Notify (target : option Z) (r : rest).   (* before notify_by_address; None: before notify_by_address_all *)

Inductive call := Lock (h : how) | LockShared (h : how) | Unlock | UnlockShared | Upgrade | Downgrade
  | Run | Retry.

Definition resume (r : rest) : pc :=
  match r with RIdle => Idle | RLock => LLoad Block | RShared => Wait WShared Spin | RReader => Reader end.

(** After [adaptive_wait_on_address]. *)
Definition waited (k : waiter) : pc :=
  match k with WLock => LLoad Block | WShared => SLoad Block | WUpgrade => UWait end.

(** [adaptive_wait_on_address] by what it does to the state: it spins on the
    condition for a while, then enters the wait set and tests it again before
    the thread sleeps.  [Retry]: the spin times out, or [commit_wait] finds that
    the epoch has changed and prepares again. *)
Definition wait_next (c : call) (k : waiter) (ph : phase) (s : Z) : option pc :=
  match ph, c with
  | Spin, Run => Some (if wakeup_condition k s then waited k else Wait k Spin)
  | Spin, Retry => Some (Wait k Enter)
  | Enter, Run => Some (Wait k (Listed false))
  | Listed b, Run => Some (if wakeup_condition k s then waited k else Wait k (Asleep b))
  | Asleep true, Run => Some (waited k)
  | Asleep _, Retry => Some (Wait k Enter)
  | _, _ => None
  end.

(** Whom the common end of [unlock] and [unlock_shared] notifies. *)
Definition release_target (curr_state : Z) : option Z :=
  if decide (Z.land curr_state WRITER_PENDING = 0) then None else Some WRITER_CONTEXT.

Definition upgrade_loop (s : Z) : pc := if may_upgrade s then UCas s else URelease.

(** A failed try_lock or try_lock_shared. *)
Definition lock_failed (h : how) : pc := match h with Block => LCheck | Try => Idle end.
Definition shared_failed (h : how) : rest := match h with Block => RShared | Try => RIdle end.

Definition next (c : call) (p : pc) (m_state : Z) : option (Z * pc) :=
  match p, c with
  | Idle, Lock h => Some (m_state, LLoad h)
  | Idle, LockShared h => Some (m_state, SLoad h)
  | LLoad h, Run => Some (m_state, if decide (Z.land m_state BUSY = 0) then LCas h m_state else lock_failed h)
  | LCas h s, Run => Some (if decide (m_state = s) then (WRITER, Writer) else (m_state, lock_failed h))
  | LCheck, Run =>
      Some (m_state, if decide (Z.land m_state WRITER_PENDING = 0) then LPend else Wait WLock Spin)
  | LPend, Run => Some (Z.lor m_state WRITER_PENDING, Wait WLock Spin)
  | Wait k ph, _ => p' ← wait_next c k ph m_state; Some (m_state, p')
  | Writer, Unlock =>
      let curr_state := Z.land m_state (Z.lor READERS WRITER_PENDING) in
      Some (curr_state, Notify (release_target curr_state) RIdle)
  | Writer, Downgrade => Some (m_state + (ONE_READER - WRITER), DLoad)
  | DLoad, Run =>
      Some (m_state, if decide (Z.land m_state WRITER_PENDING = 0) then Notify (Some READER_CONTEXT) RReader
                     else Reader)
  | SLoad h, Run =>
      Some (m_state, if decide (Z.land m_state (Z.lor WRITER WRITER_PENDING) = 0) then SAdd h
                     else resume (shared_failed h))
  | SAdd h, Run =>
      Some (m_state + ONE_READER,
        if decide (Z.land m_state (Z.lor WRITER WRITER_PENDING) = 0) then Reader else SUndo h)
  | SUndo h, Run => Some (m_state - ONE_READER, Notify (Some WRITER_CONTEXT) (shared_failed h))
  | Reader, UnlockShared =>
      let curr_state := m_state - ONE_READER in Some (curr_state, Notify (release_target curr_state) RIdle)
  | Reader, Upgrade => Some (m_state, ULoad)
  | ULoad, Run => Some (m_state, upgrade_loop m_state)
  | UCas s, Run =>
      Some (if decide (m_state = s) then (Z.lor (Z.lor s WRITER) WRITER_PENDING, UWait)
            else (m_state, upgrade_loop m_state))
  | UWait, Run =>
      Some (m_state, if decide (Z.land m_state READERS = ONE_READER) then UFinish else Wait WUpgrade Spin)
  | UFinish, Run => Some (m_state - (ONE_READER + WRITER_PENDING), Writer)
  | URelease, Run =>
      let curr_state := m_state - ONE_READER in Some (curr_state, Notify (release_target curr_state) RLock)
  | Notify _ r, Run => Some (m_state, resume r)
  | _, _ => None
  end.

(** The threads of the wait set that a notification concerns get their wake-up. *)
Definition covers (target : option Z) (ctx : Z) : bool :=
  match target with None => true | Some t => bool_decide (ctx = t) end.
Definition wake (target : option Z) (p : pc) : pc :=
  match p with
  | Wait k (Listed false) => if covers target (context k) then Wait k (Listed true) else p
  | Wait k (Asleep false) => if covers target (context k) then Wait k (Asleep true) else p
  | _ => p
  end.
Definition notify (p : pc) (ts : list pc) : list pc :=
  match p with Notify target _ => wake target <$> ts | _ => ts end.

Record mutex := Mutex { m_state : Z; threads : list pc }.
Definition init (n : nat) : mutex := Mutex 0 (replicate n Idle).

Definition advance (i : nat) (c : call) (m : mutex) : option mutex :=
  p ← threads m !! i;
  '(s, p') ← next c p (m_state m);
  Some (Mutex s (<[i := p']> (notify p (threads m)))).
Definition step (m m' : mutex) : Prop := ∃ i c, advance i c m = Some m'.

(** The threads that own the lock, exclusively or shared. *)
Definition exclusive (p : pc) : bool := match p with Writer => true | _ => false end.
Definition shared (p : pc) : bool :=
  match p with
  | Reader | ULoad | UCas _ | UWait | UFinish | URelease | DLoad | Notify _ RReader | Wait WUpgrade _ => true
  | _ => false
  end.
Definition upgrading (p : pc) : bool :=
  match p with UWait | UFinish | Wait WUpgrade _ => true | _ => false end.

Definition wr (p : pc) : Z := Z.b2z (exclusive p).
Definition up (p : pc) : Z := Z.b2z (upgrading p).
Definition rd (p : pc) : Z := Z.b2z (shared p).
Definition tr (p : pc) : Z := match p with SUndo _ => 1 | _ => 0 end.
Definition fin (p : pc) : Z := match p with UFinish => 1 | _ => 0 end.
Definition lp (p : pc) : Z :=
  match p with LLoad Block | LCas Block _ | LCheck | LPend | Wait WLock _ => 1 | _ => 0 end.

Definition local_ok (p : pc) : Prop :=
  match p with LCas _ s => Z.land s BUSY = 0 | UCas s => may_upgrade s = true | _ => True end.

(** A wake-up of the waiters with the context is on its way: a notification that
    concerns them is about to be sent, or a downgrade is about to test whether
    it has to notify the readers. *)
Definition pending (ctx : Z) (p : pc) : bool :=
  match p with
  | Notify target _ => covers target ctx
  | DLoad => bool_decide (ctx = READER_CONTEXT)
  | _ => false
  end.

(** A thread that sleeps, and whose wake-up has not been issued, has a reason to. *)
Definition justified (s : Z) (ts : list pc) (p : pc) : Prop :=
  match p with
  | Wait k (Asleep false) => wakeup_condition k s = false ∨ Exists (λ q, pending (context k) q = true) ts
  | _ => True
  end.

Record inv (m : mutex) : Prop := {
  inv_word : word_ok (m_state m) (zsum wr (threads m)) (zsum up (threads m)) (zsum rd (threads m))
    (zsum tr (threads m)) (zsum fin (threads m)) (zsum lp (threads m));
  inv_local : Forall local_ok (threads m);
  inv_sleep : Forall (justified (m_state m) (threads m)) (threads m);
}.

Lemma wait_next_class c k ph s p' :
  wait_next c k ph s = Some p' → let p := Wait k ph in
  wr p' = wr p ∧ up p' = up p ∧ rd p' = rd p ∧ tr p' = tr p ∧ fin p' = fin p ∧ lp p' = lp p ∧ local_ok p'.
Proof.
  destruct ph as [| |[]|[]], c; intros [= <-]; try case_match; by destruct k.
Qed.

Lemma next_wait_case c p s s' p' : next c p s = Some (s', p') →
  (∃ k ph, p = Wait k ph ∧ s' = s ∧ wait_next c k ph s = Some p') ∨ match p with Wait _ _ => False | _ => True end.
Proof.
  destruct p; simpl; auto. intros (p1 & Hk & [= <- <-])%bind_Some. left. eauto.
Qed.

Lemma next_word_ok c p s s' p' W U R T F L :
  local_ok p → word_ok s W U R T F L →
  wr p ≤ W → up p ≤ U → rd p - up p ≤ R - U → tr p ≤ T → fin p ≤ F → up p - fin p ≤ U - F → 0 ≤ T →
  lp p ≤ L →
  next c p s = Some (s', p') →
  word_ok s' (W - wr p + wr p') (U - up p + up p') (R - rd p + rd p') (T - tr p + tr p') (F - fin p + fin p')
    (L - lp p + lp p') ∧
  local_ok p'.
Proof.
  intros Hl ((w & pd & -> & Hw & Hp & HL) & HWR & HF) HW HU HRU HT HF' HUF HT0 HL0 Hn.
  destruct (next_wait_case c p _ _ _ Hn) as [(k & ph & -> & -> & Hk)|Hnw].
  { apply wait_next_class in Hk as (-> & -> & -> & -> & -> & -> & Hl'). split; [|done].
    rewrite !Z.sub_add. split; [by exists w, pd|done]. }
  destruct p as [| []|[] s| | |k ph| |h|h|h| | |s| | | | |t []], c as [ []|h'| | | | | |];
    try done; simplify_eq/=; unfold wr, up, rd in *; simpl in *.
  1-3: word_case Hp HL w pd.
  1-2: case_decide; word_case Hp HL w pd.
  1-2: case_decide as Heq; simplify_eq/=; [|word_case Hp HL w pd];
    apply word_busy in Hl as [-> Hc]; simpl in Hw; word_case Hp HL true false.
  - case_decide; word_case Hp HL w pd.
  - rewrite word_set_pending. word_case Hp HL w true.
  - rewrite word_readers_pending. destruct w; simpl in Hw; [|lia]. word_case Hp HL false pd.
  - destruct w; simpl in Hw; [|lia]. word_case Hp HL false pd.
  - case_decide; [|destruct h]; word_case Hp HL w pd.
  - rewrite word_has_writer. case_decide as Hz; destruct w, pd; try done.
    + word_case Hp HL false false.
    + word_case Hp HL true true.
    + word_case Hp HL true false.
    + word_case Hp HL false true.
  - destruct h; word_case Hp HL w pd.
  - word_case Hp HL w pd.
  - word_case Hp HL w pd.
  - unfold upgrade_loop. destruct (may_upgrade (word w pd (R + T))) eqn:E; word_case Hp HL w pd.
  - case_decide as Heq; simplify_eq/=.
    2: unfold upgrade_loop; destruct (may_upgrade (word w pd (R + T))) eqn:E; word_case Hp HL w pd.
    rewrite word_set_both. rewrite (may_upgrade_alone _ _ _ _ _ Hl Hp) in * by lia. word_case Hp HL true true.
  - rewrite word_readers. unfold ONE_READER. case_decide; word_case Hp HL w pd.
  - rewrite (Hp ltac:(lia)) in *. destruct w; simpl in Hw; [|lia]. word_case Hp HL true false.
  - word_case Hp HL w pd.
  - case_decide; word_case Hp HL w pd.
  - word_case Hp HL w pd.
  - word_case Hp HL w pd.
  - word_case Hp HL w pd.
  - word_case Hp HL w pd.
Qed.

Lemma cond_word k w p c :
  wakeup_condition k (word w p c) =
  match k with
  | WLock => negb w && bool_decide (c = 0)
  | WShared => negb w && negb p
  | WUpgrade => bool_decide (c = 1)
  end.
Proof.
  destruct k; simpl.
  - destruct w; simpl; [apply bool_decide_eq_false|apply bool_decide_ext]; rewrite word_busy; intuition done.
  - rewrite word_has_writer. by destruct w, p.
  - rewrite word_readers. apply bool_decide_ext. unfold ONE_READER. lia.
Qed.

Lemma release_target_word w p c :
  release_target (word w p c) = if p then Some WRITER_CONTEXT else None.
Proof. unfold release_target. rewrite word_pending. by destruct p. Qed.

(** A step that makes a condition true sends the wake-up of its waiters. *)
Lemma next_condition c p s s' p' W U R T F L k :
  word_ok s W U R T F L → wr p ≤ W → up p ≤ U → rd p - up p ≤ R - U → 0 ≤ T → tr p ≤ T →
  next c p s = Some (s', p') → (k = WUpgrade → 0 < U - up p) → wakeup_condition k s = false →
  wakeup_condition k s' = false ∨ pending (context k) p' = true.
Proof.
  intros ((w & pd & -> & Hw & Hp & HL) & HWR & HF) HW HU HRU HT HTp Hn HkU Hk.
  assert (Hsub : ∀ x y z, word x y z - ONE_READER = word x y (z - 1)).
  { intros x y z. unfold word, ONE_READER. lia. }
  destruct (decide (s' = word w pd (R + T))) as [->|Hne]; [by left|].
  destruct (next_wait_case c p _ _ _ Hn) as [(k' & ph & -> & -> & _)|Hnw]; [done|].
  destruct p as [| |h s| | |k' ph| |h|h|h| | |s| | | | |t r], c; try done; simplify_eq/=; unfold wr, up, rd in *; simpl in *.
  - case_decide; simplify_eq. change WRITER with (word true false 0). rewrite cond_word. left. by destruct k.
  - rewrite word_set_pending, cond_word. rewrite cond_word in Hk. left. by destruct k, w.
  - rewrite word_readers_pending, release_target_word, cond_word.
    destruct k; [by right; destruct pd| |by right; destruct pd]. destruct pd; [by left|by right].
  - replace (word w pd (R + T) + (ONE_READER - WRITER)) with (word false pd (R + T + 1)).
    2: { unfold word, ONE_READER, WRITER. destruct w; simpl in *; lia. }
    rewrite cond_word. destruct k; [left|by right|specialize (HkU eq_refl); destruct w; simpl in *; lia].
    apply bool_decide_eq_false. destruct w; simpl in *; lia.
  - replace (word w pd (R + T) + ONE_READER) with (word w pd (R + T + 1)) by (unfold word, ONE_READER; lia).
    left. rewrite cond_word. rewrite cond_word in Hk. destruct k; [destruct w; simpl; [done|]|done|].
    all: apply bool_decide_eq_false; try specialize (HkU eq_refl); lia.
  - destruct k; [by right| |by right]. left. by rewrite Hsub, cond_word; rewrite cond_word in Hk.
  - rewrite Hsub, release_target_word, cond_word. destruct k; [by right; destruct pd| |by right; destruct pd].
    left. by rewrite cond_word in Hk.
  - case_decide; simplify_eq. rewrite word_set_both, cond_word. rewrite cond_word in Hk. left. by destruct k.
  - left. rewrite (Hp ltac:(lia)). replace (word _ _ _ - _) with (word w false (R + T - 1)).
    2: { unfold word, ONE_READER, WRITER_PENDING. simpl. lia. }
    rewrite cond_word. destruct k; try specialize (HkU eq_refl); destruct w; simpl in *; (done || lia).
  - rewrite Hsub, release_target_word, cond_word. destruct k; [by right; destruct pd| |by right; destruct pd].
    left. by rewrite cond_word in Hk.
Qed.

Lemma rw_member_sums p ts : p ∈ ts →
  wr p ≤ zsum wr ts ∧ up p ≤ zsum up ts ∧ rd p - up p ≤ zsum rd ts - zsum up ts ∧ tr p ≤ zsum tr ts ∧
  fin p ≤ zsum fin ts ∧ up p - fin p ≤ zsum up ts - zsum fin ts ∧ lp p ≤ zsum lp ts ∧ 0 ≤ zsum tr ts.
Proof.
  intros Hp. assert (∀ f : pc → Z, (∀ q, 0 ≤ f q) → f p ≤ zsum f ts).
  { intros f Hf. apply zsum_member; [by apply Forall_forall|done]. }
  rewrite <- !zsum_minus. split_and!.
  8: { apply zsum_nonneg, Forall_forall. by intros [] _. }
  all: match goal with |- _ ≤ zsum ?f _ => apply (H f) end.
  all: intros q; destruct q as [| []|[]| | |[]| | | | | | | | | | | |? []]; done.
Qed.

Lemma wake_class t q :
  wr (wake t q) = wr q ∧ up (wake t q) = up q ∧ rd (wake t q) = rd q ∧ tr (wake t q) = tr q ∧
  fin (wake t q) = fin q ∧ lp (wake t q) = lp q ∧ (local_ok q → local_ok (wake t q)).
Proof. destruct q as [| | | | |k [| |[]|[]]| | | | | | | | | | | | ]; try done; simpl; by destruct (covers _ _), k. Qed.

Lemma notify_sum (f : pc → Z) p ts : (∀ t q, f (wake t q) = f q) → zsum f (notify p ts) = zsum f ts.
Proof.
  intros Hf. destruct p; try done. simpl. induction ts as [|q ts IH]; [done|].
  by rewrite fmap_cons, !zsum_cons, Hf, IH.
Qed.

Lemma notify_lookup p ts j q' : notify p ts !! j = Some q' →
  ∃ q, ts !! j = Some q ∧ q' = match p with Notify t _ => wake t q | _ => q end.
Proof. destruct p; simpl; eauto. rewrite list_lookup_fmap. intros (q & ? & ?)%fmap_Some. eauto. Qed.

Lemma wake_asleep t q k :
  wake t q = Wait k (Asleep false) → q = Wait k (Asleep false) ∧ covers t (context k) = false.
Proof.
  destruct q as [| | | | |k' [| |[]|[]]| | | | | | | | | | | | ]; simpl; try done.
  - by destruct (covers _ _).
  - destruct (covers t (context k')) eqn:E; [done|]. by intros [= ->].
Qed.

Lemma wake_pending t q ctx : pending ctx q = true → wake t q = q.
Proof. by destruct q. Qed.

(** Only a thread that found the condition false falls asleep. *)
Lemma next_asleep c p s s' k :
  next c p s = Some (s', Wait k (Asleep false)) → wakeup_condition k s' = false.
Proof.
  intros Hn. destruct (next_wait_case _ _ _ _ _ Hn) as [(k' & ph & -> & -> & Hk)|Hnw].
  - destruct ph as [| |[]|[]], c; simpl in Hk; simplify_eq; try (by destruct (wakeup_condition k' s), k');
      try by destruct k'.
    destruct (wakeup_condition k' s) eqn:E; [by destruct k'|]. by simplify_eq.
  - destruct p as [| |h| | | | |h|h|h| | |s0| | | | |t r], c; try done; simplify_eq/=; repeat case_decide; simplify_eq;
      try (by destruct h); try (by destruct r); unfold upgrade_loop in *; by case_match.
Qed.

(** The wake-up that a thread had on its way, after its step. *)
Lemma next_pending c p s s' p' k :
  next c p s = Some (s', p') → pending (context k) p = true →
  (∃ t r, p = Notify t r ∧ covers t (context k) = true) ∨
  wakeup_condition k s' = false ∨ pending (context k) p' = true.
Proof.
  destruct p as [| | | | | | | | | | | | | | | | |t r]; try done; simpl; intros Hn Hp; [|by left; eauto].
  right. destruct c; simplify_eq. apply bool_decide_eq_true in Hp. case_decide as Hz.
  - right. simpl. by apply bool_decide_eq_true.
  - left. destruct k; try done. apply bool_decide_eq_false. contradict Hz.
    rewrite Z.land_lor_distr_r, Z.lor_eq_0_iff in Hz. tauto.
Qed.

Lemma step_justified i c m p s' p' j q :
  inv m → threads m !! i = Some p → next c p (m_state m) = Some (s', p') →
  <[i := p']> (notify p (threads m)) !! j = Some q →
  justified s' (<[i := p']> (notify p (threads m))) q.
Proof.
  intros [Hw _ Hsl] Hi Hn Hj. destruct q as [| | | | |k [| |[]|[]]| | | | | | | | | | | |]; try done. simpl.
  assert (Hlen : (i < length (notify p (threads m)))%nat).
  { apply lookup_lt_Some in Hi. destruct p; simpl; by rewrite ?length_fmap. }
  destruct (decide (i = j)) as [<-|Hij].
  { rewrite list_lookup_insert_eq in Hj by done. simplify_eq. left. by eapply next_asleep. }
  rewrite list_lookup_insert_ne in Hj by done. apply notify_lookup in Hj as (q & Hq & Heq).
  assert (q = Wait k (Asleep false) ∧ ∀ t r, p = Notify t r → covers t (context k) = false) as [-> Hcov].
  { destruct p; simpl in Heq; try (by split; [|intros ?? [=]]).
    symmetry in Heq. apply wake_asleep in Heq as [-> Hc]. split; [done|]. by intros ?? [= <- <-]. }
  assert (Hnew : pending (context k) p' = true →
    Exists (λ q, pending (context k) q = true) (<[i := p']> (notify p (threads m)))).
  { intros Hp. apply Exists_exists. exists p'. split; [|done]. eapply (list_elem_of_lookup_2 _ i).
    by rewrite list_lookup_insert_eq. }
  pose proof (Forall_lookup_1 _ _ _ _ Hsl Hq) as [Hc|Hp%Exists_exists].
  - destruct (rw_member_sums p (threads m)) as (H1 & H2 & H3 & H4 & H5 & H6 & H7 & H8).
    { by eapply list_elem_of_lookup_2. }
    destruct (next_condition c p _ s' p' _ _ _ _ _ _ k Hw) as [?|?]; auto. intros ->.
    pose proof (zsum_two up (threads m) i j _ _ ltac:(intros q; by destruct (upgrading q) eqn:E; unfold up; rewrite E) Hij Hi Hq) as Htwo.
    change (up (Wait WUpgrade (Asleep false))) with 1 in Htwo. lia.
  - destruct Hp as (q & (jq & Hjq)%list_elem_of_lookup_1 & Hp). destruct (decide (i = jq)) as [<-|Hne].
    + simplify_eq. destruct (next_pending _ _ _ _ _ _ Hn Hp) as [(t & r & -> & Ht)|[?|?]]; auto.
      by rewrite (Hcov _ _ eq_refl) in Ht.
    + right. apply Exists_exists. exists q. split; [|done]. apply (list_elem_of_lookup_2 _ jq).
      rewrite list_lookup_insert_ne by done. destruct p; simpl; try done.
      rewrite list_lookup_fmap, Hjq. simpl. by erewrite wake_pending.
Qed.

Lemma rw_step_inv m m' : inv m → step m m' → inv m'.
Proof.
  intros H (i & c & Hs). unfold advance in Hs.
  destruct (threads m !! i) as [p|] eqn:Hi; [|done]. simpl in Hs.
  destruct (next c p (m_state m)) as [[s p']|] eqn:Hn; [|done]. simplify_eq/=.
  assert (Hi' : notify p (threads m) !! i = Some p).
  { destruct p; try done. simpl. by rewrite list_lookup_fmap, Hi. }
  destruct (rw_member_sums p (threads m)) as (H1 & H2 & H3 & H4 & H5 & H6 & H7 & H8).
  { by eapply list_elem_of_lookup_2. }
  destruct (next_word_ok c p _ s p' _ _ _ _ _ _ (Forall_lookup_1 _ _ _ _ (inv_local _ H) Hi) (inv_word _ H)) as [Hok Hl];
    [done..|].
  constructor; simpl.
  - rewrite !(zsum_insert _ _ _ _ _ Hi'), !notify_sum; [done|intros t q; apply (wake_class t q)..].
  - apply Forall_insert; [|done]. destruct H as [_ Hloc _]. destruct p; try done. simpl.
    apply Forall_fmap. eapply Forall_impl; [exact Hloc|]. intros q. apply wake_class.
  - apply Forall_lookup_2. intros j q Hj. by eapply step_justified.
Qed.

Lemma rw_reachable_inv n m : rtc step (init n) m → inv m ∧ length (threads m) = n.
Proof.
  intros Hr. pattern m. eapply rtc_ind_r; [| |exact Hr].
  - split; [|apply length_replicate]. constructor; simpl; try by apply Forall_replicate.
    rewrite !zsum_replicate. simpl. rewrite !Z.mul_0_r. split; [|lia]. by exists false, false.
  - intros m1 m2 _ Hs [H Hlen]. split; [by eapply rw_step_inv|].
    destruct Hs as (i & c & Hs). unfold advance in Hs. destruct (threads m1 !! i); [|done]. simpl in Hs.
    destruct (next c p (m_state m1)) as [[??]|]; [|done]. simplify_eq/=. rewrite length_insert.
    destruct p; simpl; by rewrite ?length_fmap.
Qed.

(** C17: in every execution of lock, try_lock, unlock, lock_shared,
    try_lock_shared, unlock_shared, upgrade and downgrade by any number of
    threads on an [rw_mutex]: a thread that owns the lock exclusively is the only
    owner (a thread inside [upgrade] is an owner of the shared lock until it
    releases or has it exclusively); the word neither becomes negative nor counts
    more readers than there are threads; it is 0 when all threads are outside. *)
Theorem rw_mutex_exclusion (n : nat) (m : mutex) (Hr : rtc step (init n) m) :
  (∀ i j p q, threads m !! i = Some p → threads m !! j = Some q → i ≠ j →
     exclusive p = true → exclusive q = false ∧ shared q = false) ∧
  0 ≤ m_state m < 4 * Z.of_nat n + 4 ∧
  (Forall (λ p, p = Idle) (threads m) → m_state m = 0).
Proof.
  apply rw_reachable_inv in Hr as [[((w & pd & Hs & Hw & Hp & HL) & HWR & HF) _ _] Hlen].
  assert (Hnn : ∀ f : pc → bool, 0 ≤ zsum (λ p, Z.b2z (f p)) (threads m)).
  { intros f. apply zsum_nonneg, Forall_forall. intros q _. by destruct (f q). }
  assert (Htr : 0 ≤ zsum tr (threads m)) by (apply zsum_nonneg, Forall_forall; by intros [] _).
  pose proof (Hnn shared). pose proof (Hnn upgrading). fold rd in *. fold up in *.
  split_and!.
  - intros i j p q Hi Hj Hne Hex.
    pose proof (zsum_two wr _ _ _ _ _ ltac:(intros x; unfold wr; by destruct (exclusive x)) Hne Hi Hj) as H2.
    destruct (rw_member_sums q (threads m)) as (_ & H4 & H5 & _); [by eapply list_elem_of_lookup_2|].
    unfold wr at 1 2 in H2. rewrite Hex in H2. unfold up at 1, rd at 1 in H5. unfold up at 1 in H4.
    assert (Z.b2z w ≤ 1) by (by destruct w).
    destruct (exclusive q) eqn:E1, (shared q) eqn:E2, (upgrading q) eqn:E3; simpl in *; (done || lia).
  - rewrite Hs. unfold word. destruct w, pd; simpl; lia.
  - rewrite Hs. pose proof (zsum_le_length (λ p, rd p + tr p) (threads m)
      ltac:(intros x; destruct x as [| | | | |[]| | | | | | | | | | | |? []]; done)) as Hle.
    rewrite zsum_plus, Hlen in Hle. unfold word. destruct w, pd; simpl; lia.
  - intros Hall. rewrite Hs. assert (Hz : ∀ f : pc → Z, f Idle = 0 → zsum f (threads m) = 0).
    { intros f Hf. apply zsum_all_zero. eapply Forall_impl; [exact Hall|]. by intros ? ->. }
    rewrite !Hz in * by done. destruct w, pd; try done. specialize (HL eq_refl). lia.
Qed.

(** Threads that will not move by themselves. *)
Definition blocked (p : pc) : bool :=
  match p with Idle | Wait _ (Asleep false) => true | _ => false end.

Lemma blocked_pending ts ctx :
  Forall (λ p, blocked p = true) ts → ¬ Exists (λ q, pending ctx q = true) ts.
Proof.
  intros Hb (q & Hq & Hp)%Exists_exists. rewrite Forall_forall in Hb. specialize (Hb q Hq). by destruct q.
Qed.

Lemma blocked_sum f ts :
  Forall (λ p, blocked p = true) ts → f Idle = 0 → (∀ k ph, f (Wait k ph) = 0) → zsum f ts = 0.
Proof.
  intros Hb H1 H2. apply zsum_all_zero. eapply Forall_impl; [exact Hb|]. intros []; try done; intros _; auto.
Qed.

Lemma someone_active m i k : inv m → threads m !! i = Some (Wait k (Asleep false)) →
  Exists (λ q, blocked q = false) (threads m).
Proof.
  intros [((w & pd & Hs & Hw & Hp & HL) & HWR & HF) _ Hsl] Hi.
  destruct (decide (Exists (λ q, blocked q = false) (threads m))) as [|Hall%not_Exists_Forall]; [done| |apply _].
  exfalso. assert (Hb : Forall (λ p, blocked p = true) (threads m)).
  { eapply Forall_impl; [exact Hall|]. intros x Hx. by apply not_false_is_true, Hx. }
  assert (Hcond : ∀ k, Wait k (Asleep false) ∈ threads m → wakeup_condition k (m_state m) = false).
  { intros k' Hk. rewrite Forall_forall in Hsl. destruct (Hsl _ Hk) as [?|Hex]; [done|].
    by destruct (blocked_pending _ _ Hb Hex). }
  assert (HW : zsum wr (threads m) = 0) by by apply blocked_sum.
  assert (HT : zsum tr (threads m) = 0) by by apply blocked_sum.
  assert (HRU : zsum (λ p, rd p - up p) (threads m) = 0) by (apply blocked_sum; [done..|by intros []]).
  rewrite zsum_minus in HRU. rewrite Hs in Hcond. destruct (decide (0 < zsum up (threads m))) as [HU|HU].
  - apply zsum_pos in HU as Hx. destruct Hx as (x & Hx & Hup). rewrite Forall_forall in Hb. specialize (Hb x Hx).
    destruct x as [| | | | |[] [| |[]|[]]| | | | | | | | | | | |]; try done. specialize (Hcond _ Hx).
    rewrite cond_word in Hcond. apply bool_decide_eq_false in Hcond. destruct w; simpl in Hw; lia.
  - pose proof (zsum_nonneg up (threads m) ltac:(apply Forall_forall; intros q _; unfold up; by destruct (upgrading q))).
    assert (w = false) as -> by (destruct w; simpl in Hw; [lia|done]).
    replace (zsum rd (threads m) + zsum tr (threads m)) with 0 in * by lia.
    assert (Hlock : Wait WLock (Asleep false) ∉ threads m) by (intros Hx%Hcond; by rewrite cond_word in Hx).
    assert (Hk := Hcond k (list_elem_of_lookup_2 _ _ _ Hi)). rewrite cond_word in Hk.
    destruct k; simpl in Hk; [done| |].
    + destruct pd; [|done]. specialize (HL eq_refl). destruct (zsum_pos lp (threads m)) as (x & Hx & Hlp); [lia|].
      rewrite Forall_forall in Hb. specialize (Hb x Hx).
      by destruct x as [| | | | |[] [| |[]|[]]| | | | | | | | | | | |].
    + destruct (rw_member_sums (Wait WUpgrade (Asleep false)) (threads m)) as (_ & H4 & _).
      { by eapply list_elem_of_lookup_2. }
      change (up (Wait WUpgrade (Asleep false))) with 1 in H4. lia.
Qed.

(** C16: no wake-up is lost on an [rw_mutex]: in every reachable state a thread
    that sleeps in [lock], [lock_shared] or [upgrade], and whose wake-up has not
    been issued, waits for a condition that does not hold, or a thread is about
    to notify it; and there is always some thread that owns the lock or runs an
    operation, so that the threads never all sleep. *)
Theorem rw_mutex_no_lost_wakeup (n : nat) (m : mutex) (Hr : rtc step (init n) m) (i : nat) (k : waiter)
    (Hi : threads m !! i = Some (Wait k (Asleep false))) :
  (wakeup_condition k (m_state m) = false ∨ Exists (λ q, pending (context k) q = true) (threads m)) ∧
  Exists (λ q, blocked q = false) (threads m).
Proof.
  apply rw_reachable_inv in Hr as [H _]. split; [by apply (Forall_lookup_1 _ _ _ _ (inv_sleep _ H) Hi)|].
  by eapply someone_active.
Qed.
End Rw.

Module RwMutexExamples.
Import RwState.

(** Two readers; one upgrades while the other leaves. *)
Definition spin_scenario : list (nat * SpinRw.call) :=
  let at_ i (cs : list SpinRw.call) := (λ c, (i, c)) <$> cs in
  at_ 0%nat [SpinRw.LockShared Block; SpinRw.Run; SpinRw.Run] ++
  at_ 1%nat [SpinRw.LockShared Try; SpinRw.Run; SpinRw.Run] ++
  at_ 2%nat [SpinRw.Lock Block; SpinRw.Run] ++
  at_ 0%nat [SpinRw.Upgrade; SpinRw.Run; SpinRw.Run; SpinRw.Run] ++
  at_ 1%nat [SpinRw.UnlockShared] ++
  at_ 0%nat [SpinRw.Run; SpinRw.Run] ++
  at_ 2%nat [SpinRw.Run].

Definition spin_run (l : list (nat * SpinRw.call)) (n : nat) : option SpinRw.mutex :=
  run_trace (λ ic, SpinRw.advance ic.1 ic.2) l (SpinRw.init n).

Lemma spin_run_steps l n m : spin_run l n = Some m → rtc SpinRw.step (SpinRw.init n) m.
Proof. apply run_trace_rtc. intros [i c] m1 m2 H. by exists i, c. Qed.

Lemma spin_rw_mutex_exclusion_witness :
  ∃ m, spin_run spin_scenario 3 = Some m ∧ SpinRw.threads m = [SpinRw.Writer; SpinRw.Idle; SpinRw.LLoad Block] ∧
    0 ≤ SpinRw.m_state m < 16.
Proof.
  destruct (spin_run spin_scenario 3) as [m|] eqn:E; [|vm_compute in E; discriminate E].
  exists m. split; [done|]. destruct (SpinRw.spin_rw_mutex_exclusion 3 m (spin_run_steps _ _ _ E)) as (_ & H & _).
  split; [|exact H]. vm_compute in E. by injection E as <-.
Defined.

Definition rw_run (l : list (nat * Rw.call)) (n : nat) : option Rw.mutex :=
  run_trace (λ ic, Rw.advance ic.1 ic.2) l (Rw.init n).

Lemma rw_run_steps l n m : rw_run l n = Some m → rtc Rw.step (Rw.init n) m.
Proof. apply run_trace_rtc. intros [i c] m1 m2 H. by exists i, c. Qed.

(** A reader holds the lock; a writer and then another reader fall asleep. *)
Definition rw_scenario : list (nat * Rw.call) :=
  let at_ i (cs : list Rw.call) := (λ c, (i, c)) <$> cs in
  at_ 0%nat [Rw.LockShared Block; Rw.Run; Rw.Run] ++
  at_ 1%nat [Rw.Lock Block; Rw.Run; Rw.Run; Rw.Run; Rw.Retry; Rw.Run; Rw.Run] ++
  at_ 2%nat [Rw.LockShared Block; Rw.Run; Rw.Retry; Rw.Run; Rw.Run].

(** Then the first reader leaves, the writer takes the lock. *)
Definition rw_scenario' : list (nat * Rw.call) :=
  rw_scenario ++ [(0%nat, Rw.UnlockShared); (0%nat, Rw.Run); (1%nat, Rw.Run); (1%nat, Rw.Run); (1%nat, Rw.Run)].

Lemma rw_mutex_exclusion_witness :
  ∃ m, rw_run rw_scenario' 3 = Some m ∧
    Rw.threads m = [Rw.Idle; Rw.Writer; Rw.Wait Rw.WShared (Rw.Asleep false)] ∧ 0 ≤ Rw.m_state m < 16.
Proof.
  destruct (rw_run rw_scenario' 3) as [m|] eqn:E; [|vm_compute in E; discriminate E].
  exists m. split; [done|]. destruct (Rw.rw_mutex_exclusion 3 m (rw_run_steps _ _ _ E)) as (_ & H & _).
  split; [|exact H]. vm_compute in E. by injection E as <-.
Defined.

Lemma rw_mutex_no_lost_wakeup_witness :
  ∃ m, rw_run rw_scenario 3 = Some m ∧
    Rw.threads m = [Rw.Reader; Rw.Wait Rw.WLock (Rw.Asleep false); Rw.Wait Rw.WShared (Rw.Asleep false)] ∧
    Exists (λ q, Rw.blocked q = false) (Rw.threads m).
Proof.
  destruct (rw_run rw_scenario 3) as [m|] eqn:E; [|vm_compute in E; discriminate E].
  exists m. assert (Hm : Rw.threads m =
    [Rw.Reader; Rw.Wait Rw.WLock (Rw.Asleep false); Rw.Wait Rw.WShared (Rw.Asleep false)]).
  { clear -E. vm_compute in E. by injection E as <-. }
  split; [done|]. split; [done|].
  apply (Rw.rw_mutex_no_lost_wakeup 3 m (rw_run_steps _ _ _ E) 1 Rw.WLock). by rewrite Hm.
Defined.
End RwMutexExamples.
