(* ===== verification/Aggregator.v ===== *)
(** * The aggregator

    Operations of many threads on one object, executed in batches by one thread
    at a time.  Source: include/oneapi/tbb/detail/_aggregator.h
    ([aggregator_generic::execute], [start_handle_operations]); its user here is
    [concurrent_priority_queue], whose [handle_operations] PriorityQueue models.

    A thread has one operation object, which stands for its address: it is
    reused by the next call.  The linked list of [pending_operations] is the list
    of the operations from the head on; [compare_exchange_strong] compares the
    addresses of the heads.  Every access to shared memory is a step. *)

From S2P Require Import Prelude PriorityQueue.
From stdpp Require Import base numbers relations list.
From Stdlib Require Import ZArith Lia.

(** What the aggregator needs of the object: a handler of batches, and the
    sequential object that it implements. *)
Class BatchObject (S Op Ans M : Type) := {
  handle : list Op → S → option (S * list Ans);
  answered : Ans → Op;
  address : Op → nat;
  represents : S → M → Prop;
  spec : M → list Ans → M → Prop;
}.
Class BatchLaws S Op Ans M `{BatchObject S Op Ans M} := {
  spec_nil m : spec m [] m;
  spec_app m l m' k m'' : spec m l m' → spec m' k m'' → spec m (l ++ k) m'';
  handle_spec l s m : represents s m →
    ∃ s' ans lin m', handle l s = Some (s', ans) ∧ answered <$> ans ≡ₚ l ∧
      lin ≡ₚ ans ∧ spec m lin m' ∧ represents s' m';
}.

Module Aggregator.
Section aggregator.
Context {S Op Ans M : Type} `{Obj : BatchObject S Op Ans M}.

Inductive pc :=
  | Idle
  | ALoad (op : Op)                       (* execute: before the load of pending_operations *)
  | ACas (op : Op) (res : option nat)     (* before compare_exchange_strong *)
  | AWaitStatus (op : Op)                 (* spin_wait_while_eq(op->status, 0) *)
  | AWaitBusy (op : Op)                   (* spin_wait_until_eq(handler_busy, 0) *)
  | ASetBusy (op : Op)                    (* before handler_busy.store(1) *)
  | AGrab (op : Op)                       (* before pending_operations.exchange(nullptr) *)
  | AHandle (op : Op) (rest : list Ans)   (* in handle_operations: the answers still to be stored *)
  | ADone (op : Op).                      (* after handler_busy.store(0) *)

(** A thread; the status of its operation ([None] is 0), and how many batches had
    been handled when the call began. *)
Record thread := Thread { at_ : pc; status : option Ans; start : nat }.

(** [log] and [completed] record what happened: the batches, and the finished
    calls with the number of batches at their begin and end. *)
Record aggregator := Agg {
  pending_operations : list Op;
  handler_busy : bool;
  object : S;
  threads : list thread;
  log : list (list Ans);
  completed : list (nat * nat * Ans);
}.

Definition set_thread (i : nat) (t : thread) (g : aggregator) : aggregator :=
  Agg (pending_operations g) (handler_busy g) (object g) (<[i := t]> (threads g)) (log g) (completed g).
Definition go (i : nat) (t : thread) (p : pc) (g : aggregator) : aggregator :=
  set_thread i (Thread p (status t) (start t)) g.
Definition set_busy (b : bool) (g : aggregator) : aggregator :=
  Agg (pending_operations g) b (object g) (threads g) (log g) (completed g).

Definition head_address (l : list Op) : option nat := address <$> head l.

(** [status.store(answer)] on the operation of the thread. *)
Definition store_status (a : Ans) (ts : list thread) : option (list thread) :=
  let j := address (answered a) in
  t ← ts !! j;
  Some (<[j := Thread (at_ t) (Some a) (start t)]> ts).

Definition finish (i : nat) (t : thread) (g : aggregator) : option aggregator :=
  a ← status t;
  Some (Agg (pending_operations g) (handler_busy g) (object g) (<[i := Thread Idle None 0]> (threads g)) (log g)
          (completed g ++ [(start t, length (log g), a)])).

(** [start_handle_operations], one access at a time. *)
Definition start_handle_operations (i : nat) (t : thread) (g : aggregator) : option aggregator :=
  match at_ t with
  | AWaitBusy op => Some (if handler_busy g then g else go i t (ASetBusy op) g)
  | ASetBusy op => Some (set_busy true (go i t (AGrab op) g))
  | AGrab op =>
      '(s, ans) ← handle (pending_operations g) (object g);
      Some (Agg [] (handler_busy g) s (<[i := Thread (AHandle op ans) (status t) (start t)]> (threads g))
              (log g ++ [ans]) (completed g))
  | AHandle op (a :: rest) =>
      ts ← store_status a (<[i := Thread (AHandle op rest) (status t) (start t)]> (threads g));
      Some (Agg (pending_operations g) (handler_busy g) (object g) ts (log g) (completed g))
  | AHandle op [] => Some (set_busy false (go i t (ADone op) g))
  | _ => None
  end.

(** One step of thread [i]; [call] is the operation that an idle thread starts. *)
Definition advance (i : nat) (call : option Op) (g : aggregator) : option aggregator :=
  t ← threads g !! i;
  match at_ t, call with
  | Idle, Some op =>
      if decide (address op = i) then Some (set_thread i (Thread (ALoad op) None (length (log g))) g) else None
  | ALoad op, None => Some (go i t (ACas op (head_address (pending_operations g))) g)
  | ACas op res, None =>
      if decide (head_address (pending_operations g) = res) then
        Some (Agg (op :: pending_operations g) (handler_busy g) (object g)
                (<[i := Thread (match res with None => AWaitBusy op | Some _ => AWaitStatus op end) (status t) (start t)]>
                   (threads g)) (log g) (completed g))
      else Some (go i t (ACas op (head_address (pending_operations g))) g)
  | AWaitStatus op, None => match status t with None => Some g | Some _ => finish i t g end
  | (AWaitBusy _ | ASetBusy _ | AGrab _ | AHandle _ _), None => start_handle_operations i t g
  | ADone op, None => finish i t g
  | _, _ => None
  end.

Definition step (g g' : aggregator) : Prop := ∃ i call, advance i call g = Some g'.
Definition init (s : S) (n : nat) : aggregator := Agg [] false s (replicate n (Thread Idle None 0)) [] [].

(** ** The invariant *)
Implicit Types (g : aggregator) (t : thread) (p : pc).

Definition op_of (p : pc) : option Op :=
  match p with
  | Idle => None
  | ALoad op | ACas op _ | AWaitStatus op | AWaitBusy op | ASetBusy op | AGrab op | AHandle op _ | ADone op => Some op
  end.
(** The operation is in the hands of the aggregator. *)
Definition queued (p : pc) : bool :=
  match p with AWaitStatus _ | AWaitBusy _ | ASetBusy _ | AGrab _ | AHandle _ _ => true | _ => false end.
(** The thread that will handle the pending operations; the one that has set [handler_busy]. *)
Definition leader (p : pc) : Z := match p with AWaitBusy _ | ASetBusy _ | AGrab _ => 1 | _ => 0 end.
Definition holder (p : pc) : Z := match p with AGrab _ | AHandle _ _ => 1 | _ => 0 end.
Definition setter (p : pc) : Z := match p with ASetBusy _ => 1 | _ => 0 end.

Definition rest_of (t : thread) : list Ans := match at_ t with AHandle _ rest => rest | _ => [] end.
Definition rests (ts : list thread) : list Ans := mjoin (rest_of <$> ts).
Definition held (t : thread) : list Ans := match at_ t with Idle => [] | _ => option_list (status t) end.

(** The threads whose operation has not been answered. *)
Definition outstanding (g : aggregator) : list nat :=
  (address <$> pending_operations g) ++ ((λ a, address (answered a)) <$> rests (threads g)).

(** The answer is in a batch that came after the first [s] ones. *)
Definition logged (l : list (list Ans)) (s : nat) (a : Ans) : Prop :=
  ∃ b batch, s ≤ b ∧ l !! b = Some batch ∧ a ∈ batch.

Definition thread_ok (g : aggregator) (i : nat) (t : thread) : Prop :=
  start t ≤ length (log g) ∧
  (∀ op, op_of (at_ t) = Some op → address op = i) ∧
  (leader (at_ t) = 1%Z → i ∈ address <$> pending_operations g) ∧
  match at_ t with
  | Idle | ALoad _ | ACas _ _ => status t = None
  | ADone _ => status t ≠ None
  | _ => True
  end ∧
  (∀ a, status t = Some a → op_of (at_ t) = Some (answered a) ∧ logged (log g) (start t) a).

Record inv (g : aggregator) : Prop := {
  inv_nodup : NoDup (outstanding g);
  inv_out i : i ∈ outstanding g ↔ ∃ t, threads g !! i = Some t ∧ queued (at_ t) = true ∧ status t = None;
  inv_pend op : op ∈ pending_operations g → ∃ t, threads g !! address op = Some t ∧
    (leader (at_ t) = 1%Z ∨ at_ t = AWaitStatus op) ∧ op_of (at_ t) = Some op;
  inv_rest a : a ∈ rests (threads g) → ∃ t, threads g !! address (answered a) = Some t ∧
    op_of (at_ t) = Some (answered a) ∧ logged (log g) (start t) a;
  inv_thread i t : threads g !! i = Some t → thread_ok g i t;
  inv_leader : zsum (λ t, leader (at_ t)) (threads g) = match pending_operations g with [] => 0 | _ => 1 end%Z;
  inv_busy : zsum (λ t, holder (at_ t)) (threads g) = Z.b2z (handler_busy g);
  inv_setter : (0 < zsum (λ t, setter (at_ t)) (threads g))%Z → handler_busy g = false;
}.

Lemma rests_insert_same i t t' ts :
  ts !! i = Some t → rest_of t' = rest_of t → rests (<[i := t']> ts) = rests ts.
Proof.
  unfold rests. revert i. induction ts as [|z ts IH]; intros [|i] Hi Heq; simplify_eq/=; [by rewrite Heq|].
  by rewrite (IH i).
Qed.

Lemma logged_app l k s a : logged l s a → logged (l ++ k) s a.
Proof. intros (b & batch & ? & ? & ?). exists b, batch. split_and!; try done. by apply lookup_app_l_Some. Qed.

Definition unanswered (t : thread) : Prop := queued (at_ t) = true ∧ status t = None.

Lemma pending_outstanding g op : op ∈ pending_operations g → address op ∈ outstanding g.
Proof. intros Hop. apply elem_of_app. left. by apply list_elem_of_fmap_2. Qed.
Lemma rest_outstanding g a : a ∈ rests (threads g) → address (answered a) ∈ outstanding g.
Proof. intros Ha. apply elem_of_app. right. by apply (list_elem_of_fmap_2 (λ a, address (answered a))). Qed.

(** A step that changes only the thread itself and [handler_busy]. *)
Lemma local_inv g i t t' busy' completed' :
  inv g → threads g !! i = Some t → rest_of t' = rest_of t → (unanswered t' ↔ unanswered t) →
  (unanswered t → op_of (at_ t') = op_of (at_ t) ∧ start t' = start t ∧
     ∀ op, at_ t = AWaitStatus op → at_ t' = AWaitStatus op) →
  leader (at_ t') = leader (at_ t) → thread_ok g i t' →
  (Z.b2z busy' = Z.b2z (handler_busy g) - holder (at_ t) + holder (at_ t'))%Z →
  ((0 < zsum (λ t, setter (at_ t)) (threads g) - setter (at_ t) + setter (at_ t'))%Z → busy' = false) →
  inv (Agg (pending_operations g) busy' (object g) (<[i := t']> (threads g)) (log g) completed').
Proof.
  intros H Hi Hrest Hun Hsame Hlead Hok Hb Hset.
  assert (Hr : rests (<[i := t']> (threads g)) = rests (threads g)) by by eapply rests_insert_same.
  assert (Hget : <[i := t']> (threads g) !! i = Some t').
  { rewrite list_lookup_insert_eq; [done|]. by eapply lookup_lt_Some. }
  assert (Hself : ∀ t0, i ∈ outstanding g → threads g !! i = Some t0 → t0 = t ∧ unanswered t).
  { intros t0 (t1 & Ht1 & Hq)%(inv_out _ H) Ht0. by simplify_eq. }
  constructor; simpl.
  - unfold outstanding. simpl. rewrite Hr. apply (inv_nodup _ H).
  - intros j. unfold outstanding. simpl. rewrite Hr. fold (outstanding g). rewrite (inv_out _ H).
    destruct (decide (i = j)) as [<-|Hne]; [|by rewrite list_lookup_insert_ne].
    rewrite Hget, Hi. unfold unanswered in Hun. split; intros (t0 & [= <-] & Hq); [exists t'|exists t]; tauto.
  - intros op Hop. destruct (inv_pend _ H _ Hop) as (t0 & Ht0 & Hl & Ho).
    destruct (decide (i = address op)) as [->|Hne]; [|exists t0; by rewrite list_lookup_insert_ne].
    destruct (Hself _ (pending_outstanding _ _ Hop) Ht0) as [-> Hu]. exists t'. rewrite Hlead.
    destruct (Hsame Hu) as (-> & _ & Hws). split_and!; [done| |done]. destruct Hl; auto.
  - rewrite Hr. intros a Ha. destruct (inv_rest _ H _ Ha) as (t0 & Ht0 & Ho & Hlog).
    destruct (decide (i = address (answered a))) as [->|Hne]; [|exists t0; by rewrite list_lookup_insert_ne].
    destruct (Hself _ (rest_outstanding _ _ Ha) Ht0) as [-> Hu]. exists t'.
    destruct (Hsame Hu) as (-> & -> & _). done.
  - intros j t0. destruct (decide (i = j)) as [<-|Hne].
    + rewrite Hget. by intros [= <-].
    + rewrite list_lookup_insert_ne by done. apply (inv_thread _ H).
  - rewrite (zsum_insert _ _ _ _ _ Hi), (inv_leader _ H), Hlead. lia.
  - rewrite (zsum_insert _ _ _ _ _ Hi), (inv_busy _ H). lia.
  - by rewrite (zsum_insert _ _ _ _ _ Hi).
Qed.

Lemma cas_inv g i t op res :
  inv g → threads g !! i = Some t → at_ t = ACas op res → head_address (pending_operations g) = res →
  inv (Agg (op :: pending_operations g) (handler_busy g) (object g)
         (<[i := Thread (match res with None => AWaitBusy op | Some _ => AWaitStatus op end) (status t) (start t)]>
            (threads g)) (log g) (completed g)).
Proof.
  intros H Hi Hat Hres. set (t' := Thread _ _ _).
  pose proof (inv_thread _ H _ _ Hi) as (Hst & Haddr & _ & Hstatus & _). rewrite Hat in Haddr, Hstatus.
  specialize (Haddr op eq_refl). assert (Hnot : i ∉ outstanding g).
  { intros (t0 & Ht0 & Hq & _)%(inv_out _ H). simplify_eq. by rewrite Hat in Hq. }
  assert (Hr : rests (<[i := t']> (threads g)) = rests (threads g)).
  { eapply rests_insert_same; [done|]. unfold rest_of. rewrite Hat. by destruct res. }
  assert (Hget : <[i := t']> (threads g) !! i = Some t').
  { rewrite list_lookup_insert_eq; [done|]. by eapply lookup_lt_Some. }
  assert (Hout : outstanding (Agg (op :: pending_operations g) (handler_busy g) (object g) (<[i := t']> (threads g))
    (log g) (completed g)) = i :: outstanding g).
  { unfold outstanding. simpl. by rewrite Hr, Haddr. }
  assert (Hop' : op_of (at_ t') = Some op) by (by destruct res).
  assert (Hlead : leader (at_ t') = match pending_operations g with [] => 1 | _ => 0 end%Z).
  { subst t' res. unfold head_address. by destruct (pending_operations g). }
  constructor; rewrite ?Hout; simpl.
  - constructor; [done|apply (inv_nodup _ H)].
  - intros j. rewrite elem_of_cons, (inv_out _ H). destruct (decide (i = j)) as [<-|Hne].
    + rewrite Hget. split; [|by left]. intros _. exists t'. by destruct res.
    + rewrite list_lookup_insert_ne by done. split; [by intros [->|?]|by right].
  - intros o [->|Ho]%elem_of_cons.
    + rewrite Haddr. exists t'. split_and!; [done| |done]. subst t'. by destruct res; [right|left].
    + destruct (inv_pend _ H _ Ho) as (t0 & Ht0 & Hx). exists t0. rewrite list_lookup_insert_ne; [done|].
      intros ->. apply Hnot. by apply pending_outstanding.
  - rewrite Hr. intros b Hb. destruct (inv_rest _ H _ Hb) as (t0 & Ht0 & Hx). exists t0.
    rewrite list_lookup_insert_ne; [done|]. intros ->. apply Hnot. by apply rest_outstanding.
  - intros j t0. destruct (decide (i = j)) as [<-|Hne].
    + rewrite Hget. intros [= <-]. split_and!; simpl; [done| |by rewrite Haddr; left|by destruct res|].
      * intros o Ho. change (op_of (at_ t') = Some o) in Ho. rewrite Hop' in Ho. by simplify_eq.
      * by rewrite Hstatus.
    + rewrite list_lookup_insert_ne by done. intros Hj. destruct (inv_thread _ H _ _ Hj) as (?&?&Hl&?&?).
      split_and!; simpl; try done. intros Hlj. right. by apply Hl.
  - rewrite (zsum_insert _ _ _ _ _ Hi), (inv_leader _ H), Hlead, Hat. by destruct (pending_operations g).
  - rewrite (zsum_insert _ _ _ _ _ Hi), (inv_busy _ H), Hat. destruct res; simpl; lia.
  - rewrite (zsum_insert _ _ _ _ _ Hi), Hat. intros Hs. apply (inv_setter _ H). destruct res; simpl in *; lia.
Qed.

Lemma single_leader g i j t t' :
  inv g → threads g !! i = Some t → threads g !! j = Some t' →
  leader (at_ t) = 1%Z → leader (at_ t') = 1%Z → i = j.
Proof.
  intros H Hi Hj Ht Ht'. destruct (decide (i = j)) as [|Hne]; [done|].
  pose proof (zsum_two (λ t, leader (at_ t)) (threads g) i j t t' ltac:(intros x; simpl; by destruct (at_ x)) Hne Hi Hj) as H2.
  simpl in H2. rewrite (inv_leader _ H) in H2. destruct (pending_operations g); lia.
Qed.

Lemma single_holder g i j t t' :
  inv g → threads g !! i = Some t → threads g !! j = Some t' →
  holder (at_ t) = 1%Z → holder (at_ t') = 1%Z → i = j.
Proof.
  intros H Hi Hj Ht Ht'. destruct (decide (i = j)) as [|Hne]; [done|].
  pose proof (zsum_two (λ t, holder (at_ t)) (threads g) i j t t' ltac:(intros x; simpl; by destruct (at_ x)) Hne Hi Hj) as H2.
  simpl in H2. rewrite (inv_busy _ H) in H2. destruct (handler_busy g); simpl in H2; lia.
Qed.

Lemma grab_inv g i t op s ans :
  inv g → threads g !! i = Some t → at_ t = AGrab op → answered <$> ans ≡ₚ pending_operations g →
  inv (Agg [] (handler_busy g) s (<[i := Thread (AHandle op ans) (status t) (start t)]> (threads g))
         (log g ++ [ans]) (completed g)).
Proof.
  intros H Hi Hat Hans. set (t' := Thread _ _ _).
  pose proof (inv_thread _ H _ _ Hi) as (Hst & Haddr & Hlead & _ & _). rewrite Hat in Haddr, Hlead.
  specialize (Haddr op eq_refl). specialize (Hlead eq_refl).
  assert (Hr : rests (<[i := t']> (threads g)) ≡ₚ ans ++ rests (threads g)).
  { pose proof (mjoin_insert_perm rest_of (threads g) i t t' Hi) as Hp. unfold rest_of at 1 3 in Hp.
    rewrite Hat in Hp. exact Hp. }
  assert (Hget : <[i := t']> (threads g) !! i = Some t').
  { rewrite list_lookup_insert_eq; [done|]. by eapply lookup_lt_Some. }
  assert (Hout : outstanding (Agg [] (handler_busy g) s (<[i := t']> (threads g)) (log g ++ [ans]) (completed g))
    ≡ₚ outstanding g).
  { unfold outstanding. simpl. rewrite Hr, fmap_app. apply Permutation_app_tail.
    rewrite <- Hans, <- list_fmap_compose. done. }
  constructor.
  - rewrite Hout. apply (inv_nodup _ H).
  - intros j. rewrite Hout, (inv_out _ H). simpl. destruct (decide (i = j)) as [<-|Hne].
    + rewrite Hget, Hi. split; intros (t0 & [= <-] & Hq & Hn); [exists t'|exists t]; rewrite ?Hat; done.
    + by rewrite list_lookup_insert_ne.
  - by intros o Ho%elem_of_nil.
  - simpl. intros a. rewrite Hr, elem_of_app. intros [Ha|Ha].
    + assert (Hin : answered a ∈ pending_operations g) by (rewrite <- Hans; by apply list_elem_of_fmap_2).
      destruct (inv_pend _ H _ Hin) as (t0 & Ht0 & _ & Ho).
      assert (Hl : logged (log g ++ [ans]) (start t0) a).
      { exists (length (log g)), ans. split_and!; [apply (inv_thread _ H _ _ Ht0)| |done].
        by rewrite lookup_app_r, Nat.sub_diag. }
      destruct (decide (i = address (answered a))) as [Hia|Hne]; [|exists t0; by rewrite list_lookup_insert_ne].
      rewrite <- Hia in *. simplify_eq. exists t'. split_and!; [done| |done]. by rewrite Hat in Ho.
    + destruct (inv_rest _ H _ Ha) as (t0 & Ht0 & Ho & Hl). apply (logged_app _ [ans]) in Hl.
      destruct (decide (i = address (answered a))) as [Hia|Hne]; [|exists t0; by rewrite list_lookup_insert_ne].
      rewrite <- Hia in *. simplify_eq. exists t'. split_and!; [done| |done]. by rewrite Hat in Ho.
  - simpl. intros j t0. destruct (decide (i = j)) as [<-|Hne].
    + rewrite Hget. intros [= <-]. destruct (inv_thread _ H _ _ Hi) as (?&?&?&?&Hs). rewrite Hat in Hs.
      split_and!; simpl; try done; [rewrite length_app; lia|by intros ? [= <-]|].
      intros b Hb. destruct (Hs _ Hb). split; [done|by apply logged_app].
    + rewrite list_lookup_insert_ne by done. intros Hj. destruct (inv_thread _ H _ _ Hj) as (?&?&Hl&?&Hs).
      split_and!; simpl; try done; [rewrite length_app; lia| |].
      * intros Hlj. destruct Hne. eapply single_leader; [done..| |done]. by rewrite Hat.
      * intros b Hb. destruct (Hs _ Hb). split; [done|by apply logged_app].
  - simpl. rewrite (zsum_insert _ _ _ _ _ Hi), (inv_leader _ H), Hat.
    destruct (pending_operations g); [by apply elem_of_nil in Hlead|done].
  - simpl. rewrite (zsum_insert _ _ _ _ _ Hi), (inv_busy _ H), Hat. simpl. lia.
  - simpl. rewrite (zsum_insert _ _ _ _ _ Hi), Hat. intros Hs. apply (inv_setter _ H). simpl in *. lia.
Qed.

(** The store of one answer: the threads before and after, by lookups. *)
Lemma store_threads g i t op a rest ts :
  inv g → threads g !! i = Some t → at_ t = AHandle op (a :: rest) →
  store_status a (<[i := Thread (AHandle op rest) (status t) (start t)]> (threads g)) = Some ts →
  let j := address (answered a) in
  ∃ tj, threads g !! j = Some tj ∧ status tj = None ∧ queued (at_ tj) = true ∧
    op_of (at_ tj) = Some (answered a) ∧ logged (log g) (start tj) a ∧
    rests (threads g) ≡ₚ a :: rests ts ∧
    ts !! j = Some (Thread (if decide (i = j) then AHandle op rest else at_ tj) (Some a) (start tj)) ∧
    (i ≠ j → ts !! i = Some (Thread (AHandle op rest) (status t) (start t))) ∧
    (∀ k, k ≠ i → k ≠ j → ts !! k = threads g !! k) ∧
    (∀ f : pc → Z, (∀ o l l', f (AHandle o l) = f (AHandle o l')) →
       zsum (λ t, f (at_ t)) ts = zsum (λ t, f (at_ t)) (threads g)).
Proof.
  intros H Hi Hat Hs j. set (ti := Thread (AHandle op rest) (status t) (start t)) in *.
  assert (Hin : a ∈ rests (threads g)).
  { apply list_elem_of_join. exists (a :: rest). split; [by left|]. apply list_elem_of_fmap. exists t.
    split; [unfold rest_of; by rewrite Hat|by eapply list_elem_of_lookup_2]. }
  destruct (inv_rest _ H _ Hin) as (tj & Htj & Hop & Hlog).
  destruct (proj1 (inv_out _ H _) (rest_outstanding _ _ Hin)) as (tj' & Htj' & Hq & Hnone). simplify_eq.
  unfold store_status in Hs. fold j in Hs, Htj. rewrite bind_Some in Hs. destruct Hs as (t1 & Ht1 & [= <-]).
  exists tj. split_and!; try done.
  - pose proof (mjoin_insert_perm rest_of (threads g) i t ti Hi) as Hp.
    pose proof (mjoin_insert_perm rest_of (<[i := ti]> (threads g)) j t1 (Thread (at_ t1) (Some a) (start t1)) Ht1) as Hp2.
    assert (Hsame : rest_of (Thread (at_ t1) (Some a) (start t1)) = rest_of t1) by done.
    rewrite Hsame in Hp2. apply Permutation_app_inv_l in Hp2. fold (rests (threads g)) in Hp.
    unfold rests at 2. rewrite Hp2. unfold rest_of at 1 3 in Hp. rewrite Hat in Hp. simpl in Hp.
    apply (Permutation_app_inv_l rest). etrans; [symmetry; exact Hp|]. solve_Permutation.
  - rewrite list_lookup_insert_eq by (by eapply lookup_lt_Some). case_decide as Hij.
    + rewrite <- Hij in *. rewrite list_lookup_insert_eq in Ht1 by (by eapply lookup_lt_Some). by simplify_eq.
    + rewrite list_lookup_insert_ne in Ht1 by done. by simplify_eq.
  - intros Hij. rewrite list_lookup_insert_ne, list_lookup_insert_eq by (done || by eapply lookup_lt_Some). done.
  - intros k Hki Hkj. by rewrite !list_lookup_insert_ne.
  - intros f Hf. rewrite (zsum_insert _ _ _ _ _ Ht1), (zsum_insert _ _ _ _ _ Hi). simpl. rewrite Hat.
    rewrite (Hf op rest (a :: rest)). lia.
Qed.

Lemma store_inv g i t op a rest ts :
  inv g → threads g !! i = Some t → at_ t = AHandle op (a :: rest) →
  store_status a (<[i := Thread (AHandle op rest) (status t) (start t)]> (threads g)) = Some ts →
  inv (Agg (pending_operations g) (handler_busy g) (object g) ts (log g) (completed g)).
Proof.
  intros H Hi Hat Hs. destruct (store_threads _ _ _ _ _ _ _ H Hi Hat Hs)
    as (tj & Htj & Hnone & Hq & Hop & Hlog & Hr & Hgj & Hgi & Hgk & Hsum).
  set (j := address (answered a)) in *.
  assert (Hout : outstanding g ≡ₚ
    j :: outstanding (Agg (pending_operations g) (handler_busy g) (object g) ts (log g) (completed g))).
  { unfold outstanding. simpl. rewrite Hr. simpl. solve_Permutation. }
  pose proof (inv_nodup _ H) as Hnd. rewrite Hout in Hnd. apply NoDup_cons in Hnd as [Hnj Hnd].
  assert (Hold : ∀ k tk, k ≠ j → threads g !! k = Some tk → ∃ tk', ts !! k = Some tk' ∧
    status tk' = status tk ∧ start tk' = start tk ∧ op_of (at_ tk') = op_of (at_ tk) ∧
    queued (at_ tk') = queued (at_ tk) ∧ leader (at_ tk') = leader (at_ tk) ∧ (k ≠ i → tk' = tk)).
  { intros k tk Hkj Hk. destruct (decide (k = i)) as [->|Hki]; [|exists tk; by rewrite Hgk].
    simplify_eq. rewrite Hgi by done. eexists. split; [done|]. by rewrite Hat. }
  constructor; simpl.
  - done.
  - intros k. destruct (decide (k = j)) as [->|Hkj].
    + split; [done|]. intros (t0 & Ht0 & _ & Hn). rewrite Hgj in Ht0. by simplify_eq/=.
    + transitivity (k ∈ outstanding g); [rewrite Hout, elem_of_cons; tauto|]. rewrite (inv_out _ H).
      split; intros (t0 & Ht0 & Hq0 & Hn0).
      * destruct (Hold _ _ Hkj Ht0) as (t1 & ? & ? & ? & ? & ? & _). exists t1. split_and!; [done|congruence..].
      * destruct (threads g !! k) as [t1|] eqn:Hk1.
        -- destruct (Hold _ _ Hkj Hk1) as (t2 & ? & ? & ? & ? & ? & _). simplify_eq. exists t1.
           split_and!; [done|congruence..].
        -- assert (k ≠ i) by congruence. rewrite Hgk in Ht0 by done. congruence.
  - intros o Ho. destruct (inv_pend _ H _ Ho) as (t0 & Ht0 & Hl & Hox).
    assert (Hne : address o ≠ j).
    { intros He. apply Hnj. rewrite <- He. apply elem_of_app. left. by apply list_elem_of_fmap_2. }
    destruct (Hold _ _ Hne Ht0) as (t1 & Ht1 & _ & _ & Ho1 & _ & Hl1 & Heq). exists t1. rewrite Hl1, Ho1.
    split_and!; [done| |done]. destruct Hl as [|Hw]; [by left|]. right. rewrite Heq; [done|].
    intros He. rewrite He, Hi in Ht0. simplify_eq. congruence.
  - intros b Hb. assert (Hb' : b ∈ rests (threads g)) by (rewrite Hr; by right).
    destruct (inv_rest _ H _ Hb') as (t0 & Ht0 & Ho0 & Hl0).
    assert (Hne : address (answered b) ≠ j).
    { intros He. apply Hnj. rewrite <- He. apply elem_of_app. right.
      by apply (list_elem_of_fmap_2 (λ a, address (answered a))). }
    destruct (Hold _ _ Hne Ht0) as (t1 & Ht1 & _ & Hst1 & Ho1 & _). exists t1. by rewrite Ho1, Hst1.
  - intros k t0 Hk. destruct (decide (k = j)) as [->|Hkj].
    + rewrite Hgj in Hk. simplify_eq. destruct (inv_thread _ H _ _ Htj) as (H1 & H2 & H3 & H4 & H5).
      assert (Hop' : op_of (if decide (i = j) then AHandle op rest else at_ tj) = Some (answered a)).
      { case_decide; [|done]. subst i. simplify_eq. by rewrite Hat in Hop. }
      split_and!; simpl; [done| | | |].
      * intros o. rewrite Hop'. by intros [= <-].
      * case_decide; [done|]. apply H3.
      * case_decide; [done|]. by destruct (at_ tj).
      * intros b [= <-]. done.
    + destruct (threads g !! k) as [t1|] eqn:Hk1.
      2:{ assert (k ≠ i) by congruence. rewrite Hgk in Hk by done. congruence. }
      destruct (Hold _ _ Hkj Hk1) as (t2 & Ht2 & Hs2 & Hst2 & Ho2 & _ & Hl2 & Heq). simplify_eq.
      destruct (inv_thread _ H _ _ Hk1) as (H1 & H2 & H3 & H4 & H5). unfold thread_ok. simpl.
      rewrite Hs2, Hst2, Ho2, Hl2. split_and!; try done.
      destruct (decide (k = i)) as [->|Hki]; [|by rewrite Heq]. rewrite Hgi in Hk by done. by simplify_eq.
  - rewrite (Hsum leader); [apply (inv_leader _ H)|done].
  - rewrite (Hsum holder); [apply (inv_busy _ H)|done].
  - rewrite (Hsum setter); [apply (inv_setter _ H)|done].
Qed.

(** ** The history *)
Record hist (m0 : M) (g : aggregator) : Prop := {
  hist_perm : mjoin (log g) ≡ₚ (snd <$> completed g) ++ mjoin (held <$> threads g) ++ rests (threads g);
  hist_completed : Forall (λ '(s, e, a), e ≤ length (log g) ∧
    ∃ b batch, s ≤ b < e ∧ log g !! b = Some batch ∧ a ∈ batch) (completed g);
  hist_spec : ∃ lins m, Forall2 (≡ₚ) lins (log g) ∧ spec m0 (mjoin lins) m ∧ represents (object g) m;
}.

Lemma held_insert_same i t t' ts :
  ts !! i = Some t → held t' = held t → mjoin (held <$> <[i := t']> ts) ≡ₚ mjoin (held <$> ts).
Proof.
  intros Hi Heq. pose proof (mjoin_insert_perm held ts i t t' Hi) as Hp. rewrite Heq in Hp.
  by apply Permutation_app_inv_l in Hp.
Qed.

Lemma hist_local m0 g i t t' pend busy :
  hist m0 g → threads g !! i = Some t → held t' = held t → rest_of t' = rest_of t →
  hist m0 (Agg pend busy (object g) (<[i := t']> (threads g)) (log g) (completed g)).
Proof.
  intros [Hp Hc Hs] Hi Hh Hr. constructor; simpl; [|done..].
  by rewrite (held_insert_same _ t), (rests_insert_same _ t).
Qed.

Lemma hist_finish m0 g i t a pend busy :
  inv g → hist m0 g → threads g !! i = Some t → at_ t ≠ Idle → status t = Some a → rest_of t = [] →
  hist m0 (Agg pend busy (object g) (<[i := Thread Idle None 0]> (threads g)) (log g)
             (completed g ++ [(start t, length (log g), a)])).
Proof.
  intros H [Hp Hc Hs] Hi Hat Ha Hr. constructor; simpl; [| |done].
  - rewrite Hp, fmap_app, (rests_insert_same _ t) by done. simpl.
    pose proof (mjoin_insert_perm held (threads g) i t (Thread Idle None 0) Hi) as Hm. simpl in Hm.
    rewrite <- Hm. unfold held at 1. rewrite Ha. destruct (at_ t); try done; simpl; solve_Permutation.
  - apply Forall_app. split; [done|]. apply Forall_singleton. split; [done|].
    destruct (inv_thread _ H _ _ Hi) as (_ & _ & _ & _ & Hlog).
    destruct (Hlog _ Ha) as (_ & b & batch & Hb & Hl & Hin). exists b, batch.
    split_and!; [done|by eapply lookup_lt_Some|done..].
Qed.

Lemma hist_store m0 g i t op a rest ts :
  inv g → hist m0 g → threads g !! i = Some t → at_ t = AHandle op (a :: rest) →
  store_status a (<[i := Thread (AHandle op rest) (status t) (start t)]> (threads g)) = Some ts →
  hist m0 (Agg (pending_operations g) (handler_busy g) (object g) ts (log g) (completed g)).
Proof.
  intros H [Hp Hc Hs] Hi Hat Hst. destruct (store_threads _ _ _ _ _ _ _ H Hi Hat Hst)
    as (tj & Htj & Hnone & Hq & Hop & Hlog & Hr & _).
  constructor; simpl; [|done..]. rewrite Hp, Hr. f_equiv.
  unfold store_status in Hst. apply bind_Some in Hst as (t1 & Ht1 & [= <-]).
  pose proof (mjoin_insert_perm held _ _ _ (Thread (at_ t1) (Some a) (start t1)) Ht1) as Hm.
  rewrite (held_insert_same i t _ (threads g)) in Hm; [|done|unfold held; by rewrite Hat].
  assert (status t1 = None ∧ queued (at_ t1) = true) as [Hn1 Hq1].
  { destruct (decide (i = address (answered a))) as [Hij|Hij].
    - rewrite <- Hij in *. rewrite list_lookup_insert_eq in Ht1 by (by eapply lookup_lt_Some). by simplify_eq.
    - rewrite list_lookup_insert_ne in Ht1 by done. by simplify_eq. }
  unfold held at 1 3 in Hm. simpl in Hm. rewrite Hn1 in Hm. destruct (at_ t1); try done; simpl in Hm; rewrite Hm;
    simpl; solve_Permutation.
Qed.

Lemma handler_answered g i t op :
  inv g → threads g !! i = Some t → at_ t = AHandle op [] → status t ≠ None.
Proof.
  intros H Hi Hat Hn. assert (Hout : i ∈ outstanding g) by (apply (inv_out _ H); exists t; by rewrite Hat).
  apply elem_of_app in Hout as [(o & -> & Ho)%list_elem_of_fmap|(a & -> & Ha)%list_elem_of_fmap].
  - destruct (inv_pend _ H _ Ho) as (t0 & Ht0 & Hl & _). simplify_eq. rewrite Hat in Hl. by destruct Hl.
  - apply list_elem_of_join in Ha as (l & Hal & (tk & -> & Htk)%list_elem_of_fmap).
    apply list_elem_of_lookup_1 in Htk as (k & Hk). unfold rest_of in Hal.
    destruct (at_ tk) as [| | | | | | |o rest|] eqn:Hatk; try by apply elem_of_nil in Hal.
    assert (Heq : address (answered a) = k).
    { eapply (single_holder g); [done..| |]; by rewrite ?Hat, ?Hatk. }
    rewrite <- Heq in Hk. simplify_eq. rewrite Hat in Hatk. simplify_eq. by apply elem_of_nil in Hal.
Qed.

Lemma setter_le g i t :
  inv g → threads g !! i = Some t → setter (at_ t) = 1%Z → zsum (λ t, setter (at_ t)) (threads g) = 1%Z.
Proof.
  intros H Hi Hs. pose proof (zsum_nonneg (λ t, leader (at_ t) - setter (at_ t))%Z (threads g)
    ltac:(apply Forall_forall; intros x _; simpl; by destruct (at_ x))) as Hnn.
  rewrite (zsum_minus (λ t, leader (at_ t)) (λ t, setter (at_ t))), (inv_leader _ H) in Hnn.
  pose proof (zsum_member (λ t, setter (at_ t)) (threads g) t
    ltac:(apply Forall_forall; intros x _; simpl; by destruct (at_ x)) (list_elem_of_lookup_2 _ _ _ Hi)) as Hm.
  simpl in Hm. destruct (pending_operations g); lia.
Qed.

(** A step that only moves the thread on. *)
Lemma move_inv m0 g i t t' :
  inv g → hist m0 g → threads g !! i = Some t → rest_of t' = rest_of t → held t' = held t →
  (unanswered t' ↔ unanswered t) → (unanswered t → op_of (at_ t') = op_of (at_ t) ∧ start t' = start t ∧
    ∀ op, at_ t = AWaitStatus op → at_ t' = AWaitStatus op) →
  leader (at_ t') = leader (at_ t) → holder (at_ t') = holder (at_ t) → thread_ok g i t' →
  (setter (at_ t') = setter (at_ t) ∨ handler_busy g = false) →
  inv (set_thread i t' g) ∧ hist m0 (set_thread i t' g).
Proof.
  intros H Hh Hi Hr Hheld Hun Hs Hl Hho Hok Hset. split; [|by eapply hist_local].
  eapply local_inv; [done..| |]; [rewrite Hho; lia|].
  destruct Hset as [->|]; [|done]. rewrite Z.sub_add. apply (inv_setter _ H).
Qed.

Lemma finish_inv m0 g i t g' :
  inv g → hist m0 g → threads g !! i = Some t → (∃ op, at_ t = AWaitStatus op ∨ at_ t = ADone op) →
  finish i t g = Some g' → inv g' ∧ hist m0 g'.
Proof.
  intros H Hh Hi (op & Hat) (a & Ha & [= <-])%bind_Some.
  assert (Hr : rest_of t = []) by (unfold rest_of; by destruct Hat as [-> | ->]).
  split; [|eapply hist_finish; try done; by destruct Hat as [-> | ->]].
  eapply local_inv; try done.
  - split; [by intros []|]. intros [_ ?]. congruence.
  - intros [_ ?]. congruence.
  - by destruct Hat as [-> | ->].
  - split_and!; simpl; try done. lia.
  - destruct Hat as [-> | ->]; simpl; lia.
  - intros Hpos. apply (inv_setter _ H). destruct Hat as [E|E]; rewrite E in Hpos; simpl in Hpos; lia.
Qed.

Context `{!BatchLaws S Op Ans M}.

Lemma agg_step_inv m0 g g' : inv g → hist m0 g → step g g' → inv g' ∧ hist m0 g'.
Proof.
  intros H Hh (i & call & Hs). unfold advance, start_handle_operations in Hs.
  destruct (threads g !! i) as [t|] eqn:Hi; [|done]. simpl in Hs.
  pose proof (inv_thread _ H _ _ Hi) as Hok.
  destruct (at_ t) as [|op|op res|op|op|op|op|op [|a rest]|op] eqn:Hat, call as [c|]; try done.
  - case_decide as Haddr; [|done]. simplify_eq. eapply move_inv; try done.
    all: unfold rest_of, held, unanswered; rewrite ?Hat; simpl; try done; try by left.
    1-2: intuition congruence. split_and!; simpl; try done. by intros ? [= <-].
  - simplify_eq. destruct Hok as (H1 & H2 & H3 & H4 & H5). eapply move_inv; try done.
    all: unfold rest_of, held, unanswered, thread_ok; rewrite ?Hat in *; simpl; try done; by left.
  - case_decide as Hres; simplify_eq.
    + split; [by eapply cas_inv|]. eapply hist_local; [done..| |].
      * unfold held. rewrite Hat. by destruct (head_address _).
      * unfold rest_of. rewrite Hat. by destruct (head_address _).
    + destruct Hok as (H1 & H2 & H3 & H4 & H5). eapply move_inv; try done.
      all: unfold rest_of, held, unanswered, thread_ok; rewrite ?Hat in *; simpl; try done; by left.
  - destruct (status t) eqn:Hst; [|by simplify_eq]. eapply finish_inv; eauto.
  - destruct (handler_busy g) eqn:Hb; [by simplify_eq|]. simplify_eq.
    destruct Hok as (H1 & H2 & H3 & H4 & H5). eapply move_inv; try done.
    all: unfold rest_of, held, unanswered, thread_ok; rewrite ?Hat in *; simpl; try done; by right.
  - simplify_eq. pose proof (setter_le _ _ _ H Hi ltac:(by rewrite Hat)) as Hset.
    pose proof (inv_setter _ H ltac:(lia)) as Hb. destruct Hok as (H1 & H2 & H3 & H4 & H5).
    unfold set_busy, go, set_thread; simpl.
    split; [|eapply hist_local; try done; unfold held, rest_of; by rewrite Hat].
    eapply local_inv; try done.
    all: unfold rest_of, unanswered, thread_ok; rewrite ?Hat in *; simpl; try done; try (rewrite Hb; done); lia.
  - apply bind_Some in Hs as ([s ans] & Hhd & [= <-]). destruct Hh as [Hp Hc (lins & m & Hl & Hsp & Hrep)].
    destruct (handle_spec (pending_operations g) (object g) m Hrep) as (s' & ans' & lin & m' & Hhd' & Hans & Hlin & Hsp' & Hrep').
    simplify_eq. split; [by eapply grab_inv|]. constructor; simpl.
    + set (t' := Thread (AHandle op ans) (status t) (start t)).
      rewrite join_app, Hp, (held_insert_same _ t) by (done || unfold held; by rewrite Hat). simpl. rewrite app_nil_r.
      pose proof (mjoin_insert_perm rest_of (threads g) i t t' Hi) as Hm. unfold rest_of at 1 3 in Hm.
      rewrite Hat in Hm. simpl in Hm. unfold rests at 2. rewrite Hm. solve_Permutation.
    + eapply Forall_impl; [exact Hc|]. intros [[b0 e] a] (He & b & batch & Hb & Hlk & Hin).
      rewrite length_app. split; [lia|]. exists b, batch. split_and!; try done; try lia. by apply lookup_app_l_Some.
    + exists (lins ++ [lin]), m'. split_and!; [by apply Forall2_app; [|constructor]| |done].
      rewrite join_app. simpl. rewrite app_nil_r. by eapply spec_app.
  - simplify_eq. pose proof (handler_answered _ _ _ _ H Hi Hat) as Hans.
    destruct Hok as (H1 & H2 & H3 & H4 & H5).
    unfold set_busy, go, set_thread; simpl.
    split; [|eapply hist_local; try done; unfold held, rest_of; by rewrite Hat].
    pose proof (inv_busy _ H) as Hb. pose proof (zsum_member (λ t, holder (at_ t)) (threads g) t
      ltac:(apply Forall_forall; intros x _; simpl; by destruct (at_ x)) (list_elem_of_lookup_2 _ _ _ Hi)) as Hm.
    simpl in Hm. rewrite Hat, Hb in Hm. destruct (handler_busy g) eqn:Hbusy; [|done].
    eapply local_inv; try done.
    all: unfold rest_of, unanswered, thread_ok; rewrite ?Hat in *; simpl; try done; try tauto.
    by rewrite Hbusy.
  - apply bind_Some in Hs as (ts & Hst & [= <-]). split; [by eapply store_inv|by eapply hist_store].
  - eapply finish_inv; eauto.
Qed.

Lemma agg_reachable m0 s n g :
  represents s m0 → rtc step (init s n) g → inv g ∧ hist m0 g.
Proof.
  intros Hrep Hr. pattern g. eapply rtc_ind_r; [| |exact Hr].
  - assert (Hj : ∀ (f : thread → list Ans), f (Thread Idle None 0) = [] →
      mjoin (f <$> replicate n (Thread Idle None 0)) = []).
    { intros f Hf. clear Hr. induction n; [done|]. simpl. by rewrite Hf. }
    split.
    + constructor; unfold outstanding, rests; simpl; rewrite ?Hj, ?zsum_replicate by done; simpl; try lia.
      * constructor.
      * intros i. split; [by intros ?%elem_of_nil|].
        intros (t & (-> & _)%lookup_replicate & Hq & _). done.
      * by intros ? ?%elem_of_nil.
      * by intros ? ?%elem_of_nil.
      * intros i t (-> & _)%lookup_replicate. by split_and!.
    + constructor; unfold rests; simpl; rewrite ?Hj by done; [done|done|].
      exists [], m0. split_and!; [done|apply spec_nil|done].
  - intros g1 g2 _ Hs [H Hh]. by eapply agg_step_inv.
Qed.

(** ** Progress *)

(** The thread is outside, or spins on something that another thread must change. *)
Definition spinning (g : aggregator) (t : thread) : Prop :=
  match at_ t with
  | Idle => True
  | AWaitStatus _ => status t = None
  | AWaitBusy _ => handler_busy g = true
  | _ => False
  end.
Definition progresses (g : aggregator) : Prop :=
  ∃ j t g', threads g !! j = Some t ∧ ¬ spinning g t ∧ advance j None g = Some g'.

Lemma not_spinning_progress m0 g j t :
  inv g → hist m0 g → threads g !! j = Some t → ¬ spinning g t → progresses g.
Proof.
  intros H [_ _ (lins & m & _ & _ & Hrep)] Hj Hns. unfold progresses. exists j, t.
  unfold spinning in *. unfold advance, start_handle_operations. rewrite Hj. simpl.
  pose proof (inv_thread _ H _ _ Hj) as (_ & _ & _ & Hst & _).
  destruct (at_ t) as [|op|op res|op|op|op|op|op [|a rest]|op] eqn:Hat; try done; eauto.
  - case_decide; eauto.
  - unfold finish. destruct (status t); [eauto|done].
  - destruct (handle_spec (pending_operations g) (object g) m Hrep) as (s & ans & _ & _ & -> & _). simpl. eauto.
  - assert (Hin : a ∈ rests (threads g)).
    { apply list_elem_of_join. exists (a :: rest). split; [by left|]. apply list_elem_of_fmap. exists t.
      split; [unfold rest_of; by rewrite Hat|by eapply list_elem_of_lookup_2]. }
    destruct (inv_rest _ H _ Hin) as (tj & Htj & _). unfold store_status.
    destruct (lookup_lt_is_Some_2 (<[j := Thread (AHandle op rest) (status t) (start t)]> (threads g))
      (address (answered a))) as [t1 ->]; [rewrite length_insert; by eapply lookup_lt_Some|]. simpl. eauto.
  - unfold finish. destruct (status t); [simpl; eauto|done].
Qed.

Lemma call_progress m0 g i t :
  inv g → hist m0 g → threads g !! i = Some t → at_ t ≠ Idle → progresses g.
Proof.
  intros H Hh Hi Hidle.
  assert (Hholder : handler_busy g = true → progresses g).
  { intros Hb. destruct (zsum_pos (λ t, holder (at_ t)) (threads g)) as (x & (k & Hk)%list_elem_of_lookup_1 & Hx).
    { rewrite (inv_busy _ H), Hb. done. }
    eapply not_spinning_progress; [done..|]. unfold spinning. simpl in Hx. destruct (at_ x); simpl in Hx; (lia || by intros []). }
  assert (Hleader : pending_operations g ≠ [] → progresses g).
  { intros Hp. destruct (zsum_pos (λ t, leader (at_ t)) (threads g)) as (x & (k & Hk)%list_elem_of_lookup_1 & Hx).
    { rewrite (inv_leader _ H). by destruct (pending_operations g). }
    destruct (handler_busy g) eqn:Hb; [auto|]. eapply not_spinning_progress; [done..|].
    unfold spinning. simpl in Hx. destruct (at_ x); simpl in Hx; rewrite ?Hb; (lia || by intros []). }
  destruct (at_ t) as [|op|op res|op|op|op|op|op l|op] eqn:Hat; try done.
  3:{ destruct (status t) eqn:Hst.
      { eapply not_spinning_progress; [done..|]. unfold spinning. by rewrite Hat, Hst. }
      assert (Hout : i ∈ outstanding g) by (apply (inv_out _ H); exists t; by rewrite Hat).
      apply elem_of_app in Hout as [(o & _ & Ho)%list_elem_of_fmap|(a & _ & Ha)%list_elem_of_fmap].
      - apply Hleader. intros Hp. by rewrite Hp in Ho; apply elem_of_nil in Ho.
      - apply list_elem_of_join in Ha as (l & Hal & (tk & -> & Htk)%list_elem_of_fmap).
        apply list_elem_of_lookup_1 in Htk as (k & Hk). eapply not_spinning_progress; [done..|].
        unfold spinning, rest_of in *. destruct (at_ tk); (by apply elem_of_nil in Hal) || by intros []. }
  3:{ destruct (handler_busy g) eqn:Hb; [auto|]. eapply not_spinning_progress; [done..|].
      unfold spinning. by rewrite Hat, Hb. }
  all: eapply not_spinning_progress; [done..|]; unfold spinning; rewrite Hat; by intros [].
Qed.
End aggregator.
Arguments pc : clear implicits.
Arguments thread : clear implicits.
Arguments aggregator : clear implicits.
End Aggregator.

(** ** The concurrent priority queue *)
Module ConcurrentPriorityQueue.
Import Cpq Aggregator.
Section cpq.
Context {T : Type} (my_compare : T → T → bool) `{!StrictWeakOrder my_compare}.

#[local] Instance cpq_object : BatchObject concurrent_priority_queue cpq_operation answer (list T) :=
  Build_BatchObject _ _ _ _ (handle_operations my_compare) Cpq.answered ident
    (λ q M, wf my_compare q ∧ M = data q) (pq_run my_compare).

Lemma pq_run_app (M : list T) l M' k M'' :
  pq_run my_compare M l M' → pq_run my_compare M' k M'' → pq_run my_compare M (l ++ k) M''.
Proof.
  intros Hl Hk. induction Hk as [M1 H1|k a M1 M2 Hk IH Hs].
  - rewrite app_nil_r. by eapply pq_run_final.
  - rewrite app_assoc. by eapply pq_snoc.
Qed.

#[local] Instance cpq_laws : BatchLaws concurrent_priority_queue cpq_operation answer (list T).
Proof.
  constructor.
  - intros M. by apply pq_nil.
  - intros M l M' k M''. apply pq_run_app.
  - intros l q M [Hwf ->]. destruct (handle_operations_spec my_compare q l Hwf) as (q' & ans & Hh & Hwf' & Ha & lin & Hl & Hr).
    by exists q', ans, lin, (data q').
Qed.

(** C7: any number of threads push and pop concurrently on one
    [concurrent_priority_queue], whose aggregator hands the operations over in
    batches, in every interleaving: (1) there is an order of the answers, batch
    by batch, that is a run of a sequential priority queue from the initial to the
    present contents, which are a heap; (2) an operation that has been handled is
    that of exactly one call, finished or still to return; (3) a finished call
    was handled in a batch between its begin and its end, so that the order respects
    real time; (4) no two threads are in [handle_operations] at once; (5) while a
    call has not returned some thread makes progress. *)
Theorem concurrent_priority_queue_linearizable (q : concurrent_priority_queue) (n : nat)
    (g : aggregator concurrent_priority_queue cpq_operation answer)
    (Hwf : wf my_compare q) (Hr : rtc step (init q n) g) :
  (∃ lins, Forall2 (≡ₚ) lins (log g) ∧ pq_run my_compare (data q) (mjoin lins) (data (object g)) ∧
     wf my_compare (object g)) ∧
  mjoin (log g) ≡ₚ (snd <$> completed g) ++ mjoin (held <$> threads g) ++ rests (threads g) ∧
  Forall (λ '(s, e, a), e ≤ length (log g) ∧
    ∃ b batch, s ≤ b < e ∧ log g !! b = Some batch ∧ a ∈ batch) (completed g) ∧
  (∀ i j t t', threads g !! i = Some t → threads g !! j = Some t' →
     holder (at_ t) = 1%Z → holder (at_ t') = 1%Z → i = j) ∧
  (∀ i t, threads g !! i = Some t → at_ t ≠ Idle → progresses g).
Proof.
  destruct (agg_reachable (data q) q n g) as [H Hh]; [done..|].
  split_and!.
  - destruct (hist_spec _ _ Hh) as (lins & M & Hl & Hrun & Hw & ->). by exists lins.
  - apply (hist_perm _ _ Hh).
  - apply (hist_completed _ _ Hh).
  - intros i j t t'. by apply single_holder.
  - intros i t. by apply (call_progress (data q)).
Qed.
End cpq.
End ConcurrentPriorityQueue.

Module AggregatorExamples.
Import Cpq Aggregator ConcurrentPriorityQueue.
#[local] Existing Instance cpq_object.

(** Three threads on a queue of three elements: two pushes and a pop; the pop is
    taken together with the second push. *)
Definition push_op (i : nat) (x : Z) : cpq_operation := CpqOperation i PUSH_OP x false.
Definition pop_op (i : nat) : cpq_operation := CpqOperation i POP_OP 0%Z false.
Definition calls : list (nat * option (cpq_operation (T := Z))) :=
  [(0, Some (push_op 0 5%Z)); (0, None); (0, None); (0, None); (0, None); (0, None);
   (1, Some (pop_op 1)); (1, None); (2, Some (push_op 2 9%Z)); (2, None); (1, None); (2, None); (2, None);
   (0, None); (0, None); (0, None); (1, None); (1, None); (1, None); (1, None)].

Definition cpq_run (l : list (nat * option cpq_operation)) (n : nat) :
    option (aggregator concurrent_priority_queue cpq_operation answer) :=
  run_trace (λ ic, @advance _ _ _ _ (cpq_object Z.ltb) ic.1 ic.2) l (init CpqExamples.q3 n).

Lemma cpq_run_steps l n g :
  cpq_run l n = Some g → rtc (@step _ _ _ _ (cpq_object Z.ltb)) (init CpqExamples.q3 n) g.
Proof. apply run_trace_rtc. intros [i c] g1 g2 H. by exists i, c. Qed.

Lemma concurrent_priority_queue_linearizable_witness :
  ∃ g, cpq_run calls 3 = Some g ∧ length (completed g) = 1 ∧ length (log g) = 2 ∧
    ∃ lins, Forall2 (≡ₚ) lins (log g) ∧ pq_run Z.ltb [6; 2; 4]%Z (mjoin lins) (data (object g)).
Proof.
  destruct (cpq_run calls 3) as [g|] eqn:E; [|vm_compute in E; discriminate E].
  exists g. split; [done|].
  destruct (concurrent_priority_queue_linearizable Z.ltb CpqExamples.q3 3 g CpqExamples.q3_wf (cpq_run_steps _ _ _ E))
    as ((lins & Hl & Hrun & _) & _).
  vm_compute in E. injection E as <-. split; [reflexivity|]. split; [reflexivity|]. exists lins. split; [exact Hl|exact Hrun].
Defined.
End AggregatorExamples.
