(* ===== verification/Malloc.v ===== *)
(** * The scalable allocator: size classes and aligned objects

    Source: src/tbbmalloc/frontend.cpp ([getIndex], [getObjectSize],
    [allocateAligned], [findObjectToFree]) and src/tbbmalloc/shared_utils.h.

    Small objects are cut from slabs of [slabSize] bytes, aligned to their size;
    a slab holds objects of one size, from its end down to its header. *)

From S2P Require Import Prelude.
From stdpp Require Import base numbers list.
From Stdlib Require Import ZArith Lia.
Local Open Scope Z_scope.

Module SizeClasses.
Section size_classes.
(** 64, or 128 on PowerPC. *)
Context (estimatedCacheLineSize : Z).

Definition slabSize : Z := 16 * 1024.
Definition sizeof_Block : Z := 2 * estimatedCacheLineSize.

Definition minSmallObjectIndex : Z := 0.
Definition numSmallObjectBins : Z := 8.
Definition maxSmallObjectSize : Z := 64.
Definition minSegregatedObjectIndex : Z := minSmallObjectIndex + numSmallObjectBins.
Definition numSegregatedObjectBins : Z := 16.
Definition maxSegregatedObjectSize : Z := 1024.
Definition minFittingIndex : Z := minSegregatedObjectIndex + numSegregatedObjectBins.
Definition numFittingBins : Z := 5.
Definition fittingAlignment : Z := estimatedCacheLineSize.
Definition SET_FITTING_SIZE (n : Z) : Z :=
  Z.land ((slabSize - sizeof_Block) / n) ((Z.lnot (fittingAlignment - 1)) mod 2 ^ 32).
Definition fittingSize1 : Z := SET_FITTING_SIZE 9.
Definition fittingSize2 : Z := SET_FITTING_SIZE 6.
Definition fittingSize3 : Z := SET_FITTING_SIZE 4.
Definition fittingSize4 : Z := SET_FITTING_SIZE 3.
Definition fittingSize5 : Z := SET_FITTING_SIZE 2.
Definition numBlockBins : Z := minFittingIndex + numFittingBins.
Definition numBlockBinLimit : Z := 31.
Definition minLargeObjectSize : Z := fittingSize5 + 1.

(** Arithmetic on [unsigned int]. *)
Definition u32 (x : Z) : Z := x mod 2 ^ 32.

Definition highestBitPos (n : Z) : Z := Z.log2 n.

Definition getSmallObjectIndex (size : Z) : Z :=
  let result := Z.shiftr (u32 (size - 1)) 3 in
  if result =? 0 then result else Z.lor result 1.

(** [alignUp] and [isAligned] on 64-bit values. *)
Definition alignUp (arg alignment : Z) : Z :=
  Z.land ((arg + (alignment - 1)) mod 2 ^ 64) ((Z.lnot (alignment - 1)) mod 2 ^ 64).
Definition isAligned (arg alignment : Z) : bool := Z.land arg (alignment - 1) =? 0.

Definition getIndexOrObjectSize (indexRequest : bool) (size : Z) : Z :=
  if size <=? maxSmallObjectSize then
    let index := getSmallObjectIndex size in
    if indexRequest then index else u32 (Z.shiftl (index + 1) 3)
  else if size <=? maxSegregatedObjectSize then
    let order := highestBitPos (size - 1) in
    if indexRequest then
      u32 (minSegregatedObjectIndex - 4 * 6 - 4 + 4 * order + Z.shiftr (size - 1) (order - 2))
    else
      let alignment := Z.shiftr 128 (9 - order) in
      alignUp size alignment
  else if size <=? fittingSize3 then
    if size <=? fittingSize2 then
      if size <=? fittingSize1 then if indexRequest then minFittingIndex else fittingSize1
      else if indexRequest then minFittingIndex + 1 else fittingSize2
    else if indexRequest then minFittingIndex + 2 else fittingSize3
  else if size <=? fittingSize5 then
    if size <=? fittingSize4 then if indexRequest then minFittingIndex + 3 else fittingSize4
    else if indexRequest then minFittingIndex + 4 else fittingSize5
  else 2 ^ 32 - 1.

Definition getIndex (size : Z) : Z := getIndexOrObjectSize true size.
Definition getObjectSize (size : Z) : Z := getIndexOrObjectSize false size.

(** ** Objects in a slab at [this], with objects of [objectSize] bytes *)
Definition isProperlyPlaced (this objectSize object : Z) : bool :=
  (this + slabSize - object) mod objectSize =? 0.

Definition findAllocatedObject (this objectSize address : Z) : Z :=
  let tmp_offset := this + slabSize - address in
  let offset := (tmp_offset mod 2 ^ 16) mod objectSize in
  address - (if offset =? 0 then 0 else objectSize - offset).

Definition findObjectToFree (this objectSize object : Z) : Z :=
  if objectSize <=? maxSegregatedObjectSize then object
  else if negb (isAligned object (2 * fittingAlignment)) then object
  else findAllocatedObject this objectSize object.

Definition findObjectSize (this objectSize object : Z) : Z :=
  objectSize - (object - findObjectToFree this objectSize object).

(** [allocateAligned]: which request goes to [internalPoolMalloc] and what is done
    with the object; [None] is the way to the large objects. *)
Definition allocateAligned (size alignment : Z) : option (Z * (Z → Z)) :=
  if (size <=? maxSegregatedObjectSize) && (alignment <=? maxSegregatedObjectSize) then
    Some (alignUp (if size =? 0 then 8 else size) alignment, λ o, o)
  else if size <? minLargeObjectSize then
    if alignment <=? fittingAlignment then Some (size, λ o, o)
    else if size + alignment <? minLargeObjectSize then Some (size + alignment, λ o, alignUp o alignment)
    else None
  else None.
End size_classes.

(** ** The size classes, checked one by one *)

(** [P] of all integers from [a] on, [n] of them. *)
Fixpoint all_from (P : Z → bool) (n : nat) (a : Z) : bool :=
  match n with O => true | S n => P a && all_from P n (a + 1) end.

Lemma all_from_spec P n a x : all_from P n a = true → a ≤ x < a + Z.of_nat n → P x = true.
Proof.
  revert a. induction n as [|n IH]; intros a; simpl; [lia|].
  intros [Ha Hn]%andb_true_iff Hx. destruct (decide (x = a)) as [->|]; [done|]. apply (IH (a + 1)); [done|lia].
Qed.

Definition line_ok (line : Z) : Prop := line = 64 ∨ line = 128.

Ltac by_line Hl := destruct Hl as [->| ->]; vm_compute; reflexivity.

Lemma fitting_values line : line_ok line →
  fittingSize1 line = 1792 ∧ fittingSize2 line = 2688 ∧ fittingSize3 line = (if line =? 64 then 4032 else 3968) ∧
  fittingSize4 line = 5376 ∧ fittingSize5 line = 8192 - line.
Proof. intros Hl. split_and!; by_line Hl. Qed.

(** The object size of each bin; bins 2, 4 and 6 are not used. *)
Definition bin_size (line : Z) : list Z :=
  [8; 16; 0; 32; 0; 48; 0; 64; 80; 96; 112; 128; 160; 192; 224; 256; 320; 384; 448; 512; 640; 768; 896; 1024;
   fittingSize1 line; fittingSize2 line; fittingSize3 line; fittingSize4 line; fittingSize5 line].

(** A request of up to 1024 bytes: its bin, its object size, the waste, and that
    the object size is divisible by every power of two that divides the request. *)
Definition class_check (size : Z) : bool :=
  let i := getIndex 64 size in let o := getObjectSize 64 size in
  (0 <=? i) && (i <? minFittingIndex) && (nth (Z.to_nat i) (bin_size 64) 0 =? o) &&
  (size <=? o) && (o <=? 1024) && (o mod 8 =? 0) && ((size <=? 8) || (o mod 16 =? 0)) &&
  ((size <=? 64) || (4 * (o - size) <? size)) && (getIndex 64 o =? i) && (getObjectSize 64 o =? o) &&
  forallb (λ a, negb (size mod 2 ^ a =? 0) || (o mod 2 ^ a =? 0)) [0; 1; 2; 3; 4; 5; 6; 7; 8; 9; 10].

Lemma class_check_all size : 1 ≤ size ≤ 1024 → class_check size = true.
Proof.
  intros Hs. assert (H : all_from class_check 1024 1 = true) by (vm_compute; reflexivity).
  apply (all_from_spec _ _ _ size H). lia.
Qed.

Lemma small_class line r size : size ≤ 1024 → getIndexOrObjectSize line r size = getIndexOrObjectSize 64 r size.
Proof.
  intros Hs. unfold getIndexOrObjectSize, maxSmallObjectSize, maxSegregatedObjectSize.
  destruct (Z.leb_spec size 64); [done|]. destruct (Z.leb_spec size 1024); [done|lia].
Qed.

Lemma small_class_facts line size : 1 ≤ size ≤ 1024 →
  let i := getIndex line size in let o := getObjectSize line size in
  0 ≤ i < minFittingIndex ∧ nth (Z.to_nat i) (bin_size 64) 0 = o ∧ size ≤ o ≤ 1024 ∧ o mod 8 = 0 ∧
  (8 < size → o mod 16 = 0) ∧ (64 < size → 4 * (o - size) < size) ∧
  getIndex line o = i ∧ getObjectSize line o = o ∧
  (∀ a, 0 ≤ a ≤ 10 → size mod 2 ^ a = 0 → o mod 2 ^ a = 0).
Proof.
  intros Hs. unfold getIndex, getObjectSize. rewrite !(small_class line _ size) by lia.
  fold (getIndex 64 size) (getObjectSize 64 size). pose proof (class_check_all size Hs) as H.
  unfold class_check in H. repeat rewrite andb_true_iff in H.
  destruct H as ((((((((((H1 & H2) & H3) & H4) & H5) & H6) & H7) & H8) & H9) & H10) & H11).
  assert (Ho : getObjectSize 64 size ≤ 1024) by lia.
  cbv zeta. rewrite !(small_class line) by lia. fold (getIndex 64 (getObjectSize 64 size)) (getObjectSize 64 (getObjectSize 64 size)).
  rewrite orb_true_iff, !Z.leb_le, Z.eqb_eq in H7. rewrite orb_true_iff, Z.leb_le, Z.ltb_lt in H8.
  apply Z.eqb_eq in H3. split_and!; try done; try lia.
  intros a Ha Hm. rewrite forallb_forall in H11.
  assert (Hin : In a [0; 1; 2; 3; 4; 5; 6; 7; 8; 9; 10]) by (simpl; lia).
  specialize (H11 a Hin). rewrite Hm in H11. simpl in H11. lia.
Qed.

(** A request above 1024 bytes gets the smallest fitting size. *)
Lemma large_class_facts line size : line_ok line → 1024 < size ≤ fittingSize5 line →
  ∃ k, (k < 5)%nat ∧ getIndex line size = minFittingIndex + Z.of_nat k ∧
    bin_size line !! (24 + k)%nat = Some (getObjectSize line size) ∧ size ≤ getObjectSize line size ≤ fittingSize5 line ∧
    getObjectSize line size mod line = 0 ∧
    getIndex line (getObjectSize line size) = getIndex line size ∧
    getObjectSize line (getObjectSize line size) = getObjectSize line size.
Proof.
  intros Hl Hs. destruct (fitting_values _ Hl) as (E1 & E2 & E3 & E4 & E5).
  assert (Hm : ∀ x, x ∈ [fittingSize1 line; fittingSize2 line; fittingSize3 line; fittingSize4 line; fittingSize5 line] →
    x mod line = 0).
  { intros x. rewrite E1, E2, E3, E4, E5. rewrite !elem_of_cons, elem_of_nil.
    destruct Hl as [->| ->]; simpl; intros [->|[->|[->|[->|[->|[]]]]]]; reflexivity. }
  assert (Hcls : ∀ r x, 1024 < x → getIndexOrObjectSize line r x =
    if x <=? fittingSize3 line then
      if x <=? fittingSize2 line then if x <=? fittingSize1 line then if r then 24 else fittingSize1 line
        else if r then 25 else fittingSize2 line
      else if r then 26 else fittingSize3 line
    else if x <=? fittingSize5 line then if x <=? fittingSize4 line then if r then 27 else fittingSize4 line
      else if r then 28 else fittingSize5 line
    else 2 ^ 32 - 1).
  { intros r x Hx. unfold getIndexOrObjectSize, maxSmallObjectSize, maxSegregatedObjectSize.
    destruct (Z.leb_spec x 64); [lia|]. destruct (Z.leb_spec x 1024); [lia|]. done. }
  unfold getIndex, getObjectSize.
  assert (Hf3 : 2688 < fittingSize3 line < 5376) by (destruct Hl as [->| ->]; rewrite E3; simpl; lia).
  assert (Hf5 : 5376 < fittingSize5 line) by (destruct Hl; lia).
  assert (Hcase : ∀ k f, (k < 5)%nat → bin_size line !! (24 + k)%nat = Some f → size ≤ f ≤ fittingSize5 line →
    (∀ r : bool, getIndexOrObjectSize line r size = if r then 24 + Z.of_nat k else f) →
    (∀ r : bool, getIndexOrObjectSize line r f = if r then 24 + Z.of_nat k else f) → f mod line = 0 →
    ∃ k, (k < 5)%nat ∧ getIndexOrObjectSize line true size = minFittingIndex + Z.of_nat k ∧
      bin_size line !! (24 + k)%nat = Some (getIndexOrObjectSize line false size) ∧
      size ≤ getIndexOrObjectSize line false size ≤ fittingSize5 line ∧
      getIndexOrObjectSize line false size mod line = 0 ∧
      getIndexOrObjectSize line true (getIndexOrObjectSize line false size) = getIndexOrObjectSize line true size ∧
      getIndexOrObjectSize line false (getIndexOrObjectSize line false size) = getIndexOrObjectSize line false size).
  { intros k f Hk Hb Hf H1 H2 Hfm. exists k. rewrite !H1, !H2. split_and!; try done; lia. }
  destruct (Z_le_gt_dec size (fittingSize1 line)); [apply (Hcase 0%nat (fittingSize1 line))|
    destruct (Z_le_gt_dec size (fittingSize2 line)); [apply (Hcase 1%nat (fittingSize2 line))|
    destruct (Z_le_gt_dec size (fittingSize3 line)); [apply (Hcase 2%nat (fittingSize3 line))|
    destruct (Z_le_gt_dec size (fittingSize4 line)); [apply (Hcase 3%nat (fittingSize4 line))|
    apply (Hcase 4%nat (fittingSize5 line))]]]].
  all: try done; try lia; try (apply Hm; rewrite !elem_of_cons; tauto).
  all: intros r; rewrite Hcls by lia;
    repeat match goal with |- context [?x <=? ?y] => destruct (Z.leb_spec x y); try lia end; done.
Qed.

(** C33: for every request that is served from slabs, with either cache line
    size: the index is within the bins of a thread; the object is large enough; all
    requests of a bin have one object size, for which the bin is found again; an
    object is aligned to 8 bytes, and to 16 bytes if the request exceeds 8; between 64
    and 1024 bytes less than a quarter of the request is wasted; a slab holds at
    least two objects. *)
Theorem size_classes_correct (line size : Z) (Hl : line_ok line) (Hs : 1 ≤ size ≤ fittingSize5 line) :
  let i := getIndex line size in let o := getObjectSize line size in
  0 ≤ i < numBlockBins ∧ numBlockBins ≤ numBlockBinLimit ∧
  size ≤ o ∧ bin_size line !! Z.to_nat i = Some o ∧ getIndex line o = i ∧ getObjectSize line o = o ∧
  o mod 8 = 0 ∧ (8 < size → o mod 16 = 0) ∧ (64 < size ≤ 1024 → 4 * (o - size) < size) ∧
  (1024 < size → o mod line = 0) ∧ 2 * o ≤ slabSize - sizeof_Block line.
Proof.
  destruct (fitting_values _ Hl) as (_ & _ & _ & _ & E5). destruct (Z_le_gt_dec size 1024) as [Hsm|Hlg].
  - destruct (small_class_facts line size) as (Hi & Hn & Ho & H8 & H16 & Hw & Hio & Hoo & _); [lia|]. cbv zeta in *.
    unfold minFittingIndex, minSegregatedObjectIndex, minSmallObjectIndex, numSmallObjectBins, numSegregatedObjectBins in Hi.
    assert (Hb : bin_size line !! Z.to_nat (getIndex line size) = Some (getObjectSize line size)).
    { rewrite <- Hn. set (j := Z.to_nat (getIndex line size)).
      assert (Hj : (j < 24)%nat) by (unfold j; lia). clearbody j. do 24 (destruct j as [|j]; [done|]). lia. }
    unfold numBlockBins, minFittingIndex, minSegregatedObjectIndex, minSmallObjectIndex, numSmallObjectBins,
      numSegregatedObjectBins, numFittingBins, numBlockBinLimit, slabSize, sizeof_Block.
    split_and!; try done; try lia. destruct Hl; lia.
  - destruct (large_class_facts line size) as (k & Hk & Hi & Hb & Ho & Hm & Hio & Hoo); [done|lia|].
    cbv zeta. assert (Hm64 : getObjectSize line size mod 64 = 0).
    { destruct Hl as [->| ->]; [done|]. apply Z.mod_divide in Hm as [z ->]; [|done].
      replace (z * 128) with (z * 2 * 64) by lia. apply Z.mod_mul. done. }
    rewrite Hi in *. change minFittingIndex with 24 in *.
    unfold numBlockBins, numFittingBins, numBlockBinLimit, slabSize, sizeof_Block. change minFittingIndex with 24.
    assert (Hz : Z.to_nat (24 + Z.of_nat k) = (24 + k)%nat) by lia. rewrite Hz.
    apply Z.mod_divide in Hm64 as [z Hz64]; [|done].
    assert (H16 : getObjectSize line size mod 16 = 0) by (rewrite Hz64; replace (z * 64) with (z * 4 * 16) by lia; by apply Z.mod_mul).
    assert (H8 : getObjectSize line size mod 8 = 0) by (rewrite Hz64; replace (z * 64) with (z * 8 * 8) by lia; by apply Z.mod_mul).
    split_and!; try done; try lia.
Qed.

Lemma size_classes_correct_witness :
  getObjectSize 64 1000 = 1024 ∧ getIndex 64 5000 = 27 ∧ 2 * getObjectSize 64 5000 ≤ slabSize - sizeof_Block 64.
Proof.
  split; [reflexivity|]. split; [reflexivity|].
  destruct (size_classes_correct 64 5000 (or_introl eq_refl)) as (_ & _ & _ & _ & _ & _ & _ & _ & _ & _ & H); [|exact H].
  split; discriminate.
Defined.

(** ** Aligned objects *)
Lemma land_high x a : 0 ≤ a → 0 ≤ x < 2 ^ 64 → Z.land x ((Z.lnot (2 ^ a - 1)) mod 2 ^ 64) = 2 ^ a * (x / 2 ^ a).
Proof.
  intros Ha Hx. replace (2 ^ a - 1) with (Z.ones a) by (rewrite Z.ones_equiv; lia).
  rewrite <- Z.land_ones, Z.land_assoc, (Z.land_comm x), <- Z.land_assoc, (Z.land_ones x), (Z.mod_small x) by lia.
  rewrite Z.land_comm, <- Z.ldiff_land, Z.ldiff_ones_r, Z.shiftl_mul_pow2, Z.shiftr_div_pow2 by lia. lia.
Qed.

Lemma alignUp_spec x a : 0 ≤ a → 0 ≤ x → x + 2 ^ a - 1 < 2 ^ 64 →
  alignUp x (2 ^ a) mod 2 ^ a = 0 ∧ x ≤ alignUp x (2 ^ a) < x + 2 ^ a.
Proof.
  intros Ha Hx Hlt. assert (Hp : 0 < 2 ^ a) by (apply Z.pow_pos_nonneg; lia).
  unfold alignUp. rewrite (Z.mod_small (x + _)), land_high by lia.
  replace (x + (2 ^ a - 1)) with (x + 2 ^ a - 1) by lia.
  pose proof (Z.div_mod (x + 2 ^ a - 1) (2 ^ a) ltac:(lia)) as Hdm.
  pose proof (Z.mod_pos_bound (x + 2 ^ a - 1) (2 ^ a) Hp).
  split; [|lia]. rewrite Z.mul_comm. by apply Z.mod_mul; lia.
Qed.

Lemma isAligned_spec x a : 0 ≤ a → isAligned x (2 ^ a) = true ↔ x mod 2 ^ a = 0.
Proof.
  intros Ha. unfold isAligned. replace (2 ^ a - 1) with (Z.ones a) by (rewrite Z.ones_equiv; lia).
  rewrite Z.land_ones by lia. apply Z.eqb_eq.
Qed.

(** The object number [k] from the end of the slab at [this]. *)
Definition slot (line this objectSize k : Z) : Z := this + slabSize - k * objectSize.
Definition slab_ok (line this objectSize k : Z) : Prop :=
  0 ≤ this ∧ this mod slabSize = 0 ∧ this + slabSize ≤ 2 ^ 64 ∧ 1 ≤ k ∧
  this + sizeof_Block line ≤ slot line this objectSize k.

Lemma slot_mod line this objectSize k a :
  slab_ok line this objectSize k → 0 ≤ a ≤ 14 → objectSize mod 2 ^ a = 0 → slot line this objectSize k mod 2 ^ a = 0.
Proof.
  intros (_ & Ht & _) Ha Ho. assert (Hp : 2 ^ a ≠ 0) by (apply Z.pow_nonzero; lia).
  apply Z.mod_divide in Ht; [|done]. apply Z.mod_divide in Ho; [|done]. apply Z.mod_divide; [done|].
  assert (Hs : (2 ^ a | slabSize)).
  { exists (2 ^ (14 - a)). rewrite <- Z.pow_add_r by lia. replace (14 - a + a) with 14 by lia. done. }
  unfold slot. apply Z.divide_sub_r; [apply Z.divide_add_r; [by etrans|done]|by apply Z.divide_mul_r].
Qed.

(** An address inside an object leads back to its start. *)
Lemma findAllocatedObject_slot line this objectSize k d :
  slab_ok line this objectSize k → 0 < line → 0 ≤ d < objectSize →
  findAllocatedObject this objectSize (slot line this objectSize k + d) = slot line this objectSize k.
Proof.
  intros (Ht0 & _ & _ & Hk & Hlow) Hl Hd. unfold findAllocatedObject, slot, sizeof_Block in *.
  replace (this + slabSize - (this + slabSize - k * objectSize + d)) with (k * objectSize - d) by lia.
  assert (Hko : objectSize ≤ k * objectSize) by nia.
  rewrite (Z.mod_small (k * objectSize - d)) by (unfold slabSize in *; lia).
  destruct (decide (d = 0)) as [->|Hne].
  - rewrite Z.sub_0_r, Z.mod_mul by lia. simpl. lia.
  - assert (Hm : (k * objectSize - d) mod objectSize = objectSize - d).
    { replace (k * objectSize - d) with (objectSize - d + (k - 1) * objectSize) by lia.
      rewrite Z.mod_add, Z.mod_small by lia. done. }
    rewrite Hm. destruct (Z.eqb_spec (objectSize - d) 0); lia.
Qed.

Lemma find_own_slot line this objectSize k :
  slab_ok line this objectSize k → 0 < line → 0 < objectSize →
  findObjectToFree line this objectSize (slot line this objectSize k) = slot line this objectSize k.
Proof.
  intros Hok Hl Ho. unfold findObjectToFree. destruct (_ <=? _); [done|]. destruct (negb _); [done|].
  pose proof (findAllocatedObject_slot line this objectSize k 0 Hok Hl ltac:(lia)) as H. by rewrite Z.add_0_r in H.
Qed.

Lemma line_pow line : line_ok line → ∃ b, (b = 6 ∨ b = 7) ∧ line = 2 ^ b.
Proof. intros [->| ->]; [exists 6|exists 7]; auto. Qed.

Lemma pow_mod_le x a b : 0 ≤ a ≤ b → x mod 2 ^ b = 0 → x mod 2 ^ a = 0.
Proof.
  intros Hab Hx. apply Z.mod_divide in Hx; [|apply Z.pow_nonzero; lia]. apply Z.mod_divide; [apply Z.pow_nonzero; lia|].
  etrans; [|exact Hx]. exists (2 ^ (b - a)). rewrite <- Z.pow_add_r by lia. f_equal. lia.
Qed.

(** The pointer [p], given out for the object at [o] of a slab. *)
Definition served (line size alignment r this k p : Z) : Prop :=
  let objectSize := getObjectSize line r in
  let o := slot line this objectSize k in
  1 ≤ r ≤ fittingSize5 line ∧ p mod alignment = 0 ∧ o ≤ p ∧ p + size ≤ o + objectSize ∧
  findObjectToFree line this objectSize p = o ∧ size ≤ findObjectSize line this objectSize p.

(** 1. The size is aligned up. *)
Lemma served_small line size s a this k :
  line_ok line → 0 ≤ a ≤ 10 → size ≤ s → 1 ≤ s ≤ 1024 → let r := alignUp s (2 ^ a) in
  slab_ok line this (getObjectSize line r) k → served line size (2 ^ a) r this k (slot line this (getObjectSize line r) k).
Proof.
  intros Hl Ha Hs Hs1 r Hok. destruct (fitting_values _ Hl) as (_ & _ & _ & _ & E5).
  assert (Hl0 : 0 < line ≤ 128) by (destruct Hl; lia). assert (Hp : 0 < 2 ^ a) by (apply Z.pow_pos_nonneg; lia).
  assert (Hd : (2 ^ a | 1024)).
  { exists (2 ^ (10 - a)). rewrite <- Z.pow_add_r by lia. by replace (10 - a + a) with 10 by lia. }
  assert (Hp10 : 2 ^ a ≤ 1024) by (apply Z.divide_pos_le; [lia|done]).
  destruct (alignUp_spec s a) as [Hm Hr]; [lia..|]. fold r in Hm, Hr. assert (Hr1 : r ≤ 1024).
  { apply Z.mod_divide in Hm as [z Hz]; [|lia]. destruct Hd as [z' Hz'].
    assert (Hzz : z < z' + 1) by (apply (Z.mul_lt_mono_pos_r (2 ^ a)); lia). nia. }
  destruct (small_class_facts line r) as (_ & _ & Ho & _ & _ & _ & _ & _ & Hdiv); [lia|]. cbv zeta in *.
  unfold served, findObjectSize. cbv zeta. rewrite find_own_slot by (done || lia).
  split_and!; try lia. apply slot_mod; [done|lia|]. apply Hdiv; [lia|done].
Qed.

(** 2. The alignment of the fitting sizes is enough. *)
Lemma served_fitting line size a this k :
  line_ok line → 0 ≤ a → 2 ^ a ≤ line → 1024 < size ≤ fittingSize5 line →
  slab_ok line this (getObjectSize line size) k →
  served line size (2 ^ a) size this k (slot line this (getObjectSize line size) k).
Proof.
  intros Hl Ha Hal Hs Hok. destruct (line_pow _ Hl) as (b & Hb & Eb).
  destruct (large_class_facts line size) as (_ & _ & _ & _ & Ho & Hm & _); [done|lia|].
  unfold served, findObjectSize. cbv zeta. rewrite find_own_slot by (done || lia || destruct Hl; lia).
  assert (Hab : a ≤ b) by (rewrite Eb in Hal; by apply (Z.pow_le_mono_r_iff 2) in Hal; lia).
  split_and!; try lia. apply slot_mod; [done|lia|]. rewrite Eb in Hm at 2. eapply pow_mod_le; [|exact Hm]. lia.
Qed.

(** 3. The address is aligned up inside a larger object. *)
Lemma served_offset line size a this k :
  line_ok line → 0 ≤ a → line < 2 ^ a → 0 ≤ size → 1024 < size + 2 ^ a ≤ fittingSize5 line →
  let objectSize := getObjectSize line (size + 2 ^ a) in slab_ok line this objectSize k →
  served line size (2 ^ a) (size + 2 ^ a) this k (alignUp (slot line this objectSize k) (2 ^ a)).
Proof.
  intros Hl Ha Hal Hs Hr objectSize Hok. destruct (line_pow _ Hl) as (b & Hb & Eb).
  destruct (large_class_facts line (size + 2 ^ a)) as (_ & _ & _ & _ & Ho & _); [done|lia|]. fold objectSize in Ho.
  pose proof Hok as (Ht & _ & Hend & Hk & Hlow). set (o := slot line this objectSize k) in *.
  assert (Hend' : o + objectSize ≤ this + slabSize) by (unfold o, slot; nia).
  destruct (alignUp_spec o a) as [Hm Hp]; [lia|unfold sizeof_Block in *; destruct Hl; lia|lia|].
  set (p := alignUp o (2 ^ a)) in *.
  assert (Hfind : findObjectToFree line this objectSize p = o).
  { unfold findObjectToFree, maxSegregatedObjectSize. destruct (Z.leb_spec objectSize 1024); [lia|].
    assert (Hpa : isAligned p (2 * fittingAlignment line) = true).
    { unfold fittingAlignment. rewrite Eb, <- Z.pow_succ_r by lia. apply isAligned_spec; [lia|].
      eapply pow_mod_le; [|exact Hm]. split; [lia|]. apply Z.le_succ_l, (Z.pow_lt_mono_r_iff 2); lia. }
    rewrite Hpa. simpl. replace p with (o + (p - o)) by lia.
    apply findAllocatedObject_slot; [done|destruct Hl; lia|lia]. }
  unfold served, findObjectSize. cbv zeta. fold objectSize o. rewrite Hfind. split_and!; try done; lia.
Qed.

(** C34: an aligned allocation served from a slab, for any power-of-two
    alignment: the request to [internalPoolMalloc] is a valid small size; the
    pointer that the caller gets is aligned, its [size] bytes lie within the object of
    the slab, and [findObjectToFree] and [findObjectSize], given that pointer, find
    the object again and report at least [size] bytes. *)
Theorem aligned_allocation_roundtrip (line size a r this k : Z) (place : Z → Z)
    (Hl : line_ok line) (Ha : 0 ≤ a) (Hs : 0 ≤ size)
    (Halloc : allocateAligned line size (2 ^ a) = Some (r, place))
    (Hok : slab_ok line this (getObjectSize line r) k) :
  served line size (2 ^ a) r this k (place (slot line this (getObjectSize line r) k)).
Proof.
  unfold allocateAligned, maxSegregatedObjectSize, minLargeObjectSize, fittingAlignment in Halloc.
  assert (Hl0 : 0 < line ≤ 128) by (destruct Hl; lia).
  destruct (Z.leb_spec size 1024), (Z.leb_spec (2 ^ a) 1024) as [Ha1|]; simpl in Halloc.
  1: { injection Halloc as <- <-. apply served_small; try done; [|by destruct (Z.eqb_spec size 0); lia..].
       split; [done|]. by apply (Z.pow_le_mono_r_iff 2). }
  all: destruct (Z.ltb_spec size (fittingSize5 line + 1)); [|done].
  all: destruct (Z.leb_spec (2 ^ a) line).
  all: try (injection Halloc as <- <-; apply served_fitting; (done || lia)).
  all: destruct (Z.ltb_spec (size + 2 ^ a) (fittingSize5 line + 1)); [|done].
  all: injection Halloc as <- <-; apply served_offset; (done || lia).
Qed.

Lemma aligned_allocation_roundtrip_witness :
  ∃ r place, allocateAligned 64 3000 (2 ^ 9) = Some (r, place) ∧ slot 64 (2 ^ 20) (getObjectSize 64 r) 2 mod 2 ^ 9 ≠ 0 ∧
    served 64 3000 (2 ^ 9) r (2 ^ 20) 2 (place (slot 64 (2 ^ 20) (getObjectSize 64 r) 2)).
Proof.
  exists (3000 + 2 ^ 9), (λ o, alignUp o (2 ^ 9)). split; [reflexivity|]. split; [discriminate|].
  apply (aligned_allocation_roundtrip 64 3000 9 (3000 + 2 ^ 9) (2 ^ 20) 2 (λ o, alignUp o (2 ^ 9)));
    [by left|done|done|reflexivity|].
  split_and!; vm_compute; congruence.
Defined.
End SizeClasses.
