(* ===== verification/Slab.v ===== *)
(** * The scalable allocator: a slab and its free lists

    Source: src/tbbmalloc/frontend.cpp, class [Block] ([allocate], [freeOwnObject],
    [freePublicObject], [privatizePublicFreeList], [shareOrphaned],
    [privatizeOrphaned], [restoreBumpPtr], [reset]), [Bin] (the mailbox) and
    [OrphanedBlocks].

    One slab: the thread that owns it allocates and frees through [freeList] and
    [bumpPtr]; other threads push objects to [publicFreeList] and, when it was
    empty, put the block into the mailbox of the owner's bin, through
    [nextPrivatizable].  When its owner ends, the slab becomes orphaned and may be
    adopted by another thread.  The fields that only the owner accesses change with
    the operation; the accesses to the shared fields are steps.  Objects are
    offsets in the slab; a list of objects is a chain of their [next] pointers. *)

From S2P Require Import Prelude Malloc.
From stdpp Require Import base numbers relations list.
From Stdlib Require Import ZArith Lia.
Local Open Scope Z_scope.
Import SizeClasses.

Module Slab.
Section slab.
(** [sizeof(Block)] and the size of the objects. *)
Context (header objectSize : Z).

(** The chain of [publicFreeList], with its end: [nullptr] or [UNUSABLE]. *)
Record chain := Chain { objs : list Z; unusable : bool }.
Inductive pointer := PNull | PUnusable | PObject (o : Z).
#[global] Instance pointer_eq_dec : EqDecision pointer.
Proof. solve_decision. Defined.
Definition first (c : chain) : pointer :=
  match objs c with o :: _ => PObject o | [] => if unusable c then PUnusable else PNull end.

(** [nextPrivatizable]: the bin of the owner, the link to the next block of a
    mailbox, [UNUSABLE], or [nullptr] in a block that is not in use. *)
Inductive link := LBin (b : nat) | LLinked | LUnusable | LNull.
#[global] Instance link_eq_dec : EqDecision link.
Proof. solve_decision. Defined.

Record block := Block {
  bumpPtr : option Z;
  freeList : list Z;
  allocatedCount : Z;
  publicFreeList : chain;
  nextPrivatizable : link;
}.

(** Who has the block, and where he is. *)
Inductive owner :=
  | Owned (b : nat)
  | Privatize (b : nat)      (* taken from the mailbox, before the exchange of publicFreeList *)
  | Share1 (b : nat)         (* shareOrphaned: before the load of nextPrivatizable *)
  | Share2 (b : nat)         (* readyToShare: before compare_exchange_strong *)
  | Share3 (b : nat)         (* waits until nextPrivatizable changes *)
  | Share4 (b : nat)         (* before nextPrivatizable.store(UNUSABLE) *)
  | Orphan
  | Adopt (b : nat)          (* privatizeOrphaned: before the exchange *)
  | Cleanup                  (* OrphanedBlocks::cleanup: before the exchange *)
  | Released.                (* returned to the pool of blocks *)

(** Another thread in [freePublicObject]. *)
Inductive foreign :=
  | FIdle
  | FLoad (o : Z)                    (* before the load of publicFreeList *)
  | FCas (o : Z) (p : pointer)       (* before compare_exchange_strong *)
  | FNext                            (* before the load of nextPrivatizable *)
  | FLock (b : nat)                  (* addPublicFreeListBlock: before the store of nextPrivatizable *)
  | FMail (b : nat)                  (* holds mailLock, before mailbox.store *)
  | FBad.                            (* took the link of a mailbox for a bin *)

(** [user]: the objects given out; [mail]: the bins whose mailbox holds the block;
    [retired]: bins whose thread has given the block up, [dead]: and has ended. *)
Record system := System {
  blk : block;
  own : owner;
  others : list foreign;
  user : list Z;
  mail : list nat;
  retired : list nat;
  dead : list nat;
  bins : nat;
}.

Definition set_blk (x : block) (o : owner) (σ : system) : system :=
  System x o (others σ) (user σ) (mail σ) (retired σ) (dead σ) (bins σ).
Definition set_other (i : nat) (f : foreign) (σ : system) : system :=
  System (blk σ) (own σ) (<[i := f]> (others σ)) (user σ) (mail σ) (retired σ) (dead σ) (bins σ).
Definition set_public (c : chain) (x : block) : block :=
  Block (bumpPtr x) (freeList x) (allocatedCount x) c (nextPrivatizable x).
Definition set_next (l : link) (x : block) : block :=
  Block (bumpPtr x) (freeList x) (allocatedCount x) (publicFreeList x) l.

(** ** The operations on the block *)
Definition initEmptyBlock (b : nat) : block :=
  Block (Some (slabSize - objectSize)) [] 0 (Chain [] false) (LBin b).

Definition allocateFromFreeList (x : block) : option (Z * block) :=
  match freeList x with
  | [] => None
  | result :: next =>
      Some (result, Block (bumpPtr x) next (allocatedCount x + 1) (publicFreeList x) (nextPrivatizable x))
  end.

Definition allocateFromBumpPtr (x : block) : option (Z * block) :=
  result ← bumpPtr x;
  let bump := result - objectSize in
  Some (result, Block (if bump <? header then None else Some bump) (freeList x) (allocatedCount x + 1)
                  (publicFreeList x) (nextPrivatizable x)).

Definition allocate (x : block) : option (Z * block) :=
  match allocateFromFreeList x with
  | Some r => Some r
  | None => allocateFromBumpPtr x
  end.

Definition restoreBumpPtr (x : block) : block :=
  Block (Some (slabSize - objectSize)) [] (allocatedCount x) (publicFreeList x) (nextPrivatizable x).

(** [freeOwnObject]; [active] says that the block is the active one of its bin. *)
Definition empty (x : block) : bool := allocatedCount x =? 0.
Definition reset (x : block) : block := Block (Some slabSize) [] 0 (Chain [] false) LNull.
Definition processEmptyBlock (active : bool) (b : nat) (x : block) : block * owner :=
  if active then (restoreBumpPtr x, Owned b) else (reset x, Released).
Definition freeOwnObject (active : bool) (b : nat) (o : Z) (x : block) : block * owner :=
  let x := Block (bumpPtr x) (freeList x) (allocatedCount x - 1) (publicFreeList x) (nextPrivatizable x) in
  if empty x then processEmptyBlock active b x
  else (Block (bumpPtr x) (o :: freeList x) (allocatedCount x) (publicFreeList x) (nextPrivatizable x), Owned b).

(** [privatizePublicFreeList]: the exchange, and the merge of the chain. *)
Definition privatizePublicFreeList (reset : bool) (x : block) : block :=
  let local := publicFreeList x in
  Block (bumpPtr x) (objs local ++ freeList x) (allocatedCount x - Z.of_nat (length (objs local)))
    (Chain [] (negb reset)) (nextPrivatizable x).

(** ** Steps *)
Inductive action :=
  | Malloc                          (* the owner allocates *)
  | Free (k : nat) (active : bool)  (* the owner frees the object number k of the user *)
  | Take                            (* getPrivatizedFreeListBlock: the section under mailLock *)
  | Run (clean active : bool)       (* the owner goes on; clean: in cleanPublicFreeLists *)
  | Share                           (* the owner ends: TLSData::release *)
  | Get                             (* another thread adopts: OrphanedBlocks::get *)
  | Clean                           (* OrphanedBlocks::cleanup *)
  | Reuse                           (* another thread gets the block from the pool: getEmptyBlock *)
  | Sync (b : nat)                  (* TLSData::release: takes mailLock of the bin, then ends *)
  | FFree (i k : nat)               (* thread i frees the object number k of the user *)
  | FRun (i : nat).                 (* thread i goes on *)

(** A thread holds [mailLock] of the bin. *)
Definition locked (b : nat) (fs : list foreign) : bool :=
  existsb (λ f, match f with FMail b' => bool_decide (b = b') | _ => false end) fs.

(** The rest of [cleanPublicFreeLists] and of [getPrivatizedFreeListBlock] for a
    block from the mailbox; only the first one releases an empty block. *)
Definition privatizeTaken (clean active : bool) (b : nat) (σ : system) : system :=
  let x := privatizePublicFreeList true (blk σ) in
  let '(x, w) := if empty x && clean then processEmptyBlock active b x else (x, Owned b) in
  set_blk x w σ.

(** [shareOrphaned]: waits, with its loads of [nextPrivatizable]. *)
Definition is_tag (b : nat) (l : link) : bool := match l with LBin b' => bool_decide (b' = b) | _ => false end.
Definition readyToShare (b : nat) (σ : system) : system :=
  if decide (first (publicFreeList (blk σ)) = PNull) then set_blk (set_public (Chain [] true) (blk σ)) (Share4 b) σ
  else set_blk (blk σ) (Share3 b) σ.
Definition shareOrphaned (w : owner) (σ : system) : option system :=
  let x := blk σ in
  match w with
  | Share1 b => Some (set_blk x (if is_tag b (nextPrivatizable x) then Share2 b else Share4 b) σ)
  | Share2 b => Some (readyToShare b σ)
  | Share3 b => Some (set_blk x (if is_tag b (nextPrivatizable x) then Share3 b else Share4 b) σ)
  | Share4 b =>
      Some (System (set_next LUnusable x) Orphan (others σ) (user σ) (mail σ) (b :: retired σ) (dead σ) (bins σ))
  | _ => None
  end.

(** [OrphanedBlocks::get] and the start of [privatizeOrphaned], then its exchange. *)
Definition get (σ : system) : system :=
  System (set_next (LBin (bins σ)) (blk σ)) (Adopt (bins σ)) (others σ) (user σ) (mail σ) (retired σ) (dead σ)
    (S (bins σ)).
Definition privatizeOrphaned (b : nat) (σ : system) : system :=
  let x := privatizePublicFreeList true (blk σ) in
  set_blk (if empty x then restoreBumpPtr x else x) (Owned b) σ.

(** The block in the loop of [OrphanedBlocks::cleanup]. *)
Definition cleanup (σ : system) : system :=
  let x := privatizePublicFreeList false (blk σ) in
  if empty x then set_blk (reset x) Released σ else set_blk x Orphan σ.

Definition own_step (clean active : bool) (σ : system) : option system :=
  match own σ with
  | Privatize b => Some (privatizeTaken clean active b σ)
  | Share1 _ | Share2 _ | Share3 _ | Share4 _ => shareOrphaned (own σ) σ
  | Adopt b => Some (privatizeOrphaned b σ)
  | Cleanup => Some (cleanup σ)
  | _ => None
  end.

(** The section of [getPrivatizedFreeListBlock] under [mailLock]. *)
Definition take (b : nat) (σ : system) : option system :=
  if decide (b ∈ mail σ ∧ locked b (others σ) = false) then
    Some (System (set_next (LBin b) (blk σ)) (Privatize b) (others σ) (user σ) (filter (λ b', b' ≠ b) (mail σ))
            (retired σ) (dead σ) (bins σ))
  else None.

(** The block in the loop of [TLSData::release], and the lock at its end. *)
Definition release (b : nat) (σ : system) : system :=
  if empty (blk σ) then
    System (reset (blk σ)) Released (others σ) (user σ) (mail σ) (retired σ) (b :: dead σ) (bins σ)
  else set_blk (blk σ) (Share1 b) σ.
Definition syncOnMailbox (b : nat) (σ : system) : option system :=
  if decide (b ∈ retired σ ∧ locked b (others σ) = false) then
    Some (System (blk σ) (own σ) (others σ) (user σ) (mail σ) (filter (λ b', b' ≠ b) (retired σ)) (b :: dead σ) (bins σ))
  else None.

Definition foreign_step (i : nat) (f : foreign) (σ : system) : option system :=
  let x := blk σ in
  match f with
  | FLoad o => Some (set_other i (FCas o (first (publicFreeList x))) σ)
  | FCas o p =>
      Some (if decide (first (publicFreeList x) = p) then
              set_other i (if decide (p = PNull) then FNext else FIdle)
                (set_blk (set_public (Chain (o :: objs (publicFreeList x)) (unusable (publicFreeList x))) x) (own σ) σ)
            else set_other i (FCas o (first (publicFreeList x))) σ)
  | FNext =>
      Some (set_other i (match nextPrivatizable x with LUnusable => FIdle | LBin b => FLock b | LLinked | LNull => FBad end) σ)
  | FLock b =>
      if locked b (others σ) then None
      else Some (set_other i (FMail b) (set_blk (set_next LLinked x) (own σ) σ))
  | FMail b =>
      Some (System x (own σ) (<[i := FIdle]> (others σ)) (user σ) (b :: mail σ) (retired σ) (dead σ) (bins σ))
  | _ => None
  end.

Definition advance (a : action) (σ : system) : option system :=
  let x := blk σ in
  match a, own σ with
  | Malloc, Owned b =>
      '(o, x) ← allocate x;
      Some (System x (Owned b) (others σ) (o :: user σ) (mail σ) (retired σ) (dead σ) (bins σ))
  | Free k active, Owned b =>
      o ← user σ !! k;
      let '(x, w) := freeOwnObject active b o x in
      Some (System x w (others σ) (delete k (user σ)) (mail σ) (retired σ) (dead σ) (bins σ))
  | Take, Owned b => take b σ
  | Share, Owned b => Some (release b σ)
  | Get, Orphan => Some (get σ)
  | Clean, Orphan => Some (set_blk x Cleanup σ)
  | Reuse, Released =>
      Some (System (initEmptyBlock (bins σ)) (Owned (bins σ)) (others σ) (user σ) (mail σ) (retired σ) (dead σ) (S (bins σ)))
  | Run clean active, _ => own_step clean active σ
  | Sync b, _ => syncOnMailbox b σ
  | FFree i k, _ =>
      f ← others σ !! i; o ← user σ !! k;
      match f with
      | FIdle =>
          Some (System x (own σ) (<[i := FLoad o]> (others σ)) (delete k (user σ)) (mail σ) (retired σ) (dead σ) (bins σ))
      | _ => None
      end
  | FRun i, _ => f ← others σ !! i; foreign_step i f σ
  | _, _ => None
  end.

Definition step (σ σ' : system) : Prop := ∃ a, advance a σ = Some σ'.
Definition init (n : nat) : system := System (initEmptyBlock 0) (Owned 0) (replicate n FIdle) [] [] [] [] 1.

(** ** The invariant *)

(** The objects of the slab: number [k] is [k] sizes below the end. *)
Definition capacity : Z := (slabSize - header) / objectSize.
Definition slot_at (k : Z) : Z := slabSize - k * objectSize.
Definition slots_from (k : Z) : list Z := slot_at <$> seqZ k (capacity + 1 - k).

Definition in_flight (f : foreign) : list Z := match f with FLoad o | FCas o _ => [o] | _ => [] end.
Definition flying (fs : list foreign) : list Z := mjoin (in_flight <$> fs).
Definition adders (f : foreign) : Z := match f with FNext | FLock _ => 1 | _ => 0 end.
Definition mailers (b : nat) (f : foreign) : Z :=
  match f with FMail b' => if decide (b = b') then 1 else 0 | _ => 0 end.

Definition owner_bin (w : owner) : option nat :=
  match w with
  | Owned b | Privatize b | Share1 b | Share2 b | Share3 b | Share4 b | Adopt b => Some b
  | _ => None
  end.

(** Every object of the slab is in one place; [allocatedCount] counts those that
    the owner has not got back. *)
Record acct (σ : system) : Prop := {
  acct_slots : own σ ≠ Released → ∃ k, 1 ≤ k ∧
    bumpPtr (blk σ) = (if k <=? capacity then Some (slot_at k) else None) ∧
    user σ ++ flying (others σ) ++ objs (publicFreeList (blk σ)) ++ freeList (blk σ) ++ slots_from k ≡ₚ slots_from 1;
  acct_count : own σ ≠ Released → allocatedCount (blk σ) =
    Z.of_nat (length (user σ) + length (flying (others σ)) + length (objs (publicFreeList (blk σ))));
  acct_released : own σ = Released → user σ = [] ∧ flying (others σ) = [] ∧ objs (publicFreeList (blk σ)) = [];
}.

(** While a thread uses the block: either [nextPrivatizable] is its bin, and a
    thread is about to use it exactly if [publicFreeList] is not empty; or the block is
    in the mailbox, or about to be. *)
Definition adding (σ : system) : Z := zsum adders (others σ).
Definition mailing (b : nat) (σ : system) : Z := zsum (mailers b) (others σ).
Definition in_use (b : nat) (σ : system) : Prop :=
  unusable (publicFreeList (blk σ)) = false ∧
  match nextPrivatizable (blk σ) with
  | LBin b' => b' = b ∧ (b ∉ mail σ) ∧ mailing b σ = 0 ∧ adding σ = (match objs (publicFreeList (blk σ)) with [] => 0 | _ => 1 end)
  | LLinked => objs (publicFreeList (blk σ)) ≠ [] ∧ adding σ = 0 ∧ ((mailing b σ = 1 ∧ b ∉ mail σ) ∨ (mailing b σ = 0 ∧ b ∈ mail σ))
  | _ => False
  end.

Definition proto (σ : system) : Prop :=
  let p := publicFreeList (blk σ) in
  match own σ with
  | Owned b | Share1 b | Share2 b => in_use b σ
  | Share3 b => in_use b σ ∧ objs p ≠ []
  | Privatize b => nextPrivatizable (blk σ) = LBin b ∧ objs p ≠ [] ∧ unusable p = false ∧ adding σ = 0 ∧ mailing b σ = 0 ∧ b ∉ mail σ
  | Share4 _ => first p ≠ PNull ∧ adding σ = 0
  | Orphan | Cleanup => first p ≠ PNull ∧ nextPrivatizable (blk σ) = LUnusable ∧ adding σ = 0
  | Adopt b => first p ≠ PNull ∧ nextPrivatizable (blk σ) = LBin b ∧ adding σ = 0 ∧ mailing b σ = 0 ∧ b ∉ mail σ
  | Released => adding σ = 0
  end.

Record bins_ok (σ : system) : Prop := {
  bins_lock b : FLock b ∈ others σ → owner_bin (own σ) = Some b;
  bins_mail b : FMail b ∈ others σ → (b < bins σ)%nat ∧ b ∉ dead σ;
  bins_owner b : owner_bin (own σ) = Some b → (b < bins σ)%nat ∧ (b ∉ dead σ) ∧ (b ∉ retired σ);
  bins_lt b : b ∈ mail σ ++ retired σ ++ dead σ → (b < bins σ)%nat;
  bins_bad : FBad ∉ others σ;
}.

Record inv (σ : system) : Prop := { inv_acct : acct σ; inv_proto : proto σ; inv_bins : bins_ok σ }.

(** ** Accounting *)
Context (Hheader : 0 ≤ header) (Hobject : 0 < objectSize) (Hfits : objectSize ≤ slabSize - header).

Lemma flying_insert i f f' fs :
  fs !! i = Some f → in_flight f ++ flying (<[i := f']> fs) ≡ₚ in_flight f' ++ flying fs.
Proof. apply mjoin_insert_perm. Qed.

Lemma flying_same i f f' fs :
  fs !! i = Some f → in_flight f' = in_flight f → flying (<[i := f']> fs) ≡ₚ flying fs.
Proof. intros Hi Hf. pose proof (flying_insert i f f' fs Hi) as H. rewrite Hf in H. by apply Permutation_app_inv_l in H. Qed.

Lemma capacity_pos : 1 ≤ capacity.
Proof. unfold capacity. apply Z.div_le_lower_bound; lia. Qed.

Lemma slots_from_cons k : k ≤ capacity → slots_from k = slot_at k :: slots_from (k + 1).
Proof.
  intros Hk. unfold slots_from. rewrite (seqZ_cons k) by lia. simpl. do 3 f_equal; lia.
Qed.
Lemma slots_from_end k : capacity < k → slots_from k = [].
Proof. intros Hk. unfold slots_from. rewrite seqZ_nil by lia. done. Qed.

Lemma bump_end k : (slot_at k - objectSize <? header) = negb (k + 1 <=? capacity).
Proof.
  unfold slot_at, capacity. destruct (Z.leb_spec (k + 1) ((slabSize - header) / objectSize)) as [H|H]; simpl.
  - apply Z.ltb_ge. apply (Z.mul_le_mono_nonneg_l _ _ objectSize) in H; [|lia].
    pose proof (Z.mul_div_le (slabSize - header) objectSize). lia.
  - apply Z.ltb_lt. pose proof (Z.mul_succ_div_gt (slabSize - header) objectSize Hobject). nia.
Qed.

(** [allocate] gives out an object that was free. *)
Lemma allocate_spec x o x' k :
  allocate x = Some (o, x') → 1 ≤ k → bumpPtr x = (if k <=? capacity then Some (slot_at k) else None) →
  publicFreeList x' = publicFreeList x ∧ nextPrivatizable x' = nextPrivatizable x ∧
  allocatedCount x' = allocatedCount x + 1 ∧
  ∃ k', 1 ≤ k' ∧ bumpPtr x' = (if k' <=? capacity then Some (slot_at k') else None) ∧
    freeList x ++ slots_from k ≡ₚ o :: freeList x' ++ slots_from k'.
Proof.
  unfold allocate, allocateFromFreeList, allocateFromBumpPtr. intros Ha Hk Hb.
  destruct (freeList x) as [|o1 l] eqn:Hf; simplify_eq/=.
  - apply bind_Some in Ha as (o1 & Ho1 & [= <- <-]). simpl. rewrite Hb in Ho1.
    destruct (Z.leb_spec k capacity) as [Hkc|]; [|done]. injection Ho1 as <-. split_and!; try done.
    exists (k + 1). rewrite bump_end, (slots_from_cons k) by done. split_and!; [lia| |done].
    destruct (k + 1 <=? capacity); simpl; [|done]. f_equal. unfold slot_at. lia.
  - split_and!; try done. exists k. by split_and!.
Qed.

Lemma no_count_nil x u f (l : list Z) :
  allocatedCount x = Z.of_nat (length u + length f + length l) → allocatedCount x = 0 →
  u = ([] : list Z) ∧ f = ([] : list Z) ∧ l = [].
Proof. intros H H0. rewrite H in H0. destruct u, f, l; simpl in H0; (done || lia). Qed.

(** The owner gets a chain back: of [publicFreeList], or nothing. *)
Lemma privatize_acct σ r w :
  acct σ → own σ ≠ Released → w ≠ Released → acct (set_blk (privatizePublicFreeList r (blk σ)) w σ).
Proof.
  intros [Hs Hc _] Ho Hw. constructor; simpl; intros; try done.
  - destruct (Hs Ho) as (k & Hk & Hb & Hp). exists k. split_and!; try done. simpl. rewrite <- app_assoc. exact Hp.
  - rewrite (Hc Ho). lia.
Qed.

Lemma empty_acct σ : acct σ → own σ ≠ Released → empty (blk σ) = true →
  user σ = [] ∧ flying (others σ) = [] ∧ objs (publicFreeList (blk σ)) = [].
Proof. intros H Ho He%Z.eqb_eq. eapply no_count_nil; [|exact He]. by apply acct_count. Qed.

Lemma restore_acct σ w :
  acct σ → own σ ≠ Released → w ≠ Released → empty (blk σ) = true → acct (set_blk (restoreBumpPtr (blk σ)) w σ).
Proof.
  intros H Ho Hw He. destruct (empty_acct σ H Ho He) as (Hu & Hf & Hp). pose proof (acct_count _ H Ho) as Hc.
  pose proof capacity_pos. constructor; simpl; intros; try done. exists 1. rewrite Hu, Hf, Hp. split_and!; try done.
  destruct (Z.leb_spec 1 capacity); [|lia]. do 2 f_equal. unfold slot_at. lia.
Qed.

Lemma reset_acct σ : acct σ → own σ ≠ Released → empty (blk σ) = true → acct (set_blk (reset (blk σ)) Released σ).
Proof. intros H Ho He. destruct (empty_acct σ H Ho He) as (Hu & Hf & Hp). by constructor; simpl. Qed.

Lemma same_acct σ x w ml rt dd bn :
  acct σ → own σ ≠ Released → w ≠ Released → bumpPtr x = bumpPtr (blk σ) → freeList x = freeList (blk σ) →
  allocatedCount x = allocatedCount (blk σ) → objs (publicFreeList x) = objs (publicFreeList (blk σ)) →
  acct (System x w (others σ) (user σ) ml rt dd bn).
Proof.
  intros [Hs Hc _] Ho Hw H1 H2 H3 H4. constructor; simpl; intros; try done; rewrite ?H1, ?H2, ?H3, ?H4; auto.
Qed.

Lemma malloc_acct σ b o x :
  acct σ → own σ = Owned b → allocate (blk σ) = Some (o, x) →
  acct (System x (Owned b) (others σ) (o :: user σ) (mail σ) (retired σ) (dead σ) (bins σ)).
Proof.
  intros [Hs Hc _] Ho Ha. assert (Hnr : own σ ≠ Released) by (by rewrite Ho).
  destruct (Hs Hnr) as (k & Hk & Hb & Hp).
  destruct (allocate_spec _ _ _ _ Ha Hk Hb) as (Hpub & _ & Hcnt & k' & Hk' & Hb' & Hperm).
  constructor; simpl; intros; try done.
  - exists k'. split_and!; try done. rewrite Hpub, <- Hp. rewrite Hperm. solve_Permutation.
  - rewrite Hcnt, Hpub, (Hc Hnr). lia.
Qed.

Lemma free_acct σ b active k o x w :
  acct σ → own σ = Owned b → user σ !! k = Some o → freeOwnObject active b o (blk σ) = (x, w) →
  acct (System x w (others σ) (delete k (user σ)) (mail σ) (retired σ) (dead σ) (bins σ)).
Proof.
  intros [Hs Hc _] Ho Hk Hfree. assert (Hnr : own σ ≠ Released) by (by rewrite Ho).
  destruct (Hs Hnr) as (kk & Hkk & Hb & Hp). pose proof (delete_Permutation _ _ _ Hk) as Hdel.
  pose proof (Permutation_length Hdel) as Hlen. simpl in Hlen.
  set (x1 := Block (bumpPtr (blk σ)) (o :: freeList (blk σ)) (allocatedCount (blk σ) - 1) (publicFreeList (blk σ))
    (nextPrivatizable (blk σ))).
  set (σ1 := System x1 (Owned b) (others σ) (delete k (user σ)) (mail σ) (retired σ) (dead σ) (bins σ)).
  assert (H1 : acct σ1).
  { constructor; simpl; intros; try done.
    - exists kk. split_and!; try done. simpl. rewrite <- Hp. clear -Hdel. revert Hdel.
      generalize (delete k (user σ)). intros u ->. solve_Permutation.
    - rewrite (Hc Hnr). lia. }
  unfold freeOwnObject in Hfree. destruct (empty _) eqn:He; [|by simplify_eq/=].
  unfold processEmptyBlock in Hfree. destruct active; simplify_eq/=.
  - by apply (restore_acct σ1 (Owned b)).
  - by apply (reset_acct σ1).
Qed.

Lemma other_acct σ i f f' x ml rt dd bn :
  acct σ → others σ !! i = Some f → in_flight f' = in_flight f →
  bumpPtr x = bumpPtr (blk σ) → freeList x = freeList (blk σ) →
  allocatedCount x = allocatedCount (blk σ) → publicFreeList x = publicFreeList (blk σ) →
  acct (System x (own σ) (<[i := f']> (others σ)) (user σ) ml rt dd bn).
Proof.
  intros [Hs Hc Hr] Hi Hf H1 H2 H3 H4. pose proof (flying_same _ _ _ _ Hi Hf) as Hfl.
  pose proof (Permutation_length Hfl) as Hlen.
  constructor; simpl; intros Ho; rewrite ?H1, ?H2, ?H3, ?H4.
  - destruct (Hs Ho) as (k & Hk & Hb & Hp). exists k. split_and!; try done. by rewrite Hfl.
  - rewrite (Hc Ho). lia.
  - destruct (Hr Ho) as (Hu & Hfn & Hp). split_and!; try done. rewrite Hfn in Hfl. by apply Permutation_nil_r in Hfl.
Qed.

Lemma foreign_acct σ i f σ' :
  acct σ → others σ !! i = Some f → foreign_step i f σ = Some σ' → acct σ'.
Proof.
  intros H Hi Hs. destruct f as [|o|o p| |b|b|]; simplify_eq/=.
  - by eapply other_acct.
  - case_decide as Hp; simplify_eq/=; [|by eapply other_acct].
    set (f' := if decide (first (publicFreeList (blk σ)) = PNull) then FNext else FIdle).
    assert (Hfl : flying (others σ) ≡ₚ o :: flying (<[i := f']> (others σ))).
    { pose proof (flying_insert _ _ f' _ Hi) as Hfl. simpl in Hfl. rewrite Hfl. unfold f'. by case_decide. }
    pose proof (Permutation_length Hfl) as Hlen. simpl in Hlen. destruct H as [Hs Hc Hr].
    constructor; simpl; intros Ho.
    + destruct (Hs Ho) as (k & Hk & Hb & Hperm). exists k. split_and!; try done. rewrite <- Hperm, Hfl. solve_Permutation.
    + rewrite (Hc Ho). lia.
    + destruct (Hr Ho) as (_ & Hfn & _). rewrite Hfn in Hfl. by apply Permutation_nil_cons in Hfl.
  - eapply other_acct; try done. by destruct (nextPrivatizable (blk σ)).
  - destruct (locked b (others σ)); simplify_eq. by eapply (other_acct σ i (FLock b) (FMail b) (set_next LLinked (blk σ))).
  - by eapply other_acct.
Qed.

Lemma ffree_acct σ i k o :
  acct σ → others σ !! i = Some FIdle → user σ !! k = Some o →
  acct (System (blk σ) (own σ) (<[i := FLoad o]> (others σ)) (delete k (user σ)) (mail σ) (retired σ) (dead σ) (bins σ)).
Proof.
  intros [Hs Hc Hr] Hi Hk. pose proof (delete_Permutation _ _ _ Hk) as Hdel. pose proof (Permutation_length Hdel) as Hlen.
  pose proof (flying_insert _ _ (FLoad o) _ Hi) as Hfl. simpl in Hfl, Hlen. pose proof (Permutation_length Hfl) as Hlen2.
  simpl in Hlen2. constructor; simpl; intros Ho.
  - destruct (Hs Ho) as (kk & Hkk & Hb & Hp). exists kk. split_and!; try done. rewrite <- Hp, Hfl. clear -Hdel. revert Hdel.
    generalize (delete k (user σ)). intros u ->. solve_Permutation.
  - rewrite (Hc Ho). lia.
  - destruct (Hr Ho) as (Hu & _). by rewrite Hu in Hk.
Qed.

Lemma own_acct σ c active σ' : acct σ → own_step c active σ = Some σ' → acct σ'.
Proof.
  intros H Hs. unfold own_step, privatizeTaken, shareOrphaned, readyToShare, privatizeOrphaned, cleanup in Hs.
  destruct (own σ) as [b|b|b|b|b|b| |b| |] eqn:Ho; simplify_eq/=.
  all: assert (Hnr : own σ ≠ Released) by (by rewrite Ho).
  - pose proof (privatize_acct σ true (Owned b) H Hnr) as H1.
    destruct (empty _) eqn:He; simpl; [|by apply H1]. destruct c; simpl; [|by apply H1].
    unfold processEmptyBlock. destruct active.
    + by apply (restore_acct (set_blk (privatizePublicFreeList true (blk σ)) (Owned b) σ) (Owned b)); [apply H1|..].
    + by apply (reset_acct (set_blk (privatizePublicFreeList true (blk σ)) (Owned b) σ)); [apply H1|..].
  - apply same_acct; try done. by destruct (is_tag _ _).
  - case_decide as Hf; simplify_eq; apply same_acct; try done. simpl. unfold first in Hf.
    by destruct (objs (publicFreeList (blk σ))).
  - apply same_acct; try done. by destruct (is_tag _ _).
  - by apply same_acct.
  - pose proof (privatize_acct σ true (Owned b) H Hnr ltac:(done)) as H1. destruct (empty _) eqn:He; [|done].
    by apply (restore_acct (set_blk (privatizePublicFreeList true (blk σ)) (Owned b) σ) (Owned b)).
  - pose proof (privatize_acct σ false Orphan H Hnr ltac:(done)) as H1. destruct (empty _) eqn:He; [|done].
    by apply (reset_acct (set_blk (privatizePublicFreeList false (blk σ)) Orphan σ)).
Qed.

Lemma init_acct b fs u ml rt dd bn :
  u = [] → flying fs = [] → acct (System (initEmptyBlock b) (Owned b) fs u ml rt dd bn).
Proof.
  intros Hu Hf. pose proof capacity_pos as Hcap. constructor; simpl; intros; try done; rewrite Hu, Hf; [|done].
  exists 1. split_and!; [done| |done]. rewrite (proj2 (Z.leb_le 1 capacity)) by done. f_equal. unfold slot_at. lia.
Qed.

Lemma step_acct σ σ' : acct σ → step σ σ' → acct σ'.
Proof.
  intros H (a & Ha). unfold advance, take, release, syncOnMailbox, get in Ha. destruct a as [|k active| |c active| | | | |b|i k|i].
  - destruct (own σ) as [b| | | | | | | | |] eqn:Ho; try done. apply bind_Some in Ha as ([o x] & Hal & [= <-]). by eapply malloc_acct.
  - destruct (own σ) as [b| | | | | | | | |] eqn:Ho; try done. apply bind_Some in Ha as (o & Hk & Hx).
    destruct (freeOwnObject active b o (blk σ)) as [x w] eqn:Hf. injection Hx as <-. by eapply free_acct.
  - destruct (own σ) as [b| | | | | | | | |] eqn:Ho; try done. case_decide; [|done]. simplify_eq.
    apply same_acct; try done. by rewrite Ho.
  - by eapply own_acct.
  - destruct (own σ) as [b| | | | | | | | |] eqn:Ho; try done. destruct (empty _) eqn:He; simplify_eq.
    + destruct (reset_acct σ H) as [H1 H2 H3]; [by rewrite Ho|done|]. by constructor.
    + apply same_acct; try done. by rewrite Ho.
  - destruct (own σ) eqn:Ho; try done. simplify_eq. apply same_acct; try done. by rewrite Ho.
  - destruct (own σ) eqn:Ho; try done. simplify_eq. apply same_acct; try done. by rewrite Ho.
  - destruct (own σ) eqn:Ho; try done. simplify_eq. destruct (acct_released _ H Ho) as (Hu & Hf & _). by apply init_acct.
  - case_decide; [|done]. simplify_eq. destruct H as [Hs Hc Hr]. by constructor.
  - apply bind_Some in Ha as (f & Hi & Ha). apply bind_Some in Ha as (o & Hk & Ha).
    destruct f; simplify_eq. by eapply ffree_acct.
  - apply bind_Some in Ha as (f & Hi & Ha). by eapply foreign_acct.
Qed.

(** ** The protocol of the mailbox *)

Lemma adders_pos fs f : f ∈ fs → adders f ≤ zsum adders fs.
Proof. apply zsum_member. apply Forall_forall. by intros [] _. Qed.
Lemma mailers_pos fs b : FMail b ∈ fs → 1 ≤ zsum (mailers b) fs.
Proof.
  intros Hin. transitivity (mailers b (FMail b)); [simpl; by rewrite decide_True|].
  apply zsum_member; [|done]. apply Forall_forall. intros [] _; simpl; try done. by case_decide.
Qed.
Lemma mailers_absent fs b : FMail b ∉ fs → zsum (mailers b) fs = 0.
Proof.
  intros H. apply zsum_all_zero, Forall_forall. intros [] Hin; simpl; try done. rewrite decide_False; [done|]. by intros ->.
Qed.
Lemma locked_spec b fs : locked b fs = true ↔ FMail b ∈ fs.
Proof.
  unfold locked. rewrite existsb_exists. split.
  - intros (f & Hin & Hf). destruct f; try done. apply bool_decide_eq_true in Hf as ->. by apply list_elem_of_In.
  - intros Hin%list_elem_of_In. exists (FMail b). split; [done|]. by apply bool_decide_eq_true.
Qed.
Lemma unlocked_spec b fs : locked b fs = false ↔ FMail b ∉ fs.
Proof. rewrite <- locked_spec. by destruct (locked b fs). Qed.

Lemma proto_ext σ σ' :
  own σ' = own σ → publicFreeList (blk σ') = publicFreeList (blk σ) →
  nextPrivatizable (blk σ') = nextPrivatizable (blk σ) → adding σ' = adding σ →
  (∀ b, mailing b σ' = mailing b σ) → mail σ' = mail σ → proto σ → proto σ'.
Proof.
  unfold proto, in_use. intros -> -> -> -> Hm -> H. destruct (own σ); rewrite ?Hm; done.
Qed.

Lemma bins_same σ σ' :
  bins_ok σ → (∀ b, FLock b ∈ others σ' → owner_bin (own σ') = Some b) → FBad ∉ others σ' →
  (∀ b, FMail b ∈ others σ' → FMail b ∈ others σ ∨ (b < bins σ')%nat ∧ b ∉ dead σ') →
  (owner_bin (own σ') = owner_bin (own σ) ∨ owner_bin (own σ') = None) →
  mail σ' ⊆ mail σ → retired σ' = retired σ → dead σ' = dead σ → bins σ' = bins σ → bins_ok σ'.
Proof.
  intros [H1 H2 H3 H4 H5] Hl Hb Hm Ho Hml Hr Hd Hn. rewrite Hd, Hn in Hm.
  constructor; try done; rewrite ?Hr, ?Hd, ?Hn.
  - intros b Hin. destruct (Hm b Hin); [|done]. by apply H2.
  - intros b Hin. apply H3. destruct Ho; congruence.
  - intros b [Hin|Hin]%elem_of_app; apply H4, elem_of_app; [left; by apply Hml|by right].
Qed.

(** A thread that is about to use [nextPrivatizable] finds the bin of the owner. *)
Lemma adding_in_use σ :
  proto σ → 1 ≤ adding σ →
  ∃ b, owner_bin (own σ) = Some b ∧ nextPrivatizable (blk σ) = LBin b ∧ unusable (publicFreeList (blk σ)) = false ∧
    objs (publicFreeList (blk σ)) ≠ [] ∧ adding σ = 1 ∧ mailing b σ = 0 ∧ (b ∉ mail σ) ∧
    (∀ σ', own σ' = own σ → in_use b σ' → objs (publicFreeList (blk σ')) ≠ [] → proto σ').
Proof.
  assert (Hu : ∀ b, in_use b σ → 1 ≤ adding σ →
    nextPrivatizable (blk σ) = LBin b ∧ unusable (publicFreeList (blk σ)) = false ∧
    objs (publicFreeList (blk σ)) ≠ [] ∧ adding σ = 1 ∧ mailing b σ = 0 ∧ b ∉ mail σ).
  { intros b (Hun & H) Ha. destruct (nextPrivatizable (blk σ)); [|lia|done..]. destruct H as (-> & Hm & Hm0 & Hadd).
    destruct (objs (publicFreeList (blk σ))); [lia|]. by split_and!. }
  unfold proto. intros Hp Ha.
  destruct (own σ) as [b|b|b|b|b|b| |b| |]; simpl; try (destruct_and?; lia).
  1-3: destruct (Hu b Hp Ha) as (? & ? & ? & ? & ? & ?); exists b; split_and!; try done; by intros σ' ->.
  destruct Hp as [Hp _]. destruct (Hu b Hp Ha) as (? & ? & ? & ? & ? & ?). exists b. split_and!; try done. by intros σ' ->.
Qed.

(** If [publicFreeList] is [nullptr], the block is in use and out of every mailbox. *)
Lemma null_in_use σ :
  proto σ → own σ ≠ Released → first (publicFreeList (blk σ)) = PNull →
  ∃ b, owner_bin (own σ) = Some b ∧ nextPrivatizable (blk σ) = LBin b ∧ adding σ = 0 ∧ mailing b σ = 0 ∧ (b ∉ mail σ) ∧
    (∀ σ', own σ' = own σ → in_use b σ' → proto σ').
Proof.
  intros Hp Hr Hf. assert (Hn : objs (publicFreeList (blk σ)) = []).
  { unfold first in Hf. by destruct (objs (publicFreeList (blk σ))). }
  unfold proto in *. destruct (own σ) as [b|b|b|b|b|b| |b| |]; simpl; try (destruct_and?; done).
  all: destruct Hp as (_ & H); destruct (nextPrivatizable (blk σ)); [|by destruct H|done..];
    destruct H as (-> & Hm & Hm0 & Hadd); rewrite Hn in Hadd; exists b; split_and!; try done; by intros σ' ->.
Qed.

Lemma first_nonnull c : unusable c = false → objs c ≠ [] → first c ≠ PNull.
Proof. unfold first. by destruct (objs c). Qed.

(** An object is pushed on a list that is not [nullptr]. *)
Lemma proto_push σ σ' o :
  proto σ → own σ' = own σ → first (publicFreeList (blk σ)) ≠ PNull →
  publicFreeList (blk σ') = Chain (o :: objs (publicFreeList (blk σ))) (unusable (publicFreeList (blk σ))) →
  nextPrivatizable (blk σ') = nextPrivatizable (blk σ) → adding σ' = adding σ →
  (∀ b, mailing b σ' = mailing b σ) → mail σ' = mail σ → proto σ'.
Proof.
  intros Hp Ho Hf Hpub Hnext Ha Hm Hml.
  assert (Hne : unusable (publicFreeList (blk σ)) = false → objs (publicFreeList (blk σ)) ≠ []).
  { unfold first in Hf. intros E. rewrite E in Hf. by destruct (objs (publicFreeList (blk σ))). }
  assert (Hu : ∀ b, in_use b σ → in_use b σ').
  { intros b (Hun & H). specialize (Hne Hun). unfold in_use. rewrite Hpub, Hnext, Ha, Hm, Hml. simpl. split; [done|].
    destruct (nextPrivatizable (blk σ)); [|by destruct H as (_ & ? & ?)|done..]. by destruct (objs (publicFreeList (blk σ))). }
  unfold proto in *. rewrite Ho, Hpub, Hnext, Ha.
  destruct (own σ) as [b|b|b|b|b|b| |b| |]; simpl; rewrite ?Hm, ?Hml; intuition (auto || done).
Qed.

Lemma adding_set σ i f f' x w u ml rt dd bn :
  others σ !! i = Some f →
  adding (System x w (<[i := f']> (others σ)) u ml rt dd bn) = adding σ - adders f + adders f'.
Proof. intros. unfold adding. simpl. by apply zsum_insert. Qed.
Lemma mailing_set b σ i f f' x w u ml rt dd bn :
  others σ !! i = Some f →
  mailing b (System x w (<[i := f']> (others σ)) u ml rt dd bn) = mailing b σ - mailers b f + mailers b f'.
Proof. intros. unfold mailing. simpl. by apply zsum_insert. Qed.

(** A thread moves without touching bins. *)
Lemma bins_move σ i f f' x u :
  bins_ok σ → others σ !! i = Some f →
  match f' with FLock b => owner_bin (own σ) = Some b | FMail b => owner_bin (own σ) = Some b | FBad => False | _ => True end →
  bins_ok (System x (own σ) (<[i := f']> (others σ)) u (mail σ) (retired σ) (dead σ) (bins σ)).
Proof.
  intros H Hi Hf'. eapply (bins_same σ); simpl; try done; [| | |by left].
  - intros b [<-|Hin]%elem_of_insert_inv; [done|]. by apply H.
  - intros [<-|Hin]%elem_of_insert_inv; [done|]. by apply H.
  - intros b [<-|Hin]%elem_of_insert_inv; [|by left]. right. destruct (bins_owner _ H b Hf') as (? & ? & ?). done.
Qed.

Lemma foreign_cas_inv σ i o p σ' :
  inv σ → others σ !! i = Some (FCas o p) → foreign_step i (FCas o p) σ = Some σ' → proto σ' ∧ bins_ok σ'.
Proof.
  intros [Hac Hp Hb] Hi [= <-]. case_decide as Hf; [subst p; unfold set_other; simpl|].
  - split; [|apply (bins_move _ _ _ _ _ _ Hb Hi); by case_decide].
    case_decide as Hn.
    + assert (Hr : own σ ≠ Released).
      { intros Hr. destruct (acct_released _ Hac Hr) as (_ & Hfl & _). pose proof (flying_insert _ _ FIdle _ Hi) as Hperm.
        simpl in Hperm. rewrite Hfl in Hperm. by apply Permutation_nil_r in Hperm. }
      destruct (null_in_use σ Hp Hr Hn) as (b & Hob & Hnext & Ha & Hm & Hml & Hk). apply Hk; [done|].
      unfold in_use. rewrite (adding_set _ _ _ _ _ _ _ _ _ _ _ Hi), (mailing_set _ _ _ _ _ _ _ _ _ _ _ _ Hi). simpl.
      rewrite Hnext. unfold first in Hn. destruct (objs (publicFreeList (blk σ))); [|done].
      destruct (unusable (publicFreeList (blk σ))); [done|]. split_and!; try done; lia.
    + eapply (proto_push σ _ o); try done; simpl.
      * rewrite (adding_set _ _ _ _ _ _ _ _ _ _ _ Hi). simpl. lia.
      * intros b. rewrite (mailing_set _ _ _ _ _ _ _ _ _ _ _ _ Hi). simpl. lia.
  - split; [|by apply (bins_move _ _ _ _ _ _ Hb Hi)].
    eapply proto_ext; [..|exact Hp]; try done.
    + unfold set_other. rewrite (adding_set _ _ _ _ _ _ _ _ _ _ _ Hi). simpl. lia.
    + intros b. unfold set_other. rewrite (mailing_set _ _ _ _ _ _ _ _ _ _ _ _ Hi). simpl. lia.
Qed.

Lemma foreign_lock_inv σ i b σ' :
  inv σ → others σ !! i = Some (FLock b) → foreign_step i (FLock b) σ = Some σ' → proto σ' ∧ bins_ok σ'.
Proof.
  intros [Hac Hp Hb] Hi Hs. simpl in Hs. destruct (locked b (others σ)) eqn:Hl; [done|]. injection Hs as <-.
  pose proof (list_elem_of_lookup_2 _ _ _ Hi) as Hin. pose proof (bins_lock _ Hb b Hin) as Hob.
  pose proof (adders_pos _ _ Hin) as Hpos. simpl in Hpos.
  destruct (adding_in_use σ Hp Hpos) as (b' & Hob' & Hnext & Hun & Hne & Ha & Hm & Hml & Hk).
  rewrite Hob in Hob'. injection Hob' as <-. unfold set_other; simpl.
  split; [|by apply (bins_move _ _ _ _ _ _ Hb Hi)].
  apply Hk; [done| |done]. unfold in_use.
  rewrite (adding_set _ _ _ _ _ _ _ _ _ _ _ Hi), (mailing_set _ _ _ _ _ _ _ _ _ _ _ _ Hi). simpl.
  rewrite decide_True by done. split_and!; try done; try lia. left. split; [lia|done].
Qed.

(** The block gets into the mailbox of a bin. *)
Lemma foreign_mail_inv σ i b σ' :
  inv σ → others σ !! i = Some (FMail b) → foreign_step i (FMail b) σ = Some σ' → proto σ' ∧ bins_ok σ'.
Proof.
  intros [Hac Hp Hb] Hi [= <-]. pose proof (list_elem_of_lookup_2 _ _ _ Hi) as Hin.
  pose proof (mailers_pos _ _ Hin) as Hpos. split.
  - assert (Hm : ∀ w b', mailing b' (System (blk σ) w (<[i:=FIdle]> (others σ)) (user σ) (b :: mail σ) (retired σ) (dead σ) (bins σ))
      = mailing b' σ - (if decide (b' = b) then 1 else 0)).
    { intros w b'. rewrite (mailing_set _ _ _ _ _ _ _ _ _ _ _ _ Hi). simpl. lia. }
    assert (Hml : ∀ b', mailing b' σ = 0 → b' ≠ b). { intros b' Hz ->. unfold mailing in Hz. lia. }
    assert (Hu : ∀ w b', in_use b' σ → in_use b' (System (blk σ) w (<[i:=FIdle]> (others σ)) (user σ) (b :: mail σ) (retired σ) (dead σ) (bins σ))).
    { intros w b' (Hun & H). unfold in_use. rewrite Hm, (adding_set _ _ _ _ _ _ _ _ _ _ _ Hi). simpl. split; [done|].
      destruct (nextPrivatizable (blk σ)); [| |done..].
      - destruct H as (-> & H1 & H2 & H3). rewrite decide_False by auto. split_and!; [done| |lia|lia].
        apply not_elem_of_cons; auto.
      - destruct H as (H1 & H2 & H3). split_and!; [done|lia|]. destruct (decide (b' = b)) as [->|Hne].
        + right. split; [|by left]. destruct H3 as [[? ?]|[? ?]]; [lia|]. by destruct (Hml b).
        + destruct H3 as [[? ?]|[? ?]]; [left|right]; (split; [lia|]); [by apply not_elem_of_cons|by right]. }
    unfold proto in *. simpl. destruct (own σ) as [b'|b'|b'|b'|b'|b'| |b'| |];
      rewrite ?Hm, ?(adding_set _ _ _ _ _ _ _ _ _ _ _ Hi); simpl; rewrite ?Z.sub_0_r, ?Z.add_0_r; auto;
      destruct_and?; split_and?; try done; auto; try (rewrite decide_False by auto; lia); by apply not_elem_of_cons; auto.
  - destruct (bins_mail _ Hb b Hin) as [Hlt Hd]. destruct Hb as [H1 H2 H3 H4 H5]. constructor; simpl.
    + intros b' [?|?]%elem_of_insert_inv; [done|auto].
    + intros b' [?|?]%elem_of_insert_inv; [done|auto].
    + done.
    + intros b' [->|?]%elem_of_cons; auto.
    + by intros [?|?]%elem_of_insert_inv.
Qed.

Lemma foreign_inv σ i f σ' :
  inv σ → others σ !! i = Some f → foreign_step i f σ = Some σ' → inv σ'.
Proof.
  intros H Hi Hs. pose proof (inv_acct _ H) as Hac.
  enough (proto σ' ∧ bins_ok σ') as [? ?] by (constructor; try done; by eapply foreign_acct).
  destruct f as [|o|o p| |b|b|]; try done; [..|by eapply foreign_lock_inv|by eapply foreign_mail_inv].
  - injection Hs as <-. destruct H as [_ Hp Hb]. split; [|by apply (bins_move _ _ _ _ _ _ Hb Hi)].
    eapply proto_ext; [..|exact Hp]; try done; unfold set_other.
    + rewrite (adding_set _ _ _ _ _ _ _ _ _ _ _ Hi). simpl. lia.
    + intros b. rewrite (mailing_set _ _ _ _ _ _ _ _ _ _ _ _ Hi). simpl. lia.
  - by eapply foreign_cas_inv.
  - injection Hs as <-. destruct H as [_ Hp Hb]. pose proof (list_elem_of_lookup_2 _ _ _ Hi) as Hin.
    pose proof (adders_pos _ _ Hin) as Hpos. simpl in Hpos.
    destruct (adding_in_use σ Hp Hpos) as (b & Hob & Hnext & _). rewrite Hnext.
    split; [|by apply (bins_move _ _ _ _ _ _ Hb Hi)].
    eapply proto_ext; [..|exact Hp]; try done; unfold set_other.
    + rewrite (adding_set _ _ _ _ _ _ _ _ _ _ _ Hi). simpl. lia.
    + intros b'. rewrite (mailing_set _ _ _ _ _ _ _ _ _ _ _ _ Hi). simpl. lia.
Qed.

(** The owner does not change the other threads: only the bin they may lock matters. *)
Lemma bins_own σ x w u ml :
  bins_ok σ → ml ⊆ mail σ →
  (owner_bin w = owner_bin (own σ) ∨ owner_bin w = None ∧ adding σ = 0) →
  bins_ok (System x w (others σ) u ml (retired σ) (dead σ) (bins σ)).
Proof.
  intros H Hml Hw. eapply (bins_same σ); simpl; try done.
  - intros b Hin. destruct Hw as [->|[_ Ha]]; [by apply H|]. pose proof (adders_pos _ _ Hin) as Hpos. unfold adding in Ha. simpl in Hpos. lia.
  - apply H.
  - intros b Hin. by left.
  - destruct Hw as [->|[-> _]]; auto.
Qed.

Lemma in_use_empty σ b : in_use b σ → objs (publicFreeList (blk σ)) = [] →
  adding σ = 0 ∧ mailing b σ = 0 ∧ (b ∉ mail σ) ∧ nextPrivatizable (blk σ) = LBin b.
Proof.
  intros (_ & H) Hn. rewrite Hn in H. destruct (nextPrivatizable (blk σ)); [|by destruct H|done..]. by destruct H as (-> & ? & ? & ?).
Qed.

(** [publicFreeList] is taken: the block is in use again, with an empty list. *)
Lemma privatized_in_use σ b x w u :
  nextPrivatizable x = LBin b → publicFreeList x = Chain [] false →
  adding σ = 0 → mailing b σ = 0 → b ∉ mail σ →
  in_use b (System x w (others σ) u (mail σ) (retired σ) (dead σ) (bins σ)).
Proof. unfold in_use. simpl. intros -> -> ? ? ?. by split_and!. Qed.

Lemma linked_share σ b : in_use b σ → nextPrivatizable (blk σ) ≠ LBin b →
  first (publicFreeList (blk σ)) ≠ PNull ∧ adding σ = 0.
Proof.
  intros (Hun & H) Hn. destruct (nextPrivatizable (blk σ)) as [b'| | |]; try done; [by destruct H as [-> _]|].
  destruct H as (H1 & H2 & _). split; [|done]. by apply first_nonnull.
Qed.

Lemma not_tag b l : is_tag b l = false → l ≠ LBin b.
Proof. intros H ->. apply bool_decide_eq_false in H. done. Qed.

Lemma own_inv σ c active σ' : inv σ → own_step c active σ = Some σ' → inv σ'.
Proof.
  intros H Hs. pose proof (inv_acct _ H) as Hac.
  enough (proto σ' ∧ bins_ok σ') as [? ?] by (constructor; try done; by eapply own_acct).
  destruct H as [_ Hp Hb]. unfold own_step, privatizeTaken, shareOrphaned, readyToShare, privatizeOrphaned, cleanup in Hs. unfold proto in Hp.
  destruct (own σ) as [b|b|b|b|b|b| |b| |] eqn:Ho; try done; try (injection Hs as Hs).
  - destruct Hp as (Hnext & Hne & Hun & Ha & Hm & Hml).
    subst σ'. destruct (_ && _); [unfold processEmptyBlock; destruct active|];
      (split; [|apply bins_own; try done; rewrite Ho; auto]); try done; by apply privatized_in_use.
  - subst σ'. destruct (is_tag b (nextPrivatizable (blk σ))) eqn:Hn.
    + split; [done|]. apply bins_own; try done. left. by rewrite Ho.
    + apply not_tag in Hn. split; [by eapply linked_share|]. apply bins_own; try done. left. by rewrite Ho.
  - case_decide as Hf; subst σ'; (split; [|apply bins_own; try done; left; by rewrite Ho]).
    + split; [done|]. apply (in_use_empty _ _ Hp). unfold first in Hf. by destruct (objs _).
    + split; [done|]. destruct Hp as [Hun _]. unfold first in Hf. rewrite Hun in Hf. simpl. by destruct (objs _).
  - destruct Hp as [Hp Hne]. subst σ'. destruct (is_tag b (nextPrivatizable (blk σ))) eqn:Hn.
    + split; [done|]. apply bins_own; try done. left. by rewrite Ho.
    + apply not_tag in Hn. split; [by eapply linked_share|]. apply bins_own; try done. left. by rewrite Ho.
  - subst σ'. destruct Hp as [Hf Ha]. split; [done|].
    pose proof (bins_own σ (set_next LUnusable (blk σ)) Orphan (user σ) (mail σ) Hb ltac:(done) (or_intror (conj eq_refl Ha))) as [H1 H2 H3 H4 H5].
    destruct (bins_owner _ Hb b) as (Hlt & _); [by rewrite Ho|].
    constructor; simpl in *; try done. intros b'. rewrite elem_of_app, elem_of_cons, elem_of_app.
    specialize (H4 b'). rewrite !elem_of_app in H4. intros [?|[->|[?|?]]]; auto.
  - subst σ'. destruct Hp as (Hf & Hnext & Ha & Hm & Hml). split; [|apply bins_own; try done; left; by rewrite Ho].
    apply privatized_in_use; try done; by destruct (empty _).
  - destruct Hp as (Hf & Hnext & Ha). destruct (empty _); subst σ';
      (split; [done|apply bins_own; try done; right; done]).
Qed.

Lemma free_own_cases active b o x x' w :
  freeOwnObject active b o x = (x', w) →
  (w = Owned b ∧ publicFreeList x' = publicFreeList x ∧ nextPrivatizable x' = nextPrivatizable x) ∨
  (w = Released ∧ allocatedCount x = 1).
Proof.
  unfold freeOwnObject, processEmptyBlock. destruct (empty _) eqn:He; [|intros [= <- <-]; by left].
  destruct active; intros [= <- <-]; [by left|right]. apply Z.eqb_eq in He. simpl in He. split; [done|lia].
Qed.

Lemma same_proto σ x u w :
  proto σ → match own σ with Owned b => w = Owned b ∨ w = Share1 b | _ => False end →
  publicFreeList x = publicFreeList (blk σ) → nextPrivatizable x = nextPrivatizable (blk σ) →
  proto (System x w (others σ) u (mail σ) (retired σ) (dead σ) (bins σ)).
Proof.
  intros Hp Hw Hx Hn. unfold proto in *. destruct (own σ) as [b| | | | | | | | |]; try done.
  destruct Hw as [-> | ->]; unfold in_use in *; simpl; by rewrite Hx, Hn.
Qed.

Lemma free_inv σ b active k o x w :
  inv σ → own σ = Owned b → user σ !! k = Some o → freeOwnObject active b o (blk σ) = (x, w) →
  inv (System x w (others σ) (delete k (user σ)) (mail σ) (retired σ) (dead σ) (bins σ)).
Proof.
  intros [Hac Hp Hb] Ho Hk Hf. assert (Hnr : own σ ≠ Released) by (by rewrite Ho).
  destruct (free_own_cases _ _ _ _ _ _ Hf) as [(-> & Hx & Hn)|[-> Hc]].
  - constructor; [by eapply free_acct|apply same_proto; try done; rewrite Ho; auto|].
    apply bins_own; try done. left. by rewrite Ho.
  - assert (Ha : adding σ = 0).
    { rewrite (acct_count _ Hac Hnr) in Hc. pose proof (lookup_lt_Some _ _ _ Hk) as Hlt.
      unfold proto in Hp. rewrite Ho in Hp. apply (in_use_empty _ _ Hp). destruct (objs _); [done|simpl in Hc; lia]. }
    constructor; [by eapply free_acct|done|]. by apply bins_own; auto.
Qed.

Lemma take_inv σ b :
  inv σ → own σ = Owned b → b ∈ mail σ → locked b (others σ) = false →
  inv (System (set_next (LBin b) (blk σ)) (Privatize b) (others σ) (user σ) (filter (λ b', b' ≠ b) (mail σ))
         (retired σ) (dead σ) (bins σ)).
Proof.
  intros [Hac Hp Hb] Ho Hin Hl. constructor.
  - apply same_acct; try done. by rewrite Ho.
  - unfold proto in *. rewrite Ho in Hp. simpl. destruct Hp as (Hun & Hp).
    destruct (nextPrivatizable (blk σ)); [by destruct Hp as (_ & ? & _)| |done..].
    destruct Hp as (Hne & Ha & Hm). split_and!; try done; [by destruct Hm as [[_ ?]|[? _]]|].
    by intros [? _]%list_elem_of_filter.
  - apply bins_own; [done| |left; by rewrite Ho]. intros b' H. by apply list_elem_of_filter in H as [_ ?].
Qed.

(** A bin that has not been used is in no one's hands. *)
Lemma fresh_bin σ : bins_ok σ → mailing (bins σ) σ = 0 ∧ bins σ ∉ mail σ.
Proof.
  intros Hb. split.
  - apply mailers_absent. intros Hin%(bins_mail _ Hb). lia.
  - intros Hin. pose proof (bins_lt _ Hb (bins σ)) as Hlt. rewrite elem_of_app in Hlt. specialize (Hlt (or_introl Hin)). lia.
Qed.

Lemma bins_fresh σ x w :
  bins_ok σ → adding σ = 0 → owner_bin w = Some (bins σ) →
  bins_ok (System x w (others σ) (user σ) (mail σ) (retired σ) (dead σ) (S (bins σ))).
Proof.
  intros [H1 H2 H3 H4 H5] Ha Hw. constructor; simpl; try done.
  - intros b Hin%adders_pos. unfold adding in Ha. simpl in Hin. lia.
  - intros b Hin. destruct (H2 b Hin). split; [lia|done].
  - intros b. rewrite Hw. intros [= <-]. split_and!; [lia|..]; intros Hin; specialize (H4 (bins σ)); rewrite !elem_of_app in H4;
      (assert (bins σ < bins σ)%nat by auto); lia.
  - intros b Hin. specialize (H4 b Hin). lia.
Qed.

(** The bin of a thread that ends and leaves an empty block. *)
Lemma empty_share_inv σ b :
  inv σ → own σ = Owned b → empty (blk σ) = true →
  proto (System (reset (blk σ)) Released (others σ) (user σ) (mail σ) (retired σ) (b :: dead σ) (bins σ)) ∧
  bins_ok (System (reset (blk σ)) Released (others σ) (user σ) (mail σ) (retired σ) (b :: dead σ) (bins σ)).
Proof.
  intros [Hac Hp Hb] Ho He. destruct (empty_acct σ Hac) as (_ & _ & Hn); [by rewrite Ho|done|].
  unfold proto in Hp. rewrite Ho in Hp. destruct (in_use_empty _ _ Hp Hn) as (Ha & Hm & _). split; [done|].
  destruct (bins_owner _ Hb b) as (Hlt & _ & _); [by rewrite Ho|].
  destruct (bins_own σ (reset (blk σ)) Released (user σ) (mail σ) Hb) as [H1 H2 H3 H4 H5]; [done|by right|].
  constructor; simpl in *; try done.
  - intros b' Hin. destruct (H2 b' Hin) as [? ?]. split; [done|]. apply not_elem_of_cons. split; [|done]. intros ->.
    apply mailers_pos in Hin. unfold mailing in Hm. lia.
  - intros b'. specialize (H4 b'). rewrite !elem_of_app, elem_of_cons. rewrite !elem_of_app in H4.
    intros [?|[?|[->|?]]]; auto.
Qed.

Lemma sync_inv σ b :
  inv σ → b ∈ retired σ → locked b (others σ) = false →
  inv (System (blk σ) (own σ) (others σ) (user σ) (mail σ) (filter (λ b', b' ≠ b) (retired σ)) (b :: dead σ) (bins σ)).
Proof.
  intros [Hac Hp Hb] Hr Hl%unlocked_spec. constructor.
  - destruct Hac as [Hs Hc Hrel]. by constructor.
  - eapply proto_ext; [..|exact Hp]; done.
  - destruct Hb as [H1 H2 H3 H4 H5]. constructor; simpl; try done.
    + intros b' Hin. destruct (H2 b' Hin) as [Hlt Hd]. split; [done|]. apply not_elem_of_cons. split; [by intros ->|done].
    + intros b' Hob. destruct (H3 b' Hob) as (Hlt & Hd & Hrt). split_and!; [done| |].
      * apply not_elem_of_cons. split; [by intros ->|done].
      * by intros [_ ?]%list_elem_of_filter.
    + intros b'. specialize (H4 b'). rewrite !elem_of_app, list_elem_of_filter, elem_of_cons. rewrite !elem_of_app in H4.
      intros [?|[[_ ?]|[->|?]]]; auto.
Qed.

Lemma slab_step_inv σ σ' : inv σ → step σ σ' → inv σ'.
Proof.
  intros H Hst. pose proof (step_acct _ _ (inv_acct _ H) Hst) as Hac. destruct Hst as (a & Ha).
  pose proof H as [_ Hp Hb]. unfold advance, take, release, syncOnMailbox, get in Ha. destruct a as [|k active| |c active| | | | |b|i k|i].
  - destruct (own σ) as [b| | | | | | | | |] eqn:Ho; try done. apply bind_Some in Ha as ([o x] & Hal & [= <-]).
    destruct (acct_slots _ (inv_acct _ H)) as (k & Hk & Hbump & _); [by rewrite Ho|].
    destruct (allocate_spec _ _ _ _ Hal Hk Hbump) as (Hx & Hn & _).
    constructor; [done|apply same_proto; try done; rewrite Ho; auto|]. apply bins_own; try done. left. by rewrite Ho.
  - destruct (own σ) as [b| | | | | | | | |] eqn:Ho; try done. apply bind_Some in Ha as (o & Hk & Hx).
    destruct (freeOwnObject active b o (blk σ)) as [x w] eqn:Hf. injection Hx as <-. by eapply free_inv.
  - destruct (own σ) as [b| | | | | | | | |] eqn:Ho; try done. case_decide as Hd; [|done]. destruct Hd as [Hin Hl]. simplify_eq.
    by apply take_inv.
  - by eapply own_inv.
  - destruct (own σ) as [b| | | | | | | | |] eqn:Ho; try done. destruct (empty _) eqn:He; injection Ha as <-.
    + destruct (empty_share_inv σ b H Ho He). by constructor.
    + constructor; [done|apply same_proto; try done; rewrite Ho; auto|]. apply bins_own; try done. left. by rewrite Ho.
  - destruct (own σ) eqn:Ho; try done. injection Ha as <-. unfold proto in Hp. rewrite Ho in Hp.
    destruct Hp as (Hf & Hn & Ha). destruct (fresh_bin _ Hb). constructor; [done|by split_and!|by apply bins_fresh].
  - destruct (own σ) eqn:Ho; try done. injection Ha as <-. unfold proto in Hp. rewrite Ho in Hp.
    constructor; [done|done|]. apply bins_own; try done. left. by rewrite Ho.
  - destruct (own σ) eqn:Ho; try done. injection Ha as <-. unfold proto in Hp. rewrite Ho in Hp.
    destruct (fresh_bin _ Hb). constructor; [done| |by apply bins_fresh]. by split_and!.
  - case_decide as Hd; [|done]. destruct Hd as [Hr Hl]. injection Ha as <-. by apply sync_inv.
  - apply bind_Some in Ha as (f & Hi & Ha). apply bind_Some in Ha as (o & Hk & Ha). destruct f; simplify_eq.
    constructor; [done| |by apply (bins_move _ _ _ _ _ _ Hb Hi)]. eapply proto_ext; [..|exact Hp]; try done.
    + rewrite (adding_set _ _ _ _ _ _ _ _ _ _ _ Hi). simpl. lia.
    + intros b. rewrite (mailing_set _ _ _ _ _ _ _ _ _ _ _ _ Hi). simpl. lia.
  - apply bind_Some in Ha as (f & Hi & Ha). by eapply foreign_inv.
Qed.

Lemma init_flying n : flying (replicate n FIdle) = [].
Proof. induction n as [|n IH]; [done|]. exact IH. Qed.

Lemma slab_init_inv n : inv (init n).
Proof.
  assert (Hidle : ∀ f, f ∈ replicate n FIdle → f = FIdle) by (intros f [? _]%elem_of_replicate; done).
  constructor.
  - apply init_acct; [done|apply init_flying].
  - assert (adding (init n) = 0 ∧ mailing 0%nat (init n) = 0) as [? ?]
      by (split; unfold adding, mailing; simpl; rewrite zsum_replicate; simpl; lia).
    unfold proto, in_use. simpl. split_and!; try done. apply not_elem_of_nil.
  - constructor; simpl.
    + intros b [=]%Hidle.
    + intros b [=]%Hidle.
    + intros b [= <-]. split_and!; [lia|apply not_elem_of_nil..].
    + intros b []%elem_of_nil.
    + by intros [=]%Hidle.
Qed.

Lemma slab_reachable_inv n σ : rtc step (init n) σ → inv σ.
Proof.
  intros H. assert (Hi := slab_init_inv n). revert Hi. induction H as [|σ σ1 σ2 Hst _ IH]; [done|].
  intros Hi. apply IH. by eapply slab_step_inv.
Qed.

(** ** The slots of the slab *)
Lemma slot_inj k k' : slot_at k = slot_at k' → k = k'.
Proof. unfold slot_at. nia. Qed.

Lemma slot_apart k k' : slot_at k ≠ slot_at k' → objectSize ≤ Z.abs (slot_at k - slot_at k').
Proof.
  intros Hne. assert (Hk : k < k' ∨ k' < k) by (destruct (Z.lt_total k k') as [?|[->|?]]; auto; done).
  unfold slot_at. destruct Hk; nia.
Qed.

Lemma slots_nodup k : NoDup (slots_from k).
Proof. apply NoDup_fmap_2; [intros x y; apply slot_inj|apply NoDup_seqZ]. Qed.

Lemma slots_elem o : o ∈ slots_from 1 → ∃ k, o = slot_at k ∧ 1 ≤ k ≤ capacity.
Proof. intros (k & -> & Hk%elem_of_seqZ)%list_elem_of_fmap. exists k. split; [done|lia]. Qed.

Lemma slot_bounds k : 1 ≤ k ≤ capacity → header ≤ slot_at k ∧ slot_at k + objectSize ≤ slabSize.
Proof.
  intros Hk. unfold slot_at. split; [|nia]. pose proof (Z.mul_div_le (slabSize - header) objectSize Hobject).
  unfold capacity in Hk. nia.
Qed.

(** Every object that is not behind [bumpPtr]: where it lies. *)
Definition objects (σ : system) : list Z :=
  user σ ++ flying (others σ) ++ objs (publicFreeList (blk σ)) ++ freeList (blk σ).

Lemma acct_objects σ : acct σ → own σ ≠ Released → NoDup (objects σ) ∧ objects σ ⊆ slots_from 1.
Proof.
  intros H Ho. destruct (acct_slots _ H Ho) as (k & _ & _ & Hp). rewrite !app_assoc in Hp.
  assert (Hobj : objects σ ++ slots_from k ≡ₚ slots_from 1) by (unfold objects; by rewrite !app_assoc).
  pose proof (slots_nodup 1) as Hnd. rewrite <- Hobj in Hnd. split; [by apply NoDup_app in Hnd as [? _]|].
  intros o Hin. rewrite <- Hobj. apply elem_of_app. by left.
Qed.

(** The objects that a thread other than the owner still has to do with. *)
Definition in_block (f : foreign) : bool :=
  match f with FLoad _ | FCas _ _ | FNext | FLock _ => true | _ => false end.

Lemma adding_thread σ b :
  in_use b σ → nextPrivatizable (blk σ) = LBin b → objs (publicFreeList (blk σ)) ≠ [] → bins_ok σ →
  owner_bin (own σ) = Some b →
  ∃ i f, others σ !! i = Some f ∧ (f = FNext ∨ f = FLock b) ∧ is_Some (foreign_step i f σ).
Proof.
  intros (_ & Hu) Hn Hne Hb Hob. rewrite Hn in Hu. destruct Hu as (_ & _ & Hm & Ha).
  assert (Hpos : 0 < adding σ) by (destruct (objs _); [done|lia]).
  apply zsum_pos in Hpos as (f & Hin & Hf). pose proof Hin as (i & Hi)%list_elem_of_lookup. exists i, f.
  destruct f as [| | | |b'| |]; try done; [by split_and!; auto|].
  pose proof (bins_lock _ Hb b' Hin) as Hob'. rewrite Hob in Hob'. injection Hob' as <-. split_and!; auto. simpl.
  rewrite (proj2 (unlocked_spec _ _)); [done|]. intros Hmail%mailers_pos. unfold mailing in Hm. lia.
Qed.

(** Objects pushed to [publicFreeList] are on their way to the owner. *)
Lemma public_announced σ b :
  inv σ → own σ = Owned b → objs (publicFreeList (blk σ)) ≠ [] →
  b ∈ mail σ ∨ ∃ f, f ∈ others σ ∧ (f = FNext ∨ f = FLock b ∨ f = FMail b).
Proof.
  intros [_ Hp Hb] Ho Hne. unfold proto in Hp. rewrite Ho in Hp.
  destruct (decide (nextPrivatizable (blk σ) = LBin b)) as [Hn|Hn].
  - destruct (adding_thread σ b Hp Hn Hne Hb) as (i & f & Hi & Hf & _); [by rewrite Ho|]. right. exists f.
    split; [by eapply list_elem_of_lookup_2|]. destruct Hf; auto.
  - destruct Hp as (_ & Hp). destruct (nextPrivatizable (blk σ)) as [b'| | |]; try done; [by destruct Hp as [-> _]|].
    destruct Hp as (_ & _ & [[Hm _]|[_ ?]]); [|by left]. right.
    destruct (zsum_pos (mailers b) (others σ)) as (f & Hin & Hf); [unfold mailing in Hm; lia|]. exists f. split; [done|].
    destruct f as [| | | | |b'|]; simpl in Hf; try lia. case_decide; [|lia]. subst. auto.
Qed.

Lemma released_idle σ : flying (others σ) = [] → proto σ → own σ = Released → ∀ f, f ∈ others σ → in_block f = false.
Proof.
  unfold proto. intros Hf Hp Ho f Hin. rewrite Ho in Hp. pose proof (adders_pos _ _ Hin) as Hpos. unfold adding in Hp.
  assert (Hnf : in_flight f = []).
  { apply elem_of_nil_inv. intros o Hof. apply (not_elem_of_nil o). rewrite <- Hf. unfold flying.
    apply list_elem_of_join. exists (in_flight f). split; [done|]. by apply list_elem_of_fmap_2. }
  destruct f; try done; simpl in Hpos; lia.
Qed.

(** C21: in every execution in which threads allocate from a slab, free to it from
    other threads, give it up and adopt it: no object is in two places (given out,
    being freed, in [publicFreeList], in [freeList]), objects lie in the slab and do
    not overlap, and [allocatedCount] is the number of those that the owner has
    not got back; no thread takes the link of a mailbox for a bin, or uses a bin of a
    thread that has ended; a block that is returned to the pool has no object in
    use and no thread in it; [publicFreeList] is not [nullptr] when it is privatized;
    objects pushed to it are announced to the owner, and the wait of
    [shareOrphaned] is for a thread that can go on. *)
Theorem slab_objects_safe n σ :
  rtc step (init n) σ →
  (own σ ≠ Released →
     NoDup (objects σ) ∧
     (∀ o, o ∈ objects σ → header ≤ o ∧ o + objectSize ≤ slabSize) ∧
     (∀ o o', o ∈ objects σ → o' ∈ objects σ → o ≠ o' → objectSize ≤ Z.abs (o - o')) ∧
     allocatedCount (blk σ) =
       Z.of_nat (length (user σ) + length (flying (others σ)) + length (objs (publicFreeList (blk σ))))) ∧
  (FBad ∉ others σ) ∧ (∀ b, FLock b ∈ others σ ∨ FMail b ∈ others σ → b ∉ dead σ) ∧
  (own σ = Released → user σ = [] ∧ ∀ f, f ∈ others σ → in_block f = false) ∧
  match own σ with Privatize _ | Adopt _ | Cleanup => first (publicFreeList (blk σ)) ≠ PNull | _ => True end ∧
  (∀ b, own σ = Owned b → objs (publicFreeList (blk σ)) ≠ [] →
     b ∈ mail σ ∨ ∃ f, f ∈ others σ ∧ (f = FNext ∨ f = FLock b ∨ f = FMail b)) ∧
  (∀ b, own σ = Share3 b → nextPrivatizable (blk σ) = LBin b →
     ∃ i f, others σ !! i = Some f ∧ (f = FNext ∨ f = FLock b) ∧ is_Some (foreign_step i f σ)).
Proof.
  intros H%slab_reachable_inv. pose proof H as [Hac Hp Hb]. split_and!.
  - intros Ho. destruct (acct_objects σ Hac Ho) as [Hnd Hsub]. split_and!; [done|..|by apply acct_count].
    + intros o (k & -> & Hk)%Hsub%slots_elem. by apply slot_bounds.
    + intros o o' (k & -> & _)%Hsub%slots_elem (k' & -> & _)%Hsub%slots_elem Hne. by apply slot_apart.
  - apply Hb.
  - intros b [Hin|Hin]; [|by apply (bins_mail _ Hb)]. by apply (bins_owner _ Hb), (bins_lock _ Hb).
  - intros Ho. destruct (acct_released _ Hac Ho) as (Hu & Hf & _). split; [done|]. by apply released_idle.
  - unfold proto in Hp. destruct (own σ); try done; [|by destruct Hp..]. apply first_nonnull; by destruct_and?.
  - intros b Ho Hne. by apply public_announced.
  - intros b Ho Hn. unfold proto in Hp. rewrite Ho in Hp. destruct Hp as [Hp Hne].
    apply adding_thread; try done. by rewrite Ho.
Qed.
End slab.
End Slab.

Module SlabExamples.
Import Slab.

(** Three objects of 64 bytes behind a header of 128 bytes: thread 0 returns one
    through the mailbox of bin 0; while the owner gives the slab up, thread 1
    returns another, and the owner has to wait for it. *)
Definition returned : list action :=
  [Malloc; Malloc; Malloc; FFree 0 0; FRun 0; FRun 0; FRun 0; FRun 0; FRun 0; Take; Run true true].
Definition given_up : list action := [Share; Run false false; FFree 1 0; FRun 1; FRun 1; Run false false].
Definition adopted : list action := [FRun 1; FRun 1; Run false false; Run false false; Get; FRun 1; Sync 0; Run false false].

Lemma slab_objects_safe_witness :
  ∃ σ, run_trace (advance 128 64) (returned ++ given_up) (init 64 2) = Some σ ∧ own σ = Share3 0 ∧
    NoDup (objects σ) ∧ allocatedCount (blk σ) = 2 ∧ (∃ i f, others σ !! i = Some f ∧ is_Some (foreign_step i f σ)).
Proof.
  destruct (run_trace (advance 128 64) (returned ++ given_up) (init 64 2)) as [σ|] eqn:E; [|vm_compute in E; discriminate E].
  assert (Hr : rtc (step 128 64) (init 64 2) σ).
  { eapply (run_trace_rtc (advance 128 64)); [|exact E]. intros a s s' Ha. by exists a. }
  pose proof (slab_objects_safe 128 64 ltac:(lia) ltac:(unfold slabSize; lia) 2 σ Hr) as (H1 & _ & _ & _ & _ & _ & H2).
  exists σ. vm_compute in E. injection E as <-. split_and!; [reflexivity|reflexivity|by apply H1|reflexivity|].
  destruct (H2 0%nat) as (i & f & Hi & _ & Hs); [reflexivity|reflexivity|]. eauto.
Defined.

(** The orphaned slab is adopted by the thread of bin 1, which gets both objects back. *)
Lemma adopted_slab :
  ∃ σ, run_trace (advance 128 64) (returned ++ given_up ++ adopted) (init 64 2) = Some σ ∧
    own σ = Owned 1 ∧ allocatedCount (blk σ) = 1 ∧ freeList (blk σ) = [16256; 16192] ∧ dead σ = [0%nat].
Proof. eexists. split_and!; vm_compute; reflexivity. Qed.
End SlabExamples.
