(* ===== verification/InputBuffer.v ===== *)
(** * The input buffers of a pipeline

    A serial filter of a [parallel_pipeline] has a buffer for the items that
    arrive before it is their turn: a circular array indexed by tokens.  Source:
    src/tbb/parallel_pipeline.cpp ([task_info], [input_buffer]).

    [Buffer] is what the pipeline uses of it.  It has two instances: the array
    with tokens that wrap around, and its specification, a finite map with
    unbounded tokens.  The operations hold [array_mutex], so they are atomic. *)

From S2P Require Import Prelude.
From stdpp Require Import base numbers gmap list.
From Stdlib Require Import ZArith Lia.
Local Open Scope Z_scope.

(** [task_info] *)
Record task_info (V : Type) := TaskInfo {
  my_object : V;
  my_token : Z;
  my_token_ready : bool;
  is_valid : bool;
}.
Arguments TaskInfo {V}.
Arguments my_object {V}.
Arguments my_token {V}.
Arguments my_token_ready {V}.
Arguments is_valid {V}.

Section info.
Context {V : Type}.
Implicit Types (info : task_info V).
Definition set_token (t : Z) info : task_info V := TaskInfo (my_object info) t true (is_valid info).
Definition set_valid (b : bool) info : task_info V := TaskInfo (my_object info) (my_token info) (my_token_ready info) b.
Definition set_object (v : V) info : task_info V := TaskInfo v (my_token info) (my_token_ready info) (is_valid info).
(** [task_info::reset] *)
Definition reset_info (null : V) : task_info V := TaskInfo null 0 false false.
End info.

(** What the pipeline uses of a buffer: the result of [try_put_token] is
    whether the item was placed into the buffer, with the changed argument; that
    of [next_token] is the item to spawn a task for.  [None] is an access out of
    bounds, an assertion that fails or a loop that does not end. *)
Class Buffer (V B : Type) := {
  new_buffer : bool → option B;
  get_ordered_token : B → Z * B;
  try_put_token : task_info V → B → option (bool * task_info V * B);
  next_token : B → option (option (task_info V) * B);
}.

(** ** The circular array *)
Module Circular.

Record input_buffer (V : Type) := InputBuffer {
  array : list (task_info V);
  low_token : Z;
  high_token : Z;
  is_ordered : bool;
}.
Arguments InputBuffer {V}.
Arguments array {V}.
Arguments low_token {V}.
Arguments high_token {V}.
Arguments is_ordered {V}.

Section circular.
Context {V : Type} (null : V).
Implicit Types (b : input_buffer V) (info : task_info V).

(** [Token] is [unsigned long]; [(long)(x) >= 0] *)
Definition token (x : Z) : Z := x mod 2 ^ 64.
Definition is_nonneg (x : Z) : bool := token x <? 2 ^ 63.

Definition array_size b : Z := Z.of_nat (length (array b)).
Definition initial_buffer_size : Z := 4.

(** [array[t & (size-1)]] *)
Definition slot (t size : Z) : nat := Z.to_nat (Z.land t (size - 1)).

(** [grow]: the loop that doubles the size, and the one that copies. *)
Fixpoint double_size (fuel : nat) (new_size minimum_size : Z) : option Z :=
  match fuel with
  | O => None
  | S fuel => if new_size <? minimum_size then double_size fuel (token (new_size * 2)) minimum_size else Some new_size
  end.
Fixpoint copy (n : nat) (t : Z) (old new : list (task_info V)) : option (list (task_info V)) :=
  match n with
  | O => Some new
  | S n =>
      x ← old !! slot t (Z.of_nat (length old));
      new ← write new (slot t (Z.of_nat (length new))) x;
      copy n (token (t + 1)) old new
  end.
Definition grow (minimum_size : Z) b : option (input_buffer V) :=
  let old_size := array_size b in
  new_size ← double_size 64 (if old_size =? 0 then initial_buffer_size else token (2 * old_size)) minimum_size;
  new_array ← copy (length (array b)) (low_token b) (array b) (replicate (Z.to_nat new_size) (reset_info null));
  Some (InputBuffer new_array (low_token b) (high_token b) (is_ordered b)).

(** [get_ordered_token] and [high_token++] *)
Definition take_high_token b : Z * input_buffer V :=
  (high_token b, InputBuffer (array b) (low_token b) (token (high_token b + 1)) (is_ordered b)).

(** [try_put_token]: the token of the item; then the rest. *)
Definition choose_token info b : Z * task_info V * input_buffer V :=
  if is_ordered b then
    if my_token_ready info then (my_token info, info, b)
    else let '(t, b) := take_high_token b in (t, set_token t info, b)
  else let '(t, b) := take_high_token b in (t, info, b).
Definition put info b : option (bool * task_info V * input_buffer V) :=
  let '(t, info, b) := choose_token (set_valid true info) b in
  if negb (is_nonneg (t - low_token b)) then None
  else if t =? low_token b then Some (false, info, b)
  else
    b ← (if array_size b <=? token (t - low_token b) then grow (token (token (t - low_token b) + 1)) b else Some b);
    new_array ← write (array b) (slot t (array_size b)) info;
    Some (true, info, InputBuffer new_array (low_token b) (high_token b) (is_ordered b)).

(** [try_to_spawn_task_for_next_token]: the part under the lock. *)
Definition next b : option (option (task_info V) * input_buffer V) :=
  let low_token := token (low_token b + 1) in
  let i := slot low_token (array_size b) in
  wakee ← array b !! i;
  new_array ← write (array b) i (set_valid false wakee);
  Some (if is_valid wakee then Some wakee else None, InputBuffer new_array low_token (high_token b) (is_ordered b)).

(** The constructor *)
Definition construct (ordered : bool) : option (input_buffer V) :=
  grow initial_buffer_size (InputBuffer [] 0 0 ordered).
End circular.

#[export] Instance circular_buffer {V} (null : V) : Buffer V (input_buffer V) := {
  new_buffer := construct null;
  get_ordered_token := take_high_token;
  try_put_token := put null;
  next_token := next;
}.
End Circular.

(** ** Its specification *)
Module Waiting.

(** The items that wait for their turn, by token. *)
Record waiting (V : Type) := Waits {
  low : Z;
  high : Z;
  ordered : bool;
  pend : gmap Z (task_info V);
}.
Arguments Waits {V}.
Arguments low {V}.
Arguments high {V}.
Arguments ordered {V}.
Arguments pend {V}.

Section waiting.
Context {V : Type}.
Implicit Types (b : waiting V) (info : task_info V).

Definition take_high b : Z * waiting V := (high b, Waits (low b) (high b + 1) (ordered b) (pend b)).
Definition choose info b : Z * task_info V * waiting V :=
  if ordered b && my_token_ready info then (my_token info, info, b)
  else let '(t, b) := take_high b in (t, if ordered b then set_token t info else info, b).
Definition wait_put info b : option (bool * task_info V * waiting V) :=
  let '(t, info, b) := choose (set_valid true info) b in
  if t =? low b then Some (false, info, b)
  else Some (true, info, Waits (low b) (high b) (ordered b) (<[t := info]> (pend b))).
Definition wait_next b : option (option (task_info V) * waiting V) :=
  Some (pend b !! (low b + 1), Waits (low b + 1) (high b) (ordered b) (delete (low b + 1) (pend b))).
End waiting.

#[export] Instance waiting_buffer {V} : Buffer V (waiting V) := {
  new_buffer := λ o, Some (Waits 0 0 o ∅);
  get_ordered_token := take_high;
  try_put_token := wait_put;
  next_token := wait_next;
}.
End Waiting.

(** ** The array implements the map *)
Module BufferRefinement.
Import Circular Waiting.

(** Tokens are remainders of the unbounded ones. *)
Record info_rel {V} (ic ia : task_info V) : Prop := {
  rel_object : my_object ic = my_object ia;
  rel_token : my_token ic = token (my_token ia);
  rel_ready : my_token_ready ic = my_token_ready ia;
  rel_valid : is_valid ic = is_valid ia;
}.

Section refinement.
Context {V : Type} (null : V).
Implicit Types (bc : input_buffer V) (ba : waiting V) (ic ia : task_info V) (l : list (task_info V)).

(** The slot of the array for a token in the window. *)
Definition holds (p : Z) l (t : Z) (o : option (task_info V)) : Prop :=
  ∃ s, l !! Z.to_nat (t mod 2 ^ p) = Some s ∧
    match o with Some ia => info_rel s ia ∧ is_valid s = true | None => is_valid s = false end.

Record buffer_rel (p : Z) bc ba : Prop := {
  rel_size : array_size bc = 2 ^ p;
  rel_p : 2 ≤ p ≤ 62;
  rel_low : low_token bc = token (low ba);
  rel_high : high_token bc = token (high ba);
  rel_ordered : is_ordered bc = ordered ba;
  rel_pend t ia : pend ba !! t = Some ia → low ba < t < low ba + 2 ^ p;
  rel_slots t : low ba ≤ t < low ba + 2 ^ p → holds p (array bc) t (pend ba !! t);
}.

Lemma token_small x : 0 ≤ x < 2 ^ 64 → token x = x.
Proof. intros. unfold token. by rewrite Z.mod_small. Qed.
Lemma token_add x y : token (token x + y) = token (x + y).
Proof. unfold token. by rewrite Z.add_mod_idemp_l. Qed.
Lemma token_sub x y : token (token x - token y) = token (x - y).
Proof. unfold token. by rewrite <- Zminus_mod. Qed.

Lemma slot_token t p : 0 ≤ p ≤ 64 → slot (token t) (2 ^ p) = Z.to_nat (t mod 2 ^ p).
Proof.
  intros Hp. unfold slot, token. rewrite Z.sub_1_r, <- Z.ones_equiv, Z.land_ones by lia. f_equal.
  apply Z.mod_mod_divide. exists (2 ^ (64 - p)). rewrite <- Z.pow_add_r by lia. f_equal. lia.
Qed.

Lemma window_inj P t u v : 0 < P → t ≤ u < t + P → t ≤ v < t + P → u mod P = v mod P → u = v.
Proof.
  intros HP Hu Hv E. pose proof (Z.div_mod u P ltac:(lia)). pose proof (Z.div_mod v P ltac:(lia)).
  rewrite E in *. assert (u / P = v / P) by nia. lia.
Qed.

Lemma window_pos P u v : 0 < P → Z.to_nat (u mod P) = Z.to_nat (v mod P) → u mod P = v mod P.
Proof. intros HP E. pose proof (Z.mod_pos_bound u P HP). pose proof (Z.mod_pos_bound v P HP). lia. Qed.

Lemma double_size_spec fuel p m :
  2 ≤ p ≤ 62 → m ≤ 2 ^ 62 → 62 - p < Z.of_nat fuel →
  ∃ q, double_size fuel (2 ^ p) m = Some (2 ^ q) ∧ p ≤ q ≤ 62 ∧ m ≤ 2 ^ q.
Proof.
  revert p. induction fuel as [|fuel IH]; intros p Hp Hm Hf; [lia|]. simpl.
  destruct (Z.ltb_spec (2 ^ p) m) as [Hlt|Hge]; [|exists p; split_and!; [done|lia..]].
  assert (p < 62) by (apply (Z.pow_lt_mono_r_iff 2); lia).
  assert (2 ^ (p + 1) < 2 ^ 64) by (apply Z.pow_lt_mono_r; lia).
  rewrite Z.pow_add_r in * by lia. rewrite token_small by lia.
  destruct (IH (p + 1)) as (q & E & Hq & Hmq); [lia..|]. rewrite Z.pow_add_r in E by lia.
  exists q. split_and!; [exact E|lia..].
Qed.

Lemma copy_spec p q n t (old new : list (task_info V)) :
  2 ≤ p ≤ q → q ≤ 62 → Z.of_nat (length old) = 2 ^ p → Z.of_nat (length new) = 2 ^ q → Z.of_nat n ≤ 2 ^ p →
  ∃ new', copy n (token t) old new = Some new' ∧ length new' = length new ∧
    (∀ u, t ≤ u < t + Z.of_nat n → new' !! Z.to_nat (u mod 2 ^ q) = old !! Z.to_nat (u mod 2 ^ p)) ∧
    (∀ u, t + Z.of_nat n ≤ u < t + 2 ^ q → new' !! Z.to_nat (u mod 2 ^ q) = new !! Z.to_nat (u mod 2 ^ q)).
Proof.
  intros Hp Hq Lo Ln. assert (2 ^ p ≤ 2 ^ q) as Hpq by (apply Z.pow_le_mono_r; lia). assert (0 < 2 ^ p) by (apply Z.pow_pos_nonneg; lia).
  revert t new Ln. induction n as [|n IH]; intros t new Ln Hn.
  { exists new. split_and!; [done..| |done]. intros u Hu. lia. }
  cbn [copy]. rewrite Lo, Ln, !slot_token by lia.
  pose proof (Z.mod_pos_bound t (2 ^ p) ltac:(lia)). pose proof (Z.mod_pos_bound t (2 ^ q) ltac:(lia)).
  destruct (lookup_lt_is_Some_2 old (Z.to_nat (t mod 2 ^ p))) as [x Hx]; [lia|]. rewrite Hx. opt_simpl.
  rewrite write_Some by lia. opt_simpl. rewrite token_add.
  destruct (IH (t + 1) (<[Z.to_nat (t mod 2 ^ q) := x]> new)) as (new' & E & L & C1 & C2); [by rewrite length_insert|lia|].
  exists new'. rewrite length_insert in L. split_and!; [done|done|..].
  - intros u Hu. destruct (decide (u = t)) as [->|Hne]; [|apply C1; lia].
    assert (Hw : (t + 2 ^ q) mod 2 ^ q = t mod 2 ^ q) by (rewrite <- Zplus_mod_idemp_r, Z_mod_same_full, Z.add_0_r; done).
    destruct (decide (Z.of_nat n = 2 ^ q)) as [Ef|Hnf].
    { exfalso. lia. }
    specialize (C2 (t + 2 ^ q) ltac:(lia)). rewrite Hw in C2. rewrite C2, Hx. apply list_lookup_insert_eq. lia.
  - intros u Hu. rewrite C2 by lia. apply list_lookup_insert_ne. intros E'%window_pos; [|lia].
    apply (window_inj (2 ^ q) t) in E'; lia.
Qed.

Lemma grow_spec p bc ba m : buffer_rel p bc ba → 2 ^ p < m ≤ 2 ^ 62 →
  ∃ q bc', grow null m bc = Some bc' ∧ buffer_rel q bc' ba ∧ m ≤ 2 ^ q.
Proof.
  intros [Rs Rp Rl Rh Ro Rpe Rsl] Hm. unfold grow. assert (p < 62) by (apply (Z.pow_lt_mono_r_iff 2); lia).
  assert (4 ≤ 2 ^ p) by (change 4 with (2 ^ 2); apply Z.pow_le_mono_r; lia).
  assert (2 ^ (p + 1) < 2 ^ 64) by (apply Z.pow_lt_mono_r; lia).
  rewrite Rs, (proj2 (Z.eqb_neq _ _)) by lia. replace (2 * 2 ^ p) with (2 ^ (p + 1)) by (rewrite Z.pow_add_r by lia; lia).
  rewrite token_small by lia. destruct (double_size_spec 64 (p + 1) m) as (q & -> & Hq & Hmq); [lia..|]. opt_simpl.
  assert (2 ^ p ≤ 2 ^ q) by (apply Z.pow_le_mono_r; lia). unfold array_size in Rs.
  destruct (copy_spec p q (length (array bc)) (low ba) (array bc) (replicate (Z.to_nat (2 ^ q)) (reset_info null)))
    as (new & E & Ln & C1 & C2); [lia..|rewrite length_replicate; lia|lia|].
  rewrite Rl, E. opt_simpl. eexists q, _. split; [reflexivity|]. rewrite length_replicate in Ln. split; [|done].
  split; simpl; [unfold array_size; simpl; lia|lia|done..| |].
  - intros t ia Ht. specialize (Rpe _ _ Ht). lia.
  - intros t Ht. destruct (decide (t < low ba + 2 ^ p)) as [Hin|Hout].
    + destruct (Rsl t ltac:(lia)) as (s & Hs & Hv). exists s. rewrite C1 by lia. done.
    + exists (reset_info null). rewrite C2 by lia. split.
      * apply lookup_replicate_2. pose proof (Z.mod_pos_bound t (2 ^ q) ltac:(lia)). lia.
      * destruct (pend ba !! t) eqn:E'; [|done]. specialize (Rpe _ _ E'). lia.
Qed.

Lemma set_token_rel t ic ia : info_rel ic ia → info_rel (set_token (token t) ic) (set_token t ia).
Proof. intros [??? ?]. by split. Qed.
Lemma set_valid_rel v ic ia : info_rel ic ia → info_rel (set_valid v ic) (set_valid v ia).
Proof. intros [????]. by split. Qed.

Lemma take_high_rel p bc ba : buffer_rel p bc ba →
  (take_high_token bc).1 = token (take_high ba).1 ∧ buffer_rel p (take_high_token bc).2 (take_high ba).2.
Proof.
  intros [Rs Rp Rl Rh Ro Rpe Rsl]. simpl. split; [done|]. split; simpl; try done.
  by rewrite Rh, token_add.
Qed.

Lemma choose_rel p bc ba ic ia : buffer_rel p bc ba → info_rel ic ia →
  ∃ tc ic' bc' ta ia' ba', choose_token ic bc = (tc, ic', bc') ∧ choose ia ba = (ta, ia', ba') ∧
    tc = token ta ∧ info_rel ic' ia' ∧ buffer_rel p bc' ba' ∧ is_valid ia' = is_valid ia.
Proof.
  intros Hb Hi. pose proof (take_high_rel p bc ba Hb) as [Ht Hb']. unfold choose_token, choose.
  rewrite (rel_ordered _ _ _ Hb), (rel_ready _ _ Hi). destruct (ordered ba) eqn:Ho; [destruct (my_token_ready ia) eqn:Hr|]; simpl in *.
  - eexists _, _, _, _, _, _. split_and!; try done; apply Hi.
  - rewrite Ho in Hb' |- *. eexists _, _, _, _, _, _. split_and!; try done. rewrite Ht. by apply set_token_rel.
  - rewrite Ho in Hb' |- *. eexists _, _, _, _, _, _. by split_and!.
Qed.

Lemma put_slot p bc ba ic ia t : buffer_rel p bc ba → info_rel ic ia → is_valid ia = true → low ba < t < low ba + 2 ^ p →
  ∃ l, write (array bc) (slot (token t) (array_size bc)) ic = Some l ∧
    buffer_rel p (InputBuffer l (low_token bc) (high_token bc) (is_ordered bc))
      (Waits (low ba) (high ba) (ordered ba) (<[t := ia]> (pend ba))).
Proof.
  intros [Rs Rp Rl Rh Ro Rpe Rsl] Hi Hv Ht. assert (0 < 2 ^ p) by (apply Z.pow_pos_nonneg; lia).
  rewrite Rs, slot_token by lia. pose proof (Z.mod_pos_bound t (2 ^ p) ltac:(lia)). unfold array_size in Rs.
  rewrite write_Some by lia. eexists. split; [reflexivity|]. split; simpl; try done.
  - unfold array_size. simpl. by rewrite length_insert.
  - intros u iu. rewrite lookup_insert_Some. intros [[<- <-]|[_ Hu]]; [done|]. by apply Rpe in Hu.
  - intros u Hu. unfold holds. destruct (decide (u = t)) as [->|Hne].
    + exists ic. rewrite list_lookup_insert_eq by lia. rewrite lookup_insert_eq. split; [done|]. split; [done|].
      by rewrite (rel_valid _ _ Hi).
    + rewrite lookup_insert_ne by done. rewrite list_lookup_insert_ne; [by apply Rsl|].
      intros E%window_pos; [|lia]. apply (window_inj (2 ^ p) (low ba)) in E; lia.
Qed.

(** The token that an item would get. *)
Definition token_of ia ba : Z := if ordered ba && my_token_ready ia then my_token ia else high ba.

Lemma put_rel p bc ba ic ia : buffer_rel p bc ba → info_rel ic ia → low ba ≤ token_of ia ba < low ba + 2 ^ 62 →
  ∃ placed q ic' ia' bc' ba', put null ic bc = Some (placed, ic', bc') ∧ wait_put ia ba = Some (placed, ia', ba') ∧
    info_rel ic' ia' ∧ buffer_rel q bc' ba'.
Proof.
  intros Hb Hi Hw. unfold put, wait_put.
  destruct (choose_rel p bc ba (set_valid true ic) (set_valid true ia) Hb (set_valid_rel true _ _ Hi))
    as (tc & ic' & bc' & ta & ia' & ba' & -> & Ea & -> & Hi' & Hb' & Hv). rewrite Ea.
  assert (ta = token_of ia ba ∧ low ba' = low ba) as [Et El].
  { unfold choose, token_of, take_high in *. simpl in *. by destruct (ordered ba), (my_token_ready ia); simplify_eq/=. }
  rewrite <- Et, <- El in Hw. clear Et El Ea. pose proof (rel_low _ _ _ Hb') as Rl.
  assert (Hd : token (token ta - low_token bc') = ta - low ba') by (rewrite Rl, token_sub; apply token_small; lia).
  unfold is_nonneg. rewrite Hd, (proj2 (Z.ltb_lt _ _)) by lia. simpl.
  destruct (Z.eqb_spec ta (low ba')) as [->|Hne].
  { rewrite Rl, Z.eqb_refl. eexists _, p, _, _, _, _. by split_and!. }
  assert (token ta ≠ low_token bc') as Hne'%Z.eqb_neq by (intros E; rewrite E, Z.sub_diag, token_small in Hd; lia). rewrite Hne'.
  assert (∃ q bq, (if array_size bc' <=? ta - low ba' then grow null (token (ta - low ba' + 1)) bc' else Some bc') = Some bq ∧
    buffer_rel q bq ba' ∧ ta < low ba' + 2 ^ q) as (q & bq & -> & Hbq & Htq).
  { rewrite (rel_size _ _ _ Hb'), token_small by lia. destruct (Z.leb_spec (2 ^ p) (ta - low ba')) as [Hle|Hgt].
    - destruct (grow_spec p bc' ba' (ta - low ba' + 1) Hb') as (q & bq & E & Hbq & Hm); [lia|]. exists q, bq. split_and!; [done..|lia].
    - exists p, bc'. split_and!; [done..|lia]. }
  opt_simpl. destruct (put_slot q bq ba' ic' ia' ta Hbq Hi' Hv) as (l & -> & Hrel); [lia|]. opt_simpl.
  eexists _, q, _, _, _, _. by split_and!.
Qed.

Lemma next_rel p bc ba : buffer_rel p bc ba →
  ∃ o bc' o' ba', next bc = Some (o, bc') ∧ wait_next ba = Some (o', ba') ∧ option_Forall2 info_rel o o' ∧ buffer_rel p bc' ba'.
Proof.
  intros [Rs Rp Rl Rh Ro Rpe Rsl]. unfold next, wait_next. rewrite Rl, token_add, Rs, slot_token by lia.
  assert (4 ≤ 2 ^ p) by (change 4 with (2 ^ 2); apply Z.pow_le_mono_r; lia).
  destruct (Rsl (low ba + 1) ltac:(lia)) as (s & Hs & Hv). rewrite Hs. opt_simpl.
  pose proof (lookup_lt_Some _ _ _ Hs) as Hlt. rewrite write_Some by done. opt_simpl.
  eexists _, _, _, _. split_and!; [reflexivity..| |].
  - destruct (pend ba !! (low ba + 1)) as [ia|]; [destruct Hv as [Hr ->]; by constructor|rewrite Hv; constructor].
  - unfold array_size in Rs. split; simpl; try done.
    + unfold array_size. simpl. by rewrite length_insert.
    + intros t ia [Hne Ht]%lookup_delete_Some. apply Rpe in Ht. lia.
    + intros t Ht. unfold holds. destruct (decide (t = low ba + 1)) as [->|Hne].
      { exists (set_valid false s). rewrite lookup_delete_eq, list_lookup_insert_eq by lia. done. }
      rewrite lookup_delete_ne, list_lookup_insert_ne; [|intros E%window_pos; [|lia]; apply (window_inj (2 ^ p) (low ba + 1)) in E; lia|done].
      destruct (decide (t = low ba + 2 ^ p)) as [->|Hne']; [|apply Rsl; lia].
      destruct (Rsl (low ba) ltac:(lia)) as (s0 & Hs0 & Hv0). exists s0. rewrite <- Hs0. split.
      * do 2 f_equal. rewrite <- Zplus_mod_idemp_r, Z_mod_same_full, Z.add_0_r. done.
      * destruct (pend ba !! low ba) eqn:E0; [specialize (Rpe _ _ E0); lia|].
        destruct (pend ba !! (low ba + 2 ^ p)) eqn:E1; [specialize (Rpe _ _ E1); lia|done].
Qed.

Lemma construct_rel o : ∃ bc, construct null o = Some bc ∧ buffer_rel 2 bc (Waits 0 0 o ∅).
Proof.
  eexists. split; [reflexivity|]. split; simpl; try done. intros t Ht. unfold holds.
  exists (reset_info null). rewrite lookup_empty. split; [|done].
  pose proof (Z.mod_pos_bound t 4 ltac:(lia)). change (2 ^ 2) with 4. by apply (lookup_replicate_2 4); lia.
Qed.
(** *** Sequences of operations *)
Inductive operation :=
  | TakeToken
  | PutToken (i : task_info V)
  | NextItem.
Inductive result :=
  | Taken (t : Z)
  | Put (placed : bool) (i : task_info V)
  | Item (o : option (task_info V)).

Section perform.
Context {B : Type} `{Buffer V B}.
Definition perform (o : operation) (b : B) : option (result * B) :=
  match o with
  | TakeToken => let '(t, b) := get_ordered_token b in Some (Taken t, b)
  | PutToken i => '(placed, i, b) ← try_put_token i b; Some (Put placed i, b)
  | NextItem => '(o, b) ← next_token b; Some (Item o, b)
  end.
Fixpoint perform_all (os : list operation) (b : B) : option (list result * B) :=
  match os with
  | [] => Some ([], b)
  | o :: os => '(r, b) ← perform o b; '(rs, b) ← perform_all os b; Some (r :: rs, b)
  end.
End perform.

(** The tokens at machine width. *)
Definition wrap_info (i : task_info V) : task_info V := TaskInfo (my_object i) (token (my_token i)) (my_token_ready i) (is_valid i).
Definition wrap_operation (o : operation) : operation := match o with PutToken i => PutToken (wrap_info i) | _ => o end.
Definition wrap_result (r : result) : result :=
  match r with Taken t => Taken (token t) | Put placed i => Put placed (wrap_info i) | Item o => Item (wrap_info <$> o) end.

(** The items that are put are at most [2 ^ 62] tokens ahead. *)
Definition fits (o : operation) ba : bool :=
  match o with PutToken i => (low ba <=? token_of i ba) && (token_of i ba <? low ba + 2 ^ 62) | _ => true end.
Fixpoint fits_all (os : list operation) ba : bool :=
  match os with
  | [] => true
  | o :: os => fits o ba && match perform o ba with Some (_, ba) => fits_all os ba | None => false end
  end.

Lemma info_rel_wrap ic ia : info_rel ic ia ↔ ic = wrap_info ia.
Proof. split; [intros [E1 E2 E3 E4]; destruct ic; unfold wrap_info; simpl in *; congruence|intros ->; by split]. Qed.

#[local] Instance array_buffer : Buffer V (input_buffer V) := circular_buffer null.

Lemma perform_rel p bc ba o : buffer_rel p bc ba → fits o ba = true →
  ∃ r q bc' ba', perform (wrap_operation o) bc = Some (wrap_result r, bc') ∧ perform o ba = Some (r, ba') ∧ buffer_rel q bc' ba'.
Proof.
  intros Hb Hf. destruct o as [|i|]; cbn [wrap_operation perform].
  - destruct (take_high_rel p bc ba Hb) as [Et Hb']. simpl in Et. exists (Taken (high ba)), p, (take_high_token bc).2, (take_high ba).2.
    split_and!; [|done..]. simpl. by rewrite <- Et.
  - apply andb_true_iff in Hf as [Hlo%Z.leb_le Hhi%Z.ltb_lt].
    destruct (put_rel p bc ba (wrap_info i) i Hb) as (placed & q & ic & ia & bc' & ba' & E1 & E2 & ->%info_rel_wrap & Hb'); [by apply info_rel_wrap|done|].
    simpl. rewrite E1, E2. exists (Put placed ia), q, bc', ba'. done.
  - destruct (next_rel p bc ba Hb) as (oc & bc' & oa & ba' & E1 & E2 & Ho & Hb'). cbn [next_token array_buffer circular_buffer waiting_buffer].
    rewrite E1, E2. exists (Item oa), p, bc', ba'. split_and!; [|done..]. destruct Ho as [ic ia ->%info_rel_wrap|]; done.
Qed.

(** C27: the circular array of an input buffer, with tokens of machine width that
    wrap around, gives the same results as a map from unbounded tokens to the
    items that wait, for any sequence of operations in which an item that is put
    is at most [2 ^ 62] tokens ahead of the first one; no assertion fails and no
    access is out of bounds, also when the array grows. *)
Theorem input_buffer_refines o os : fits_all os (Waits 0 0 o ∅) = true →
  ∃ rs bc ba, (b ← new_buffer o; perform_all (wrap_operation <$> os) b) = Some (wrap_result <$> rs, bc) ∧
    perform_all os (Waits 0 0 o ∅) = Some (rs, ba).
Proof.
  intros Hf. destruct (construct_rel o) as (bc & E & Hb). cbn [new_buffer array_buffer circular_buffer]. rewrite E. cbn [mbind option_bind]. clear E.
  assert (Hex : ∃ p, buffer_rel p bc (Waits 0 0 o ∅)) by eauto. clear Hb. revert bc Hex Hf. generalize (Waits (V := V) 0 0 o ∅). clear o.
  induction os as [|x os IH]; intros ba bc [p Hb] Hf; [by exists [], bc, ba|]. apply andb_true_iff in Hf as [Hx Hf].
  destruct (perform_rel p bc ba x Hb Hx) as (r & q & bc1 & ba1 & E1 & E2 & Hb1). rewrite E2 in Hf.
  destruct (IH ba1 bc1 (ex_intro _ q Hb1) Hf) as (rs & bc2 & ba2 & E3 & E4). exists (r :: rs), bc2, ba2.
  cbn [fmap list_fmap perform_all]. rewrite E1, E2. cbn [mbind option_bind]. by rewrite E3, E4.
Qed.
End refinement.

(** Five items arrive in reverse order at an ordered filter, and the array grows. *)
Definition reverse_arrival : list (operation (V := Z)) :=
  ((λ t, PutToken (TaskInfo t t true false)) <$> [5; 4; 3; 2; 1; 0]) ++ replicate 6 NextItem.
Lemma input_buffer_refines_witness : fits_all reverse_arrival (Waits 0 0 true ∅) = true ∧
  ∃ rs bc ba, (b ← Circular.construct 0 true; perform_all (H := circular_buffer 0) (wrap_operation <$> reverse_arrival) b) = Some (wrap_result <$> rs, bc) ∧
    perform_all reverse_arrival (Waits 0 0 true ∅) = Some (rs, ba).
Proof. split; [vm_compute; reflexivity|]. apply (input_buffer_refines 0 true reverse_arrival). vm_compute. reflexivity. Defined.
End BufferRefinement.
