(* ===== verification/Pipeline.v ===== *)
(** * parallel_pipeline

    Items flow through a chain of filters, each parallel, serial or serial in
    order; the number of items in flight is limited.  Source:
    src/tbb/parallel_pipeline.cpp ([pipeline], [stage_task],
    [parallel_pipeline]), with the filters of
    include/oneapi/tbb/detail/_pipeline_filters.h.

    A state has the tasks that exist, each with its place in [execute_filter];
    a step is one atomic operation or one end of a call of a filter, of any task.
    The machine is written against [Buffer] and is run with both instances. *)

From S2P Require Import Prelude InputBuffer.
From stdpp Require Import base numbers relations gmap list.
From Stdlib Require Import ZArith Lia.
Local Open Scope Z_scope.

Module Pipeline.

(** ** The filters *)

(** The bits of [my_filter_mode] *)
Definition filter_is_serial : Z := 1.
Definition filter_is_out_of_order : Z := 2.
Definition filter_may_emit_null : Z := 4.

(** [filter_mode] *)
Inductive filter_mode := parallel | serial_in_order | serial_out_of_order.
Definition mode_bits (m : filter_mode) : Z :=
  match m with
  | parallel => filter_is_out_of_order
  | serial_in_order => filter_is_serial
  | serial_out_of_order => Z.lor filter_is_serial filter_is_out_of_order
  end.

(** [base_filter]: the mode and what [operator()] does to an item; an object is
    a [void*]. *)
Record base_filter (V : Type) := Filter {
  my_filter_mode : Z;
  body : V → V;
}.
Arguments Filter {V}.
Arguments my_filter_mode {V}.
Arguments body {V}.

Section filters.
Context {V : Type}.
Implicit Types (f : base_filter V).
Definition is_serial f : bool := negb (Z.land (my_filter_mode f) filter_is_serial =? 0).
Definition is_ordered f : bool :=
  negb (Z.land (my_filter_mode f) filter_is_serial =? 0) && (Z.land (my_filter_mode f) filter_is_out_of_order =? 0).
Definition object_may_be_null f : bool := Z.land (my_filter_mode f) filter_may_emit_null =? filter_may_emit_null.

(** [filter_node]: a leaf of [make_filter], or the two sides of [&].  The filter
    that a leaf creates for input may emit null, unless it is the only one. *)
Inductive filter_node :=
  | filter_node_leaf (void_input void_output : bool) (mode : filter_mode) (body : V → V)
  | filter_node_inner (lft rgt : filter_node).
Definition create_filter (void_input void_output : bool) (mode : filter_mode) (body : V → V) : base_filter V :=
  Filter (if void_input && negb void_output then Z.lor (mode_bits mode) filter_may_emit_null else mode_bits mode) body.

(** [pipeline::fill_pipeline], with [add_filter]. *)
Fixpoint fill_pipeline (root : filter_node) : list (base_filter V) :=
  match root with
  | filter_node_inner lft rgt => fill_pipeline lft ++ fill_pipeline rgt
  | filter_node_leaf void_input void_output mode body => [create_filter void_input void_output mode body]
  end.
End filters.

(** ** The tasks *)

(** The places in [execute_filter]: before the call, in the call of a filter,
    after the call of the first filter (with whether it stopped the input),
    before [try_spawn_stage_task] of a parallel and of a serial first filter,
    before [try_to_spawn_task_for_next_token], before the move to the next
    filter, after a token was returned. *)
Inductive place :=
  | Enter
  | Calling
  | Returned (stopped : bool)
  | SpawnBefore
  | SpawnAfter
  | NextToken
  | Advance
  | Recycle.

Record stage_task (V : Type) := StageTask {
  my_filter : nat;
  my_at_start : bool;
  info : task_info V;
  at_place : place;
}.
Arguments StageTask {V}.
Arguments my_filter {V}.
Arguments my_at_start {V}.
Arguments info {V}.
Arguments at_place {V}.

(** [pipeline]; the buffer of a parallel filter is not used.  For the theorems:
    [produced] has the objects that the first filter returned; [calls] has for
    each filter the objects it was called with, in the order of the calls (for
    the first filter, those that entered the pipeline), and then those that left
    the last one; [order] has the items in the order of the tokens of the ordered
    filters. *)
Record state (V B : Type) := State {
  input_tokens : Z;
  end_of_input : bool;
  buffers : list B;
  tasks : list (stage_task V);
  produced : list V;
  calls : list (list V);
  order : list V;
}.
Arguments State {V B}.
Arguments input_tokens {V B}.
Arguments end_of_input {V B}.
Arguments buffers {V B}.
Arguments tasks {V B}.
Arguments produced {V B}.
Arguments calls {V B}.
Arguments order {V B}.

Section pipeline.
Context {V B : Type} `{EqDecision V} `{Buffer V B} (null : V) (filters : list (base_filter V)).
Implicit Types (t : stage_task V) (σ : state V B).

Definition set_tokens n σ : state V B :=
  State n (end_of_input σ) (buffers σ) (tasks σ) (produced σ) (calls σ) (order σ).
Definition set_end σ : state V B :=
  State (input_tokens σ) true (buffers σ) (tasks σ) (produced σ) (calls σ) (order σ).
Definition set_buffer k b σ : state V B :=
  State (input_tokens σ) (end_of_input σ) (<[k := b]> (buffers σ)) (tasks σ) (produced σ) (calls σ) (order σ).
Definition set_tasks ts σ : state V B :=
  State (input_tokens σ) (end_of_input σ) (buffers σ) ts (produced σ) (calls σ) (order σ).
Definition add_produced v σ : state V B :=
  State (input_tokens σ) (end_of_input σ) (buffers σ) (tasks σ) (produced σ ++ [v]) (calls σ) (order σ).
Definition add_call k v σ : state V B :=
  State (input_tokens σ) (end_of_input σ) (buffers σ) (tasks σ) (produced σ) (alter (λ l, l ++ [v]) k (calls σ)) (order σ).
Definition add_order v σ : state V B :=
  State (input_tokens σ) (end_of_input σ) (buffers σ) (tasks σ) (produced σ) (calls σ) (order σ ++ [v]).

Definition go (p : place) t : stage_task V := StageTask (my_filter t) (my_at_start t) (info t) p.
Definition with_info i t : stage_task V := StageTask (my_filter t) (my_at_start t) i (at_place t).
Definition passed_start t : stage_task V := StageTask (my_filter t) false (info t) Advance.

(** The constructors of [stage_task], and [reset]. *)
Definition input_task : stage_task V := StageTask 0 true (reset_info null) Enter.
Definition item_task k i : stage_task V := StageTask k false i Enter.

(** What happens to a task, and the tasks that it spawns: [None] is that it is deleted. *)
Definition outcome : Type := list (stage_task V) * state V B.

(** [try_spawn_stage_task] *)
Definition try_spawn_stage_task σ : outcome :=
  (if 1 <? input_tokens σ then [input_task] else [], set_tokens (input_tokens σ - 1) σ).

(** [get_ordered_token], and the same for an item that gets its token in a buffer. *)
Definition note_order (before after : task_info V) σ : state V B :=
  if negb (my_token_ready before) && my_token_ready after then add_order (my_object after) σ else σ.

(** [execute_filter] at the start; a call of the first filter returns [v] and
    may have called [flow_control::stop].  Then a filter that may emit null has
    called [set_end_of_input], which stores [end_of_input] if it is serial and a
    flag of the thread, tested after the call, if it is parallel. *)
Definition first_filter (f : base_filter V) (v : V) (stopped : bool) t σ : option outcome :=
  match at_place t with
  | Enter =>
      if is_serial f then Some ([go Calling t], σ)
      else if end_of_input σ then Some ([], σ) else Some ([go SpawnBefore t], σ)
  | SpawnBefore => let '(ts, σ) := try_spawn_stage_task σ in Some (go Calling t :: ts, σ)
  | Calling =>
      if (if stopped then bool_decide (v = null) else bool_decide (v ≠ null) || object_may_be_null f) then
        let σ := if stopped && object_may_be_null f && is_serial f then set_end σ else σ in
        Some ([go (Returned stopped) (with_info (set_object v (info t)) t)], if stopped then σ else add_produced v σ)
      else None
  | Returned stopped =>
      let v := my_object (info t) in
      if is_serial f then
        if bool_decide (v ≠ null) || (object_may_be_null f && negb (end_of_input σ)) then
          '(i, σ) ← (if is_ordered f then
                       b ← buffers σ !! 0%nat;
                       let '(tok, b) := get_ordered_token b in
                       let i := set_token tok (info t) in
                       Some (i, note_order (info t) i (set_buffer 0 b σ))
                     else Some (info t, σ));
          let σ := add_call 0 v σ in
          if decide (length filters = 1%nat) then Some ([input_task], add_call 1 v σ)
          else Some ([go SpawnAfter (with_info i t)], σ)
        else Some ([], set_end σ)
      else if bool_decide (v = null) && (negb (object_may_be_null f) || stopped) then Some ([], set_end σ)
      else Some ([passed_start t], add_call 0 v σ)
  | SpawnAfter => let '(ts, σ) := try_spawn_stage_task σ in Some (passed_start t :: ts, σ)
  | _ => None
  end.

(** The move to the next filter, at the end of [execute_filter]. *)
Definition advance_task t σ : option outcome :=
  let k := S (my_filter t) in
  match filters !! k with
  | Some f =>
      if is_serial f then
        b ← buffers σ !! k;
        '(placed, i, b) ← try_put_token (info t) b;
        let σ := note_order (info t) i (set_buffer k b σ) in
        Some (if (placed : bool) then [] else [item_task k i], σ)
      else Some ([item_task k (info t)], σ)
  | None =>
      let σ' := add_call k (my_object (info t)) (set_tokens (input_tokens σ + 1) σ) in
      Some (if 0 <? input_tokens σ then [] else [go Recycle t], σ')
  end.

(** [execute_filter], one operation. *)
Definition execute_filter (v : V) (stopped : bool) t σ : option outcome :=
  match at_place t with
  | Advance => advance_task t σ
  | Recycle => Some (if end_of_input σ then [] else [input_task], σ)
  | _ =>
      f ← filters !! my_filter t;
      if my_at_start t then first_filter f v stopped t σ
      else match at_place t with
           | Enter => Some ([go Calling t], add_call (my_filter t) (my_object (info t)) σ)
           | Calling =>
               let t := with_info (set_object (body f (my_object (info t))) (info t)) t in
               Some ([go (if is_serial f then NextToken else Advance) t], σ)
           | NextToken =>
               b ← buffers σ !! my_filter t;
               '(wakee, b) ← next_token b;
               Some (go Advance t :: match wakee with Some i => [item_task (my_filter t) i] | None => [] end,
                     set_buffer (my_filter t) b σ)
           | _ => None
           end
  end.

Inductive step : state V B → state V B → Prop :=
  | step_task l1 t l2 v stopped ts σ σ' :
      tasks σ = l1 ++ t :: l2 → execute_filter v stopped t σ = Some (ts, σ') → step σ (set_tasks (l1 ++ ts ++ l2) σ').

(** [parallel_pipeline]; [wait_ctx] counts the tasks. *)
Definition start (max_token : Z) : option (state V B) :=
  bs ← mapM (λ f, new_buffer (is_ordered f)) filters;
  Some (State max_token false bs [input_task] [] (replicate (S (length filters)) []) []).

(** A run: the tasks that go on, with what the first filter returns if one of its
    calls does. *)
Definition run_task (x : nat) (v : V) (stopped : bool) σ : option (state V B) :=
  t ← tasks σ !! x;
  '(ts, σ') ← execute_filter v stopped t σ;
  Some (set_tasks (take x (tasks σ) ++ ts ++ drop (S x) (tasks σ)) σ').
Fixpoint run (sched : list (nat * V * bool)) σ : option (state V B) :=
  match sched with
  | [] => Some σ
  | (x, v, stopped) :: sched => σ ← run_task x v stopped σ; run sched σ
  end.

Lemma run_nsteps sched σ σ' : run sched σ = Some σ' → nsteps step (length sched) σ σ'.
Proof.
  revert σ. induction sched as [|[[x v] stopped] sched IH]; intros σ E; [injection E as <-; constructor|].
  apply bind_Some in E as (σ1 & E1 & E). apply bind_Some in E1 as (t & Ht & E1). apply bind_Some in E1 as ([ts σ2] & E2 & [= <-]).
  econstructor; [|by apply IH]. econstructor; [|done]. symmetry. by apply take_drop_middle.
Qed.
End pipeline.
End Pipeline.

(** ** The pipeline with the specification of the buffers *)
Module PipelineSpec.
Import Waiting Pipeline.

Section spec.
Context {V : Type} `{EqDecision V} (null : V) (filters : list (base_filter V)).
Local Abbreviation state := (state V (waiting V)).
Local Abbreviation execute_filter := (execute_filter null filters).
Local Abbreviation step := (step null filters).
Implicit Types (t : stage_task V) (σ : state) (i : task_info V) (F : list (nat * task_info V)) (b : waiting V).

(** The function of a filter on the items that enter it. *)
Definition function (k : nat) : V → V :=
  match k, filters !! k with S _, Some f => body f | _, _ => id end.
Definition serial k : Prop := ∃ f, filters !! k = Some f ∧ is_serial f = true.
Definition in_order k : Prop := ∃ f, filters !! k = Some f ∧ is_ordered f = true.

Lemma in_order_serial k : in_order k → serial k.
Proof.
  intros (f & Hf & Ho). exists f. split; [done|]. unfold is_ordered in Ho. by apply andb_true_iff in Ho as [? _].
Qed.
#[global] Instance serial_dec k : Decision (serial k).
Proof.
  unfold serial. destruct (filters !! k) as [f|]; [|right; by intros (? & ? & _)].
  destruct (is_serial f) eqn:E; [left; by exists f|right; intros (? & [= <-] & ?); congruence].
Defined.
#[global] Instance in_order_dec k : Decision (in_order k).
Proof.
  unfold in_order. destruct (filters !! k) as [f|]; [|right; by intros (? & ? & _)].
  destruct (is_ordered f) eqn:E; [left; by exists f|right; intros (? & [= <-] & ?); congruence].
Defined.

(** *** The items in flight *)

(** The item of a task, with the filter it goes to next. *)
Definition dest t : option (nat * task_info V) :=
  match at_place t with
  | Enter => if my_at_start t then None else Some (my_filter t, info t)
  | Calling =>
      if my_at_start t then None
      else Some (S (my_filter t), set_object (function (my_filter t) (my_object (info t))) (info t))
  | NextToken | Advance => Some (S (my_filter t), info t)
  | SpawnAfter => Some (1%nat, info t)
  | Returned _ | SpawnBefore | Recycle => None
  end.

Definition waiting_at (k : nat) b : list (nat * task_info V) := (λ x, (k, x.2)) <$> map_to_list (pend b).
Definition waiting_from (k : nat) (bs : list (waiting V)) : list (nat * task_info V) :=
  concat (imap (λ j b, waiting_at (k + j) b) bs).
Definition flight σ : list (nat * task_info V) := omap dest (tasks σ) ++ waiting_from 0 (buffers σ).

(** What is known of the other items when one task and one buffer change. *)
Lemma waiting_from_cons k b bs : waiting_from k (b :: bs) = waiting_at k b ++ waiting_from (S k) bs.
Proof.
  unfold waiting_from. simpl. rewrite Nat.add_0_r. f_equal. f_equal. apply imap_ext. intros j b' _. simpl. f_equal. lia.
Qed.

Lemma waiting_insert k bs j b b' : bs !! j = Some b →
  ∃ R, waiting_from k bs ≡ₚ waiting_at (k + j) b ++ R ∧ waiting_from k (<[j := b']> bs) ≡ₚ waiting_at (k + j) b' ++ R.
Proof.
  revert k j. induction bs as [|b0 bs IH]; intros k [|j] Hj; simplify_eq/=.
  - exists (waiting_from (S k) bs). rewrite !waiting_from_cons, Nat.add_0_r. done.
  - destruct (IH (S k) j Hj) as (R & H1 & H2). exists (waiting_at k b0 ++ R).
    replace (k + S j)%nat with (S k + j)%nat by lia. rewrite !waiting_from_cons, H1, H2. split; solve_Permutation.
Qed.

Lemma flight_tasks σ l1 t l2 σ' ts :
  tasks σ = l1 ++ t :: l2 → buffers σ' = buffers σ →
  ∃ R, flight σ ≡ₚ option_list (dest t) ++ R ∧ flight (set_tasks (l1 ++ ts ++ l2) σ') ≡ₚ omap dest ts ++ R.
Proof.
  intros Ht Hb. exists (omap dest (l1 ++ l2) ++ waiting_from 0 (buffers σ)). unfold flight. simpl. rewrite Hb, Ht, !omap_app.
  simpl. destruct (dest t); simpl; split; solve_Permutation.
Qed.

Lemma flight_buffer σ l1 t l2 σ' ts k b b' :
  tasks σ = l1 ++ t :: l2 → buffers σ !! k = Some b → buffers σ' = <[k := b']> (buffers σ) →
  ∃ R, flight σ ≡ₚ option_list (dest t) ++ waiting_at k b ++ R ∧
    flight (set_tasks (l1 ++ ts ++ l2) σ') ≡ₚ omap dest ts ++ waiting_at k b' ++ R.
Proof.
  intros Ht Hk Hb. destruct (waiting_insert 0 (buffers σ) k b b' Hk) as (R & H1 & H2).
  exists (omap dest (l1 ++ l2) ++ R). unfold flight. simpl in *. rewrite Hb, Ht, !omap_app, H1, H2.
  simpl. destruct (dest t); simpl; split; solve_Permutation.
Qed.

(** *** What a step does to the items *)
Local Abbreviation len := (length filters).
Definition calls_of σ k : list V := default [] (calls σ !! k).

Definition task_ok t : Prop :=
  if my_at_start t then
    my_filter t = 0%nat ∧
    match at_place t with
    | Enter | Calling | Returned _ => my_token_ready (info t) = false
    | SpawnBefore => my_token_ready (info t) = false ∧ ¬ serial 0
    | SpawnAfter => serial 0 ∧ (2 ≤ len)%nat
    | _ => False
    end
  else
    match at_place t with
    | Enter | Calling => (1 ≤ my_filter t < len)%nat
    | NextToken => (1 ≤ my_filter t)%nat ∧ serial (my_filter t)
    | Advance => (my_filter t < len)%nat
    | Recycle => True
    | _ => False
    end.

(** A token is given out: the buffer of an ordered filter does it for an item without one. *)
Definition ordered_by (k : nat) i i' σ σ' : Prop :=
  my_object i' = my_object i ∧
  if decide (in_order k ∧ my_token_ready i = false) then
    ∃ b, buffers σ !! k = Some b ∧ my_token_ready i' = true ∧ my_token i' = high b ∧ order σ' = order σ ++ [my_object i]
  else my_token_ready i' = my_token_ready i ∧ my_token i' = my_token i ∧ order σ' = order σ.

Inductive effect σ σ' : Prop :=
  | effect_silent :
      flight σ' ≡ₚ flight σ → calls σ' = calls σ → order σ' = order σ → effect σ σ'
  | effect_accept i i' :
      my_token_ready i = false → ordered_by 0 i i' σ σ' → flight σ' ≡ₚ (1%nat, i') :: flight σ →
      calls σ' = alter (λ l, l ++ [my_object i]) 0%nat (calls σ) → effect σ σ'
  | effect_single i i' :
      len = 1%nat → my_token_ready i = false → ordered_by 0 i i' σ σ' → flight σ' ≡ₚ flight σ →
      calls σ' = alter (λ l, l ++ [my_object i]) 1%nat (alter (λ l, l ++ [my_object i]) 0%nat (calls σ)) → effect σ σ'
  | effect_put k i i' R :
      (1 ≤ k)%nat → serial k → ordered_by k i i' σ σ' → flight σ ≡ₚ (k, i) :: R → flight σ' ≡ₚ (k, i') :: R →
      calls σ' = calls σ → effect σ σ'
  | effect_call k i R :
      (1 ≤ k < len)%nat → flight σ ≡ₚ (k, i) :: R →
      flight σ' ≡ₚ (S k, set_object (function k (my_object i)) i) :: R →
      calls σ' = alter (λ l, l ++ [my_object i]) k (calls σ) → order σ' = order σ →
      (∃ l1 t l2, tasks σ = l1 ++ t :: l2 ∧ my_at_start t = false ∧ at_place t = Enter ∧ my_filter t = k ∧ info t = i) →
      effect σ σ'
  | effect_finish i R :
      flight σ ≡ₚ (len, i) :: R → flight σ' ≡ₚ R →
      calls σ' = alter (λ l, l ++ [my_object i]) len (calls σ) → order σ' = order σ → effect σ σ'.

Lemma silent σ l1 t l2 ts σ' :
  tasks σ = l1 ++ t :: l2 → buffers σ' = buffers σ → calls σ' = calls σ → order σ' = order σ →
  omap dest ts = option_list (dest t) → effect σ (set_tasks (l1 ++ ts ++ l2) σ').
Proof.
  intros Ht Hb Hc Ho Hd. destruct (flight_tasks σ l1 t l2 σ' ts Ht Hb) as (R & E1 & E2).
  apply effect_silent; [by rewrite E1, E2, Hd|done..].
Qed.

Lemma waiting_put k b l h o tok i : pend b !! tok = None →
  waiting_at k (Waits l h o (<[tok := i]> (pend b))) ≡ₚ (k, i) :: waiting_at k b.
Proof. intros Hn. unfold waiting_at. simpl. by rewrite map_to_list_insert. Qed.
Lemma waiting_delete k b l h o tok i : pend b !! tok = Some i →
  waiting_at k b ≡ₚ (k, i) :: waiting_at k (Waits l h o (delete tok (pend b))).
Proof. intros Hi. unfold waiting_at. simpl. by rewrite <- (map_to_list_delete _ _ _ Hi). Qed.

Lemma note_order_same i i' σ : let σ' := note_order i i' σ in
  buffers σ' = buffers σ ∧ calls σ' = calls σ ∧ input_tokens σ' = input_tokens σ ∧ end_of_input σ' = end_of_input σ ∧
  produced σ' = produced σ.
Proof. simpl. unfold note_order. by destruct (negb _ && _). Qed.

(** What [try_put_token] does to the item. *)
Definition token_of i b : Z := if ordered b && my_token_ready i then my_token i else high b.
Lemma wait_put_spec i b placed i' b' : wait_put i b = Some (placed, i', b') →
  my_object i' = my_object i ∧ is_valid i' = true ∧ low b' = low b ∧ ordered b' = ordered b ∧
  high b' = (if ordered b && my_token_ready i then high b else high b + 1) ∧
  (if ordered b && negb (my_token_ready i) then my_token_ready i' = true ∧ my_token i' = high b
   else my_token_ready i' = my_token_ready i ∧ my_token i' = my_token i) ∧
  placed = negb (token_of i b =? low b) ∧
  pend b' = (if placed then <[token_of i b := i']> (pend b) else pend b).
Proof.
  unfold wait_put, choose, token_of, take_high. simpl.
  destruct (ordered b) eqn:Eo, (my_token_ready i) eqn:Er; simpl; intros E; case_match eqn:Eq; simplify_eq/=; rewrite ?Eq; by split_and!.
Qed.

(** The buffers belong to the filters. *)
Definition buffers_ok σ : Prop :=
  length (buffers σ) = len ∧ ∀ k f b, filters !! k = Some f → buffers σ !! k = Some b → ordered b = is_ordered f.

Lemma ordered_in_order σ k b : buffers_ok σ → (k < len)%nat → buffers σ !! k = Some b → ordered b = bool_decide (in_order k).
Proof.
  intros [_ Hb] Hk Eb. destruct (lookup_lt_is_Some_2 filters k Hk) as [f Hf]. rewrite (Hb k f b Hf Eb).
  unfold in_order. case_bool_decide as Hc; [by destruct Hc as (f' & ? & ?); simplify_eq|].
  destruct (is_ordered f) eqn:E; [|done]. exfalso. apply Hc. by exists f.
Qed.

Lemma put_ordered_by σ k b placed i i' b' :
  buffers_ok σ → (k < len)%nat → buffers σ !! k = Some b → wait_put i b = Some (placed, i', b') →
  ordered_by k i i' σ (note_order i i' (set_buffer k b' σ)).
Proof.
  intros Hok Hk Eb (E1 & _ & _ & _ & _ & E2 & _)%wait_put_spec. split; [done|].
  rewrite (ordered_in_order σ k b Hok Hk Eb) in E2. unfold note_order.
  destruct (my_token_ready i) eqn:Er.
  - rewrite andb_false_r in E2. destruct E2 as [-> ->]. rewrite decide_False by (by intros [_ ?]). done.
  - case_bool_decide as Ho; simpl in E2; destruct E2 as [-> ->].
    + rewrite decide_True by done. exists b. simpl. by rewrite E1.
    + rewrite decide_False by tauto. done.
Qed.

Lemma waiting_take k b : waiting_at k b ≡ₚ ((λ i, (k, i)) <$> option_list (pend b !! (low b + 1))) ++
  waiting_at k (Waits (low b + 1) (high b) (ordered b) (delete (low b + 1) (pend b))).
Proof.
  destruct (pend b !! (low b + 1)) as [i|] eqn:E; simpl; [by apply waiting_delete|]. by rewrite (delete_id _ _ E); destruct b.
Qed.

(** The token that an item gets in the buffer of its next filter is not in use there. *)
Definition fresh_token t σ : Prop :=
  ∀ b, buffers σ !! S (my_filter t) = Some b → serial (S (my_filter t)) → pend b !! token_of (info t) b = None.

Lemma advance_effect σ l1 t l2 ts σ' :
  tasks σ = l1 ++ t :: l2 → buffers_ok σ → fresh_token t σ → at_place t = Advance → (my_filter t < len)%nat →
  advance_task filters t σ = Some (ts, σ') → effect σ (set_tasks (l1 ++ ts ++ l2) σ').
Proof.
  intros Ht Hb Hfr Hp Hlt E. unfold advance_task in E. set (k := S (my_filter t)) in *.
  assert (Hd : dest t = Some (k, info t)) by (unfold dest; by rewrite Hp).
  destruct (filters !! k) as [f|] eqn:Ef.
  - pose proof (lookup_lt_Some _ _ _ Ef). destruct (is_serial f) eqn:Es.
    + apply bind_Some in E as (b & Eb & E). apply bind_Some in E as ([[placed i] b'] & Ep & E). injection E as <- <-.
      pose proof (put_ordered_by σ k b placed (info t) i b' Hb ltac:(done) Eb Ep) as Ho.
      set (σ1 := note_order (info t) i (set_buffer k b' σ)) in *.
      pose proof (note_order_same (info t) i (set_buffer k b' σ)) as (Hb1 & Hc1 & _). fold σ1 in Hb1, Hc1.
      destruct (flight_buffer σ l1 t l2 σ1 (if placed then [] else [item_task k i]) k b b' Ht Eb Hb1) as (R & E1 & E2).
      rewrite Hd in E1. simpl in E1.
      apply (effect_put _ _ k (info t) i (waiting_at k b ++ R)); [lia|by exists f|done|done| |done].
      rewrite E2. apply wait_put_spec in Ep as (_ & _ & El & Eo & Eh & _ & _ & Epe). destruct b' as [lb hb ob pb]. simpl in *.
      destruct placed; simpl; rewrite Epe; [|done].
      rewrite (waiting_put k b lb hb ob (token_of (info t) b) i) by (apply Hfr; [done|by exists f]). done.
    + injection E as <- <-. apply (silent _ _ t); try done. by rewrite Hd.
  - apply lookup_ge_None in Ef. assert (k = len) as Ek by lia. injection E as <- <-.
    destruct (flight_tasks σ l1 t l2 (add_call k (my_object (info t)) (set_tokens (input_tokens σ + 1) σ))
      (if 0 <? input_tokens σ then [] else [go Recycle t]) Ht eq_refl) as (R & E1 & E2). rewrite Hd in E1.
    apply (effect_finish _ _ (info t) R); [by rewrite <- Ek|rewrite E2; by case_match|by rewrite <- Ek|done].
Qed.

(** The token of an item that a serial first filter lets in. *)
Definition first_token (f : base_filter V) t σ : option (task_info V * state) :=
  if is_ordered f then
    b ← buffers σ !! 0%nat;
    let '(tok, b) := get_ordered_token b in
    let i := set_token tok (info t) in
    Some (i, note_order (info t) i (set_buffer 0 b σ))
  else Some (info t, σ).

Lemma first_token_spec f t σ i σ1 :
  filters !! 0%nat = Some f → my_token_ready (info t) = false → first_token f t σ = Some (i, σ1) →
  ordered_by 0 (info t) i σ σ1 ∧ calls σ1 = calls σ ∧
  (∀ l1 l2 ts σ2, tasks σ = l1 ++ t :: l2 → dest t = None → buffers σ2 = buffers σ1 →
     flight (set_tasks (l1 ++ ts ++ l2) σ2) ≡ₚ omap dest ts ++ flight σ).
Proof.
  intros Hf Hr E. unfold first_token in E. unfold ordered_by. destruct (is_ordered f) eqn:Eo.
  - apply bind_Some in E as (b & Eb & E). simpl in E. unfold note_order in E. simpl in E. rewrite Hr in E. simpl in E.
    injection E as <- <-. rewrite decide_True by (split; [by exists f|done]). split_and!; [done|by exists b|done|].
    intros l1 l2 ts σ2 Ht Hd Hb2. destruct (flight_buffer σ l1 t l2 σ2 ts 0 b _ Ht Eb Hb2) as (R & E1 & E2).
    rewrite Hd in E1. by rewrite E2, E1.
  - injection E as <- <-. rewrite decide_False by (intros [(f' & ? & ?) _]; congruence). split_and!; [done..|].
    intros l1 l2 ts σ2 Ht Hd Hb2. destruct (flight_tasks σ l1 t l2 σ2 ts Ht Hb2) as (R & E1 & E2).
    rewrite Hd in E1. by rewrite E2, E1.
Qed.

Lemma first_effect σ l1 t l2 f v stopped ts σ' :
  tasks σ = l1 ++ t :: l2 → task_ok t → my_at_start t = true → filters !! 0%nat = Some f →
  first_filter null filters f v stopped t σ = Some (ts, σ') → effect σ (set_tasks (l1 ++ ts ++ l2) σ').
Proof.
  intros Ht Hok Hst Hf E. unfold task_ok in Hok. rewrite Hst in Hok. destruct Hok as [Hk Hok]. unfold first_filter in E.
  destruct (at_place t) as [| |st| | | | |] eqn:Hp; try done.
  - repeat case_match; simplify_eq; apply (silent _ _ t); try done; unfold dest; simpl; by rewrite Hp, Hst.
  - case_match; [|done]. simplify_eq. apply (silent _ _ t); try done; try (by repeat case_match). unfold dest. simpl. by rewrite Hp, Hst.
  - assert (Hd : dest t = None) by (unfold dest; by rewrite Hp). destruct (is_serial f) eqn:Es.
    + case_match; [|simplify_eq; apply (silent _ _ t); try done; by rewrite Hd].
      change (if is_ordered f then _ else _) with (first_token f t σ) in E.
      apply bind_Some in E as ([i σ1] & E1 & E). destruct (first_token_spec f t σ i σ1 Hf Hok E1) as (Ho & Hc & Hfl).
      case_decide as Hl; simplify_eq.
      * apply (effect_single _ _ (info t) i); [done|done|done|by apply Hfl|simpl; by rewrite Hc].
      * apply (effect_accept _ _ (info t) i); [done|done|by apply Hfl|simpl; by rewrite Hc].
    + case_match; [simplify_eq; apply (silent _ _ t); try done; by rewrite Hd|]. simplify_eq.
      destruct (flight_tasks σ l1 t l2 (add_call 0 (my_object (info t)) σ) [passed_start t] Ht eq_refl) as (R & E1 & E2).
      rewrite Hd in E1. apply (effect_accept _ _ (info t) (info t)); [done| |rewrite E2, E1; unfold dest; simpl; by rewrite Hk|done].
      split; [done|]. rewrite decide_False; [done|]. intros [Hio%in_order_serial _]. destruct Hio as (f' & ? & ?). congruence.
  - unfold try_spawn_stage_task in E. simplify_eq. apply (silent _ _ t); try done. unfold dest at 2. rewrite Hp. unfold dest. simpl. rewrite Hst. by case_match.
  - unfold try_spawn_stage_task in E. simplify_eq. apply (silent _ _ t); try done. unfold dest at 2. rewrite Hp. unfold dest. simpl. rewrite Hk. by case_match.
Qed.

Lemma step_effect σ l1 t l2 v stopped ts σ' :
  tasks σ = l1 ++ t :: l2 → task_ok t → buffers_ok σ → (at_place t = Advance → fresh_token t σ) →
  execute_filter v stopped t σ = Some (ts, σ') → effect σ (set_tasks (l1 ++ ts ++ l2) σ').
Proof.
  intros Ht Hok Hb Hfr E. unfold Pipeline.execute_filter in E. destruct (my_at_start t) eqn:Hst.
  { pose proof Hok as Hok'. unfold task_ok in Hok'. rewrite Hst in Hok'. destruct Hok' as [Hk Hok']. rewrite Hk in E.
    destruct (at_place t); try done; apply bind_Some in E as (f & Hf & E); by eapply first_effect. }
  unfold task_ok in Hok. rewrite Hst in Hok. destruct (at_place t) eqn:Hp; try done.
  - apply bind_Some in E as (f & Hf & E). simplify_eq.
    destruct (flight_tasks σ l1 t l2 (add_call (my_filter t) (my_object (info t)) σ) [go Calling t] Ht eq_refl) as (R & E1 & E2).
    unfold dest in E1, E2. rewrite Hp, Hst in E1. simpl in E1, E2. rewrite Hst in E2. simpl in E2.
    apply (effect_call _ _ (my_filter t) (info t) R); try done. by exists l1, t, l2.
  - apply bind_Some in E as (f & Hf & E). simplify_eq. apply (silent _ _ t); try done. unfold dest, function. simpl. rewrite Hp, Hst.
    destruct (my_filter t) as [|k] eqn:Hk; [lia|]. rewrite Hf. by destruct (is_serial f).
  - apply bind_Some in E as (f & Hf & E). apply bind_Some in E as (b & Eb & E). simpl in E. simplify_eq.
    destruct (flight_buffer σ l1 t l2 (set_buffer (my_filter t)
      (Waits (low b + 1) (high b) (ordered b) (delete (low b + 1) (pend b))) σ)
      (go Advance t :: match pend b !! (low b + 1) with Some i => [item_task (my_filter t) i] | None => [] end)
      (my_filter t) b _ Ht Eb eq_refl) as (R & E1 & E2).
    apply effect_silent; [|done..]. rewrite E1, E2, (waiting_take (my_filter t) b). unfold dest at 2. rewrite Hp.
    destruct (pend b !! (low b + 1)); simpl; solve_Permutation.
  - eapply advance_effect; eauto.
  - simplify_eq. apply (silent _ _ t); try done. unfold dest at 2. rewrite Hp. by case_match.
Qed.

(** *** The order of the tokens *)

(** The filter whose input the tokens number, and the way of an item from there. *)
Definition origin : nat := 1 `max` default len (fst <$> list_find (λ f, is_ordered f = true) filters).
Definition path (s : nat) (v : V) : V := foldl (λ v k, function k v) v (seq origin (s - origin)).

Lemma path_origin v : path origin v = v.
Proof. unfold path. by rewrite Nat.sub_diag. Qed.
Lemma path_S s v : (origin ≤ s)%nat → path (S s) v = function s (path s v).
Proof.
  intros Hs. unfold path. replace (S s - origin)%nat with (S (s - origin)) by lia.
  rewrite seq_S, foldl_app. simpl. f_equal. lia.
Qed.

Lemma origin_le k : in_order k → (origin ≤ 1 `max` k)%nat.
Proof.
  intros (f & Hf & Ho). unfold origin. destruct (list_find _ filters) as [[j g]|] eqn:E; simpl.
  - apply list_find_Some in E as (_ & _ & Hmin). destruct (decide (j ≤ k)%nat); [lia|].
    destruct (Hmin k f Hf ltac:(lia) Ho).
  - apply list_find_None in E. rewrite Forall_forall in E. destruct (E f); [by eapply list_elem_of_lookup_2|done].
Qed.
Lemma origin_first k : in_order k → (∀ j, in_order j → (k ≤ j)%nat) → origin = (1 `max` k)%nat.
Proof.
  intros Hk Hmin. pose proof (origin_le k Hk). unfold origin in *.
  destruct (list_find _ filters) as [[j g]|] eqn:E; simpl in *.
  - apply list_find_Some in E as (Hj & Ho & _). specialize (Hmin j (ex_intro _ g (conj Hj Ho))). lia.
  - apply list_find_None in E. rewrite Forall_forall in E. destruct Hk as (f & Hf & Ho).
    destruct (E f); [by eapply list_elem_of_lookup_2|done].
Qed.

Definition token_in (x : nat * task_info V) : option Z := if my_token_ready x.2 then Some (my_token x.2) else None.
Definition unready F : nat := length (filter (λ x, my_token_ready x.2 = false) F).

Record ordering F (calls : nat → list V) (order : list V) : Prop := {
  or_stage s i : (s, i) ∈ F → (1 ≤ s ≤ len)%nat;
  or_ready s i : (s, i) ∈ F → my_token_ready i = true →
    (origin ≤ s)%nat ∧ 0 ≤ my_token i ∧ ∃ v, order !! Z.to_nat (my_token i) = Some v ∧ my_object i = path s v;
  or_unready s i k : (s, i) ∈ F → my_token_ready i = false → in_order k → (s ≤ k)%nat;
  or_nodup : NoDup (omap token_in F);
  or_ahead s i k : (s, i) ∈ F → my_token_ready i = true → in_order k → (s ≤ k)%nat → Z.of_nat (length (calls k)) ≤ my_token i;
  or_calls k : in_order k → (1 ≤ k)%nat → calls k = path k <$> take (length (calls k)) order ∧ (length (calls k) ≤ length order)%nat;
}.
Definition counted F (calls : nat → list V) (order : list V) : Prop :=
  (in_order 0 → order = calls 0%nat) ∧ ∀ k, in_order k → length (calls 0%nat) = (length order + unready F)%nat.

Lemma token_of_ready x F : x ∈ F → my_token_ready x.2 = true → my_token x.2 ∈ omap token_in F.
Proof. intros Hx Hr. apply list_elem_of_omap. exists x. unfold token_in. by rewrite Hr. Qed.

Lemma unready_cons x F : unready (x :: F) = ((if my_token_ready x.2 then 0 else 1) + unready F)%nat.
Proof. unfold unready. rewrite filter_cons. case_decide as E; [by rewrite E|]. by destruct (my_token_ready x.2). Qed.

Lemma ordering_perm F F' c o : F' ≡ₚ F → ordering F c o → ordering F' c o.
Proof.
  intros Hp [H1 H2 H3 H4 H5 H6]. split; try done.
  - intros s i. rewrite Hp. apply H1.
  - intros s i. rewrite Hp. apply H2.
  - intros s i k. rewrite Hp. apply H3.
  - by rewrite Hp.
  - intros s i k. rewrite Hp. apply H5.
Qed.
Lemma counted_perm F F' c o : F' ≡ₚ F → counted F c o → counted F' c o.
Proof. intros Hp [H1 H2]. split; [done|]. intros k Hk. unfold unready. rewrite Hp. by apply (H2 k). Qed.

(** The calls that matter are those of ordered filters. *)
Lemma ordering_calls F c c' o : (∀ k, in_order k → (1 ≤ k)%nat → c' k = c k) → ordering F c o → ordering F c' o.
Proof.
  intros Hc [H1 H2 H3 H4 H5 H6]. split; try done.
  - intros s i k Hx Hr Hio Hs. specialize (H1 s i Hx). rewrite Hc by (done || lia). by apply (H5 s).
  - intros k Hio Hk. rewrite Hc by done. by apply H6.
Qed.

Lemma ordering_remove x F c o : ordering (x :: F) c o → ordering F c o.
Proof.
  intros [H1 H2 H3 H4 H5 H6]. split; try done.
  - intros s i ?. apply (H1 s i). by right.
  - intros s i ?. apply (H2 s i). by right.
  - intros s i k ?. apply (H3 s i). by right.
  - simpl in H4. by destruct (token_in x); [apply NoDup_cons in H4 as [_ ?]|].
  - intros s i k ?. apply (H5 s i). by right.
Qed.

(** The order is extended. *)
Lemma ordering_extend F c o v : ordering F c o → ordering F c (o ++ [v]).
Proof.
  intros [H1 H2 H3 H4 H5 H6]. split; try done.
  - intros s i Hx Hr. destruct (H2 s i Hx Hr) as (? & ? & w & Hw & ?). split_and!; try done.
    exists w. split; [by apply lookup_app_l_Some|done].
  - intros k Hio Hk. destruct (H6 k Hio Hk) as [E L]. rewrite length_app, take_app_le by done. split; [done|lia].
Qed.

Lemma token_bound F c o s i : ordering F c o → (s, i) ∈ F → my_token_ready i = true → 0 ≤ my_token i < Z.of_nat (length o).
Proof. intros H Hx Hr. destruct (or_ready _ _ _ H s i Hx Hr) as (_ & ? & v & Hv%lookup_lt_Some & _). lia. Qed.

(** An item with the next token, or without one. *)
Lemma ordering_new F c o s i v : ordering F c o → (1 ≤ s ≤ len)%nat → my_token_ready i = true → my_token i = Z.of_nat (length o) →
  my_object i = v → origin = s → ordering ((s, i) :: F) c (o ++ [v]).
Proof.
  intros Ho Hs Hr Ht Hv Hor. pose proof (ordering_extend F c o v Ho) as Ho'. destruct Ho' as [H1 H2 H3 H4 H5 H6]. split; try done.
  - intros s' i' [[= -> ->]|?]%elem_of_cons; [done|by apply (H1 s' i')].
  - intros s' i' [[= -> ->]|?]%elem_of_cons; [|by apply (H2 s' i')]. intros _. rewrite Ht, Nat2Z.id. split_and!; [lia|lia|].
    exists v. rewrite Hv, <- Hor, path_origin. split; [apply list_lookup_middle; done|done].
  - intros s' i' k [[= -> ->]|?]%elem_of_cons; [congruence|by apply (H3 s' i')].
  - simpl. unfold token_in at 1. simpl. rewrite Hr. apply NoDup_cons. split; [|done]. rewrite Ht.
    intros ([s' i'] & Hx & E)%list_elem_of_omap. unfold token_in in E. simpl in E. destruct (my_token_ready i') eqn:Hr'; [|done].
    pose proof (token_bound _ _ _ _ _ Ho Hx Hr'). injection E. lia.
  - intros s' i' k [[= -> ->]|?]%elem_of_cons; [|by apply (H5 s' i')]. intros _ Hio Hk. rewrite Ht.
    destruct (or_calls _ _ _ Ho k Hio) as [_ ?]; lia.
Qed.

Lemma ordering_unready F c o s i : ordering F c o → (1 ≤ s ≤ len)%nat → my_token_ready i = false →
  (∀ k, in_order k → (s ≤ k)%nat) → ordering ((s, i) :: F) c o.
Proof.
  intros [H1 H2 H3 H4 H5 H6] Hs Hr Hk. split; try done.
  - intros s' i' [[= -> ->]|?]%elem_of_cons; [done|by apply (H1 s' i')].
  - intros s' i' [[= -> ->]|?]%elem_of_cons; [congruence|by apply (H2 s' i')].
  - intros s' i' k [[= -> ->]|?]%elem_of_cons; [auto|by apply (H3 s' i')].
  - simpl. unfold token_in at 1. simpl. by rewrite Hr.
  - intros s' i' k [[= -> ->]|?]%elem_of_cons; [congruence|by apply (H5 s' i')].
Qed.

Lemma ordering_same F c o s i i' : ordering ((s, i) :: F) c o → my_object i' = my_object i →
  my_token_ready i' = my_token_ready i → my_token i' = my_token i → ordering ((s, i') :: F) c o.
Proof.
  intros [H1 H2 H3 H4 H5 H6] E1 E2 E3. split; try done.
  - intros s' j [[= -> ->]|?]%elem_of_cons; [apply (H1 s i); by left|apply (H1 s' j); by right].
  - intros s' j [[= -> ->]|?]%elem_of_cons; [rewrite E1, E2, E3; apply (H2 s i); by left|apply (H2 s' j); by right].
  - intros s' j k [[= -> ->]|?]%elem_of_cons; [rewrite E2; apply (H3 s i); by left|apply (H3 s' j); by right].
  - simpl in *. unfold token_in at 1. unfold token_in at 1 in H4. simpl in *. by rewrite E2, E3.
  - intros s' j k [[= -> ->]|?]%elem_of_cons; [rewrite E2, E3; apply (H5 s i); by left|apply (H5 s' j); by right].
Qed.

(** A call: the item moves on to the next filter. *)
Lemma ordering_call F c c' o k i : ordering ((k, i) :: F) c o → (1 ≤ k < len)%nat →
  (in_order k → my_token_ready i = true ∧ my_token i = Z.of_nat (length (c k))) →
  c' k = c k ++ [my_object i] → (∀ j, j ≠ k → c' j = c j) →
  ordering ((S k, set_object (function k (my_object i)) i) :: F) c' o.
Proof.
  intros Ho Hk Hio Ek Ej. pose proof Ho as [H1 H2 H3 H4 H5 H6].
  assert (Hin : (k, i) ∈ (k, i) :: F) by (by left). split.
  - intros s' j [[= -> ->]|?]%elem_of_cons; [lia|apply (H1 s' j); by right].
  - intros s' j [[= -> ->]|?]%elem_of_cons; [|apply (H2 s' j); by right]. simpl. intros Hr.
    destruct (H2 k i Hin Hr) as (? & ? & v & Hv & E). split_and!; [lia|done|]. exists v. split; [done|]. rewrite path_S, E by done. done.
  - intros s' j m [[= -> ->]|?]%elem_of_cons; [|apply (H3 s' j); by right]. simpl. intros Hr Hm.
    specialize (H3 k i m Hin Hr Hm). destruct (decide (m = k)) as [->|]; [|lia]. destruct (Hio Hm). congruence.
  - done.
  - intros s' j m [[= -> ->]|Hx]%elem_of_cons; simpl; intros Hr Hm Hs.
    { rewrite Ej by lia. apply (H5 k i m Hin Hr Hm). lia. }
    pose proof (H5 s' j m ltac:(by right) Hr Hm Hs) as Ha. destruct (decide (m = k)) as [->|]; [|by rewrite Ej].
    destruct (Hio Hm) as [Hri Hti]. rewrite Ek, length_app. simpl.
    destruct (decide (my_token j = my_token i)) as [E|]; [exfalso|lia].
    simpl in H4. unfold token_in at 1 in H4. simpl in H4. rewrite Hri in H4. apply NoDup_cons in H4 as [Hni _].
    apply Hni. rewrite <- E. by apply (token_of_ready (s', j)).
  - intros m Hm Hm1. destruct (decide (m = k)) as [->|]; [|by rewrite Ej; auto].
    destruct (Hio Hm) as [Hri Hti]. destruct (H6 k Hm Hm1) as [E L]. destruct (H2 k i Hin Hri) as (_ & _ & v & Hv & Ev).
    rewrite Hti, Nat2Z.id in Hv. pose proof (lookup_lt_Some _ _ _ Hv). rewrite Ek, length_app. simpl. rewrite Nat.add_1_r.
    rewrite (take_S_r _ _ _ Hv), fmap_app, <- E. simpl. rewrite Ev. split; [done|lia].
Qed.

(** *** No item is lost or used twice *)
Definition at_stage (s : nat) F : list V := (λ x, my_object x.2) <$> filter (λ x, x.1 = s) F.
Definition conserved F (c : nat → list V) : Prop :=
  ∀ k, (k < len)%nat → function k <$> c k ≡ₚ c (S k) ++ at_stage (S k) F.

Lemma at_stage_cons s x F : at_stage s (x :: F) = (if decide (x.1 = s) then [my_object x.2] else []) ++ at_stage s F.
Proof. unfold at_stage. rewrite filter_cons. by case_decide. Qed.
Lemma at_stage_perm s F F' : F ≡ₚ F' → at_stage s F ≡ₚ at_stage s F'.
Proof. intros E. unfold at_stage. by rewrite E. Qed.

Definition bump (c : nat → list V) (k : nat) (v : V) : nat → list V := λ j, if decide (j = k) then c k ++ [v] else c j.

Lemma conserved_perm F F' c : F' ≡ₚ F → conserved F c → conserved F' c.
Proof. intros E Hc k Hk. rewrite (Hc k Hk). by rewrite (at_stage_perm _ _ _ E). Qed.
Lemma conserved_accept F c i : conserved F c → conserved ((1%nat, i) :: F) (bump c 0 (my_object i)).
Proof.
  intros Hc k Hk. specialize (Hc k Hk). unfold bump. rewrite at_stage_cons.
  destruct k as [|k]; [|exact Hc]. simpl. rewrite fmap_app, Hc. simpl. solve_Permutation.
Qed.
Lemma conserved_call F c k i : conserved ((k, i) :: F) c → (1 ≤ k < len)%nat →
  conserved ((S k, set_object (function k (my_object i)) i) :: F) (bump c k (my_object i)).
Proof.
  intros Hc Hk j Hj. specialize (Hc j Hj). rewrite at_stage_cons in *. unfold bump. cbn [fst snd my_object set_object] in *.
  destruct (decide (j = k)) as [->|Hne].
  - rewrite (decide_True (P := S k = S k)), (decide_False (P := S k = k)) by lia. rewrite (decide_False (P := k = S k)) in Hc by lia.
    rewrite fmap_app, Hc. simpl. solve_Permutation.
  - rewrite (decide_False (P := S k = S j)) by lia. destruct (decide (S j = k)) as [E|Hne'].
    + rewrite (decide_True (P := k = S j)) in Hc by lia. rewrite Hc, E. simpl. solve_Permutation.
    + rewrite (decide_False (P := k = S j)) in Hc by lia. done.
Qed.
Lemma conserved_finish F c i : conserved ((len, i) :: F) c → conserved F (bump c len (my_object i)).
Proof.
  intros Hc k Hk. specialize (Hc k Hk). rewrite at_stage_cons in Hc. unfold bump. cbn [fst snd] in *.
  rewrite (decide_False (P := k = len)) by lia. destruct (decide (S k = len)) as [E|Hne].
  - rewrite (decide_True (P := len = S k)) in Hc by lia. rewrite Hc, E. simpl. solve_Permutation.
  - rewrite (decide_False (P := len = S k)) in Hc by lia. done.
Qed.
Lemma conserved_same F c s i i' : conserved ((s, i) :: F) c → my_object i' = my_object i → conserved ((s, i') :: F) c.
Proof. intros Hc E k Hk. specialize (Hc k Hk). rewrite at_stage_cons in *. cbn [fst snd] in *. by rewrite E. Qed.

Record items_ok σ : Prop := {
  it_calls : length (calls σ) = S len;
  it_conserved : conserved (flight σ) (calls_of σ);
  it_ordering : ordering (flight σ) (calls_of σ) (order σ);
  it_counted : counted (flight σ) (calls_of σ) (order σ);
}.

Lemma calls_of_alter σ σ' k v : length (calls σ) = S len → (k ≤ len)%nat → calls σ' = alter (λ l, l ++ [v]) k (calls σ) →
  length (calls σ') = S len ∧ ∀ j, calls_of σ' j = bump (calls_of σ) k v j.
Proof.
  intros Hl Hk E. split; [by rewrite E, length_alter|]. intros j. unfold calls_of, bump. rewrite E. case_decide as Hj.
  - subst. rewrite list_lookup_alter_eq. destruct (lookup_lt_is_Some_2 (calls σ) k) as [l ->]; [lia|]. done.
  - by rewrite list_lookup_alter_ne.
Qed.

Lemma conserved_ext F c c' : (∀ j, c' j = c j) → conserved F c → conserved F c'.
Proof. intros E Hc k Hk. rewrite !E. by apply Hc. Qed.
Lemma counted_ext F c c' o : (∀ j, c' j = c j) → counted F c o → counted F c' o.
Proof. intros E Hc. unfold counted. by rewrite !E. Qed.
Lemma ordering_ext F c c' o : (∀ j, c' j = c j) → ordering F c o → ordering F c' o.
Proof. intros E. apply ordering_calls. auto. Qed.

(** The first ordered filter gives out the tokens. *)
Definition highs_ok σ : Prop := ∀ k b, buffers σ !! k = Some b → in_order k → (∀ j, in_order j → (k ≤ j)%nat) →
  high b = Z.of_nat (length (order σ)).
(** A call of an ordered filter is for the next token. *)
Definition turns_ok σ : Prop := ∀ t, t ∈ tasks σ → my_at_start t = false → at_place t = Enter → in_order (my_filter t) →
  my_token_ready (info t) = true ∧ my_token (info t) = Z.of_nat (length (calls_of σ (my_filter t))).

(** An item gets a token, in the first filter or in a buffer. *)
Lemma ordered_ordering k s i i' σ σ' F :
  highs_ok σ → ordering F (calls_of σ) (order σ) → (1 ≤ s ≤ len)%nat → s = (1 `max` k)%nat →
  (my_token_ready i = false → ∀ j, in_order j → (k ≤ j)%nat) →
  (in_order k ∧ my_token_ready i = false ∨ ordering ((s, i) :: F) (calls_of σ) (order σ)) →
  ordered_by k i i' σ σ' → ordering ((s, i') :: F) (calls_of σ) (order σ').
Proof.
  intros Hh Ho Hs Es Hmin Hor [Eo Hby]. case_decide as Hc.
  - destruct Hby as (b & Eb & Hr & Ht & ->). destruct Hc as [Hio Hu]. specialize (Hmin Hu).
    apply ordering_new; try done; [by rewrite Ht, (Hh k b)|]. rewrite Es. by apply origin_first.
  - destruct Hby as (Hr & Ht & ->). destruct Hor as [?|Hor]; [done|]. by eapply ordering_same.
Qed.
Lemma ordered_counted k s i i' σ σ' F c :
  k ≠ 0%nat → (in_order 0 → my_token_ready i = true) → counted ((s, i) :: F) c (order σ) → ordered_by k i i' σ σ' →
  counted ((s, i') :: F) c (order σ').
Proof.
  intros Hk H0 [C1 C2] [Eo Hby]. case_decide as Hc.
  - destruct Hby as (b & Eb & Hr & Ht & ->). destruct Hc as [Hio Hu]. split.
    + intros Hio0. specialize (H0 Hio0). congruence.
    + intros j Hj. rewrite (C2 j Hj), !unready_cons, length_app. simpl. rewrite Hr, Hu. lia.
  - destruct Hby as (Hr & Ht & ->). split; [done|]. intros j Hj. rewrite (C2 j Hj), !unready_cons. simpl. by rewrite Hr.
Qed.
Lemma accept_counted i i' σ σ' F c v :
  my_token_ready i = false → counted F c (order σ) → ordered_by 0 i i' σ σ' → v = my_object i →
  counted ((1%nat, i') :: F) (bump c 0 v) (order σ').
Proof.
  intros Hr [N1 N2] [_ Hby] ->. unfold counted, bump. simpl. case_decide as Hd.
  - destruct Hby as (b & Eb & Hr' & _ & ->). split; [intros Hio; by rewrite (N1 Hio)|].
    intros k Hk. rewrite !length_app, unready_cons, (N2 k Hk). simpl. rewrite Hr'. lia.
  - destruct Hby as (Hr' & _ & ->). split; [intros Hio; by destruct Hd|].
    intros k Hk. rewrite !length_app, unready_cons, (N2 k Hk). simpl. rewrite Hr', Hr. lia.
Qed.
Lemma accept_ordering i i' σ σ' F :
  (1 ≤ len)%nat → highs_ok σ → my_token_ready i = false → ordering F (calls_of σ) (order σ) → ordered_by 0 i i' σ σ' →
  ordering ((1%nat, i') :: F) (calls_of σ) (order σ').
Proof.
  intros Hlen Hh Hr Ho Hby. eapply (ordered_ordering 0); try done; [intros; lia|].
  destruct (decide (in_order 0)) as [|Hno]; [by left|].
  right. apply ordering_unready; [done|lia|done|]. intros k Hk. destruct k; [done|lia].
Qed.

Lemma counted_drop s i F c c' o : c' 0%nat = c 0%nat → (∀ k, in_order k → my_token_ready i = true) →
  counted ((s, i) :: F) c o → counted F c' o.
Proof.
  intros E Hr [N1 N2]. split; rewrite E; [done|]. intros k Hk. rewrite (N2 k Hk), unready_cons. simpl. by rewrite (Hr k Hk).
Qed.

Section effects.
Context σ σ' (Hlen : (1 ≤ len)%nat) (Hi : items_ok σ) (Hh : highs_ok σ).

Lemma accept_items i i' :
  my_token_ready i = false → ordered_by 0 i i' σ σ' → flight σ' ≡ₚ (1%nat, i') :: flight σ →
  calls σ' = alter (λ l, l ++ [my_object i]) 0%nat (calls σ) → items_ok σ'.
Proof.
  intros Hr Hby Hf Ec. destruct Hi as [Hl Hc Ho Hn].
  destruct (calls_of_alter σ σ' 0 (my_object i) Hl ltac:(lia) Ec) as [Hl' Hcs]. pose proof Hby as [Eobj _]. split; [done|..].
  - apply (conserved_ext _ _ _ Hcs), (conserved_perm _ _ _ Hf). rewrite <- Eobj. by apply conserved_accept.
  - apply (ordering_ext _ _ _ _ Hcs), (ordering_perm _ _ _ _ Hf), (ordering_calls _ (calls_of σ)).
    + intros k _ Hk. unfold bump. by rewrite decide_False by lia.
    + by eapply accept_ordering.
  - apply (counted_ext _ _ _ _ Hcs), (counted_perm _ _ _ _ Hf). by eapply accept_counted.
Qed.

Lemma single_items i i' :
  len = 1%nat → my_token_ready i = false → ordered_by 0 i i' σ σ' → flight σ' ≡ₚ flight σ →
  calls σ' = alter (λ l, l ++ [my_object i]) 1%nat (alter (λ l, l ++ [my_object i]) 0%nat (calls σ)) → items_ok σ'.
Proof.
  intros H1 Hr Hby Hf Ec. destruct Hi as [Hl Hc Ho Hn].
  destruct (calls_of_alter σ (State (input_tokens σ) (end_of_input σ) (buffers σ) (tasks σ) (produced σ)
    (alter (λ l, l ++ [my_object i]) 0%nat (calls σ)) (order σ)) 0 (my_object i) Hl ltac:(lia) eq_refl) as [Hl1 Hc1].
  destruct (calls_of_alter _ σ' 1 (my_object i) Hl1 ltac:(lia) Ec) as [Hl' Hcs]. pose proof Hby as [Eobj _].
  assert (Hcs' : ∀ j, calls_of σ' j = bump (bump (calls_of σ) 0 (my_object i)) 1 (my_object i) j).
  { intros j. rewrite Hcs. unfold bump at 1 2. case_decide; by rewrite Hc1. }
  clear Hcs Hc1 Hl1. pose proof (accept_counted i i' σ σ' _ _ _ Hr Hn Hby eq_refl) as Hn'.
  pose proof (accept_ordering i i' σ σ' _ Hlen Hh Hr Ho Hby) as Ho'. split; [done|..].
  - apply (conserved_ext _ _ _ Hcs'), (conserved_perm _ _ _ Hf). rewrite <- H1 at 1.
    pose proof (conserved_finish (flight σ) (bump (calls_of σ) 0 (my_object i)) i') as Hfin. rewrite H1, Eobj in Hfin.
    rewrite H1. apply Hfin. rewrite <- Eobj. by apply conserved_accept.
  - apply (ordering_ext _ _ _ _ Hcs'), (ordering_perm _ _ _ _ Hf), (ordering_calls _ (calls_of σ)); [|by eapply ordering_remove].
    intros k (f & ?%lookup_lt_Some & _) ?. lia.
  - apply (counted_ext _ _ _ _ Hcs'), (counted_perm _ _ _ _ Hf). apply (counted_drop 1 i' _ (bump (calls_of σ) 0 (my_object i))); [done| |done].
    intros k Hk. destruct Hby as [_ Hby]. assert (k = 0%nat) as -> by (destruct Hk as (f & ?%lookup_lt_Some & _); lia).
    rewrite decide_True in Hby by done. by destruct Hby as (b & _ & ? & _).
Qed.

Lemma put_items k i i' R :
  (1 ≤ k)%nat → ordered_by k i i' σ σ' → flight σ ≡ₚ (k, i) :: R → flight σ' ≡ₚ (k, i') :: R → calls σ' = calls σ → items_ok σ'.
Proof.
  intros Hk Hby Hf Hf' Ec. destruct Hi as [Hl Hc Ho Hn].
  assert (E : calls_of σ' = calls_of σ) by (unfold calls_of; by rewrite Ec). pose proof Hby as [Eobj _].
  apply (ordering_perm _ _ _ _ (symmetry Hf)) in Ho. apply (counted_perm _ _ _ _ (symmetry Hf)) in Hn.
  apply (conserved_perm _ _ _ (symmetry Hf)) in Hc. assert (Hin : (k, i) ∈ (k, i) :: R) by (by left). split; rewrite ?E, ?Ec; [done|..].
  - eapply conserved_perm; [exact Hf'|]. by eapply conserved_same.
  - eapply ordering_perm; [exact Hf'|]. eapply (ordered_ordering k); try done; [by eapply ordering_remove|by apply (or_stage _ _ _ Ho _ i)|lia| |by right].
    intros Hu j Hj. by eapply (or_unready _ _ _ Ho k i).
  - eapply counted_perm; [exact Hf'|]. eapply (ordered_counted k); try done; [lia|]. intros Hio.
    destruct (my_token_ready i) eqn:Hr; [done|]. pose proof (or_unready _ _ _ Ho k i 0 Hin Hr Hio). lia.
Qed.

Lemma call_items k i R :
  turns_ok σ → (1 ≤ k < len)%nat → flight σ ≡ₚ (k, i) :: R → flight σ' ≡ₚ (S k, set_object (function k (my_object i)) i) :: R →
  calls σ' = alter (λ l, l ++ [my_object i]) k (calls σ) → order σ' = order σ →
  (∃ l1 t l2, tasks σ = l1 ++ t :: l2 ∧ my_at_start t = false ∧ at_place t = Enter ∧ my_filter t = k ∧ info t = i) → items_ok σ'.
Proof.
  intros Ht Hk Hf Hf' Ec Eo Htask. destruct Hi as [Hl Hc Ho Hn].
  destruct (calls_of_alter σ σ' k (my_object i) Hl ltac:(lia) Ec) as [Hl' Hcs].
  apply (ordering_perm _ _ _ _ (symmetry Hf)) in Ho. apply (counted_perm _ _ _ _ (symmetry Hf)) in Hn.
  apply (conserved_perm _ _ _ (symmetry Hf)) in Hc. split; rewrite ?Eo; [done|..].
  - apply (conserved_ext _ _ _ Hcs), (conserved_perm _ _ _ Hf'). by apply conserved_call.
  - eapply ordering_perm; [exact Hf'|]. eapply ordering_call; [done|done| |by rewrite Hcs; unfold bump; rewrite decide_True|].
    + intros Hio. destruct Htask as (l1 & t & l2 & E & Hst & Hp & Hk' & <-). rewrite <- Hk' in *. apply Ht; [|done..].
      rewrite E, elem_of_app, elem_of_cons. auto.
    + intros j Hj. rewrite Hcs. unfold bump. by rewrite decide_False.
  - apply (counted_perm _ _ _ _ Hf'). destruct Hn as [N1 N2]. unfold counted. rewrite Hcs. unfold bump. rewrite decide_False by lia.
    split; [done|]. intros j Hj. rewrite (N2 j Hj), !unready_cons. done.
Qed.

Lemma finish_items i R :
  flight σ ≡ₚ (len, i) :: R → flight σ' ≡ₚ R → calls σ' = alter (λ l, l ++ [my_object i]) len (calls σ) →
  order σ' = order σ → items_ok σ'.
Proof.
  intros Hf Hf' Ec Eo. destruct Hi as [Hl Hc Ho Hn].
  destruct (calls_of_alter σ σ' len (my_object i) Hl ltac:(lia) Ec) as [Hl' Hcs].
  apply (ordering_perm _ _ _ _ (symmetry Hf)) in Ho. apply (counted_perm _ _ _ _ (symmetry Hf)) in Hn.
  apply (conserved_perm _ _ _ (symmetry Hf)) in Hc. split; rewrite ?Eo; [done|..].
  - apply (conserved_ext _ _ _ Hcs), (conserved_perm _ _ _ Hf'). by apply conserved_finish.
  - apply (ordering_ext _ _ _ _ Hcs), (ordering_perm _ _ _ _ Hf'), (ordering_calls _ (calls_of σ)); [|by eapply ordering_remove].
    intros k (f & ?%lookup_lt_Some & _) _. unfold bump. by rewrite decide_False by lia.
  - apply (counted_perm _ _ _ _ Hf'). eapply counted_drop; [|intros k Hk|exact Hn].
    + rewrite Hcs. unfold bump. by rewrite decide_False by lia.
    + destruct (my_token_ready i) eqn:Hr; [done|]. pose proof (or_unready _ _ _ Ho len i k ltac:(by left) Hr Hk).
      destruct Hk as (f & ?%lookup_lt_Some & _). lia.
Qed.

Lemma effect_items : turns_ok σ → effect σ σ' → items_ok σ'.
Proof.
  intros Ht He. destruct He as [Hf Ec Eo| | | | |]; eauto using accept_items, single_items, put_items, call_items, finish_items.
  destruct Hi as [Hl Hc Ho Hn].
  assert (E : calls_of σ' = calls_of σ) by (unfold calls_of; by rewrite Ec). split; rewrite ?E, ?Ec, ?Eo; [done|..].
  - by eapply conserved_perm.
  - by eapply ordering_perm.
  - by eapply counted_perm.
Qed.
End effects.

(** *** Serial filters *)

(** A task that has passed the buffer of a filter and not yet its
    [try_to_spawn_task_for_next_token]: whether the filter was called, the item. *)
Definition served (k : nat) t : option (bool * task_info V) :=
  if my_at_start t || negb (my_filter t =? k)%nat then None
  else match at_place t with
       | Enter => Some (false, info t)
       | Calling | NextToken => Some (true, info t)
       | _ => None
       end.
Definition serving σ k : list (bool * task_info V) := omap (served k) (tasks σ).

Record service (k : nat) (L : list (bool * task_info V)) (n : nat) b : Prop := {
  sv_one : (length L ≤ 1)%nat;
  sv_calls : Z.of_nat n = low b + Z.of_nat (length (filter (λ x, x.1 = true) L));
  sv_turn x : in_order k → x ∈ L → my_token_ready x.2 = true ∧ my_token x.2 = low b;
  sv_pend tok i : pend b !! tok = Some i → low b < tok ∧ (in_order k → my_token_ready i = true ∧ my_token i = tok);
  sv_queue : ¬ in_order k → low b ≤ high b ∧ (∀ tok, is_Some (pend b !! tok) ↔ low b < tok < high b) ∧ (L ≠ [] ↔ low b < high b);
}.

Lemma service_perm k L L' n b : L' ≡ₚ L → service k L n b → service k L' n b.
Proof.
  intros Hp [H1 H2 H3 H4 H5]. split; [by rewrite Hp|by rewrite Hp|intros x; rewrite Hp; apply H3|done|].
  intros Hn. destruct (H5 Hn) as (? & ? & Hi). split_and!; [done..|]. rewrite <- Hi. split; intros HL ->; apply HL.
  - symmetry in Hp. by apply Permutation_nil_l in Hp.
  - by apply Permutation_nil_l in Hp.
Qed.

(** A call of the filter begins. *)
Lemma service_call k i n b : service k [(false, i)] n b → service k [(true, i)] (S n) b.
Proof.
  intros [H1 H2 H3 H4 H5]. split; [done| | |done|].
  - rewrite filter_cons in *. simpl in *. lia.
  - intros x Hk ->%list_elem_of_singleton. apply (H3 (false, i) Hk). by left.
  - intros Hn. destruct (H5 Hn) as (? & ? & HL). split_and!; [done..|]. by rewrite <- HL.
Qed.
Lemma service_object k i n b v : service k [(true, i)] n b → service k [(true, set_object v i)] n b.
Proof.
  intros [H1 H2 H3 H4 H5]. split; [done|done| |done|].
  - intros x Hk ->%list_elem_of_singleton. apply (H3 (true, i) Hk). by left.
  - intros Hn. destruct (H5 Hn) as (? & ? & HL). split_and!; [done..|]. by rewrite <- HL.
Qed.

(** [try_to_spawn_task_for_next_token] *)
Lemma service_next k i n b : service k [(true, i)] n b →
  service k ((λ w, (false, w)) <$> option_list (pend b !! (low b + 1))) n
    (Waits (low b + 1) (high b) (ordered b) (delete (low b + 1) (pend b))).
Proof.
  intros [H1 H2 H3 H4 H5]. rewrite filter_cons in H2. simpl in H2. split; simpl.
  - destruct (pend b !! _); simpl; lia.
  - destruct (pend b !! _); simpl; lia.
  - intros x Hk. destruct (pend b !! (low b + 1)) as [w|] eqn:E; simpl; [|by intros ?%elem_of_nil].
    intros ->%list_elem_of_singleton. by apply (H4 _ _ E).
  - intros tok w [Hne Hw]%lookup_delete_Some. destruct (H4 _ _ Hw). split; [lia|done].
  - intros Hk. destruct (H5 Hk) as (Hle & Hp & HL). assert (low b < high b) by (by apply HL). split_and!; [lia| |].
    + intros tok. destruct (decide (tok = low b + 1)) as [->|Hne]; [rewrite lookup_delete_eq|rewrite lookup_delete_ne, Hp by done; lia].
      split; [by intros []|lia].
    + specialize (Hp (low b + 1)). destruct (pend b !! (low b + 1)); simpl; split; try done.
      * intros _. apply Hp. eauto.
      * intros ?. destruct Hp as [_ Hp]. destruct Hp; [lia|done].
Qed.

(** [try_put_token] *)
Lemma service_put k L n b i placed i' b' :
  service k L n b → ordered b = bool_decide (in_order k) → wait_put i b = Some (placed, i', b') →
  low b ≤ token_of i b → (in_order k → token_of i b = low b → L = []) →
  service k (if placed then L else (false, i') :: L) n b'.
Proof.
  intros [H1 H2 H3 H4 H5] Ho (_ & _ & El & Eo & Eh & Et & -> & Ep)%wait_put_spec Hle Hfree.
  assert (Hnone : token_of i b = low b → L = []).
  { intros E. destruct (decide (in_order k)) as [Hk|Hk]; [auto|]. destruct (H5 Hk) as (_ & _ & HL).
    destruct L as [|x L]; [done|]. assert (low b < high b) by (by apply HL).
    unfold token_of in E. rewrite Ho, bool_decide_false in E by done. simpl in E. lia. }
  destruct (Z.eqb_spec (token_of i b) (low b)) as [E|Hne]; simpl in *.
  - rewrite (Hnone E) in *. split; [done| | | |]; rewrite ?El, ?Ep.
    + rewrite filter_cons. simpl in *. lia.
    + intros x Hk ->%list_elem_of_singleton. simpl. rewrite Ho, bool_decide_true in Et by done. unfold token_of in E.
      rewrite Ho, bool_decide_true in E by done. destruct (my_token_ready i); simpl in *; destruct Et as [-> ->]; done.
    + apply H4.
    + intros Hk. destruct (H5 Hk) as (Hl & Hp & HL). unfold token_of in E. rewrite Ho, bool_decide_false in E, Eh by done.
      simpl in *. rewrite Eh. split_and!; [lia| |split; [lia|done]].
      intros tok. rewrite Hp. lia.
  - split; [done|by rewrite El|by rewrite El|..]; rewrite ?El, ?Ep.
    + intros tok w. rewrite lookup_insert_Some. intros [[<- <-]|[_ Hw]]; [|by apply H4]. split; [lia|]. intros Hk.
      rewrite Ho, bool_decide_true in Et by done. unfold token_of. rewrite Ho, bool_decide_true by done.
      destruct (my_token_ready i); simpl in *; destruct Et as [-> ->]; done.
    + intros Hk. destruct (H5 Hk) as (Hl & Hp & HL). unfold token_of in *. rewrite Ho, bool_decide_false in * by done.
      simpl in *. rewrite Eh. split_and!; [lia| |].
      * intros tok. destruct (decide (tok = high b)) as [->|]; [rewrite lookup_insert_eq; split; [lia|eauto]|].
        rewrite lookup_insert_ne, Hp by done. lia.
      * rewrite HL. lia.
Qed.

(** *** The invariant *)
Record inv σ : Prop := {
  iv_tasks t : t ∈ tasks σ → task_ok t;
  iv_buffers : buffers_ok σ;
  iv_items : items_ok σ;
  iv_highs : highs_ok σ;
  iv_service k b : (1 ≤ k)%nat → serial k → buffers σ !! k = Some b → service k (serving σ k) (length (calls_of σ k)) b;
  iv_unused k b : k = 0%nat ∨ ¬ serial k → buffers σ !! k = Some b → pend b = ∅;
}.

Lemma inv_turns σ : inv σ → turns_ok σ.
Proof.
  intros [Ht [Hb _] _ _ Hs _] t Hin Hst Hp Hio. pose proof (Ht t Hin) as Hok. unfold task_ok in Hok. rewrite Hst, Hp in Hok.
  destruct (lookup_lt_is_Some_2 (buffers σ) (my_filter t)) as [b Eb]; [lia|].
  destruct (Hs (my_filter t) b) as [H1 H2 H3 _ _]; [lia|by apply in_order_serial|done|].
  assert (Hx : (false, info t) ∈ serving σ (my_filter t)).
  { apply list_elem_of_omap. exists t. unfold served. by rewrite Hst, Hp, Nat.eqb_refl. }
  destruct (H3 (false, info t) Hio Hx) as [Hr Htok]. split; [done|]. simpl in Htok. rewrite Htok, H2.
  destruct (serving σ (my_filter t)) as [|x [|? ?]]; [by apply elem_of_nil in Hx| |simpl in H1; lia].
  apply list_elem_of_singleton in Hx as <-. rewrite filter_cons. simpl. lia.
Qed.

(** The other items do not have the token of this one. *)
Lemma other_token σ l1 t l2 s i t' s' i' : inv σ → tasks σ = l1 ++ t :: l2 → dest t = Some (s, i) → my_token_ready i = true →
  t' ∈ l1 ++ l2 → dest t' = Some (s', i') → my_token_ready i' = true → my_token i' ≠ my_token i.
Proof.
  intros Hi Ht Hd Hr Hin Hd' Hr' E. pose proof (or_nodup _ _ _ (it_ordering _ (iv_items _ Hi))) as Hn. unfold flight in Hn.
  assert (E1 : omap dest (tasks σ) ≡ₚ (s, i) :: omap dest (l1 ++ l2)).
  { rewrite Ht, !omap_app. simpl. rewrite Hd. solve_Permutation. }
  rewrite omap_app, E1 in Hn. simpl in Hn. unfold token_in at 1 in Hn. simpl in Hn. rewrite Hr in Hn.
  apply NoDup_cons in Hn as [Hn _]. apply Hn. apply elem_of_app. left. rewrite <- E. apply (token_of_ready (s', i')); [|done].
  apply list_elem_of_omap. by exists t'.
Qed.
Lemma waiting_token σ l1 t l2 s i k b tok i' : inv σ → tasks σ = l1 ++ t :: l2 → dest t = Some (s, i) → my_token_ready i = true →
  buffers σ !! k = Some b → pend b !! tok = Some i' → my_token_ready i' = true → my_token i' ≠ my_token i.
Proof.
  intros Hi Ht Hd Hr Eb Ep Hr' E. pose proof (or_nodup _ _ _ (it_ordering _ (iv_items _ Hi))) as Hn. unfold flight in Hn.
  assert (E1 : omap dest (tasks σ) ≡ₚ (s, i) :: omap dest (l1 ++ l2)).
  { rewrite Ht, !omap_app. simpl. rewrite Hd. solve_Permutation. }
  rewrite omap_app, E1 in Hn. simpl in Hn. unfold token_in at 1 in Hn. simpl in Hn. rewrite Hr in Hn.
  apply NoDup_cons in Hn as [Hn _]. apply Hn. apply elem_of_app. right. rewrite <- E. apply (token_of_ready (k, i')); [|done].
  destruct (waiting_insert 0 (buffers σ) k b b Eb) as (R & -> & _). apply elem_of_app. left.
  apply list_elem_of_fmap. exists (tok, i'). split; [done|]. by apply elem_of_map_to_list.
Qed.

Lemma flight_task σ t s i : t ∈ tasks σ → dest t = Some (s, i) → (s, i) ∈ flight σ.
Proof. intros Ht Hd. apply elem_of_app. left. apply list_elem_of_omap. by exists t. Qed.
Lemma flight_waiting σ k b tok i : buffers σ !! k = Some b → pend b !! tok = Some i → (k, i) ∈ flight σ.
Proof.
  intros Eb Ep. apply elem_of_app. right. destruct (waiting_insert 0 (buffers σ) k b b Eb) as (R & -> & _).
  apply elem_of_app. left. apply list_elem_of_fmap. exists (tok, i). split; [done|]. by apply elem_of_map_to_list.
Qed.

(** The item of a task that is served. *)
Lemma serving_item σ l1 t l2 k x : tasks σ = l1 ++ t :: l2 → served k t = None → x ∈ serving σ k →
  ∃ t' s' i', t' ∈ l1 ++ l2 ∧ dest t' = Some (s', i') ∧ my_token_ready i' = my_token_ready x.2 ∧ my_token i' = my_token x.2 ∧
    (s', i') ∈ flight σ.
Proof.
  intros Ht Hns Hx. apply list_elem_of_omap in Hx as (t' & Hin' & Es).
  assert (Hin2 : t' ∈ l1 ++ l2).
  { rewrite Ht, elem_of_app, elem_of_cons in Hin'. rewrite elem_of_app. destruct Hin' as [?|[->|?]]; [auto|congruence|auto]. }
  assert (Hd' : ∃ s' i', dest t' = Some (s', i') ∧ my_token_ready i' = my_token_ready x.2 ∧ my_token i' = my_token x.2).
  { unfold served in Es. unfold dest. destruct (my_at_start t'); [done|]. destruct (my_filter t' =? k)%nat; [|done].
    destruct (at_place t'); try done; injection Es as <-; eexists _, _; (split; [reflexivity|done]). }
  destruct Hd' as (s' & i' & Hd' & Er & Et). exists t', s', i'. split_and!; [done..|by eapply flight_task].
Qed.

(** An item that arrives at a serial filter finds its token free. *)
Lemma arrival σ l1 t l2 k b : inv σ → tasks σ = l1 ++ t :: l2 → dest t = Some (k, info t) → served k t = None → serial k →
  buffers σ !! k = Some b →
  pend b !! token_of (info t) b = None ∧ low b ≤ token_of (info t) b ∧
  (in_order k → token_of (info t) b = low b → serving σ k = []).
Proof.
  intros Hi Ht Hd Hns Hser Eb. assert (Hin : t ∈ tasks σ) by (rewrite Ht, elem_of_part; auto).
  pose proof (flight_task σ t k (info t) Hin Hd) as Hfl. destruct (iv_items _ Hi) as [_ _ Ho _].
  pose proof (or_stage _ _ _ Ho _ _ Hfl) as Hst. assert (Hk : (k < len)%nat) by (destruct Hser as (f & ?%lookup_lt_Some & _); done).
  destruct (iv_service _ Hi k b) as [S1 S2 S3 S4 S5]; [lia|done|done|].
  pose proof (ordered_in_order σ k b (iv_buffers _ Hi) Hk Eb) as Eo. unfold token_of. rewrite Eo.
  destruct (decide (in_order k)) as [Hio|Hno].
  2: { rewrite bool_decide_false by done. simpl. destruct (S5 Hno) as (Hle & Hp & _). split_and!; [|done|done].
       apply eq_None_not_Some. rewrite Hp. lia. }
  rewrite bool_decide_true by done. simpl.
  assert (Hserv : ∀ x, x ∈ serving σ k → ∃ t' s' i', t' ∈ l1 ++ l2 ∧ dest t' = Some (s', i') ∧ my_token_ready i' = true ∧
    my_token i' = low b ∧ (s', i') ∈ flight σ).
  { intros x Hx. destruct (S3 x Hio Hx) as [Hr Htok]. destruct (serving_item σ l1 t l2 k x Ht Hns Hx) as (t' & s' & i' & ? & ? & Er & Et & ?).
    exists t', s', i'. split_and!; congruence || done. }
  assert (Hlow : low b ≤ Z.of_nat (length (calls_of σ k))) by lia.
  destruct (my_token_ready (info t)) eqn:Hr.
  - split_and!.
    + destruct (pend b !! my_token (info t)) as [i'|] eqn:Ep; [|done]. destruct (S4 _ _ Ep) as [_ Hi']. destruct (Hi' Hio) as [Hr' Ht'].
      destruct (waiting_token σ l1 t l2 k (info t) k b _ i' Hi Ht Hd Hr Eb Ep Hr'). done.
    + pose proof (or_ahead _ _ _ Ho k (info t) k Hfl Hr Hio ltac:(done)). lia.
    + intros _ E. destruct (serving σ k) as [|x L]; [done|]. destruct (Hserv x) as (t' & s' & i' & Hin' & Hd' & Hr' & Ht' & _); [by left|].
      destruct (other_token σ l1 t l2 k (info t) t' s' i' Hi Ht Hd Hr Hin' Hd' Hr'). congruence.
  - assert (Hmin : ∀ j, in_order j → (k ≤ j)%nat) by (intros j Hj; by apply (or_unready _ _ _ Ho k (info t) j)).
    rewrite (iv_highs _ Hi k b Eb Hio Hmin). destruct (or_calls _ _ _ Ho k Hio) as [_ Hle]; [lia|]. split_and!; [|lia|].
    + destruct (pend b !! _) as [i'|] eqn:Ep; [|done]. destruct (S4 _ _ Ep) as [_ Hi']. destruct (Hi' Hio) as [Hr' Ht'].
      pose proof (token_bound _ _ _ _ _ Ho (flight_waiting _ _ _ _ _ Eb Ep) Hr'). lia.
    + intros _ E. destruct (serving σ k) as [|x L]; [done|]. destruct (Hserv x) as (t' & s' & i' & _ & _ & Hr' & Ht' & Hf'); [by left|].
      pose proof (token_bound _ _ _ _ _ Ho Hf' Hr'). lia.
Qed.

Lemma serving_split σ l1 t l2 ts σ' k : tasks σ = l1 ++ t :: l2 →
  ∃ R, serving σ k ≡ₚ option_list (served k t) ++ R ∧ serving (set_tasks (l1 ++ ts ++ l2) σ') k ≡ₚ omap (served k) ts ++ R.
Proof.
  intros Ht. exists (omap (served k) (l1 ++ l2)). unfold serving. simpl. rewrite Ht, !omap_app. simpl.
  destruct (served k t); simpl; split; solve_Permutation.
Qed.

(** The buffers after a step. *)
Record buffered σ : Prop := {
  bf_buffers : buffers_ok σ;
  bf_highs : highs_ok σ;
  bf_service k b : (1 ≤ k)%nat → serial k → buffers σ !! k = Some b → service k (serving σ k) (length (calls_of σ k)) b;
  bf_unused k b : k = 0%nat ∨ ¬ serial k → buffers σ !! k = Some b → pend b = ∅;
}.

Section buffered.
Context σ t σ' (l1 l2 ts : list (stage_task V)) (Hi : inv σ) (Ht : tasks σ = l1 ++ t :: l2).
Local Abbreviation next_state := (set_tasks (l1 ++ ts ++ l2) σ').

Lemma serving_alone k x : served k t = Some x → (1 ≤ k)%nat → serial k →
  serving σ k ≡ₚ [x] ∧ serving next_state k ≡ₚ omap (served k) ts.
Proof.
  intros Hs Hk Hser. destruct (serving_split σ l1 t l2 ts σ' k Ht) as (R & E1 & E2). rewrite Hs in E1. simpl in E1.
  assert (R = []) as ->; [|by rewrite app_nil_r in E2].
  destruct (iv_buffers _ Hi) as [Hl _]. destruct Hser as (f & Hf & Hsf).
  destruct (lookup_lt_is_Some_2 (buffers σ) k) as [b Eb]; [rewrite Hl; by eapply lookup_lt_Some|].
  destruct (iv_service _ Hi k b Hk) as [H1 _ _ _ _]; [by exists f|done|]. rewrite E1 in H1. simpl in H1. destruct R; [done|simpl in H1; lia].
Qed.

(** A step that leaves the buffers alone, at most changes what one filter was called with. *)
Lemma quiet_buffered : buffers σ' = buffers σ → order σ' = order σ →
  (∀ k, (1 ≤ k)%nat → serial k → ∀ b n, service k (serving σ k) (length (calls_of σ k)) b → n = length (calls_of σ' k) →
     service k (serving next_state k) n b) → buffered next_state.
Proof.
  intros Eb Eo Hs. destruct Hi as [_ [Hl Hb] _ Hh Hsv Hu]. split.
  - split; simpl; rewrite Eb; [done|apply Hb].
  - intros k b. simpl. rewrite Eb, Eo. apply Hh.
  - intros k b Hk Hser Hkb. simpl in Hkb. rewrite Eb in Hkb. eapply Hs; [done|done|by apply Hsv|done].
  - intros k b. simpl. rewrite Eb. apply Hu.
Qed.

Lemma still_buffered : buffers σ' = buffers σ → order σ' = order σ → (∀ k, (1 ≤ k < len)%nat → calls_of σ' k = calls_of σ k) →
  (∀ k, (1 ≤ k)%nat → serial k → omap (served k) ts = option_list (served k t)) → buffered next_state.
Proof.
  intros Eb Eo Ec Hs. apply quiet_buffered; [done..|]. intros k Hk Hser b n Hsv ->. rewrite Ec by (destruct Hser as (f & ?%lookup_lt_Some & _); lia).
  destruct (serving_split σ l1 t l2 ts σ' k Ht) as (R & E1 & E2). eapply service_perm; [|exact Hsv]. by rewrite E1, E2, Hs.
Qed.

(** A step that changes one buffer. *)
Lemma change_buffered k b b' : buffers σ !! k = Some b → buffers σ' = <[k := b']> (buffers σ) → ordered b' = ordered b →
  (∀ j, (1 ≤ j < len)%nat → calls_of σ' j = calls_of σ j) → (∀ j, (1 ≤ j)%nat → serial j → j ≠ k → omap (served j) ts = option_list (served j t)) →
  (∀ j, in_order j → (∀ m, in_order m → (j ≤ m)%nat) → if decide (j = k) then high b' - high b = Z.of_nat (length (order σ')) - Z.of_nat (length (order σ)) else length (order σ') = length (order σ)) →
  (k = 0%nat ∨ ¬ serial k → pend b' = pend b) →
  (1 ≤ k → serial k → service k (serving next_state k) (length (calls_of σ k)) b')%nat → buffered next_state.
Proof.
  intros Ek Eb Eo Ec Hs Hh Hpe Hk. destruct Hi as [_ [Hl Hb] _ Hhi Hsv Hu]. pose proof (lookup_lt_Some _ _ _ Ek) as Hlt. split.
  - split; simpl; rewrite Eb; [by rewrite length_insert|]. intros j f b0 Hf [[<- [-> _]]|[_ Hj]]%list_lookup_insert_Some; [|by eapply Hb].
    rewrite Eo. by eapply Hb.
  - intros j b0 Hj Hio Hmin. simpl in *. rewrite Eb in Hj. specialize (Hh j Hio Hmin).
    apply list_lookup_insert_Some in Hj as [[<- [-> _]]|[Hne Hj]].
    + rewrite decide_True in Hh by done. pose proof (Hhi k b Ek Hio Hmin). lia.
    + rewrite decide_False in Hh by done. rewrite (Hhi j b0 Hj Hio Hmin). lia.
  - intros j b0 Hj Hser Hjb. simpl in Hjb. rewrite Eb in Hjb. unfold calls_of at 1. simpl. fold (calls_of σ' j).
    rewrite Ec by (destruct Hser as (f & ?%lookup_lt_Some & _); lia).
    apply list_lookup_insert_Some in Hjb as [[<- [-> _]]|[Hne Hjb]]; [by apply Hk|].
    destruct (serving_split σ l1 t l2 ts σ' j Ht) as (R & E1 & E2). eapply service_perm; [|by apply Hsv].
    by rewrite E1, E2, Hs.
  - intros j b0 Hj Hjb. simpl in Hjb. rewrite Eb in Hjb. apply list_lookup_insert_Some in Hjb as [[<- [-> _]]|[_ Hjb]]; [|by eapply Hu].
    rewrite Hpe by done. by eapply Hu.
Qed.
End buffered.

Lemma calls_of_add σ k v j : (k ≤ len)%nat → length (calls σ) = S len → calls_of (add_call k v σ) j = bump (calls_of σ) k v j.
Proof. intros Hk Hl. by apply calls_of_alter. Qed.

Lemma put_buffered σ l1 t l2 k b placed i b' :
  inv σ → tasks σ = l1 ++ t :: l2 → at_place t = Advance → k = S (my_filter t) → serial k → buffers σ !! k = Some b →
  wait_put (info t) b = Some (placed, i, b') →
  buffered (set_tasks (l1 ++ (if placed then [] else [item_task k i]) ++ l2) (note_order (info t) i (set_buffer k b' σ))).
Proof.
  intros Hi Ht Hp Ek Hser Eb Eput. assert (Hk : (k < len)%nat) by (destruct Hser as (f & ?%lookup_lt_Some & _); done).
  assert (Hns : ∀ j, served j t = None) by (intros j; unfold served; rewrite Hp; by case_match).
  assert (Hd : dest t = Some (k, info t)) by (unfold dest; by rewrite Hp, Ek).
  destruct (arrival σ l1 t l2 k b Hi Ht Hd (Hns k) Hser Eb) as (_ & Hle & Hfree).
  pose proof (ordered_in_order σ k b (iv_buffers _ Hi) Hk Eb) as Eo.
  pose proof (put_ordered_by σ k b placed (info t) i b' (iv_buffers _ Hi) Hk Eb Eput) as [_ Hby].
  set (σ1 := note_order (info t) i (set_buffer k b' σ)) in *.
  pose proof (note_order_same (info t) i (set_buffer k b' σ)) as (Eb1 & Ec1 & _). fold σ1 in Eb1, Ec1.
  pose proof (wait_put_spec _ _ _ _ _ Eput) as (_ & _ & El & Eo' & Eh & _).
  apply (change_buffered σ t σ1 l1 l2 _ Hi Ht k b b'); try done; [intros j _; unfold calls_of; by rewrite Ec1|..].
  - intros j Hj Hsj Hne. rewrite Hns. destruct placed; [done|]. simpl. unfold served. simpl. by rewrite (proj2 (Nat.eqb_neq k j)) by done.
  - intros j Hio Hmin. rewrite Eh, Eo. case_decide as Hby'.
    + destruct Hby' as [Hiok Hr]. destruct Hby as (b0 & _ & _ & _ & ->). rewrite length_app, Hr, andb_false_r. simpl.
      assert (j = k) as ->; [|rewrite decide_True by done; lia]. assert (k ≤ j)%nat; [|specialize (Hmin k Hiok); lia].
      apply (or_unready _ _ _ (it_ordering _ (iv_items _ Hi)) k (info t)); [|done..].
      apply (flight_task σ t); [|done]. rewrite Ht, elem_of_part. auto.
    + destruct Hby as (_ & _ & ->). case_decide as Hjk; [|done]. subst j. rewrite bool_decide_true by done.
      destruct (my_token_ready (info t)); simpl; [lia|tauto].
  - intros [?|?]; [lia|done].
  - intros Hk1 _. destruct (serving_split σ l1 t l2 (if placed then [] else [item_task k i]) σ1 k Ht) as (R & E1 & E2).
    rewrite Hns in E1. simpl in E1. eapply service_perm; [exact E2|]. eapply service_perm;
      [|apply (service_put k R _ b (info t) placed i b'); [eapply service_perm; [symmetry; exact E1|by apply (iv_service _ Hi)]|done..| ]].
    + destruct placed; [done|]. simpl. unfold served at 1. simpl. by rewrite Nat.eqb_refl.
    + intros Hio E. specialize (Hfree Hio E). rewrite Hfree in E1. symmetry in E1. by apply Permutation_nil_r in E1.
Qed.

Lemma first_buffered σ l1 t l2 f v stopped ts σ' :
  (1 ≤ len)%nat → inv σ → tasks σ = l1 ++ t :: l2 → my_at_start t = true → my_filter t = 0%nat → filters !! 0%nat = Some f →
  my_token_ready (info t) = false ∨ at_place t = SpawnAfter →
  first_filter null filters f v stopped t σ = Some (ts, σ') → buffered (set_tasks (l1 ++ ts ++ l2) σ').
Proof.
  intros Hlen Hi Ht Hst Hk Hf Hr E. assert (Hns : ∀ j, served j t = None) by (intros j; unfold served; by rewrite Hst).
  pose proof (it_calls _ (iv_items _ Hi)) as Hl. unfold first_filter in E.
  assert (Hgo : ∀ p j, served j (go p t) = None) by (intros p j; unfold served; simpl; by rewrite Hst).
  destruct (at_place t) as [| |st| | | | |] eqn:Hp; try done.
  - repeat case_match; simplify_eq; apply (still_buffered _ t _ _ _ _ Hi Ht); try done; intros k _ _; rewrite Hns; simpl; by rewrite ?Hgo.
  - case_match; [|done]. simplify_eq. apply (still_buffered _ t _ _ _ _ Hi Ht); try done; try (by repeat case_match).
    intros k _ _. rewrite Hns. simpl. unfold served. simpl. by rewrite Hst.
  - destruct Hr as [Hr|?]; [|done]. destruct (is_serial f) eqn:Es.
    + case_match; [|simplify_eq; apply (still_buffered _ t _ _ _ _ Hi Ht); try done; intros; by rewrite Hns].
      change (if is_ordered f then _ else _) with (first_token f t σ) in E.
      apply bind_Some in E as ([i σ1] & E1 & E). unfold first_token in E1. destruct (is_ordered f) eqn:Eof.
      * apply bind_Some in E1 as (b & Eb & E1). simpl in E1. unfold note_order in E1. simpl in E1. rewrite Hr in E1. simpl in E1.
        injection E1 as <- <-. assert (Hio : in_order 0) by (by exists f).
        case_decide as H1; injection E as <- <-; apply (change_buffered σ t _ l1 l2 _ Hi Ht 0 b (take_high b).2); try done.
        all: try (intros j Hj; rewrite ?calls_of_add by (simpl; rewrite ?length_alter; lia); unfold bump; rewrite ?decide_False by lia; done).
        all: try (intros j ? ? ?; rewrite Hns; simpl; unfold served; simpl; by rewrite ?Hst).
        all: try (intros ?; lia).
        all: intros j Hj Hmin; specialize (Hmin 0%nat Hio); assert (j = 0%nat) as -> by lia; simpl; rewrite length_app; simpl; lia.
      * injection E1 as <- <-. case_decide as H1; injection E as <- <-; apply (still_buffered _ t _ _ _ _ Hi Ht); try done.
        all: try (intros j Hj; lia).
        all: try (intros j Hj; rewrite ?calls_of_add by (simpl; rewrite ?length_alter; lia); unfold bump; rewrite ?decide_False by lia; done).
        all: intros j ? ?; rewrite Hns; simpl; unfold served; simpl; by rewrite ?Hst.
    + case_match; simplify_eq; apply (still_buffered _ t _ _ _ _ Hi Ht); try done; try (intros; by rewrite Hns).
      * intros k Hk1. rewrite calls_of_add by lia. unfold bump. by rewrite decide_False by lia.
      * intros k Hk1 _. rewrite Hns. simpl. unfold served. simpl. by destruct (my_filter t =? k)%nat.
  - unfold try_spawn_stage_task in E. simplify_eq. apply (still_buffered _ t _ _ _ _ Hi Ht); try done. intros j ? ?. rewrite Hns. simpl. rewrite Hgo.
    by case_match.
  - unfold try_spawn_stage_task in E. simplify_eq. apply (still_buffered _ t _ _ _ _ Hi Ht); try done. intros j ? ?. rewrite Hns. simpl.
    unfold served at 1. simpl. by repeat case_match.
Qed.

Lemma served_other k j t : my_filter t = j → k ≠ j → served k t = None.
Proof. intros <- Hne. unfold served. rewrite (proj2 (Nat.eqb_neq _ _)) by done. by rewrite orb_true_r. Qed.
Lemma served_advance k t : at_place t = Advance → served k t = None.
Proof. intros Hp. unfold served. rewrite Hp. by case_match. Qed.

(** The steps of an item in a filter. *)
Section item.
Context σ t (l1 l2 : list (stage_task V)) (f : base_filter V).
Context (Hi : inv σ) (Ht : tasks σ = l1 ++ t :: l2) (Hst : my_at_start t = false) (Hf : filters !! my_filter t = Some f).

Lemma call_buffered : at_place t = Enter → (1 ≤ my_filter t)%nat →
  buffered (set_tasks (l1 ++ [go Calling t] ++ l2) (add_call (my_filter t) (my_object (info t)) σ)).
Proof.
  intros Hp Hk1. pose proof (lookup_lt_Some _ _ _ Hf) as Hlt. pose proof (it_calls _ (iv_items _ Hi)) as Hl.
  apply (quiet_buffered _ _ _ _ _ Hi); try done.
  intros k Hk Hser b n Hsv ->. rewrite calls_of_add by (done || lia). unfold bump. case_decide as Hkf.
  - subst k. assert (Es : served (my_filter t) t = Some (false, info t)) by (unfold served; by rewrite Hst, Hp, Nat.eqb_refl).
    destruct (serving_alone σ t (add_call (my_filter t) (my_object (info t)) σ) l1 l2 [go Calling t] Hi Ht _ _ Es Hk Hser) as (E1 & E2).
    rewrite length_app, Nat.add_1_r. eapply service_perm; [exact E2|]. simpl. unfold served. simpl. rewrite Hst, Nat.eqb_refl.
    apply service_call. eapply service_perm; [symmetry; exact E1|exact Hsv].
  - destruct (serving_split σ l1 t l2 [go Calling t] (add_call (my_filter t) (my_object (info t)) σ) k Ht) as (R & E1 & E2).
    eapply service_perm; [|exact Hsv]. rewrite E1, E2. simpl. by rewrite !(served_other k (my_filter t)).
Qed.

Lemma return_buffered : at_place t = Calling →
  buffered (set_tasks (l1 ++ [go (if is_serial f then NextToken else Advance)
    (with_info (set_object (body f (my_object (info t))) (info t)) t)] ++ l2) σ).
Proof.
  intros Hp. set (t' := go _ _). apply (quiet_buffered _ _ _ _ _ Hi); try done.
  intros k Hk Hser b n Hsv ->. destruct (decide (k = my_filter t)) as [->|Hne].
  - destruct Hser as (f' & Hf' & Es). assert (f' = f) as -> by congruence.
    assert (Es' : served (my_filter t) t = Some (true, info t)) by (unfold served; by rewrite Hst, Hp, Nat.eqb_refl).
    destruct (serving_alone σ t σ l1 l2 [t'] Hi Ht _ _ Es' Hk) as (E1 & E2); [by exists f|].
    eapply service_perm; [exact E2|]. simpl. unfold served. simpl. rewrite Hst, Nat.eqb_refl, Es. simpl.
    apply service_object. eapply service_perm; [symmetry; exact E1|exact Hsv].
  - destruct (serving_split σ l1 t l2 [t'] σ k Ht) as (R & E1 & E2).
    eapply service_perm; [|exact Hsv]. rewrite E1, E2. simpl. by rewrite !(served_other k (my_filter t)).
Qed.

Lemma next_buffered b : at_place t = NextToken → (1 ≤ my_filter t)%nat → is_serial f = true → buffers σ !! my_filter t = Some b →
  buffered (set_tasks (l1 ++ (go Advance t :: match pend b !! (low b + 1) with Some i => [item_task (my_filter t) i] | None => [] end) ++ l2)
    (set_buffer (my_filter t) (Waits (low b + 1) (high b) (ordered b) (delete (low b + 1) (pend b))) σ)).
Proof.
  intros Hp Hk1 Es Eb. set (b' := Waits _ _ _ _). set (ts := _ :: _). apply (change_buffered σ t _ l1 l2 _ Hi Ht (my_filter t) b b'); try done.
  - intros j Hj Hser Hne. rewrite (served_other j (my_filter t)) by done. unfold ts. simpl. rewrite served_advance by done.
    destruct (pend b !! (low b + 1)); [|done]. simpl. by rewrite (served_other j (my_filter t)).
  - intros j _ _. case_decide; [simpl; lia|done].
  - intros [?|[]]; [lia|by exists f].
  - intros _ Hser. assert (Es' : served (my_filter t) t = Some (true, info t)) by (unfold served; by rewrite Hst, Hp, Nat.eqb_refl).
    destruct (serving_alone σ t (set_buffer (my_filter t) b' σ) l1 l2 ts Hi Ht _ _ Es' Hk1 Hser) as (E1 & E2).
    eapply service_perm; [exact E2|]. unfold ts. simpl. rewrite served_advance by done.
    assert (Hsv : service (my_filter t) [(true, info t)] (length (calls_of σ (my_filter t))) b).
    { eapply service_perm; [symmetry; exact E1|by apply (iv_service _ Hi)]. }
    apply service_next in Hsv. eapply service_perm; [|exact Hsv].
    destruct (pend b !! (low b + 1)); [|done]. simpl. unfold served. simpl. by rewrite Nat.eqb_refl.
Qed.
End item.

Lemma step_buffered σ l1 t l2 v stopped ts σ' :
  (1 ≤ len)%nat → inv σ → tasks σ = l1 ++ t :: l2 → execute_filter v stopped t σ = Some (ts, σ') →
  buffered (set_tasks (l1 ++ ts ++ l2) σ').
Proof.
  intros Hlen Hi Ht E. assert (Hin : t ∈ tasks σ) by (rewrite Ht, elem_of_part; auto).
  pose proof (iv_tasks _ Hi t Hin) as Hok. unfold task_ok in Hok. unfold Pipeline.execute_filter in E. destruct (my_at_start t) eqn:Hst.
  { destruct Hok as [Hk Hok]. rewrite Hk in E. assert (my_token_ready (info t) = false ∨ at_place t = SpawnAfter) as Hr
      by (destruct (at_place t); tauto).
    assert ((filters !! 0%nat ≫= λ f, first_filter null filters f v stopped t σ) = Some (ts, σ')) as E' by (by destruct (at_place t)).
    apply bind_Some in E' as (f & Hf & E'). by eapply (first_buffered σ l1 t l2 f v stopped). }
  pose proof (it_calls _ (iv_items _ Hi)) as Hl.
  destruct (at_place t) eqn:Hp; try done.
  - apply bind_Some in E as (f & Hf & E). injection E as <- <-. eapply call_buffered; try done. lia.
  - apply bind_Some in E as (f & Hf & E). injection E as <- <-. by eapply return_buffered.
  - apply bind_Some in E as (f & Hf & E). apply bind_Some in E as (b & Eb & E). simpl in E. injection E as <- <-.
    destruct Hok as [Hk1 (f' & Hf' & Es)]. assert (f' = f) as -> by congruence. by eapply next_buffered.
  - unfold advance_task in E. destruct (filters !! S (my_filter t)) as [f|] eqn:Ef.
    + destruct (is_serial f) eqn:Es.
      * apply bind_Some in E as (b & Eb & E). apply bind_Some in E as ([[placed i] b'] & Ep & E). injection E as <- <-.
        eapply put_buffered; try done. by exists f.
      * injection E as <- <-. apply (still_buffered _ t _ _ _ _ Hi Ht); try done. intros k Hk (f' & Hf' & Es'). rewrite served_advance by done.
        simpl. rewrite (served_other k (S (my_filter t))); [done|done|]. intros ->. congruence.
    + injection E as <- <-. apply lookup_ge_None in Ef. apply (still_buffered _ t _ _ _ _ Hi Ht); try done.
      * intros k Hk. rewrite calls_of_add by (done || lia). unfold bump. by rewrite decide_False by lia.
      * intros k Hk _. rewrite served_advance by done. case_match; [done|]. simpl. unfold served. simpl.
        by destruct (my_at_start t || _).
  - injection E as <- <-. apply (still_buffered _ t _ _ _ _ Hi Ht); try done. intros k _ _. unfold served at 2. rewrite Hp.
    repeat case_match; done.
Qed.

Lemma input_task_ok : task_ok (input_task null).
Proof. done. Qed.

Lemma item_task_ok k i : (1 ≤ k < len)%nat → task_ok (item_task k i).
Proof. done. Qed.

Lemma step_tasks_ok t v stopped ts σ σ' : (1 ≤ len)%nat → task_ok t → execute_filter v stopped t σ = Some (ts, σ') → Forall task_ok ts.
Proof.
  intros Hlen Hok E. unfold Pipeline.execute_filter in E. unfold task_ok in Hok. destruct (my_at_start t) eqn:Hst.
  - destruct Hok as [Hk Hok]. rewrite Hk in E.
    assert ((filters !! 0%nat ≫= λ f, first_filter null filters f v stopped t σ) = Some (ts, σ')) as E' by (by destruct (at_place t)).
    clear E. apply bind_Some in E' as (f & Hf & E). unfold first_filter in E.
    assert (Hser : is_serial f = true ↔ serial 0) by (split; [by exists f|intros (f' & ? & ?); congruence]).
    assert (Hgo : ∀ p, task_ok (go p t) ↔ match p with
      | Enter | Calling | Returned _ => my_token_ready (info t) = false | SpawnBefore => my_token_ready (info t) = false ∧ ¬ serial 0
      | SpawnAfter => serial 0 ∧ (2 ≤ len)%nat | _ => False end).
    { intros p. unfold task_ok. simpl. rewrite Hst, Hk. tauto. }
    destruct (at_place t) eqn:Hp; try done.
    + repeat case_match; simplify_eq; repeat constructor; rewrite ?Hgo; try done. split; [done|]. intros ?%Hser. congruence.
    + case_match; [|done]. simplify_eq. constructor; [|done]. unfold task_ok. simpl. by rewrite Hst.
    + destruct (is_serial f) eqn:Es.
      * case_match; [|by simplify_eq]. apply bind_Some in E as ([i σ1] & _ & E). case_decide; simplify_eq; (constructor; [|done]); [done|].
        unfold task_ok. simpl. rewrite Hst. split; [done|]. split; [by apply Hser|lia].
      * case_match; simplify_eq; [done|]. constructor; [|done]. unfold task_ok. simpl. rewrite Hk. lia.
    + unfold try_spawn_stage_task in E. simplify_eq. constructor; [rewrite Hgo; tauto|]. case_match; by repeat constructor.
    + unfold try_spawn_stage_task in E. simplify_eq. constructor; [unfold task_ok; simpl; lia|]. case_match; by repeat constructor.
  - destruct (at_place t) eqn:Hp; try done.
    + apply bind_Some in E as (f & Hf & E). simplify_eq. constructor; [|done]. unfold task_ok. simpl. by rewrite Hst.
    + apply bind_Some in E as (f & Hf & E). simplify_eq. constructor; [|done]. unfold task_ok. simpl. rewrite Hst.
      destruct (is_serial f) eqn:Es; [split; [lia|by exists f]|lia].
    + apply bind_Some in E as (f & Hf & E). apply bind_Some in E as (b & Eb & E). simpl in E. simplify_eq.
      pose proof (lookup_lt_Some _ _ _ Hf). constructor; [by unfold task_ok; simpl; rewrite Hst|].
      case_match; [|done]. apply Forall_singleton, item_task_ok. lia.
    + unfold advance_task in E. destruct (filters !! S (my_filter t)) as [f|] eqn:Ef.
      * pose proof (lookup_lt_Some _ _ _ Ef). destruct (is_serial f).
        -- apply bind_Some in E as (b & Eb & E). apply bind_Some in E as ([[placed i] b'] & Ep & E). simplify_eq.
           destruct placed; [done|]. apply Forall_singleton, item_task_ok. lia.
        -- simplify_eq. apply Forall_singleton, item_task_ok. lia.
      * simplify_eq. case_match; [done|]. apply Forall_singleton. unfold task_ok. simpl. by rewrite Hst.
    + simplify_eq. case_match; by repeat constructor.
Qed.

Lemma step_invariant σ σ' : (1 ≤ len)%nat → inv σ → step σ σ' → inv σ'.
Proof.
  intros Hlen Hi Hst. destruct Hst as [l1 t l2 v stopped ts σ σ' Ht E].
  pose proof (step_buffered σ l1 t l2 v stopped ts σ' Hlen Hi Ht E) as [Hb Hh Hs Hu].
  assert (Hin : ∀ t', t' ∈ l1 ++ t :: l2 → task_ok t') by (intros t' Hin'; apply (iv_tasks _ Hi); by rewrite Ht).
  assert (Hok : task_ok t) by (apply Hin; rewrite elem_of_app, elem_of_cons; auto). split; try done.
  - intros t'. simpl. rewrite !elem_of_app. pose proof (step_tasks_ok t v stopped ts σ σ' Hlen Hok E) as Hts. rewrite Forall_forall in Hts.
    intros [?|[?|?]]; [|auto|]; apply Hin; rewrite elem_of_app, elem_of_cons; auto.
  - eapply (effect_items σ); [done|apply Hi|apply Hi|by apply inv_turns|]. eapply step_effect; try done; [apply Hi|].
    intros Hp b Eb Hser. eapply (arrival σ l1 t l2); try done; [unfold dest; by rewrite Hp|by apply served_advance].
Qed.

Lemma start_invariant n σ : start null filters n = Some σ → inv σ.
Proof.
  intros E. unfold start in E. apply bind_Some in E as (bs & Ebs & E). simplify_eq.
  assert (Hbs : ∀ k b, bs !! k = Some b → ∃ f, filters !! k = Some f ∧ b = Waits 0 0 (is_ordered f) ∅).
  { intros k b Hk. destruct (Forall2_lookup_r _ _ _ _ _ (mapM_Some_1 _ _ _ Ebs) Hk) as (f & Hf & [= <-]). by exists f. }
  set (σ := State _ _ _ _ _ _ _). assert (Hfl : flight σ = []).
  { unfold flight, waiting_from. simpl. apply concat_nil_Forall. apply Forall_forall. intros x. rewrite elem_of_lookup_imap.
    intros (k & b & -> & Hk). destruct (Hbs k b Hk) as (f & _ & ->). unfold waiting_at. simpl. by rewrite map_to_list_empty. }
  assert (Hc : ∀ k, calls_of σ k = []).
  { intros k. unfold calls_of. change (calls σ) with (replicate (S len) ([] : list V)). destruct (_ !! k) eqn:Ek; [|done]. by apply lookup_replicate in Ek as [-> _]. }
  split.
  - intros t ->%list_elem_of_singleton. apply input_task_ok.
  - split; simpl; [symmetry; by eapply Forall2_length, mapM_Some_1|]. intros k f b Hf (f' & ? & ->)%Hbs. simpl. congruence.
  - split; rewrite ?Hfl; [simpl; by rewrite length_replicate|..].
    + intros k Hk. by rewrite !Hc.
    + split; try (by intros ? ? ?%elem_of_nil); try (by intros ? ? ? ?%elem_of_nil); [constructor|]. intros k Hk _. by rewrite Hc.
    + split; by rewrite Hc.
  - intros k b (f & _ & ->)%Hbs _ _. done.
  - intros k b Hk Hser Hb. unfold serving. rewrite Hc. simpl. destruct (Hbs k b Hb) as (f & Hf & ->). split; simpl.
    + lia.
    + lia.
    + by intros ? ? ?%elem_of_nil.
    + by intros tok i ?%lookup_empty_Some.
    + intros _. split_and!; [lia| |split; [done|lia]]. intros tok. rewrite lookup_empty. split; [by intros []|lia].
  - intros k b _ (f & _ & ->)%Hbs. done.
Qed.

(** *** The number of items in flight *)

(** A task that has not yet taken a token from [input_tokens], or has returned it. *)
Definition idle t : bool :=
  match at_place t with
  | Recycle | SpawnBefore | SpawnAfter => true
  | Enter => my_at_start t
  | Calling | Returned _ => my_at_start t && bool_decide (serial 0)
  | NextToken | Advance => false
  end.
Definition idles (ts : list (stage_task V)) : Z := zsum (λ t, if idle t then 1 else 0) ts.
Definition held (ts : list (stage_task V)) : Z := zsum (λ t, if idle t then 0 else 1) ts.
Definition waits (bs : list (waiting V)) : Z := Z.of_nat (length (waiting_from 0 bs)).

(** What a step does to the tokens; the last two are [try_spawn_stage_task] and
    the end of the pipe. *)
Inductive delta t ts σ σ' : Prop :=
  | delta_none :
      idles ts = idles [t] → held ts + waits (buffers σ') = held [t] + waits (buffers σ) → input_tokens σ' = input_tokens σ →
      end_of_input σ' = end_of_input σ ∨ end_of_input σ' = true → delta t ts σ σ'
  | delta_idle :
      ts = [] → idle t = true → buffers σ' = buffers σ → input_tokens σ' = input_tokens σ → end_of_input σ' = true → delta t ts σ σ'
  | delta_held :
      ts = [] → idle t = false → buffers σ' = buffers σ → input_tokens σ' = input_tokens σ → end_of_input σ' = true → delta t ts σ σ'
  | delta_spawn :
      idle t = true → idles ts = (if 1 <? input_tokens σ then 1 else 0) → held ts = 1 → buffers σ' = buffers σ →
      input_tokens σ' = input_tokens σ - 1 → end_of_input σ' = end_of_input σ → delta t ts σ σ'
  | delta_finish :
      idle t = false → idles ts = (if 0 <? input_tokens σ then 0 else 1) → held ts = 0 → buffers σ' = buffers σ →
      input_tokens σ' = input_tokens σ + 1 → end_of_input σ' = end_of_input σ → delta t ts σ σ'.

Lemma waits_insert bs k b b' : bs !! k = Some b →
  waits (<[k := b']> bs) = waits bs - Z.of_nat (size (pend b)) + Z.of_nat (size (pend b')).
Proof.
  intros Hk. unfold waits. destruct (waiting_insert 0 bs k b b' Hk) as (R & -> & ->). rewrite !length_app.
  unfold waiting_at. rewrite !length_fmap, !length_map_to_list. lia.
Qed.

Lemma idles_one t : idles [t] = if idle t then 1 else 0.
Proof. unfold idles, zsum. simpl. lia. Qed.
Lemma held_one t : held [t] = if idle t then 0 else 1.
Proof. unfold held, zsum. simpl. lia. Qed.

Lemma put_delta σ l1 t l2 k b placed i b' :
  inv σ → tasks σ = l1 ++ t :: l2 → at_place t = Advance → k = S (my_filter t) → serial k → buffers σ !! k = Some b →
  wait_put (info t) b = Some (placed, i, b') →
  delta t (if placed then [] else [item_task k i]) σ (note_order (info t) i (set_buffer k b' σ)).
Proof.
  intros Hi Ht Hp Ek Hser Eb Eput. assert (Hidle : idle t = false) by (unfold idle; by rewrite Hp).
  destruct (arrival σ l1 t l2 k b Hi Ht) as (Hfree & _); [unfold dest; by rewrite Hp, Ek|by apply served_advance|done|done|].
  apply wait_put_spec in Eput as (_ & _ & _ & _ & _ & _ & _ & Epe).
  destruct (note_order_same (info t) i (set_buffer k b' σ)) as (Hb & _ & Hn & He & _). simpl in Hb. apply delta_none.
  - rewrite idles_one, Hidle. destruct placed; [done|by rewrite idles_one].
  - rewrite Hb, (waits_insert _ k b b' Eb), held_one, Hidle, Epe. destruct placed; [|rewrite held_one; simpl; lia].
    rewrite map_size_insert_None by done. unfold held, zsum. simpl. lia.
  - done.
  - by left.
Qed.

Lemma first_delta f v stopped t ts σ σ' :
  filters !! 0%nat = Some f → my_at_start t = true → my_filter t = 0%nat → first_filter null filters f v stopped t σ = Some (ts, σ') →
  (at_place t = SpawnBefore → ¬ serial 0) → delta t ts σ σ'.
Proof.
  intros Hf Hst Hk E Hsb. assert (Hser : bool_decide (serial 0) = is_serial f).
  { destruct (is_serial f) eqn:Es; [apply bool_decide_true; by exists f|apply bool_decide_false; intros (? & ? & ?); congruence]. }
  unfold first_filter in E. destruct (at_place t) as [| |st| | | | |] eqn:Hp; try done.
  - assert (Hid : idle t = true) by (unfold idle; by rewrite Hp).
    destruct (is_serial f) eqn:Es; [|destruct (end_of_input σ) eqn:Ee]; simplify_eq; [|by apply delta_idle|].
    all: apply delta_none; rewrite ?idles_one, ?held_one, ?Hid; unfold idle; simpl; rewrite ?Hst, ?Hser; try done; by left.
  - assert (Hid : idle t = is_serial f) by (unfold idle; rewrite Hp, Hst; simpl; by rewrite Hser).
    case_match; [|done]. simplify_eq. apply delta_none; rewrite ?idles_one, ?held_one, ?Hid; unfold idle; simpl; rewrite ?Hst, ?Hser; simpl.
    + done.
    + destruct stopped; simpl; [destruct (object_may_be_null f && is_serial f)|]; done.
    + destruct stopped; simpl; [destruct (object_may_be_null f && is_serial f)|]; done.
    + destruct stopped; simpl; [destruct (object_may_be_null f && is_serial f)|]; auto.
  - assert (Hid : idle t = is_serial f) by (unfold idle; rewrite Hp, Hst; simpl; by rewrite Hser).
    destruct (is_serial f) eqn:Es.
    + case_match; [|simplify_eq; by apply delta_idle]. change (if is_ordered f then _ else _) with (first_token f t σ) in E.
      apply bind_Some in E as ([i σ1] & E1 & E).
      assert (waits (buffers σ1) = waits (buffers σ) ∧ input_tokens σ1 = input_tokens σ ∧ end_of_input σ1 = end_of_input σ) as (W & T & En).
      { unfold first_token in E1. destruct (is_ordered f); [|by simplify_eq]. apply bind_Some in E1 as (b & Eb & E1). simpl in E1.
        injection E1 as <- <-. destruct (note_order_same (info t) (set_token (high b) (info t)) (set_buffer 0 (take_high b).2 σ)) as (B1 & _ & B2 & B3 & _).
        simpl in *. rewrite B1, B2, B3, (waits_insert _ _ b) by done. simpl. split_and!; lia || done. }
      case_decide; simplify_eq; (apply delta_none; rewrite ?idles_one, ?held_one, ?Hid; simpl; [|lia|done|by left]);
        unfold idle; simpl; done.
    + case_match; simplify_eq; [by apply delta_held|]. apply delta_none; rewrite ?idles_one, ?held_one, ?Hid; try done. by left.
  - unfold try_spawn_stage_task in E. simplify_eq.
    rewrite bool_decide_false in Hser by auto.
    apply delta_spawn; try done; [unfold idle; by rewrite Hp|..];
      unfold idles, held; rewrite zsum_cons; unfold idle at 1; simpl; rewrite Hst, bool_decide_false by auto; simpl; by case_match.
  - unfold try_spawn_stage_task in E. simplify_eq. apply delta_spawn; try done; [unfold idle; by rewrite Hp|..];
      unfold idles, held; rewrite zsum_cons; simpl; by case_match.
Qed.

Lemma step_delta σ l1 t l2 v stopped ts σ' :
  inv σ → tasks σ = l1 ++ t :: l2 → execute_filter v stopped t σ = Some (ts, σ') → delta t ts σ σ'.
Proof.
  intros Hi Ht E. assert (Hin : t ∈ tasks σ) by (rewrite Ht, elem_of_part; auto).
  pose proof (iv_tasks _ Hi t Hin) as Hok. unfold task_ok in Hok. unfold Pipeline.execute_filter in E. destruct (my_at_start t) eqn:Hst.
  { destruct Hok as [Hk Hok]. rewrite Hk in E.
    assert ((filters !! 0%nat ≫= λ f, first_filter null filters f v stopped t σ) = Some (ts, σ')) as E' by (by destruct (at_place t)).
    apply bind_Some in E' as (f & Hf & E'). eapply (first_delta f); try done. intros Hp. rewrite Hp in Hok. tauto. }
  destruct (at_place t) eqn:Hp; try done.
  - apply bind_Some in E as (f & Hf & E). injection E as <- <-.
    apply delta_none; [| |done|by left]; unfold idles, held, zsum; simpl; unfold idle; simpl; by rewrite Hp, Hst.
  - apply bind_Some in E as (f & Hf & E). injection E as <- <-.
    apply delta_none; [| |done|by left]; unfold idles, held, zsum; simpl; unfold idle; simpl; rewrite Hp, Hst; by destruct (is_serial f).
  - apply bind_Some in E as (f & Hf & E). apply bind_Some in E as (b & Eb & E). simpl in E. injection E as <- <-.
    apply delta_none; [| |done|by left].
    + rewrite idles_one. unfold idle. rewrite Hp. destruct (pend b !! (low b + 1)); done.
    + simpl. rewrite (waits_insert _ _ b) by done. rewrite held_one. unfold idle. rewrite Hp. simpl.
      destruct (pend b !! (low b + 1)) as [i|] eqn:El.
      * assert (Hsz : size (delete (low b + 1) (pend b)) = pred (size (pend b))) by (apply map_size_delete_Some; eauto). assert (size (pend b) ≠ 0%nat) by (intros E0%map_size_empty_inv; by rewrite E0 in El).
        unfold held, zsum. simpl. lia.
      * rewrite (delete_id _ _ El). unfold held, zsum. simpl. lia.
  - unfold advance_task in E. destruct (filters !! S (my_filter t)) as [f|] eqn:Ef.
    + destruct (is_serial f) eqn:Es.
      * apply bind_Some in E as (b & Eb & E). apply bind_Some in E as ([[placed i] b'] & Ep & E). injection E as <- <-.
        eapply put_delta; try done. by exists f.
      * injection E as <- <-. apply delta_none; [| |done|by left]; unfold idles, held, zsum; simpl; unfold idle; simpl; by rewrite Hp.
    + injection E as <- <-. apply delta_finish; try done; [unfold idle; by rewrite Hp|..]; by case_match.
  - destruct (end_of_input σ) eqn:Ee; injection E as <- <-.
    + apply delta_idle; try done. unfold idle. by rewrite Hp.
    + apply delta_none; [| |done|by left]; unfold idles, held, zsum; simpl; unfold idle; simpl; by rewrite Hp.
Qed.

Record tokens_ok (n : Z) σ : Prop := {
  tk_idle : 0 ≤ idles (tasks σ) ≤ 1;
  tk_pos : idles (tasks σ) ≤ input_tokens σ;
  tk_sum : input_tokens σ + held (tasks σ) + waits (buffers σ) ≤ n;
  tk_open : end_of_input σ = false →
    input_tokens σ + held (tasks σ) + waits (buffers σ) = n ∧ (1 ≤ input_tokens σ → idles (tasks σ) = 1);
}.

Lemma idles_app l1 l2 : idles (l1 ++ l2) = idles l1 + idles l2.
Proof. apply zsum_app. Qed.
Lemma held_app l1 l2 : held (l1 ++ l2) = held l1 + held l2.
Proof. apply zsum_app. Qed.
Lemma idles_nonneg ts : 0 ≤ idles ts.
Proof. apply zsum_nonneg, Forall_forall. intros t _. by destruct (idle t). Qed.
Lemma held_nonneg ts : 0 ≤ held ts.
Proof. apply zsum_nonneg, Forall_forall. intros t _. by destruct (idle t). Qed.

Lemma step_tokens n σ σ' : inv σ → tokens_ok n σ → step σ σ' → tokens_ok n σ'.
Proof.
  intros Hi [T1 T2 T3 T4] Hst. destruct Hst as [l1 t l2 v stopped ts σ σ' Ht E].
  pose proof (step_delta σ l1 t l2 v stopped ts σ' Hi Ht E) as Hd. rewrite Ht in *. change (t :: l2) with ([t] ++ l2) in *.
  pose proof (idles_nonneg l1). pose proof (idles_nonneg l2). pose proof (held_nonneg l1). pose proof (held_nonneg l2).
  rewrite !idles_app, !held_app in *.
  destruct Hd as [D1 D2 D3 D4| -> D1 D2 D3 D4| -> D1 D2 D3 D4|D1 D2 D3 D4 D5 D6|D1 D2 D3 D4 D5 D6];
    split; cbn [tasks input_tokens end_of_input buffers set_tasks]; rewrite ?idles_app, ?held_app, ?idles_one, ?held_one in *;
    rewrite ?D1, ?D2, ?D3, ?D4, ?D5, ?D6 in *.
  all: change (idles []) with 0 in *; change (held []) with 0 in *.
  all: try lia.
  all: try (intros He; specialize (T4 He)); try lia.
  all: try (destruct (1 <? input_tokens σ) eqn:Hlt; lia); try (destruct (0 <? input_tokens σ) eqn:Hlt; lia).
  intros He. destruct D4 as [D4|D4]; [|congruence]. rewrite D4 in He. specialize (T4 He). lia.
Qed.

(** No more items are in flight than there are tokens. *)
Lemma flight_bound n σ : tokens_ok n σ → Z.of_nat (length (flight σ)) ≤ n.
Proof.
  intros [T1 T2 T3 _]. unfold flight. rewrite length_app. fold (waits (buffers σ)).
  assert (Hd : Z.of_nat (length (omap dest (tasks σ))) ≤ held (tasks σ) + idles (tasks σ)).
  { clear. induction (tasks σ) as [|t ts IH]; [done|]. change (t :: ts) with ([t] ++ ts).
    rewrite held_app, idles_app, held_one, idles_one, omap_app, length_app. simpl.
    destruct (dest t), (idle t); simpl; lia. }
  unfold waits in *. lia.
Qed.

(** *** What the first filter produces *)
Definition accepting t : option V := match at_place t with Returned false => Some (my_object (info t)) | _ => None end.
Definition returned t : Prop := ∃ st, at_place t = Returned st.
Record input_ok σ : Prop := {
  in_end : serial 0 → end_of_input σ = true → 1 ≤ input_tokens σ ∧ ∀ t, t ∈ tasks σ → idle t = true → at_place t = Returned true;
  in_produced : produced σ ≡ₚ calls_of σ 0 ++ omap accepting (tasks σ);
  in_produced_serial : serial 0 → produced σ = calls_of σ 0 ++ omap accepting (tasks σ);
  in_returned t f : t ∈ tasks σ → at_place t = Returned true → filters !! 0%nat = Some f →
    my_object (info t) = null ∧ (serial 0 → object_may_be_null f = true → end_of_input σ = true);
  in_null t f : t ∈ tasks σ → at_place t = Returned false → filters !! 0%nat = Some f → my_object (info t) ≠ null ∨ object_may_be_null f = true;
}.

(** What a step does to the input. *)
Inductive intake t ts σ σ' : Prop :=
  | intake_none :
      ¬ returned t → Forall (λ t', ¬ returned t' ∧ (idle t' = true → idle t = true ∨ input_tokens σ ≤ 0)) ts →
      produced σ' = produced σ → calls_of σ' 0 = calls_of σ 0 → end_of_input σ' = end_of_input σ → intake t ts σ σ'
  | intake_call f v stopped :
      filters !! 0%nat = Some f → ¬ returned t → my_at_start t = true → at_place t = Calling →
      ts = [go (Returned stopped) (with_info (set_object v (info t)) t)] →
      (if stopped then v = null else v ≠ null ∨ object_may_be_null f = true) →
      produced σ' = produced σ ++ (if stopped then [] else [v]) → calls_of σ' 0 = calls_of σ 0 →
      input_tokens σ' = input_tokens σ → (stopped = true → serial 0 → object_may_be_null f = true → end_of_input σ' = true) →
      end_of_input σ' = end_of_input σ ∨ (stopped = true ∧ serial 0 ∧ end_of_input σ' = true) → intake t ts σ σ'
  | intake_accept st f :
      filters !! 0%nat = Some f → at_place t = Returned st → my_at_start t = true →
      (serial 0 → my_object (info t) ≠ null ∨ (object_may_be_null f = true ∧ end_of_input σ = false)) →
      (¬ serial 0 → my_object (info t) ≠ null ∨ st = false) →
      Forall (λ t', ¬ returned t') ts → produced σ' = produced σ → calls_of σ' 0 = calls_of σ 0 ++ [my_object (info t)] →
      input_tokens σ' = input_tokens σ → end_of_input σ' = end_of_input σ → intake t ts σ σ'
  | intake_refuse st f :
      filters !! 0%nat = Some f → at_place t = Returned st → my_at_start t = true → ts = [] →
      (serial 0 → my_object (info t) = null ∧ (object_may_be_null f = false ∨ end_of_input σ = true)) →
      (¬ serial 0 → my_object (info t) = null ∧ (object_may_be_null f = false ∨ st = true)) →
      produced σ' = produced σ → calls_of σ' 0 = calls_of σ 0 → input_tokens σ' = input_tokens σ → end_of_input σ' = true →
      intake t ts σ σ'.

Lemma not_returned t : match at_place t with Returned _ => False | _ => True end → ¬ returned t.
Proof. intros Hp [st E]. by rewrite E in Hp. Qed.

Lemma first_intake f v stopped t ts σ σ' :
  (1 ≤ len)%nat → length (calls σ) = S len → filters !! 0%nat = Some f → my_at_start t = true → my_filter t = 0%nat →
  first_filter null filters f v stopped t σ = Some (ts, σ') → intake t ts σ σ'.
Proof.
  intros Hlen Hl Hf Hst Hk E. assert (Hser : is_serial f = true ↔ serial 0) by (split; [by exists f|intros (f' & ? & ?); congruence]).
  unfold first_filter in E. destruct (at_place t) as [| |st| | | | |] eqn:Hp; try done.
  - assert (Hid : idle t = true) by (unfold idle; by rewrite Hp).
    apply intake_none; [apply not_returned; by rewrite Hp|..]; repeat case_match; simplify_eq; try done;
      apply Forall_singleton; (split; [by apply not_returned|auto]).
  - case_match eqn:Hv; [|done]. injection E as <- <-. apply (intake_call _ _ _ _ f v stopped); try done.
    + apply not_returned. by rewrite Hp.
    + destruct stopped; [by apply bool_decide_eq_true_1 in Hv|]. apply orb_true_iff in Hv as [Hv|Hv]; [left; by apply bool_decide_eq_true_1 in Hv|by right].
    + destruct stopped; simpl; [destruct (_ && _); by rewrite app_nil_r|done].
    + destruct stopped; simpl; [by destruct (_ && _)|done].
    + destruct stopped; simpl; [by destruct (_ && _)|done].
    + intros -> Hs%Hser Hm. simpl. by rewrite Hm, Hs.
    + destruct stopped; simpl; [|by left]. destruct (object_may_be_null f), (is_serial f) eqn:Es; simpl; auto. right. split_and!; [done|by apply Hser|done].
  - destruct (is_serial f) eqn:Es.
    + assert (Hs0 : serial 0) by (by apply Hser). case_match eqn:Hv.
      * change (if is_ordered f then _ else _) with (first_token f t σ) in E. apply bind_Some in E as ([i σ1] & E1 & E).
        assert (length (calls σ1) = S len ∧ calls_of σ1 0 = calls_of σ 0 ∧ produced σ1 = produced σ ∧
          input_tokens σ1 = input_tokens σ ∧ end_of_input σ1 = end_of_input σ) as (L1 & C1 & P1 & T1 & En1).
        { unfold first_token in E1. destruct (is_ordered f); [|by simplify_eq]. apply bind_Some in E1 as (b & Eb & E1). simpl in E1.
          injection E1 as <- <-. destruct (note_order_same (info t) (set_token (high b) (info t)) (set_buffer 0 (take_high b).2 σ)) as (_ & B1 & B4 & B2 & B3).
          unfold calls_of. simpl in *. rewrite B1. done. }
        apply orb_true_iff in Hv. rewrite bool_decide_eq_true, andb_true_iff, negb_true_iff in Hv.
        case_decide; injection E as <- <-; apply (intake_accept _ _ _ _ st f); try done;
          try (apply Forall_singleton; by apply not_returned).
        -- rewrite calls_of_add by (simpl; rewrite ?length_alter; lia). unfold bump. rewrite decide_False by done.
           rewrite calls_of_add by lia. unfold bump. simpl. by rewrite C1.
        -- rewrite calls_of_add by lia. unfold bump. simpl. by rewrite C1.
      * injection E as <- <-. apply orb_false_iff in Hv as [Hv1 Hv2]. apply bool_decide_eq_false_1, dec_stable in Hv1.
        apply andb_false_iff in Hv2. rewrite negb_false_iff in Hv2. by apply (intake_refuse _ _ _ _ st f).
    + assert (Hs0 : ¬ serial 0) by (intros ?%Hser; congruence). case_match eqn:Hv.
      * injection E as <- <-. apply andb_true_iff in Hv as [Hv1 Hv2]. apply bool_decide_eq_true_1 in Hv1.
        apply orb_true_iff in Hv2. rewrite negb_true_iff in Hv2. by apply (intake_refuse _ _ _ _ st f).
      * injection E as <- <-. apply andb_false_iff in Hv. rewrite bool_decide_eq_false, orb_false_iff in Hv.
        apply (intake_accept _ _ _ _ st f); try done; [tauto|apply Forall_singleton; by apply not_returned|].
        rewrite calls_of_add by lia. done.
  - unfold try_spawn_stage_task in E. injection E as <- <-. assert (Hid : idle t = true) by (unfold idle; by rewrite Hp).
    apply intake_none; try done; [apply not_returned; by rewrite Hp|]. constructor; [split; [by apply not_returned|auto]|].
    case_match; [|done]. apply Forall_singleton. split; [by apply not_returned|auto].
  - unfold try_spawn_stage_task in E. injection E as <- <-. assert (Hid : idle t = true) by (unfold idle; by rewrite Hp).
    apply intake_none; try done; [apply not_returned; by rewrite Hp|]. constructor; [split; [by apply not_returned|auto]|].
    case_match; [|done]. apply Forall_singleton. split; [by apply not_returned|auto].
Qed.

Lemma step_intake σ l1 t l2 v stopped ts σ' :
  (1 ≤ len)%nat → inv σ → tasks σ = l1 ++ t :: l2 → execute_filter v stopped t σ = Some (ts, σ') → intake t ts σ σ'.
Proof.
  intros Hlen Hi Ht E. assert (Hin : t ∈ tasks σ) by (rewrite Ht, elem_of_part; auto).
  pose proof (it_calls _ (iv_items _ Hi)) as Hl. pose proof (iv_tasks _ Hi t Hin) as Hok. unfold task_ok in Hok.
  unfold Pipeline.execute_filter in E. destruct (my_at_start t) eqn:Hst.
  { destruct Hok as [Hk Hok]. rewrite Hk in E.
    assert ((filters !! 0%nat ≫= λ f, first_filter null filters f v stopped t σ) = Some (ts, σ')) as E' by (by destruct (at_place t)).
    apply bind_Some in E' as (f & Hf & E'). by eapply (first_intake f). }
  destruct (at_place t) eqn:Hp; try done.
  - apply bind_Some in E as (f & Hf & E). injection E as <- <-. apply intake_none; try done; [apply not_returned; by rewrite Hp|..].
    + apply Forall_singleton. split; [by apply not_returned|]. unfold idle. simpl. by rewrite Hst.
    + rewrite calls_of_add by lia. unfold bump. by rewrite decide_False by lia.
  - apply bind_Some in E as (f & Hf & E). injection E as <- <-. apply intake_none; try done; [apply not_returned; by rewrite Hp|..].
    apply Forall_singleton. split; [apply not_returned; simpl; by destruct (is_serial f)|]. unfold idle. simpl. by destruct (is_serial f).
  - apply bind_Some in E as (f & Hf & E). apply bind_Some in E as (b & Eb & E). simpl in E. injection E as <- <-.
    apply intake_none; try done; [apply not_returned; by rewrite Hp|..]. constructor; [split; [by apply not_returned|done]|].
    case_match; [|done]. apply Forall_singleton. split; [by apply not_returned|done].
  - assert (Hnr : ¬ returned t) by (apply not_returned; by rewrite Hp).
    unfold advance_task in E. destruct (filters !! S (my_filter t)) as [f|] eqn:Ef.
    + destruct (is_serial f) eqn:Es.
      * apply bind_Some in E as (b & Eb & E). apply bind_Some in E as ([[placed i] b'] & Ep & E). injection E as <- <-.
        destruct (note_order_same (info t) i (set_buffer (S (my_filter t)) b' σ)) as (_ & B1 & _ & B2 & B3).
        apply intake_none; try done; [|unfold calls_of; by rewrite B1].
        destruct placed; [done|]. apply Forall_singleton. split; [by apply not_returned|done].
      * injection E as <- <-. apply intake_none; try done. apply Forall_singleton. split; [by apply not_returned|done].
    + injection E as <- <-. apply lookup_ge_None in Ef. apply intake_none; try done.
      * destruct (Z.ltb_spec 0 (input_tokens σ)); [done|]. apply Forall_singleton. split; [by apply not_returned|auto].
      * rewrite calls_of_add by (simpl; lia). unfold bump. by rewrite decide_False by lia.
  - injection E as <- <-. apply intake_none; try done; [apply not_returned; by rewrite Hp|..]. case_match; [done|].
    apply Forall_singleton. split; [by apply not_returned|]. left. unfold idle. by rewrite Hp.
Qed.

(** A task that has its first item, with a serial first filter, is the only one without a token. *)
Lemma accepting_idle t : task_ok t → serial 0 → returned t → idle t = true.
Proof.
  intros Hok Hs [st Hp]. unfold task_ok in Hok. rewrite Hp in Hok. unfold idle. rewrite Hp.
  destruct (my_at_start t); [|done]. simpl. by apply bool_decide_true.
Qed.
Lemma omap_accepting_nil ts : (∀ t, t ∈ ts → ¬ returned t) → omap accepting ts = [].
Proof.
  intros Hn. induction ts as [|t ts IH]; [done|]. change (t :: ts) with ([t] ++ ts). rewrite omap_app, IH by (intros t' ?; apply Hn; by right).
  simpl. unfold accepting. destruct (at_place t) as [| |st| | | | |] eqn:Hp; try done. destruct (Hn t); [by left|by exists st].
Qed.
Lemma idle_only l1 t l2 t' : idles (l1 ++ t :: l2) ≤ 1 → idle t = true → t' ∈ l1 ++ l2 → idle t' = false.
Proof.
  intros Hle Hid Hin. destruct (idle t') eqn:E; [|done]. change (t :: l2) with ([t] ++ l2) in Hle.
  assert (idles (l1 ++ [t] ++ l2) = 1 + idles (l1 ++ l2)) as Eq by (rewrite !idles_app, idles_one, Hid; lia).
  apply list_elem_of_split in Hin as (k1 & k2 & Ek). rewrite Eq, Ek, idles_app in Hle. change (t' :: k2) with ([t'] ++ k2) in Hle.
  rewrite idles_app, idles_one, E in Hle. pose proof (idles_nonneg k1). pose proof (idles_nonneg k2). lia.
Qed.

Section input.
Context (n : Z) σ t (l1 l2 ts : list (stage_task V)) σ'.
Hypothesis (Hi : inv σ) (Htk : tokens_ok n σ) (Hin : input_ok σ) (Ht : tasks σ = l1 ++ t :: l2).
Hypothesis (Hd : delta t ts σ σ') (Htake : intake t ts σ σ').

Lemma in_tasks t' : t' ∈ tasks σ ↔ t' = t ∨ t' ∈ l1 ++ l2.
Proof. rewrite Ht. apply elem_of_part. Qed.
Lemma others_not_idle t' : idle t = true → t' ∈ l1 ++ l2 → idle t' = false.
Proof. intros Hid. apply (idle_only l1 t l2); [|done]. rewrite <- Ht. apply Htk. Qed.
Lemma idle_token : idle t = true → 1 ≤ input_tokens σ.
Proof.
  intros Hid. pose proof (tk_pos _ _ Htk) as Hp. rewrite Ht in Hp. change (t :: l2) with ([t] ++ l2) in Hp.
  rewrite !idles_app, idles_one, Hid in Hp. pose proof (idles_nonneg l1). pose proof (idles_nonneg l2). lia.
Qed.
Lemma returned_idle : serial 0 → returned t → idle t = true.
Proof. intros. apply accepting_idle; [|done..]. apply (iv_tasks _ Hi), in_tasks. by left. Qed.

Lemma intake_end : serial 0 → end_of_input σ' = true →
  1 ≤ input_tokens σ' ∧ ∀ t', t' ∈ l1 ++ ts ++ l2 → idle t' = true → at_place t' = Returned true.
Proof.
  intros Hs He. pose proof (in_end _ Hin Hs) as Hend.
  assert (Hold : end_of_input σ = true → idle t = true → at_place t = Returned true) by (intros; apply Hend; [done|apply in_tasks; by left|done]).
  assert (Hrest : end_of_input σ = true ∨ idle t = true → ∀ t', t' ∈ l1 ++ l2 → idle t' = true → at_place t' = Returned true).
  { intros [E|E] t' Hin' Hid'; [apply (Hend E); [apply in_tasks; by right|done]|]. rewrite (others_not_idle t' E Hin') in Hid'. done. }
  destruct Htake as [N1 N2 _ _ N3|f v stopped _ _ Hst Hp -> _ _ _ Etk _ Ee|st f Hf Hp _ N1 _ N2 _ _ Etk Ee|st f _ Hp _ -> _ _ _ _ Etk _].
  - rewrite N3 in He. destruct (Hend He) as [Htok _]. assert (Hni : idle t = false).
    { destruct (idle t) eqn:Eid; [|done]. destruct N1. exists true. by apply Hold. }
    split; [destruct Hd; congruence || lia|]. intros t' [Hin'|Hin']%elem_of_replaced Hid'; [|by apply Hrest; auto].
    rewrite Forall_forall in N2. destruct (N2 t' Hin') as [_ Hx]. destruct (Hx Hid'); [congruence|lia].
  - assert (Hid : idle t = true) by (unfold idle; rewrite Hp, Hst; by apply bool_decide_true). pose proof (idle_token Hid). split; [lia|].
    intros t' [->%list_elem_of_singleton|Hin']%elem_of_replaced Hid'; [|apply Hrest; auto]. simpl.
    destruct Ee as [Ee|(-> & _)]; [|done]. rewrite Ee in He. specialize (Hold He Hid). congruence.
  - exfalso. rewrite Ee in He. assert (Hid : idle t = true) by (apply returned_idle; [done|by exists st]).
    specialize (Hold He Hid). destruct (N1 Hs) as [Hv|[_ Hv]]; [|congruence]. apply Hv, (in_returned _ Hin t f); [apply in_tasks; by left|done..].
  - assert (Hid : idle t = true) by (apply returned_idle; [done|by exists st]). pose proof (idle_token Hid). split; [lia|].
    intros t' [Hin'|Hin']%elem_of_replaced Hid'; [by apply elem_of_nil in Hin'|apply Hrest; auto].
Qed.

Lemma accepting_split : omap accepting (tasks σ) ≡ₚ option_list (accepting t) ++ omap accepting (l1 ++ l2) ∧
  omap accepting (l1 ++ ts ++ l2) ≡ₚ omap accepting ts ++ omap accepting (l1 ++ l2) ∧
  (idle t = true → serial 0 → omap accepting (l1 ++ l2) = [] ∧
    omap accepting (tasks σ) = option_list (accepting t) ∧ omap accepting (l1 ++ ts ++ l2) = omap accepting ts).
Proof.
  rewrite Ht, !omap_app. change (t :: l2) with ([t] ++ l2). rewrite omap_app.
  assert (E : omap accepting [t] = option_list (accepting t)) by (simpl; by destruct (accepting t)). rewrite E. split_and!; [solve_Permutation..|].
  intros Hid Hs. assert (Hnil : ∀ t', t' ∈ l1 ++ l2 → ¬ returned t').
  { intros t' Hin' Hr. pose proof (others_not_idle t' Hid Hin'). assert (idle t' = true); [|congruence].
    apply accepting_idle; [|done..]. apply (iv_tasks _ Hi), in_tasks. by right. }
  rewrite !(omap_accepting_nil l1), !(omap_accepting_nil l2); [simpl; by rewrite !app_nil_r|intros; apply Hnil, elem_of_app; auto..].
Qed.
Lemma intake_produced (Hend : end_of_input σ = true → end_of_input σ' = true) :
  ∃ l l', produced σ' = produced σ ++ l ∧ calls_of σ' 0 = calls_of σ 0 ++ l' ∧ option_list (accepting t) ++ l = l' ++ omap accepting ts ∧
    (l ≠ [] ∨ l' ≠ [] → serial 0 → idle t = true).
Proof.
  assert (Hint : t ∈ tasks σ) by (apply in_tasks; by left).
  assert (Hret : ∀ st, at_place t = Returned st → accepting t = if st then None else Some (my_object (info t))).
  { intros st Hp. unfold accepting. rewrite Hp. by destruct st. }
  assert (Hnone : ¬ returned t → accepting t = None).
  { intros Hn. unfold accepting. destruct (at_place t) as [| |st| | | | |] eqn:Hp; try done. destruct Hn. by exists st. }
  destruct Htake as [N1 N2 Ep Ec _|f v stopped _ Hn Hst Hp Ets _ Ep Ec _ _ _|st f Hf Hp _ N1 N1' N2 Ep Ec _ _|st f Hf Hp _ Ets N1 N1' Ep Ec _ _].
  - exists [], []. rewrite Hnone, !app_nil_r, omap_accepting_nil by (done || (intros t' Ht'; rewrite Forall_forall in N2; by apply N2)).
    split_and!; [done..|by intros [[]|[]]].
  - exists (if stopped then [] else [v]), []. rewrite Hnone, app_nil_r, Ets by done. split_and!; [done..|by destruct stopped|].
    intros _ Hs. unfold idle. rewrite Hp, Hst. by apply bool_decide_true.
  - exists [], [my_object (info t)]. rewrite app_nil_r, (omap_accepting_nil ts) by (intros t' Ht'; rewrite Forall_forall in N2; by apply N2).
    split_and!; [done|done| |intros _ Hs; apply returned_idle; [done|by exists st]]. rewrite (Hret st Hp), app_nil_r. destruct st; [exfalso|done].
    destruct (in_returned _ Hin t f Hint Hp Hf) as [Hv He]. destruct (decide (serial 0)) as [Hs|Hs].
    + destruct (N1 Hs) as [?|[Hm Hfalse]]; [done|]. rewrite He in Hfalse; done.
    + by destruct (N1' Hs).
  - exists [], []. rewrite !app_nil_r, Ets. simpl. split_and!; [done..| |by intros [[]|[]]]. rewrite (Hret st Hp). destruct st; [done|exfalso].
    destruct (decide (serial 0)) as [Hs|Hs].
    + destruct (N1 Hs) as [Hv Hx]. destruct (in_null _ Hin t f Hint Hp Hf) as [?|Hm]; [done|]. destruct Hx as [Hx|Hx]; [congruence|].
      destruct (in_end _ Hin Hs Hx) as [_ Hall]. specialize (Hall t Hint (returned_idle Hs (ex_intro _ false Hp))). congruence.
    + destruct (N1' Hs) as [Hv Hx]. destruct (in_null _ Hin t f Hint Hp Hf) as [?|Hm]; [done|]. destruct Hx as [Hx|Hx]; congruence.
Qed.

(** The tasks that the step leaves after a call of the first filter. *)
Lemma intake_returned t' st f : t' ∈ ts → at_place t' = Returned st → filters !! 0%nat = Some f →
  if st then my_object (info t') = null ∧ (serial 0 → object_may_be_null f = true → end_of_input σ' = true)
  else my_object (info t') ≠ null ∨ object_may_be_null f = true.
Proof.
  intros Hin' Hp Hf. destruct Htake as [_ N2 _ _ _|f' v stopped Hf' _ _ _ Ets Hv _ _ _ Hm _|st' f' _ _ _ _ _ N2 _ _ _ _|st' f' _ _ _ Ets _ _ _ _ _ _].
  - rewrite Forall_forall in N2. destruct (N2 t' Hin') as [[] _]. by exists st.
  - rewrite Ets in Hin'. apply list_elem_of_singleton in Hin' as ->. simpl in *. injection Hp as <-. assert (f' = f) as -> by congruence.
    by destruct stopped; auto.
  - rewrite Forall_forall in N2. destruct (N2 t' Hin'). by exists st.
  - rewrite Ets in Hin'. by apply elem_of_nil in Hin'.
Qed.

Lemma intake_input (Hend : end_of_input σ = true → end_of_input σ' = true) : input_ok (set_tasks (l1 ++ ts ++ l2) σ').
Proof.
  destruct (intake_produced Hend) as (l & l' & Ep & Ec & El & Hid). destruct accepting_split as (A1 & A2 & A3).
  assert (Hcs : calls_of (set_tasks (l1 ++ ts ++ l2) σ') 0 = calls_of σ 0 ++ l') by exact Ec.
  split; simpl; try rewrite Hcs.
  - apply intake_end.
  - rewrite Ep, (in_produced _ Hin), A1, A2. rewrite <- !app_assoc. f_equiv.
    rewrite (Permutation_app_comm (omap accepting (l1 ++ l2)) l), app_assoc, El. by rewrite <- app_assoc.
  - intros Hs. rewrite Ep, (in_produced_serial _ Hin Hs), <- !app_assoc. f_equal.
    destruct (decide (idle t = true)) as [Hi'|Hni].
    + destruct (A3 Hi' Hs) as (_ & -> & ->). done.
    + assert (l = [] ∧ l' = []) as [-> ->]. { destruct l; [|destruct Hni; apply Hid; [left|]; done]. destruct l'; [done|]. destruct Hni. apply Hid; [right|]; done. }
      simpl in *. rewrite app_nil_r in *. rewrite Ht, !omap_app. change (t :: l2) with ([t] ++ l2). rewrite omap_app, <- El. simpl. by destruct (accepting t).
  - intros t' f [Hin'|Hin']%elem_of_replaced Hp Hf.
    + by apply (intake_returned t' true f).
    + destruct (in_returned _ Hin t' f) as [? He]; [apply in_tasks; by right|done..|]. split; [done|]. auto.
  - intros t' f [Hin'|Hin']%elem_of_replaced Hp Hf; [|apply (in_null _ Hin t' f); [apply in_tasks; by right|done..]].
    by apply (intake_returned t' false f).
Qed.
End input.
End spec.
End PipelineSpec.
