(* ===== verification/PipelineTheorems.v ===== *)
(** * Correctness of parallel_pipeline

    The theorems about [Pipeline]: first with the specification of the buffers,
    then, by a simulation, with the circular arrays and the tokens of machine
    width. *)

From S2P Require Import Prelude InputBuffer Pipeline.
From stdpp Require Import base numbers relations gmap list.
From Stdlib Require Import ZArith Lia.
Local Open Scope Z_scope.

Module PipelineSafety.
Import Waiting Pipeline PipelineSpec.

(** A step does not produce an item if the first filter stops. *)
Lemma stopped_produced {V B : Type} `{EqDecision V} `{Buffer V B} (null : V) filters v t (σ : state V B) ts σ' : execute_filter null filters v true t σ = Some (ts, σ') → produced σ' = produced σ.
Proof.
  unfold execute_filter, first_filter, advance_task, try_spawn_stage_task, note_order.
  intros E. repeat (match goal with H : _ ≫= _ = Some _ |- _ => apply bind_Some in H as (? & ? & H) end || case_match || simplify_eq/=); done.
Qed.

Section safety.
Context {V : Type} `{EqDecision V} (null : V) (filters : list (base_filter V)) (Hlen : (1 ≤ length filters)%nat).
Local Abbreviation len := (length filters).
Local Abbreviation state := (state V (waiting V)).
Local Abbreviation step := (step null filters).
Local Abbreviation function := (function filters).
Local Abbreviation in_order := (in_order filters).
Local Abbreviation serial := (serial filters).
Local Abbreviation flight := (flight filters).
Implicit Types (t : stage_task V) (σ : state) (i : task_info V).

Record good (n : Z) σ : Prop := {
  gd_inv : inv filters σ;
  gd_tokens : tokens_ok filters n σ;
  gd_input : input_ok null filters σ;
}.

Lemma step_good n σ σ' : good n σ → step σ σ' → good n σ'.
Proof.
  intros [Hi Ht Hin] Hst. split; [by eapply step_invariant|by eapply step_tokens|].
  destruct Hst as [l1 t l2 v stopped ts σ σ' El E]. pose proof (step_delta _ _ σ l1 t l2 v stopped ts σ' Hi El E) as Hd.
  eapply intake_input; try done; [by eapply step_intake|].
  destruct Hd as [_ _ _ [-> | ->]| | |? ? ? ? ? ->|? ? ? ? ? ->]; done.
Qed.

Lemma start_good n σ : 1 ≤ n → start null filters n = Some σ → good n σ.
Proof.
  intros Hn E. pose proof (start_invariant null filters n σ E) as Hi. split; [done|..]; unfold start in E;
    apply bind_Some in E as (bs & Ebs & E); injection E as <-.
  - assert (Hw : waits bs = 0).
    { unfold waits. assert (waiting_from 0 bs = []) as ->; [|done]. apply concat_nil_Forall, Forall_forall. intros x.
      rewrite elem_of_lookup_imap. intros (k & b & -> & Hk).
      destruct (Forall2_lookup_r _ _ _ _ _ (mapM_Some_1 _ _ _ Ebs) Hk) as (f & _ & [= <-]). by unfold waiting_at. }
    split; simpl; rewrite ?Hw; unfold idles, held, zsum; simpl; lia.
  - assert (Hc : calls_of (State (B := waiting V) n false bs [input_task null] [] (replicate (S len) []) []) 0 = []) by done.
    split; try done; simpl; rewrite ?Hc; try done; intros t f ->%list_elem_of_singleton; done.
Qed.

Lemma reach_good n σ σ' : good n σ → rtc step σ σ' → good n σ'.
Proof. intros Hg. induction 1 as [|σ σ1 σ2 Hst _ IH]; [done|]. by apply IH, (step_good n σ). Qed.

(** *** Every task can go on *)
Lemma can_go_on n σ t : good n σ → t ∈ tasks σ → ∃ ts σ', execute_filter null filters null true t σ = Some (ts, σ').
Proof.
  intros [Hi _ _] Hin. pose proof (iv_tasks _ _ Hi t Hin) as Hok. destruct (iv_buffers _ _ Hi) as [Hb _]. unfold task_ok in Hok.
  unfold execute_filter. destruct (my_at_start t) eqn:Hst.
  - destruct Hok as [Hk Hok]. rewrite Hk. destruct (lookup_lt_is_Some_2 filters 0) as [f Hf]; [lia|].
    destruct (lookup_lt_is_Some_2 (buffers σ) 0) as [b Eb]; [lia|]. rewrite Hf. cbn [mbind option_bind]. unfold first_filter.
    destruct (at_place t); try done; try (by repeat case_match; eauto).
    + rewrite bool_decide_true by done. eauto.
    + rewrite Eb. repeat (case_match || case_decide); simplify_eq/=; eauto.
  - destruct (at_place t); try done; try (destruct (lookup_lt_is_Some_2 filters (my_filter t)) as [f ->]; [lia|]); try (simpl; eauto; done).
    + destruct Hok as [Hk (f & Hf & Hs)]. rewrite Hf. pose proof (lookup_lt_Some _ _ _ Hf).
      destruct (lookup_lt_is_Some_2 (buffers σ) (my_filter t)) as [b Eb]; [lia|]. simpl. rewrite Eb. simpl. eauto.
    + unfold advance_task. destruct (filters !! S (my_filter t)) as [f'|] eqn:Hf; [|eauto]. pose proof (lookup_lt_Some _ _ _ Hf).
      destruct (is_serial f'); [|eauto]. destruct (lookup_lt_is_Some_2 (buffers σ) (S (my_filter t))) as [b Eb]; [lia|]. rewrite Eb. simpl.
      unfold wait_put. destruct (choose _ _) as [[tok i] b']. case_match; simpl; eauto.
Qed.

(** *** Serial filters run one call at a time *)
Definition in_call (k : nat) t : bool := (my_filter t =? k)%nat && match at_place t with Calling => true | _ => false end.

Lemma in_call_served k t : (1 ≤ k)%nat → task_ok filters t → in_call k t = true → ∃ x, served k t = Some x.
Proof.
  intros Hk Hok [Hf Hp]%andb_true_iff. unfold task_ok, served in *. destruct (at_place t); try done.
  destruct (my_at_start t); [apply Nat.eqb_eq in Hf; lia|]. rewrite Hf. simpl. eauto.
Qed.

Lemma one_call n σ k : good n σ → serial k → (length (filter (λ t, in_call k t = true) (tasks σ)) ≤ 1)%nat.
Proof.
  intros [Hi Ht _] Hs. pose proof (iv_tasks _ _ Hi) as Hok. destruct (iv_buffers _ _ Hi) as [Hb _].
  destruct (decide (k = 0%nat)) as [->|Hk].
  - assert (Hle : Z.of_nat (length (filter (λ t, in_call 0 t = true) (tasks σ))) ≤ idles filters (tasks σ)).
    { revert Hok. clear -Hs Hlen. induction (tasks σ) as [|t ts IH]; [done|]. intros Hok. rewrite filter_cons. change (t :: ts) with ([t] ++ ts).
      rewrite idles_app, idles_one. specialize (IH ltac:(intros t' ?; apply Hok; by right)). case_decide as Hc; [|destruct (idle filters t); lia].
      simpl. assert (idle filters t = true) as ->; [|lia]. apply andb_true_iff in Hc as [Hf Hp]. pose proof (Hok t ltac:(by left)) as Ht.
      unfold task_ok in Ht. unfold idle. destruct (at_place t); try done. apply Nat.eqb_eq in Hf.
      destruct (my_at_start t); [by apply bool_decide_true|lia]. }
    pose proof (tk_idle _ _ _ Ht). lia.
  - destruct (lookup_lt_is_Some_2 (buffers σ) k) as [b Eb]; [destruct Hs as (f & ?%lookup_lt_Some & _); lia|].
    pose proof (sv_one _ _ _ _ _ (iv_service _ _ Hi k b ltac:(lia) Hs Eb)) as H1. etrans; [|exact H1]. unfold serving.
    revert Hok. clear -Hk Hlen. induction (tasks σ) as [|t ts IH]; intros Hok; [done|]. rewrite filter_cons.
    specialize (IH ltac:(intros t' ?; apply Hok; by right)). change (t :: ts) with ([t] ++ ts). rewrite omap_app, length_app.
    case_decide as Hc; simpl; [|destruct (served k t); simpl; lia].
    destruct (in_call_served k t) as [x ->]; [lia|apply Hok; by left|done|]. simpl. lia.
Qed.

(** *** The order of the calls *)
Definition way (j k : nat) (v : V) : V := foldl (λ v m, function m v) v (seq j (k - j)).
Lemma way_refl k v : way k k v = v.
Proof. unfold way. by rewrite Nat.sub_diag. Qed.
Lemma way_S j k v : (j ≤ k)%nat → way j (S k) v = function k (way j k v).
Proof.
  intros Hjk. unfold way. replace (S k - j)%nat with (S (k - j)) by lia. rewrite seq_S, foldl_app. simpl. f_equal. lia.
Qed.
Lemma way_trans (a j k : nat) v : (a ≤ j ≤ k)%nat → way a k v = way j k (way a j v).
Proof.
  intros [Hij Hjk]. induction Hjk as [|k Hjk IH]; [by rewrite way_refl|]. rewrite !way_S by lia. by rewrite IH.
Qed.

(** An earlier filter has had at least as many calls. *)
Lemma calls_decrease n σ j k : good n σ → (j ≤ k ≤ len)%nat → (length (calls_of σ k) ≤ length (calls_of σ j))%nat.
Proof.
  intros [Hi _ _] [Hjk Hk]. induction Hjk as [|k Hjk IH]; [lia|]. specialize (IH ltac:(lia)).
  pose proof (it_conserved _ _ (iv_items _ _ Hi) k ltac:(lia)) as Hc. apply Permutation_length in Hc.
  rewrite length_fmap, length_app in Hc. lia.
Qed.

Lemma calls_order n σ j k : good n σ → in_order j → in_order k → (j < k)%nat →
  calls_of σ k `prefix_of` (way j k <$> calls_of σ j).
Proof.
  intros Hg Hj Hk Hjk. pose proof Hg as [Hi _ _]. pose proof (iv_items _ _ Hi) as [_ _ Ho [Hfst _]].
  destruct (or_calls _ _ _ _ Ho k Hk) as [Ek Lk]; [lia|].
  assert (Hkl : (k < len)%nat) by (by destruct Hk as (f & ?%lookup_lt_Some & _)).
  pose proof (calls_decrease n σ j k Hg ltac:(lia)) as Hle. pose proof (origin_le filters j Hj) as Hor.
  assert (Hway : ∀ m v, (origin filters ≤ m)%nat → path filters m v = way (origin filters) m v) by done.
  destruct (decide (j = 0%nat)) as [->|Hj0].
  - assert (origin filters = 1%nat) as Eo by (unfold origin in *; lia). rewrite <- (Hfst Hj), Ek.
    exists (path filters k <$> drop (length (calls_of σ k)) (order σ)). rewrite <- fmap_app, take_drop.
    apply list_fmap_ext. intros x v _. rewrite Hway, Eo by lia. by rewrite (way_trans 0 1 k) by lia.
  - destruct (or_calls _ _ _ _ Ho j Hj) as [Ej Lj]; [lia|]. rewrite Ej, <- list_fmap_compose.
    exists (way j k ∘ path filters j <$> drop (length (calls_of σ k)) (take (length (calls_of σ j)) (order σ))).
    rewrite Ek at 1. rewrite <- (take_drop (length (calls_of σ k)) (take (length (calls_of σ j)) (order σ))) at 1.
    rewrite fmap_app, take_take, Nat.min_l by done. f_equal. apply list_fmap_ext. intros x v _. unfold compose.
    rewrite !Hway by lia. symmetry. apply way_trans. lia.
Qed.


(** *** Nothing is left behind *)

(** Keys of a map in an interval. *)
Lemma keys_bound (m : gmap Z (task_info V)) (a b : Z) : (∀ k i, m !! k = Some i → a < k < b) → m ≠ ∅ → Z.of_nat (size m) < b - a.
Proof.
  intros Hk Hne. assert (Hsub : (map_to_list m).*1 ⊆+ seqZ (a + 1) (b - a - 1)).
  { apply NoDup_submseteq; [apply NoDup_fst_map_to_list|]. intros k ([k' i] & -> & Hi)%list_elem_of_fmap. simpl.
    apply elem_of_map_to_list in Hi. specialize (Hk _ _ Hi). apply elem_of_seqZ. lia. }
  apply submseteq_length in Hsub. rewrite length_fmap, length_map_to_list, length_seqZ in Hsub.
  destruct (map_choose m Hne) as (k & i & Hi). specialize (Hk _ _ Hi). lia.
Qed.

Lemma unready_zero (F : list (nat * task_info V)) : (∀ s i, (s, i) ∈ F → my_token_ready i = true) → unready F = 0%nat.
Proof.
  intros Hr. unfold unready. apply length_zero_iff_nil. apply elem_of_nil_inv. intros [s i] [Hf Hin]%list_elem_of_filter.
  specialize (Hr _ _ Hin). simpl in Hf. congruence.
Qed.

(** If nothing waits before filter [k], all items have passed the filters before it. *)
Lemma calls_before σ k : inv filters σ → (k ≤ len)%nat → (∀ s i, (s, i) ∈ flight σ → (k < s)%nat) →
  length (calls_of σ k) = length (calls_of σ 0).
Proof.
  intros Hi Hk Hfl. induction k as [|k IH]; [done|]. rewrite <- IH; [|lia|intros s i Hx; specialize (Hfl s i Hx); lia].
  pose proof (it_conserved _ _ (iv_items _ _ Hi) k ltac:(lia)) as Hc. apply Permutation_length in Hc.
  rewrite length_fmap, length_app in Hc. assert (at_stage (S k) (flight σ) = []) as E; [|rewrite E in Hc; simpl in Hc; lia].
  unfold at_stage. assert (filter (λ x, x.1 = S k) (flight σ) = []) as ->; [|done].
  apply elem_of_nil_inv. intros [s i] [Hf Hin]%list_elem_of_filter. specialize (Hfl s i Hin). simpl in Hf. lia.
Qed.

Lemma waiting_from_inv (m : nat) (bs : list (waiting V)) s i : (s, i) ∈ waiting_from m bs →
  ∃ j b tok, s = (m + j)%nat ∧ bs !! j = Some b ∧ pend b !! tok = Some i.
Proof.
  intros Hx. unfold waiting_from in Hx. apply list_elem_of_In, in_concat in Hx as (l & Hl & Hx). apply list_elem_of_In in Hl, Hx.
  apply elem_of_lookup_imap in Hl as (j & b & -> & Hb). apply list_elem_of_fmap in Hx as ([tok i'] & [= -> ->] & Hx).
  exists j, b, tok. split_and!; [done..|]. by apply elem_of_map_to_list.
Qed.

Lemma at_stage_waiting σ k b : inv filters σ → tasks σ = [] → buffers σ !! k = Some b →
  length (at_stage k (flight σ)) = size (pend b).
Proof.
  intros Hi Ht Eb. unfold at_stage, flight. rewrite Ht, length_fmap. simpl.
  assert (Hgen : ∀ j (bs : list (waiting V)), length (filter (λ x, x.1 = (j + k)%nat) (waiting_from j bs)) = default 0%nat (size ∘ pend <$> bs !! k)).
  2: { pose proof (Hgen 0%nat (buffers σ)) as Hg. rewrite Eb in Hg. exact Hg. }
  clear. intros j bs. revert j k. induction bs as [|b bs IH]; intros j k; [done|]. rewrite waiting_from_cons, filter_app, length_app.
  assert (Hw : ∀ m, length (filter (λ x, x.1 = m) (waiting_at j b)) = if decide (m = j) then size (pend b) else 0%nat).
  { intros m. unfold waiting_at. rewrite <- length_map_to_list. induction (map_to_list (pend b)) as [|x l IHl]; [by case_decide|].
    rewrite fmap_cons, filter_cons. simpl. destruct (decide (m = j)) as [->|Hne]; [rewrite decide_True by done; simpl; by rewrite IHl|].
    rewrite decide_False by done. done. }
  rewrite Hw. destruct k as [|k]; simpl.
  - rewrite Nat.add_0_r, decide_True by done. assert (filter (λ x, x.1 = j) (waiting_from (S j) bs) = []) as ->; [|simpl; lia].
    apply elem_of_nil_inv. intros [s i] [Hf Hin]%list_elem_of_filter. simpl in Hf. subst s.
    destruct (waiting_from_inv _ _ _ _ Hin) as (m & b' & tok & ? & _). lia.
  - rewrite decide_False by lia. specialize (IH (S j) k). replace (S j + k)%nat with (j + S k)%nat in IH by lia. by rewrite IH.
Qed.

(** The first filter with items that wait. *)
Lemma first_waiting σ : inv filters σ → tasks σ = [] → flight σ ≠ [] → ∃ k b tok i, buffers σ !! k = Some b ∧ pend b !! tok = Some i ∧
  (1 ≤ k < len)%nat ∧ serial k ∧ ∀ s i, (s, i) ∈ flight σ → (k ≤ s)%nat ∧ ∃ b tok, buffers σ !! s = Some b ∧ pend b !! tok = Some i.
Proof.
  intros Hi Ht Hne. pose proof (it_ordering _ _ (iv_items _ _ Hi)) as Ho.
  assert (Hb : ∀ s i, (s, i) ∈ flight σ → ∃ b tok, buffers σ !! s = Some b ∧ pend b !! tok = Some i).
  { intros s i Hx. unfold flight in Hx. rewrite Ht in Hx.
    destruct (waiting_from_inv _ _ _ _ Hx) as (j & b & tok & -> & Hb). eauto. }
  assert (Hex : ∃ k, (∃ i, (k, i) ∈ flight σ) ∧ ∀ s i, (s, i) ∈ flight σ → (k ≤ s)%nat).
  { clear -Hne. induction (flight σ) as [|[s i] F IH]; [done|]. destruct (decide (F = [])) as [-> | HF].
    - exists s. split; [exists i; by left|]. intros s' i' [[= -> _]|?%elem_of_nil]%elem_of_cons; done.
    - destruct (IH HF) as (k & [i' Hi'] & Hmin). exists (s `min` k)%nat. split.
      + destruct (Nat.min_spec s k) as [[_ ->]|[_ ->]]; [exists i; by left|exists i'; by right].
      + intros s' i'' [[= -> _]|Hx]%elem_of_cons; [lia|]. specialize (Hmin _ _ Hx). lia. }
  destruct Hex as (k & [i Hki] & Hmin). destruct (Hb _ _ Hki) as (b & tok & Eb & Ep).
  pose proof (or_stage _ _ _ _ Ho _ _ Hki) as Hk.
  assert (Hser : serial k). { apply dec_stable. intros Hn. pose proof (iv_unused _ _ Hi k b ltac:(by right) Eb) as Hu. by rewrite Hu in Ep. }
  exists k, b, tok, i. split_and!; [done..|lia|by destruct Hser as (f & ?%lookup_lt_Some & _)|done|eauto].
Qed.

Lemma nothing_waits σ : inv filters σ → tasks σ = [] → flight σ = [].
Proof.
  intros Hi Ht. destruct (flight σ) as [|x F] eqn:Efl; [done|exfalso]. assert (Hne : flight σ ≠ []) by (by rewrite Efl). clear x F Efl.
  destruct (first_waiting σ Hi Ht Hne) as (k & b & tok & i & Eb & Ep & Hk & Hser & Hmin).
  pose proof (iv_items _ _ Hi) as [_ Hcons Ho [_ Hcnt]].
  destruct (iv_service _ _ Hi k b ltac:(lia) Hser Eb) as [_ S2 _ S4 S5]. unfold serving in *. rewrite Ht in *. simpl in *.
  destruct (decide (in_order k)) as [Hio|Hno].
  2: { destruct (S5 Hno) as (Hle & Hp & HL). destruct (Hp tok) as [Hp1 _]. specialize (Hp1 ltac:(eauto)). destruct HL as [_ HL]. by apply HL; [lia|]. }
  assert (Hready : unready (flight σ) = 0%nat).
  { apply unready_zero. intros s j Hx. destruct (my_token_ready j) eqn:Hr; [done|]. pose proof (or_unready _ _ _ _ Ho s j k Hx Hr Hio).
    destruct (Hmin s j Hx) as (? & b' & tok' & Eb' & Ep'). assert (s = k) as -> by lia. simplify_eq.
    destruct (S4 _ _ Ep') as [_ Hj]. destruct (Hj Hio). congruence. }
  pose proof (Hcnt k Hio) as Hc0. rewrite Hready in Hc0. pose proof (calls_before σ (k - 1) Hi ltac:(lia)) as Hc1.
  rewrite Hc0 in Hc1. pose proof (Hcons (k - 1)%nat ltac:(lia)) as Hc. apply Permutation_length in Hc.
  replace (S (k - 1)) with k in Hc by lia. rewrite length_fmap, length_app, (at_stage_waiting σ k b Hi Ht Eb), Hc1 in Hc.
  2: { intros s j Hx. destruct (Hmin s j Hx). lia. }
  assert (Z.of_nat (size (pend b)) < Z.of_nat (length (order σ)) - low b); [|lia]. apply keys_bound.
  - intros tok' i' Hp. destruct (S4 _ _ Hp) as [Hlow Hj]. destruct (Hj Hio) as [Hr Hm]. split; [done|]. rewrite <- Hm.
    pose proof (flight_waiting filters σ k b tok' i' Eb Hp) as Hx. by destruct (token_bound _ _ _ _ _ _ Ho Hx Hr).
  - intros Hemp. by rewrite Hemp in Ep.
Qed.

(** What has happened when no task is left. *)
Lemma all_done n σ : 1 ≤ n → good n σ → tasks σ = [] →
  end_of_input σ = true ∧ produced σ ≡ₚ calls_of σ 0 ∧ (serial 0 → produced σ = calls_of σ 0) ∧
  ∀ k, (k ≤ len)%nat → calls_of σ k ≡ₚ way 0 k <$> calls_of σ 0.
Proof.
  intros Hn [Hi Htk Hin] Ht. pose proof (nothing_waits σ Hi Ht) as Hfl. split_and!.
  - destruct (end_of_input σ) eqn:He; [done|]. destruct (tk_open _ _ _ Htk He) as [E1 E2]. rewrite Ht in *.
    assert (waits (buffers σ) = 0) as Hw. { unfold waits. unfold flight in Hfl. rewrite Ht in Hfl. simpl in Hfl. by rewrite Hfl. }
    unfold idles, held, zsum in *. simpl in *. lia.
  - rewrite (in_produced _ _ _ Hin), Ht. simpl. by rewrite app_nil_r.
  - intros Hs. rewrite (in_produced_serial _ _ _ Hin Hs), Ht. simpl. by rewrite app_nil_r.
  - intros k. induction k as [|k IH]; intros Hk.
    + rewrite <- (list_fmap_id (calls_of σ 0)) at 1. apply reflexive_eq, list_fmap_ext. intros x v _. by rewrite way_refl.
    + pose proof (it_conserved _ _ (iv_items _ _ Hi) k ltac:(lia)) as Hc. rewrite Hfl in Hc. unfold at_stage in Hc. simpl in Hc.
      rewrite app_nil_r in Hc. rewrite <- Hc, IH by lia. rewrite <- list_fmap_compose. apply reflexive_eq, list_fmap_ext.
      intros x v _. unfold compose. by rewrite way_S by lia.
Qed.

(** *** Termination *)

(** How many steps a task, with the tasks it spawns, can still make; the first
    filter adds to it with every item. *)
Definition enter_weight (k : nat) : Z := 5 * (Z.of_nat len - Z.of_nat k) + 11.
Definition weight t : Z :=
  match at_place t with
  | Enter => if my_at_start t then 5 else enter_weight (my_filter t)
  | Calling => if my_at_start t then 4 else enter_weight (my_filter t) - 1
  | SpawnBefore => 4
  | Returned stopped => if stopped then 3 else 5 * Z.of_nat len + 9
  | SpawnAfter => 5 * Z.of_nat len + 8
  | NextToken => enter_weight (my_filter t) - 2
  | Advance => enter_weight (my_filter t) - 3
  | Recycle => 6
  end.
Definition waiting_weight (x : nat * task_info V) : Z := enter_weight x.1 + 1.
Definition work (ts : list (stage_task V)) σ : Z :=
  6 * input_tokens σ + zsum weight ts + zsum waiting_weight (waiting_from 0 (buffers σ)).
Definition item_work : Z := 5 * Z.of_nat len + 6.
Definition output σ : Z := Z.of_nat (length (produced σ)).

Lemma weight_one t : zsum weight [t] = weight t.
Proof. unfold zsum. simpl. lia. Qed.
Lemma weight_spawn (b : bool) : zsum weight (if b then [input_task null] else []) ≤ 5.
Proof. by destruct b. Qed.

Lemma waiting_insert_weight bs k b b' : bs !! k = Some b →
  zsum waiting_weight (waiting_from 0 (<[k := b']> bs)) =
  zsum waiting_weight (waiting_from 0 bs) + zsum waiting_weight (waiting_at k b') - zsum waiting_weight (waiting_at k b).
Proof.
  intros Hk. destruct (waiting_insert 0 bs k b b' Hk) as (R & E1 & E2). rewrite (zsum_perm _ _ _ E1), (zsum_perm _ _ _ E2), !zsum_app. simpl. lia.
Qed.

Lemma first_work f v stopped t ts σ σ' : filters !! 0%nat = Some f → task_ok filters t → my_at_start t = true →
  (at_place t = Returned true → my_object (info t) = null ∧ (serial 0 → object_may_be_null f = true → end_of_input σ = true)) →
  first_filter null filters f v stopped t σ = Some (ts, σ') →
  work ts σ' + 1 ≤ work [t] σ + item_work * (output σ' - output σ).
Proof.
  intros Hf Hok Hst Hret E. unfold task_ok in Hok. rewrite Hst in Hok. destruct Hok as [Hk Hok].
  assert (Hgo : ∀ p, weight (go p t) = weight (StageTask 0 true (info t) p)) by (intros p; unfold go; by rewrite Hk, Hst).
  unfold first_filter in E. unfold work, output, item_work. rewrite weight_one. unfold weight at 2.
  destruct (at_place t) as [| |st| | | | |] eqn:Hp; try done; rewrite ?Hst.
  - destruct (is_serial f); [|destruct (end_of_input σ)]; simplify_eq; rewrite ?weight_one, ?Hgo; unfold weight, enter_weight; simpl; rewrite ?zsum_nil; lia.
  - case_match; [|done]. simplify_eq. rewrite weight_one. unfold weight. simpl. destruct stopped; simpl.
    + destruct (object_may_be_null f && is_serial f); simpl; lia.
    + rewrite length_app. simpl. lia.
  - destruct (is_serial f) eqn:Es.
    + case_match eqn:Hc; [|simplify_eq; simpl; rewrite zsum_nil; destruct st; lia].
      assert (st = false) as ->.
      { destruct st; [exfalso|done]. destruct Hret as [Hnull Hend]; [done|]. rewrite bool_decide_false in Hc by (by intros []). simpl in Hc.
        apply andb_true_iff in Hc as [Hc1 Hc2]. rewrite Hend in Hc2; [done|by exists f|done]. }
      change (if is_ordered f then _ else _) with (first_token f t σ) in E. apply bind_Some in E as ([i σ1] & E1 & E).
      assert (zsum waiting_weight (waiting_from 0 (buffers σ1)) = zsum waiting_weight (waiting_from 0 (buffers σ)) ∧
        input_tokens σ1 = input_tokens σ ∧ produced σ1 = produced σ) as (W & T & En).
      { unfold first_token in E1. destruct (is_ordered f); [|by simplify_eq]. apply bind_Some in E1 as (b & Eb & E1). simpl in E1.
        injection E1 as <- <-. destruct (note_order_same (info t) (set_token (high b) (info t)) (set_buffer 0 (take_high b).2 σ)) as (B1 & _ & B2 & _ & B3).
        simpl in *. rewrite B1, B2, B3, (waiting_insert_weight _ _ b) by done. unfold waiting_at. simpl. split_and!; lia || done. }
      case_decide; simplify_eq; rewrite weight_one; simpl; rewrite W, T, En; unfold weight; simpl; lia.
    + case_match eqn:Hc; simplify_eq; simpl; [rewrite zsum_nil; destruct st; lia|]. rewrite weight_one. unfold weight, passed_start, enter_weight. simpl.
      rewrite Hk. destruct st; [exfalso|lia]. destruct Hret as [Hnull _]; [done|]. rewrite Hnull, orb_true_r in Hc. by rewrite bool_decide_true in Hc by done.
  - unfold try_spawn_stage_task in E. simplify_eq. rewrite zsum_cons, Hgo. pose proof (weight_spawn (1 <? input_tokens σ)). simpl. unfold weight at 1. simpl. lia.
  - unfold try_spawn_stage_task in E. simplify_eq. rewrite zsum_cons. pose proof (weight_spawn (1 <? input_tokens σ)). simpl. unfold weight at 1, passed_start, enter_weight. simpl.
    rewrite Hk. lia.
Qed.

Lemma put_work σ l1 t l2 k b placed i b' :
  inv filters σ → tasks σ = l1 ++ t :: l2 → at_place t = Advance → k = S (my_filter t) → serial k → buffers σ !! k = Some b →
  wait_put (info t) b = Some (placed, i, b') →
  work (if placed then [] else [item_task k i]) (note_order (info t) i (set_buffer k b' σ)) + 1 ≤ work [t] σ.
Proof.
  intros Hi Ht Hp Ek Hser Eb Eput.
  destruct (arrival filters σ l1 t l2 k b Hi Ht) as (Hfree & _); [unfold dest; by rewrite Hp, Ek|by apply served_advance|done|done|].
  apply wait_put_spec in Eput as (_ & _ & _ & _ & _ & _ & _ & Epe).
  destruct (note_order_same (info t) i (set_buffer k b' σ)) as (Hb & _ & Hn & _). unfold work. rewrite Hb, Hn, weight_one. simpl.
  rewrite (waiting_insert_weight _ _ _ _ Eb). unfold weight at 2. rewrite Hp. unfold enter_weight. destruct placed.
  - assert (Hw : waiting_at k b' ≡ₚ (k, i) :: waiting_at k b) by (unfold waiting_at; by rewrite Epe, map_to_list_insert).
    rewrite (zsum_perm _ _ _ Hw), zsum_cons, zsum_nil. change (waiting_weight (k, i)) with (enter_weight k + 1). unfold enter_weight. lia.
  - assert (Hw : waiting_at k b' = waiting_at k b) by (unfold waiting_at; by rewrite Epe).
    rewrite Hw, weight_one. unfold weight, enter_weight. simpl. lia.
Qed.

Lemma next_work σ t k b : buffers σ !! k = Some b → my_filter t = k → at_place t = NextToken →
  work (go Advance t :: match pend b !! (low b + 1) with Some i => [item_task k i] | None => [] end)
    (set_buffer k (Waits (low b + 1) (high b) (ordered b) (delete (low b + 1) (pend b))) σ) + 1 ≤ work [t] σ.
Proof.
  intros Eb Hk Hp. unfold work. rewrite weight_one, zsum_cons. simpl. rewrite (waiting_insert_weight _ _ _ _ Eb), (zsum_perm _ _ _ (waiting_take k b)), zsum_app.
  unfold weight at 1 3. rewrite Hp. simpl. rewrite Hk. unfold enter_weight.
  destruct (pend b !! (low b + 1)) as [i|]; simpl; rewrite ?weight_one, ?zsum_cons, ?zsum_nil; [|lia].
  change (waiting_weight (k, i)) with (enter_weight k + 1). unfold weight, enter_weight. simpl. lia.
Qed.

Lemma task_work n σ l1 t l2 v stopped ts σ' : good n σ → tasks σ = l1 ++ t :: l2 →
  execute_filter null filters v stopped t σ = Some (ts, σ') →
  work ts σ' + 1 ≤ work [t] σ + item_work * (output σ' - output σ).
Proof.
  intros [Hi _ Hin] Ht E. assert (Htin : t ∈ tasks σ) by (rewrite Ht, elem_of_part; auto).
  pose proof (iv_tasks _ _ Hi t Htin) as Hok. unfold Pipeline.execute_filter in E. destruct (my_at_start t) eqn:Hst.
  { assert (Hk : my_filter t = 0%nat) by (unfold task_ok in Hok; rewrite Hst in Hok; tauto). rewrite Hk in E.
    assert ((filters !! 0%nat ≫= λ f, first_filter null filters f v stopped t σ) = Some (ts, σ')) as E'.
    { unfold task_ok in Hok. rewrite Hst in Hok. destruct Hok as [_ Hok]. by destruct (at_place t). }
    apply bind_Some in E' as (f & Hf & E'). eapply (first_work f); try done. intros Hp. by apply (in_returned _ _ _ Hin t f). }
  unfold task_ok in Hok. rewrite Hst in Hok. destruct (at_place t) eqn:Hp; try done.
  - apply bind_Some in E as (f & Hf & E). injection E as <- <-. unfold work, output. rewrite !weight_one. unfold weight. rewrite Hp, Hst. simpl. rewrite Hst. lia.
  - apply bind_Some in E as (f & Hf & E). injection E as <- <-. unfold work, output. rewrite !weight_one. unfold weight. rewrite Hp, Hst. simpl. destruct (is_serial f); lia.
  - apply bind_Some in E as (f & Hf & E). apply bind_Some in E as (b & Eb & E). simpl in E. injection E as <- <-.
    pose proof (next_work σ t _ b Eb eq_refl Hp). unfold output. simpl. lia.
  - unfold advance_task in E. destruct (filters !! S (my_filter t)) as [f|] eqn:Ef.
    + destruct (is_serial f) eqn:Es.
      * apply bind_Some in E as (b & Eb & E). apply bind_Some in E as ([[placed i] b'] & Ep & E). injection E as <- <-.
        pose proof (put_work σ l1 t l2 _ b placed i b' Hi Ht Hp eq_refl ltac:(by exists f) Eb Ep).
        destruct (note_order_same (info t) i (set_buffer (S (my_filter t)) b' σ)) as (_ & _ & _ & _ & Hpr). unfold output. rewrite Hpr. simpl. lia.
      * injection E as <- <-. unfold work, output. rewrite !weight_one. unfold weight. rewrite Hp. unfold enter_weight. simpl. lia.
    + injection E as <- <-. unfold work, output. rewrite weight_one. unfold weight at 2. rewrite Hp. simpl. unfold enter_weight.
      destruct (0 <? input_tokens σ); rewrite ?weight_one, ?zsum_nil; unfold weight; simpl; lia.
  - destruct (end_of_input σ) eqn:Ee; injection E as <- <-; unfold work, output; rewrite ?weight_one; unfold weight at 2; rewrite Hp; rewrite ?zsum_nil; unfold weight; simpl; lia.
Qed.

Lemma step_work n σ σ' : good n σ → step σ σ' → work (tasks σ') σ' + 1 ≤ work (tasks σ) σ + item_work * (output σ' - output σ).
Proof.
  intros Hg Hst. destruct Hst as [l1 t l2 v stopped ts σ σ' El E]. pose proof (task_work n σ l1 t l2 v stopped ts σ' Hg El E) as Hw.
  unfold work, output in *. rewrite weight_one in Hw. simpl. rewrite El, !zsum_app, zsum_cons. lia.
Qed.

Lemma work_nonneg n σ : good n σ → 0 ≤ work (tasks σ) σ.
Proof.
  intros [Hi Htk _]. pose proof (tk_pos _ _ _ Htk). pose proof (tk_idle _ _ _ Htk). unfold work.
  assert (0 ≤ zsum weight (tasks σ)).
  { apply zsum_nonneg, Forall_forall. intros t Hin. pose proof (iv_tasks _ _ Hi t Hin) as Hok. unfold task_ok in Hok. unfold weight, enter_weight.
    destruct (my_at_start t), (at_place t) as [| |[]| | | | |]; simpl in *; try lia. destruct Hok as [_ (f & ?%lookup_lt_Some & _)]. lia. }
  assert (0 ≤ zsum waiting_weight (waiting_from 0 (buffers σ))); [|lia].
  apply zsum_nonneg, Forall_forall. intros [s i] Hx. unfold waiting_weight, enter_weight. simpl.
  assert (Hf : (s, i) ∈ flight σ) by (apply elem_of_app; by right).
  pose proof (or_stage _ _ _ _ (it_ordering _ _ (iv_items _ _ Hi)) _ _ Hf). lia.
Qed.

Lemma steps_work n σ σ' m : good n σ → nsteps step m σ σ' →
  good n σ' ∧ work (tasks σ') σ' + Z.of_nat m ≤ work (tasks σ) σ + item_work * (output σ' - output σ).
Proof.
  intros Hg Hs. induction Hs as [σ|m σ1 σ2 σ3 H12 H23 IH]; [split; [done|lia]|].
  destruct (IH (step_good n σ1 σ2 Hg H12)) as [Hg3 Hw]. split; [done|]. pose proof (step_work n σ1 σ2 Hg H12). lia.
Qed.

(** The number of steps is bounded by the tokens and the items. *)
Lemma steps_bound n σ σ' m : 1 ≤ n → start null filters n = Some σ → nsteps step m σ σ' →
  Z.of_nat m ≤ 6 * n + 5 + item_work * output σ'.
Proof.
  intros Hn Es Hs. pose proof (start_good n σ Hn Es) as Hg. destruct (steps_work n σ σ' m Hg Hs) as [Hg' Hw].
  pose proof (work_nonneg n σ' Hg'). cut (work (tasks σ) σ - item_work * output σ ≤ 6 * n + 5); [lia|].
  destruct Hg as [_ Htk _]. unfold start in Es. apply bind_Some in Es as (bs & Ebs & [= <-]). unfold work, output. simpl. rewrite weight_one.
  assert (waiting_from 0 bs = []) as ->; [|rewrite zsum_nil; unfold weight; simpl; lia].
  destruct (tk_open _ _ _ Htk eq_refl) as [Ht _]. simpl in Ht. unfold waits in Ht.
  apply length_zero_iff_nil. unfold held, zsum, idle in Ht. simpl in Ht. lia.
Qed.

(** *** The window of tokens *)

Definition up_to (k : nat) (F : list (nat * task_info V)) : nat := length (filter (λ x, (1 ≤ x.1 ≤ k)%nat) F).
Lemma up_to_S k F : up_to (S k) F = (length (at_stage (S k) F) + up_to k F)%nat.
Proof.
  unfold up_to, at_stage. rewrite length_fmap. induction F as [|[s i] F IH]; [done|]. rewrite !filter_cons. simpl.
  destruct (decide (s = S k)) as [->|Hne]; [rewrite decide_True, decide_False by lia; simpl; lia|].
  destruct (decide (1 ≤ s ≤ k)%nat); [rewrite decide_True by lia|rewrite decide_False by lia]; simpl; lia.
Qed.

Lemma calls_behind σ k : inv filters σ → (k ≤ len)%nat → length (calls_of σ 0) = (length (calls_of σ k) + up_to k (flight σ))%nat.
Proof.
  intros Hi Hk. induction k as [|k IH].
  { assert (up_to 0 (flight σ) = 0%nat) as ->; [|lia]. unfold up_to. apply length_zero_iff_nil, elem_of_nil_inv.
    intros x [Hx _]%list_elem_of_filter. lia. }
  rewrite IH by lia. pose proof (it_conserved _ _ (iv_items _ _ Hi) k ltac:(lia)) as Hc. apply Permutation_length in Hc.
  rewrite length_fmap, length_app in Hc. rewrite up_to_S. lia.
Qed.

Lemma order_bound n σ k b : good n σ → (1 ≤ k < len)%nat → in_order k → buffers σ !! k = Some b →
  Z.of_nat (length (order σ)) ≤ low b + 1 + n.
Proof.
  intros [Hi Htk _] Hk Hio Eb. pose proof (iv_items _ _ Hi) as [_ _ _ [_ Hcnt]]. specialize (Hcnt k Hio).
  pose proof (calls_behind σ k Hi ltac:(lia)). pose proof (flight_bound _ _ _ Htk).
  assert (up_to k (flight σ) ≤ length (flight σ))%nat by (apply length_filter).
  destruct (iv_service _ _ Hi k b ltac:(lia) (in_order_serial _ _ Hio) Eb) as [S1 S2 _ _ _].
  pose proof (length_filter (λ x, x.1 = true) (serving σ k)). lia.
Qed.

Lemma queue_bound n σ k b : good n σ → (1 ≤ k < len)%nat → serial k → ¬ in_order k → buffers σ !! k = Some b → high b ≤ low b + 1 + n.
Proof.
  intros [Hi Htk _] Hk Hser Hno Eb. destruct (iv_service _ _ Hi k b ltac:(lia) Hser Eb) as [_ _ _ _ S5].
  destruct (S5 Hno) as (Hle & Hp & _). pose proof (tk_sum _ _ _ Htk). pose proof (tk_pos _ _ _ Htk). pose proof (tk_idle _ _ _ Htk).
  pose proof (held_nonneg filters (tasks σ)). assert (Z.of_nat (size (pend b)) ≤ waits (buffers σ)).
  { unfold waits. destruct (waiting_insert 0 (buffers σ) k b b Eb) as (R & -> & _). rewrite length_app. unfold waiting_at.
    rewrite length_fmap, length_map_to_list. lia. }
  destruct (decide (high b ≤ low b + 1)); [lia|].
  assert (Hsub : seqZ (low b + 1) (high b - low b - 1) ⊆+ (map_to_list (pend b)).*1).
  { apply NoDup_submseteq; [apply NoDup_seqZ|]. intros tok Htok%elem_of_seqZ. destruct (proj2 (Hp tok)) as [i Ei]; [lia|].
    apply list_elem_of_fmap. exists (tok, i). split; [done|]. by apply elem_of_map_to_list. }
  apply submseteq_length in Hsub. rewrite length_fmap, length_map_to_list, length_seqZ in Hsub. lia.
Qed.

(** The token of an item that moves to a serial filter is close to the one of the filter. *)
Lemma token_window n σ l1 t l2 b : good n σ → tasks σ = l1 ++ t :: l2 → at_place t = Advance → serial (S (my_filter t)) →
  buffers σ !! S (my_filter t) = Some b → low b ≤ token_of (info t) b ≤ low b + 1 + n.
Proof.
  intros Hg Ht Hp Hser Eb. pose proof Hg as [Hi _ _]. set (k := S (my_filter t)) in *.
  assert (Hd : dest filters t = Some (k, info t)) by (unfold dest; by rewrite Hp).
  destruct (arrival filters σ l1 t l2 k b Hi Ht Hd) as (_ & Hlow & _); [by apply served_advance|done|done|]. split; [done|].
  assert (Hfl : (k, info t) ∈ flight σ) by (eapply flight_task; [rewrite Ht, elem_of_part; auto|done]).
  assert (Hk : (k < len)%nat) by (by destruct Hser as (f & ?%lookup_lt_Some & _)). pose proof (it_ordering _ _ (iv_items _ _ Hi)) as Ho.
  unfold token_of. rewrite (ordered_in_order filters σ k b (iv_buffers _ _ Hi) Hk Eb). case_bool_decide as Hio; simpl.
  2: { apply (queue_bound n σ k b Hg); done || lia. }
  pose proof (order_bound n σ k b Hg ltac:(lia) Hio Eb). destruct (my_token_ready (info t)) eqn:Hr.
  - pose proof (token_bound _ _ _ _ _ _ Ho Hfl Hr). lia.
  - rewrite (iv_highs _ _ Hi k b Eb Hio); [lia|]. intros j Hj. by apply (or_unready _ _ _ _ Ho k (info t) j).
Qed.
End safety.
End PipelineSafety.

(** ** The pipeline with the circular arrays *)
Module PipelineRefinement.
Import Circular Waiting BufferRefinement Pipeline PipelineSpec PipelineSafety.

Section refinement.
Context {V : Type} `{EqDecision V} (null : V) (filters : list (base_filter V)).
#[local] Instance array_buffer : Buffer V (input_buffer V) := circular_buffer null.
Local Abbreviation len := (length filters).
Local Abbreviation array_state := (state V (input_buffer V)).
Local Abbreviation waiting_state := (state V (waiting V)).
Implicit Types (tc ta : stage_task V) (σc : array_state) (σa : waiting_state) (ic ia : task_info V) (v : V).

Record task_rel tc ta : Prop := {
  tr_filter : my_filter tc = my_filter ta;
  tr_at_start : my_at_start tc = my_at_start ta;
  tr_info : info_rel (info tc) (info ta);
  tr_place : at_place tc = at_place ta;
}.
Definition buffers_rel (bc : input_buffer V) (ba : waiting V) : Prop := ∃ p, buffer_rel p bc ba.
Record state_rel σc σa : Prop := {
  sr_tokens : input_tokens σc = input_tokens σa;
  sr_end : end_of_input σc = end_of_input σa;
  sr_buffers : Forall2 buffers_rel (buffers σc) (buffers σa);
  sr_tasks : Forall2 task_rel (tasks σc) (tasks σa);
  sr_produced : produced σc = produced σa;
  sr_calls : calls σc = calls σa;
  sr_order : order σc = order σa;
}.
Definition outcome_rel (oc : list (stage_task V) * array_state) (oa : list (stage_task V) * waiting_state) : Prop :=
  Forall2 task_rel oc.1 oa.1 ∧ state_rel oc.2 oa.2.

Lemma go_rel p tc ta : task_rel tc ta → task_rel (go p tc) (go p ta).
Proof. by intros [????]. Qed.
Lemma with_info_rel ic ia tc ta : info_rel ic ia → task_rel tc ta → task_rel (with_info ic tc) (with_info ia ta).
Proof. by intros ? [????]. Qed.
Lemma set_object_rel v ic ia : info_rel ic ia → info_rel (set_object v ic) (set_object v ia).
Proof. by intros [????]. Qed.
Lemma passed_start_rel tc ta : task_rel tc ta → task_rel (passed_start tc) (passed_start ta).
Proof. by intros [????]. Qed.
Lemma item_task_rel k ic ia : info_rel ic ia → task_rel (item_task k ic) (item_task k ia).
Proof. done. Qed.
Lemma input_task_rel : task_rel (input_task null) (input_task null).
Proof. done. Qed.
Lemma add_call_rel k v σc σa : state_rel σc σa → state_rel (add_call k v σc) (add_call k v σa).
Proof. intros [??????]. split; simpl; congruence || done. Qed.
Lemma set_end_rel σc σa : state_rel σc σa → state_rel (set_end σc) (set_end σa).
Proof. by intros [??????]. Qed.
Lemma set_tokens_rel m σc σa : state_rel σc σa → state_rel (set_tokens m σc) (set_tokens m σa).
Proof. by intros [??????]. Qed.
Lemma add_produced_rel v σc σa : state_rel σc σa → state_rel (add_produced v σc) (add_produced v σa).
Proof. intros [??????]. split; simpl; congruence || done. Qed.
Lemma set_buffer_rel k bc ba σc σa : buffers_rel bc ba → state_rel σc σa → state_rel (set_buffer k bc σc) (set_buffer k ba σa).
Proof. intros ? [??????]. split; simpl; try done. by apply Forall2_insert. Qed.
Lemma note_order_rel ic ia ic' ia' σc σa : info_rel ic ia → info_rel ic' ia' → state_rel σc σa →
  state_rel (note_order ic ic' σc) (note_order ia ia' σa).
Proof.
  intros [_ _ Hr _] [Ho _ Hr' _] Hs. unfold note_order. rewrite Hr, Hr', Ho. destruct (negb _ && _); [|done].
  destruct Hs. split; simpl; congruence || done.
Qed.

Create HintDb pipeline_rel discriminated.
#[local] Hint Resolve go_rel with_info_rel set_object_rel passed_start_rel item_task_rel input_task_rel add_call_rel set_end_rel
  set_tokens_rel add_produced_rel set_buffer_rel note_order_rel tr_info : pipeline_rel.
#[local] Hint Constructors Forall2 : pipeline_rel.
#[local] Hint Extern 4 (outcome_rel _ _) => split; simpl : pipeline_rel.
Lemma buffer_lookup σc σa k : state_rel σc σa → option_Forall2 buffers_rel (buffers σc !! k) (buffers σa !! k).
Proof. intros Hs. apply Forall2_lookup, (sr_buffers _ _ Hs). Qed.

Lemma spawn_rel tc ta σc σa : state_rel σc σa → task_rel tc ta →
  outcome_rel (let '(ts, σ) := try_spawn_stage_task null σc in (tc :: ts, σ)) (let '(ts, σ) := try_spawn_stage_task null σa in (ta :: ts, σ)).
Proof.
  intros Hs Ht. unfold try_spawn_stage_task. rewrite (sr_tokens _ _ Hs). split; simpl; [|by apply set_tokens_rel].
  destruct (1 <? input_tokens σa); eauto with pipeline_rel.
Qed.

Lemma first_rel f v stopped tc ta σc σa : state_rel σc σa → task_rel tc ta →
  option_Forall2 outcome_rel (first_filter null filters f v stopped tc σc) (first_filter null filters f v stopped ta σa).
Proof.
  intros Hs Ht. pose proof (tr_info _ _ Ht) as Hi. unfold first_filter. rewrite (tr_place _ _ Ht), (rel_object _ _ Hi), (sr_end _ _ Hs).
  destruct (at_place ta) as [| |st| | | | |]; try constructor.
  - destruct (is_serial f); [|destruct (end_of_input σa)]; constructor; auto 8 with pipeline_rel.
  - case_match; constructor. split; simpl; [auto 8 with pipeline_rel|]. destruct stopped; simpl; [|auto with pipeline_rel].
    destruct (object_may_be_null f && is_serial f); auto with pipeline_rel.
  - destruct (is_serial f); [|case_match; constructor; auto 8 with pipeline_rel].
    case_match; [|constructor; auto with pipeline_rel].
    assert (Hnext : ∀ ic ia σc' σa', info_rel ic ia → state_rel σc' σa' → option_Forall2 outcome_rel
      (if decide (len = 1%nat) then Some ([input_task null], add_call 1 (my_object (info ta)) (add_call 0 (my_object (info ta)) σc'))
       else Some ([go SpawnAfter (with_info ic tc)], add_call 0 (my_object (info ta)) σc'))
      (if decide (len = 1%nat) then Some ([input_task null], add_call 1 (my_object (info ta)) (add_call 0 (my_object (info ta)) σa'))
       else Some ([go SpawnAfter (with_info ia ta)], add_call 0 (my_object (info ta)) σa'))).
    { intros ic ia σc' σa' ??. destruct (decide (len = 1%nat)); constructor; auto 8 with pipeline_rel. }
    destruct (Pipeline.is_ordered f); [|by apply Hnext].
    destruct (buffer_lookup σc σa 0 Hs) as [bc ba (p & Hb)|]; [|constructor]. destruct (take_high_rel p bc ba Hb) as [Et Hb'].
    cbn [mbind option_bind get_ordered_token array_buffer circular_buffer waiting_buffer]. destruct (take_high_token bc) as [tok bc'].
    destruct (take_high ba) as [tok' ba']. simpl in Et, Hb'. subst tok.
    apply Hnext; [by apply set_token_rel|]. apply note_order_rel; [done|by apply set_token_rel|]. apply set_buffer_rel; [by exists p|done].
  - apply spawn_rel; auto with pipeline_rel.
  - apply spawn_rel; auto with pipeline_rel.
Qed.

(** The items that move to a serial filter are in the window of its buffer. *)
Definition in_window ta σa : Prop :=
  at_place ta = Advance → ∀ b, PipelineSpec.serial filters (S (my_filter ta)) → buffers σa !! S (my_filter ta) = Some b →
  low b ≤ BufferRefinement.token_of (info ta) b < low b + 2 ^ 62.

Lemma advance_rel tc ta σc σa : state_rel σc σa → task_rel tc ta → in_window ta σa → at_place ta = Advance →
  option_Forall2 outcome_rel (advance_task filters tc σc) (advance_task filters ta σa).
Proof.
  intros Hs Ht Hw Hp. pose proof (tr_info _ _ Ht) as Hi. unfold advance_task. rewrite (tr_filter _ _ Ht).
  destruct (filters !! S (my_filter ta)) as [f|] eqn:Hf.
  - destruct (is_serial f) eqn:Hser; [|constructor; auto 8 with pipeline_rel]. specialize (Hw Hp).
    specialize (λ b, Hw b (ex_intro _ f (conj Hf Hser))). destruct (buffer_lookup σc σa (S (my_filter ta)) Hs) as [bc ba (p & Hb)|]; [|constructor].
    destruct (put_rel null p bc ba (info tc) (info ta) Hb Hi (Hw ba eq_refl)) as (placed & q & ic & ia & bc' & ba' & E1 & E2 & Hi' & Hb').
    cbn [mbind option_bind try_put_token array_buffer circular_buffer waiting_buffer]. rewrite E1, E2. constructor. split; simpl.
    + destruct placed; auto with pipeline_rel.
    + apply note_order_rel; [done..|]. apply set_buffer_rel; [by exists q|done].
  - rewrite (sr_tokens _ _ Hs), (rel_object _ _ Hi). constructor. split; simpl; [|auto with pipeline_rel].
    destruct (0 <? input_tokens σa); auto with pipeline_rel.
Qed.

Lemma execute_rel v stopped tc ta σc σa : state_rel σc σa → task_rel tc ta → in_window ta σa →
  option_Forall2 outcome_rel (execute_filter null filters v stopped tc σc) (execute_filter null filters v stopped ta σa).
Proof.
  intros Hs Ht Hw. pose proof (tr_info _ _ Ht) as Hi. unfold execute_filter.
  rewrite (tr_place _ _ Ht), (tr_at_start _ _ Ht), (tr_filter _ _ Ht), (sr_end _ _ Hs), (rel_object _ _ Hi).
  assert (Hff : option_Forall2 outcome_rel (f ← filters !! my_filter ta; first_filter null filters f v stopped tc σc)
    (f ← filters !! my_filter ta; first_filter null filters f v stopped ta σa)).
  { destruct (filters !! my_filter ta) as [f|]; [by apply first_rel|constructor]. }
  destruct (at_place ta) eqn:Hp; try (destruct (my_at_start ta); [exact Hff|]; clear Hff; destruct (filters !! my_filter ta) as [f|]; [|constructor]);
    try constructor; simpl.
  - auto 8 with pipeline_rel.
  - split; simpl; [|done]. destruct (is_serial f); auto 8 with pipeline_rel.
  - destruct (buffer_lookup σc σa (my_filter ta) Hs) as [bc ba (p & Hb)|]; [|constructor]. opt_simpl.
    destruct (next_rel p bc ba Hb) as (oc & bc' & oa & ba' & E1 & E2 & Ho & Hb'). rewrite E1. injection E2 as <- <-. constructor. split; simpl.
    + constructor; [auto with pipeline_rel|]. destruct Ho; auto with pipeline_rel.
    + apply set_buffer_rel; [by exists p|done].
  - by apply advance_rel.
  - destruct (end_of_input σa); auto with pipeline_rel.
Qed.

(** *** Simulation *)
Context (Hlen : (1 ≤ len)%nat).

Lemma good_window n σa l1 ta l2 : n < 2 ^ 62 - 1 → good null filters n σa → tasks σa = l1 ++ ta :: l2 → in_window ta σa.
Proof. intros Hn Hg Ht Hp b Hser Hb. pose proof (token_window null filters Hlen n σa l1 ta l2 b Hg Ht Hp Hser Hb). unfold BufferRefinement.token_of, PipelineSpec.token_of in *. lia. Qed.

Lemma replace_rel l1 l2 (tsc : list (stage_task V)) la1 la2 tsa σc σa :
  Forall2 task_rel l1 la1 → Forall2 task_rel l2 la2 → outcome_rel (tsc, σc) (tsa, σa) →
  state_rel (set_tasks (l1 ++ tsc ++ l2) σc) (set_tasks (la1 ++ tsa ++ la2) σa).
Proof. intros H1 H2 [Ht Hs]. simpl in *. destruct Hs. split; simpl; try done. by repeat apply Forall2_app. Qed.

Lemma simulation n σc σa σc' : n < 2 ^ 62 - 1 → good null filters n σa → state_rel σc σa → step null filters σc σc' →
  ∃ σa', step null filters σa σa' ∧ state_rel σc' σa'.
Proof.
  intros Hn Hg Hs Hst. destruct Hst as [l1 tc l2 v stopped ts σc σc' El E]. pose proof (sr_tasks _ _ Hs) as Ht. rewrite El in Ht.
  apply Forall2_app_inv_l in Ht as (la1 & lx & H1 & Hx & Ea). apply Forall2_cons_inv_l in Hx as (ta & la2 & Hta & H2 & ->).
  pose proof (execute_rel v stopped tc ta σc σa Hs Hta (good_window n σa la1 ta la2 Hn Hg Ea)) as Hr. rewrite E in Hr.
  inversion Hr as [? [tsa σa'] Ho E1 Ea'|]; simplify_eq.
  exists (set_tasks (la1 ++ tsa ++ la2) σa'). split; [by apply (step_task _ _ la1 ta la2 v stopped)|by apply replace_rel].
Qed.

Lemma start_rel n σc : start null filters n = Some σc → ∃ σa, start null filters n = Some σa ∧ state_rel σc σa.
Proof.
  intros E. apply bind_Some in E as (bs & Ebs & [= <-]).
  assert (Hb : mapM (λ f, new_buffer (Pipeline.is_ordered f)) filters = Some ((λ f, Waits 0 0 (Pipeline.is_ordered f) (∅ : gmap Z (task_info V))) <$> filters)).
  { apply mapM_Some. clear. induction filters as [|f fs IH]; [constructor|]. by constructor. }
  eexists. split; [unfold start; rewrite Hb; reflexivity|]. split; simpl; try done; [|auto with pipeline_rel].
  apply mapM_Some in Ebs. clear -Ebs. induction Ebs as [|f b fs bs E _ IH]; [constructor|]. constructor; [|done].
  destruct (construct_rel null (Pipeline.is_ordered f)) as (bc & E' & Hr). simpl in E. simplify_eq. by exists 2.
Qed.

Lemma start_total n : ∃ σc : array_state, start null filters n = Some σc.
Proof.
  unfold start. assert (∃ bs : list (input_buffer V), mapM (λ f, new_buffer (Pipeline.is_ordered f)) filters = Some bs) as [bs ->]; [|eauto].
  clear. induction filters as [|f fs [bs IH]]; [by exists []|].
  eexists. simpl. simpl in IH. rewrite IH. reflexivity.
Qed.

(** Executions of the pipeline with arrays are executions of the specification. *)
Lemma run_simulation n σ0 m σc : 1 ≤ n < 2 ^ 62 - 1 → start null filters n = Some σ0 → nsteps (step null filters) m σ0 σc →
  ∃ σ1 σa, start null filters n = Some σ1 ∧ nsteps (step null filters) m σ1 σa ∧ state_rel σc σa ∧ good null filters n σa.
Proof.
  intros Hn E Hs. destruct (start_rel n σ0 E) as (σ1 & E1 & Hr). pose proof (start_good null filters Hlen n σ1 ltac:(lia) E1) as Hg.
  exists σ1. cut (∃ σa, nsteps (step null filters) m σ1 σa ∧ state_rel σc σa ∧ good null filters n σa); [intros (σa & ? & ? & ?); eauto 6|].
  clear E E1. revert σ1 Hr Hg. induction Hs as [σ|m σ σ' σ'' Hst _ IH]; intros σ1 Hr Hg; [exists σ1; split_and!; [constructor|done..]|].
  destruct (simulation n σ σ1 σ' ltac:(lia) Hg Hr Hst) as (σ2 & Hst2 & Hr2).
  destruct (IH σ2 Hr2 (step_good null filters Hlen n σ1 σ2 Hg Hst2)) as (σa & Hsa & ? & ?). exists σa. split_and!; [by econstructor|done..].
Qed.
End refinement.
End PipelineRefinement.

(** ** The theorems *)
Module PipelineCorrect.
Import Circular Waiting BufferRefinement Pipeline PipelineSpec PipelineSafety PipelineRefinement.

Lemma fill_pipeline_nonempty {V} (root : filter_node) : (1 ≤ length (fill_pipeline (V := V) root))%nat.
Proof. induction root as [|l IHl r IHr]; simpl; [lia|]. rewrite length_app. lia. Qed.

(** The objects that filter [k] was called with: for the first filter, those it
    gave to the pipeline; after the last one, those that left it. *)
Definition calls_with {V B} (σ : state V B) (k : nat) : list V := default [] (calls σ !! k).

Section correct.
Context {V : Type} `{EqDecision V} (null : V) (root : filter_node (V := V)).
#[local] Instance array_buffer' : Buffer V (input_buffer V) := circular_buffer null.
Local Abbreviation filters := (fill_pipeline root).
Local Abbreviation array_state := (state V (input_buffer V)).
Implicit Types (σ : array_state) (n : Z).

(** The states of a pipeline with [n] tokens. *)
Definition reaches n (m : nat) σ : Prop :=
  ∃ σ0, start null filters n = Some σ0 ∧ nsteps (step null filters) m σ0 σ.

Lemma reached n m σ : 1 ≤ n < 2 ^ 62 - 1 → reaches n m σ → ∃ σ1 σa : state V (waiting V), start null filters n = Some σ1 ∧
  nsteps (step null filters) m σ1 σa ∧ state_rel σ σa ∧ good null filters n σa ∧ ∀ k, calls_with σ k = calls_of σa k.
Proof.
  intros Hn (σ0 & E & Hs). destruct (run_simulation null filters (fill_pipeline_nonempty root) n σ0 m σ Hn E Hs) as (σ1 & σa & E1 & H1 & Hr & Hg).
  exists σ1, σa. split_and!; try done. intros k. unfold calls_with, calls_of. by rewrite (sr_calls _ _ Hr).
Qed.

Lemma task_related σ (σa : state V (waiting V)) t : state_rel σ σa → t ∈ tasks σ → ∃ ta, ta ∈ tasks σa ∧ task_rel t ta.
Proof.
  intros Hr [x Hx]%list_elem_of_lookup. destruct (Forall2_lookup_l _ _ _ _ _ (sr_tasks _ _ Hr) Hx) as (ta & Hta & ?).
  exists ta. split; [by eapply list_elem_of_lookup_2|done].
Qed.

Lemma task_goes_on n σ (σa : state V (waiting V)) t : n < 2 ^ 62 - 1 → good null filters n σa → state_rel σ σa → t ∈ tasks σ →
  ∃ ts σ', execute_filter null filters null true t σ = Some (ts, σ').
Proof.
  intros Hn Hg Hr Ht. destruct (task_related σ σa t Hr Ht) as (ta & Hta & Htr).
  destruct (can_go_on null filters (fill_pipeline_nonempty root) n σa ta Hg Hta) as (tsa & σa' & Ea).
  pose proof Hta as (l1 & l2 & El)%list_elem_of_split.
  pose proof (execute_rel null filters null true t ta σ σa Hr Htr (good_window null filters (fill_pipeline_nonempty root) n σa l1 ta l2 Hn Hg El)) as Ho.
  rewrite Ea in Ho. inversion Ho as [[ts σ'] ? ? E|]. eauto.
Qed.

Lemma in_call_related σ (σa : state V (waiting V)) k : state_rel σ σa →
  length (filter (λ t, in_call k t = true) (tasks σ)) = length (filter (λ t, in_call k t = true) (tasks σa)).
Proof.
  intros [_ _ _ Hr _ _ _]. induction Hr as [|t ta ts tsa Ht _ IH]; [done|]. rewrite !filter_cons.
  assert (in_call k t = in_call k ta) as -> by (unfold in_call; by rewrite (tr_filter _ _ Ht), (tr_place _ _ Ht)).
  case_decide; simpl; by rewrite IH.
Qed.

(** C6: in every reachable state of a pipeline each task can make its next step,
    so no assertion of a buffer fails and no access is out of bounds; a serial
    filter has at most one call at a time; and at most [n] items have entered
    the pipeline and not left it. *)
Theorem pipeline_safe n m σ : 1 ≤ n < 2 ^ 62 - 1 → reaches n m σ →
  (∀ t, t ∈ tasks σ → ∃ v stopped ts σ', execute_filter null filters v stopped t σ = Some (ts, σ')) ∧
  (∀ k, serial filters k → (length (filter (λ t, in_call k t = true) (tasks σ)) ≤ 1)%nat) ∧
  Z.of_nat (length (calls_with σ 0)) ≤ Z.of_nat (length (calls_with σ (length filters))) + n.
Proof.
  intros Hn Hs. destruct (reached n m σ Hn Hs) as (σ1 & σa & _ & _ & Hr & Hg & Hc). split_and!.
  - intros t Ht. destruct (task_goes_on n σ σa t ltac:(lia) Hg Hr Ht) as (ts & σ' & E). eauto.
  - intros k Hk. rewrite (in_call_related σ σa k Hr). by apply (one_call null filters (fill_pipeline_nonempty root) n).
  - rewrite !Hc. destruct Hg as [Hi Htk _]. pose proof (flight_bound _ _ _ Htk). pose proof (calls_behind filters (fill_pipeline_nonempty root) σa (length filters) Hi ltac:(lia)).
    assert (up_to (length filters) (flight filters σa) ≤ length (flight filters σa))%nat by apply length_filter. lia.
Qed.

(** C26: two filters that are serial in order are called with the items in the same order. *)
Theorem pipeline_in_order n m σ j k : 1 ≤ n < 2 ^ 62 - 1 → reaches n m σ → in_order filters j → in_order filters k → (j < k)%nat →
  calls_with σ k `prefix_of` (way filters j k <$> calls_with σ j).
Proof.
  intros Hn Hs Hj Hk Hjk. destruct (reached n m σ Hn Hs) as (σ1 & σa & _ & _ & Hr & Hg & Hc). rewrite !Hc.
  by apply (calls_order null filters (fill_pipeline_nonempty root) n σa j k Hg).
Qed.

(** C5: when no task is left, the first filter has ended the input, and every
    filter was called once for each item that the first one produced, with what
    the filters before it make of the item, and in the order of the input if
    both are serial in order. *)
Theorem pipeline_complete n m σ : 1 ≤ n < 2 ^ 62 - 1 → reaches n m σ → tasks σ = [] →
  end_of_input σ = true ∧
  (∀ k, (k ≤ length filters)%nat → calls_with σ k ≡ₚ way filters 0 k <$> produced σ) ∧
  (∀ k, in_order filters 0 → in_order filters k → calls_with σ k = way filters 0 k <$> produced σ).
Proof.
  intros Hn Hs Ht. destruct (reached n m σ Hn Hs) as (σ1 & σa & _ & _ & Hr & Hg & Hc).
  assert (Hta : tasks σa = []) by (pose proof (sr_tasks _ _ Hr) as Hl; rewrite Ht in Hl; by apply Forall2_nil_inv_l in Hl).
  destruct (all_done null filters (fill_pipeline_nonempty root) n σa ltac:(lia) Hg Hta) as (He & Hp & Hps & Hall).
  rewrite (sr_end _ _ Hr), (sr_produced _ _ Hr). split_and!; [done|..].
  - intros k Hk. by rewrite Hc, (Hall k Hk), Hp.
  - intros k H0 Hk. rewrite Hc, (Hps (in_order_serial _ _ H0)). destruct (decide (k = 0%nat)) as [->|Hk0].
    { symmetry. rewrite <- (list_fmap_id (calls_of σa 0)) at 2. apply list_fmap_ext. intros x v _. by rewrite way_refl. }
    assert (Hkl : (k < length filters)%nat) by (by destruct Hk as (f & ?%lookup_lt_Some & _)).
    pose proof (calls_order null filters (fill_pipeline_nonempty root) n σa 0 k Hg H0 Hk ltac:(lia)) as [l El].
    pose proof (Permutation_length (Hall k ltac:(lia))) as Hlen. rewrite El in Hlen |- *. rewrite length_app in Hlen.
    destruct l; [by rewrite app_nil_r|simpl in Hlen; lia].
Qed.

Lemma finishes n (w : nat) σ (σa : state V (waiting V)) : n < 2 ^ 62 - 1 → good null filters n σa → state_rel σ σa →
  work filters (tasks σa) σa ≤ Z.of_nat w → ∃ σ', rtc (step null filters) σ σ' ∧ tasks σ' = [] ∧ produced σ' = produced σ.
Proof.
  intros Hn. revert σ σa. induction w as [|w IH]; intros σ σa Hg Hr Hw; (destruct (tasks σ) as [|t ts] eqn:Ht; [by exists σ|]).
  all: destruct (task_goes_on n σ σa t Hn Hg Hr ltac:(rewrite Ht; by left)) as (ts' & σ' & E).
  all: assert (Hst : step null filters σ (set_tasks ([] ++ ts' ++ ts) σ')) by (by apply (step_task _ _ [] t ts null true)).
  all: destruct (simulation null filters (fill_pipeline_nonempty root) n σ σa _ Hn Hg Hr Hst) as (σa' & Hsta & Hr').
  all: pose proof (step_good null filters (fill_pipeline_nonempty root) n σa σa' Hg Hsta) as Hg'.
  all: pose proof (step_work null filters (fill_pipeline_nonempty root) n σa σa' Hg Hsta) as Hw'.
  all: pose proof (work_nonneg null filters (fill_pipeline_nonempty root) n σa' Hg').
  all: unfold output in Hw'; rewrite <- (sr_produced _ _ Hr), <- (sr_produced _ _ Hr') in Hw'; simpl in Hw'.
  all: rewrite (stopped_produced null filters _ _ _ _ _ E) in Hw'.
  - lia.
  - destruct (IH _ σa' Hg' Hr' ltac:(lia)) as (σ'' & Hs & Hd & Hp). exists σ''. split_and!; [by econstructor|done|].
    simpl in Hp. rewrite Hp. by apply (stopped_produced null filters null t σ ts').
Qed.

(** C32: an execution of a pipeline has at most [6 n + 5] steps, and [5 f + 6]
    more for every item of the input, where [f] is the number of filters: it ends
    if the input does.  From every state the pipeline can run to the end of its tasks. *)
Theorem pipeline_terminates n m σ : 1 ≤ n < 2 ^ 62 - 1 → reaches n m σ →
  Z.of_nat m ≤ 6 * n + 5 + (5 * Z.of_nat (length filters) + 6) * Z.of_nat (length (produced σ)) ∧
  ∃ σ', rtc (step null filters) σ σ' ∧ tasks σ' = [] ∧ produced σ' = produced σ.
Proof.
  intros Hn Hs. destruct (reached n m σ Hn Hs) as (σ1 & σa & E1 & H1 & Hr & Hg & _). split.
  - rewrite (sr_produced _ _ Hr). apply (steps_bound null filters (fill_pipeline_nonempty root) n σ1 σa m); [lia|done..].
  - apply (finishes n (Z.to_nat (work filters (tasks σa) σa)) σ σa); [lia|done..|lia].
Qed.
End correct.
End PipelineCorrect.

(** ** Examples *)
Module PipelineExamples.
Import Circular Pipeline PipelineSpec PipelineSafety PipelineCorrect.
#[local] Instance example_buffer : Buffer Z (input_buffer Z) := circular_buffer 0.

(** A serial first filter, a parallel one and a serial last one. *)
Definition three_filters : filter_node (V := Z) :=
  filter_node_inner (filter_node_leaf true false serial_in_order id)
    (filter_node_inner (filter_node_leaf false false parallel (λ v, v + 10)) (filter_node_leaf false true serial_in_order id)).

(** The second item overtakes the first in the parallel filter and waits; then
    the first one goes on. *)
Definition task_at (x : nat) : nat * Z * bool := (x, 0, true).
Definition overtake : list (nat * Z * bool) :=
  [task_at 0; (0%nat, 1, false); task_at 0; task_at 0; task_at 0] ++ [task_at 1; (1%nat, 2, false)] ++ replicate 6 (task_at 1).
Definition finish : list (nat * Z * bool) := overtake ++ replicate 15 (task_at 0).
Definition after (sched : list (nat * Z * bool)) : option (state Z (input_buffer Z)) :=
  σ ← start 0 (fill_pipeline three_filters) 2; run 0 (fill_pipeline three_filters) sched σ.
Definition state_after sched : state Z (input_buffer Z) := default (State 0 false [] [] [] [] []) (after sched).

Lemma after_reaches sched : is_Some (after sched) → reaches 0 three_filters 2 (length sched) (state_after sched).
Proof.
  intros [σ E]. unfold state_after. rewrite E. apply bind_Some in E as (σ0 & E0 & E). exists σ0. split; [exact E0|]. by apply run_nsteps.
Qed.

Lemma pipeline_safe_witness :
  (length (filter (λ t, in_call 2 t = true) (tasks (state_after overtake))) ≤ 1)%nat ∧
  Z.of_nat (length (calls_with (state_after overtake) 0)) ≤ Z.of_nat (length (calls_with (state_after overtake) 3)) + 2.
Proof.
  destruct (pipeline_safe 0 three_filters 2 (length overtake) (state_after overtake)) as (_ & H1 & H2);
    [lia|apply after_reaches; vm_compute; eauto|]. split; [|exact H2]. apply H1. eexists. split; [reflexivity|]. reflexivity.
Defined.

Lemma pipeline_in_order_witness : calls_with (state_after finish) 2 = [11; 12] ∧
  [11; 12] `prefix_of` (way (fill_pipeline three_filters) 0 2 <$> calls_with (state_after finish) 0).
Proof.
  split; [vm_compute; reflexivity|]. apply (pipeline_in_order 0 three_filters 2 (length finish) (state_after finish) 0 2);
    [lia|apply after_reaches; vm_compute; eauto|eexists; split; reflexivity|eexists; split; reflexivity|lia].
Defined.

Lemma pipeline_complete_witness : produced (state_after finish) = [1; 2] ∧ calls_with (state_after finish) 1 = [2; 1] ∧
  calls_with (state_after finish) 2 = way (fill_pipeline three_filters) 0 2 <$> [1; 2].
Proof.
  destruct (pipeline_complete 0 three_filters 2 (length finish) (state_after finish)) as (_ & _ & H);
    [lia|apply after_reaches; vm_compute; eauto|vm_compute; reflexivity|].
  split_and!; [vm_compute; reflexivity..|]. apply (H 2%nat); eexists; split; reflexivity.
Defined.

Lemma pipeline_terminates_witness : Z.of_nat (length finish) ≤ 6 * 2 + 5 + (5 * 3 + 6) * 2.
Proof.
  exact (proj1 (pipeline_terminates 0 three_filters 2 (length finish) (state_after finish)
    ltac:(lia) (after_reaches finish ltac:(vm_compute; eauto)))).
Defined.
End PipelineExamples.
