(* ===== verification/PipelineCancel.v ===== *)
(** * Cancellation of a parallel_pipeline

    src/tbb/parallel_pipeline.cpp: [stage_task::cancel], [~stage_task],
    [~input_buffer] and [~pipeline].  When the group of a pipeline is cancelled,
    a task that waits to be executed is deleted instead, and finalizes its
    object; a task that is inside [execute_filter] goes on until it returns to the
    scheduler.  When no task is left, the pipeline is destroyed with its buffers.

    The theorem accounts for every item that was produced. *)

From S2P Require Import Prelude InputBuffer Pipeline PipelineTheorems.
From stdpp Require Import base numbers relations gmap list.
From Stdlib Require Import ZArith Lia.
Local Open Scope Z_scope.

Module PipelineCancel.
Import Pipeline.

Section cancel.
Context {V B : Type} `{EqDecision V} `{Buffer V B} (null : V) (filters : list (base_filter V)).
Implicit Types (t : stage_task V) (σ : state V B).

(** [stage_task::cancel] deletes the task: [~stage_task] calls [finalize] of its
    filter on its object, unless that is null. *)
Definition cancel_task t : list (nat * V) :=
  if bool_decide (my_object (info t) = null) then [] else [(my_filter t, my_object (info t))].

Definition waits_for_execution t : bool := match at_place t with Enter => true | _ => false end.

(** One step after the cancellation, with the calls of [finalize].  The scheduler
    tests for the cancellation before it executes a task, so that a task for which
    it did so early may still be executed. *)
Definition cancel_at (x : nat) (fin : list (nat * V)) σ : option (state V B * list (nat * V)) :=
  t ← tasks σ !! x;
  if waits_for_execution t then
    Some (set_tasks (take x (tasks σ) ++ drop (S x) (tasks σ)) σ, fin ++ cancel_task t)
  else None.
Inductive cancel_step : state V B * list (nat * V) → state V B * list (nat * V) → Prop :=
  | cancel_deletes x σ fin next : cancel_at x fin σ = Some next → cancel_step (σ, fin) next
  | cancel_goes_on σ fin σ' : step null filters σ σ' → cancel_step (σ, fin) (σ', fin).

(** [~pipeline]: for each filter [~input_buffer] frees the array, without looking
    at the items in it.  The result has the buffers that are left, and all calls
    of [finalize]. *)
Fixpoint destroy_pipeline (fs : list (base_filter V)) (bs : list B) (fin : list (nat * V))
  : list B * list (nat * V) :=
  match fs with
  | [] => (bs, fin)
  | _ :: fs => destroy_pipeline fs (tail bs) fin
  end.

(** A run after the cancellation: the tasks that are deleted, at their positions. *)
Fixpoint cancel_all (xs : list nat) (σ : state V B) (fin : list (nat * V)) : option (state V B * list (nat * V)) :=
  match xs with
  | [] => Some (σ, fin)
  | x :: xs => '(σ, fin) ← cancel_at x fin σ; cancel_all xs σ fin
  end.

Lemma cancel_all_steps xs σ fin next : cancel_all xs σ fin = Some next → rtc cancel_step (σ, fin) next.
Proof.
  revert σ fin. induction xs as [|x xs IH]; intros σ fin E; simpl in E; [by simplify_eq|].
  apply bind_Some in E as ([σ1 fin1] & E1 & E). eapply rtc_l; [by eapply cancel_deletes|by apply IH].
Qed.

Lemma destroy_all fs bs fin : (length bs ≤ length fs)%nat → destroy_pipeline fs bs fin = ([], fin).
Proof.
  revert bs. induction fs as [|f fs IH]; intros [|b bs] Hl; simpl in *; try done; try lia.
  - apply (IH []). simpl. lia.
  - apply IH. lia.
Qed.

(** ** A deleted task is one that is never executed *)
Lemma execute_filter_set_tasks v stopped t ts σ :
  execute_filter null filters v stopped t (set_tasks ts σ) =
  prod_map id (set_tasks ts) <$> execute_filter null filters v stopped t σ.
Proof.
  unfold execute_filter, advance_task, first_filter, try_spawn_stage_task, note_order.
  change (input_tokens (set_tasks ts σ)) with (input_tokens σ). change (buffers (set_tasks ts σ)) with (buffers σ).
  change (end_of_input (set_tasks ts σ)) with (end_of_input σ).
  repeat (cbn [mbind option_bind]; try reflexivity;
    match goal with
    | |- context [mbind _ ?x] =>
        lazymatch x with context [match _ with _ => _ end] => fail | mbind _ _ => fail | Some _ => fail | _ => destruct x end
    | |- context [match ?x with _ => _ end] => lazymatch x with context [match _ with _ => _ end] => fail | _ => destruct x end
    end).
Qed.

(** The tasks of an execution without cancellation, with whether they are still
    there after the cancellation. *)
Definition alive (M : list (stage_task V * bool)) : list (stage_task V) := omap (λ x, if x.2 : bool then Some x.1 else None) M.
Definition dead (M : list (stage_task V * bool)) : list (stage_task V) := omap (λ x, if x.2 : bool then None else Some x.1) M.

Lemma alive_split M l1 t l2 : alive M = l1 ++ t :: l2 →
  ∃ M1 M2, M = M1 ++ (t, true) :: M2 ∧ alive M1 = l1 ∧ alive M2 = l2.
Proof.
  revert l1. induction M as [|[t0 []] M IH]; intros l1 E; simpl in *; [by destruct l1| |].
  - destruct l1 as [|t1 l1]; simplify_eq/=; [by exists [], M|].
    destruct (IH l1) as (M1 & M2 & -> & <- & <-); [done|]. by exists ((t1, true) :: M1), M2.
  - destruct (IH l1 E) as (M1 & M2 & -> & <- & <-). by exists ((t0, false) :: M1), M2.
Qed.

Lemma alive_all ts : alive ((λ t, (t, true)) <$> ts) = ts ∧ dead ((λ t, (t, true)) <$> ts) = [] ∧
  ((λ t, (t, true)) <$> ts).*1 = ts.
Proof. induction ts as [|t ts (IH1 & IH2 & IH3)]; [done|]. unfold alive, dead in *. csimpl. by rewrite IH1, IH2, IH3. Qed.

Definition shadow σ0 σ (fin : list (nat * V)) : Prop :=
  ∃ M, rtc (step null filters) σ0 (set_tasks M.*1 σ) ∧ tasks σ = alive M ∧
    Forall (λ t, waits_for_execution t = true) (dead M) ∧ fin ≡ₚ dead M ≫= cancel_task.

Lemma shadow_step σ0 σ σ' fin : step null filters σ σ' → shadow σ0 σ fin → shadow σ0 σ' fin.
Proof.
  intros [l1 t l2 v stopped ts σ1 σ2 Ht E] (M & Hr & Hal & Hd & Hf).
  rewrite Hal in Ht. destruct (alive_split _ _ _ _ Ht) as (M1 & M2 & -> & <- & <-).
  destruct (alive_all ts) as (Ha1 & Ha2 & Ha3).
  exists (M1 ++ ((λ t, (t, true)) <$> ts) ++ M2). unfold alive, dead in *. rewrite !omap_app in *. simpl in *.
  rewrite Ha1, Ha2. split_and!; [|done..].
  eapply rtc_r; [exact Hr|]. rewrite !fmap_app, Ha3. simpl.
  refine (step_task null filters (M1.*1) t (M2.*1) v stopped ts _ (set_tasks (M1.*1 ++ t :: M2.*1) σ2) _ _); [done|].
  by rewrite execute_filter_set_tasks, E.
Qed.

Lemma shadow_delete σ0 σ x fin σ' fin' :
  cancel_at x fin σ = Some (σ', fin') → shadow σ0 σ fin → shadow σ0 σ' fin'.
Proof.
  intros (t & Hx & E)%bind_Some (M & Hr & Hal & Hd & Hf).
  destruct (waits_for_execution t) eqn:Hw; [|done]. injection E as <- <-.
  assert (Ht : alive M = take x (tasks σ) ++ t :: drop (S x) (tasks σ)) by (by rewrite <- Hal, take_drop_middle).
  destruct (alive_split _ _ _ _ Ht) as (M1 & M2 & -> & E1 & E2).
  exists (M1 ++ (t, false) :: M2). unfold alive, dead in *. rewrite <- E1, <- E2. rewrite !omap_app in *. simpl in *.
  split_and!; [|done| |].
  - rewrite fmap_app in *. exact Hr.
  - apply Forall_app in Hd as [? ?]. apply Forall_app. split; [done|]. by constructor.
  - rewrite Hf, !bind_app, bind_cons. solve_Permutation.
Qed.

Lemma shadow_run σ0 fin0 σ fin : fin0 = [] → rtc cancel_step (σ0, fin0) (σ, fin) → shadow σ0 σ fin.
Proof.
  intros -> Hr. remember (σ, fin) as next eqn:En. revert σ fin En.
  pattern next. eapply rtc_ind_r; [| |exact Hr].
  - intros σ fin [= <- <-]. exists ((λ t, (t, true)) <$> tasks σ0).
    destruct (alive_all (tasks σ0)) as (-> & -> & ->). split_and!; try done. by destruct σ0.
  - intros y z _ Hs IH σ fin ->. inversion Hs as [x σ1 fin1 nx E|σ1 fin1 σ2 E]; subst.
    + eapply shadow_delete; [done|]. by apply IH.
    + eapply shadow_step; [done|]. by apply IH.
Qed.

(** ** The object of a task that has not read its input is null *)
Definition entry_ok t : Prop := waits_for_execution t = true → my_at_start t = true → my_object (info t) = null.

Lemma execute_entries v stopped t σ ts σ' :
  execute_filter null filters v stopped t σ = Some (ts, σ') → Forall entry_ok ts ∧ tasks σ' = tasks σ.
Proof.
  unfold execute_filter, advance_task, first_filter, try_spawn_stage_task, note_order. intros E.
  repeat first [progress simplify_eq/= | case_match
    | match goal with H : _ ≫= _ = Some _ |- _ => apply bind_Some in H as (? & ? & ?) end];
    (split; [repeat constructor; done|done]).
Qed.

Lemma step_entries σ σ' : step null filters σ σ' → Forall entry_ok (tasks σ) → Forall entry_ok (tasks σ').
Proof.
  intros [l1 t l2 v stopped ts σ1 σ2 Ht E] Hok. simpl. rewrite Ht in Hok.
  apply Forall_app in Hok as [H1 [_ H2]%Forall_cons]. apply execute_entries in E as [Hts _].
  apply Forall_app. split; [done|]. by apply Forall_app.
Qed.

Lemma steps_entries k σ σ' : nsteps (step null filters) k σ σ' → Forall entry_ok (tasks σ) → Forall entry_ok (tasks σ').
Proof. induction 1; [done|]. intros. eauto using step_entries. Qed.

Lemma start_entries n σ : start null filters n = Some σ → Forall entry_ok (tasks σ).
Proof. intros (bs & _ & [= <-])%bind_Some. by repeat constructor. Qed.
End cancel.

(** ** What is in flight makes up for the items that have not left *)
Section conservation.
Import Waiting PipelineSpec PipelineSafety.
Context {V : Type} `{EqDecision V} (filters : list (base_filter V)) (Hlen : (1 ≤ length filters)%nat).
Local Abbreviation len := (length filters).
Implicit Types (σ : state V (waiting V)) (F : list (nat * task_info V)).

(** What the filters up to [k] will make of an item in flight. *)
Definition rest (k : nat) (x : nat * task_info V) : V := way filters x.1 k (my_object x.2).

Lemma rest_S k F :
  rest (S k) <$> filter (λ x, (1 ≤ x.1 ≤ S k)%nat) F ≡ₚ
  at_stage (S k) F ++ (function filters k <$> (rest k <$> filter (λ x, (1 ≤ x.1 ≤ k)%nat) F)).
Proof.
  induction F as [|[s i] F IH]; [done|]. rewrite at_stage_cons, !filter_cons. simpl.
  destruct (decide (s = S k)) as [->|Hne].
  - rewrite decide_True, decide_False by lia. rewrite fmap_cons, IH. unfold rest at 1. simpl. by rewrite way_refl.
  - destruct (decide (1 ≤ s ≤ k)%nat) as [Hs|Hs].
    + rewrite decide_True by lia. rewrite !fmap_cons, IH.
      assert (rest (S k) (s, i) = function filters k (rest k (s, i))) as -> by (apply (way_S filters Hlen); simpl; lia). solve_Permutation.
    + rewrite decide_False by lia. exact IH.
Qed.

Lemma calls_rest σ k : inv filters σ → (k ≤ len)%nat →
  way filters 0 k <$> calls_of σ 0 ≡ₚ calls_of σ k ++ (rest k <$> filter (λ x, (1 ≤ x.1 ≤ k)%nat) (flight filters σ)).
Proof.
  intros Hi. induction k as [|k IH]; intros Hk.
  - assert (filter (λ x, (1 ≤ x.1 ≤ 0)%nat) (flight filters σ) = []) as ->.
    { apply elem_of_nil_inv. intros x [Hx _]%list_elem_of_filter. lia. }
    rewrite app_nil_r. rewrite <- (list_fmap_id (calls_of σ 0)) at 2. apply reflexive_eq, list_fmap_ext.
    intros x v _. by rewrite way_refl.
  - pose proof (it_conserved _ _ (iv_items _ _ Hi) k ltac:(lia)) as Hc.
    rewrite rest_S, app_assoc, <- Hc, <- fmap_app, <- IH by lia.
    rewrite <- list_fmap_compose. apply reflexive_eq, list_fmap_ext. intros x v _. unfold compose. by rewrite (way_S filters Hlen) by lia.
Qed.

Lemma all_rest σ : inv filters σ →
  way filters 0 len <$> calls_of σ 0 ≡ₚ calls_of σ len ++ (rest len <$> flight filters σ).
Proof.
  intros Hi. rewrite (calls_rest σ len Hi) by done.
  assert (Hst : ∀ s i, (s, i) ∈ flight filters σ → (1 ≤ s ≤ len)%nat) by (eapply or_stage, it_ordering, iv_items, Hi).
  assert (filter (λ x, (1 ≤ x.1 ≤ len)%nat) (flight filters σ) = flight filters σ) as ->; [|done].
  induction (flight filters σ) as [|[s i] F IH]; [done|]. rewrite filter_cons, decide_True by (apply (Hst s i); by left).
  f_equal. apply IH. intros s' i' Hx. apply (Hst s' i'). by right.
Qed.
End conservation.

(** ** The items in the array of a buffer *)
Section deferred.
Import Circular Waiting BufferRefinement.
Context {V : Type}.
Implicit Types (b : input_buffer V) (l : list (task_info V)).

(** The objects of the items that wait in a buffer. *)
Definition deferred b : list V := my_object <$> filter (λ i, is_valid i = true) (array b).

Definition valid_at l (x : nat) : option V := i ← l !! x; if is_valid i then Some (my_object i) else None.

Lemma valid_seq l : my_object <$> filter (λ i, is_valid i = true) l = omap (valid_at l) (seq 0 (length l)).
Proof.
  induction l as [|i l IH] using rev_ind; [done|].
  rewrite length_app, Nat.add_1_r, seq_S, omap_app, filter_app, fmap_app, IH. f_equal.
  - apply list_omap_ext. apply Forall_Forall2_diag, Forall_forall. intros x Hx%elem_of_seq.
    unfold valid_at. by rewrite lookup_app_l by lia.
  - unfold valid_at. simpl. rewrite lookup_app_r, Nat.sub_diag by lia. simpl. rewrite filter_cons. by destruct (is_valid i).
Qed.

(** The tokens of the window of an array of size [P], and their slots. *)
Definition window (low P : Z) : list Z := (λ j, low + Z.of_nat j) <$> seq 0 (Z.to_nat P).
Lemma elem_of_window low P t : 0 < P → t ∈ window low P ↔ low ≤ t < low + P.
Proof.
  intros HP. unfold window. rewrite list_elem_of_fmap. setoid_rewrite elem_of_seq. split.
  - intros (j & -> & Hj). lia.
  - intros Ht. exists (Z.to_nat (t - low)). lia.
Qed.
Lemma window_nodup low P : NoDup (window low P).
Proof. apply NoDup_fmap_2; [intros ???; lia|apply NoDup_seq]. Qed.

Lemma window_slots low P : 0 < P →
  (λ t, Z.to_nat (t mod P)) <$> window low P ≡ₚ seq 0 (Z.to_nat P).
Proof.
  intros HP. apply submseteq_length_Permutation; [|unfold window; by rewrite !length_fmap].
  apply NoDup_submseteq.
  - apply NoDup_fmap_2_strong; [|apply window_nodup].
    intros t u Ht%(elem_of_window _ _ _ HP) Hu%(elem_of_window _ _ _ HP) E.
    apply (window_inj P low); [done..|]. pose proof (Z.mod_pos_bound t P HP). pose proof (Z.mod_pos_bound u P HP). lia.
  - intros x (t & -> & _)%list_elem_of_fmap. apply elem_of_seq. pose proof (Z.mod_pos_bound t P HP). lia.
Qed.

Lemma omap_of_fmap {A C D} (f : A → C) (g : C → option D) (l : list A) : omap g (f <$> l) = omap (λ x, g (f x)) l.
Proof. induction l as [|x l IH]; [done|]. csimpl. by rewrite IH. Qed.

Lemma pend_window p b (w : waiting V) : buffer_rel p b w →
  omap (λ t, (λ i, (t, i)) <$> pend w !! t) (window (low w) (2 ^ p)) ≡ₚ map_to_list (pend w).
Proof.
  intros [_ Hp _ _ _ Hpe _]. pose proof (Z.pow_pos_nonneg 2 p ltac:(lia) ltac:(lia)) as HP. apply NoDup_Permutation.
  - pose proof (window_nodup (low w) (2 ^ p)) as Hn.
    induction (window (low w) (2 ^ p)) as [|t ts IH]; [constructor|]. apply NoDup_cons in Hn as [Ht Hn]. csimpl.
    destruct (pend w !! t) as [i|]; [|by apply IH]. simpl. constructor; [|by apply IH].
    intros (u & Hu & E)%list_elem_of_omap. destruct (pend w !! u); by simplify_eq/=.
  - apply NoDup_map_to_list.
  - intros [t i]. rewrite list_elem_of_omap, elem_of_map_to_list. split.
    + intros (u & _ & (j & Hj & [= -> ->])%fmap_Some). done.
    + intros Hi. exists t. rewrite Hi. split; [|done]. apply elem_of_window; [done|]. pose proof (Hpe _ _ Hi). lia.
Qed.

Lemma deferred_rel p b (w : waiting V) : buffer_rel p b w →
  deferred b ≡ₚ (λ x, my_object x.2) <$> map_to_list (pend w).
Proof.
  intros Hr. pose proof Hr as [Hsz Hp _ _ _ _ Hsl]. pose proof (Z.pow_pos_nonneg 2 p ltac:(lia) ltac:(lia)) as HP.
  unfold deferred. rewrite valid_seq, <- (pend_window p b w Hr).
  replace (length (array b)) with (Z.to_nat (2 ^ p)) by (unfold array_size in Hsz; lia).
  rewrite <- (window_slots (low w) (2 ^ p) HP), omap_of_fmap, list_fmap_omap.
  apply reflexive_eq, list_omap_ext, Forall_Forall2_diag, Forall_forall.
  intros t Ht%(elem_of_window _ _ _ HP). unfold valid_at, compose. destruct (Hsl t Ht) as (s & -> & Hs). simpl.
  destruct (pend w !! t) as [i|]; simpl; [|by rewrite Hs]. destruct Hs as [[E _ _ _] ->]. by rewrite E.
Qed.
End deferred.

(** ** The items of a cancelled pipeline *)
Section accounts.
Import Circular Waiting BufferRefinement PipelineSpec PipelineSafety PipelineRefinement PipelineCorrect.
Context {V : Type} `{EqDecision V} (null : V) (root : filter_node (V := V)).
#[local] Instance cancel_buffer : Buffer V (input_buffer V) := circular_buffer null.
Local Abbreviation filters := (fill_pipeline root).
Local Abbreviation len := (length filters).
Local Abbreviation array_state := (state V (input_buffer V)).
Implicit Types (σ : array_state) (n : Z) (fin : list (nat * V)).

(** The items in the buffers, with the filter for which they wait. *)
Definition deferred_from (k : nat) (bs : list (input_buffer V)) : list (nat * V) :=
  concat (imap (λ j b, (λ v, ((k + j)%nat, v)) <$> deferred b) bs).
Definition deferred_items σ : list (nat * V) := deferred_from 0 (buffers σ).

(** What the rest of the pipeline would have made of an item before filter [x.1]. *)
Definition would_leave (x : nat * V) : V := way filters x.1 len x.2.

Definition item_of (x : nat * task_info V) : nat * V := (x.1, my_object x.2).

Lemma deferred_waiting (bs : list (input_buffer V)) (ws : list (waiting V)) k : Forall2 buffers_rel bs ws →
  deferred_from k bs ≡ₚ item_of <$> waiting_from k ws.
Proof.
  intros Hr. revert k. induction Hr as [|b w bs ws [p Hb] _ IH]; intros k; [done|].
  rewrite waiting_from_cons, fmap_app. rewrite <- (IH (S k)). unfold deferred_from at 1. simpl. rewrite Nat.add_0_r. f_equiv.
  - unfold waiting_at. rewrite (deferred_rel p b w Hb), <- !list_fmap_compose. done.
  - unfold deferred_from. apply reflexive_eq. f_equal. apply imap_ext. intros j b' _. simpl. apply list_fmap_ext.
    intros _ v _. f_equal. lia.
Qed.

Lemma cancelled_tasks (ts tas : list (stage_task V)) : Forall2 task_rel ts tas →
  Forall (λ t, waits_for_execution t = true) ts → Forall (entry_ok null) ts →
  omap accepting tas = [] ∧
  ∃ nulls, Forall (λ x, x.2 = null) nulls ∧ item_of <$> omap (dest filters) tas ≡ₚ (ts ≫= cancel_task null) ++ nulls.
Proof.
  induction 1 as [|t ta ts tas [E1 E2 E3 E4] _ IH]; intros Hw He; [split; [done|]; by exists []|].
  apply Forall_cons in Hw as [Hw Hws]. apply Forall_cons in He as [He Hes]. destruct (IH Hws Hes) as (Ha & nulls & Hn & Hp).
  assert (Hpl : at_place ta = Enter) by (unfold waits_for_execution in Hw; rewrite <- E4; by destruct (at_place t)).
  specialize (He Hw). rewrite bind_cons. csimpl. unfold accepting at 1, dest at 1, cancel_task at 1. rewrite Hpl, <- E2, <- E1.
  split; [done|]. destruct (my_at_start t).
  - rewrite bool_decide_true by auto. simpl. eauto.
  - simpl. unfold item_of at 1. simpl. rewrite <- (rel_object _ _ E3). case_bool_decide as Hz.
    + exists ((my_filter t, my_object (info t)) :: nulls). split; [by constructor|]. rewrite Hp. solve_Permutation.
    + exists nulls. split; [done|]. rewrite Hp. done.
Qed.

(** C37: a pipeline is cancelled in any state, and its tasks are deleted or run to
    their end; then it is destroyed.  Every item that the first filter produced
    is then accounted for exactly once: it has left the last filter, or
    [finalize] was called on what the filters before had made of it, or that was
    null, or it was waiting in an input buffer.  So the items in the buffers, and
    only they, are lost: neither [~input_buffer] nor [~pipeline] finalizes them. *)
Theorem cancelled_pipeline_accounts n m σ σ' fin : 1 ≤ n < 2 ^ 62 - 1 → reaches null root n m σ →
  rtc (cancel_step null filters) (σ, []) (σ', fin) → tasks σ' = [] →
  ∃ left finalized nulls,
    destroy_pipeline filters (buffers σ') fin = (left, finalized) ∧ left = [] ∧ Forall (λ x, x.2 = null) nulls ∧
    way filters 0 len <$> produced σ' ≡ₚ
      calls_with σ' len ++ (would_leave <$> (finalized ++ nulls ++ deferred_items σ')).
Proof.
  intros Hn (σ0 & Es & Hs) Hc Ht.
  destruct (shadow_run null filters σ [] σ' fin eq_refl Hc) as (M & Hr & Hal & Hd & Hf).
  assert (HM : dead M = M.*1).
  { rewrite Ht in Hal. clear -Hal. induction M as [|[t []] M IH]; [done|done|]. unfold dead in *. csimpl. f_equal. by apply IH. }
  rewrite HM in Hd, Hf. apply rtc_nsteps in Hr as [m' Hr].
  pose proof (nsteps_trans _ _ _ _ _ Hs Hr) as Hall.
  destruct (reached null root n _ _ Hn (ex_intro _ σ0 (conj Es Hall))) as (σ1 & σa & _ & _ & Hrel & Hg & Hcw).
  assert (Hent : Forall (entry_ok null) (M.*1)).
  { exact (steps_entries null filters _ _ _ Hall (start_entries null filters n σ0 Es)). }
  destruct (cancelled_tasks (M.*1) (tasks σa) (sr_tasks _ _ Hrel) Hd Hent) as (Hacc & nulls & Hnul & Hp).
  assert (Hlb : length (buffers σ') = len).
  { change (buffers σ') with (buffers (set_tasks M.*1 σ')). rewrite (Forall2_length _ _ _ (sr_buffers _ _ Hrel)). apply (iv_buffers _ _ (gd_inv _ _ _ _ Hg)). }
  exists [], fin, nulls. split_and!; [apply destroy_all; simpl in *; lia|done|done|].
  change (produced σ') with (produced (set_tasks M.*1 σ')). rewrite (sr_produced _ _ Hrel), (in_produced _ _ _ (gd_input _ _ _ _ Hg)).
  rewrite Hacc, app_nil_r, (all_rest filters (fill_pipeline_nonempty root) σa (gd_inv _ _ _ _ Hg)).
  rewrite <- (Hcw len). apply Permutation_app; [done|].
  unfold flight. rewrite fmap_app. rewrite app_assoc, fmap_app. f_equiv.
  - rewrite Hf, <- Hp, <- list_fmap_compose. done.
  - unfold deferred_items. rewrite (deferred_waiting _ _ 0 (sr_buffers _ _ Hrel)), <- list_fmap_compose. done.
Qed.
End accounts.
End PipelineCancel.

(** The second item waits for the first one, which has not gone through the second
    filter, when the pipeline is cancelled: the first is finalized, the second is lost. *)
Module PipelineCancelExamples.
Import Circular Pipeline PipelineCorrect PipelineExamples PipelineCancel.
#[local] Instance cancel_example_buffer : Buffer Z (input_buffer Z) := circular_buffer 0.

Definition cancelled : state Z (input_buffer Z) * list (nat * Z) :=
  default (State 0 false [] [] [] [] [], []) (cancel_all 0 [0]%nat (state_after overtake) []).

Lemma cancelled_pipeline_accounts_witness :
  tasks cancelled.1 = [] ∧ produced cancelled.1 = [1; 2] ∧ calls_with cancelled.1 3 = [] ∧
  cancelled.2 = [(1%nat, 1)] ∧ deferred_items cancelled.1 = [(2%nat, 12)] ∧
  ∃ nulls, Forall (λ x, x.2 = 0) nulls ∧ [11; 12] ≡ₚ would_leave three_filters <$> ([(1%nat, 1)] ++ nulls ++ [(2%nat, 12)]).
Proof.
  assert (Hc : cancel_all 0 [0]%nat (state_after overtake) [] = Some (cancelled.1, cancelled.2)) by (vm_compute; reflexivity).
  destruct (cancelled_pipeline_accounts 0 three_filters 2 (length overtake) (state_after overtake) cancelled.1 cancelled.2)
    as (lft & fin & nulls & Hd & _ & Hn & H);
    [lia|apply after_reaches; vm_compute; eauto|exact (cancel_all_steps 0 _ _ _ _ _ Hc)|vm_compute; reflexivity|].
  assert (E : destroy_pipeline (fill_pipeline three_filters) (buffers cancelled.1) cancelled.2 = ([], [(1%nat, 1)])) by (vm_compute; reflexivity).
  rewrite E in Hd. injection Hd as _ <-.
  do 5 (split; [vm_compute; reflexivity|]). exists nulls. split; [exact Hn|].
  exact H.
Defined.
End PipelineCancelExamples.
