(* ===== verification/MicroQueue.v ===== *)
(** * The micro queues of concurrent_queue

    A concurrent queue is made of eight micro queues; the ticket of an operation
    says which one it uses, and the micro queue serves the tickets in turn.  The
    items are in pages, a linked list that grows at the tail and shrinks at the
    head.  Source: include/oneapi/tbb/detail/_concurrent_queue_base.h
    ([micro_queue], [micro_queue_pop_finalizer]).

    A call of [push] or [pop] is at a place; every access to shared memory is a
    step of its own.  Pages are in a heap: an access to a page that is not
    allocated, the pages at the addresses 0 and 1 included, is [None].  Tickets
    are unbounded integers: [2 ^ 64] operations on one queue do not happen. *)

From S2P Require Import Prelude.
From stdpp Require Import base numbers gmap list.
From Stdlib Require Import ZArith Lia.
Local Open Scope Z_scope.

Module MicroQueue.

(** ** Pages *)

(** [items_per_page], from the size of an item. *)
Definition items_per_page (item_size : Z) : Z :=
  if item_size <=? 8 then 32 else if item_size <=? 16 then 16 else if item_size <=? 32 then 8
  else if item_size <=? 64 then 4 else if item_size <=? 128 then 2 else 1.
Definition n_queue : Z := 8.

(** [nullptr], the address 1 and the addresses of pages; [is_valid_page] *)
Inductive pointer := Null | InvalidPage | Ptr (a : nat).
#[global] Instance pointer_eq_dec : EqDecision pointer.
Proof. solve_decision. Defined.
Definition is_valid_page (p : pointer) : bool := match p with Ptr _ => true | _ => false end.

(** [padded_page]; an item that is not constructed is [None]. *)
Record padded_page (V : Type) := Page {
  next : pointer;
  mask : Z;
  items : list (option V);
}.
Arguments Page {V}.
Arguments next {V}.
Arguments mask {V}.
Arguments items {V}.

(** [micro_queue], with its pages. *)
Record micro_queue (V : Type) := Micro {
  head_page : pointer;
  head_counter : Z;
  tail_page : pointer;
  tail_counter : Z;
  pages : gmap nat (padded_page V);
}.
Arguments Micro {V}.
Arguments head_page {V}.
Arguments head_counter {V}.
Arguments tail_page {V}.
Arguments tail_counter {V}.
Arguments pages {V}.

Section micro_queue.
Context {V : Type} (item_size : Z).
Local Abbreviation per_page := (items_per_page item_size).
Implicit Types (q : micro_queue V) (pg : padded_page V) (k : Z) (p : pointer) (a : nat).

Definition empty_queue : micro_queue V := Micro Null 0 Null 0 ∅.
Definition empty_page : padded_page V := Page Null 0 (replicate (Z.to_nat per_page) None).

Definition set_head_page p q : micro_queue V := Micro p (head_counter q) (tail_page q) (tail_counter q) (pages q).
Definition set_tail_page p q : micro_queue V := Micro (head_page q) (head_counter q) p (tail_counter q) (pages q).
Definition set_head_counter c q : micro_queue V := Micro (head_page q) c (tail_page q) (tail_counter q) (pages q).
Definition set_tail_counter c q : micro_queue V := Micro (head_page q) (head_counter q) (tail_page q) c (pages q).
Definition set_pages m q : micro_queue V := Micro (head_page q) (head_counter q) (tail_page q) (tail_counter q) m.

(** Access to a page. *)
Definition get_page p q : option (padded_page V) := match p with Ptr a => pages q !! a | _ => None end.
Definition put_page p pg q : micro_queue V := match p with Ptr a => set_pages (<[a := pg]> (pages q)) q | _ => q end.

(** [k &= -n_queue] and the index of the item in its page. *)
Definition turn k : Z := Z.land k (- n_queue).
Definition item_index k : Z := Z.land (turn k / n_queue) (per_page - 1).

(** ** push *)

(** The places: before the allocation in [prepare_page]; in
    [spin_wait_until_my_turn] (with the new page, if any); before the page is
    linked or loaded; before the construction of the item; before the bit of the
    mask is set; before [n_invalid_entries] is incremented after an exception;
    before the turn is given to the next ticket; before [invalidate_page]. *)
Inductive push_place :=
  | PreparePage
  | WaitTurn (p : pointer)
  | TakePage (p : pointer)
  | Construct (p : pointer)
  | MarkItem (p : pointer)
  | CountInvalid
  | ReleaseTurn (thrown : bool)
  | Invalidate
  | PushReturned (thrown : bool).

(** What the allocator and the constructor do: [address] is that of the new page. *)
Record outcome := Outcome { throws : bool; address : nat }.

(** [prepare_page], where the page is linked or loaded; under [page_mutex] *)
Definition take_page p q : option (pointer * micro_queue V) :=
  match p with
  | Null => Some (tail_page q, q)
  | _ =>
      q ← (if is_valid_page (tail_page q) then
             pg ← get_page (tail_page q) q;
             Some (put_page (tail_page q) (Page p (mask pg) (items pg)) q)
           else Some (set_head_page p q));
      Some (p, set_tail_page p q)
  end.

(** [invalidate_page]; under [page_mutex] *)
Definition invalidate_page k q : option (micro_queue V) :=
  let q := set_tail_counter (turn k + n_queue + 1) q in
  q ← (if is_valid_page (tail_page q) then
         pg ← get_page (tail_page q) q;
         Some (put_page (tail_page q) (Page InvalidPage (mask pg) (items pg)) q)
       else Some (set_head_page InvalidPage q));
  Some (set_tail_page InvalidPage q).

(** One operation of [push]; the number is the change of [n_invalid_entries]. *)
Definition push_step (o : outcome) k (v : V) (pl : push_place) q : option (push_place * Z * micro_queue V) :=
  match pl with
  | PreparePage =>
      if item_index k =? 0 then
        if throws o then Some (Invalidate, 1, q)
        else if decide (pages q !! address o = None) then
          Some (WaitTurn (Ptr (address o)), 0, set_pages (<[address o := empty_page]> (pages q)) q)
        else None
      else Some (WaitTurn Null, 0, q)
  | WaitTurn p =>
      if tail_counter q =? turn k then Some (TakePage p, 0, q)
      else if Z.odd (tail_counter q) then Some (PushReturned true, 1, q)
      else Some (WaitTurn p, 0, q)
  | TakePage p => '(p, q) ← take_page p q; Some (Construct p, 0, q)
  | Construct p =>
      pg ← get_page p q;
      if throws o then Some (CountInvalid, 0, q)
      else
        items ← write (items pg) (Z.to_nat (item_index k)) (Some v);
        Some (MarkItem p, 0, put_page p (Page (next pg) (mask pg) items) q)
  | MarkItem p =>
      pg ← get_page p q;
      Some (ReleaseTurn false, 0, put_page p (Page (next pg) (Z.lor (mask pg) (Z.shiftl 1 (item_index k))) (items pg)) q)
  | CountInvalid => Some (ReleaseTurn true, 1, q)
  | ReleaseTurn thrown => Some (PushReturned thrown, 0, set_tail_counter (tail_counter q + n_queue) q)
  | Invalidate => q ← invalidate_page k q; Some (PushReturned true, 0, q)
  | PushReturned _ => None
  end.

(** ** pop *)

(** The places: waiting for the turn and for the item; before [head_page] is
    read; before the item is taken; then, with the result, in the destructor of
    the finalizer: before the page is taken off the list, before the turn is given
    to the next ticket, before the page is freed. *)
Inductive pop_place :=
  | WaitHead
  | WaitTail
  | LoadPage
  | TakeItem (p : pointer)
  | Unlink (p : pointer) (r : option V)
  | StoreHead (p : pointer) (r : option V)
  | FreePage (p : pointer) (r : option V)
  | PopReturned (r : option V).

Definition unlink_page p q : option (micro_queue V) :=
  pg ← get_page p q;
  let q := set_head_page (next pg) q in
  Some (if is_valid_page (next pg) then q else set_tail_page Null q).

Definition pop_step k (pl : pop_place) q : option (pop_place * Z * micro_queue V) :=
  match pl with
  | WaitHead => Some (if head_counter q =? turn k then WaitTail else WaitHead, 0, q)
  | WaitTail => Some (if tail_counter q =? turn k then WaitTail else LoadPage, 0, q)
  | LoadPage => match head_page q with Null => None | p => Some (TakeItem p, 0, q) end
  | TakeItem p =>
      pg ← get_page p q;
      '(r, d, q) ← (if Z.testbit (mask pg) (item_index k) then
                      x ← items pg !! Z.to_nat (item_index k);
                      v ← x;
                      items ← write (items pg) (Z.to_nat (item_index k)) None;
                      Some (Some v, 0, put_page p (Page (next pg) (mask pg) items) q)
                    else Some (None, -1, q));
      Some (if item_index k =? per_page - 1 then Unlink p r else StoreHead Null r, d, q)
  | Unlink p r => q ← unlink_page p q; Some (StoreHead p r, 0, q)
  | StoreHead p r => Some (if is_valid_page p then FreePage p r else PopReturned r, 0, set_head_counter (turn k + n_queue) q)
  | FreePage p r => match p with
                    | Ptr a => pg ← pages q !! a; Some (PopReturned r, 0, set_pages (delete a (pages q)) q)
                    | _ => None
                    end
  | PopReturned _ => None
  end.
End micro_queue.
End MicroQueue.

(** ** The invariant of a micro queue *)
Module MicroInv.
Import MicroQueue.

Section inv.
Context {V : Type} (item_size : Z).
Local Abbreviation per := (items_per_page item_size).
Implicit Types (q : micro_queue V) (pg : padded_page V) (k m : Z) (p : pointer) (a : nat) (r : option V).

Lemma per_page_cases : ∃ e, 0 ≤ e ≤ 5 ∧ per = 2 ^ e.
Proof.
  unfold items_per_page. repeat case_match; [exists 5|exists 4|exists 3|exists 2|exists 1|exists 0]; done.
Qed.
Lemma per_page_pos : 0 < per.
Proof. destruct per_page_cases as (e & He & ->). apply Z.pow_pos_nonneg; lia. Qed.

(** The number of a ticket in its micro queue. *)
Definition number k : Z := k / n_queue.
Lemma turn_eq k : turn k = n_queue * number k.
Proof.
  unfold turn, number, n_queue. change (- (8)) with (Z.lnot (Z.ones 3)). rewrite <- Z.ldiff_land, Z.ldiff_ones_r by lia.
  rewrite Z.shiftr_div_pow2, Z.shiftl_mul_pow2 by lia. change (2 ^ 3) with 8. lia.
Qed.
Lemma item_index_eq k : item_index item_size k = number k mod per.
Proof.
  unfold item_index. rewrite turn_eq, Z.mul_comm, Z.div_mul by done. destruct per_page_cases as (e & He & ->).
  rewrite Z.sub_1_r, <- Z.ones_equiv, Z.land_ones by lia. done.
Qed.

(** The calls in progress. *)
Local Abbreviation pushing := (Z * V * push_place)%type.
Local Abbreviation popping := (Z * pop_place (V := V))%type.

Definition has_page (x : pushing) : bool :=
  match x.2 with Construct _ | MarkItem _ | CountInvalid | ReleaseTurn _ => true | _ => false end.
Definition has_item (x : popping) : bool := match x.2 with Unlink _ _ | StoreHead _ _ => true | _ => false end.
Definition has_unlinked (x : popping) : bool := match x.2 with StoreHead _ _ => true | _ => false end.
Definition has_left (x : popping) : bool := match x.2 with FreePage _ _ => true | _ => false end.
Definition is_reading (x : popping) : bool := match x.2 with TakeItem _ | Unlink _ _ => true | _ => false end.
Definition private_push (x : pushing) : list nat := match x.2 with WaitTurn (Ptr a) | TakePage (Ptr a) => [a] | _ => [] end.
Definition private_pop (x : popping) : list nat := match x.2 with StoreHead (Ptr a) _ | FreePage (Ptr a) _ => [a] | _ => [] end.
Definition count {A} (f : A → bool) (l : list A) : Z := zsum (λ x, Z.b2z (f x)) l.

Definition pointer_at (pgs : list nat) (j : nat) : pointer := from_option Ptr Null (pgs !! j).

(** The pages of the list have the numbers from [first_page] to [last_page - 1];
    an item of a page that is stored and not taken is in its place. *)
Section shape.
Context (c : Z → option (option V)).
Definition is_stored m : bool := match c m with Some (Some _) => true | _ => false end.
Record page_ok (n : Z) (taken : Z) (nx : pointer) pg : Prop := {
  pk_next : next pg = nx;
  pk_length : Z.of_nat (length (items pg)) = per;
  pk_mask m : 0 ≤ m → m / per = n → Z.testbit (mask pg) (m mod per) = is_stored m;
  pk_items m v : 0 ≤ m → m / per = n → taken ≤ m → c m = Some (Some v) → items pg !! Z.to_nat (m mod per) = Some (Some v);
}.

Definition push_ok (T : Z) (pgs : list nat) q (x : pushing) : Prop :=
  let '(k, v, pl) := x in
  let m := number k in
  match pl with
  | PreparePage => True
  | WaitTurn p => match p with Null => m mod per ≠ 0 | Ptr a => m mod per = 0 ∧ pages q !! a = Some (empty_page item_size) | InvalidPage => False end
  | TakePage p => m = T ∧ match p with Null => m mod per ≠ 0 | Ptr a => m mod per = 0 ∧ pages q !! a = Some (empty_page item_size) | InvalidPage => False end
  | Construct p => m = T ∧ ∃ a, p = Ptr a ∧ last pgs = Some a
  | MarkItem p => m = T ∧ ∃ a pg, p = Ptr a ∧ last pgs = Some a ∧ pages q !! a = Some pg ∧ items pg !! Z.to_nat (m mod per) = Some (Some v)
  | CountInvalid => m = T
  | ReleaseTurn thrown => m = T ∧ c m = Some (if thrown then None else Some v)
  | Invalidate | PushReturned _ => False
  end.
Definition pop_ok (T H : Z) (pgs : list nat) q (x : popping) : Prop :=
  let '(k, pl) := x in
  let m := number k in
  match pl with
  | WaitHead => True
  | WaitTail => m = H
  | LoadPage => m = H ∧ H < T
  | TakeItem p => m = H ∧ H < T ∧ p = pointer_at pgs 0
  | Unlink p r => m = H ∧ H < T ∧ p = pointer_at pgs 0 ∧ m mod per = per - 1 ∧ c m = Some r
  | StoreHead p r => m = H ∧ H < T ∧ c m = Some r ∧
      match p with Null => m mod per ≠ per - 1 | Ptr a => is_Some (pages q !! a) ∧ m mod per = per - 1 | InvalidPage => False end
  | FreePage p r => c m = Some r ∧ ∃ a, p = Ptr a ∧ is_Some (pages q !! a)
  | PopReturned _ => False
  end.

Definition first_page (H : Z) (Q : list popping) : Z := (H + count has_unlinked Q) / per.
Definition last_page (T : Z) (P : list pushing) : Z := (T + count has_page P + per - 1) / per.

Record micro_inv (pushes pops : Z) q (P : list pushing) (Q : list popping) (T H : Z) (pgs : list nat) : Prop := {
  mi_order : 0 ≤ H ≤ T;
  mi_tail : tail_counter q = n_queue * T;
  mi_head : head_counter q = n_queue * H;
  mi_pushes : T ≤ pushes ∧ (λ x, number x.1.1) <$> P ≡ₚ seqZ T (pushes - T);
  mi_pops : H ≤ pops ∧ (λ x, number x.1) <$> filter (λ x, has_left x = false) Q ≡ₚ seqZ H (pops - H);
  mi_stored m : 0 ≤ m → is_Some (c m) ↔ m < T ∨ m = T ∧ ∃ x thrown, x ∈ P ∧ x.2 = ReleaseTurn thrown;
  mi_length : Z.of_nat (length pgs) = last_page T P - first_page H Q;
  mi_head_page : head_page q = pointer_at pgs 0;
  mi_tail_page : tail_page q = from_option Ptr Null (last pgs);
  mi_chain j a : pgs !! j = Some a →
    ∃ pg, pages q !! a = Some pg ∧ page_ok (first_page H Q + Z.of_nat j) (H + count has_item Q) (pointer_at pgs (S j)) pg;
  mi_private : NoDup (pgs ++ (P ≫= private_push) ++ (Q ≫= private_pop));
  mi_push x : x ∈ P → push_ok T pgs q x;
  mi_pop x : x ∈ Q → pop_ok T H pgs q x;
}.
End shape.

Lemma count_cons {A} (f : A → bool) x l : count f (x :: l) = Z.b2z (f x) + count f l.
Proof. unfold count. by rewrite zsum_cons. Qed.
Lemma count_perm {A} (f : A → bool) l l' : l ≡ₚ l' → count f l = count f l'.
Proof. intros Hl. unfold count. by rewrite (zsum_perm _ _ _ Hl). Qed.
Lemma count_none {A} (f : A → bool) l : (∀ x, x ∈ l → f x = false) → count f l = 0.
Proof.
  intros Hf. induction l as [|x l IH]; [done|]. rewrite count_cons, Hf, IH; [done| |by left]. intros y Hy. apply Hf. by right.
Qed.
Lemma count_nonneg {A} (f : A → bool) l : 0 ≤ count f l.
Proof. apply zsum_nonneg, Forall_forall. intros x _. by destruct (f x). Qed.

Lemma micro_inv_perm c n1 n2 q P P' Q Q' T H pgs :
  P ≡ₚ P' → Q ≡ₚ Q' → micro_inv c n1 n2 q P Q T H pgs → micro_inv c n1 n2 q P' Q' T H pgs.
Proof.
  intros HP HQ [I1 I2 I3 I4 I5 I6 I7 I8 I9 I10 I11 I12 I13].
  assert (EL : last_page T P' = last_page T P) by (unfold last_page; by rewrite (count_perm _ _ _ HP)).
  assert (EF : first_page H Q' = first_page H Q) by (unfold first_page; by rewrite (count_perm _ _ _ HQ)).
  assert (EI : count has_item Q' = count has_item Q) by (by apply count_perm).
  split; rewrite ?EL, ?EF, ?EI; try done.
  - by rewrite <- HP.
  - by rewrite <- HQ.
  - intros m Hm. rewrite I6 by done. by setoid_rewrite HP.
  - by rewrite <- HP, <- HQ.
  - intros x. rewrite <- HP. apply I12.
  - intros x. rewrite <- HQ. apply I13.
Qed.

Section cases.
Context (c : Z → option (option V)) (pushes pops : Z).
Local Abbreviation micro_inv := (micro_inv c pushes pops).
Implicit Types (P : list pushing) (Q : list popping) (T H : Z) (pgs : list nat).

(** Calls in turn are alone. *)
Lemma push_alone q x P Q T H pgs : micro_inv q (x :: P) Q T H pgs → number x.1.1 = T → ∀ y, y ∈ P → number y.1.1 ≠ T.
Proof.
  intros [_ _ _ [_ Hp] _ _ _ _ _ _ _ _ _] Hx y Hy E. assert (Hnd : NoDup ((λ x, number x.1.1) <$> x :: P)) by (rewrite Hp; apply NoDup_seqZ).
  rewrite fmap_cons in Hnd. apply NoDup_cons in Hnd as [Hn _]. apply Hn. apply list_elem_of_fmap. exists y. split; [congruence|done].
Qed.
Lemma push_others q x P Q T H pgs : micro_inv q (x :: P) Q T H pgs → number x.1.1 = T →
  count has_page P = 0 ∧ ∀ y thrown, y ∈ P → y.2 ≠ ReleaseTurn thrown.
Proof.
  intros Hi Hx. pose proof (push_alone _ _ _ _ _ _ _ Hi Hx) as Hal. split.
  - apply count_none. intros [[k v] pl] Hy. pose proof (Hal _ Hy) as Hne. pose proof (mi_push _ _ _ _ _ _ _ _ _ Hi (k, v, pl) ltac:(by right)) as Hok.
    destruct pl; try done; simpl in *; tauto.
  - intros [[k v] pl] thrown Hy E. simpl in E. subst pl. pose proof (Hal _ Hy) as Hne. pose proof (mi_push _ _ _ _ _ _ _ _ _ Hi (k, v, ReleaseTurn thrown) ltac:(by right)) as Hok.
    simpl in *. tauto.
Qed.
Lemma pop_alone q x P Q T H pgs : micro_inv q P (x :: Q) T H pgs → has_left x = false → number x.1 = H →
  ∀ y, y ∈ Q → has_left y = false → number y.1 ≠ H.
Proof.
  intros [_ _ _ _ [_ Hp] _ _ _ _ _ _ _ _] Hl Hx y Hy Hly E. rewrite filter_cons_True in Hp by done.
  assert (Hnd : NoDup ((λ x, number x.1) <$> x :: filter (λ x, has_left x = false) Q)) by (rewrite Hp; apply NoDup_seqZ).
  rewrite fmap_cons in Hnd. apply NoDup_cons in Hnd as [Hn _]. apply Hn. apply list_elem_of_fmap. exists y. split; [congruence|].
  by apply list_elem_of_filter.
Qed.
Lemma pop_others q x P Q T H pgs : micro_inv q P (x :: Q) T H pgs → has_left x = false → number x.1 = H →
  count has_item Q = 0 ∧ count has_unlinked Q = 0.
Proof.
  intros Hi Hl Hx. pose proof (pop_alone _ _ _ _ _ _ _ Hi Hl Hx) as Hal. split; apply count_none; intros [k pl] Hy;
    pose proof (Hal _ Hy) as Hne; pose proof (mi_pop _ _ _ _ _ _ _ _ _ Hi (k, pl) ltac:(by right)) as Hok;
    destruct pl; try done; simpl in *; tauto.
Qed.

(** Only the place changes. *)
Definition is_release (pl : push_place) : bool := match pl with ReleaseTurn _ => true | _ => false end.
Lemma push_place_inv q k v pl pl' P Q T H pgs : micro_inv q ((k, v, pl) :: P) Q T H pgs →
  has_page (k, v, pl') = has_page (k, v, pl) → private_push (k, v, pl') = private_push (k, v, pl) →
  is_release pl = false → is_release pl' = false → push_ok c T pgs q (k, v, pl') → micro_inv q ((k, v, pl') :: P) Q T H pgs.
Proof.
  intros [I1 I2 I3 I4 I5 I6 I7 I8 I9 I10 I11 I12 I13] Hp Hpr Hr Hr' Hok.
  assert (EL : last_page T ((k, v, pl') :: P) = last_page T ((k, v, pl) :: P)) by (unfold last_page; by rewrite !count_cons, Hp).
  split; rewrite ?EL; try done.
  - intros m Hm. rewrite I6 by done. setoid_rewrite elem_of_cons.
    split; (intros [?|(-> & x & thrown & [-> | Hx] & E)]; [by left|destruct pl, pl'; done|right; split; [done|]; exists x, thrown; auto]).
  - rewrite bind_cons in I11 |- *. by rewrite Hpr.
  - intros x [-> | Hx]%elem_of_cons; [done|]. apply I12. by right.
Qed.
Lemma pop_place_inv q k pl pl' P Q T H pgs : micro_inv q P ((k, pl) :: Q) T H pgs →
  has_item (k, pl') = has_item (k, pl) → has_unlinked (k, pl') = has_unlinked (k, pl) → has_left (k, pl') = has_left (k, pl) →
  private_pop (k, pl') = private_pop (k, pl) → pop_ok c T H pgs q (k, pl') → micro_inv q P ((k, pl') :: Q) T H pgs.
Proof.
  intros [I1 I2 I3 I4 I5 I6 I7 I8 I9 I10 I11 I12 I13] Hp Hu Hl Hpr Hok.
  assert (EF : first_page H ((k, pl') :: Q) = first_page H ((k, pl) :: Q)) by (unfold first_page; by rewrite !count_cons, Hu).
  assert (EI : count has_item ((k, pl') :: Q) = count has_item ((k, pl) :: Q)) by (by rewrite !count_cons, Hp).
  split; rewrite ?EF, ?EI; try done.
  - rewrite filter_cons in I5 |- *. destruct (decide (has_left (k, pl) = false)) as [E|E].
    + rewrite decide_True by congruence. done.
    + rewrite decide_False by congruence. done.
  - rewrite bind_cons in I11 |- *. by rewrite Hpr.
  - intros x [-> | Hx]%elem_of_cons; [done|]. apply I13. by right.
Qed.
End cases.

(** The other calls. *)
Definition same_pages q q' (l : list nat) : Prop := ∀ b, b ∈ l → pages q' !! b = pages q !! b.

Lemma push_ok_waiting c c' T T' pgs pgs' q q' y : push_ok c T pgs q y → number y.1.1 ≠ T → same_pages q q' (private_push y) →
  push_ok c' T' pgs' q' y.
Proof.
  destruct y as [[k v] pl]. simpl. intros Hok Hne Hs. destruct pl as [|p|p| | | | | |]; try done; try (destruct Hok; tauto).
  destruct p as [| |a]; try done. destruct Hok as [? Ha]. split; [done|]. rewrite Hs; [done|by left].
Qed.
Lemma push_ok_pages c T pgs q q' y : push_ok c T pgs q y → same_pages q q' (private_push y) → same_pages q q' pgs → push_ok c T pgs q' y.
Proof.
  destruct y as [[k v] pl]. simpl. intros Hok Hs Hs'. destruct pl as [|p|p| |p| | | |]; try done.
  - destruct p as [| |a]; try done. rewrite Hs; [done|by left].
  - destruct p as [| |a]; try done. rewrite Hs; [done|by left].
  - destruct Hok as (? & a & pg & ? & Hl & ? & ?). split; [done|]. exists a, pg. split_and!; try done. rewrite Hs'; [done|].
    by apply last_Some_elem_of.
Qed.
Lemma pop_ok_pages c c' T T' H pgs pgs' q q' y : pop_ok c T H pgs q y → T ≤ T' → (∀ m r, c m = Some r → c' m = Some r) →
  (∀ b, b ∈ private_pop y → is_Some (pages q !! b) → is_Some (pages q' !! b)) → (is_reading y = true → pointer_at pgs' 0 = pointer_at pgs 0) →
  pop_ok c' T' H pgs' q' y.
Proof.
  destruct y as [k pl]. simpl. intros Hok HT Hc Hp Hpt. destruct pl as [| | |p|p r|p r|p r|]; try done.
  - split; [tauto|lia].
  - destruct Hok as (? & ? & ->). rewrite Hpt by done. split_and!; [done|lia|done].
  - destruct Hok as (? & ? & -> & ? & ?). rewrite Hpt by done. split_and!; [done|lia|done|done|auto].
  - destruct Hok as (? & ? & ? & ?). split_and!; [done|lia|auto|]. destruct p as [| |a]; try done. split; [|tauto]. apply Hp; [by left|tauto].
  - destruct Hok as (? & a & -> & ?). split; [auto|]. exists a. split; [done|]. apply Hp; [by left|done].
Qed.

Section cases2.
Context (c : Z → option (option V)) (pushes pops : Z).
Local Abbreviation micro_inv := (micro_inv c pushes pops).
Implicit Types (P : list pushing) (Q : list popping) (T H : Z) (pgs : list nat).

Lemma in_heap q P Q T H pgs b : micro_inv q P Q T H pgs → b ∈ pgs ++ (P ≫= private_push) ++ (Q ≫= private_pop) → is_Some (pages q !! b).
Proof.
  intros Hi. rewrite !elem_of_app, !list_elem_of_bind. intros [[j Hj]%list_elem_of_lookup|[([[k v] pl] & Hb & Hx)|([k pl] & Hb & Hx)]].
  - destruct (mi_chain _ _ _ _ _ _ _ _ _ Hi j b Hj) as (pg & E & _). eauto.
  - pose proof (mi_push _ _ _ _ _ _ _ _ _ Hi _ Hx) as Hok. destruct pl as [|p|p| |p| | | |]; try (by apply elem_of_nil in Hb);
      destruct p as [| |a]; try (by apply elem_of_nil in Hb); apply list_elem_of_singleton in Hb; subst b; exists (empty_page item_size); simpl in Hok; tauto.
  - pose proof (mi_pop _ _ _ _ _ _ _ _ _ Hi _ Hx) as Hok. destruct pl as [| | |p|p r|p r|p r|]; try (by apply elem_of_nil in Hb);
      destruct p as [| |a]; try (by apply elem_of_nil in Hb); apply list_elem_of_singleton in Hb; subst b; simpl in Hok; [tauto|].
    by destruct Hok as (_ & a' & [= ->] & ?).
Qed.

(** A page is allocated. *)
Lemma alloc_inv q k v P Q T H pgs a : micro_inv q ((k, v, PreparePage) :: P) Q T H pgs → pages q !! a = None → number k mod per = 0 →
  micro_inv (set_pages (<[a := empty_page item_size]> (pages q)) q) ((k, v, WaitTurn (Ptr a)) :: P) Q T H pgs.
Proof.
  intros Hi Ha Hk. assert (Hne : ∀ b, b ∈ pgs ++ (((k, v, PreparePage) :: P) ≫= private_push) ++ (Q ≫= private_pop) → b ≠ a).
  { intros b Hb ->. destruct (in_heap _ _ _ _ _ _ _ Hi Hb). congruence. }
  destruct Hi as [I1 I2 I3 I4 I5 I6 I7 I8 I9 I10 I11 I12 I13].
  assert (EL : last_page T ((k, v, WaitTurn (Ptr a)) :: P) = last_page T ((k, v, PreparePage) :: P)) by (unfold last_page; by rewrite !count_cons).
  rewrite bind_cons in Hne, I11. simpl in Hne, I11. split; rewrite ?EL; try done; simpl.
  - intros m Hm. rewrite I6 by done. setoid_rewrite elem_of_cons.
    split; (intros [?|(-> & x & thrown & [-> | Hx] & E)]; [by left|done|right; split; [done|]; exists x, thrown; auto]).
  - intros j b Hj. rewrite lookup_insert_ne; [by apply I10|]. intros <-. apply (Hne a); [|done]. apply elem_of_app. left. by eapply list_elem_of_lookup_2.
  - rewrite <- Permutation_middle. apply NoDup_cons. split; [|done]. intros Hin. by apply (Hne a).
  - intros x [-> | Hx]%elem_of_cons; [simpl; by rewrite lookup_insert_eq|].
    apply (push_ok_pages _ _ _ q); [apply I12; by right|..]; intros b Hb; simpl; apply lookup_insert_ne; intros <-; apply (Hne a); try done;
      rewrite !elem_of_app, list_elem_of_bind; eauto.
  - intros x Hx. apply (pop_ok_pages c c T T H pgs pgs q); [by apply I13|done|done| |done].
    intros b _ Hb. simpl. destruct (decide (a = b)) as [->|]; [by rewrite lookup_insert_eq|by rewrite lookup_insert_ne].
Qed.
End cases2.

(** *** The pages of the list *)
Lemma last_page_eq T P : last_page T P = (T + count has_page P - 1) / per + 1.
Proof.
  pose proof per_page_pos. unfold last_page. replace (T + count has_page P + per - 1) with (T + count has_page P - 1 + 1 * per) by lia.
  by rewrite Z.div_add by lia.
Qed.
Lemma pred_div x : 0 < x mod per → (x - 1) / per = x / per.
Proof.
  pose proof per_page_pos. intros Hx. symmetry. apply (Z.div_unique _ _ _ (x mod per - 1)); [left; pose proof (Z.mod_pos_bound x per); lia|].
  pose proof (Z.div_mod x per). lia.
Qed.
Lemma pred_div_0 x : x mod per = 0 → (x - 1) / per = x / per - 1.
Proof.
  pose proof per_page_pos. intros Hx. symmetry. apply (Z.div_unique _ _ _ (per - 1)); [left; lia|]. pose proof (Z.div_mod x per). lia.
Qed.
Lemma succ_div x : x mod per ≠ per - 1 → (x + 1) / per = x / per.
Proof.
  pose proof per_page_pos. intros Hx. symmetry. apply (Z.div_unique _ _ _ (x mod per + 1)); [left; pose proof (Z.mod_pos_bound x per); lia|].
  pose proof (Z.div_mod x per). lia.
Qed.
Lemma succ_div_last x : x mod per = per - 1 → (x + 1) / per = x / per + 1.
Proof.
  pose proof per_page_pos. intros Hx. symmetry. apply (Z.div_unique _ _ _ 0); [left; lia|]. pose proof (Z.div_mod x per). lia.
Qed.

Section pages.
Context (c : Z → option (option V)) (pushes pops : Z).
Local Abbreviation micro_inv := (micro_inv c pushes pops).
Implicit Types (P : list pushing) (Q : list popping) (T H : Z) (pgs : list nat).

Lemma find_one {A} (f : A → bool) l : count f l = 0 ∨ ∃ x l', l ≡ₚ x :: l' ∧ f x = true.
Proof.
  induction l as [|x l IH]; [by left|]. destruct (f x) eqn:E; [right; by exists x, l|]. rewrite count_cons, E. simpl.
  destruct IH as [->|(y & l' & Hl & Hy)]; [by left|right]. exists y, (x :: l'). split; [|done]. rewrite Hl. apply Permutation_swap.
Qed.
Lemma unlinked_cases q P Q T H pgs : micro_inv q P Q T H pgs → 0 ≤ count has_unlinked Q ≤ count has_item Q ∧ count has_item Q ≤ 1 ∧ H + count has_item Q ≤ T.
Proof.
  intros Hi. pose proof (mi_order _ _ _ _ _ _ _ _ _ Hi).
  assert (0 ≤ count has_unlinked Q ≤ count has_item Q).
  { split; [apply count_nonneg|]. clear. induction Q as [|[k pl] Q IH]; [done|]. rewrite !count_cons. destruct pl; simpl; lia. }
  split; [done|]. destruct (find_one has_item Q) as [E|([k pl] & Q' & HQ & Hx)]; [lia|].
  apply (micro_inv_perm _ _ _ _ P P _ _ _ _ _ (reflexivity P) HQ) in Hi. rewrite (count_perm _ _ _ HQ), count_cons, Hx. simpl.
  pose proof (mi_pop _ _ _ _ _ _ _ _ _ Hi (k, pl) ltac:(by left)) as Hok.
  assert (number k = H ∧ H < T ∧ has_left (k, pl) = false) as (Hn & Hlt & Hl) by (destruct pl; try done; simpl in *; tauto).
  destruct (pop_others _ _ _ _ _ _ _ _ _ _ Hi Hl Hn) as [-> _]. lia.
Qed.
Lemma has_page_cases q P Q T H pgs : micro_inv q P Q T H pgs → 0 ≤ count has_page P ≤ 1.
Proof.
  intros Hi. split; [apply count_nonneg|]. destruct (find_one has_page P) as [->|([[k v] pl] & P' & HP & Hx)]; [lia|].
  apply (micro_inv_perm _ _ _ _ _ _ Q Q _ _ _ HP (reflexivity Q)) in Hi. rewrite (count_perm _ _ _ HP), count_cons, Hx.
  pose proof (mi_push _ _ _ _ _ _ _ _ _ Hi _ ltac:(by left)) as Hok.
  assert (number k = T) as Hn by (destruct pl; try done; simpl in *; tauto).
  destruct (push_others _ _ _ _ _ _ _ _ _ _ Hi Hn) as [-> _]. done.
Qed.

(** The page of an item that is not unlinked. *)
Lemma chain_page q P Q T H pgs n : micro_inv q P Q T H pgs → first_page H Q ≤ n < last_page T P →
  ∃ a pg, pgs !! Z.to_nat (n - first_page H Q) = Some a ∧ pages q !! a = Some pg ∧
    page_ok c n (H + count has_item Q) (pointer_at pgs (S (Z.to_nat (n - first_page H Q)))) pg.
Proof.
  intros Hi Hn. pose proof (mi_length _ _ _ _ _ _ _ _ _ Hi).
  destruct (lookup_lt_is_Some_2 pgs (Z.to_nat (n - first_page H Q))) as [a Ha]; [lia|].
  destruct (mi_chain _ _ _ _ _ _ _ _ _ Hi _ a Ha) as (pg & E & Hpg). exists a, pg. split_and!; [done..|].
  replace (first_page H Q + Z.of_nat (Z.to_nat (n - first_page H Q))) with n in Hpg by lia. done.
Qed.
Lemma head_chain q P Q T H pgs : micro_inv q P Q T H pgs → H < T → count has_unlinked Q = 0 → first_page H Q = H / per ∧ first_page H Q < last_page T P.
Proof.
  intros Hi Hlt Hu. pose proof (count_nonneg has_page P). pose proof per_page_pos.
  unfold first_page. rewrite last_page_eq, Hu, Z.add_0_r. split; [done|].
  assert (H / per ≤ (T + count has_page P - 1) / per) by (apply Z.div_le_mono; lia). lia.
Qed.
Lemma reading_chain q P Q T H pgs y : micro_inv q P Q T H pgs → y ∈ Q → is_reading y = true → (0 < length pgs)%nat ∧ first_page H Q = H / per.
Proof.
  intros Hi Hy Hr. apply elem_of_Permutation in Hy as (Q' & HQ). pose proof (micro_inv_perm _ _ _ _ P P _ _ _ _ _ (reflexivity P) HQ Hi) as Hi'.
  pose proof (mi_pop _ _ _ _ _ _ _ _ _ Hi' y ltac:(by left)) as Hok. destruct y as [k pl].
  assert (number k = H ∧ H < T ∧ has_left (k, pl) = false ∧ has_unlinked (k, pl) = false) as (Hn & Hlt & Hl & Hu) by (destruct pl; try done; simpl in *; tauto).
  destruct (pop_others _ _ _ _ _ _ _ _ _ _ Hi' Hl Hn) as [_ Hu0].
  assert (count has_unlinked Q = 0) by (rewrite (count_perm _ _ _ HQ), count_cons, Hu, Hu0; done).
  destruct (head_chain _ _ _ _ _ _ Hi Hlt) as [? ?]; [done|]. pose proof (mi_length _ _ _ _ _ _ _ _ _ Hi). split; [lia|done].
Qed.
Lemma tail_chain q P Q T H pgs : micro_inv q P Q T H pgs → 0 < T mod per ∨ count has_page P = 1 →
  last_page T P = T / per + 1 ∧ first_page H Q < last_page T P.
Proof.
  intros Hi Hor. pose proof per_page_pos. destruct (unlinked_cases _ _ _ _ _ _ Hi) as (? & _ & ?). pose proof (has_page_cases _ _ _ _ _ _ Hi).
  assert (E : last_page T P = T / per + 1).
  { rewrite last_page_eq. destruct (Z.eq_dec (count has_page P) 1) as [->|]; [by replace (T + 1 - 1) with T by lia|].
    replace (T + count has_page P - 1) with (T - 1) by lia. rewrite pred_div; lia. }
  split; [done|]. rewrite E. unfold first_page. assert ((H + count has_unlinked Q) / per ≤ T / per) by (apply Z.div_le_mono; lia). lia.
Qed.
Lemma last_chain pgs a : last pgs = Some a ↔ pgs !! (length pgs - 1)%nat = Some a.
Proof. rewrite last_lookup. by replace (Nat.pred (length pgs)) with (length pgs - 1)%nat by lia. Qed.
End pages.

(** *** The steps of push *)
Section push_steps.
Context (c : Z → option (option V)) (pushes pops : Z).
Local Abbreviation micro_inv := (micro_inv c pushes pops).
Implicit Types (P : list pushing) (Q : list popping) (T H : Z) (pgs : list nat).

Lemma stored_irrelevant x x' P T m : is_release x.2 = false → is_release x'.2 = false →
  (m < T ∨ m = T ∧ ∃ y thrown, y ∈ x :: P ∧ y.2 = ReleaseTurn thrown) → m < T ∨ m = T ∧ ∃ y thrown, y ∈ x' :: P ∧ y.2 = ReleaseTurn thrown.
Proof.
  intros Hx Hx' [?|(-> & y & thrown & [-> | Hy]%elem_of_cons & E)]; [by left|by rewrite E in Hx|].
  right. split; [done|]. exists y, thrown. split; [by right|done].
Qed.

Lemma take_load_inv q k v P Q T H pgs : micro_inv q ((k, v, TakePage Null) :: P) Q T H pgs →
  ∃ a, tail_page q = Ptr a ∧ micro_inv q ((k, v, Construct (Ptr a)) :: P) Q T H pgs.
Proof.
  intros Hi. pose proof (mi_push _ _ _ _ _ _ _ _ _ Hi _ ltac:(by left)) as [Hn Hm]. destruct (push_others _ _ _ _ _ _ _ _ _ _ Hi Hn) as [Hc _].
  pose proof per_page_pos. pose proof (Z.mod_pos_bound T per ltac:(lia)).
  assert (Hc' : count has_page ((k, v, TakePage Null) :: P) = 0) by (rewrite count_cons, Hc; done).
  destruct (tail_chain _ _ _ _ _ _ _ _ _ Hi) as [HL HF]; [left; rewrite Hn in Hm; lia|]. pose proof (mi_length _ _ _ _ _ _ _ _ _ Hi) as Hlen.
  destruct (lookup_lt_is_Some_2 pgs (length pgs - 1)) as [a Ha]; [lia|]. exists a. rewrite <- last_chain in Ha.
  pose proof (mi_tail_page _ _ _ _ _ _ _ _ _ Hi) as Htp. rewrite Ha in Htp. split; [done|].
  assert (EL : last_page T ((k, v, Construct (Ptr a)) :: P) = last_page T ((k, v, TakePage Null) :: P)).
  { rewrite HL, last_page_eq, count_cons, Hc. change (Z.b2z _ + 0) with 1. by rewrite Z.add_simpl_r. }
  destruct Hi as [I1 I2 I3 I4 I5 I6 I7 I8 I9 I10 I11 I12 I13]. split; rewrite ?EL; try done.
  - intros m Hm0. rewrite I6 by done. split; by apply stored_irrelevant.
  - intros x [-> | Hx]%elem_of_cons; [split; [done|by exists a]|apply I12; by right].
Qed.

Lemma pointer_at_app (l l' : list nat) j : (j < length l)%nat → pointer_at (l ++ l') j = pointer_at l j.
Proof. intros Hj. unfold pointer_at. by rewrite lookup_app_l. Qed.

Lemma empty_page_ok (cc : Z → option (option V)) n taken : (∀ m, 0 ≤ m → m / per = n → cc m = None) → page_ok cc n taken Null (empty_page item_size).
Proof.
  intros Hc. split; simpl; [done|rewrite length_replicate; pose proof per_page_pos; lia|..].
  - intros m Hm E. unfold is_stored. by rewrite Hc, Z.testbit_0_l.
  - intros m v Hm E _. rewrite Hc by done. done.
Qed.
Lemma page_ok_next (cc : Z → option (option V)) n taken nx nx' pg : page_ok cc n taken nx pg → page_ok cc n taken nx' (Page nx' (mask pg) (items pg)).
Proof. by intros [????]. Qed.

(** The new page is put at the end of the list. *)
Definition link_page a q : micro_queue V :=
  let q' := match tail_page q with
            | Ptr b => match pages q !! b with Some pg => put_page (Ptr b) (Page (Ptr a) (mask pg) (items pg)) q | None => q end
            | _ => set_head_page (Ptr a) q
            end in set_tail_page (Ptr a) q'.

Lemma link_page_counters a q : tail_counter (link_page a q) = tail_counter q ∧ head_counter (link_page a q) = head_counter q.
Proof. unfold link_page. destruct (tail_page q) as [| |b]; simpl; try done. by destruct (pages q !! b). Qed.

Lemma link_chain q k v P Q T H pgs a : micro_inv q ((k, v, TakePage (Ptr a)) :: P) Q T H pgs →
  take_page (Ptr a) q = Some (Ptr a, link_page a q) ∧ head_page (link_page a q) = pointer_at (pgs ++ [a]) 0 ∧
  (∀ b, b ≠ a → last pgs ≠ Some b → pages (link_page a q) !! b = pages q !! b) ∧
  (∀ b pg, last pgs = Some b → pages q !! b = Some pg → pages (link_page a q) !! b = Some (Page (Ptr a) (mask pg) (items pg))) ∧
  pages (link_page a q) !! a = pages q !! a.
Proof.
  intros Hi. pose proof (mi_tail_page _ _ _ _ _ _ _ _ _ Hi) as Htp. pose proof (mi_head_page _ _ _ _ _ _ _ _ _ Hi) as Hhp.
  pose proof (mi_private _ _ _ _ _ _ _ _ _ Hi) as Hnd. rewrite bind_cons in Hnd. simpl in Hnd.
  destruct (last pgs) as [b|] eqn:El; simpl in Htp.
  - assert (Hb : pgs !! (length pgs - 1)%nat = Some b) by (by apply last_chain). destruct (mi_chain _ _ _ _ _ _ _ _ _ Hi _ b Hb) as (pg & Epg & _).
    assert (b ≠ a). { intros ->. apply NoDup_app in Hnd as (_ & Hd & _). apply (Hd a); [by eapply list_elem_of_lookup_2|by left]. }
    unfold take_page, link_page. rewrite Htp. simpl. rewrite Epg. simpl. split_and!; try done.
    + rewrite pointer_at_app; [done|]. apply lookup_lt_Some in Hb. lia.
    + intros b' Hb' Hne. rewrite lookup_insert_ne; [done|congruence].
    + intros b' pg' [= <-] Epg'. rewrite lookup_insert_eq. congruence.
    + by rewrite lookup_insert_ne.
  - apply last_None in El as ->. unfold take_page, link_page. rewrite Htp. simpl. split_and!; done.
Qed.

Lemma take_link_inv q k v P Q T H pgs a : micro_inv q ((k, v, TakePage (Ptr a)) :: P) Q T H pgs →
  micro_inv (link_page a q) ((k, v, Construct (Ptr a)) :: P) Q T H (pgs ++ [a]).
Proof.
  intros Hi. destruct (link_chain _ _ _ _ _ _ _ _ _ Hi) as (_ & Ehp & Hoth & Hlast & Ha).
  pose proof (mi_push _ _ _ _ _ _ _ _ _ Hi _ ltac:(by left)) as (Hn & Hm & Hpa). destruct (push_others _ _ _ _ _ _ _ _ _ _ Hi Hn) as [Hc Hnr].
  pose proof (push_alone _ _ _ _ _ _ _ _ _ _ Hi Hn) as Hal. pose proof (unlinked_cases _ _ _ _ _ _ _ _ _ Hi) as Hun.
  rewrite Hn in Hm. pose proof (pred_div_0 T Hm) as Hpd. pose proof per_page_pos as Hper.
  assert (EL0 : last_page T ((k, v, TakePage (Ptr a)) :: P) = T / per) by (rewrite last_page_eq, count_cons, Hc; simpl; rewrite Z.add_0_r, Hpd; lia).
  assert (EL1 : last_page T ((k, v, Construct (Ptr a)) :: P) = T / per + 1) by (rewrite last_page_eq, count_cons, Hc; change (Z.b2z _ + 0) with 1; by rewrite Z.add_simpl_r).
  assert (Hread : ∀ y, y ∈ Q → is_reading y = true → (0 < length pgs)%nat) by (intros y ??; by eapply (reading_chain _ _ _ _ _ _ _ _ _ y Hi)).
  destruct Hi as [I1 I2 I3 I4 I5 I6 I7 I8 I9 I10 I11 I12 I13]. rewrite EL0 in I7. rewrite bind_cons in I11. simpl in I11.
  assert (Hpriv : ∀ b, b ∈ pgs → (b ∉ (P ≫= private_push)) ∧ (b ∉ (Q ≫= private_pop)) ∧ b ≠ a).
  { intros b Hb. apply NoDup_app in I11 as (_ & Hd & _). specialize (Hd b Hb). rewrite elem_of_cons, elem_of_app in Hd. tauto. }
  assert (Hlp : ∀ b, last pgs = Some b → b ∈ pgs) by (intros b Hb; by apply last_Some_elem_of).
  split; rewrite ?EL1; try done.
  - by rewrite (proj1 (link_page_counters a q)).
  - by rewrite (proj2 (link_page_counters a q)).
  - intros m Hm0. rewrite I6 by done. split; by apply stored_irrelevant.
  - rewrite length_app. simpl. lia.
  - by rewrite last_snoc.
  - intros j b [Hj|(Hj & [Hj0 <-]%list_lookup_singleton_Some)]%lookup_app_Some.
    2: { exists (empty_page item_size). rewrite Ha, Hpa. split; [done|]. unfold pointer_at. rewrite lookup_ge_None_2 by (rewrite length_app; simpl; lia).
         apply empty_page_ok. intros m Hm0 Hmp. destruct (c m) eqn:Ec; [exfalso|done].
         assert (T ≤ m) by (pose proof (Z.div_mod m per); pose proof (Z.div_mod T per); pose proof (Z.mod_pos_bound m per); nia).
         destruct (proj1 (I6 m Hm0)) as [?|(? & x & thrown & [-> | Hx]%elem_of_cons & E)]; [eauto|lia|done|by apply (Hnr x thrown)]. }
    destruct (I10 j b Hj) as (pg & Epg & Hpg). destruct (decide (last pgs = Some b)) as [El|El].
    + exists (Page (Ptr a) (mask pg) (items pg)). split; [by apply Hlast|].
      assert (j = length pgs - 1)%nat as ->.
      { apply last_chain in El. eapply NoDup_lookup; [|exact Hj|exact El]. by apply NoDup_app in I11 as [? _]. }
      pose proof (lookup_lt_Some _ _ _ Hj). replace (S (length pgs - 1)) with (length pgs) by lia.
      unfold pointer_at. rewrite list_lookup_middle by done. by eapply page_ok_next.
    + exists pg. rewrite Hoth; [|by destruct (Hpriv b (list_elem_of_lookup_2 _ _ _ Hj)) as (_ & _ & ?)|done]. split; [done|].
      rewrite pointer_at_app; [done|]. pose proof (lookup_lt_Some _ _ _ Hj). destruct (decide (S j = length pgs)); [|lia].
      exfalso. apply El, last_chain. rewrite <- Hj. f_equal. lia.
  - rewrite <- app_assoc. exact I11.
  - intros x [-> | Hx]%elem_of_cons; [split; [done|]; exists a; by rewrite last_snoc|].
    eapply (push_ok_waiting c c T T pgs); [apply I12; by right|by apply Hal|]. intros b Hb. apply Hoth.
    + intros ->. apply NoDup_app in I11 as (_ & _ & [Hna _]%NoDup_cons). apply Hna, elem_of_app. left. apply list_elem_of_bind. eauto.
    + intros El. destruct (Hpriv b (Hlp b El)) as [Hnp _]. apply Hnp, list_elem_of_bind. eauto.
  - intros x Hx. apply (pop_ok_pages c c T T H pgs _ q); [by apply I13|done|done|..].
    + intros b Hb Hs. assert (Hb' : b ∈ Q ≫= private_pop) by (apply list_elem_of_bind; eauto). rewrite Hoth; [done|..].
      * intros ->. apply NoDup_app in I11 as (_ & _ & [Hna _]%NoDup_cons). apply Hna, elem_of_app. by right.
      * intros El. by destruct (Hpriv b (Hlp b El)) as (_ & Hnp & _).
    + intros Hr. apply pointer_at_app. by apply (Hread x).
Qed.
End push_steps.

(** A page of the list is written. *)
Lemma write_page_inv (c c' : Z → option (option V)) n1 n2 q P P' Q Q' T H pgs j a pg' :
  micro_inv c n1 n2 q P Q T H pgs → pgs !! j = Some a →
  (λ x, number x.1.1) <$> P' = (λ x, number x.1.1) <$> P → last_page T P' = last_page T P → P' ≫= private_push = P ≫= private_push →
  (λ x, number x.1) <$> filter (λ x, has_left x = false) Q' = (λ x, number x.1) <$> filter (λ x, has_left x = false) Q →
  first_page H Q' = first_page H Q → Q' ≫= private_pop = Q ≫= private_pop →
  (∀ m, 0 ≤ m → is_Some (c' m) ↔ m < T ∨ m = T ∧ ∃ x thrown, x ∈ P' ∧ x.2 = ReleaseTurn thrown) →
  page_ok c' (first_page H Q + Z.of_nat j) (H + count has_item Q') (pointer_at pgs (S j)) pg' →
  (∀ n nx pg, n ≠ first_page H Q + Z.of_nat j → page_ok c n (H + count has_item Q) nx pg → page_ok c' n (H + count has_item Q') nx pg) →
  (∀ x, x ∈ P' → push_ok c' T pgs (put_page (Ptr a) pg' q) x) → (∀ x, x ∈ Q' → pop_ok c' T H pgs (put_page (Ptr a) pg' q) x) →
  micro_inv c' n1 n2 (put_page (Ptr a) pg' q) P' Q' T H pgs.
Proof.
  intros [I1 I2 I3 I4 I5 I6 I7 I8 I9 I10 I11 I12 I13] Hj EP EL EPp EQ EF EQp Hst Hpg Hoth HP HQ.
  split; rewrite ?EP, ?EL, ?EQ, ?EF, ?EPp, ?EQp; try done. intros j' b Hb. simpl. destruct (decide (j' = j)) as [->|Hne].
  - simplify_eq. exists pg'. by rewrite lookup_insert_eq.
  - destruct (I10 j' b Hb) as (pg & Epg & Hok). exists pg. rewrite lookup_insert_ne; [split; [done|apply Hoth; [lia|done]]|].
    intros <-. apply Hne. eapply NoDup_lookup; [|exact Hb|exact Hj]. by apply NoDup_app in I11 as [? _].
Qed.
Lemma same_pages_private c n1 n2 q P Q T H pgs j a pg' : micro_inv c n1 n2 q P Q T H pgs → pgs !! j = Some a →
  (∀ x, x ∈ P → same_pages q (put_page (Ptr a) pg' q) (private_push x)) ∧
  (∀ x, x ∈ Q → same_pages q (put_page (Ptr a) pg' q) (private_pop x)).
Proof.
  intros Hi Hj. pose proof (mi_private _ _ _ _ _ _ _ _ _ Hi) as Hnd. apply NoDup_app in Hnd as (_ & Hd & _).
  specialize (Hd a (list_elem_of_lookup_2 _ _ _ Hj)). rewrite elem_of_app, !list_elem_of_bind in Hd.
  split; intros x Hx b Hb; simpl; apply lookup_insert_ne; intros <-; eauto.
Qed.

Lemma item_at m T : 0 ≤ m → 0 ≤ T → m / per = T / per → m mod per = T mod per → m = T.
Proof. intros _ _ Hd Hm. pose proof per_page_pos. pose proof (Z.div_mod m per). pose proof (Z.div_mod T per). rewrite Hd, Hm in *. lia. Qed.

(** The page of the call in turn. *)
Lemma turn_page c n1 n2 q x P Q T H pgs a : micro_inv c n1 n2 q (x :: P) Q T H pgs → number x.1.1 = T → has_page x = true → last pgs = Some a →
  ∃ pg, pgs !! (length pgs - 1)%nat = Some a ∧ pages q !! a = Some pg ∧ first_page H Q + Z.of_nat (length pgs - 1) = T / per ∧
    page_ok c (T / per) (H + count has_item Q) (pointer_at pgs (S (length pgs - 1))) pg.
Proof.
  intros Hi Hn Hp Hl. apply last_chain in Hl. destruct (mi_chain _ _ _ _ _ _ _ _ _ Hi _ a Hl) as (pg & E & Hok). exists pg.
  destruct (push_others _ _ _ _ _ _ _ _ _ _ Hi Hn) as [Hc _].
  destruct (tail_chain _ _ _ _ _ _ _ _ _ Hi) as [HL HF]; [right; by rewrite count_cons, Hp, Hc|]. pose proof (mi_length _ _ _ _ _ _ _ _ _ Hi).
  assert (E' : first_page H Q + Z.of_nat (length pgs - 1) = T / per) by lia. rewrite E' in Hok. done.
Qed.

Lemma construct_inv c n1 n2 q k v P Q T H pgs a : micro_inv c n1 n2 q ((k, v, Construct (Ptr a)) :: P) Q T H pgs →
  ∃ pg its, pages q !! a = Some pg ∧ write (items pg) (Z.to_nat (number k mod per)) (Some v) = Some its ∧
    micro_inv c n1 n2 (put_page (Ptr a) (Page (next pg) (mask pg) its) q) ((k, v, MarkItem (Ptr a)) :: P) Q T H pgs.
Proof.
  intros Hi. pose proof (mi_push _ _ _ _ _ _ _ _ _ Hi _ ltac:(by left)) as (Hn & a' & [= <-] & Hl).
  destruct (turn_page _ _ _ _ _ _ _ _ _ _ _ Hi Hn eq_refl Hl) as (pg & Hj & Epg & EF & [K1 K2 K3 K4]).
  destruct (push_others _ _ _ _ _ _ _ _ _ _ Hi Hn) as [_ Hnr]. pose proof (push_alone _ _ _ _ _ _ _ _ _ _ Hi Hn) as Hal.
  pose proof per_page_pos. pose proof (Z.mod_pos_bound T per ltac:(lia)). pose proof (mi_order _ _ _ _ _ _ _ _ _ Hi).
  rewrite Hn. exists pg, (<[Z.to_nat (T mod per) := Some v]> (items pg)). split_and!; [done|apply write_Some; lia|].
  assert (HcT : c T = None).
  { destruct (c T) eqn:E; [|done]. destruct (proj1 (mi_stored _ _ _ _ _ _ _ _ _ Hi T ltac:(lia))) as [?|(_ & x & th & [-> | Hx]%elem_of_cons & Hr)];
      [eauto|lia|done|]. by apply (Hnr x th) in Hx. }
  destruct (same_pages_private _ _ _ _ _ _ _ _ _ _ _ (Page (next pg) (mask pg) (<[Z.to_nat (T mod per) := Some v]> (items pg))) Hi Hj) as [Hs1 Hs2].
  eapply (write_page_inv c c); [exact Hi|exact Hj|done|by unfold last_page; rewrite !count_cons|done|done|done|done|..].
  - intros m Hm. rewrite (mi_stored _ _ _ _ _ _ _ _ _ Hi m Hm). split; by apply stored_irrelevant.
  - rewrite EF. split; simpl; [done|by rewrite length_insert|done|]. intros m v' Hm Hd Ht Hc. rewrite list_lookup_insert_ne; [by apply K4|].
    intros E. pose proof (Z.mod_pos_bound m per ltac:(lia)). rewrite (item_at m T) in Hc; [congruence|lia..].
  - done.
  - intros x [-> | Hx]%elem_of_cons; [|].
    + simpl. split; [done|]. eexists a, _. rewrite lookup_insert_eq. split_and!; [done..|]. simpl. rewrite Hn, list_lookup_insert_eq by lia. done.
    + eapply (push_ok_waiting c c T T pgs); [apply (mi_push _ _ _ _ _ _ _ _ _ Hi); by right|by apply Hal|apply Hs1; by right].
  - intros x Hx. eapply (pop_ok_pages c c T T H pgs pgs q); [by apply (mi_pop _ _ _ _ _ _ _ _ _ Hi)|done|done| |done].
    intros b Hb Hs. by rewrite (Hs2 x Hx b Hb).
Qed.

(** The outcome of a push is known. *)
Definition settle (c : Z → option (option V)) (m : Z) (o : option V) : Z → option (option V) := λ m', if decide (m' = m) then Some o else c m'.
Lemma settle_eq c m o : settle c m o m = Some o.
Proof. unfold settle. by rewrite decide_True. Qed.
Lemma settle_ne c m o m' : m' ≠ m → settle c m o m' = c m'.
Proof. intros. unfold settle. by rewrite decide_False. Qed.
Lemma settle_mono c m o m' r : c m = None → c m' = Some r → settle c m o m' = Some r.
Proof. intros Hn Hr. rewrite settle_ne; [done|]. intros ->. congruence. Qed.
Lemma is_stored_ne c m o m' : m' ≠ m → is_stored (settle c m o) m' = is_stored c m'.
Proof. intros. unfold is_stored. by rewrite settle_ne. Qed.

Lemma page_ok_settle c m o n taken nx pg : page_ok c n taken nx pg → (m / per = n → o = None) → c m = None → page_ok (settle c m o) n taken nx pg.
Proof.
  intros [K1 K2 K3 K4] Ho Hc. split; [done|done|..].
  - intros m' Hm' Hd. rewrite K3 by done. destruct (decide (m' = m)) as [->|Hne]; [|by rewrite is_stored_ne].
    unfold is_stored. by rewrite Hc, settle_eq, (Ho Hd).
  - intros m' v Hm' Hd Ht. destruct (decide (m' = m)) as [->|Hne]; [rewrite settle_eq, (Ho Hd); done|]. rewrite settle_ne by done. by apply K4.
Qed.

Section settle.
Context (c : Z → option (option V)) (n1 n2 : Z) q (k : Z) (v : V) (pl : push_place) (P : list pushing) (Q : list popping) (T H : Z) (pgs : list nat).
Context (Hi : micro_inv c n1 n2 q ((k, v, pl) :: P) Q T H pgs) (Hn : number k = T) (Hr : is_release pl = false).

Lemma unsettled : c T = None.
Proof.
  destruct (push_others _ _ _ _ _ _ _ _ _ _ Hi Hn) as [_ Hnr]. pose proof (mi_order _ _ _ _ _ _ _ _ _ Hi).
  destruct (c T) eqn:E; [|done]. destruct (proj1 (mi_stored _ _ _ _ _ _ _ _ _ Hi T ltac:(lia))) as [?|(_ & x & th & [-> | Hx]%elem_of_cons & Hx2)];
    [eauto|lia| |by apply (Hnr x th) in Hx]. simpl in Hx2. by rewrite Hx2 in Hr.
Qed.
Lemma settled_stored o thrown m : 0 ≤ m →
  is_Some (settle c T o m) ↔ m < T ∨ m = T ∧ ∃ x th, x ∈ (k, v, ReleaseTurn thrown) :: P ∧ x.2 = ReleaseTurn th.
Proof.
  intros Hm. destruct (decide (m = T)) as [->|Hne].
  - rewrite settle_eq. split; [|eauto]. intros _. right. split; [done|]. eexists _, thrown. split; [by left|done].
  - rewrite settle_ne, (mi_stored _ _ _ _ _ _ _ _ _ Hi m Hm) by done. split; intros [?|[? _]]; by left || done.
Qed.
Lemma settled_pops o q' : (∀ x, x ∈ Q → same_pages q q' (private_pop x)) → ∀ x, x ∈ Q → pop_ok (settle c T o) T H pgs q' x.
Proof.
  intros Hs x Hx. eapply (pop_ok_pages c _ T T H pgs pgs q); [by apply (mi_pop _ _ _ _ _ _ _ _ _ Hi)|done| | |done].
  - intros m r Hm. apply settle_mono; [apply unsettled|done].
  - intros b Hb Hs'. by rewrite (Hs x Hx b Hb).
Qed.
Lemma settled_pushes o (thrown : bool) q' : o = (if thrown then None else Some v) → (∀ x, x ∈ P → same_pages q q' (private_push x)) →
  ∀ x, x ∈ (k, v, ReleaseTurn thrown) :: P → push_ok (settle c T o) T pgs q' x.
Proof.
  intros -> Hs x [-> | Hx]%elem_of_cons; [simpl; by rewrite Hn, settle_eq|].
  eapply (push_ok_waiting c _ T T pgs); [apply (mi_push _ _ _ _ _ _ _ _ _ Hi); by right|by apply (push_alone _ _ _ _ _ _ _ _ _ _ Hi Hn)|by apply Hs].
Qed.
End settle.

Lemma count_invalid_inv c n1 n2 q k v P Q T H pgs : micro_inv c n1 n2 q ((k, v, CountInvalid) :: P) Q T H pgs →
  micro_inv (settle c (number k) None) n1 n2 q ((k, v, ReleaseTurn true) :: P) Q T H pgs.
Proof.
  intros Hi. pose proof (mi_push _ _ _ _ _ _ _ _ _ Hi _ ltac:(by left)) as Hn. simpl in Hn. rewrite Hn.
  pose proof (unsettled _ _ _ _ _ _ _ _ _ _ _ _ Hi Hn eq_refl) as HcT. pose proof Hi as [I1 I2 I3 I4 I5 I6 I7 I8 I9 I10 I11 I12 I13].
  assert (EL : last_page T ((k, v, ReleaseTurn true) :: P) = last_page T ((k, v, CountInvalid) :: P)) by (unfold last_page; by rewrite !count_cons).
  split; rewrite ?EL; try done.
  - intros m Hm. by apply (settled_stored _ _ _ _ _ _ _ _ _ _ _ _ Hi).
  - intros j a Hj. destruct (I10 j a Hj) as (pg & E & Hok). exists pg. split; [done|]. by apply page_ok_settle.
  - apply (settled_pushes _ _ _ _ _ _ _ _ _ _ _ _ Hi Hn); [done|]. intros x _ b _. done.
  - apply (settled_pops _ _ _ _ _ _ _ _ _ _ _ _ Hi Hn eq_refl). intros x _ b _. done.
Qed.

Lemma mark_inv c n1 n2 q k v P Q T H pgs a : micro_inv c n1 n2 q ((k, v, MarkItem (Ptr a)) :: P) Q T H pgs →
  ∃ pg, pages q !! a = Some pg ∧
    micro_inv (settle c (number k) (Some v)) n1 n2
      (put_page (Ptr a) (Page (next pg) (Z.lor (mask pg) (Z.shiftl 1 (number k mod per))) (items pg)) q) ((k, v, ReleaseTurn false) :: P) Q T H pgs.
Proof.
  intros Hi. pose proof (mi_push _ _ _ _ _ _ _ _ _ Hi _ ltac:(by left)) as (Hn & a' & pg & [= <-] & Hl & Epg & Hv). rewrite Hn in Hv |- *.
  destruct (turn_page _ _ _ _ _ _ _ _ _ _ _ Hi Hn eq_refl Hl) as (pg' & Hj & Epg' & EF & Hpg).
  assert (pg' = pg) as -> by congruence. clear Epg'. destruct Hpg as [K1 K2 K3 K4].
  pose proof (unsettled _ _ _ _ _ _ _ _ _ _ _ _ Hi Hn eq_refl) as HcT. pose proof per_page_pos. pose proof (mi_order _ _ _ _ _ _ _ _ _ Hi).
  exists pg. split; [done|]. set (pg' := Page _ _ _).
  destruct (same_pages_private _ _ _ _ _ _ _ _ _ _ _ pg' Hi Hj) as [Hs1 Hs2].
  eapply (write_page_inv c); [exact Hi|exact Hj|done|by unfold last_page; rewrite !count_cons|done|done|done|done|..].
  - intros m Hm. by apply (settled_stored _ _ _ _ _ _ _ _ _ _ _ _ Hi).
  - rewrite EF. split; simpl; [done|done|..].
    + intros m Hm Hd. pose proof (Z.mod_pos_bound m per ltac:(lia)). pose proof (Z.mod_pos_bound T per ltac:(lia)).
      rewrite Z.lor_spec, K3, Z.shiftl_spec by (done || lia). destruct (decide (m = T)) as [->|Hne].
      * rewrite Z.sub_diag, orb_true_r. unfold is_stored. by rewrite settle_eq.
      * rewrite is_stored_ne by done. assert (m mod per ≠ T mod per) by (intros E; apply Hne, item_at; done || lia).
        assert (Z.testbit 1 (m mod per - T mod per) = false) as ->; [|by rewrite orb_false_r].
        destruct (Z.lt_trichotomy (m mod per) (T mod per)) as [?|[?|?]]; [by apply Z.testbit_neg_r; lia|done|]. apply (Z.bits_above_log2 1); simpl; lia.
    + intros m v' Hm Hd Ht. destruct (decide (m = T)) as [->|Hne]; [rewrite settle_eq; by intros [= <-]|]. rewrite settle_ne by done. by apply K4.
  - intros n nx pg0 Hne Hok. apply page_ok_settle; [done| |done]. intros E. exfalso. lia.
  - apply (settled_pushes _ _ _ _ _ _ _ _ _ _ _ _ Hi Hn); [done|]. intros x Hx. apply Hs1. by right.
  - apply (settled_pops _ _ _ _ _ _ _ _ _ _ _ _ Hi Hn eq_refl). done.
Qed.
Lemma seqZ_first m n : 0 < n → seqZ m n = m :: seqZ (m + 1) (n - 1).
Proof. intros Hn. rewrite seqZ_cons by lia. do 2 f_equal; lia. Qed.
Lemma seqZ_last m n : 0 ≤ n → seqZ m (n + 1) ≡ₚ (m + n) :: seqZ m n.
Proof. intros Hn. rewrite seqZ_app by lia. rewrite (seqZ_cons (m + n)) by lia. simpl. by rewrite Permutation_app_comm. Qed.

Lemma release_inv c n1 n2 q k v thrown P Q T H pgs : micro_inv c n1 n2 q ((k, v, ReleaseTurn thrown) :: P) Q T H pgs →
  micro_inv c n1 n2 (set_tail_counter (tail_counter q + n_queue) q) P Q (T + 1) H pgs.
Proof.
  intros Hi. pose proof (mi_push _ _ _ _ _ _ _ _ _ Hi _ ltac:(by left)) as [Hn Hc]. destruct (push_others _ _ _ _ _ _ _ _ _ _ Hi Hn) as [Hc0 Hnr].
  pose proof (push_alone _ _ _ _ _ _ _ _ _ _ Hi Hn) as Hal. destruct Hi as [I1 I2 I3 [I4 I4'] I5 I6 I7 I8 I9 I10 I11 I12 I13].
  rewrite fmap_cons in I4'. simpl in I4'. assert (T < n1).
  { assert (Hin : number k ∈ seqZ T (n1 - T)) by (rewrite <- I4'; by left). apply elem_of_seqZ in Hin. lia. }
  rewrite seqZ_first, Hn in I4' by lia. apply Permutation.Permutation_cons_inv in I4'.
  assert (EL : last_page (T + 1) P = last_page T ((k, v, ReleaseTurn thrown) :: P)) by (unfold last_page; rewrite count_cons; simpl; f_equal; lia).
  split; rewrite ?EL; try done; simpl; try lia.
  - split; [lia|]. by replace (n1 - (T + 1)) with (n1 - T - 1) by lia.
  - intros m Hm. rewrite I6 by done. split.
    + intros [?|[-> _]]; left; lia.
    + intros [Hlt|(_ & x & th & Hx & E)]; [|by apply (Hnr x th) in Hx]. destruct (decide (m = T)) as [->|]; [|left; lia].
      right. split; [done|]. eexists _, thrown. split; [by left|done].
  - intros x Hx. eapply (push_ok_waiting c c T _ pgs _ q); [apply I12; by right|by apply Hal|done].
  - intros x Hx. eapply (pop_ok_pages c c T _ H pgs pgs q); [by apply I13|lia|done..].
Qed.

Lemma start_push_inv c n1 n2 q k v P Q T H pgs : micro_inv c n1 n2 q P Q T H pgs → number k = n1 →
  micro_inv c (n1 + 1) n2 q ((k, v, PreparePage) :: P) Q T H pgs.
Proof.
  intros [I1 I2 I3 [I4 I4'] I5 I6 I7 I8 I9 I10 I11 I12 I13] Hk.
  assert (EL : last_page T ((k, v, PreparePage) :: P) = last_page T P) by (unfold last_page; by rewrite count_cons).
  split; rewrite ?EL; try done.
  - split; [lia|]. rewrite fmap_cons. simpl. rewrite Hk. replace (n1 + 1 - T) with (n1 - T + 1) by lia. rewrite seqZ_last by lia.
    replace (T + (n1 - T)) with n1 by lia. by rewrite I4'.
  - intros m Hm. rewrite I6 by done. split; (intros [?|(-> & x & thrown & Hx & E)]; [by left|right; split; [done|]]); exists x, thrown.
    + split; [by right|done].
    + split; [|done]. apply elem_of_cons in Hx as [-> | ?]; done.
  - intros x [-> | Hx]%elem_of_cons; [done|by apply I12].
Qed.
Lemma start_pop_inv c n1 n2 q k P Q T H pgs : micro_inv c n1 n2 q P Q T H pgs → number k = n2 →
  micro_inv c n1 (n2 + 1) q P ((k, WaitHead) :: Q) T H pgs.
Proof.
  intros [I1 I2 I3 I4 [I5 I5'] I6 I7 I8 I9 I10 I11 I12 I13] Hk.
  assert (EF : first_page H ((k, WaitHead) :: Q) = first_page H Q) by (unfold first_page; by rewrite count_cons).
  assert (EI : count has_item ((k, WaitHead) :: Q) = count has_item Q) by (by rewrite count_cons).
  split; rewrite ?EF, ?EI; try done.
  - split; [lia|]. rewrite filter_cons_True, fmap_cons by done. simpl. rewrite Hk. replace (n2 + 1 - H) with (n2 - H + 1) by lia. rewrite seqZ_last by lia.
    replace (H + (n2 - H)) with n2 by lia. by rewrite I5'.
  - intros x [-> | Hx]%elem_of_cons; [done|by apply I13].
Qed.

(** *** The steps of pop *)
Lemma wait_head_inv c n1 n2 q k P Q T H pgs : micro_inv c n1 n2 q P ((k, WaitHead) :: Q) T H pgs → head_counter q = turn k →
  micro_inv c n1 n2 q P ((k, WaitTail) :: Q) T H pgs.
Proof.
  intros Hi Hh. eapply pop_place_inv; [exact Hi|done..|]. simpl. rewrite (mi_head _ _ _ _ _ _ _ _ _ Hi), turn_eq in Hh. unfold n_queue in Hh. lia.
Qed.
Lemma wait_tail_inv c n1 n2 q k P Q T H pgs : micro_inv c n1 n2 q P ((k, WaitTail) :: Q) T H pgs → tail_counter q ≠ turn k →
  micro_inv c n1 n2 q P ((k, LoadPage) :: Q) T H pgs.
Proof.
  intros Hi Hh. eapply pop_place_inv; [exact Hi|done..|]. simpl. rewrite (mi_tail _ _ _ _ _ _ _ _ _ Hi), turn_eq in Hh. unfold n_queue in Hh.
  pose proof (mi_pop _ _ _ _ _ _ _ _ _ Hi _ ltac:(by left)) as Hn. simpl in Hn. pose proof (mi_order _ _ _ _ _ _ _ _ _ Hi). lia.
Qed.
Lemma load_page_inv c n1 n2 q k P Q T H pgs : micro_inv c n1 n2 q P ((k, LoadPage) :: Q) T H pgs →
  ∃ a, head_page q = Ptr a ∧ micro_inv c n1 n2 q P ((k, TakeItem (Ptr a)) :: Q) T H pgs.
Proof.
  intros Hi. pose proof (mi_pop _ _ _ _ _ _ _ _ _ Hi _ ltac:(by left)) as [Hn Hlt]. destruct (pop_others _ _ _ _ _ _ _ _ _ _ Hi eq_refl Hn) as [_ Hu].
  destruct (head_chain _ _ _ _ _ _ _ _ _ Hi Hlt) as [_ HF]; [by rewrite count_cons, Hu|]. pose proof (mi_length _ _ _ _ _ _ _ _ _ Hi).
  pose proof (mi_head_page _ _ _ _ _ _ _ _ _ Hi) as Hp. destruct (lookup_lt_is_Some_2 pgs 0) as [a Ha]; [lia|].
  exists a. assert (Ea : pointer_at pgs 0 = Ptr a) by (unfold pointer_at; by rewrite Ha). split; [by rewrite Hp|].
  eapply pop_place_inv; [exact Hi|done..|]. done.
Qed.
Lemma pop_ok_waiting c T T' H H' pgs pgs' q q' y : pop_ok c T H pgs q y → (has_left y = false → number y.1 ≠ H) → same_pages q q' (private_pop y) →
  pop_ok c T' H' pgs' q' y.
Proof.
  destruct y as [k pl]. simpl. intros Hok Hne Hs. destruct pl as [| | | | | |p r|]; try done; try (specialize (Hne eq_refl); tauto).
  destruct Hok as (Hc & a & -> & Ha). split; [done|]. exists a. split; [done|]. rewrite Hs; [done|by left].
Qed.

(** A write to a page keeps what a push has constructed in it. *)
Lemma turn_chain c n1 n2 q P Q T H pgs a x : micro_inv c n1 n2 q P Q T H pgs → x ∈ P → has_page x = true → last pgs = Some a →
  pgs !! (length pgs - 1)%nat = Some a ∧ first_page H Q + Z.of_nat (length pgs - 1) = T / per.
Proof.
  intros Hi Hx Hp Hl. apply elem_of_Permutation in Hx as (P' & HP). pose proof (micro_inv_perm _ _ _ _ _ _ Q Q _ _ _ HP (reflexivity Q) Hi) as Hi'.
  pose proof (mi_push _ _ _ _ _ _ _ _ _ Hi' x ltac:(by left)) as Hok.
  assert (number x.1.1 = T) as Hn by (destruct x as [[k v] pl]; destruct pl; try done; simpl in *; tauto).
  destruct (turn_page _ _ _ _ _ _ _ _ _ _ _ Hi' Hn Hp Hl) as (pg & ? & _ & ? & _). done.
Qed.
Lemma write_push_ok c n1 n2 q P Q T H pgs j a pg pg' x : micro_inv c n1 n2 q P Q T H pgs → pgs !! j = Some a → pages q !! a = Some pg → x ∈ P →
  (∀ a', last pgs = Some a' → has_page x = true → a = a' → items pg' !! Z.to_nat (T mod per) = items pg !! Z.to_nat (T mod per)) →
  push_ok c T pgs (put_page (Ptr a) pg' q) x.
Proof.
  intros Hi Ha Epg Hx Hw. destruct (same_pages_private _ _ _ _ _ _ _ _ _ _ _ pg' Hi Ha) as [Hs1 _]. specialize (Hs1 x Hx).
  pose proof (mi_push _ _ _ _ _ _ _ _ _ Hi x Hx) as Hok. destruct x as [[k v] pl]. destruct pl as [|p|p| |p| | | |]; try done.
  - destruct p as [| |b]; try done. specialize (Hs1 b ltac:(by left)). unfold push_ok in *. by rewrite Hs1.
  - destruct p as [| |b]; try done. specialize (Hs1 b ltac:(by left)). unfold push_ok in *. by rewrite Hs1.
  - destruct Hok as (Hn & a' & pg0 & -> & Hl & Epg0 & Hv). rewrite Hn in Hv. split; [done|]. destruct (decide (a' = a)) as [->|Hne].
    + exists a, pg'. simpl. rewrite lookup_insert_eq. split_and!; [done..|]. rewrite Hn, (Hw a) by done. congruence.
    + exists a', pg0. simpl. rewrite lookup_insert_ne by done. split_and!; try done. by rewrite Hn.
Qed.

Lemma take_item_inv c n1 n2 q k P Q T H pgs a : micro_inv c n1 n2 q P ((k, TakeItem (Ptr a)) :: Q) T H pgs →
  ∃ pg r, pages q !! a = Some pg ∧ c (number k) = Some r ∧ Z.testbit (mask pg) (number k mod per) = bool_decide (is_Some r) ∧
    (is_Some r → items pg !! Z.to_nat (number k mod per) = Some r) ∧ Z.of_nat (length (items pg)) = per ∧
    let its := if bool_decide (is_Some r) then <[Z.to_nat (number k mod per) := None]> (items pg) else items pg in
    micro_inv c n1 n2 (put_page (Ptr a) (Page (next pg) (mask pg) its) q)
      P ((k, if number k mod per =? per - 1 then Unlink (Ptr a) r else StoreHead Null r) :: Q) T H pgs.
Proof.
  intros Hi. pose proof (mi_pop _ _ _ _ _ _ _ _ _ Hi _ ltac:(by left)) as (Hn & Hlt & Hp). rewrite Hn.
  destruct (pop_others _ _ _ _ _ _ _ _ _ _ Hi eq_refl Hn) as [Hc0 Hu0]. pose proof (pop_alone _ _ _ _ _ _ _ _ _ _ Hi eq_refl Hn) as Hal.
  destruct (head_chain _ _ _ _ _ _ _ _ _ Hi Hlt) as [EF HF]; [by rewrite count_cons, Hu0|]. pose proof (mi_order _ _ _ _ _ _ _ _ _ Hi).
  destruct (proj2 (mi_stored _ _ _ _ _ _ _ _ _ Hi H ltac:(lia))) as [r Hr]; [by left|]. pose proof per_page_pos. pose proof (Z.mod_pos_bound H per ltac:(lia)).
  assert (Ha : pgs !! 0%nat = Some a) by (unfold pointer_at in Hp; destruct (pgs !! 0%nat); simplify_eq/=; done).
  destruct (mi_chain _ _ _ _ _ _ _ _ _ Hi 0%nat a Ha) as (pg & Epg & Hok). rewrite EF, count_cons, Hc0 in Hok. change (Z.b2z _ + 0) with 0 in Hok. rewrite !Z.add_0_r in Hok.
  destruct Hok as [K1 K2 K3 K4]. exists pg, r. split_and!; [done|done| | |done|].
  { rewrite K3 by (done || lia). unfold is_stored. rewrite Hr. by destruct r. }
  { intros [v ->]. apply K4; done || lia. }
  set (pl := if H mod per =? per - 1 then Unlink (Ptr a) r else StoreHead Null r).
  assert (Hpl : has_item (k, pl) = true ∧ has_left (k, pl) = false ∧ private_pop (k, pl) = []) by (unfold pl; by destruct (_ =? _)).
  destruct Hpl as (Hpl1 & Hpl2 & Hpl3).
  intros its. set (pg' := Page _ _ its). destruct (same_pages_private _ _ _ _ _ _ _ _ _ _ _ pg' Hi Ha) as [Hs1 Hs2].
  assert (Eits : ∀ j, j ≠ Z.to_nat (H mod per) → its !! j = items pg !! j) by (intros j Hj; unfold its; case_bool_decide; [by rewrite list_lookup_insert_ne|done]).
  eapply (write_page_inv c c); [exact Hi|exact Ha|done|done|done|..].
  - by rewrite !filter_cons_True by done.
  - rewrite EF. unfold first_page. rewrite count_cons, Hu0. unfold pl. destruct (Z.eqb_spec (H mod per) (per - 1)) as [E|E]; simpl; [f_equal; lia|].
    rewrite Z.add_0_r. by apply succ_div.
  - rewrite !bind_cons, Hpl3. done.
  - apply (mi_stored _ _ _ _ _ _ _ _ _ Hi).
  - rewrite EF, count_cons, Hc0, Hpl1. change (Z.b2z true + 0) with 1. rewrite Z.add_0_r. split; simpl; [done| |done|].
    + unfold its. case_bool_decide; by rewrite ?length_insert.
    + intros m v Hm Hd Ht Hc. rewrite Eits; [apply K4; done || lia|]. pose proof (Z.mod_pos_bound m per ltac:(lia)). intros E.
      assert (m = H) by (apply item_at; done || lia). lia.
  - intros n nx pg0 _ [L1 L2 L3 L4]. split; [done..|]. intros m v Hm Hd Ht. apply L4; try done. rewrite count_cons in Ht |- *. simpl in *.
    rewrite Hpl1 in Ht. simpl in Ht. lia.
  - intros x Hx. apply (write_push_ok c n1 n2 q P _ T H pgs 0 a pg pg' x Hi Ha Epg Hx). intros a' Hl Hp' Hx'. apply Eits.
    destruct (turn_chain c n1 n2 q P _ T H pgs a' x Hi Hx Hp' Hl) as [Hj' EF']. rewrite EF in EF'.
    pose proof (NoDup_lookup _ _ _ _ (proj1 (proj1 (NoDup_app _ _) (mi_private _ _ _ _ _ _ _ _ _ Hi))) Hj' (eq_trans Ha (f_equal Some Hx'))) as E0.
    intros E. pose proof (Z.mod_pos_bound T per ltac:(lia)). assert (T = H) by (apply item_at; lia). lia.
  - intros x [-> | Hx]%elem_of_cons.
    + unfold pl. destruct (Z.eqb_spec (H mod per) (per - 1)) as [E|E]; simpl; rewrite Hn; by split_and!.
    + eapply (pop_ok_waiting c T T H H pgs pgs q); [apply (mi_pop _ _ _ _ _ _ _ _ _ Hi); by right|by apply Hal|apply Hs2; by right].
Qed.
Lemma unlink_inv c n1 n2 q k r P Q T H pgs a : micro_inv c n1 n2 q P ((k, Unlink (Ptr a) r) :: Q) T H pgs →
  ∃ q' pgs', unlink_page (Ptr a) q = Some q' ∧ micro_inv c n1 n2 q' P ((k, StoreHead (Ptr a) r) :: Q) T H pgs'.
Proof.
  intros Hi. pose proof (mi_pop _ _ _ _ _ _ _ _ _ Hi _ ltac:(by left)) as (Hn & Hlt & Hp & Hm & Hr). rewrite Hn in Hm, Hr.
  destruct (pop_others _ _ _ _ _ _ _ _ _ _ Hi eq_refl Hn) as [Hc0 Hu0]. pose proof (pop_alone _ _ _ _ _ _ _ _ _ _ Hi eq_refl Hn) as Hal.
  destruct pgs as [|a' pgs']; [done|]. injection Hp as <-. destruct (mi_chain _ _ _ _ _ _ _ _ _ Hi 0%nat a eq_refl) as (pg & Epg & [K1 K2 K3 K4]).
  change (pointer_at (a :: pgs') 1) with (pointer_at pgs' 0) in K1.
  assert (EF : first_page H ((k, Unlink (Ptr a) r) :: Q) = H / per) by (unfold first_page; rewrite count_cons, Hu0; simpl; f_equal; lia).
  assert (EF' : first_page H ((k, StoreHead (Ptr a) r) :: Q) = H / per + 1).
  { unfold first_page. rewrite count_cons, Hu0. change (Z.b2z _ + 0) with 1. by apply succ_div_last. }
  assert (EI : count has_item ((k, StoreHead (Ptr a) r) :: Q) = count has_item ((k, Unlink (Ptr a) r) :: Q)) by (by rewrite !count_cons).
  assert (Hpage : ∀ x, x ∈ P → has_page x = true → last (a :: pgs') = last pgs').
  { intros x Hx Hpx. destruct (last (a :: pgs')) as [b|] eqn:El; [|by apply last_None in El].
    destruct (turn_chain _ _ _ _ _ _ _ _ _ b x Hi Hx Hpx El) as [_ E]. rewrite EF in E. simpl in E. rewrite <- El. destruct pgs' as [|b' l]; [exfalso|done].
    simpl in E. assert (T / per = (H + 1) / per - 1) by (rewrite (succ_div_last H Hm); lia). pose proof per_page_pos.
    assert ((H + 1) / per ≤ T / per) by (apply Z.div_le_mono; lia). lia. }
  destruct Hi as [I1 I2 I3 I4 I5 I6 I7 I8 I9 I10 I11 I12 I13]. rewrite EF in *. rewrite bind_cons in I11. simpl in I11.
  set (q' := set_head_page (next pg) q). exists (if is_valid_page (next pg) then q' else set_tail_page Null q'), pgs'.
  split; [unfold unlink_page; simpl; by rewrite Epg|].
  assert (Hq' : ∀ f : micro_queue V → Z, f = tail_counter ∨ f = head_counter → f (if is_valid_page (next pg) then q' else set_tail_page Null q') = f q).
  { intros f [-> | ->]; by destruct (is_valid_page (next pg)). }
  assert (Hpgs : pages (if is_valid_page (next pg) then q' else set_tail_page Null q') = pages q) by (by destruct (is_valid_page (next pg))).
  split; rewrite ?EF', ?EI, ?Hpgs; try done.
  - rewrite Hq'; auto.
  - rewrite Hq'; auto.
  - simpl in I7. lia.
  - by destruct (is_valid_page (next pg)).
  - rewrite K1. unfold pointer_at. destruct pgs' as [|b l]; [done|]. simpl. by rewrite I9.
  - intros j b Hb. destruct (I10 (S j) b Hb) as (pg' & E & Hok). exists pg'. rewrite ?Hpgs. split; [done|].
    replace (H / per + 1 + Z.of_nat j) with (H / per + Z.of_nat (S j)) by lia. done.
  - change (NoDup (pgs' ++ (P ≫= private_push) ++ a :: (Q ≫= private_pop))). rewrite !app_assoc, <- Permutation_middle, <- !app_assoc. done.
  - intros x Hx. pose proof (I12 x Hx) as Hok. specialize (Hpage x Hx). destruct x as [[k' v'] pl']. destruct pl' as [|p|p| |p| | | |]; simpl in *; rewrite ?Hpgs; try done;
      rewrite <- Hpage by done; done.
  - intros x [-> | Hx]%elem_of_cons; [simpl; rewrite Hn, Hpgs; split_and!; eauto|].
    eapply (pop_ok_waiting c T T H H (a :: pgs') _ q); [apply I13; by right|by apply Hal|]. intros b _. by rewrite Hpgs.
Qed.

Lemma store_head_inv c n1 n2 q k p r P Q T H pgs : micro_inv c n1 n2 q P ((k, StoreHead p r) :: Q) T H pgs →
  micro_inv c n1 n2 (set_head_counter (turn k + n_queue) q) P ((if is_valid_page p then [(k, FreePage p r)] else []) ++ Q) T (H + 1) pgs.
Proof.
  intros Hi. pose proof (mi_pop _ _ _ _ _ _ _ _ _ Hi _ ltac:(by left)) as (Hn & Hlt & Hr & Hp).
  destruct (pop_others _ _ _ _ _ _ _ _ _ _ Hi eq_refl Hn) as [Hc0 Hu0]. pose proof (pop_alone _ _ _ _ _ _ _ _ _ _ Hi eq_refl Hn) as Hal.
  destruct Hi as [I1 I2 I3 I4 [I5 I5'] I6 I7 I8 I9 I10 I11 I12 I13]. set (new := if is_valid_page p then _ else _).
  assert (Hnew : count has_item (new ++ Q) = 0 ∧ count has_unlinked (new ++ Q) = 0 ∧
    filter (λ x, has_left x = false) (new ++ Q) = filter (λ x, has_left x = false) Q ∧
    (new ++ Q) ≫= private_pop = ((k, StoreHead p r) :: Q) ≫= private_pop).
  { unfold new. destruct p as [| |b]; simpl; rewrite ?count_cons, ?Hc0, ?Hu0; done. }
  destruct Hnew as (N1 & N2 & N3 & N4).
  assert (EF : first_page (H + 1) (new ++ Q) = first_page H ((k, StoreHead p r) :: Q)) by (unfold first_page; rewrite N2, count_cons, Hu0; simpl; f_equal; lia).
  assert (EI : H + 1 + count has_item (new ++ Q) = H + count has_item ((k, StoreHead p r) :: Q)) by (rewrite N1, count_cons, Hc0; simpl; lia).
  rewrite filter_cons_True, fmap_cons in I5' by done. simpl in I5'. assert (H < n2).
  { assert (Hin : number k ∈ seqZ H (n2 - H)) by (rewrite <- I5'; by left). apply elem_of_seqZ in Hin. lia. }
  rewrite seqZ_first, Hn in I5' by lia. apply Permutation.Permutation_cons_inv in I5'.
  split; rewrite ?EF, ?EI, ?N3, ?N4; try done; simpl.
  - lia.
  - rewrite turn_eq, Hn. unfold n_queue. lia.
  - split; [lia|]. by replace (n2 - (H + 1)) with (n2 - H - 1) by lia.
  - intros x [Hx|Hx]%elem_of_app.
    + unfold new in Hx. destruct p as [| |b]; [by apply elem_of_nil in Hx|done|]. apply list_elem_of_singleton in Hx as ->. simpl. split; [done|].
      exists b. split; [done|]. tauto.
    + eapply (pop_ok_waiting c T T H _ pgs _ q); [apply I13; by right|by apply Hal|done].
Qed.

Lemma free_page_inv c n1 n2 q k r P Q T H pgs a : micro_inv c n1 n2 q P ((k, FreePage (Ptr a) r) :: Q) T H pgs →
  is_Some (pages q !! a) ∧ micro_inv c n1 n2 (set_pages (delete a (pages q)) q) P Q T H pgs.
Proof.
  intros Hi. pose proof (mi_pop _ _ _ _ _ _ _ _ _ Hi _ ltac:(by left)) as (_ & a' & [= <-] & Ha). split; [done|].
  destruct Hi as [I1 I2 I3 I4 [I5 I5'] I6 I7 I8 I9 I10 I11 I12 I13]. rewrite filter_cons_False in I5' by done. rewrite bind_cons in I11. simpl in I11.
  assert (Hnd : NoDup (a :: pgs ++ (P ≫= private_push) ++ (Q ≫= private_pop))).
  { rewrite !app_assoc, Permutation_middle, <- !app_assoc. done. }
  apply NoDup_cons in Hnd as [Hna Hnd]. rewrite !elem_of_app, !list_elem_of_bind in Hna.
  assert (EF : first_page H ((k, FreePage (Ptr a) r) :: Q) = first_page H Q) by (unfold first_page; by rewrite count_cons).
  rewrite EF in *. rewrite count_cons in I10. simpl in I10. split; try done; simpl.
  - intros j b Hb. destruct (I10 j b Hb) as (pg & E & Hok). exists pg. rewrite lookup_delete_ne; [done|]. intros ->. apply Hna. left. by eapply list_elem_of_lookup_2.
  - intros x Hx. eapply (push_ok_pages c T pgs q); [by apply I12|..]; intros b Hb; simpl; apply lookup_delete_ne; intros ->; apply Hna; eauto.
  - intros x Hx. eapply (pop_ok_pages c c T T H pgs pgs q); [apply I13; by right|done|done| |done].
    intros b Hb Hs. simpl. rewrite lookup_delete_ne; [done|]. intros ->. apply Hna. eauto.
Qed.
(** *** All steps *)
Definition micro_good c (n1 n2 : Z) q (P : list pushing) (Q : list popping) : Prop := ∃ T H pgs, micro_inv c n1 n2 q P Q T H pgs.

Definition still_pushing k (v : V) (pl : push_place) : list pushing := match pl with PushReturned _ => [] | _ => [(k, v, pl)] end.
Definition still_popping k (pl : pop_place) : list popping := match pl with PopReturned _ => [] | _ => [(k, pl)] end.
(** The outcomes after a step of a push. *)
Definition settled (c : Z → option (option V)) k (v : V) (pl : push_place) : Z → option (option V) :=
  match pl with
  | MarkItem _ => settle c (number k) (Some v)
  | CountInvalid => settle c (number k) None
  | _ => c
  end.
Definition allocates (o : outcome) k (pl : push_place) q : Prop :=
  pl = PreparePage → number k mod per = 0 → throws o = false ∧ pages q !! address o = None.

Lemma push_step_good c n1 n2 o q k v pl P Q : micro_good c n1 n2 q ((k, v, pl) :: P) Q → allocates o k pl q →
  ∃ pl' d q', push_step item_size o k v pl q = Some (pl', d, q') ∧
    micro_good (settled c k v pl) n1 n2 q' (still_pushing k v pl' ++ P) Q ∧
    (∀ thrown, pl' = PushReturned thrown → c (number k) = Some (if thrown then None else Some v)).
Proof.
  intros (T & H & pgs & Hi) Hal. pose proof (mi_push _ _ _ _ _ _ _ _ _ Hi _ ltac:(by left)) as Hok. unfold push_step. rewrite item_index_eq.
  destruct pl as [|p|p|p|p| |th| |th]; cbn [settled].
  - destruct (Z.eqb_spec (number k mod per) 0) as [E|E].
    + destruct (Hal eq_refl E) as [-> Ha]. rewrite decide_True by done. eexists _, _, _. split_and!; [done| |done]. exists T, H, pgs. by apply alloc_inv.
    + eexists _, _, _. split_and!; [done| |done]. exists T, H, pgs. eapply push_place_inv; [exact Hi|done..].
  - rewrite (mi_tail _ _ _ _ _ _ _ _ _ Hi), turn_eq. destruct (Z.eqb_spec (n_queue * T) (n_queue * number k)) as [E|E].
    + eexists _, _, _. split_and!; [done| |done]. exists T, H, pgs. eapply push_place_inv; [exact Hi|by destruct p..|].
      split; [unfold n_queue in E; lia|done].
    + unfold n_queue at 1. rewrite Z.odd_mul. simpl. eexists _, _, _. split_and!; [done|by exists T, H, pgs|done].
  - destruct Hok as [_ Hok]. destruct p as [| |a]; [|done|].
    + destruct (take_load_inv _ _ _ _ _ _ _ _ _ _ _ Hi) as (a & Ha & Hi'). simpl. rewrite Ha. eexists _, _, _. split_and!; [done| |done]. by exists T, H, pgs.
    + destruct (link_chain _ _ _ _ _ _ _ _ _ _ _ _ Hi) as [-> _]. eexists _, _, _. split_and!; [done| |done]. exists T, H, (pgs ++ [a]). by apply (take_link_inv _ _ _ _ _ _ _ _ _ _ _ _ Hi).
  - destruct Hok as (Hn & a & -> & Hl). destruct (construct_inv _ _ _ _ _ _ _ _ _ _ _ _ Hi) as (pg & its & Epg & Ew & Hi'). simpl. rewrite Epg. simpl.
    destruct (throws o).
    + eexists _, _, _. split_and!; [done| |done]. exists T, H, pgs. by eapply push_place_inv; [exact Hi|..].
    + rewrite Ew. eexists _, _, _. split_and!; [done| |done]. by exists T, H, pgs.
  - destruct Hok as (Hn & a & _ & -> & _). destruct (mark_inv _ _ _ _ _ _ _ _ _ _ _ _ Hi) as (pg & Epg & Hi'). simpl. rewrite Epg. simpl.
    eexists _, _, _. split_and!; [done| |done]. by exists T, H, pgs.
  - eexists _, _, _. split_and!; [done| |done]. exists T, H, pgs. by apply count_invalid_inv.
  - eexists _, _, _. split_and!; [done| |]. { exists (T + 1), H, pgs. by apply (release_inv c n1 n2 q k v th P Q T H pgs). }
    intros ? [= <-]. by destruct Hok.
  - done.
  - done.
Qed.

Lemma pop_step_good c n1 n2 q k pl P Q : micro_good c n1 n2 q P ((k, pl) :: Q) →
  ∃ pl' d q', pop_step item_size k pl q = Some (pl', d, q') ∧
    micro_good c n1 n2 q' P (still_popping k pl' ++ Q) ∧ (∀ r, pl' = PopReturned r → c (number k) = Some r).
Proof.
  intros (T & H & pgs & Hi). pose proof (mi_pop _ _ _ _ _ _ _ _ _ Hi _ ltac:(by left)) as Hok. unfold pop_step. rewrite item_index_eq.
  destruct pl as [| | |p|p r|p r|p r|r].
  - eexists _, _, _. split_and!; [done| |by case_match]. exists T, H, pgs. destruct (Z.eqb_spec (head_counter q) (turn k)); [by apply wait_head_inv|done].
  - eexists _, _, _. split_and!; [done| |by case_match]. exists T, H, pgs. destruct (Z.eqb_spec (tail_counter q) (turn k)); [done|by apply wait_tail_inv].
  - destruct (load_page_inv _ _ _ _ _ _ _ _ _ _ Hi) as (a & -> & Hi'). eexists _, _, _. split_and!; [done| |done]. by exists T, H, pgs.
  - assert (∃ a, p = Ptr a) as [a ->].
    { destruct Hok as (_ & _ & ->). destruct (reading_chain _ _ _ _ _ _ _ _ _ _ Hi ltac:(by left) eq_refl) as [Hl _].
      destruct (lookup_lt_is_Some_2 pgs 0 Hl) as [a Ha]. exists a. unfold pointer_at. by rewrite Ha. }
    destruct (take_item_inv _ _ _ _ _ _ _ _ _ _ _ Hi) as (pg & r & Epg & Hc & Hb & Hit & Hlen & Hi'). simpl. rewrite Epg. simpl. rewrite Hb.
    pose proof per_page_pos. pose proof (Z.mod_pos_bound (number k) per ltac:(lia)). destruct r as [v|].
    + rewrite bool_decide_true in Hi' |- * by eauto. rewrite Hit, write_Some by (eauto || lia). simpl.
      eexists _, _, _. split_and!; [done| |by case_match]. exists T, H, pgs. by destruct (_ =? _).
    + rewrite bool_decide_false in Hi' |- * by (by intros []). simpl. eexists _, _, _. split_and!; [done| |by case_match]. exists T, H, pgs.
      unfold put_page in Hi'. replace (Page (next pg) (mask pg) (items pg)) with pg in Hi' by (by destruct pg). rewrite insert_id in Hi' by done.
      replace (set_pages (pages q) q) with q in Hi' by (by destruct q). by destruct (_ =? _).
  - assert (∃ a, p = Ptr a) as [a ->].
    { destruct Hok as (_ & _ & -> & _). destruct (reading_chain _ _ _ _ _ _ _ _ _ _ Hi ltac:(by left) eq_refl) as [Hl _].
      destruct (lookup_lt_is_Some_2 pgs 0 Hl) as [a Ha]. exists a. unfold pointer_at. by rewrite Ha. }
    destruct (unlink_inv _ _ _ _ _ _ _ _ _ _ _ _ Hi) as (q' & pgs' & -> & Hi'). eexists _, _, _. split_and!; [done| |done]. by exists T, H, pgs'.
  - eexists _, _, _. split_and!; [done| |].
    + exists T, (H + 1), pgs. apply store_head_inv in Hi. by destruct p.
    + intros r' E. destruct Hok as (Hn & _ & Hc & _). destruct p; simplify_eq/=; done.
  - destruct Hok as (Hc & a & -> & _). destruct (free_page_inv _ _ _ _ _ _ _ _ _ _ _ _ Hi) as [[pg Epg] Hi']. rewrite Epg. eexists _, _, _. split_and!; [done| |by intros ? [= <-]].
    by exists T, H, pgs.
  - done.
Qed.

(** *** Some call is in turn *)
Lemma push_in_turn c n1 n2 q P Q T H pgs : micro_inv c n1 n2 q P Q T H pgs → P ≠ [] → ∃ x, x ∈ P ∧ number x.1.1 = T.
Proof.
  intros Hi HP. destruct (mi_pushes _ _ _ _ _ _ _ _ _ Hi) as [Hle Hp]. destruct (decide (n1 = T)) as [->|Hne].
  - rewrite Z.sub_diag in Hp. apply Permutation_nil_r, fmap_nil_inv in Hp. done.
  - assert (Hin : T ∈ (λ x, number x.1.1) <$> P) by (rewrite Hp; apply elem_of_seqZ; lia). apply list_elem_of_fmap in Hin as (x & -> & Hx). eauto.
Qed.
Lemma pop_in_turn c n1 n2 q P Q T H pgs x : micro_inv c n1 n2 q P Q T H pgs → x ∈ Q → has_left x = false → ∃ y, y ∈ Q ∧ has_left y = false ∧ number y.1 = H.
Proof.
  intros Hi Hx Hl. destruct (mi_pops _ _ _ _ _ _ _ _ _ Hi) as [Hle Hp].
  assert (Hin : number x.1 ∈ seqZ H (n2 - H)) by (rewrite <- Hp; apply list_elem_of_fmap; exists x; split; [done|by apply list_elem_of_filter]).
  apply elem_of_seqZ in Hin. assert (Hin' : H ∈ (λ x, number x.1) <$> filter (λ x, has_left x = false) Q) by (rewrite Hp; apply elem_of_seqZ; lia).
  apply list_elem_of_fmap in Hin' as (y & -> & [? ?]%list_elem_of_filter). eauto.
Qed.
Lemma push_moves o k v pl q pl' d q' : push_step item_size o k v pl q = Some (pl', d, q') → pl' = pl → tail_counter q ≠ turn k ∧ ∃ p, pl = WaitTurn p.
Proof.
  unfold push_step. intros E ->. destruct pl; repeat (case_match || apply bind_Some in E as (? & ? & E) || simplify_eq/=); try done. rewrite Z.eqb_neq in *. eauto.
Qed.
Lemma pop_moves k pl q pl' d q' : pop_step item_size k pl q = Some (pl', d, q') → pl' = pl →
  pl = WaitHead ∧ head_counter q ≠ turn k ∨ pl = WaitTail ∧ tail_counter q = turn k.
Proof.
  unfold pop_step. intros E ->. destruct pl; repeat (case_match || apply bind_Some in E as (? & ? & E) || simplify_eq/=); try done; rewrite ?Z.eqb_neq, ?Z.eqb_eq in *; auto.
Qed.
End inv.
End MicroInv.
