(* ===== verification/ConcurrentQueue.v ===== *)
(** * concurrent_queue

    Eight micro queues and two counters of tickets: a push takes the next ticket
    of the tail, a pop that of the head, and both go to the micro queue that
    belongs to the ticket.  Source:
    include/oneapi/tbb/detail/_concurrent_queue_base.h ([concurrent_queue_rep]),
    include/oneapi/tbb/concurrent_queue.h ([internal_try_pop_impl],
    [concurrent_queue]).

    [QueueRep] lifts the invariant of [MicroQueue] to the whole queue, for any
    set of calls of [push] and [pop] in progress.  [ConcurrentQueue] has the
    threads that call [push] and [try_pop]. *)

From S2P Require Import Prelude MicroQueue.
From stdpp Require Import base numbers relations gmap list.
From Stdlib Require Import ZArith Lia.
Local Open Scope Z_scope.

(** ** The representation of a queue *)
Module QueueRep.
Import MicroQueue MicroInv.

Record queue_rep (V : Type) := Rep {
  array : list (micro_queue V);
  head_counter : Z;
  tail_counter : Z;
  n_invalid_entries : Z;
}.
Arguments Rep {V}.
Arguments array {V}.
Arguments head_counter {V}.
Arguments tail_counter {V}.
Arguments n_invalid_entries {V}.

Section rep.
Context {V : Type} (item_size : Z).
Implicit Types (rep : queue_rep V) (k : Z) (v : V).

Definition phi : Z := 3.
(** [index] and [choose] *)
Definition index k : Z := (k * phi) mod n_queue.
Definition choose k rep : option (micro_queue V) := array rep !! Z.to_nat (index k).
Definition empty_rep : queue_rep V := Rep (replicate (Z.to_nat n_queue) empty_queue) 0 0 0.

Definition set_counters h t rep : queue_rep V := Rep (array rep) h t (n_invalid_entries rep).
(** A step of a call in the micro queue of its ticket. *)
Definition set_micro k q (d : Z) rep : queue_rep V :=
  Rep (<[Z.to_nat (index k) := q]> (array rep)) (head_counter rep) (tail_counter rep) (n_invalid_entries rep + d).
Definition rep_push_step (o : outcome) k v (pl : push_place) rep : option (push_place * queue_rep V) :=
  q ← choose k rep;
  '(pl, d, q) ← push_step item_size o k v pl q;
  Some (pl, set_micro k q d rep).
Definition rep_pop_step k (pl : pop_place) rep : option (pop_place * queue_rep V) :=
  q ← choose k rep;
  '(pl, d, q) ← pop_step item_size k pl q;
  Some (pl, set_micro k q d rep).

(** [empty] and [size] *)
Definition rep_empty rep : bool := tail_counter rep - head_counter rep - n_invalid_entries rep <=? 0.
Definition rep_size rep : Z := tail_counter rep - head_counter rep - n_invalid_entries rep.

(** *** The micro queue of a ticket depends on its remainder *)
Lemma index_mod k : index k = index (k mod n_queue).
Proof. unfold index. by rewrite Z.mul_mod_idemp_l. Qed.
Lemma index_range k : 0 ≤ index k < n_queue.
Proof. apply Z.mod_pos_bound. done. Qed.
Lemma index_inj k k' : index k = index k' → k mod n_queue = k' mod n_queue.
Proof.
  intros E. rewrite (index_mod k), (index_mod k') in E. pose proof (Z.mod_pos_bound k n_queue ltac:(done)). pose proof (Z.mod_pos_bound k' n_queue ltac:(done)).
  revert E. generalize (k mod n_queue) (k' mod n_queue) H H0. clear. unfold index, n_queue, phi. intros x y Hx Hy.
  assert (x = 0 ∨ x = 1 ∨ x = 2 ∨ x = 3 ∨ x = 4 ∨ x = 5 ∨ x = 6 ∨ x = 7) as Cx by lia.
  assert (y = 0 ∨ y = 1 ∨ y = 2 ∨ y = 3 ∨ y = 4 ∨ y = 5 ∨ y = 6 ∨ y = 7) as Cy by lia.
  destruct Cx as [-> |[-> |[-> |[-> |[-> |[-> |[-> | ->]]]]]]], Cy as [-> |[-> |[-> |[-> |[-> |[-> |[-> | ->]]]]]]]; done.
Qed.

(** *** The invariant *)
Definition issued (n r : Z) : Z := (n - r + (n_queue - 1)) / n_queue.
Lemma issued_next n : 0 ≤ n → issued n (n mod n_queue) = number n ∧ issued (n + 1) (n mod n_queue) = number n + 1.
Proof.
  intros Hn. unfold issued, number, n_queue. pose proof (Z.div_mod n 8 ltac:(done)) as E. pose proof (Z.mod_pos_bound n 8 ltac:(done)).
  split; symmetry.
  - apply (Z.div_unique _ _ _ 7); lia.
  - apply (Z.div_unique _ _ _ 0); lia.
Qed.
Lemma issued_other n r : 0 ≤ n → 0 ≤ r < n_queue → r ≠ n mod n_queue → issued (n + 1) r = issued n r.
Proof.
  unfold issued, n_queue. intros Hn Hr Hne. pose proof (Z.div_mod n 8 ltac:(done)) as E. pose proof (Z.mod_pos_bound n 8 ltac:(done)).
  rewrite E. set (d := n / 8) in *. set (m := n mod 8) in *. clearbody d m.
  replace (8 * d + m + 1 - r + (8 - 1)) with (m - r + 8 + d * 8) by lia. replace (8 * d + m - r + (8 - 1)) with (m - r + 7 + d * 8) by lia.
  rewrite !Z.div_add by done. f_equal. destruct (Z.lt_ge_cases m r).
  - rewrite !Z.div_small by lia. done.
  - transitivity 1; [symmetry; apply (Z.div_unique _ _ _ (m - r)); lia|apply (Z.div_unique _ _ _ (m - r - 1)); lia].
Qed.
(** The calls of the tickets with a given remainder. *)
Local Abbreviation pushing := (Z * V * push_place)%type.
Local Abbreviation popping := (Z * pop_place (V := V))%type.
Definition pushes_of (r : Z) (P : list pushing) : list pushing := filter (λ x, x.1.1 mod n_queue = r) P.
Definition pops_of (r : Z) (Q : list popping) : list popping := filter (λ x, x.1 mod n_queue = r) Q.
(** [c] has the outcomes of the pushes by ticket. *)
Definition outcomes_of (c : Z → option (option V)) (r m : Z) : option (option V) := c (n_queue * m + r).
Lemma outcomes_of_ticket c k : outcomes_of c (k mod n_queue) (number k) = c k.
Proof. unfold outcomes_of, number. f_equal. symmetry. by apply Z.div_mod. Qed.

Record rep_good (c : Z → option (option V)) rep (P : list pushing) (Q : list popping) : Prop := {
  rg_length : length (array rep) = Z.to_nat n_queue;
  rg_counters : 0 ≤ head_counter rep ∧ 0 ≤ tail_counter rep;
  rg_micro r q : 0 ≤ r < n_queue → choose r rep = Some q →
    micro_good item_size (outcomes_of c r) (issued (tail_counter rep) r) (issued (head_counter rep) r) q (pushes_of r P) (pops_of r Q);
}.

Lemma choose_Some c rep P Q k : rep_good c rep P Q → ∃ q, choose k rep = Some q ∧ choose (k mod n_queue) rep = Some q.
Proof.
  intros Hg. unfold choose. rewrite (index_mod k). destruct (lookup_lt_is_Some_2 (array rep) (Z.to_nat (index (k mod n_queue)))) as [q ->]; [|eauto].
  rewrite (rg_length _ _ _ _ Hg). pose proof (index_range (k mod n_queue)). lia.
Qed.
Lemma choose_set k r q d rep : 0 ≤ r < n_queue → length (array rep) = Z.to_nat n_queue →
  choose r (set_micro k q d rep) = if decide (r = k mod n_queue) then Some q else choose r rep.
Proof.
  intros Hr Hl. unfold choose, set_micro. simpl. pose proof (index_range k). case_decide as E.
  - rewrite E, <- index_mod. apply list_lookup_insert_eq. lia.
  - apply list_lookup_insert_ne. intros Hi. apply E. rewrite <- (Z.mod_small r n_queue) by done. symmetry. apply index_inj.
    pose proof (index_range r). lia.
Qed.

Lemma micro_good_perm c n1 n2 q P P' Q Q' : P ≡ₚ P' → Q ≡ₚ Q' → micro_good (V := V) item_size c n1 n2 q P Q → micro_good item_size c n1 n2 q P' Q'.
Proof. intros HP HQ (T & H & pgs & Hi). exists T, H, pgs. by eapply micro_inv_perm. Qed.
Lemma micro_inv_ext (c c' : Z → option (option V)) n1 n2 q P Q T H pgs : (∀ m, c' m = c m) →
  micro_inv item_size c n1 n2 q P Q T H pgs → micro_inv item_size c' n1 n2 q P Q T H pgs.
Proof.
  intros Hc [I1 I2 I3 I4 I5 I6 I7 I8 I9 I10 I11 I12 I13]. split; try done.
  - intros m Hm. by rewrite Hc, I6.
  - intros j a Hj. destruct (I10 j a Hj) as (pg & E & [K1 K2 K3 K4]). exists pg. split; [done|]. split; [done..| |].
    + intros m Hm Hd. rewrite K3 by done. unfold is_stored. by rewrite Hc.
    + intros m v Hm Hd Ht. rewrite Hc. by apply K4.
  - intros x Hx. pose proof (I12 x Hx) as Hok. destruct x as [[k v] pl]. destruct pl; simpl in *; rewrite ?Hc; done.
  - intros x Hx. pose proof (I13 x Hx) as Hok. destruct x as [k pl]. destruct pl; simpl in *; rewrite ?Hc; done.
Qed.
Lemma micro_good_ext (c c' : Z → option (option V)) n1 n2 q P Q : (∀ m, c' m = c m) → micro_good item_size c n1 n2 q P Q → micro_good item_size c' n1 n2 q P Q.
Proof. intros Hc (T & H & pgs & Hi). exists T, H, pgs. by eapply micro_inv_ext. Qed.
Lemma outcomes_settle (c : Z → option (option V)) k o r m : 0 ≤ r < n_queue →
  outcomes_of (settle c k o) r m = if decide (r = k mod n_queue) then settle (outcomes_of c r) (number k) o m else outcomes_of c r m.
Proof.
  intros Hr. unfold outcomes_of, settle, number. pose proof (Z.div_mod k n_queue ltac:(done)) as E.
  assert (Em : n_queue * m + r = k ↔ m = k / n_queue ∧ r = k mod n_queue).
  { split; [|intros [-> ->]; lia]. intros <-. split; [apply (Z.div_unique _ _ _ r); lia|apply (Z.mod_unique _ _ m); lia]. }
  destruct (decide (r = k mod n_queue)) as [Er|Er]; [destruct (decide (m = k / n_queue))|]; rewrite ?decide_True, ?decide_False by tauto; done.
Qed.

(** The outcomes after a step of a push, by ticket. *)
Definition rep_settled (c : Z → option (option V)) k v (pl : push_place) : Z → option (option V) :=
  match pl with MarkItem _ => settle c k (Some v) | CountInvalid => settle c k None | _ => c end.
Lemma rep_settled_of c k v pl r m : 0 ≤ r < n_queue →
  outcomes_of (rep_settled c k v pl) r m = if decide (r = k mod n_queue) then settled (outcomes_of c r) k v pl m else outcomes_of c r m.
Proof. intros Hr. destruct pl; simpl; try (by case_decide); by apply outcomes_settle. Qed.

Lemma pushes_of_cons r x P : pushes_of r (x :: P) = (if decide (x.1.1 mod n_queue = r) then [x] else []) ++ pushes_of r P.
Proof. unfold pushes_of. rewrite filter_cons. by case_decide. Qed.
Lemma pops_of_cons r x Q : pops_of r (x :: Q) = (if decide (x.1 mod n_queue = r) then [x] else []) ++ pops_of r Q.
Proof. unfold pops_of. rewrite filter_cons. by case_decide. Qed.

Lemma rep_good_perm c rep P P' Q Q' : P ≡ₚ P' → Q ≡ₚ Q' → rep_good c rep P Q → rep_good c rep P' Q'.
Proof.
  intros HP HQ [H1 H2 H3]. split; [done..|]. intros r q Hr Hq. eapply micro_good_perm; [| |by apply H3]; unfold pushes_of, pops_of; by rewrite ?HP, ?HQ.
Qed.

(** A page is available when one is needed. *)
Definition rep_allocates (o : outcome) k (pl : push_place) rep : Prop := ∀ q, choose k rep = Some q → allocates item_size o k pl q.

Lemma rep_push_good c o rep k v pl P Q : rep_good c rep ((k, v, pl) :: P) Q → rep_allocates o k pl rep →
  ∃ pl' rep', rep_push_step o k v pl rep = Some (pl', rep') ∧ rep_good (rep_settled c k v pl) rep' (still_pushing k v pl' ++ P) Q ∧
    head_counter rep' = head_counter rep ∧ tail_counter rep' = tail_counter rep ∧
    (∀ thrown, pl' = PushReturned thrown → c k = Some (if thrown then None else Some v)).
Proof.
  intros Hg Ha. destruct (choose_Some _ _ _ _ k Hg) as (q & Eq & Eq'). pose proof Hg as [H1 H2 H3].
  pose proof (Z.mod_pos_bound k n_queue ltac:(done)) as Hkr. pose proof (H3 _ _ Hkr Eq') as Hm. rewrite pushes_of_cons in Hm. simpl in Hm.
  rewrite decide_True in Hm by done. destruct (push_step_good _ _ _ _ _ _ _ _ _ _ _ Hm (Ha q Eq)) as (pl' & d & q' & E & Hm' & Hret).
  exists pl', (set_micro k q' d rep). unfold rep_push_step. rewrite Eq. simpl. rewrite E. split_and!; try done; simpl.
  - split; [simpl; by rewrite length_insert|done|]. intros r q0 Hr Hq0. rewrite choose_set in Hq0 by done. simpl.
    assert (Hf : pushes_of r (still_pushing k v pl' ++ P) = (if decide (r = k mod n_queue) then still_pushing k v pl' else []) ++ pushes_of r P).
    { unfold pushes_of. rewrite filter_app. f_equal. destruct pl'; simpl; rewrite ?filter_cons, ?filter_nil; simpl; repeat case_decide; congruence || done. }
    destruct (decide (r = k mod n_queue)) as [->|Hne]; simplify_eq; rewrite Hf.
    + eapply micro_good_ext; [|exact Hm']. intros m. rewrite rep_settled_of, decide_True by done. done.
    + eapply micro_good_ext; [intros m; by rewrite rep_settled_of, decide_False by done|]. pose proof (H3 r q0 Hr Hq0) as Hm0.
      rewrite pushes_of_cons in Hm0. simpl in Hm0. by rewrite decide_False in Hm0 by done.
  - intros thrown Hth. rewrite <- (outcomes_of_ticket c k). by apply Hret.
Qed.

Lemma rep_pop_good c rep k pl P Q : rep_good c rep P ((k, pl) :: Q) →
  ∃ pl' rep', rep_pop_step k pl rep = Some (pl', rep') ∧ rep_good c rep' P (still_popping k pl' ++ Q) ∧
    head_counter rep' = head_counter rep ∧ tail_counter rep' = tail_counter rep ∧ (∀ r, pl' = PopReturned r → c k = Some r).
Proof.
  intros Hg. destruct (choose_Some _ _ _ _ k Hg) as (q & Eq & Eq'). pose proof Hg as [H1 H2 H3].
  pose proof (Z.mod_pos_bound k n_queue ltac:(done)) as Hkr. pose proof (H3 _ _ Hkr Eq') as Hm. rewrite pops_of_cons in Hm. simpl in Hm.
  rewrite decide_True in Hm by done. destruct (pop_step_good _ _ _ _ _ _ _ _ _ Hm) as (pl' & d & q' & E & Hm' & Hret).
  exists pl', (set_micro k q' d rep). unfold rep_pop_step. rewrite Eq. simpl. rewrite E. split_and!; try done; simpl.
  - split; [simpl; by rewrite length_insert|done|]. intros r q0 Hr Hq0. rewrite choose_set in Hq0 by done. simpl.
    assert (Hf : pops_of r (still_popping k pl' ++ Q) = (if decide (r = k mod n_queue) then still_popping k pl' else []) ++ pops_of r Q).
    { unfold pops_of. rewrite filter_app. f_equal. destruct pl'; simpl; rewrite ?filter_cons, ?filter_nil; simpl; repeat case_decide; congruence || done. }
    destruct (decide (r = k mod n_queue)) as [->|Hne]; simplify_eq; rewrite Hf; [done|].
    pose proof (H3 r q0 Hr Hq0) as Hm0. rewrite pops_of_cons in Hm0. simpl in Hm0. by rewrite decide_False in Hm0 by done.
  - intros r Hr. rewrite <- (outcomes_of_ticket c k). by apply Hret.
Qed.

Lemma rep_unsettled c rep k v pl P Q : rep_good c rep ((k, v, pl) :: P) Q → (pl = CountInvalid ∨ ∃ p, pl = MarkItem p) → c k = None.
Proof.
  intros Hg Hpl. destruct (choose_Some _ _ _ _ k Hg) as (q & Eq & Eq'). destruct (rg_micro _ _ _ _ Hg (k mod n_queue) q) as (T & H & pgs & Hi); [by apply Z.mod_pos_bound|done|].
  rewrite pushes_of_cons in Hi. simpl in Hi. rewrite decide_True in Hi by done. rewrite <- (outcomes_of_ticket c k).
  assert (Hn : number k = T).
  { pose proof (mi_push _ _ _ _ _ _ _ _ _ _ Hi (k, v, pl) ltac:(by left)) as Hok. destruct Hpl as [-> |[p ->]]; simpl in Hok; tauto. }
  rewrite Hn. eapply unsettled; [exact Hi|done|]. by destruct Hpl as [-> |[p ->]].
Qed.

Lemma rep_good_ext c c' rep P Q : (∀ k, c' k = c k) → rep_good c rep P Q → rep_good c' rep P Q.
Proof. intros Hc [H1 H2 H3]. split; [done..|]. intros r q Hr Hq. eapply micro_good_ext; [|by apply H3]. intros m. apply Hc. Qed.

(** A ticket is taken. *)
Lemma rep_take_push c rep v P Q : rep_good c rep P Q →
  rep_good c (set_counters (head_counter rep) (tail_counter rep + 1) rep) ((tail_counter rep, v, PreparePage) :: P) Q.
Proof.
  intros [H1 [H2 H2'] H3]. split; simpl; [done|lia|]. intros r q Hr Hq. pose proof (H3 r q Hr Hq) as (T & H & pgs & Hi). rewrite pushes_of_cons. simpl.
  destruct (decide (tail_counter rep mod n_queue = r)) as [<-|Hne].
  - destruct (issued_next (tail_counter rep) H2') as [E1 E2]. rewrite E2. rewrite E1 in Hi. exists T, H, pgs. by apply start_push_inv.
  - rewrite issued_other by (done || congruence). by exists T, H, pgs.
Qed.
Lemma rep_take_pop c rep P Q : rep_good c rep P Q →
  rep_good c (set_counters (head_counter rep + 1) (tail_counter rep) rep) P ((head_counter rep, WaitHead) :: Q).
Proof.
  intros [H1 [H2 H2'] H3]. split; simpl; [done|lia|]. intros r q Hr Hq. pose proof (H3 r q Hr Hq) as (T & H & pgs & Hi). rewrite pops_of_cons. simpl.
  destruct (decide (head_counter rep mod n_queue = r)) as [<-|Hne].
  - destruct (issued_next (head_counter rep) H2) as [E1 E2]. rewrite E2. rewrite E1 in Hi. exists T, H, pgs. by apply start_pop_inv.
  - rewrite issued_other by (done || congruence). by exists T, H, pgs.
Qed.

(** *** Some call can go on *)
Lemma issued_bound n k : k < n → number k < issued n (k mod n_queue).
Proof.
  intros Hk. unfold number, issued, n_queue. pose proof (Z.div_mod k 8 ltac:(done)) as E. apply Z.lt_le_trans with (k / 8 + 1); [lia|].
  apply Z.div_le_lower_bound; lia.
Qed.
Lemma ticket_le k k' : k mod n_queue = k' mod n_queue → number k ≤ number k' → k ≤ k'.
Proof. unfold number, n_queue. intros E Hle. pose proof (Z.div_mod k 8 ltac:(done)). pose proof (Z.div_mod k' 8 ltac:(done)). lia. Qed.
Lemma ticket_eq k k' : k mod n_queue = k' mod n_queue → number k = number k' → k = k'.
Proof. unfold number, n_queue. intros E Hle. pose proof (Z.div_mod k 8 ltac:(done)). pose proof (Z.div_mod k' 8 ltac:(done)). lia. Qed.
(** The push in turn in the micro queue of a push does more than wait. *)
Lemma rep_push_moves c rep P Q x : rep_good c rep P Q → x ∈ P →
  ∃ k v pl, (k, v, pl) ∈ P ∧ k ≤ x.1.1 ∧ ∀ o pl' rep', rep_push_step o k v pl rep = Some (pl', rep') → pl' ≠ pl.
Proof.
  intros Hg Hx0. pose proof (Z.mod_pos_bound x.1.1 n_queue ltac:(done)) as Hr. set (r := x.1.1 mod n_queue) in *.
  destruct (choose_Some _ _ _ _ r Hg) as (q & Eq & _). destruct (rg_micro _ _ _ _ Hg r q Hr Eq) as (T & H & pgs & Hi).
  assert (Hin : x ∈ pushes_of r P) by (by apply list_elem_of_filter). destruct (push_in_turn _ _ _ _ _ _ _ _ _ _ Hi) as ([[k v] pl] & Hx & Hn).
  { intros E. rewrite E in Hin. by apply elem_of_nil in Hin. }
  assert (HT : T ≤ number x.1.1).
  { destruct (mi_pushes _ _ _ _ _ _ _ _ _ _ Hi) as [_ Hp]. assert (Hs : number x.1.1 ∈ seqZ T (issued (tail_counter rep) r - T)) by (rewrite <- Hp; apply list_elem_of_fmap; by exists x).
    apply elem_of_seqZ in Hs. lia. }
  apply list_elem_of_filter in Hx as [Hkr Hx]. simpl in *. exists k, v, pl. split_and!; [done|apply ticket_le; congruence || lia|].
  intros o pl' rep' E Heq. unfold rep_push_step in E.
  unfold choose in E, Eq. rewrite index_mod, Hkr in E. rewrite Eq in E. simpl in E. apply bind_Some in E as ([[pl0 d] q0] & E & [= -> _]).
  destruct (push_moves _ _ _ _ _ _ _ _ _ E Heq) as [Hne _]. apply Hne. rewrite (mi_tail _ _ _ _ _ _ _ _ _ _ Hi), turn_eq. congruence.
Qed.
(** The pop in turn in the micro queue of a pop does more than wait, unless the
    push with its ticket is in progress. *)
Lemma rep_pop_moves c rep P Q x : rep_good c rep P Q → x ∈ Q → x.1 < tail_counter rep →
  ∃ k pl, (k, pl) ∈ Q ∧ k ≤ x.1 ∧ ((∃ v pl', (k, v, pl') ∈ P) ∨ ∀ pl' rep', rep_pop_step k pl rep = Some (pl', rep') → pl' ≠ pl).
Proof.
  intros Hg Hx0 Hlt. destruct x as [k0 pl0]. simpl in *. destruct (has_left (k0, pl0)) eqn:Hl.
  { exists k0, pl0. split_and!; [done..|]. right. intros pl' rep' E Heq. unfold rep_pop_step in E. apply bind_Some in E as (q & _ & E).
    apply bind_Some in E as ([[pl1 d] q0] & E & [= -> _]). destruct (pop_moves _ _ _ _ _ _ _ E Heq) as [[-> _]|[-> _]]; done. }
  pose proof (Z.mod_pos_bound k0 n_queue ltac:(done)) as Hr. set (r := k0 mod n_queue) in *.
  destruct (choose_Some _ _ _ _ r Hg) as (q & Eq & _). destruct (rg_micro _ _ _ _ Hg r q Hr Eq) as (T & H & pgs & Hi).
  assert (Hin : (k0, pl0) ∈ pops_of r Q) by (by apply list_elem_of_filter). destruct (pop_in_turn _ _ _ _ _ _ _ _ _ _ _ Hi Hin Hl) as ([k pl] & Hx & _ & Hn).
  assert (HH : H ≤ number k0).
  { destruct (mi_pops _ _ _ _ _ _ _ _ _ _ Hi) as [_ Hp]. assert (Hs : number k0 ∈ seqZ H (issued (head_counter rep) r - H)).
    { rewrite <- Hp. apply list_elem_of_fmap. exists (k0, pl0). split; [done|by apply list_elem_of_filter]. }
    apply elem_of_seqZ in Hs. lia. }
  apply list_elem_of_filter in Hx as [Hkr Hx]. simpl in *. assert (Hle : k ≤ k0) by (apply ticket_le; congruence || lia). exists k, pl. split_and!; [done..|].
  destruct (mi_pushes _ _ _ _ _ _ _ _ _ _ Hi) as [HTle HT]. pose proof (issued_bound (tail_counter rep) k ltac:(lia)) as Hb. rewrite Hkr, Hn in Hb.
  destruct (decide (H = T)) as [->|HneT].
  { left. assert (Hs : T ∈ (λ x, number x.1.1) <$> pushes_of r P) by (rewrite HT; apply elem_of_seqZ; lia).
    apply list_elem_of_fmap in Hs as ([[k1 v1] pl1] & Ek1 & [Hr1 Hp1]%list_elem_of_filter). simpl in *. exists v1, pl1.
    replace k with k1; [done|]. apply ticket_eq; congruence. }
  right. intros pl' rep' E Heq. unfold rep_pop_step in E.
  unfold choose in E, Eq. rewrite index_mod, Hkr in E. rewrite Eq in E. simpl in E. apply bind_Some in E as ([[pl1 d] q0] & E & [= -> _]).
  destruct (pop_moves _ _ _ _ _ _ _ E Heq) as [[_ Hne]|[_ He]].
  - apply Hne. rewrite (mi_head _ _ _ _ _ _ _ _ _ _ Hi), turn_eq. congruence.
  - rewrite (mi_tail _ _ _ _ _ _ _ _ _ _ Hi), turn_eq, Hn in He. unfold n_queue in He. lia.
Qed.

Lemma empty_good : rep_good (λ _, None) empty_rep [] [].
Proof.
  split; [done|done|]. intros r q Hr Hq. unfold choose in Hq. apply lookup_replicate in Hq as [-> _].
  assert (issued 0 r = 0) as E by (unfold issued; apply Z.div_small; unfold n_queue in *; lia). simpl. rewrite E.
  pose proof (per_page_pos item_size). exists 0, 0, []. split; try done.
  - intros m Hm. split; [by intros []|]. intros [?|(_ & x & th & ?%elem_of_nil & _)]; [lia|done].
  - unfold last_page, first_page, count, zsum. simpl. rewrite Z.div_small, Z.div_small by lia. done.
  - constructor.
  - by intros x ?%elem_of_nil.
  - by intros x ?%elem_of_nil.
Qed.
End rep.
End QueueRep.

(** ** The threads of a concurrent_queue *)
Module ConcurrentQueue.
Import MicroQueue MicroInv QueueRep.

Section queue.
Context {V : Type} (item_size : Z).

(** A thread is in a call of [push], in [internal_try_pop_impl] (before the loads
    of [head_counter] and of [tail_counter], before the exchange), or in a call of
    [pop]. *)
Inductive thread :=
  | Idle
  | Pushing (k : Z) (v : V) (pl : push_place)
  | PopHead
  | PopTail (ticket : Z)
  | PopExchange (ticket : Z)
  | Popping (k : Z) (pl : pop_place (V := V)).

(** The log has the operations in the order in which they take effect, with the
    thread and the ticket. *)
Inductive event :=
  | EvPush (i : nat) (k : Z) (v : V)
  | EvPop (i : nat) (k : Z) (v : V)
  | EvEmpty (i : nat).
Inductive answer :=
  | Pushed (k : Z) (thrown : bool)
  | Popped (k : Z) (v : V)
  | WasEmpty.

(** For the theorems: [values] has the objects of the pushes by ticket,
    [outcomes] what became of them, [returned] the operations that have returned. *)
Record state := State {
  rep : queue_rep V;
  threads : list thread;
  values : list V;
  outcomes : gmap Z (option V);
  log : list event;
  returned : list (nat * answer);
}.
Implicit Types (σ : state) (t : thread) (k : Z) (v : V).

Definition set_rep r σ : state := State r (threads σ) (values σ) (outcomes σ) (log σ) (returned σ).
Definition go (i : nat) t σ : state := State (rep σ) (<[i := t]> (threads σ)) (values σ) (outcomes σ) (log σ) (returned σ).
Definition add_value v σ : state := State (rep σ) (threads σ) (values σ ++ [v]) (outcomes σ) (log σ) (returned σ).
Definition note k (pl : push_place) v σ : state :=
  State (rep σ) (threads σ) (values σ)
    (match pl with MarkItem _ => <[k := Some v]> (outcomes σ) | CountInvalid => <[k := None]> (outcomes σ) | _ => outcomes σ end) (log σ) (returned σ).
Definition add_event e σ : state := State (rep σ) (threads σ) (values σ) (outcomes σ) (log σ ++ [e]) (returned σ).
Definition answer_to (i : nat) a σ : state := State (rep σ) (threads σ) (values σ) (outcomes σ) (log σ) (returned σ ++ [(i, a)]).

Inductive request := DoPush (v : V) | DoTryPop.

(** One operation of thread [i]. *)
Definition next (rq : request) (o : outcome) (i : nat) σ : option state :=
  t ← threads σ !! i;
  let r := rep σ in
  match t with
  | Idle =>
      match rq with
      | DoPush v =>
          let k := tail_counter r in
          Some (go i (Pushing k v PreparePage) (add_event (EvPush i k v) (add_value v (set_rep (set_counters (head_counter r) (k + 1) r) σ))))
      | DoTryPop => Some (go i PopHead σ)
      end
  | Pushing k v pl =>
      '(pl', r) ← rep_push_step item_size o k v pl r;
      let σ := note k pl v (set_rep r σ) in
      Some (match pl' with PushReturned thrown => answer_to i (Pushed k thrown) (go i Idle σ) | _ => go i (Pushing k v pl') σ end)
  | PopHead => Some (go i (PopTail (head_counter r)) σ)
  | PopTail ticket =>
      Some (if tail_counter r - ticket <=? 0 then answer_to i WasEmpty (add_event (EvEmpty i) (go i Idle σ)) else go i (PopExchange ticket) σ)
  | PopExchange ticket =>
      if head_counter r =? ticket then
        v ← values σ !! Z.to_nat ticket;
        Some (go i (Popping ticket WaitHead) (add_event (EvPop i ticket v) (set_rep (set_counters (ticket + 1) (tail_counter r) r) σ)))
      else Some (go i (PopTail (head_counter r)) σ)
  | Popping k pl =>
      '(pl', r) ← rep_pop_step item_size k pl r;
      let σ := set_rep r σ in
      Some (match pl' with
            | PopReturned (Some v) => answer_to i (Popped k v) (go i Idle σ)
            | PopReturned None => go i PopHead σ
            | _ => go i (Popping k pl') σ
            end)
  end.

(** If the next operation of the thread allocates a page, the allocation does not
    throw, and its result is an address that is not in use.  (The construction of
    an item may throw.) *)
Definition page_available (o : outcome) (i : nat) σ : Prop :=
  ∀ k v pl, threads σ !! i = Some (Pushing k v pl) → rep_allocates item_size o k pl (rep σ).

(** A step of an execution in which no allocation of a page throws.  The theorems
    are about these executions only: once an allocation has thrown the queue is
    broken, see [pop_reads_invalid_page]. *)
Inductive allocating_step : state → state → Prop :=
  | step_thread rq o i σ σ' : page_available o i σ → next rq o i σ = Some σ' → allocating_step σ σ'.

Definition start (n : nat) : state := State empty_rep (replicate n Idle) [] ∅ [] [].

(** *** A queue that is used by one thread *)
Definition event_ticket (e : event) : option Z := match e with EvPush _ k _ | EvPop _ k _ => Some k | EvEmpty _ => None end.
(** The operations of pushes that did not throw, and of pops of their items. *)
Definition kept (valid : Z → bool) (e : event) : Prop := match event_ticket e with Some k => valid k = true | None => True end.
#[global] Instance kept_dec valid e : Decision (kept valid e).
Proof. unfold kept. destruct (event_ticket e); apply _. Defined.
Definition did_not_throw σ k : bool := match outcomes σ !! k with Some None => false | _ => true end.

(** [fifo q l q']: the operations of [l] lead from the contents [q] to [q']. *)
Inductive fifo : list V → list event → list V → Prop :=
  | fifo_nil q : fifo q [] q
  | fifo_push q i k v l q' : fifo (q ++ [v]) l q' → fifo q (EvPush i k v :: l) q'
  | fifo_pop q i k v l q' : fifo q l q' → fifo (v :: q) (EvPop i k v :: l) q'
  | fifo_empty i l q' : fifo [] l q' → fifo [] (EvEmpty i :: l) q'.

Lemma fifo_app q l q' l' q'' : fifo q l q' → fifo q' l' q'' → fifo q (l ++ l') q''.
Proof. induction 1; intros Hl; simpl; [done|by constructor; auto..]. Qed.

(** *** The invariant *)
Definition pushing_of (t : thread) : option (Z * V * push_place) := match t with Pushing k v pl => Some (k, v, pl) | _ => None end.
Definition popping_of (t : thread) : option (Z * pop_place) := match t with Popping k pl => Some (k, pl) | _ => None end.
Local Abbreviation pushes σ := (omap pushing_of (threads σ)).
Local Abbreviation pops σ := (omap popping_of (threads σ)).

(** The tickets and values that were pushed and not popped. *)
Definition entries σ : list (Z * V) := drop (Z.to_nat (head_counter (rep σ))) (imap (λ j x, (Z.of_nat j, x)) (values σ)).
Definition contents (valid : Z → bool) σ : list V := (filter (λ x, valid x.1 = true) (entries σ)).*2.

Definition thread_ok σ (i : nat) t : Prop :=
  match t with
  | Idle | PopHead => True
  | Pushing k v _ => 0 ≤ k ∧ values σ !! Z.to_nat k = Some v ∧ EvPush i k v ∈ log σ
  | PopTail ticket => 0 ≤ ticket ≤ head_counter (rep σ)
  | PopExchange ticket => 0 ≤ ticket ≤ head_counter (rep σ) ∧ ticket < tail_counter (rep σ)
  | Popping k _ => ∃ v, values σ !! Z.to_nat k = Some v ∧ 0 ≤ k < head_counter (rep σ) ∧ EvPop i k v ∈ log σ
  end.
Definition answer_ok σ (i : nat) (a : answer) : Prop :=
  match a with
  | Pushed k thrown => ∃ v, EvPush i k v ∈ log σ ∧ outcomes σ !! k = Some (if thrown then None else Some v)
  | Popped k v => EvPop i k v ∈ log σ ∧ outcomes σ !! k = Some (Some v)
  | WasEmpty => EvEmpty i ∈ log σ
  end.

Record inv σ : Prop := {
  iv_rep : rep_good item_size (λ k, outcomes σ !! k) (rep σ) (pushes σ) (pops σ);
  iv_tail : tail_counter (rep σ) = Z.of_nat (length (values σ));
  iv_head : head_counter (rep σ) ≤ tail_counter (rep σ);
  iv_outcomes k v : outcomes σ !! k = Some (Some v) → 0 ≤ k ∧ values σ !! Z.to_nat k = Some v;
  iv_log valid : fifo [] (filter (kept valid) (log σ)) (contents valid σ);
  iv_threads i t : threads σ !! i = Some t → thread_ok σ i t;
  iv_answers i a : (i, a) ∈ returned σ → answer_ok σ i a;
}.

(** *** What a step changes *)

Record grows σ σ' : Prop := {
  gr_values : values σ `prefix_of` values σ';
  gr_log : log σ `prefix_of` log σ';
  gr_outcomes : outcomes σ ⊆ outcomes σ';
  gr_head : head_counter (rep σ) ≤ head_counter (rep σ');
  gr_tail : tail_counter (rep σ) ≤ tail_counter (rep σ');
}.
Lemma thread_ok_grows σ σ' i t : grows σ σ' → thread_ok σ i t → thread_ok σ' i t.
Proof.
  intros [G1 G2 G3 G4 G5]. destruct t as [|k v pl| |tk|tk|k pl]; simpl; try done; try lia.
  - intros (? & ? & ?). split_and!; [done|by eapply prefix_lookup_Some|by eapply prefix_elem].
  - intros (v & ? & ? & ?). exists v. split_and!; [by eapply prefix_lookup_Some|lia|lia|by eapply prefix_elem].
Qed.
Lemma answer_ok_grows σ σ' i a : grows σ σ' → answer_ok σ i a → answer_ok σ' i a.
Proof.
  intros [G1 G2 G3 G4 G5]. destruct a as [k thrown|k v|]; simpl.
  - intros (v & ? & ?). exists v. split; [by eapply prefix_elem|by eapply lookup_weaken].
  - intros (? & ?). split; [by eapply prefix_elem|by eapply lookup_weaken].
  - apply prefix_elem. done.
Qed.

(** Only the place of a thread changes. *)
Lemma quiet_inv σ i t t' : inv σ → threads σ !! i = Some t → pushing_of t = None → popping_of t = None → pushing_of t' = None → popping_of t' = None →
  thread_ok σ i t' → inv (go i t' σ).
Proof.
  intros [J1 J2 J3 J4 J5 J6 J7] Ht Hp1 Hp2 Hp1' Hp2' Hok. split; try done.
  - destruct (omap_insert_perm pushing_of _ _ _ Ht) as (R & E1 & E2). destruct (omap_insert_perm popping_of _ _ _ Ht) as (R' & E1' & E2').
    simpl. rewrite Hp1 in E1. rewrite Hp2 in E1'. specialize (E2 t'). specialize (E2' t'). rewrite Hp1' in E2. rewrite Hp2' in E2'. simpl in *.
    eapply rep_good_perm; [| |exact J1]; [by rewrite E1, E2|by rewrite E1', E2'].
  - intros j x. simpl. rewrite list_lookup_insert_Some. intros [(<- & <- & _)|[_ Hx]]; [done|by apply J6].
Qed.

Lemma grows_threads σ σ' i t' : inv σ → grows σ σ' → threads σ' = <[i := t']> (threads σ) → thread_ok σ' i t' →
  ∀ j x, threads σ' !! j = Some x → thread_ok σ' j x.
Proof.
  intros Hi Hg -> Hok j x. rewrite list_lookup_insert_Some. intros [(<- & <- & _)|[_ Hx]]; [done|].
  eapply thread_ok_grows; [done|]. by apply (iv_threads _ Hi).
Qed.
Lemma grows_answers σ σ' l : inv σ → grows σ σ' → returned σ' = returned σ ++ l → (∀ i a, (i, a) ∈ l → answer_ok σ' i a) →
  ∀ i a, (i, a) ∈ returned σ' → answer_ok σ' i a.
Proof.
  intros Hi Hg -> Hl i a [Ha|Ha]%elem_of_app; [|by apply Hl]. eapply answer_ok_grows; [done|]. by apply (iv_answers _ Hi).
Qed.

(** The new contents of the queue. *)
Lemma entries_push σ σ' v : inv σ → values σ' = values σ ++ [v] → head_counter (rep σ') = head_counter (rep σ) →
  entries σ' = entries σ ++ [(tail_counter (rep σ), v)].
Proof.
  intros Hi Ev Eh. unfold entries. rewrite Ev, Eh, imap_app, drop_app_le; [simpl; f_equal; by rewrite Nat.add_0_r, (iv_tail _ Hi)|].
  rewrite length_imap. pose proof (iv_head _ Hi). pose proof (iv_tail _ Hi). lia.
Qed.
Lemma entries_pop σ σ' v : inv σ → values σ' = values σ → values σ !! Z.to_nat (head_counter (rep σ)) = Some v →
  head_counter (rep σ') = head_counter (rep σ) + 1 → entries σ = (head_counter (rep σ), v) :: entries σ'.
Proof.
  intros Hi Ev Hv Eh. unfold entries. rewrite Ev, Eh. destruct (rg_counters _ _ _ _ _ (iv_rep _ Hi)) as [Hh _].
  replace (Z.to_nat (head_counter (rep σ) + 1)) with (S (Z.to_nat (head_counter (rep σ)))) by lia.
  rewrite <- (drop_S _ (head_counter (rep σ), v)); [done|]. rewrite list_lookup_imap, Hv. simpl. do 2 f_equal. lia.
Qed.
Lemma entries_empty σ : inv σ → tail_counter (rep σ) ≤ head_counter (rep σ) → entries σ = [].
Proof.
  intros Hi Hle. unfold entries. apply drop_ge. rewrite length_imap. pose proof (iv_tail _ Hi). lia.
Qed.
Lemma push_ticket_inv σ i v : inv σ → threads σ !! i = Some Idle →
  inv (go i (Pushing (tail_counter (rep σ)) v PreparePage) (add_event (EvPush i (tail_counter (rep σ)) v)
    (add_value v (set_rep (set_counters (head_counter (rep σ)) (tail_counter (rep σ) + 1) (rep σ)) σ)))).
Proof.
  intros Hi Ht. set (σ' := go _ _ _). pose proof (iv_tail _ Hi) as Htl. pose proof (iv_head _ Hi) as Hhd.
  assert (Hg : grows σ σ') by (split; simpl; [by eexists|by eexists|done|lia|lia]). split; simpl.
  - destruct (omap_insert_perm pushing_of _ _ _ Ht) as (R & E1 & E2). destruct (omap_insert_perm popping_of _ _ _ Ht) as (R' & E1' & E2').
    eapply rep_good_perm; [| |apply (rep_take_push _ _ _ v _ _ (iv_rep _ Hi))]; [by rewrite E1, E2|by rewrite E1', E2'].
  - rewrite length_app. simpl. lia.
  - lia.
  - intros k x Hk. destruct (iv_outcomes _ Hi k x Hk) as [? ?]. split; [done|]. by apply lookup_app_l_Some.
  - intros valid. simpl. rewrite filter_app. eapply fifo_app; [apply (iv_log _ Hi)|].
    unfold contents. rewrite (entries_push σ σ' v Hi eq_refl eq_refl), filter_app, fmap_app, !filter_cons, !filter_nil.
    repeat case_decide; try done; simpl; [by repeat constructor|rewrite app_nil_r; by constructor].
  - apply (grows_threads σ σ' i (Pushing (tail_counter (rep σ)) v PreparePage)); [exact Hi|exact Hg|done|]. simpl. split_and!; [lia| |apply elem_of_app; right; by left].
    rewrite lookup_app_r by lia. rewrite Htl. by replace (Z.to_nat (Z.of_nat (length (values σ))) - length (values σ))%nat with 0%nat by lia.
  - apply (grows_answers σ σ' []); [exact Hi|exact Hg|by rewrite app_nil_r|by intros ?? ?%elem_of_nil].
Qed.

Lemma pop_ticket_inv σ i v : inv σ → threads σ !! i = Some (PopExchange (head_counter (rep σ))) → values σ !! Z.to_nat (head_counter (rep σ)) = Some v →
  inv (go i (Popping (head_counter (rep σ)) WaitHead) (add_event (EvPop i (head_counter (rep σ)) v)
    (set_rep (set_counters (head_counter (rep σ) + 1) (tail_counter (rep σ)) (rep σ)) σ))).
Proof.
  intros Hi Ht Hv. set (σ' := go _ _ _). pose proof (iv_tail _ Hi) as Htl. destruct (iv_threads _ Hi _ _ Ht) as [Hh Hlt].
  assert (Hg : grows σ σ') by (split; simpl; [done|by eexists|done|lia|lia]). split; simpl; try (done || lia).
  - destruct (omap_insert_perm pushing_of _ _ _ Ht) as (R & E1 & E2). destruct (omap_insert_perm popping_of _ _ _ Ht) as (R' & E1' & E2').
    eapply rep_good_perm; [| |apply (rep_take_pop _ _ _ _ _ (iv_rep _ Hi))]; [by rewrite E1, E2|by rewrite E1', E2'].
  - apply (iv_outcomes _ Hi).
  - intros valid. simpl. rewrite filter_app. eapply fifo_app; [apply (iv_log _ Hi)|].
    unfold contents. rewrite (entries_pop σ σ' v Hi eq_refl Hv eq_refl), !filter_cons, !filter_nil.
    repeat case_decide; try done; simpl; by repeat constructor.
  - apply (grows_threads σ σ' i (Popping (head_counter (rep σ)) WaitHead)); [exact Hi|exact Hg|done|]. simpl. exists v. split_and!; [done|lia|lia|apply elem_of_app; right; by left].
  - apply (grows_answers σ σ' []); [exact Hi|exact Hg|by rewrite app_nil_r|by intros ?? ?%elem_of_nil].
Qed.

Lemma empty_inv σ i ticket : inv σ → threads σ !! i = Some (PopTail ticket) → tail_counter (rep σ) - ticket ≤ 0 →
  inv (answer_to i WasEmpty (add_event (EvEmpty i) (go i Idle σ))).
Proof.
  intros Hi Ht Hle. pose proof (iv_threads _ Hi _ _ Ht) as Htk. simpl in Htk.
  assert (Hi' : inv (go i Idle σ)) by (by eapply quiet_inv). set (σ1 := go i Idle σ) in *. set (σ' := answer_to _ _ _).
  assert (Hg : grows σ1 σ') by (split; simpl; [done|by eexists|done|lia|lia]). split; try apply Hi'.
  - intros valid. simpl. rewrite filter_app. eapply fifo_app; [apply (iv_log _ Hi')|].
    change (contents valid σ') with (contents valid σ1). unfold contents. rewrite (entries_empty σ1 Hi') by (simpl; lia). simpl. repeat constructor.
  - intros j x Hx. eapply thread_ok_grows; [exact Hg|]. by apply (iv_threads _ Hi').
  - apply (grows_answers σ1 σ' [(i, WasEmpty)]); [exact Hi'|exact Hg|done|]. intros j a [= -> ->]%list_elem_of_singleton. simpl. apply elem_of_app. right. by left.
Qed.

Lemma note_grows σ k pl v r : (pl = CountInvalid ∨ (∃ p, pl = MarkItem p) → outcomes σ !! k = None) →
  head_counter r = head_counter (rep σ) → tail_counter r = tail_counter (rep σ) → grows σ (note k pl v (set_rep r σ)).
Proof.
  intros Hn Eh Et. split; simpl; try done; try lia. destruct pl; try done; apply insert_subseteq, Hn; eauto.
Qed.
Lemma note_outcomes σ k pl v r k' : outcomes (note k pl v (set_rep r σ)) !! k' = rep_settled (λ x, outcomes σ !! x) k v pl k'.
Proof.
  destruct pl; simpl; try done; unfold settle; (destruct (decide (k' = k)) as [->|]; [by rewrite lookup_insert_eq|by rewrite lookup_insert_ne]).
Qed.

Lemma push_call_inv σ rq o i k v pl : inv σ → threads σ !! i = Some (Pushing k v pl) → rep_allocates item_size o k pl (rep σ) →
  ∃ σ', next rq o i σ = Some σ' ∧ inv σ'.
Proof.
  intros Hi Ht Ha. destruct (omap_insert_perm pushing_of _ _ _ Ht) as (R & E1 & E2). destruct (omap_insert_perm popping_of _ _ _ Ht) as (R' & E1' & E2').
  assert (Hrep : rep_good item_size (λ k, outcomes σ !! k) (rep σ) ((k, v, pl) :: R) R') by (eapply rep_good_perm; [exact E1|exact E1'|apply Hi]).
  destruct (rep_push_good _ _ _ _ _ _ _ _ _ Hrep Ha) as (pl' & r & Er & Hr & Eh & Et & Hret). destruct (iv_threads _ Hi _ _ Ht) as (Hk & Hv & Hlog).
  assert (Hun : pl = CountInvalid ∨ (∃ p, pl = MarkItem p) → outcomes σ !! k = None) by (apply (rep_unsettled _ _ _ _ _ _ _ _ Hrep)).
  unfold next. rewrite Ht. simpl. rewrite Er. simpl. eexists. split; [done|]. set (t' := match pl' with PushReturned _ => Idle | _ => Pushing k v pl' end).
  set (l := match pl' with PushReturned thrown => [(i, Pushed k thrown)] | _ => [] end). set (σ1 := note k pl v (set_rep r σ)).
  assert (E : match pl' with PushReturned thrown => answer_to i (Pushed k thrown) (go i Idle σ1) | _ => go i (Pushing k v pl') σ1 end =
    State r (<[i := t']> (threads σ)) (values σ) (outcomes σ1) (log σ) (returned σ ++ l)) by (unfold go, answer_to, t', l; destruct pl'; simpl; by rewrite ?app_nil_r).
  rewrite E. set (σ' := State _ _ _ _ _ _). pose proof (note_grows σ k pl v r Hun Eh Et) as [G1 G2 G3 G4 G5].
  assert (Hg : grows σ σ') by (split; simpl; done || lia). assert (Hout : ∀ k', outcomes σ1 !! k' = rep_settled (λ x, outcomes σ !! x) k v pl k') by (apply note_outcomes).
  split; simpl.
  - eapply rep_good_perm; [| |eapply rep_good_ext; [exact Hout|exact Hr]].
    + rewrite E2. unfold t'. by destruct pl'.
    + rewrite E2'. unfold t'. by destruct pl'.
  - rewrite Et. apply Hi.
  - rewrite Eh, Et. apply Hi.
  - intros k' v'. rewrite Hout. destruct pl; simpl; try apply (iv_outcomes _ Hi); unfold settle; case_decide as Ek; try apply (iv_outcomes _ Hi); [|done].
    intros [= <-]. by rewrite Ek.
  - intros valid. unfold contents, entries. simpl. rewrite Eh. apply (iv_log _ Hi).
  - apply (grows_threads σ σ' i t'); [exact Hi|exact Hg|done|]. unfold t'. by destruct pl'.
  - apply (grows_answers σ σ' l); [exact Hi|exact Hg|done|]. intros j a Hin. unfold l in Hin.
    destruct pl'; try (by apply elem_of_nil in Hin). apply list_elem_of_singleton in Hin as [= -> ->]. simpl. exists v. split; [done|].
    eapply lookup_weaken; [|exact G3]. by apply Hret.
Qed.

Lemma pop_call_inv σ rq o i k pl : inv σ → threads σ !! i = Some (Popping k pl) → ∃ σ', next rq o i σ = Some σ' ∧ inv σ'.
Proof.
  intros Hi Ht. destruct (omap_insert_perm pushing_of _ _ _ Ht) as (R & E1 & E2). destruct (omap_insert_perm popping_of _ _ _ Ht) as (R' & E1' & E2').
  assert (Hrep : rep_good item_size (λ k, outcomes σ !! k) (rep σ) R ((k, pl) :: R')) by (eapply rep_good_perm; [exact E1|exact E1'|apply Hi]).
  destruct (rep_pop_good _ _ _ _ _ _ _ Hrep) as (pl' & r & Er & Hr & Eh & Et & Hret). destruct (iv_threads _ Hi _ _ Ht) as (v & Hv & Hk & Hlog).
  unfold next. rewrite Ht. simpl. rewrite Er. simpl. eexists. split; [done|].
  set (t' := match pl' with PopReturned (Some _) => Idle | PopReturned None => PopHead | _ => Popping k pl' end).
  set (l := match pl' with PopReturned (Some v) => [(i, Popped k v)] | _ => [] end).
  assert (E : match pl' with PopReturned (Some v) => answer_to i (Popped k v) (go i Idle (set_rep r σ)) | PopReturned None => go i PopHead (set_rep r σ)
    | _ => go i (Popping k pl') (set_rep r σ) end = State r (<[i := t']> (threads σ)) (values σ) (outcomes σ) (log σ) (returned σ ++ l)).
  { unfold go, answer_to, t', l. destruct pl' as [| | | | | | |[]]; simpl; by rewrite ?app_nil_r. }
  rewrite E. set (σ' := State _ _ _ _ _ _). assert (Hg : grows σ σ') by (split; simpl; done || lia). split; simpl.
  - eapply rep_good_perm; [| |exact Hr].
    + rewrite E2. unfold t'. by destruct pl' as [| | | | | | |[]].
    + rewrite E2'. unfold t'. by destruct pl' as [| | | | | | |[]].
  - rewrite Et. apply Hi.
  - rewrite Eh, Et. apply Hi.
  - apply (iv_outcomes _ Hi).
  - intros valid. unfold contents, entries. simpl. rewrite Eh. apply (iv_log _ Hi).
  - apply (grows_threads σ σ' i t'); [exact Hi|exact Hg|done|]. assert (thread_ok σ' i (Popping k pl)) by (simpl; exists v; split_and!; done || lia).
    unfold t'. by destruct pl' as [| | | | | | |[]].
  - apply (grows_answers σ σ' l); [exact Hi|exact Hg|done|]. intros j a Hin. unfold l in Hin.
    destruct pl' as [| | | | | | |[v'|]]; try (by apply elem_of_nil in Hin). apply list_elem_of_singleton in Hin as [= -> ->]. simpl.
    pose proof (Hret _ eq_refl) as Ho. destruct (iv_outcomes _ Hi _ _ Ho) as [_ Hv']. assert (v' = v) as -> by congruence. done.
Qed.

Lemma next_inv σ rq o i t : inv σ → threads σ !! i = Some t → page_available o i σ → ∃ σ', next rq o i σ = Some σ' ∧ inv σ'.
Proof.
  intros Hi Ht Ha. destruct (rg_counters _ _ _ _ _ (iv_rep _ Hi)) as [Hh0 _]. pose proof (iv_threads _ Hi _ _ Ht) as Hok.
  destruct t as [|k v pl| |tk|tk|k pl].
  - unfold next. rewrite Ht. simpl. destruct rq as [v|]; eexists; (split; [done|]); [by apply push_ticket_inv|by eapply quiet_inv].
  - eapply push_call_inv; [done|done|by eapply Ha].
  - unfold next. rewrite Ht. simpl. eexists. split; [done|]. eapply quiet_inv; try done; simpl; lia.
  - unfold next. rewrite Ht. simpl. eexists. split; [done|]. destruct (Z.leb_spec (tail_counter (rep σ) - tk) 0).
    + by eapply empty_inv.
    + eapply quiet_inv; try done; simpl in *; lia.
  - unfold next. rewrite Ht. simpl. destruct (Z.eqb_spec (head_counter (rep σ)) tk) as [<-|Hne].
    + destruct Hok as [? Hlt]. destruct (lookup_lt_is_Some_2 (values σ) (Z.to_nat (head_counter (rep σ)))) as [v Hv]; [rewrite (iv_tail _ Hi) in Hlt; lia|].
      rewrite Hv. simpl. eexists. split; [done|]. by apply pop_ticket_inv.
    + eexists. split; [done|]. eapply quiet_inv; try done; simpl; lia.
  - by eapply pop_call_inv.
Qed.

Lemma step_keeps_inv σ σ' : inv σ → allocating_step σ σ' → inv σ'.
Proof.
  intros Hi Hst. destruct Hst as [rq o i σ σ' Ha E]. pose proof E as E0. unfold next in E0. apply bind_Some in E0 as (t & Ht & _).
  destruct (next_inv σ rq o i t Hi Ht Ha) as (σ1 & E1 & Hi1). congruence.
Qed.
Lemma start_keeps_inv n : inv (start n).
Proof.
  assert (Hp : ∀ {B} (f : thread → option B), f Idle = None → omap f (replicate n Idle) = []).
  { intros B f Hf. induction n as [|n IH]; simpl; [done|]. by rewrite Hf. }
  split; simpl; try done.
  - rewrite !Hp by done. eapply rep_good_ext; [|apply empty_good]. intros k. by rewrite lookup_empty.
  - intros valid. unfold contents, entries. simpl. constructor.
  - intros i t [-> _]%lookup_replicate. done.
  - by intros i a ?%elem_of_nil.
Qed.
Lemma queue_reach_inv n σ : rtc allocating_step (start n) σ → inv σ.
Proof. intros Hs. pose proof (start_keeps_inv n) as Hi. induction Hs as [|σ σ1 σ2 Hst _ IH]; [done|]. apply IH. by eapply step_keeps_inv. Qed.

(** *** The theorems *)

(** C9: a concurrent queue is linearizable, as long as no allocation of a page
    throws (constructors of items may).  In every state so reached the log of
    the pushes that did not throw, of the pops of their items and of the pops that
    found the queue empty is an execution of a sequential FIFO queue, every
    operation that has returned is in the log with the result it returned, and a
    push that threw is not. *)
Theorem concurrent_queue_linearizable n σ : rtc allocating_step (start n) σ →
  fifo [] (filter (kept (did_not_throw σ)) (log σ)) (contents (did_not_throw σ) σ) ∧
  (∀ i k v, (i, Popped k v) ∈ returned σ → EvPop i k v ∈ filter (kept (did_not_throw σ)) (log σ)) ∧
  (∀ i, (i, WasEmpty) ∈ returned σ → EvEmpty i ∈ filter (kept (did_not_throw σ)) (log σ)) ∧
  (∀ i k thrown, (i, Pushed k thrown) ∈ returned σ → ∃ v, EvPush i k v ∈ log σ ∧
    if thrown then EvPush i k v ∉ filter (kept (did_not_throw σ)) (log σ) else EvPush i k v ∈ filter (kept (did_not_throw σ)) (log σ)).
Proof.
  intros Hs. pose proof (queue_reach_inv n σ Hs) as Hi. split_and!; [apply (iv_log _ Hi)|..].
  - intros i k v Ha. destruct (iv_answers _ Hi _ _ Ha) as [Hl Ho]. apply list_elem_of_filter. split; [|done]. unfold kept, did_not_throw. simpl. by rewrite Ho.
  - intros i Ha. pose proof (iv_answers _ Hi _ _ Ha). by apply list_elem_of_filter.
  - intros i k thrown Ha. destruct (iv_answers _ Hi _ _ Ha) as (v & Hl & Ho). exists v. split; [done|].
    destruct thrown; rewrite list_elem_of_filter; unfold kept, did_not_throw; simpl; rewrite Ho; [by intros []|done].
Qed.

(** C29: as long as no allocation of a page throws (constructors of items may),
    each thread can make its next step in every state reached, provided that an
    allocation in that step does not throw either: no page is used that is null,
    invalid or freed, no item is taken that is not there.  If an operation is in
    progress, then some thread does more than wait. *)
Theorem concurrent_queue_progress n σ : rtc allocating_step (start n) σ →
  (∀ i t rq o, threads σ !! i = Some t → page_available o i σ → ∃ σ', next rq o i σ = Some σ') ∧
  ((∃ i t, threads σ !! i = Some t ∧ t ≠ Idle) →
   ∃ i t, threads σ !! i = Some t ∧ t ≠ Idle ∧ ∀ rq o σ', next rq o i σ = Some σ' → threads σ' !! i ≠ Some t).
Proof.
  intros Hs. pose proof (queue_reach_inv n σ Hs) as Hi. split.
  { intros i t rq o Ht Ha. destruct (next_inv σ rq o i t Hi Ht Ha) as (σ' & E & _). eauto. }
  intros (i0 & t0 & Ht0 & Hne0). destruct (pushes σ) as [|x P] eqn:EP.
  - destruct (pops σ) as [|y Q] eqn:EQ.
    + exists i0, t0. split_and!; [done..|]. intros rq o σ' E. unfold next in E. rewrite Ht0 in E. simpl in E.
      assert (Hlt : (i0 < length (threads σ))%nat) by (by eapply lookup_lt_Some).
      destruct t0 as [|k v pl| |tk|tk|k pl]; try done.
      * assert (Hin : (k, v, pl) ∈ pushes σ) by (apply list_elem_of_omap; eexists; split; [by eapply list_elem_of_lookup_2|done]). rewrite EP in Hin. by apply elem_of_nil in Hin.
      * injection E as <-. simpl. by rewrite list_lookup_insert_eq.
      * injection E as <-. case_match; simpl; by rewrite list_lookup_insert_eq.
      * case_match; [apply bind_Some in E as (? & _ & E)|]; injection E as <-; simpl; by rewrite list_lookup_insert_eq.
      * assert (Hin : (k, pl) ∈ pops σ) by (apply list_elem_of_omap; eexists; split; [by eapply list_elem_of_lookup_2|done]). rewrite EQ in Hin. by apply elem_of_nil in Hin.
    + pose proof (iv_rep _ Hi) as Hr. rewrite EP in Hr. destruct (rep_pop_moves _ _ _ _ _ y Hr) as (k & pl & Hin & _ & [(? & ? & []%elem_of_nil)|Hmv]); [rewrite EQ; by left| |].
      { assert (Hy : y ∈ pops σ) by (rewrite EQ; by left). destruct y as [k pl]. apply list_elem_of_omap in Hy as ([| | | | |k' pl'] & Hx & [= -> ->]). apply list_elem_of_lookup in Hx as [j Hj].
        destruct (iv_threads _ Hi _ _ Hj) as (v & _ & ? & _). pose proof (iv_head _ Hi). simpl. lia. }
      apply list_elem_of_omap in Hin as ([| | | | |k' pl'] & Hx & [= -> ->]). apply list_elem_of_lookup in Hx as [j Hj]. exists j, (Popping k pl). split_and!; [done..|].
      intros rq o σ' E. unfold next in E. rewrite Hj in E. simpl in E. apply bind_Some in E as ([pl' r] & E & [= <-]). specialize (Hmv _ _ E).
      assert (Hlt : (j < length (threads σ))%nat) by (by eapply lookup_lt_Some).
      destruct pl' as [| | | | | | |[]]; simpl; rewrite list_lookup_insert_eq by done; congruence.
  - destruct (rep_push_moves _ _ _ _ _ x (iv_rep _ Hi)) as (k & v & pl & Hin & _ & Hmv); [rewrite EP; by left|].
    apply list_elem_of_omap in Hin as ([|k' v' pl'| | | |] & Hx & [= -> -> ->]). apply list_elem_of_lookup in Hx as [j Hj]. exists j, (Pushing k v pl). split_and!; [done..|].
    intros rq o σ' E. unfold next in E. rewrite Hj in E. simpl in E. apply bind_Some in E as ([pl' r] & E & [= <-]). specialize (Hmv _ _ _ E).
    assert (Hlt : (j < length (threads σ))%nat) by (by eapply lookup_lt_Some).
    destruct pl'; simpl; rewrite list_lookup_insert_eq by done; congruence.
Qed.
End queue.
End ConcurrentQueue.

(** ** Examples *)
Module QueueExamples.
Import MicroQueue MicroInv QueueRep ConcurrentQueue.

Section run.
Context {V : Type} (item_size : Z).
Implicit Types (σ : state (V := V)).

(** A run: the threads that go on, with their requests and what the allocator and
    the constructors do. *)
Fixpoint run (sched : list (request (V := V) * outcome * nat)) σ : option state :=
  match sched with
  | [] => Some σ
  | (rq, o, i) :: sched => σ ← next item_size rq o i σ; run sched σ
  end.
(** No allocation of a page throws in it. *)
Fixpoint allocations_ok (sched : list (request (V := V) * outcome * nat)) σ : bool :=
  match sched with
  | [] => true
  | (rq, o, i) :: sched =>
      match threads σ !! i with Some (Pushing _ _ PreparePage) => negb (throws o) | _ => true end &&
      match next item_size rq o i σ with Some σ => allocations_ok sched σ | None => false end
  end.

Lemma next_available rq o i σ σ' : next item_size rq o i σ = Some σ' →
  match threads σ !! i with Some (Pushing _ _ PreparePage) => negb (throws o) | _ => true end = true → page_available item_size o i σ.
Proof.
  intros E Ho k v pl Ht q Hq -> Hn. rewrite Ht in Ho. apply negb_true_iff in Ho. split; [done|]. unfold next in E. rewrite Ht in E. simpl in E.
  apply bind_Some in E as ([pl' r] & E & _). unfold rep_push_step in E. rewrite Hq in E. simpl in E. rewrite item_index_eq, Hn, Ho in E. simpl in E.
  case_decide; done.
Qed.
Lemma run_reach sched σ σ' : run sched σ = Some σ' → allocations_ok sched σ = true → rtc (allocating_step item_size) σ σ'.
Proof.
  revert σ. induction sched as [|[[rq o] i] sched IH]; intros σ E Ha; [injection E as <-; constructor|].
  simpl in *. apply bind_Some in E as (σ1 & E1 & E). rewrite E1 in Ha. apply andb_true_iff in Ha as [Ha1 Ha]. econstructor; [|by apply IH].
  econstructor; [by eapply next_available|done].
Qed.
End run.

(** Two items in a page.  Thread 0 takes the ticket of its push; then thread 1
    pushes, in another micro queue, and thread 2 pops: it takes the first ticket
    and waits for thread 0. *)
Definition ok : outcome := Outcome false 0.
Definition thrown : outcome := Outcome true 0.
Definition push_by (i : nat) (v : Z) (o : outcome) : list (request (V := Z) * outcome * nat) :=
  (DoPush v, ok, i) :: replicate 3 (DoTryPop, ok, i) ++ replicate 3 (DoTryPop, o, i).
Definition pop_by (i : nat) (steps : nat) : list (request (V := Z) * outcome * nat) := replicate steps (DoTryPop, ok, i).
Definition overlapping : list (request (V := Z) * outcome * nat) :=
  [(DoPush 10, ok, 0%nat)] ++ push_by 1 20 ok ++ pop_by 2 6 ++ pop_by 0 6 ++ pop_by 2 5 ++ push_by 1 30 thrown ++ pop_by 0 9 ++ pop_by 2 12.
Definition state_of (sched : list (request (V := Z) * outcome * nat)) : state := default (start 0) (run 100 sched (start 3)).

Lemma concurrent_queue_linearizable_witness :
  returned (state_of overlapping) = [(1%nat, Pushed 1 false); (0%nat, Pushed 0 false); (2%nat, Popped 0 10); (1%nat, Pushed 2 true); (0%nat, Popped 1 20); (2%nat, WasEmpty)] ∧
  fifo [] (filter (kept (did_not_throw (state_of overlapping))) (log (state_of overlapping))) [].
Proof.
  split; [vm_compute; reflexivity|].
  exact (proj1 (concurrent_queue_linearizable 100 3 (state_of overlapping)
    (run_reach 100 overlapping (start 3) (state_of overlapping) ltac:(vm_compute; reflexivity) ltac:(vm_compute; reflexivity)))).
Defined.
(** At the point where thread 2 waits for the push of thread 0 *)
Lemma concurrent_queue_progress_witness :
  ∃ i t, threads (state_of (take 14 overlapping)) !! i = Some t ∧ t ≠ Idle ∧
    ∀ rq o σ', next 100 rq o i (state_of (take 14 overlapping)) = Some σ' → threads σ' !! i ≠ Some t.
Proof.
  apply (concurrent_queue_progress 100 3 (state_of (take 14 overlapping))
    (run_reach 100 (take 14 overlapping) (start 3) (state_of (take 14 overlapping)) ltac:(vm_compute; reflexivity) ltac:(vm_compute; reflexivity))).
  exists 2%nat, (Popping 0 WaitTail). split; [vm_compute; reflexivity|done].
Defined.

(** Thread 0 pushes, and the allocation of the page throws; then it pushes again,
    in the next micro queue, and pops. *)
Definition bad_alloc : list (request (V := Z) * outcome * nat) :=
  [(DoPush 10, ok, 0%nat); (DoTryPop, thrown, 0%nat); (DoTryPop, ok, 0%nat)] ++ push_by 0 20 ok ++ pop_by 0 7.

(** C40: after a push has failed to allocate a page, a pop dereferences the invalid
    page, the address one: [pop] does not test the page with [is_valid_page]. *)
Theorem pop_reads_invalid_page :
  ∃ σ, run 100 bad_alloc (start 1) = Some σ ∧ returned σ = [(0%nat, Pushed 0 true); (0%nat, Pushed 1 false)] ∧
    threads σ = [Popping 0 (TakeItem InvalidPage)] ∧ ∀ rq o, next 100 rq o 0 σ = None.
Proof. eexists. split; [vm_compute; reflexivity|]. split_and!; try (vm_compute; reflexivity). Qed.
End QueueExamples.
