(* ===== verification/BoundedQueue.v ===== *)
(** * concurrent_bounded_queue

    A queue with the representation of [ConcurrentQueue] in which a push waits
    while the queue is full and a pop while it is empty; [abort] makes the waiting
    operations throw.  Source: include/oneapi/tbb/concurrent_queue.h
    ([concurrent_bounded_queue], [internal_try_pop_impl]) and
    src/tbb/concurrent_bounded_queue.cpp.

    The threads wait in two monitors.  A wait is one step: the condition is tested
    and, if it does not hold, the thread is asleep; that no notification in between
    is lost is the theorem of [Monitor].  A thread that is notified does not test
    the condition again.  The capacity does not change while the operations run. *)

From S2P Require Import Prelude MicroQueue ConcurrentQueue.
From stdpp Require Import base numbers relations gmap list.
From Stdlib Require Import ZArith Lia.
Local Open Scope Z_scope.

Module BoundedQueue.
Import MicroQueue MicroInv QueueRep.

Section bounded.
Context {V : Type} (item_size capacity : Z).

(** [internal_push]: before the load of [my_abort_counter], before the ticket,
    before the test of [head_counter], before the wait (with the old abort
    counter), asleep in the monitor, before the assertion that there is a slot, in
    [push] or [abort_push], before the notification.  [internal_push_if_not_full],
    [internal_pop] and [internal_pop_if_present] likewise; [PopBack] is before
    [head_counter--]. *)
Inductive thread :=
  | Idle
  | PushStart (v : V)
  | PushTicket (v : V) (aborts : Z)
  | PushCheck (k : Z) (v : V) (aborts : Z)
  | PushWait (k : Z) (v : V) (aborts : Z)
  | PushAsleep (k : Z) (v : V)
  | PushAssert (k : Z) (v : V)
  | Pushing (k : Z) (v : V) (pl : push_place) (aborted : bool)
  | PushNotify (k : Z)
  | TryPushTail (v : V)
  | TryPushCheck (k : Z) (v : V)
  | TryPushExchange (k : Z) (v : V)
  | PopStart
  | PopTicket (aborts : Z)
  | PopCheck (k : Z) (aborts : Z)
  | PopWait (k : Z) (aborts : Z)
  | PopAsleep (k : Z) (aborts : Z)
  | PopAssert (k : Z) (aborts : Z)
  | PopBack
  | Popping (k : Z) (pl : pop_place (V := V)) (retry : option Z)
  | PopNotify (k : Z) (v : V)
  | TryPopHead
  | TryPopTail (k : Z)
  | TryPopExchange (k : Z)
  | AbortItems
  | AbortSlots.

Inductive answer :=
  | Pushed (k : Z)
  | PushThrew (k : Z)
  | NotPushed
  | Popped (k : Z) (v : V)
  | PopThrew
  | NotPopped
  | Aborted.

(** For the theorems: [values] has the objects of the pushes by ticket, and
    [returned] the operations that have returned. *)
Record state := State {
  rep : queue_rep V;
  my_abort_counter : Z;
  threads : list thread;
  values : list V;
  returned : list (nat * answer);
}.
Implicit Types (σ : state) (t : thread) (k : Z) (v : V).

Definition set_rep r σ : state := State r (my_abort_counter σ) (threads σ) (values σ) (returned σ).
Definition set_threads ts σ : state := State (rep σ) (my_abort_counter σ) ts (values σ) (returned σ).
Definition go (i : nat) t σ : state := set_threads (<[i := t]> (threads σ)) σ.
Definition answer_to (i : nat) a σ : state := State (rep σ) (my_abort_counter σ) (<[i := Idle]> (threads σ)) (values σ) (returned σ ++ [(i, a)]).
Definition add_abort σ : state := State (rep σ) (my_abort_counter σ + 1) (threads σ) (values σ) (returned σ).
Definition add_value v σ : state := State (rep σ) (my_abort_counter σ) (threads σ) (values σ ++ [v]) (returned σ).
Definition head σ : Z := head_counter (rep σ).
Definition tail σ : Z := tail_counter (rep σ).
Definition set_head x σ : state := set_rep (set_counters x (tail σ) (rep σ)) σ.
Definition set_tail x σ : state := set_rep (set_counters (head σ) x (rep σ)) σ.

Inductive request := DoPush (v : V) | DoTryPush (v : V) | DoPop | DoTryPop | DoAbort.

(** The condition of a push, [head > ticket - my_capacity]. *)
Definition target k : Z := k - capacity.

(** [notify_bounded_queue_monitor]: the threads that wait for a ticket up to [k]. *)
Definition wake_slots k t : thread :=
  match t with PushAsleep k' v => if target k' <=? k then PushAssert k' v else t | _ => t end.
Definition wake_items k t : thread :=
  match t with PopAsleep k' aborts => if k' <=? k then PopAssert k' aborts else t | _ => t end.
(** [abort_bounded_queue_monitors]: the waits throw, and the handlers run. *)
Definition abort_slots t : thread := match t with PushAsleep k v => Pushing k v PreparePage true | _ => t end.
Definition abort_items t : thread := match t with PopAsleep _ _ => PopBack | _ => t end.

(** One operation of thread [i]; a construction in [abort_push] is that of an
    invalid entry. *)
Definition next (rq : request) (o : outcome) (i : nat) σ : option state :=
  t ← threads σ !! i;
  match t with
  | Idle =>
      match rq with
      | DoPush v => Some (go i (PushStart v) σ)
      | DoTryPush v => Some (go i (TryPushTail v) σ)
      | DoPop => Some (go i PopStart σ)
      | DoTryPop => Some (go i TryPopHead σ)
      | DoAbort => Some (go i AbortItems (add_abort σ))
      end
  | PushStart v => Some (go i (PushTicket v (my_abort_counter σ)) σ)
  | PushTicket v aborts => Some (go i (PushCheck (tail σ) v aborts) (add_value v (set_tail (tail σ + 1) σ)))
  | PushCheck k v aborts => Some (go i (if head σ <=? target k then PushWait k v aborts else PushAssert k v) σ)
  | PushWait k v aborts =>
      Some (go i (if negb (my_abort_counter σ =? aborts) then Pushing k v PreparePage true
                  else if head σ <=? target k then PushAsleep k v else PushAssert k v) σ)
  | PushAsleep _ _ => Some σ
  | PushAssert k v => if head σ <=? target k then None else Some (go i (Pushing k v PreparePage false) σ)
  | Pushing k v pl aborted =>
      let o := match pl with Construct _ => Outcome (throws o || aborted) (address o) | _ => o end in
      '(pl', r) ← rep_push_step item_size o k v pl (rep σ);
      let σ := set_rep r σ in
      Some (match pl' with
            | PushReturned thrown => if thrown then answer_to i (PushThrew k) σ else go i (PushNotify k) σ
            | _ => go i (Pushing k v pl' aborted) σ
            end)
  | PushNotify k => Some (answer_to i (Pushed k) (set_threads (wake_items k <$> threads σ) σ))
  | TryPushTail v => Some (go i (TryPushCheck (tail σ) v) σ)
  | TryPushCheck k v => Some (if capacity <=? k - head σ then answer_to i NotPushed σ else go i (TryPushExchange k v) σ)
  | TryPushExchange k v =>
      Some (if tail σ =? k then go i (Pushing k v PreparePage false) (add_value v (set_tail (k + 1) σ)) else go i (TryPushCheck (tail σ) v) σ)
  | PopStart => Some (go i (PopTicket (my_abort_counter σ)) σ)
  | PopTicket aborts => Some (go i (PopCheck (head σ) aborts) (set_head (head σ + 1) σ))
  | PopCheck k aborts => Some (go i (if tail σ <=? k then PopWait k aborts else PopAssert k aborts) σ)
  | PopWait k aborts =>
      Some (go i (if negb (my_abort_counter σ =? aborts) then PopBack
                  else if tail σ <=? k then PopAsleep k aborts else PopAssert k aborts) σ)
  | PopAsleep _ _ => Some σ
  | PopAssert k aborts => if tail σ <=? k then None else Some (go i (Popping k WaitHead (Some aborts)) σ)
  | PopBack => Some (answer_to i PopThrew (set_head (head σ - 1) σ))
  | Popping k pl retry =>
      '(pl', r) ← rep_pop_step item_size k pl (rep σ);
      let σ := set_rep r σ in
      Some (go i (match pl' with
                  | PopReturned (Some v) => PopNotify k v
                  | PopReturned None => match retry with Some aborts => PopTicket aborts | None => TryPopHead end
                  | _ => Popping k pl' retry
                  end) σ)
  | PopNotify k v => Some (answer_to i (Popped k v) (set_threads (wake_slots k <$> threads σ) σ))
  | TryPopHead => Some (go i (TryPopTail (head σ)) σ)
  | TryPopTail k => Some (if tail σ - k <=? 0 then answer_to i NotPopped σ else go i (TryPopExchange k) σ)
  | TryPopExchange k =>
      Some (if head σ =? k then go i (Popping k WaitHead None) (set_head (k + 1) σ) else go i (TryPopTail (head σ)) σ)
  | AbortItems => Some (go i AbortSlots (set_threads (abort_items <$> threads σ) σ))
  | AbortSlots => Some (answer_to i Aborted (set_threads (abort_slots <$> threads σ) σ))
  end.

Definition start (n : nat) : state := State empty_rep 0 (replicate n Idle) [] [].

(** *** Executions without exceptions *)

(** No operation is aborted, and no allocation and no construction throws. *)
Definition no_exception (rq : request) (o : outcome) (i : nat) σ : Prop :=
  rq ≠ DoAbort ∧ throws o = false ∧ ∀ k v pl aborted, threads σ !! i = Some (Pushing k v pl aborted) → rep_allocates item_size o k pl (rep σ).
Inductive step : state → state → Prop :=
  | step_thread rq o i σ σ' : no_exception rq o i σ → next rq o i σ = Some σ' → step σ σ'.

(** The calls in the micro queues; an operation that has a ticket and has not
    called yet counts as one at the start of its call. *)
Definition push_call t : option (Z * V * push_place) :=
  match t with
  | PushCheck k v _ | PushWait k v _ | PushAsleep k v | PushAssert k v => Some (k, v, PreparePage)
  | Pushing k v pl _ => Some (k, v, pl)
  | _ => None
  end.
Definition pop_call t : option (Z * pop_place) :=
  match t with
  | PopCheck k _ | PopWait k _ | PopAsleep k _ | PopAssert k _ => Some (k, WaitHead)
  | Popping k pl _ => Some (k, pl)
  | _ => None
  end.
(** The tickets of operations that may still have to notify. *)
Definition push_ticket t : option Z := match t with PushNotify k => Some k | _ => (λ x, x.1.1) <$> push_call t end.
Definition pop_ticket t : option Z := match t with PopNotify k _ => Some k | _ => fst <$> pop_call t end.
Local Abbreviation pushes σ := (omap push_call (threads σ)).
Local Abbreviation pops σ := (omap pop_call (threads σ)).

Definition thread_ok σ t : Prop :=
  match t with
  | PushTicket _ aborts | PopTicket aborts => aborts = 0
  | PushCheck k v aborts | PushWait k v aborts => values σ !! Z.to_nat k = Some v ∧ 0 ≤ k ∧ aborts = 0
  | PushAsleep k v => values σ !! Z.to_nat k = Some v ∧ 0 ≤ k ∧ 0 ≤ target k
  | PushAssert k v => values σ !! Z.to_nat k = Some v ∧ 0 ≤ k ∧ target k < head σ
  | Pushing k v pl aborted => values σ !! Z.to_nat k = Some v ∧ 0 ≤ k ∧ target k < head σ ∧ aborted = false ∧ pl ≠ CountInvalid ∧ pl ≠ ReleaseTurn true
  | PushNotify k => target k < head σ ∧ 0 ≤ k < tail σ
  | TryPushExchange k _ => target k < head σ
  | PopCheck k aborts | PopWait k aborts | PopAsleep k aborts => 0 ≤ k < head σ ∧ aborts = 0
  | PopAssert k aborts => 0 ≤ k < head σ ∧ aborts = 0 ∧ k < tail σ
  | Popping k _ retry => 0 ≤ k < head σ ∧ k < tail σ ∧ retry ∈ [None; Some 0]
  | PopNotify k v => 0 ≤ k < head σ ∧ k < tail σ ∧ values σ !! Z.to_nat k = Some v
  | TryPopTail k => 0 ≤ k ≤ head σ
  | TryPopExchange k => 0 ≤ k ≤ head σ ∧ k < tail σ
  | PopBack | AbortItems | AbortSlots => False
  | _ => True
  end.
(** Somebody will notify a thread that sleeps without need. *)
Definition owed σ t : Prop :=
  match t with
  | PushAsleep k _ => target k < head σ → ∃ t', t' ∈ threads σ ∧ pop_ticket t' = Some (target k)
  | PopAsleep k _ => k < tail σ → ∃ t', t' ∈ threads σ ∧ push_ticket t' = Some k
  | _ => True
  end.
Definition answer_ok σ (a : answer) : Prop :=
  match a with
  | Pushed k => target k < head σ
  | Popped k v => values σ !! Z.to_nat k = Some v
  | PushThrew _ | PopThrew | Aborted => False
  | _ => True
  end.

Definition popped_ticket (x : nat * answer) : option Z := match x.2 with Popped k _ => Some k | _ => None end.
Definition pushed_ticket (x : nat * answer) : option Z := match x.2 with Pushed k => Some k | _ => None end.
(** The tickets that were given out are those of the operations in progress and
    of those that have returned. *)
Definition pop_tickets σ : list Z := omap pop_ticket (threads σ) ++ omap popped_ticket (returned σ).
Definition push_tickets σ : list Z := omap push_ticket (threads σ) ++ omap pushed_ticket (returned σ).

Record inv σ : Prop := {
  iv_rep : ∃ c, rep_good item_size c (rep σ) (pushes σ) (pops σ) ∧
    ∀ k o, c k = Some o → ∃ v, o = Some v ∧ 0 ≤ k ∧ values σ !! Z.to_nat k = Some v;
  iv_values : tail σ = Z.of_nat (length (values σ));
  iv_aborts : my_abort_counter σ = 0;
  iv_threads t : t ∈ threads σ → thread_ok σ t;
  iv_owed t : t ∈ threads σ → owed σ t;
  iv_answers i a : (i, a) ∈ returned σ → answer_ok σ a;
  iv_popped : pop_tickets σ ≡ₚ seqZ 0 (head σ);
  iv_pushed : push_tickets σ ≡ₚ seqZ 0 (tail σ);
}.

(** *** What a step changes *)
Record grows σ σ' : Prop := {
  gr_values : values σ `prefix_of` values σ';
  gr_head : head σ ≤ head σ';
  gr_tail : tail σ ≤ tail σ';
}.
Lemma bounded_thread_ok_grows σ σ' t : grows σ σ' → thread_ok σ t → thread_ok σ' t.
Proof.
  intros [G1 G2 G3]. destruct t; simpl; try done; try lia; intros; destruct_and?; split_and?; done || lia || by eapply prefix_lookup_Some.
Qed.
Lemma bounded_answer_ok_grows σ σ' a : grows σ σ' → answer_ok σ a → answer_ok σ' a.
Proof. intros [G1 G2 G3]. destruct a; simpl; try done; [lia|]. intros. by eapply prefix_lookup_Some. Qed.

(** One thread takes a step, with the state of the queue. *)
Section change.
Context σ σ' (i : nat) t t' (l : list (nat * answer)) (Hi : inv σ) (Ht : threads σ !! i = Some t).
Context (Eth : threads σ' = <[i := t']> (threads σ)) (Eab : my_abort_counter σ' = 0) (Ert : returned σ' = returned σ ++ l).
Context (Hg : grows σ σ') (Evl : tail σ' = Z.of_nat (length (values σ'))).
Context (Hrep : ∀ c P Q, rep_good item_size c (rep σ) (option_list (push_call t) ++ P) (option_list (pop_call t) ++ Q) →
  (∀ k o, c k = Some o → ∃ v, o = Some v ∧ 0 ≤ k ∧ values σ !! Z.to_nat k = Some v) →
  ∃ c', rep_good item_size c' (rep σ') (option_list (push_call t') ++ P) (option_list (pop_call t') ++ Q) ∧
    ∀ k o, c' k = Some o → ∃ v, o = Some v ∧ 0 ≤ k ∧ values σ' !! Z.to_nat k = Some v).
Context (Hok : thread_ok σ' t') (How : owed σ' t') (Hans : ∀ j a, (j, a) ∈ l → answer_ok σ' a).
Context (Hhead : head σ' = head σ ∨ head σ' = head σ + 1 ∧ pop_ticket t' = Some (head σ)).
Context (Htail : tail σ' = tail σ ∨ tail σ' = tail σ + 1 ∧ push_ticket t' = Some (tail σ)).
Context (Hpush : ∀ k, push_ticket t = Some k → push_ticket t' = Some k ∨ ∀ a, PopAsleep k a ∉ threads σ).
Context (Hpop : ∀ k, pop_ticket t = Some k → pop_ticket t' = Some k ∨ ∀ k' v, target k' = k → PushAsleep k' v ∉ threads σ).
Context (Hptk : ∀ R, option_list (pop_ticket t) ++ R ≡ₚ seqZ 0 (head σ) → option_list (pop_ticket t') ++ omap popped_ticket l ++ R ≡ₚ seqZ 0 (head σ')).
Context (Hstk : ∀ R, option_list (push_ticket t) ++ R ≡ₚ seqZ 0 (tail σ) → option_list (push_ticket t') ++ omap pushed_ticket l ++ R ≡ₚ seqZ 0 (tail σ')).

Lemma change_in x : x ∈ threads σ' → x = t' ∨ x ∈ threads σ.
Proof. rewrite Eth. apply elem_of_insert_inv. Qed.
Lemma change_keeps x : x ∈ threads σ → x = t ∨ x ∈ threads σ'.
Proof. rewrite Eth. by apply elem_of_insert_old. Qed.
Lemma change_new : t' ∈ threads σ'.
Proof. rewrite Eth. eauto with threads. Qed.

Lemma change_owed x : x ∈ threads σ → x ∈ threads σ' → owed σ' x.
Proof.
  intros Hx Hx'. pose proof (iv_owed _ Hi x Hx) as Ho. destruct x; try done; simpl in *.
  - intros Hlt. destruct (decide (target k < head σ)) as [Hold|Hnew].
    + destruct (Ho Hold) as (y & Hy & Hty). destruct (change_keeps y Hy) as [-> | ?]; [|eauto].
      destruct (Hpop _ Hty) as [?|Hno]; [exists t'; split; [apply change_new|done]|]. by destruct (Hno k v eq_refl).
    + destruct Hhead as [?|[? Hpt]]; [lia|]. exists t'. split; [apply change_new|]. rewrite Hpt. f_equal. lia.
  - intros Hlt. destruct (decide (k < tail σ)) as [Hold|Hnew].
    + destruct (Ho Hold) as (y & Hy & Hty). destruct (change_keeps y Hy) as [-> | ?]; [|eauto].
      destruct (Hpush _ Hty) as [?|Hno]; [exists t'; split; [apply change_new|done]|]. by destruct (Hno aborts).
    + destruct Htail as [?|[? Hpt]]; [lia|]. exists t'. split; [apply change_new|]. rewrite Hpt. f_equal. lia.
Qed.

Lemma change_inv : inv σ'.
Proof.
  split; try done.
  - destruct (iv_rep _ Hi) as (c & Hr & Hc). destruct (omap_insert_perm push_call _ _ _ Ht) as (P & E1 & E2).
    destruct (omap_insert_perm pop_call _ _ _ Ht) as (Q & E1' & E2'). eapply rep_good_perm in Hr; [|exact E1|exact E1'].
    destruct (Hrep c P Q Hr Hc) as (c' & Hr' & Hc'). exists c'. split; [|done]. rewrite Eth. eapply rep_good_perm; [..|exact Hr']; by rewrite ?E2, ?E2'.
  - intros x Hx. destruct (change_in x Hx) as [-> | Hx']; [done|]. eapply bounded_thread_ok_grows; [done|]. by apply (iv_threads _ Hi).
  - intros x Hx. destruct (change_in x Hx) as [-> | Hx']; [done|]. by apply change_owed.
  - intros j a. rewrite Ert. intros [Ha|Ha]%elem_of_app; [|by eapply Hans]. eapply bounded_answer_ok_grows; [done|]. by eapply (iv_answers _ Hi).
  - destruct (omap_insert_perm pop_ticket _ _ _ Ht) as (R & E1 & E2). pose proof (iv_popped _ Hi) as Hp. unfold pop_tickets in *.
    rewrite Eth, Ert, E2, omap_app. rewrite E1, <- app_assoc in Hp. rewrite <- (Hptk _ Hp). solve_Permutation.
  - destruct (omap_insert_perm push_ticket _ _ _ Ht) as (R & E1 & E2). pose proof (iv_pushed _ Hi) as Hp. unfold push_tickets in *.
    rewrite Eth, Ert, E2, omap_app. rewrite E1, <- app_assoc in Hp. rewrite <- (Hstk _ Hp). solve_Permutation.
Qed.
End change.

Lemma bounded_quiet_inv σ i t t' : inv σ → threads σ !! i = Some t → push_call t' = push_call t → pop_call t' = pop_call t →
  push_ticket t' = push_ticket t → pop_ticket t' = pop_ticket t → thread_ok σ t' → owed σ t' → inv (go i t' σ).
Proof.
  intros Hi Ht E1 E2 E3 E4 Hok How. eapply (change_inv σ (go i t' σ) i t t' [] Hi Ht); try done.
  - apply Hi.
  - by rewrite app_nil_r.
  - apply Hi.
  - intros c P Q Hr Hc. exists c. by rewrite E1, E2.
  - destruct t'; try done; simpl in *; intros Hlt; destruct (How Hlt) as (y & Hy & Hty).
    + destruct (change_keeps σ (go i (PushAsleep k v) σ) i t (PushAsleep k v) Ht eq_refl y Hy) as [-> | ?]; [congruence|eauto].
    + destruct (change_keeps σ (go i (PopAsleep k aborts) σ) i t (PopAsleep k aborts) Ht eq_refl y Hy) as [-> | ?]; [congruence|eauto].
  - by intros ?? ?%elem_of_nil.
  - by left.
  - by left.
  - intros k. rewrite E3. by left.
  - intros k. rewrite E4. by left.
  - intros R. by rewrite E4.
  - intros R. by rewrite E3.
Qed.
Lemma answer_inv σ i t a : inv σ → threads σ !! i = Some t → push_call t = None → pop_call t = None → answer_ok σ a →
  popped_ticket (i, a) = pop_ticket t → pushed_ticket (i, a) = push_ticket t →
  (∀ k, push_ticket t = Some k → ∀ a, PopAsleep k a ∉ threads σ) → (∀ k, pop_ticket t = Some k → ∀ k' v, target k' = k → PushAsleep k' v ∉ threads σ) →
  inv (answer_to i a σ).
Proof.
  intros Hi Ht E1 E2 Ha Ep Es H1 H2. eapply (change_inv σ (answer_to i a σ) i t Idle [(i, a)] Hi Ht); try done.
  - apply Hi.
  - apply Hi.
  - intros c P Q Hr Hc. exists c. by rewrite E1, E2 in Hr.
  - intros j a' [= -> ->]%list_elem_of_singleton. done.
  - by left.
  - by left.
  - intros k Hk. right. by apply H1.
  - intros k Hk. right. intros k' v Ek. by apply (H2 k Hk).
  - intros R. rewrite <- Ep. by destruct a.
  - intros R. rewrite <- Es. by destruct a.
Qed.

(** Tickets *)
Local Ltac counters := repeat progress (unfold head, tail in *; simpl in * ); lia.
Lemma counters_nonneg σ : inv σ → 0 ≤ head σ ∧ 0 ≤ tail σ.
Proof. intros Hi. destruct (iv_rep _ Hi) as (c & Hr & _). apply (rg_counters _ _ _ _ _ Hr). Qed.
Lemma take_push_inv σ i t t' v : inv σ → threads σ !! i = Some t → push_call t = None → pop_call t = None → push_ticket t = None → pop_ticket t = None →
  push_call t' = Some (tail σ, v, PreparePage) → pop_call t' = None → push_ticket t' = Some (tail σ) → pop_ticket t' = None →
  (thread_ok (add_value v (set_tail (tail σ + 1) σ)) t') → (∀ σ, owed σ t') →
  inv (go i t' (add_value v (set_tail (tail σ + 1) σ))).
Proof.
  intros Hi Ht E1 E2 E3 E4 E1' E2' E3' E4' Hok How. pose proof (iv_values _ Hi) as Hv.
  assert (Hg : grows σ (go i t' (add_value v (set_tail (tail σ + 1) σ)))) by (split; [by eexists|counters..]).
  eapply (change_inv σ _ i t t' [] Hi Ht); try done.
  - apply Hi.
  - simpl. by rewrite app_nil_r.
  - simpl. rewrite length_app. counters.
  - intros c P Q Hr Hc. rewrite E1, E2 in Hr. rewrite E1', E2'. exists c. split; [by apply rep_take_push|].
    intros k o Hk. destruct (Hc k o Hk) as (v' & ? & ? & ?). exists v'. split_and!; [done..|]. simpl. by apply lookup_app_l_Some.
  - by intros ?? ?%elem_of_nil.
  - by left.
  - right. done.
  - intros k. by rewrite E3.
  - intros k. by rewrite E4.
  - intros R. by rewrite E4, E4'.
  - intros R. rewrite E3, E3'. simpl. intros HR. rewrite HR. unfold tail at 3. simpl. rewrite seqZ_last by counters. done.
Qed.
Lemma take_pop_inv σ i t t' : inv σ → threads σ !! i = Some t → push_call t = None → pop_call t = None → push_ticket t = None → pop_ticket t = None →
  push_call t' = None → pop_call t' = Some (head σ, WaitHead) → push_ticket t' = None → pop_ticket t' = Some (head σ) →
  thread_ok (set_head (head σ + 1) σ) t' → (∀ σ, owed σ t') → inv (go i t' (set_head (head σ + 1) σ)).
Proof.
  intros Hi Ht E1 E2 E3 E4 E1' E2' E3' E4' Hok How. pose proof (counters_nonneg _ Hi) as [H0 _].
  assert (Hg : grows σ (go i t' (set_head (head σ + 1) σ))) by (split; [done|counters..]).
  eapply (change_inv σ _ i t t' [] Hi Ht); try done.
  - apply Hi.
  - simpl. by rewrite app_nil_r.
  - apply Hi.
  - intros c P Q Hr Hc. rewrite E1, E2 in Hr. rewrite E1', E2'. exists c. split; [by apply rep_take_pop|done].
  - by intros ?? ?%elem_of_nil.
  - right. done.
  - by left.
  - intros k. by rewrite E3.
  - intros k. by rewrite E4.
  - intros R. rewrite E4, E4'. simpl. intros HR. rewrite HR. unfold head at 3. simpl. rewrite seqZ_last by counters. done.
  - intros R. by rewrite E3, E3'.
Qed.

(** Calls *)
Definition push_goes k v (pl' : push_place) : thread := match pl' with PushReturned _ => PushNotify k | _ => Pushing k v pl' false end.

Lemma push_call_ok o k v pl pl' r r' : throws o = false → pl ≠ CountInvalid → pl ≠ ReleaseTurn true →
  rep_push_step item_size o k v pl r = Some (pl', r') → pl' ≠ CountInvalid ∧ pl' ≠ ReleaseTurn true.
Proof.
  intros Ho H1 H2. unfold rep_push_step. destruct (choose k r) as [q|]; [simpl|done].
  destruct (push_step item_size o k v pl q) as [[[pl1 d] q']|] eqn:E; [|done]. intros [= <- <-]. unfold push_step in E. rewrite Ho in E.
  destruct pl; try done; repeat case_match; simplify_option_eq; repeat case_match; by simplify_eq.
Qed.
Lemma rep_good_of σ i t : inv σ → threads σ !! i = Some t → ∃ c P Q,
  rep_good item_size c (rep σ) (option_list (push_call t) ++ P) (option_list (pop_call t) ++ Q) ∧
  ∀ k o, c k = Some o → ∃ v, o = Some v ∧ 0 ≤ k ∧ values σ !! Z.to_nat k = Some v.
Proof.
  intros Hi Ht. destruct (iv_rep _ Hi) as (c & Hr & Hc). destruct (omap_insert_perm push_call _ _ _ Ht) as (P & E1 & _).
  destruct (omap_insert_perm pop_call _ _ _ Ht) as (Q & E1' & _). exists c, P, Q. split; [|done]. by eapply rep_good_perm; [exact E1|exact E1'|].
Qed.
Lemma in_tail σ k v : inv σ → 0 ≤ k → values σ !! Z.to_nat k = Some v → k < tail σ.
Proof. intros Hi Hk Hv%lookup_lt_Some. rewrite (iv_values _ Hi). lia. Qed.

Lemma bounded_push_call_inv σ rq o i k v pl : inv σ → threads σ !! i = Some (Pushing k v pl false) → throws o = false → rep_allocates item_size o k pl (rep σ) →
  ∃ σ', next rq o i σ = Some σ' ∧ inv σ'.
Proof.
  intros Hi Ht Ho Ha. destruct (iv_threads _ Hi _ (list_elem_of_lookup_2 _ _ _ Ht)) as (Hv & Hk & Hlt & _ & Hpl1 & Hpl2).
  destruct (rep_good_of _ _ _ Hi Ht) as (c & P & Q & Hr & Hc). destruct (rep_push_good _ _ _ _ _ _ _ _ _ Hr Ha) as (pl' & r & Er & _ & Eh & Et & Hret).
  destruct (push_call_ok _ _ _ _ _ _ _ Ho Hpl1 Hpl2 Er) as [Hpl1' Hpl2'].
  assert (Hpl3 : pl' ≠ PushReturned true) by (intros ->; destruct (Hc _ _ (Hret _ eq_refl)) as (? & ? & _); done).
  exists (go i (push_goes k v pl') (set_rep r σ)). split.
  { unfold next. rewrite Ht. simpl.
    assert (Eo : match pl with Construct _ => Outcome (throws o || false) (address o) | _ => o end = o) by (destruct pl; try done; rewrite orb_false_r; by destruct o).
    rewrite Eo, Er. simpl. destruct pl' as [| | | | | | | |[]]; done. }
  assert (Hg : grows σ (go i (push_goes k v pl') (set_rep r σ))) by (split; [done|counters..]).
  eapply (change_inv σ _ i _ (push_goes k v pl') [] Hi Ht); try done.
  - apply Hi.
  - simpl. by rewrite app_nil_r.
  - unfold tail. simpl. rewrite Et. apply Hi.
  - clear dependent c P Q. intros c P Q Hr Hc. destruct (rep_push_good _ _ _ _ _ _ _ _ _ Hr Ha) as (pl1 & r1 & Er1 & Hr1 & _). simplify_eq.
    exists (rep_settled c k v pl). split; [by destruct pl'|]. intros k' o'. destruct pl; simpl; try apply Hc; try done; unfold settle; case_decide; try apply Hc.
    intros [= <-]. exists v. by subst k'.
  - pose proof (in_tail _ _ _ Hi Hk Hv). destruct pl'; simpl; split_and!; done || counters.
  - by destruct pl'.
  - by intros ?? ?%elem_of_nil.
  - left. counters.
  - left. counters.
  - intros k'. simpl. intros [= <-]. left. by destruct pl'.
  - intros R. unfold head. simpl. rewrite Eh. by destruct pl'.
  - intros R. unfold tail. simpl. rewrite Et. by destruct pl'.
Qed.
Definition pop_goes k (pl' : pop_place) retry : thread := match pl' with PopReturned (Some v) => PopNotify k v | _ => Popping k pl' retry end.
Lemma bounded_pop_call_inv σ rq o i k pl retry : inv σ → threads σ !! i = Some (Popping k pl retry) → ∃ σ', next rq o i σ = Some σ' ∧ inv σ'.
Proof.
  intros Hi Ht. destruct (iv_threads _ Hi _ (list_elem_of_lookup_2 _ _ _ Ht)) as (Hk & Hlt & Hrt).
  destruct (rep_good_of _ _ _ Hi Ht) as (c & P & Q & Hr & Hc). destruct (rep_pop_good _ _ _ _ _ _ _ Hr) as (pl' & r & Er & _ & Eh & Et & Hret).
  assert (Hval : ∀ w, pl' = PopReturned w → ∃ v, w = Some v ∧ values σ !! Z.to_nat k = Some v).
  { intros w ->. destruct (Hc _ _ (Hret _ eq_refl)) as (v & ? & ? & ?). eauto. }
  exists (go i (pop_goes k pl' retry) (set_rep r σ)). split.
  { unfold next. rewrite Ht. simpl. rewrite Er. simpl. destruct pl' as [| | | | | | |[]]; try done. by destruct (Hval _ eq_refl) as (? & ? & _). }
  assert (Hg : grows σ (go i (pop_goes k pl' retry) (set_rep r σ))) by (split; [done|counters..]).
  eapply (change_inv σ _ i _ (pop_goes k pl' retry) [] Hi Ht); try done.
  - apply Hi.
  - simpl. by rewrite app_nil_r.
  - unfold tail. simpl. rewrite Et. apply Hi.
  - intros c1 P1 Q1 Hr1 Hc1. destruct (rep_pop_good _ _ _ _ _ _ _ Hr1) as (pl1 & r1 & Er1 & Hr1' & _). simplify_eq.
    exists c1. split; [|done]. destruct pl' as [| | | | | | |[]]; try done. by destruct (Hval _ eq_refl) as (? & ? & _).
  - destruct pl' as [| | | | | | |[]]; simpl; split_and!; try done; try counters. by destruct (Hval _ eq_refl) as (? & [= <-] & ?).
  - by destruct pl' as [| | | | | | |[]].
  - by intros ?? ?%elem_of_nil.
  - left. counters.
  - left. counters.
  - intros k'. simpl. intros [= <-]. left. by destruct pl' as [| | | | | | |[]].
  - intros R. unfold head. simpl. rewrite Eh. by destruct pl' as [| | | | | | |[]].
  - intros R. unfold tail. simpl. rewrite Et. by destruct pl' as [| | | | | | |[]].
Qed.

(** Notifications *)
Lemma fmap_calls {B} (f : thread → option B) (g : thread → thread) (ts : list thread) : (∀ t, f (g t) = f t) → omap f (g <$> ts) = omap f ts.
Proof. intros Hf. induction ts as [|x ts IH]; [done|]. csimpl. by rewrite Hf, IH. Qed.
Lemma wake_inv (g : thread → thread) σ : inv σ → (∀ t, push_call (g t) = push_call t) → (∀ t, pop_call (g t) = pop_call t) →
  (∀ t, push_ticket (g t) = push_ticket t) → (∀ t, pop_ticket (g t) = pop_ticket t) →
  (∀ t, t ∈ threads σ → g t = t ∨ thread_ok σ (g t) ∧ ∀ σ, owed σ (g t)) → inv (set_threads (g <$> threads σ) σ).
Proof.
  intros Hi E1 E2 E3 E4 Hg. split; simpl.
  - rewrite !fmap_calls by done. apply Hi.
  - apply Hi.
  - apply Hi.
  - intros t (x & -> & Hx)%list_elem_of_fmap. destruct (Hg x Hx) as [-> | [? _]]; [by apply (iv_threads _ Hi)|done].
  - intros t (x & -> & Hx)%list_elem_of_fmap. destruct (Hg x Hx) as [-> | [_ ?]]; [|done]. pose proof (iv_owed _ Hi x Hx) as Ho.
    destruct x; try done; simpl in *; intros Hlt; destruct (Ho Hlt) as (y & Hy & Hty); exists (g y); (split; [by apply list_elem_of_fmap_2|]); by rewrite ?E3, ?E4.
  - apply (iv_answers _ Hi).
  - unfold pop_tickets. simpl. rewrite fmap_calls by done. apply Hi.
  - unfold push_tickets. simpl. rewrite fmap_calls by done. apply Hi.
Qed.
Lemma wake_items_inv σ k : inv σ → k < tail σ → inv (set_threads (wake_items k <$> threads σ) σ) ∧ ∀ a, PopAsleep k a ∉ wake_items k <$> threads σ.
Proof.
  intros Hi Hk. split.
  - apply wake_inv; try done; intros t; [..|intros Ht]; destruct t; simpl; try done; try (by case_match); try by left.
    destruct (Z.leb_spec k0 k); [right|by left]. split; [|done]. destruct (iv_threads _ Hi _ Ht). simpl. lia.
  - intros a (x & Ex & Hx)%list_elem_of_fmap. destruct x; simpl in Ex; try done. destruct (Z.leb_spec k0 k); simplify_eq. lia.
Qed.
Lemma wake_slots_inv σ k : inv σ → k < head σ →
  inv (set_threads (wake_slots k <$> threads σ) σ) ∧ ∀ k' v, target k' = k → PushAsleep k' v ∉ wake_slots k <$> threads σ.
Proof.
  intros Hi Hk. split.
  - apply wake_inv; try done; intros t; [..|intros Ht]; destruct t; simpl; try done; try (by case_match); try by left.
    destruct (Z.leb_spec (target k0) k); [right|by left]. split; [|done]. destruct (iv_threads _ Hi _ Ht) as (? & ? & ?). simpl. split_and!; done || lia.
  - intros k' v Ek (x & Ex & Hx)%list_elem_of_fmap. destruct x; simpl in Ex; try done. destruct (Z.leb_spec (target k0) k); simplify_eq. lia.
Qed.

Lemma new_value σ x v : inv σ → values (add_value v (set_tail x σ)) !! Z.to_nat (tail σ) = Some v.
Proof. intros Hi. rewrite (iv_values _ Hi), Nat2Z.id. simpl. by rewrite lookup_app_r, Nat.sub_diag by lia. Qed.
Lemma push_notify_inv σ i k : inv σ → threads σ !! i = Some (PushNotify k) → inv (answer_to i (Pushed k) (set_threads (wake_items k <$> threads σ) σ)).
Proof.
  intros Hi Ht. destruct (iv_threads _ Hi _ (list_elem_of_lookup_2 _ _ _ Ht)) as (Hlt & Hk). destruct (wake_items_inv σ k Hi ltac:(lia)) as [Hi1 Hno].
  eapply (answer_inv _ i (PushNotify k)); try done.
  - simpl. by rewrite list_lookup_fmap, Ht.
  - intros k1 [= <-]. apply Hno.
Qed.
Lemma pop_notify_inv σ i k v : inv σ → threads σ !! i = Some (PopNotify k v) → inv (answer_to i (Popped k v) (set_threads (wake_slots k <$> threads σ) σ)).
Proof.
  intros Hi Ht. destruct (iv_threads _ Hi _ (list_elem_of_lookup_2 _ _ _ Ht)) as (Hh & Hk & Hv). destruct (wake_slots_inv σ k Hi ltac:(lia)) as [Hi1 Hno].
  eapply (answer_inv _ i (PopNotify k v)); try done.
  - simpl. by rewrite list_lookup_fmap, Ht.
  - intros k1 [= <-]. apply Hno.
Qed.

Lemma bounded_next_inv σ rq o i t : inv σ → threads σ !! i = Some t → no_exception rq o i σ → ∃ σ', next rq o i σ = Some σ' ∧ inv σ'.
Proof.
  intros Hi Ht (Hrq & Ho & Ha). pose proof (list_elem_of_lookup_2 _ _ _ Ht) as Hin. pose proof (iv_threads _ Hi _ Hin) as Hok. pose proof (counters_nonneg _ Hi) as [H0 H1].
  assert (Hq : ∀ t', push_call t' = push_call t → pop_call t' = pop_call t → push_ticket t' = push_ticket t → pop_ticket t' = pop_ticket t →
    thread_ok σ t' → owed σ t' → inv (go i t' σ)) by (intros; by eapply bounded_quiet_inv).
  pose proof (iv_aborts _ Hi) as Hab.
  destruct t; try (by destruct Hok); try by eapply bounded_pop_call_inv.
  8: { destruct Hok as (? & ? & ? & -> & ?). eapply bounded_push_call_inv; [done..|by eapply Ha]. }
  all: unfold next; rewrite Ht; simpl in *.
  all: try (eexists; split; [done|]; solve [done | apply Hq; done || (simpl; lia) | by apply push_notify_inv | by apply pop_notify_inv]).
  - destruct rq; try done; eexists; (split; [done|]); by apply Hq.
  - eexists. split; [done|]. eapply take_push_inv; try done. simpl. split_and!; [by apply (new_value σ (tail σ + 1))|done|done].
  - eexists. split; [done|]. destruct Hok as (? & ? & ?). apply Hq; destruct (Z.leb_spec (head σ) (target k)); simpl; split_and?; done || lia.
  - eexists. split; [done|]. destruct Hok as (? & ? & ->). rewrite Hab. simpl.
    apply Hq; destruct (Z.leb_spec (head σ) (target k)); simpl; split_and?; done || lia.
  - destruct Hok as (? & ? & ?). destruct (Z.leb_spec (head σ) (target k)); [lia|]. eexists. split; [done|]. by apply Hq.
  - eexists. split; [done|]. destruct (Z.leb_spec capacity (k - head σ)); [by eapply answer_inv|]. apply Hq; simpl; unfold target; done || lia.
  - eexists. split; [done|]. destruct (Z.eqb_spec (tail σ) k) as [<-|]; [|by apply Hq]. eapply take_push_inv; try done.
    simpl. split_and!; [by apply (new_value σ (tail σ + 1))|done|counters|done..].
  - eexists. split; [done|]. eapply take_pop_inv; try done. simpl. counters.
  - eexists. split; [done|]. apply Hq; destruct (Z.leb_spec (tail σ) k); simpl; split_and?; done || lia.
  - eexists. split; [done|]. destruct Hok as (? & ->). rewrite Hab. simpl. apply Hq; destruct (Z.leb_spec (tail σ) k); simpl; split_and?; done || lia.
  - destruct (Z.leb_spec (tail σ) k); [lia|]. eexists. split; [done|]. apply Hq; try done. destruct Hok as (? & -> & ?). simpl. split_and!; [lia..|right; left].
  - eexists. split; [done|]. destruct (Z.leb_spec (tail σ - k) 0); [by eapply answer_inv|]. apply Hq; simpl; done || lia.
  - eexists. split; [done|]. destruct (Z.eqb_spec (head σ) k) as [<-|]; [|apply Hq; simpl; done || lia]. eapply take_pop_inv; try done.
    simpl. split_and!; [counters..|left].
Qed.

Lemma bounded_step_keeps_inv σ σ' : inv σ → step σ σ' → inv σ'.
Proof.
  intros Hi Hst. destruct Hst as [rq o i σ σ' Ha E]. pose proof E as E0. unfold next in E0. apply bind_Some in E0 as (t & Ht & _).
  destruct (bounded_next_inv σ rq o i t Hi Ht Ha) as (σ1 & E1 & Hi1). congruence.
Qed.
Lemma bounded_start_keeps_inv n : inv (start n).
Proof.
  assert (Hp : ∀ {B} (f : thread → option B), f Idle = None → omap f (replicate n Idle) = []).
  { intros B f Hf. induction n as [|n IH]; simpl; [done|]. by rewrite Hf. }
  split; simpl; try done.
  - exists (λ _, None). split; [|done]. rewrite !Hp by done. apply empty_good.
  - intros t [-> _]%elem_of_replicate. done.
  - intros t [-> _]%elem_of_replicate. done.
  - by intros i a ?%elem_of_nil.
  - unfold pop_tickets. simpl. by rewrite Hp.
  - unfold push_tickets. simpl. by rewrite Hp.
Qed.
Lemma bounded_reach_inv n σ : rtc step (start n) σ → inv σ.
Proof. intros Hs. pose proof (bounded_start_keeps_inv n) as Hi. induction Hs as [|σ σ1 σ2 Hst _ IH]; [done|]. apply IH. by eapply bounded_step_keeps_inv. Qed.

(** *** When every thread waits *)

(** The next operation of the thread leaves it where it is. *)
Definition waits σ (i : nat) : Prop := ∃ t rq o σ', threads σ !! i = Some t ∧ t ≠ Idle ∧ next rq o i σ = Some σ' ∧ threads σ' !! i = Some t.

Lemma waits_cases σ i t : waits σ i → threads σ !! i = Some t →
  match t with
  | PushAsleep _ _ | PopAsleep _ _ => True
  | Pushing k v pl _ => ∃ o r, rep_push_step item_size o k v pl (rep σ) = Some (pl, r)
  | Popping k pl _ => ∃ r, rep_pop_step item_size k pl (rep σ) = Some (pl, r)
  | _ => False
  end.
Proof.
  intros (t0 & rq & o & σ' & Ht0 & Hne & E & E') Ht. rewrite Ht in Ht0. injection Ht0 as <-. unfold next in E. rewrite Ht in E. simpl in E.
  assert (Hlt : (i < length (threads σ))%nat) by (by eapply lookup_lt_Some).
  assert (Hlt' : ∀ g : thread → thread, (i < length (g <$> threads σ))%nat) by (intros g; by rewrite length_fmap).
  assert (Hsome : ∀ σ1, Some σ1 = Some σ' → threads σ1 !! i = Some t) by (by intros ? [= ->]).
  destruct t; try done; lazymatch goal with
    | |- False => repeat case_match; try done; apply Hsome in E; simpl in E; by rewrite list_lookup_insert_eq in E
    | _ => idtac end.
  all: apply bind_Some in E as ([pl' r] & E & E1); apply Hsome in E1.
  - exists (match pl with Construct _ => Outcome (throws o || aborted) (address o) | _ => o end), r. rewrite E. do 3 f_equal.
    destruct pl'; repeat case_match; simpl in E1; rewrite list_lookup_insert_eq in E1 by done; by simplify_eq.
  - exists r. rewrite E. do 3 f_equal. destruct pl' as [| | | | | | |[]]; repeat case_match; simpl in E1; rewrite list_lookup_insert_eq in E1 by done; by simplify_eq.
Qed.

Section all_wait.
Context σ (Hi : inv σ) (Hw : ∀ i t, threads σ !! i = Some t → t ≠ Idle → waits σ i).

Lemma waiting_thread t : t ∈ threads σ →
  match t with
  | Idle | PushAsleep _ _ | PopAsleep _ _ => True
  | Pushing k v pl _ => ∃ o r, rep_push_step item_size o k v pl (rep σ) = Some (pl, r)
  | Popping k pl _ => ∃ r, rep_pop_step item_size k pl (rep σ) = Some (pl, r)
  | _ => False
  end.
Proof. intros [i Hx]%list_elem_of_lookup. pose proof (λ H, waits_cases σ i t (Hw i t Hx H) Hx) as Hc. destruct t; try done; by apply Hc. Qed.

(** A push that waits in its micro queue waits for one that sleeps. *)
Lemma push_waits_for t k : t ∈ threads σ → push_ticket t = Some k → ∃ k' v, k' ≤ k ∧ PushAsleep k' v ∈ threads σ.
Proof.
  intros Ht Ek. pose proof (waiting_thread t Ht) as Hc. destruct t as [| | | | |k0 v0| |k0 v0 pl0 ab| | | | | | | | | | | | | | | | | |]; try done; simplify_eq/=.
  - exists k, v0. split; [lia|done].
  - destruct (iv_rep _ Hi) as (c & Hr & _). assert (Hx : (k, v0, pl0) ∈ pushes σ) by (apply list_elem_of_omap; by eexists).
    destruct (rep_push_moves _ _ _ _ _ _ Hr Hx) as (k1 & v1 & pl1 & Hin & Hle & Hmv). apply list_elem_of_omap in Hin as (t1 & Ht1 & E1).
    pose proof (waiting_thread t1 Ht1) as Hc1. destruct t1; try done; simplify_eq/=; [by exists k1, v1|].
    destruct Hc1 as (o & r & Er). by destruct (Hmv _ _ _ Er).
Qed.
(** A pop for which there is a push waits for one that sleeps. *)
Lemma pop_waits_for t p : t ∈ threads σ → pop_ticket t = Some p → p < tail σ → ∃ k' v, k' ≤ p ∧ PushAsleep k' v ∈ threads σ.
Proof.
  intros Ht Ek Hlt. assert (Hsl : ∀ k a, PopAsleep k a ∈ threads σ → k ≤ p → ∃ k' v, k' ≤ p ∧ PushAsleep k' v ∈ threads σ).
  { intros k a Hk Hle. destruct (iv_owed _ Hi _ Hk) as (t1 & Ht1 & E1); [lia|]. destruct (push_waits_for _ _ Ht1 E1) as (k' & v & ? & ?). exists k', v. split; [lia|done]. }
  pose proof (waiting_thread t Ht) as Hc. destruct t as [| | | | | | | | | | | | | | | |k0 a0| | |k0 pl0 rt| | | | | |]; try done; simplify_eq/=.
  - by apply (Hsl p a0).
  - destruct (iv_rep _ Hi) as (c & Hr & _). assert (Hx : (p, pl0) ∈ pops σ) by (apply list_elem_of_omap; by eexists).
    destruct (rep_pop_moves _ _ _ _ _ _ Hr Hx Hlt) as (k1 & pl1 & Hin & Hle & Hmv). simpl in Hle. destruct Hmv as [(v1 & pl2 & Hp)|Hmv].
    + apply list_elem_of_omap in Hp as (t1 & Ht1 & E1). assert (E2 : push_ticket t1 = Some k1) by (destruct t1; by simplify_eq/=).
      destruct (push_waits_for _ _ Ht1 E2) as (k' & v & ? & ?). exists k', v. split; [lia|done].
    + apply list_elem_of_omap in Hin as (t1 & Ht1 & E1). pose proof (waiting_thread t1 Ht1) as Hc1. destruct t1; try done; simplify_eq/=; [by apply (Hsl k1 aborts)|].
      destruct Hc1 as (r & Er). by destruct (Hmv _ _ Er).
Qed.

Definition asleep_ticket t : option Z := match t with PushAsleep k _ => Some k | _ => None end.
Lemma first_asleep : (∀ k v, PushAsleep k v ∉ threads σ) ∨
  ∃ k v, PushAsleep k v ∈ threads σ ∧ ∀ k' v', PushAsleep k' v' ∈ threads σ → k ≤ k'.
Proof.
  assert (Hmin : ∀ l : list Z, l = [] ∨ ∃ k, k ∈ l ∧ ∀ k', k' ∈ l → k ≤ k').
  { induction l as [|x l [-> | (k & Hk & IH)]]; [by left|..]; right.
    - exists x. split; [left|]. intros k' ->%list_elem_of_singleton. lia.
    - exists (Z.min x k). split; [destruct (Z.min_spec x k) as [[_ ->]|[_ ->]]; [left|by right]|]. intros k' [-> | Hk']%elem_of_cons; [lia|]. specialize (IH k' Hk'). lia. }
  assert (Hin : ∀ k v, PushAsleep k v ∈ threads σ → k ∈ omap asleep_ticket (threads σ)) by (intros; apply list_elem_of_omap; by eexists).
  destruct (Hmin (omap asleep_ticket (threads σ))) as [E|(k & Hk & Hle)].
  - left. intros k v Hk%Hin. rewrite E in Hk. by apply elem_of_nil in Hk.
  - right. apply list_elem_of_omap in Hk as (t & Ht & E). destruct t as [| | | | |k0 v0| | | | | | | | | | | | | | | | | | | |]; simplify_eq/=. exists k, v0. split; [done|]. intros k' v' Hk'%Hin. auto.
Qed.

Lemma no_deadlock (Hcap : 1 ≤ capacity) :
  (∀ t, t ∈ threads σ → t = Idle ∨ ∃ k a, t = PopAsleep k a ∧ tail σ ≤ k) ∨
  (∀ t, t ∈ threads σ → t = Idle ∨ ∃ k v, t = PushAsleep k v ∧ head σ + capacity ≤ k).
Proof.
  destruct first_asleep as [Hno|(k0 & v0 & Hk0 & Hmin)]; [left|right]; intros t Ht; pose proof (waiting_thread t Ht) as Hc; pose proof (iv_threads _ Hi t Ht) as Hok.
  - assert (Hpop : ∀ p, pop_ticket t = Some p → tail σ ≤ p).
    { intros p Ep. destruct (Z.le_gt_cases (tail σ) p) as [|Hlt]; [done|]. destruct (pop_waits_for t p Ht Ep) as (k' & v & _ & Hk'); [lia|by destruct (Hno k' v)]. }
    destruct t as [| | | | |k v| |k v pl ab| | | | | | | | |k a| | |k pl rt| | | | | |]; try done; [by left|by destruct (Hno k v)|..].
    + destruct (push_waits_for _ k Ht eq_refl) as (k' & v' & _ & Hk'). by destruct (Hno k' v').
    + right. exists k, a. auto.
    + specialize (Hpop k eq_refl). destruct Hok as (_ & ? & _). lia.
  - assert (Hpop : ∀ t p, t ∈ threads σ → pop_ticket t = Some p → p < tail σ → k0 ≤ p).
    { intros t' p Ht' Ep Hlt. destruct (pop_waits_for t' p Ht' Ep Hlt) as (k' & v & Hle & Hk'). specialize (Hmin _ _ Hk'). lia. }
    pose proof (iv_threads _ Hi _ Hk0) as (Hv0 & H0 & Ht0). pose proof (in_tail _ _ _ Hi H0 Hv0) as Hlt0.
    assert (Hfull : head σ ≤ target k0).
    { destruct (Z.le_gt_cases (head σ) (target k0)) as [|Hgt]; [done|]. destruct (iv_owed _ Hi _ Hk0) as (t1 & Ht1 & E1); [lia|].
      specialize (Hpop _ _ Ht1 E1). unfold target in *. lia. }
    destruct t as [| | | | |k v| |k v pl ab| | | | | | | | |k a| | |k pl rt| | | | | |]; try done; [by left|..].
    + right. exists k, v. specialize (Hmin _ _ Ht). unfold target in *. split; [done|lia].
    + destruct (push_waits_for _ k Ht eq_refl) as (k' & v' & Hle & Hk'). specialize (Hmin _ _ Hk'). destruct Hok as (_ & _ & ? & _). unfold target in *. lia.
    + destruct Hok as [? _]. specialize (Hpop _ k Ht eq_refl). unfold target in *. lia.
    + destruct Hok as (? & ? & _). specialize (Hpop _ k Ht eq_refl). unfold target in *. lia.
Qed.
End all_wait.

(** *** The theorems *)
Definition popped_value (x : nat * answer) : option V := match x.2 with Popped _ v => Some v | _ => None end.
Definition quiescent σ : Prop := ∀ t, t ∈ threads σ → t = Idle.

Lemma quiescent_tickets {B} (f : thread → option B) σ : f Idle = None → quiescent σ → omap f (threads σ) = [].
Proof.
  unfold quiescent. intros Hf Hq. induction (threads σ) as [|t ts IH]; [done|]. csimpl. rewrite (Hq t), Hf by left. apply IH. intros t' Ht'. apply Hq. by right.
Qed.
Lemma popped_values (l : list (nat * answer)) (vs : list V) : (∀ i k v, (i, Popped k v) ∈ l → vs !! Z.to_nat k = Some v) →
  omap popped_value l = omap (λ k, vs !! Z.to_nat k) (omap popped_ticket l).
Proof.
  induction l as [|[i a] l IH]; intros Hl; [done|]. assert (IH' : omap popped_value l = omap (λ k, vs !! Z.to_nat k) (omap popped_ticket l)) by (apply IH; intros i' k' v' H'; apply (Hl i'); by right).
  destruct a; csimpl; try done. rewrite (Hl i k v) by left. by rewrite IH'.
Qed.
Lemma values_of_tickets (vs : list V) n : 0 ≤ n → omap (λ k, vs !! Z.to_nat k) (seqZ 0 n) = take (Z.to_nat n) vs.
Proof.
  intros Hn. rewrite <- (Z2Nat.id n) at 1 by done. generalize (Z.to_nat n). clear n Hn. intros n. induction n as [|n IH]; [by rewrite take_0|].
  rewrite Nat2Z.inj_succ, <- Z.add_1_r, seqZ_app, omap_app, IH by lia. csimpl. replace (Z.to_nat (Z.of_nat 0 + (0 + Z.of_nat n))) with n by lia. destruct (vs !! n) as [v|] eqn:E.
  - by rewrite (take_S_r _ _ v).
  - rewrite app_nil_r. apply lookup_ge_None in E. by rewrite !take_ge by lia.
Qed.

(** C28: as long as no operation is aborted and no exception is thrown, a bounded
    queue delivers each object once.  A pop that has returned has the object of
    the push with its ticket, no two pops and no two pushes have the same ticket,
    and a push returns only when it is within the capacity of the next ticket of
    a pop.  When no operation is in progress the objects that were popped are the
    first ones that were pushed, and the size is between zero and the capacity. *)
Theorem bounded_queue_exactly_once n σ : rtc step (start n) σ →
  (∀ i k v, (i, Popped k v) ∈ returned σ → values σ !! Z.to_nat k = Some v) ∧
  NoDup (omap popped_ticket (returned σ)) ∧ NoDup (omap pushed_ticket (returned σ)) ∧
  (∀ i k, (i, Pushed k) ∈ returned σ → k < head σ + capacity) ∧
  (quiescent σ → 0 ≤ capacity → omap popped_value (returned σ) ≡ₚ take (Z.to_nat (head σ)) (values σ) ∧ 0 ≤ tail σ - head σ ≤ capacity).
Proof.
  intros Hs. pose proof (bounded_reach_inv n σ Hs) as Hi. pose proof (iv_popped _ Hi) as Hp. pose proof (iv_pushed _ Hi) as Hq. pose proof (counters_nonneg _ Hi) as [H0 H1].
  assert (Hv : ∀ i k v, (i, Popped k v) ∈ returned σ → values σ !! Z.to_nat k = Some v) by (intros i k v Ha; apply (iv_answers _ Hi _ _ Ha)).
  assert (Hc : ∀ i k, (i, Pushed k) ∈ returned σ → k < head σ + capacity).
  { intros i k Ha. pose proof (iv_answers _ Hi _ _ Ha) as Ht. simpl in Ht. unfold target in Ht. lia. }
  assert (Hnd : ∀ l l', l ++ omap popped_ticket (returned σ) ≡ₚ l' → NoDup l' → NoDup (omap popped_ticket (returned σ))) by (intros l l' <- [_ [_ ?]]%NoDup_app; done).
  split_and!; [done|by eapply Hnd; [apply Hp|apply NoDup_seqZ]| |done|].
  { unfold push_tickets in Hq. pose proof (NoDup_seqZ 0 (tail σ)) as Hn. rewrite <- Hq in Hn. by apply NoDup_app in Hn as [_ [_ ?]]. }
  intros Hid Hcap. unfold pop_tickets, push_tickets in *. rewrite quiescent_tickets in Hp, Hq by done. simpl in Hp, Hq. split.
  { rewrite (popped_values _ _ Hv), Hp. by rewrite values_of_tickets. }
  split.
  - destruct (Z.le_gt_cases (head σ) (tail σ)) as [|Hgt]; [lia|]. assert (Hin : head σ - 1 ∈ omap popped_ticket (returned σ)) by (rewrite Hp; apply elem_of_seqZ; lia).
    apply list_elem_of_omap in Hin as ([i a] & Ha & Ea). destruct a; try done. injection Ea as ->. apply Hv in Ha. apply (in_tail _ _ _ Hi) in Ha; lia.
  - destruct (Z.le_gt_cases (tail σ - head σ) capacity) as [|Hgt]; [lia|]. assert (Hin : tail σ - 1 ∈ omap pushed_ticket (returned σ)) by (rewrite Hq; apply elem_of_seqZ; lia).
    apply list_elem_of_omap in Hin as ([i a] & Ha & Ea). destruct a; try done. injection Ea as ->. apply Hc in Ha. lia.
Qed.

(** C12: as long as no operation is aborted and no exception is thrown, a bounded
    queue with a capacity of at least one, which does not change, does not
    deadlock and loses no wakeup.  Each thread can make its next
    step.  If every thread that is in an operation waits, then either all of them
    sleep in pops that have no push, or all of them sleep in pushes that are
    beyond the capacity. *)
Theorem bounded_queue_no_deadlock n σ : 1 ≤ capacity → rtc step (start n) σ →
  (∀ i t rq o, threads σ !! i = Some t → no_exception rq o i σ → ∃ σ', next rq o i σ = Some σ') ∧
  ((∀ i t, threads σ !! i = Some t → t ≠ Idle → waits σ i) →
   (∀ t, t ∈ threads σ → t = Idle ∨ ∃ k a, t = PopAsleep k a ∧ tail σ ≤ k) ∨
   (∀ t, t ∈ threads σ → t = Idle ∨ ∃ k v, t = PushAsleep k v ∧ head σ + capacity ≤ k)).
Proof.
  intros Hcap Hs. pose proof (bounded_reach_inv n σ Hs) as Hi. split.
  - intros i t rq o Ht Ha. destruct (bounded_next_inv σ rq o i t Hi Ht Ha) as (σ' & E & _). eauto.
  - intros Hw. by apply no_deadlock.
Qed.
End bounded.
End BoundedQueue.

(** ** Examples *)
Module BoundedExamples.
Import MicroQueue MicroInv QueueRep BoundedQueue.

Section run.
Context {V : Type} (item_size capacity : Z).
Fixpoint run (sched : list (request (V := V) * outcome * nat)) σ : option (state (V := V)) :=
  match sched with
  | [] => Some σ
  | (rq, o, i) :: sched => σ ← next item_size capacity rq o i σ; run sched σ
  end.
Definition is_exception (x : request (V := V) * outcome * nat) : bool := match x with (DoAbort, _, _) => true | (_, o, _) => throws o end.

Lemma no_exception_next rq o i σ σ' : next item_size capacity rq o i σ = Some σ' → is_exception (rq, o, i) = false → no_exception item_size rq o i σ.
Proof.
  intros E Hx. assert (Ho : rq ≠ DoAbort ∧ throws o = false) by (by destruct rq). destruct Ho as [Hrq Ho]. split_and!; [done..|].
  intros k v pl ab Ht q Hq -> Hn. split; [done|]. unfold next in E. rewrite Ht in E. simpl in E.
  apply bind_Some in E as ([pl' r] & E & _). unfold rep_push_step in E. rewrite Hq in E. simpl in E. rewrite item_index_eq, Hn, Ho in E. simpl in E.
  case_decide; done.
Qed.
Lemma bounded_run_reach sched σ σ' : run sched σ = Some σ' → forallb (λ x, negb (is_exception x)) sched = true → rtc (step item_size capacity) σ σ'.
Proof.
  revert σ. induction sched as [|[[rq o] i] sched IH]; intros σ E Ha; [injection E as <-; constructor|].
  simpl in E. apply bind_Some in E as (σ1 & E1 & E). apply andb_true_iff in Ha as [Ha1%negb_true_iff Ha]. econstructor; [|by apply IH].
  econstructor; [by eapply no_exception_next|done].
Qed.
End run.

Definition ok : outcome := Outcome false 0.
Definition by_thread (i n : nat) (rq : request) : list (request (V := Z) * outcome * nat) := replicate n (rq, ok, i).

(** Capacity one: thread 0 pushes twice and sleeps, thread 1 pops and wakes it up,
    thread 2 fails to push, thread 1 pops the second item. *)
Definition full_and_empty : list (request (V := Z) * outcome * nat) :=
  by_thread 0 12 (DoPush 10) ++ by_thread 0 5 (DoPush 20) ++ by_thread 1 13 DoPop ++ by_thread 0 8 DoPop ++ by_thread 2 3 (DoTryPush 30) ++ by_thread 1 9 DoPop.
Definition state_of (sched : list (request (V := Z) * outcome * nat)) : state := default (start 0) (run 100 1 sched (start 3)).
Lemma bounded_queue_exactly_once_witness :
  returned (state_of full_and_empty) = [(0%nat, Pushed 0); (1%nat, Popped 0 10); (0%nat, Pushed 1); (2%nat, NotPushed); (1%nat, Popped 1 20)] ∧
  omap popped_value (returned (state_of full_and_empty)) ≡ₚ take (Z.to_nat (head (state_of full_and_empty))) (values (state_of full_and_empty)).
Proof.
  split; [vm_compute; reflexivity|].
  assert (Hq : quiescent (state_of full_and_empty)).
  { assert (E : threads (state_of full_and_empty) = replicate 3 Idle) by (vm_compute; reflexivity). intros t. rewrite E. by intros [-> _]%elem_of_replicate. }
  assert (Hr : rtc (step 100 1) (start 3) (state_of full_and_empty)) by (apply (bounded_run_reach 100 1 full_and_empty); vm_compute; reflexivity).
  destruct (bounded_queue_exactly_once 100 1 3 _ Hr) as (_ & _ & _ & _ & H). exact (proj1 (H Hq ltac:(lia))).
Defined.

(** Then thread 1 sleeps in a pop. *)
Definition asleep_on_empty : list (request (V := Z) * outcome * nat) := full_and_empty ++ by_thread 1 5 DoPop.
Lemma bounded_queue_no_deadlock_witness :
  threads (state_of asleep_on_empty) = [Idle; PopAsleep 2 0; Idle] ∧
  ((∀ t, t ∈ threads (state_of asleep_on_empty) → t = Idle ∨ ∃ k a, t = PopAsleep k a ∧ tail (state_of asleep_on_empty) ≤ k) ∨
   (∀ t, t ∈ threads (state_of asleep_on_empty) → t = Idle ∨ ∃ k v, t = PushAsleep k v ∧ head (state_of asleep_on_empty) + 1 ≤ k)).
Proof.
  assert (E : threads (state_of asleep_on_empty) = [Idle; PopAsleep 2 0; Idle]) by (vm_compute; reflexivity). split; [exact E|].
  assert (Hr : rtc (step 100 1) (start 3) (state_of asleep_on_empty)) by (apply (bounded_run_reach 100 1 asleep_on_empty); vm_compute; reflexivity).
  destruct (bounded_queue_no_deadlock 100 1 3 _ ltac:(lia) Hr) as [_ H]. apply H. clear H Hr.
  revert E. generalize (state_of asleep_on_empty). intros σ E i t Ht Hne. exists t, DoPop, ok, σ. split_and!; [exact Ht|exact Hne| |exact Ht].
  rewrite E in Ht. destruct i as [|[|[|i]]]; simplify_eq/=; try done. unfold next. by rewrite E.
Defined.

(** With the capacity zero, which [set_capacity] accepts, a push that comes first
    and a pop wait for each other: the push sleeps until a pop notifies it, which
    the pop would do only after it has the item. *)
Definition push_then_pop : list (request (V := Z) * outcome * nat) := by_thread 0 5 (DoPush 10) ++ by_thread 1 6 DoPop.
Theorem zero_capacity_deadlock :
  ∃ σ, rtc (step 100 0) (start 2) σ ∧ returned σ = [] ∧ threads σ = [PushAsleep 0 10; Popping 0 WaitTail (Some 0)] ∧
    ∀ rq o i, i ∈ [0%nat; 1%nat] → next 100 0 rq o i σ = Some σ.
Proof.
  assert (H : ∃ σ, run 100 0 push_then_pop (start 2) = Some σ ∧ returned σ = [] ∧ threads σ = [PushAsleep 0 10; Popping 0 WaitTail (Some 0)] ∧
    ∀ rq o i, i ∈ [0%nat; 1%nat] → next 100 0 rq o i σ = Some σ).
  { eexists. split; [vm_compute; reflexivity|]. split_and!; try (vm_compute; reflexivity).
    intros rq o i. rewrite elem_of_cons, list_elem_of_singleton. intros [-> | ->]; vm_compute; reflexivity. }
  destruct H as (σ & Hr & H). exists σ. split; [|exact H]. apply (bounded_run_reach 100 0 push_then_pop); [exact Hr|vm_compute; reflexivity].
Qed.

(** A queue of capacity one.  Thread 0 pushes; thread 1 waits in a push until
    thread 2 aborts it; thread 3 waits in a push; then thread 2 pops twice. *)
Definition push_after_abort : list (request (V := Z) * outcome * nat) :=
  by_thread 0 12 (DoPush 10) ++ by_thread 1 5 (DoPush 20) ++ by_thread 2 3 DoAbort ++ by_thread 1 6 DoPop ++
  by_thread 3 5 (DoPush 30) ++ by_thread 2 25 DoPop.

(** C38: an entry that was made invalid by an abort takes the place of an item, and
    a pop that skips it does not notify the threads that wait for a slot.  So
    after an abort a push can sleep although there is a slot, with a pop that
    waits for this push. *)
Theorem bounded_queue_deadlock :
  ∃ σ, run 100 1 push_after_abort (start 4) = Some σ ∧ returned σ = [(0%nat, Pushed 0); (2%nat, Aborted); (1%nat, PushThrew 1); (2%nat, Popped 0 10)] ∧
    threads σ !! 3%nat = Some (PushAsleep 2 30) ∧ target 1 2 < head σ ∧ threads σ !! 2%nat = Some (Popping 2 WaitTail (Some 1)) ∧
    ∀ rq o i, i ∈ [2%nat; 3%nat] → next 100 1 rq o i σ = Some σ.
Proof.
  eexists. split; [vm_compute; reflexivity|]. split_and!; try (vm_compute; reflexivity).
  intros rq o i. rewrite elem_of_cons, list_elem_of_singleton. intros [-> | ->]; vm_compute; reflexivity.
Qed.

(** Thread 0 waits in a pop until thread 1 aborts it; thread 2 takes a ticket
    before thread 0 gives its own back; then thread 3 pushes and tries to pop. *)
Definition pop_during_abort : list (request (V := Z) * outcome * nat) :=
  by_thread 0 5 DoPop ++ by_thread 1 3 DoAbort ++ by_thread 2 5 DoPop ++ by_thread 0 1 DoPop ++ by_thread 3 12 (DoPush 10) ++ by_thread 3 3 DoTryPop.

(** C39: a pop that is aborted gives back the last ticket, not its own.  So the
    ticket of a pop that started meanwhile is given out again and the ticket that
    was given up is not: the item of the next push is lost and the pop sleeps. *)
Theorem bounded_queue_item_lost :
  ∃ σ, run 100 1 pop_during_abort (start 4) = Some σ ∧
    returned σ = [(1%nat, Aborted); (0%nat, PopThrew); (3%nat, Pushed 0); (3%nat, NotPopped)] ∧
    threads σ = [Idle; Idle; PopAsleep 1 1; Idle] ∧ head σ = tail σ.
Proof. eexists. split; [vm_compute; reflexivity|]. split_and!; vm_compute; reflexivity. Qed.
End BoundedExamples.
