(* ===== verification/HashMap.v ===== *)
(** * concurrent_hash_map

    A hash table whose buckets are chains of nodes, each with a reader-writer lock.
    The table grows by whole segments; a new bucket is filled, when it is first
    used, with the nodes of its parent bucket that belong to it.  Source:
    include/oneapi/tbb/concurrent_hash_map.h ([hash_map_base], [bucket_accessor],
    [rehash_bucket], [lookup], [exclude], [internal_erase]).

    A thread is at a place of an operation; every access to shared memory is a step,
    where what happens under a lock that excludes the others is one step.  Which
    locks are held follows from the places of the threads, and a lock is acquired
    when no other thread holds it in a conflicting mode: [RwMutex] shows that the
    mutexes do this.  An upgrade may at any time fail, which gives the lock up and
    acquires it again as a writer.  [try_acquire] of a bucket fails when another thread
    has its lock, and may fail without it only when the bucket is already marked:
    the word of the mutex changes under the thread only when another one has
    acquired it, and who acquires a bucket first marks it before the release.

    Nodes are in a heap; an access to a node that was deleted is [None].  Keys are
    compared by equality.  The table has less than [2 ^ 63] buckets, and no
    allocation throws. *)

From S2P Require Import Prelude.
From stdpp Require Import base numbers relations gmap list.
From Stdlib Require Import ZArith Lia.
Local Open Scope Z_scope.

Module HashMap.
Section hash_map.
Context {K : Type} `{Countable K} (hash : K → Z).

(** A bucket: [node_list], which is [None] for [rehash_req_flag]; [settled] says for
    the theorems that the nodes that belong to the bucket have been moved to it. *)
Record bucket := Bucket { node_list : option (list nat); settled : bool }.
Definition rehash_required (b : bucket) : bool := match node_list b with None => true | Some _ => false end.

Record accessor := Accessor { my_node : nat; my_hash : Z; is_writer : bool }.

Inductive kind := Find | Insert | Erase | Exclude (a : accessor).
(** The local variables of an operation: the key and its hash, the mask, whether a
    lock on the item is wanted (and a writer's), the node that was allocated. *)
Record op := Op { o_kind : kind; o_key : K; o_hash : Z; o_mask : Z; o_result : option bool; o_tmp : option nat }.
Definition set_mask m o : op := Op (o_kind o) (o_key o) (o_hash o) m (o_result o) (o_tmp o).
Definition set_tmp n o : op := Op (o_kind o) (o_key o) (o_hash o) (o_mask o) (o_result o) n.

Inductive reason := NotFound | Contended.

(** The places.  In [bucket_accessor::acquire]: before the load of the flag, before
    [try_acquire], with the lock before the second test of the flag, waiting for the
    lock; [todo] has the buckets that wait in [rehash_bucket] for the one that is
    acquired.  With the lock of a bucket: the bucket is acquired; before an
    upgrade; after a failed upgrade of an insertion; in [check_mask_race] before
    the loads of the mask and of the flag; before a node is inserted and after it;
    before the item is acquired.  Without it: waiting for the lock after a failed
    upgrade; before [enable_segment] and before the new mask is stored; before
    the node is deleted. *)
Inductive place :=
  | Idle
  | LoadMask (o : op)
  | AcqCheck (o : op) (todo : list Z) (x : Z) (w : bool)
  | AcqTry (o : op) (todo : list Z) (x : Z) (w : bool)
  | AcqRecheck (o : op) (todo : list Z) (x : Z)
  | AcqLock (o : op) (todo : list Z) (x : Z) (w : bool)
  | Acquired (o : op) (todo : list Z) (x : Z) (w : bool)
  | Upgrade (o : op) (x : Z)
  | Reacquire (o : op) (x : Z)
  | SearchAgain (o : op) (x : Z)
  | CheckMask (o : op) (x : Z) (w : bool) (why : reason)
  | CheckFlag (o : op) (x : Z) (w : bool) (why : reason) (c : Z)
  | Checked (o : op) (x : Z)
  | Added (o : op) (x : Z) (n : nat) (sz : Z)
  | Exists (o : op) (x : Z) (w : bool) (n : nat) (inserted : bool) (grow : Z)
  | Growth (o : op) (n : nat) (inserted : bool) (grow : Z)
  | StoreMask (o : op) (n : nat) (inserted : bool) (sz : Z)
  | DeleteItem (o : op) (n : nat).

Record thread := Thread { held : list accessor; pl : place }.

Inductive segment := Allocating | Valid.

(** The answers of an operation.  The log has the operations in the order in which
    they take effect, [returned] those that have returned. *)
Inductive answer :=
  | Found (n : nat) | Absent
  | Inserted (n : nat) | Present (n : nat)
  | Erased (n : nat) | NotErased | NotExcluded (n : nat).
Record event := Event { ev_thread : nat; ev_key : K; ev_answer : answer }.

Record state := State {
  buckets : gmap Z bucket;
  my_mask : Z;
  my_size : Z;
  my_table : gmap Z segment;
  nodes : gmap nat K;
  threads : list thread;
  log : list event;
  returned : list event;
}.
Implicit Types (σ : state) (t : thread) (p : place) (o : op) (x y : Z) (n : nat).

Definition set_buckets bs σ : state := State bs (my_mask σ) (my_size σ) (my_table σ) (nodes σ) (threads σ) (log σ) (returned σ).
Definition set_my_mask m σ : state := State (buckets σ) m (my_size σ) (my_table σ) (nodes σ) (threads σ) (log σ) (returned σ).
Definition set_size s σ : state := State (buckets σ) (my_mask σ) s (my_table σ) (nodes σ) (threads σ) (log σ) (returned σ).
Definition set_table m σ : state := State (buckets σ) (my_mask σ) (my_size σ) m (nodes σ) (threads σ) (log σ) (returned σ).
Definition set_nodes m σ : state := State (buckets σ) (my_mask σ) (my_size σ) (my_table σ) m (threads σ) (log σ) (returned σ).
Definition set_thread (i : nat) t σ : state := State (buckets σ) (my_mask σ) (my_size σ) (my_table σ) (nodes σ) (<[i := t]> (threads σ)) (log σ) (returned σ).
Definition add_event e σ : state := State (buckets σ) (my_mask σ) (my_size σ) (my_table σ) (nodes σ) (threads σ) (log σ ++ [e]) (returned σ).
Definition add_returned e σ : state := State (buckets σ) (my_mask σ) (my_size σ) (my_table σ) (nodes σ) (threads σ) (log σ) (returned σ ++ [e]).

(** *** Segments *)
Definition embedded_block : Z := 1.
Definition embedded_buckets : Z := Z.shiftl 1 embedded_block.
Definition first_block : Z := 8.
Definition segment_index_of x : Z := Z.log2 (Z.lor x 1).
Definition segment_base k : Z := Z.land (Z.shiftl 1 k) (Z.lnot 1).
Definition segment_size k : Z := Z.shiftl 1 k.

(** A bucket is known by its index; the segment it is in must be valid. *)
Definition get_bucket x σ : option bucket :=
  let s := segment_index_of x in
  match my_table σ !! s with
  | Some Valid => buckets σ !! (segment_base s + (x - segment_base s))
  | _ => None
  end.
Definition set_bucket x b σ : state := set_buckets (<[x := b]> (buckets σ)) σ.

(** The load factor test of [insert_new_node]; 0 when no segment is to be enabled *)
Definition grow_segment (sz mask : Z) σ : Z * state :=
  if mask <=? sz then
    let new_seg := Z.log2 (mask + 1) in
    match my_table σ !! new_seg with
    | None => (new_seg, set_table (<[new_seg := Allocating]> (my_table σ)) σ)
    | Some _ => (0, σ)
    end
  else (0, σ).

(** [enable_segment] up to the store of the mask: the capacity of the table *)
Definition init_buckets (first count : Z) (bs : gmap Z bucket) : gmap Z bucket :=
  foldr (λ x, <[x := Bucket None false]>) bs (seqZ first count).
Definition enable_segment k σ : Z * state :=
  if first_block <=? k then
    let sz := segment_size k in
    (Z.shiftl sz 1, set_table (<[k := Valid]> (my_table σ)) (set_buckets (init_buckets (segment_base k) sz (buckets σ)) σ))
  else
    let sz := segment_size first_block in
    (sz, set_table (foldr (λ i, <[i := Valid]>) (my_table σ) (seqZ embedded_block (first_block - embedded_block)))
      (set_buckets (init_buckets (segment_base embedded_block) (sz - embedded_buckets) (buckets σ)) σ)).

(** The loop of [check_rehashing_collision]: the first bit of [h] from [bit] on; the
    masks of the table have [fuel] bits. *)
Fixpoint next_bit (fuel : nat) (h bit : Z) : Z :=
  match fuel with
  | O => bit
  | S fuel => if Z.land h bit =? 0 then next_bit fuel h (Z.shiftl bit 1) else bit
  end.
Definition collision_bucket (h m_old m : Z) : Z :=
  Z.land h (Z.shiftl (next_bit (Z.to_nat (Z.log2 (m + 1))) h (m_old + 1)) 1 - 1).

(** *** Locks *)
Definition bucket_locks p : list (Z * bool) :=
  match p with
  | AcqCheck _ todo _ _ | AcqTry _ todo _ _ | AcqLock _ todo _ _ => (λ y, (y, true)) <$> todo
  | AcqRecheck _ todo x => (x, true) :: ((λ y, (y, true)) <$> todo)
  | Acquired _ todo x w => (x, w) :: ((λ y, (y, true)) <$> todo)
  | Upgrade _ x => [(x, false)]
  | SearchAgain _ x | Checked _ x | Added _ x _ _ => [(x, true)]
  | CheckMask _ x w _ | CheckFlag _ x w _ _ | Exists _ x w _ _ _ => [(x, w)]
  | _ => []
  end.
Definition op_of p : option op :=
  match p with
  | Idle => None
  | LoadMask o | AcqCheck o _ _ _ | AcqTry o _ _ _ | AcqRecheck o _ _ | AcqLock o _ _ _ | Acquired o _ _ _ | Upgrade o _
  | Reacquire o _ | SearchAgain o _ | CheckMask o _ _ _ | CheckFlag o _ _ _ _ | Checked o _ | Added o _ _ _
  | Exists o _ _ _ _ _ | Growth o _ _ _ | StoreMask o _ _ _ | DeleteItem o _ => Some o
  end.
(** The accessors of a thread, with the one that [exclude] works on *)
Definition op_accessor p : list accessor :=
  match op_of p with Some o => match o_kind o with Exclude a => [a] | _ => [] end | None => [] end.
Definition accessors t : list accessor := op_accessor (pl t) ++ held t.

Definition others (i : nat) (l : list thread) : list thread := take i l ++ drop (S i) l.
Definition conflicts x (w : bool) (l : list (Z * bool)) : bool := existsb (λ m : Z * bool, bool_decide (m.1 = x) && (w || m.2)) l.
Definition lock_available (i : nat) x (w : bool) σ : bool :=
  negb (existsb (λ t, conflicts x w (bucket_locks (pl t))) (others i (threads σ))).
Definition item_conflicts n (w : bool) (a : accessor) : bool := bool_decide (my_node a = n) && (w || is_writer a).
Definition item_available n (w : bool) (l : list accessor) : bool := negb (existsb (item_conflicts n w) l).
Definition all_accessors (l : list thread) : list accessor := l ≫= accessors.

(** *** Chains *)
Fixpoint search_bucket (k : K) (l : list nat) (ns : gmap nat K) : option (option nat) :=
  match l with
  | [] => Some None
  | n :: l => k' ← ns !! n; if decide (k' = k) then Some (Some n) else search_bucket k l ns
  end.
(** The search of [exclude] *)
Fixpoint search_node n (l : list nat) (ns : gmap nat K) : option bool :=
  match l with
  | [] => Some false
  | n' :: l => if decide (n' = n) then Some true else _ ← ns !! n'; search_node n l ns
  end.
Definition remove_node n (l : list nat) : list nat := filter (λ n', n' ≠ n) l.

(** The masks of [rehash_bucket], and the nodes of the parent that belong to the
    bucket [y] with those that do not *)
Definition parent_mask y : Z := Z.shiftl 1 (Z.log2 y) - 1.
Definition full_mask y : Z := Z.lor (Z.shiftl (parent_mask y) 1) 1.
Definition parent y : Z := Z.land y (parent_mask y).
Fixpoint split_chain y (l : list nat) (ns : gmap nat K) : option (list nat * list nat) :=
  match l with
  | [] => Some ([], [])
  | n :: l =>
      k ← ns !! n;
      '(moved, rest) ← split_chain y l ns;
      Some (if decide (Z.land (hash k) (full_mask y) = y) then (n :: moved, rest) else (moved, n :: rest))
  end.

(** *** Steps *)
Inductive request :=
  | DoFind (k : K) (result : option bool)
  | DoInsert (k : K) (result : option bool)
  | DoEmplace (k : K) (result : option bool)
  | DoErase (k : K)
  | DoExclude (j : nat)
  | DoRelease (j : nat).
(** What is left open: the result of an upgrade and of a downgrade, whether
    [try_acquire] fails, the address of a new node *)
Record choice := Choice { upgraded : bool; kept : bool; acquire_fails : bool; address : nat }.

Definition go (i : nat) t p σ : state := set_thread i (Thread (held t) p) σ.
Definition is_exclude o : bool := match o_kind o with Exclude _ => true | _ => false end.
Definition acquire o : place := AcqCheck o [] (Z.land (o_hash o) (o_mask o)) (is_exclude o).
Definition create_node (n : nat) (k : K) σ : option state :=
  if decide (nodes σ !! n = None) then Some (set_nodes (<[n := k]> (nodes σ)) σ) else None.
Definition delete_node n σ : option state := _ ← nodes σ !! n; Some (set_nodes (delete n (nodes σ)) σ).
(** The answer of [lookup] for the node [n] *)
Definition lookup_answer o (inserted : bool) n : answer :=
  if inserted then Inserted n else match o_kind o with Find => Found n | _ => Present n end.

(** The operation on the bucket [x] that was acquired *)
Definition remove (i : nat) t o x (b : bucket) (l : list nat) n σ : state :=
  add_event (Event i (o_key o) (Erased n)) (go i t (DeleteItem o n)
    (set_size (my_size σ - 1) (set_bucket x (Bucket (Some (remove_node n l)) (settled b)) σ))).
Definition operate (c : choice) (i : nat) t o x (w : bool) (b : bucket) (l : list nat) σ : option state :=
  match o_kind o with
  | Find =>
      r ← search_bucket (o_key o) l (nodes σ);
      Some (go i t (match r with Some n => Exists o x w n false 0 | None => CheckMask o x w NotFound end) σ)
  | Insert =>
      r ← search_bucket (o_key o) l (nodes σ);
      match r, o_tmp o with
      | Some n, _ => Some (go i t (Exists o x w n false 0) σ)
      | None, Some _ => Some (go i t (if w then CheckMask o x w NotFound else Upgrade o x) σ)
      | None, None =>
          σ ← create_node (address c) (o_key o) σ;
          let o := set_tmp (Some (address c)) o in
          Some (go i t (if w then CheckMask o x w NotFound else Upgrade o x) σ)
      end
  | Erase =>
      r ← search_bucket (o_key o) l (nodes σ);
      Some (match r with
            | None => go i t (CheckMask o x w NotFound) σ
            | Some n => if w then remove i t o x b l n σ else go i t (Upgrade o x) σ
            end)
  | Exclude a =>
      r ← search_node (my_node a) l (nodes σ);
      Some (if (r : bool) then remove i t o x b l (my_node a) σ else go i t (CheckMask o x w NotFound) σ)
  end.

(** [rehash_bucket] of the bucket [y], whose parent [x] was acquired *)
Definition rehash (c : choice) (i : nat) t o y todo x (w : bool) (b : bucket) (l : list nat) σ : option state :=
  '(moved, rest) ← split_chain y l (nodes σ);
  b_new ← get_bucket y σ;
  l_new ← node_list b_new;
  match moved with
  | [] => Some (go i t (Acquired o todo y true) (set_bucket y (Bucket (Some l_new) true) σ))
  | _ =>
      if w then
        Some (go i t (Acquired o todo y true)
          (set_bucket y (Bucket (Some (rev moved ++ l_new)) true) (set_bucket x (Bucket (Some rest) (settled b)) σ)))
      else if upgraded c && lock_available i x true σ then Some (go i t (Acquired o (y :: todo) x true) σ)
      else Some (go i t (AcqLock o (y :: todo) x true) σ)
  end.

(** After [check_mask_race] has returned false *)
Definition return_absent (i : nat) t o (a : answer) σ : state :=
  add_returned (Event i (o_key o) a) (add_event (Event i (o_key o) a) (go i t Idle σ)).
Definition no_race (i : nat) t o x (w : bool) (why : reason) σ : option state :=
  match o_kind o with
  | Find => Some (return_absent i t o Absent σ)
  | Insert => Some (go i t (Checked o x) σ)
  | Erase => Some (match why with NotFound => return_absent i t o NotErased σ | Contended => go i t (Acquired o [] x w) σ end)
  | Exclude a => _ ← nodes σ !! my_node a; Some (return_absent i t o (NotExcluded (my_node a)) σ)
  end.

Definition next (rq : request) (c : choice) (i : nat) σ : option state :=
  t ← threads σ !! i;
  match pl t with
  | Idle =>
      match rq with
      | DoFind k result => Some (go i t (LoadMask (Op Find k (hash k) 0 result None)) σ)
      | DoInsert k result => Some (go i t (LoadMask (Op Insert k (hash k) 0 result None)) σ)
      | DoEmplace k result =>
          σ ← create_node (address c) k σ;
          Some (go i t (LoadMask (Op Insert k (hash k) 0 result (Some (address c)))) σ)
      | DoErase k => Some (go i t (LoadMask (Op Erase k (hash k) 0 None None)) σ)
      | DoExclude j =>
          a ← held t !! j;
          k ← nodes σ !! my_node a;
          Some (set_thread i (Thread (delete j (held t)) (LoadMask (Op (Exclude a) k (my_hash a) 0 None None))) σ)
      | DoRelease j => a ← held t !! j; _ ← nodes σ !! my_node a; Some (set_thread i (Thread (delete j (held t)) Idle) σ)
      end
  | LoadMask o => Some (go i t (acquire (set_mask (my_mask σ) o)) σ)
  | AcqCheck o todo x w =>
      b ← get_bucket x σ;
      Some (go i t (if rehash_required b then AcqTry o todo x w else AcqLock o todo x w) σ)
  | AcqTry o todo x w =>
      b ← get_bucket x σ;
      Some (go i t (if lock_available i x true σ && (rehash_required b || negb (acquire_fails c))
                    then AcqRecheck o todo x else AcqLock o todo x w) σ)
  | AcqRecheck o todo x =>
      b ← get_bucket x σ;
      Some (if rehash_required b
            then go i t (AcqCheck o (x :: todo) (parent x) false) (set_bucket x (Bucket (Some []) (settled b)) σ)
            else go i t (Acquired o todo x true) σ)
  | AcqLock o todo x w => Some (if lock_available i x w σ then go i t (Acquired o todo x w) σ else σ)
  | Acquired o todo x w =>
      b ← get_bucket x σ;
      l ← node_list b;
      match todo with
      | [] => operate c i t o x w b l σ
      | y :: todo => rehash c i t o y todo x w b l σ
      end
  | Upgrade o x =>
      Some (go i t (if upgraded c && lock_available i x true σ
                    then match o_kind o with Erase => Acquired o [] x true | _ => CheckMask o x true NotFound end
                    else Reacquire o x) σ)
  | Reacquire o x =>
      Some (if lock_available i x true σ
            then go i t (match o_kind o with Erase => CheckMask o x true Contended | _ => SearchAgain o x end) σ else σ)
  | SearchAgain o x =>
      b ← get_bucket x σ;
      l ← node_list b;
      r ← search_bucket (o_key o) l (nodes σ);
      Some (go i t (match r with
                    | None => CheckMask o x true NotFound
                    | Some n => if kept c then Exists o x false n false 0 else AcqLock o [] x false
                    end) σ)
  | CheckMask o x w why =>
      let m := my_mask σ in
      if decide (o_mask o = m) then no_race i t o x w why σ
      else if decide (Z.land (o_hash o) (o_mask o) = Z.land (o_hash o) m) then no_race i t (set_mask m o) x w why σ
      else Some (go i t (CheckFlag (set_mask m o) x w why (collision_bucket (o_hash o) (o_mask o) m)) σ)
  | CheckFlag o x w why y =>
      b ← get_bucket y σ;
      if rehash_required b then no_race i t o x w why σ else Some (go i t (acquire o) σ)
  | Checked o x =>
      b ← get_bucket x σ;
      l ← node_list b;
      n ← o_tmp o;
      let sz := my_size σ + 1 in
      Some (add_event (Event i (o_key o) (Inserted n)) (go i t (Added (set_tmp None o) x n sz)
        (set_size sz (set_bucket x (Bucket (Some (n :: l)) (settled b)) σ))))
  | Added o x n sz => let '(grow, σ) := grow_segment sz (o_mask o) σ in Some (go i t (Exists o x true n true grow) σ)
  | Exists o x w n inserted grow =>
      let done := λ σ, if inserted then σ else add_event (Event i (o_key o) (lookup_answer o inserted n)) σ in
      match o_result o with
      | None => Some (done (go i t (Growth o n inserted grow) σ))
      | Some write =>
          _ ← nodes σ !! n;
          if item_available n write (all_accessors (threads σ)) && (inserted || negb (acquire_fails c))
          then Some (done (set_thread i (Thread (Accessor n (o_hash o) write :: held t) (Growth o n inserted grow)) σ))
          else if acquire_fails c then if inserted then None else Some (go i t (LoadMask o) σ)
          else Some σ
      end
  | Growth o n inserted grow =>
      if decide (grow = 0) then
        σ ← (match o_tmp o with Some n' => delete_node n' σ | None => Some σ end);
        Some (add_returned (Event i (o_key o) (lookup_answer o inserted n)) (go i t Idle σ))
      else let '(sz, σ) := enable_segment grow σ in Some (go i t (StoreMask o n inserted sz) σ)
  | StoreMask o n inserted sz => Some (go i t (Growth o n inserted 0) (set_my_mask (sz - 1) σ))
  | DeleteItem o n =>
      _ ← nodes σ !! n;
      if item_available n true (all_accessors (<[i := Thread (held t) Idle]> (threads σ))) then
        σ ← delete_node n σ;
        Some (add_returned (Event i (o_key o) (Erased n)) (go i t Idle σ))
      else Some σ
  end.

Inductive step : state → state → Prop :=
  | step_thread rq c i σ σ' : next rq c i σ = Some σ' → step σ σ'.
Definition start (n : nat) : state :=
  State {[0 := Bucket (Some []) true; 1 := Bucket (Some []) true]} (embedded_buckets - 1) 0 {[0 := Valid]} ∅
    (replicate n (Thread [] Idle)) [] [].

(** *** The buckets of a hash code

    [on_path h x]: the bucket [x] holds the items of the hash code [h] for some mask.
    The buckets of a hash code are totally ordered; the next smaller one is the
    parent. *)
Definition on_path (h x : Z) : Prop := ∃ j, 1 ≤ j ∧ x = h mod 2 ^ j.

Lemma land_pow_mask h j : 0 ≤ j → Z.land h (2 ^ j - 1) = h mod 2 ^ j.
Proof. intros ?. by rewrite <- Z.land_ones, Z.ones_equiv, Z.sub_1_r. Qed.
Lemma mod_pow_mod h i j : 0 ≤ i ≤ j → (h mod 2 ^ j) mod 2 ^ i = h mod 2 ^ i.
Proof.
  intros ?. apply Z.mod_mod_divide.
  exists (2 ^ (j - i)). rewrite <- Z.pow_add_r by lia. f_equal. lia.
Qed.
Lemma mod_pow_le h i j : 0 ≤ i ≤ j → h mod 2 ^ i ≤ h mod 2 ^ j.
Proof. intros ?. rewrite <- (mod_pow_mod h i j) by done. apply Z.mod_le; [apply Z.mod_pos_bound |]; lia. Qed.
Lemma on_path_nonneg h x : on_path h x → 0 ≤ x.
Proof. intros (j & ? & ->). apply Z.mod_pos_bound. lia. Qed.
Lemma on_path_land h j : 1 ≤ j → on_path h (Z.land h (2 ^ j - 1)).
Proof. intros ?. exists j. rewrite land_pow_mask by lia. done. Qed.
(** The mask that just covers the bucket *)
Lemma on_path_bits h y L : on_path h y → 0 ≤ L → 2 ^ L ≤ y → h mod 2 ^ L = y mod 2 ^ L ∧ h mod 2 ^ (Z.log2 y + 1) = y.
Proof.
  intros (j & ? & ->) ? Hy. set (y := h mod 2 ^ j) in *.
  assert (0 ≤ y < 2 ^ j) by (apply Z.mod_pos_bound; lia).
  assert (0 < 2 ^ L) by lia.
  assert (Z.log2 y < j) by (apply Z.log2_lt_pow2; lia).
  assert (L ≤ Z.log2 y) by (apply Z.log2_le_pow2; lia).
  destruct (Z.log2_spec y) as [? ?]; [lia |].
  split; [unfold y; by rewrite mod_pow_mod by lia |].
  rewrite <- (mod_pow_mod h _ j) by lia. fold y. apply Z.mod_small. rewrite Z.add_1_r. lia.
Qed.
Lemma parent_mod y : 1 < y → parent y = y mod 2 ^ Z.log2 y.
Proof. intros ?. unfold parent, parent_mask. rewrite Z.shiftl_1_l. apply land_pow_mask, Z.log2_nonneg. Qed.
Lemma log2_ge_1 y : 1 < y → 1 ≤ Z.log2 y.
Proof. intros ?. apply Z.log2_le_pow2; lia. Qed.
Lemma parent_bucket_lt y : 1 < y → 0 ≤ parent y < y.
Proof.
  intros Hy. rewrite parent_mod by done. pose proof (log2_ge_1 y Hy). destruct (Z.log2_spec y); [lia |].
  pose proof (Z.mod_pos_bound y (2 ^ Z.log2 y)). lia.
Qed.
Lemma on_path_parent h y : on_path h y → 1 < y → on_path h (parent y).
Proof.
  intros Hp Hy. pose proof (log2_ge_1 y Hy). destruct (Z.log2_spec y); [lia |].
  exists (Z.log2 y). split; [done |]. rewrite parent_mod by done. symmetry. by apply on_path_bits; [| lia |].
Qed.
Lemma on_path_below h x y : on_path h x → on_path h y → x < y → 1 < y → x ≤ parent y.
Proof.
  intros (i & ? & ->) Hp Hlt Hy. pose proof (log2_ge_1 y Hy). destruct (Z.log2_spec y); [lia |].
  destruct (on_path_bits h y (Z.log2 y)) as [He He']; [done | lia | done |].
  rewrite parent_mod, <- He by done.
  destruct (decide (i ≤ Z.log2 y)); [apply mod_pow_le; lia |].
  pose proof (mod_pow_le h (Z.log2 y + 1) i). lia.
Qed.
Lemma full_mask_pow y : 1 < y → full_mask y = 2 ^ (Z.log2 y + 1) - 1.
Proof.
  intros Hy. pose proof (log2_ge_1 y Hy). unfold full_mask, parent_mask.
  rewrite Z.shiftl_1_l, Z.shiftl_mul_pow2, Z.pow_1_r by lia.
  assert (Hl : Z.land ((2 ^ Z.log2 y - 1) * 2) 1 = 0).
  { change 1 with (Z.ones 1) at 2. rewrite Z.land_ones by lia. apply Z.mod_mul. lia. }
  rewrite <- Z.lxor_lor, <- Z.add_nocarry_lxor by done. rewrite Z.pow_add_r by lia. lia.
Qed.
Lemma full_mask_path h y : 1 < y → Z.land h (full_mask y) = y ↔ on_path h y.
Proof.
  intros Hy. pose proof (log2_ge_1 y Hy). rewrite full_mask_pow, land_pow_mask by lia. split.
  - intros He. exists (Z.log2 y + 1). split; [lia | done].
  - intros Hp. destruct (Z.log2_spec y); [lia |]. by apply (on_path_bits h y (Z.log2 y)); [| lia |].
Qed.

(** [check_rehashing_collision] looks at the next bucket of the hash code. *)
Lemma next_bit_spec fuel h i : 0 ≤ h → 0 ≤ i →
  ∃ b, i ≤ b ≤ i + Z.of_nat fuel ∧ next_bit fuel h (2 ^ i) = 2 ^ b ∧ h mod 2 ^ b = h mod 2 ^ i
    ∧ (b < i + Z.of_nat fuel → Z.testbit h b = true).
Proof.
  intros Hh. revert i. induction fuel as [| fuel IH]; intros i Hi; simpl.
  { exists i. split_and!; [lia | lia | done | done | lia]. }
  assert (Ht : Z.land h (2 ^ i) = (if Z.testbit h i then 2 ^ i else 0)).
  { apply Z.bits_inj'. intros m ?. rewrite Z.land_spec, Z.pow2_bits_eqb by done.
    destruct (Z.eqb_spec i m) as [<- |].
    - destruct (Z.testbit h i); [by rewrite Z.pow2_bits_true by done | by rewrite Z.bits_0].
    - rewrite andb_false_r. destruct (Z.testbit h i); [by rewrite Z.pow2_bits_false by done | by rewrite Z.bits_0]. }
  rewrite Ht. destruct (Z.testbit h i) eqn:Hb.
  - destruct (Z.eqb_spec (2 ^ i) 0); [lia |]. exists i. split_and!; [lia | lia | done | done | done].
  - rewrite Z.eqb_refl, Z.shiftl_mul_pow2 by lia. rewrite <- Z.pow_add_r by lia.
    destruct (IH (i + 1)) as (b & ? & -> & Hm & Ht'); [lia |].
    exists b. split_and!; [lia | lia | done | | intros; apply Ht'; lia].
    rewrite Hm. rewrite !Z.mod_eq, Z.pow_add_r, <- Zdiv.Zdiv_Zdiv by lia.
    rewrite Z.testbit_eqb in Hb by done. apply Z.eqb_neq in Hb.
    assert ((h / 2 ^ i) mod 2 = 0) by (pose proof (Z.mod_pos_bound (h / 2 ^ i) 2); lia).
    rewrite Z.pow_1_r. pose proof (Z.div_mod (h / 2 ^ i) 2). nia.
Qed.
Lemma collision_bucket_path h i j : 0 ≤ h → 1 ≤ i ≤ j → h mod 2 ^ i ≠ h mod 2 ^ j →
  let c := collision_bucket h (2 ^ i - 1) (2 ^ j - 1) in
  on_path h c ∧ h mod 2 ^ i < c < 2 ^ j ∧ ∀ y, on_path h y → h mod 2 ^ i < y → c ≤ y.
Proof.
  intros Hh Hij Hne. unfold collision_bucket. rewrite !Z.sub_add, Z.log2_pow2 by lia.
  destruct (next_bit_spec (Z.to_nat j) h i) as (b & Hb & -> & Hm & Ht); [lia | lia |].
  rewrite Z2Nat.id in * by lia. rewrite Z.shiftl_mul_pow2, <- Z.pow_add_r, land_pow_mask by lia.
  assert (Hbj : b < j).
  { destruct (decide (b < j)); [done |]. destruct Hne.
    pose proof (mod_pow_le h i j). pose proof (mod_pow_le h j b). lia. }
  specialize (Ht ltac:(lia)).
  assert (Hbit : h mod 2 ^ (b + 1) = h mod 2 ^ b + 2 ^ b).
  { rewrite !Z.mod_eq, Z.pow_add_r, <- Zdiv.Zdiv_Zdiv by lia. rewrite Z.testbit_eqb in Ht by lia. apply Z.eqb_eq in Ht.
    rewrite Z.pow_1_r. pose proof (Z.div_mod (h / 2 ^ b) 2). nia. }
  assert (0 < 2 ^ b) by lia. split; [by exists (b + 1); split; [lia |] |]. split; [split |].
  - lia.
  - pose proof (mod_pow_le h (b + 1) j). pose proof (Z.mod_pos_bound h (2 ^ j)). lia.
  - intros y (l & ? & ->) Hy. destruct (decide (b + 1 ≤ l)); [apply mod_pow_le; lia |].
    pose proof (mod_pow_le h l b). lia.
Qed.

End hash_map.
End HashMap.
