(* ===== verification/HashMapTheorems.v ===== *)
(** * concurrent_hash_map: its theorems

    The invariant of the model of [HashMap]: the exclusion of the locks, the growth
    of the table, the state of the buckets, the ownership of the nodes, the bucket
    each node is in, the accessors, and what a thread knows at its place.  The
    operations take effect in the order of the log as those of a sequential map;
    no deleted node is used. *)

From S2P Require Import Prelude HashMap.
From stdpp Require Import base numbers relations gmap list.
From Stdlib Require Import ZArith Lia.
Local Open Scope Z_scope.

Module HashMapInv.
Import HashMap.
Section hash_map.
Context {K : Type} `{Countable K} (hash : K → Z) (hash_nonneg : ∀ k, 0 ≤ hash k).
Implicit Types (σ : state (K:=K)) (t : thread (K:=K)) (p : place (K:=K)) (o : op (K:=K)) (bs : gmap Z bucket) (ns : gmap nat K)
  (ths : list (thread (K:=K))) (x y : Z) (n : nat).

(** *** What a state is made of *)
Definition chain bs x : option (list nat) := b ← bs !! x; node_list b.
Definition is_settled bs x : Prop := ∃ b, bs !! x = Some b ∧ settled b = true.
Definition marked bs x : Prop := is_Some (chain bs x).
Definition contents bs : list nat := map_to_list bs ≫= λ b, default [] (node_list b.2).
(** The bucket in which the items with the hash code [h] are *)
Definition home bs (h x : Z) : Prop := is_settled bs x ∧ on_path h x ∧ ∀ y, is_settled bs y → on_path h y → y ≤ x.

Definition todo_of p : list Z :=
  match p with
  | AcqCheck _ todo _ _ | AcqTry _ todo _ _ | AcqLock _ todo _ _ | AcqRecheck _ todo _ | Acquired _ todo _ _ => todo
  | _ => []
  end.
Definition tmp_of p : list nat := match op_of p with Some o => option_list (o_tmp o) | None => [] end.
Definition del_of p : list nat := match p with DeleteItem _ n => [n] | _ => [] end.
Definition fresh_of p : list nat := match p with Added _ _ n _ | Exists _ _ _ n true _ => [n] | _ => [] end.
(** The growth of the table that the thread is in charge of *)
Inductive growing := NoGrowth | Enabling (k : Z) | Storing (sz : Z).
Definition growing_of p : growing :=
  match p with
  | Exists _ _ _ _ _ grow | Growth _ _ _ grow => if decide (grow = 0) then NoGrowth else Enabling grow
  | StoreMask _ _ _ sz => Storing sz
  | _ => NoGrowth
  end.
(** The operation of the thread has taken effect and has not returned. *)
Definition pending_of (i : nat) p : list (event (K:=K)) :=
  match p with
  | Added o _ n _ | Exists o _ _ n true _ => [Event i (o_key o) (Inserted n)]
  | Growth o n inserted _ | StoreMask o n inserted _ => [Event i (o_key o) (lookup_answer o inserted n)]
  | DeleteItem o n => [Event i (o_key o) (Erased n)]
  | _ => []
  end.
Definition view (i : nat) p := (tmp_of p, del_of p, fresh_of p, growing_of p, pending_of i p, op_accessor p).

(** *** Lists of threads *)
Lemma others_perm i t ths : ths !! i = Some t → ths ≡ₚ t :: others i ths.
Proof. intros ?. unfold others. rewrite Permutation_middle. by rewrite take_drop_middle. Qed.
Lemma others_insert i t ths : others i (<[i := t]> ths) = others i ths.
Proof. unfold others. rewrite take_insert_ge, drop_insert_lt by lia. done. Qed.
Lemma elem_of_others i t t' ths : ths !! i = Some t → t' ∈ others i ths ↔ ∃ j, j ≠ i ∧ ths !! j = Some t'.
Proof.
  intros Hi. unfold others. rewrite elem_of_app, !list_elem_of_lookup. split.
  - intros [(j & Hj) | (j & Hj)].
    + apply lookup_take_Some in Hj as [? ?]. exists j. split; [lia | done].
    + rewrite lookup_drop in Hj. exists (S i + j)%nat. split; [lia | done].
  - intros (j & ? & Hj). destruct (decide (j < i)%nat).
    + left. exists j. rewrite lookup_take_lt by lia. done.
    + right. exists (j - S i)%nat. rewrite lookup_drop. rewrite <- Hj. f_equal. lia.
Qed.
Lemma threads_bind_perm {A} (f : thread (K:=K) → list A) i t t' ths : ths !! i = Some t →
  (ths ≫= f) ≡ₚ f t ++ (others i ths ≫= f) ∧ (<[i := t']> ths ≫= f) ≡ₚ f t' ++ (others i ths ≫= f).
Proof.
  intros Hi. split; [by rewrite (others_perm i t ths Hi) at 1 |].
  rewrite (others_perm i t' (<[i := t']> ths)), others_insert; [done |].
  apply list_lookup_insert_eq. by eapply lookup_lt_Some.
Qed.

(** *** Locks *)
Lemma conflicts_true x w l : conflicts x w l = true ↔ ∃ w', (x, w') ∈ l ∧ (w || w') = true.
Proof.
  unfold conflicts. rewrite existsb_exists. split.
  - intros ([x' w'] & Hin & Hc). apply andb_true_iff in Hc as [Hx%bool_decide_eq_true ?].
    simpl in *. subst x'. exists w'. by rewrite list_elem_of_In.
  - intros (w' & Hin & ?). exists (x, w'). rewrite <- list_elem_of_In. split; [done |].
    apply andb_true_iff. by rewrite bool_decide_eq_true.
Qed.
Lemma lock_available_true i t x w σ : threads σ !! i = Some t → lock_available i x w σ = true ↔
  ∀ j t' w', j ≠ i → threads σ !! j = Some t' → (x, w') ∈ bucket_locks (pl t') → (w || w') = false.
Proof.
  intros Hi. unfold lock_available. rewrite negb_true_iff, <- not_true_iff_false, existsb_exists. split.
  - intros Hn j t' w' Hj Hl Hin. apply not_true_iff_false. intros Hc. destruct Hn. exists t'. split.
    + apply list_elem_of_In, (elem_of_others i t); [done |]. by exists j.
    + apply conflicts_true. by exists w'.
  - intros Ha (t' & Hin & Hc). apply list_elem_of_In, (elem_of_others i t) in Hin as (j & ? & Hl); [| done].
    apply conflicts_true in Hc as (w' & ? & Hw). rewrite (Ha j t' w') in Hw; done.
Qed.
Lemma lock_taken i t x w σ : threads σ !! i = Some t → lock_available i x w σ = false →
  ∃ j t' w', j ≠ i ∧ threads σ !! j = Some t' ∧ (x, w') ∈ bucket_locks (pl t').
Proof.
  intros Hi. unfold lock_available. rewrite negb_false_iff, existsb_exists. intros (t' & Hin & Hc).
  apply list_elem_of_In, (elem_of_others i t) in Hin as (j & ? & Hl); [| done].
  apply conflicts_true in Hc as (w' & ? & _). by exists j, t', w'.
Qed.

(** *** Chains *)
Lemma search_bucket_found (k : K) l ns n : search_bucket k l ns = Some (Some n) → n ∈ l ∧ ns !! n = Some k.
Proof.
  induction l as [| n' l IH]; simpl; [done |]. destruct (ns !! n') as [k' |] eqn:Hk; simpl; [| done].
  case_decide as Hd; [intros; simplify_eq; by split; [left |] |]. intros [? ?]%IH. by split; [right |].
Qed.
Lemma search_bucket_absent (k : K) l ns : search_bucket k l ns = Some None → ∀ n, n ∈ l → ns !! n ≠ Some k.
Proof.
  induction l as [| n' l IH]; simpl; [intros _ n Hn; inversion Hn |].
  destruct (ns !! n') as [k' |] eqn:Hk; simpl; [| done].
  case_decide as Hd; [done |]. intros Hs n [-> | Hn]%elem_of_cons; [congruence | by apply IH].
Qed.
Lemma search_bucket_total (k : K) l ns : (∀ n, n ∈ l → is_Some (ns !! n)) → is_Some (search_bucket k l ns).
Proof.
  induction l as [| n l IH]; intros Ha; simpl; [done |]. destruct (Ha n) as [k' ->]; [left |]. simpl.
  case_decide; [done |]. apply IH. intros. apply Ha. by right.
Qed.
Lemma search_node_spec n l ns r : search_node n l ns = Some r → r = true ↔ n ∈ l.
Proof.
  induction l as [| n' l IH]; simpl; [intros; simplify_eq; by rewrite elem_of_nil |].
  case_decide as Hd; [intros; simplify_eq; by split; [left |] |].
  destruct (ns !! n'); simpl; [| done]. intros ->%IH. rewrite elem_of_cons. split; [by right | intros [? | ?]; [by subst | done]].
Qed.
Lemma search_node_total n l ns : (∀ n, n ∈ l → is_Some (ns !! n)) → is_Some (search_node n l ns).
Proof.
  induction l as [| n' l IH]; intros Ha; simpl; [done |]. case_decide; [done |].
  destruct (Ha n') as [k' ->]; [left |]. simpl. apply IH. intros. apply Ha. by right.
Qed.
Lemma split_chain_spec y l ns moved rest : 1 < y → split_chain hash y l ns = Some (moved, rest) →
  l ≡ₚ moved ++ rest ∧ (∀ n, n ∈ moved → ∃ k, ns !! n = Some k ∧ on_path (hash k) y)
    ∧ ∀ n, n ∈ rest → ∃ k, ns !! n = Some k ∧ ¬ on_path (hash k) y.
Proof.
  intros Hy. revert moved rest. induction l as [| n l IH]; intros moved rest; simpl.
  { intros; simplify_eq. split; [done |]. split; intros n Hn; inversion Hn. }
  destruct (ns !! n) as [k |] eqn:Hk; simpl; [| done].
  destruct (split_chain hash y l ns) as [[m r] |]; simpl; [| done].
  destruct (IH m r eq_refl) as (Hp & Hm & Hr). case_decide as Hd; intros; simplify_eq.
  - split; [by rewrite Hp |]. split; [| done]. intros n' [-> | ?]%elem_of_cons; [| by apply Hm].
    exists k. split; [done |]. by apply full_mask_path.
  - split; [by rewrite Hp, Permutation_middle |]. split; [done |]. intros n' [-> | ?]%elem_of_cons; [| by apply Hr].
    exists k. split; [done |]. by rewrite <- full_mask_path.
Qed.
Lemma split_chain_total y l ns : (∀ n, n ∈ l → is_Some (ns !! n)) → is_Some (split_chain hash y l ns).
Proof.
  induction l as [| n l IH]; intros Ha; simpl; [done |]. destruct (Ha n) as [k' ->]; [left |]. simpl.
  destruct IH as [[m r] ->]; [intros; apply Ha; by right |]. simpl. done.
Qed.

(** *** The nodes of the buckets *)
Lemma elem_of_contents bs n : n ∈ contents bs ↔ ∃ x l, chain bs x = Some l ∧ n ∈ l.
Proof.
  unfold contents, chain. rewrite list_elem_of_bind. split.
  - intros ([x b] & Hn & Hb%elem_of_map_to_list). simpl in *. destruct (node_list b) as [l |] eqn:Hl; [| inversion Hn].
    exists x, l. by rewrite Hb.
  - intros (x & l & Hl & Hn). destruct (bs !! x) as [b |] eqn:Hb; simpl in Hl; [| done].
    exists (x, b). simpl. rewrite Hl. split; [done |]. by apply elem_of_map_to_list.
Qed.
Lemma contents_split bs x b : bs !! x = Some b → contents bs ≡ₚ default [] (node_list b) ++ contents (delete x bs).
Proof.
  intros Hb. unfold contents. rewrite <- (insert_delete_id bs x b Hb) at 1.
  rewrite map_to_list_insert by apply lookup_delete_eq. done.
Qed.
Lemma contents_insert bs x b : contents (<[x := b]> bs) ≡ₚ default [] (node_list b) ++ contents (delete x bs).
Proof.
  rewrite (contents_split (<[x := b]> bs) x b) by apply lookup_insert_eq. by rewrite delete_insert_eq.
Qed.
Lemma contents_move bs x y bx by_ l moved rest ly s : x ≠ y → bs !! x = Some bx → bs !! y = Some by_ →
  node_list bx = Some l → node_list by_ = Some ly → l ≡ₚ moved ++ rest →
  contents (<[y := Bucket (Some (rev moved ++ ly)) true]> (<[x := Bucket (Some rest) s]> bs)) ≡ₚ contents bs.
Proof.
  intros Hne Hx Hy Hlx Hly Hp. rewrite contents_insert, delete_insert_ne by done. simpl.
  rewrite contents_insert. simpl. rewrite (contents_split bs x bx Hx), Hlx. simpl. rewrite Hp.
  rewrite delete_delete, (contents_split (delete x bs) y by_) by (by rewrite lookup_delete_ne). rewrite Hly. simpl.
  rewrite <- Permutation_rev. solve_Permutation.
Qed.
(** *** The invariant *)
(** The exclusion of the bucket locks *)
Definition locks_ok ths : Prop := ∀ i j t t' x w, i ≠ j → ths !! i = Some t → ths !! j = Some t' →
  (x, true) ∈ bucket_locks (pl t) → (x, w) ∉ bucket_locks (pl t').

(** The table has [2 ^ c] buckets; its segments below [c] are valid, and the next one
    is allocated by at most one thread. *)
Definition growth_ok bs (mask : Z) (table : gmap Z segment) ths : Prop := ∃ c j,
  (1 ≤ j ≤ c ∧ mask = 2 ^ j - 1 ∧ (c = 1 ∨ first_block ≤ c))
  ∧ (∀ x, is_Some (bs !! x) ↔ 0 ≤ x < 2 ^ c)
  ∧ (∀ s, 0 ≤ s < c → table !! s = Some Valid) ∧ (∀ s, c < s → table !! s = None) ∧ table !! c ≠ Some Valid
  ∧ (∀ i t, ths !! i = Some t → match growing_of (pl t) with
       | NoGrowth => True
       | Enabling k => k = c ∧ j = c ∧ table !! c = Some Allocating
       | Storing sz => sz = 2 ^ c ∧ j < c ∧ table !! c = None
       end ∧ (growing_of (pl t) = NoGrowth ∨ ∀ i' t', i' ≠ i → ths !! i' = Some t' → growing_of (pl t') = NoGrowth))
  ∧ (j < c → ∃ i t, ths !! i = Some t ∧ growing_of (pl t) = Storing (2 ^ c)).

Definition buckets_ok bs (mask : Z) ths : Prop :=
  (is_settled bs 0 ∧ is_settled bs 1)
  ∧ (∀ x, is_settled bs x → marked bs x)
  ∧ (∀ x, marked bs x → x ≤ mask)
  ∧ (∀ x l, chain bs x = Some l → is_settled bs x ∨ l = [] ∧ ∃ t, t ∈ ths ∧ x ∈ todo_of (pl t))
  ∧ (∀ y, is_settled bs y → 1 < y → is_settled bs (parent y)).

(** A thread waits only for a bucket that is rehashed or being rehashed. *)
Definition waits_ok bs ths : Prop := ∀ t o todo x w, t ∈ ths → pl t = AcqLock o todo x w →
  marked bs x ∨ ∃ t' o' todo', t' ∈ ths ∧ pl t' = AcqRecheck o' todo' x.

(** Each node is in one bucket, or is the new node of a thread, or will be deleted by
    a thread. *)
Definition tmps ths : list nat := ths ≫= λ t, tmp_of (pl t).
Definition dels ths : list nat := ths ≫= λ t, del_of (pl t).
Definition live bs ths : list nat := contents bs ++ tmps ths ++ dels ths.
Definition nodes_ok bs ns ths : Prop := NoDup (live bs ths) ∧ ∀ n, n ∈ live bs ths → is_Some (ns !! n).

Definition home_ok bs ns : Prop := ∀ x l n k, chain bs x = Some l → n ∈ l → ns !! n = Some k → home bs (hash k) x.

(** Two accessors of an item are both readers. *)
Fixpoint exclusive (l : list accessor) : Prop :=
  match l with
  | [] => True
  | a :: l => (∀ b, b ∈ l → my_node b = my_node a → is_writer a = false ∧ is_writer b = false) ∧ exclusive l
  end.
Definition accessors_ok bs ns ths : Prop :=
  exclusive (all_accessors ths)
  ∧ (∀ a, a ∈ all_accessors ths → my_node a ∈ contents bs ++ dels ths ∧ ∃ k, ns !! my_node a = Some k ∧ hash k = my_hash a)
  ∧ (∀ t n a, t ∈ ths → n ∈ fresh_of (pl t) → a ∈ all_accessors ths → my_node a ≠ n).

(** What a thread knows of its operation *)
Definition op_ok ns o : Prop :=
  o_hash o = hash (o_key o)
  ∧ match o_kind o with Exclude a => my_hash a = o_hash o ∧ ns !! my_node a = Some (o_key o) | _ => True end
  ∧ match o_tmp o with Some n => o_kind o = Insert ∧ ns !! n = Some (o_key o) | None => True end.
Definition mask_ok (mask : Z) o : Prop := ∃ j, 1 ≤ j ∧ o_mask o = 2 ^ j - 1 ∧ o_mask o ≤ mask.
(** The bucket [x] is acquired for the rehash of the first of [todo], and so on up to
    the bucket of the operation. *)
Fixpoint path_to o x (todo : list Z) : Prop :=
  match todo with
  | [] => x = Z.land (o_hash o) (o_mask o)
  | y :: todo => 1 < y ∧ x = parent y ∧ path_to o y todo
  end.
Definition todo_ok bs (todo : list Z) : Prop := ∀ y, y ∈ todo → bs !! y = Some (Bucket (Some []) false).
Definition absent ns o (l : list nat) : Prop :=
  match o_kind o with Exclude a => my_node a ∉ l | _ => ∀ n, n ∈ l → ns !! n ≠ Some (o_key o) end.
Definition at_bucket bs x (P : list nat → Prop) : Prop := ∃ l, bs !! x = Some (Bucket (Some l) true) ∧ P l.
(** The bucket is that of the mask; or its writer knows that the items are there. *)
Definition located bs o x (w : bool) : Prop :=
  x = Z.land (o_hash o) (o_mask o) ∨ w = true ∧ home bs (o_hash o) x.
Definition inserting o : Prop := o_kind o = Insert ∧ is_Some (o_tmp o).
Definition acquiring bs mask ns o (todo : list Z) x (w : bool) : Prop :=
  op_ok ns o ∧ mask_ok mask o ∧ path_to o x todo ∧ todo_ok bs todo ∧ (todo = [] → is_exclude o = true → w = true).
(** The search of the operation in the bucket has failed or was given up. *)
Definition checking bs mask ns o x (w : bool) (why : reason) : Prop :=
  op_ok ns o ∧ mask_ok mask o ∧ at_bucket bs x (λ l, why = NotFound → absent ns o l)
  ∧ (o_kind o = Insert → why = NotFound ∧ w = true ∧ is_Some (o_tmp o)) ∧ (why = Contended → o_kind o = Erase ∧ w = true).
Definition place_ok bs mask ns p : Prop :=
  match p with
  | Idle => True
  | LoadMask o => op_ok ns o
  | AcqCheck o todo x w | AcqTry o todo x w | AcqLock o todo x w => acquiring bs mask ns o todo x w
  | AcqRecheck o todo x => acquiring bs mask ns o todo x true
  | Acquired o todo x w =>
      op_ok ns o ∧ mask_ok mask o ∧ at_bucket bs x (λ _, True) ∧ todo_ok bs todo ∧ (todo = [] → is_exclude o = true → w = true)
      ∧ match todo with [] => located bs o x w | _ => path_to o x todo end
  | Upgrade o x =>
      op_ok ns o ∧ mask_ok mask o ∧ x = Z.land (o_hash o) (o_mask o)
      ∧ (at_bucket bs x (absent ns o) ∧ inserting o ∨ at_bucket bs x (λ _, True) ∧ o_kind o = Erase)
  | Reacquire o x =>
      op_ok ns o ∧ mask_ok mask o ∧ x = Z.land (o_hash o) (o_mask o) ∧ is_settled bs x ∧ (inserting o ∨ o_kind o = Erase)
  | SearchAgain o x =>
      op_ok ns o ∧ mask_ok mask o ∧ x = Z.land (o_hash o) (o_mask o) ∧ at_bucket bs x (λ _, True) ∧ inserting o
  | CheckMask o x w why => checking bs mask ns o x w why ∧ located bs o x w
  | CheckFlag o x w why y =>
      checking bs mask ns o x w why ∧ 0 ≤ y ≤ mask
      ∧ (w = true ∧ home bs (o_hash o) x
         ∨ on_path (o_hash o) x ∧ on_path (o_hash o) y ∧ x < y ∧ ∀ z, on_path (o_hash o) z → x < z → y ≤ z)
  | Checked o x => op_ok ns o ∧ mask_ok mask o ∧ at_bucket bs x (absent ns o) ∧ inserting o ∧ home bs (o_hash o) x
  | Added o x n _ => op_ok ns o ∧ mask_ok mask o ∧ at_bucket bs x (λ l, n ∈ l) ∧ ns !! n = Some (o_key o) ∧ o_kind o = Insert
  | Exists o x w n inserted grow =>
      op_ok ns o ∧ at_bucket bs x (λ l, n ∈ l) ∧ ns !! n = Some (o_key o) ∧ (o_kind o = Find ∨ o_kind o = Insert)
      ∧ (if inserted then w = true ∧ o_kind o = Insert else grow = 0)
  | Growth o _ inserted _ | StoreMask o _ inserted _ => op_ok ns o ∧ (o_kind o = Find ∨ o_kind o = Insert)
  | DeleteItem o n => op_ok ns o ∧ match o_kind o with Erase => True | Exclude a => my_node a = n | _ => False end
  end.
Definition places_ok bs mask ns ths : Prop := ∀ i t, ths !! i = Some t → place_ok bs mask ns (pl t).

(** The log is a history of a sequential map, whose contents are the nodes in the
    buckets. *)
Definition apply_event (m : gmap K nat) (e : event (K:=K)) : option (gmap K nat) :=
  let k := ev_key e in
  match ev_answer e with
  | Found n | Present n => if decide (m !! k = Some n) then Some m else None
  | Absent | NotErased => if decide (m !! k = None) then Some m else None
  | Inserted n => if decide (m !! k = None) then Some (<[k := n]> m) else None
  | Erased n => if decide (m !! k = Some n) then Some (delete k m) else None
  | NotExcluded n => if decide (m !! k = Some n) then None else Some m
  end.
Fixpoint replay (m : gmap K nat) (l : list (event (K:=K))) : option (gmap K nat) :=
  match l with [] => Some m | e :: l => m ← apply_event m e; replay m l end.
Definition represents bs ns (m : gmap K nat) : Prop := ∀ k n, m !! k = Some n ↔ n ∈ contents bs ∧ ns !! n = Some k.
Definition log_ok bs ns lg : Prop := ∃ m, replay ∅ lg = Some m ∧ represents bs ns m.
(** A thread's operations in the log are those that have returned and possibly the
    one it is in. *)
Definition of_thread (i : nat) (l : list (event (K:=K))) : list event := filter (λ e, ev_thread e = i) l.
Definition history_ok (lg rt : list (event (K:=K))) ths : Prop := ∀ i t, ths !! i = Some t →
  of_thread i lg = of_thread i rt ++ pending_of i (pl t).

Record inv σ : Prop := Inv {
  inv_locks : locks_ok (threads σ);
  inv_growth : growth_ok (buckets σ) (my_mask σ) (my_table σ) (threads σ);
  inv_buckets : buckets_ok (buckets σ) (my_mask σ) (threads σ);
  inv_waits : waits_ok (buckets σ) (threads σ);
  inv_nodes : nodes_ok (buckets σ) (nodes σ) (threads σ);
  inv_home : home_ok (buckets σ) (nodes σ);
  inv_accessors : accessors_ok (buckets σ) (nodes σ) (threads σ);
  inv_places : places_ok (buckets σ) (my_mask σ) (nodes σ) (threads σ);
  inv_log : log_ok (buckets σ) (nodes σ) (log σ);
  inv_history : history_ok (log σ) (returned σ) (threads σ);
  inv_size : my_size σ = Z.of_nat (length (contents (buckets σ)));
}.

(** *** A thread goes to another place *)
Section moves.
Context (i : nat) (t t' : thread (K:=K)) (ths : list (thread (K:=K))) (Hi : ths !! i = Some t).

Lemma locks_move σ : threads σ = ths → locks_ok ths →
  (∀ x w, (x, w) ∈ bucket_locks (pl t') → (x, w) ∈ bucket_locks (pl t) ∨ lock_available i x w σ = true) →
  locks_ok (<[i := t']> ths).
Proof.
  intros <- Hl Hn j j' t1 t2 x w Hne H1 H2 Hx Hw.
  apply (insert_lookup_inv i j t) in H1 as [[-> ->] | [? H1]]; [.. | done];
    apply (insert_lookup_inv i j' t) in H2 as [[-> ->] | [? H2]]; try done.
  - destruct (Hn _ _ Hx) as [Hx' | Ha]; [by apply (Hl i j' t t2 x w) |].
    rewrite (lock_available_true i t) in Ha by done. by specialize (Ha j' t2 w ltac:(done) H2 Hw).
  - destruct (Hn _ _ Hw) as [Hw' | Ha]; [by apply (Hl j i t1 t x w) |].
    rewrite (lock_available_true i t) in Ha by done. specialize (Ha j t1 true ltac:(done) H1 Hx).
    by rewrite orb_true_r in Ha.
  - by apply (Hl j j' t1 t2 x w).
Qed.

Lemma growth_move bs mask table : growing_of (pl t') = growing_of (pl t) →
  growth_ok bs mask table ths → growth_ok bs mask table (<[i := t']> ths).
Proof.
  intros He (c & j & Hj & Hb & H1 & H2 & H3 & Ht & Hs). exists c, j. do 5 (split; [done |]). split.
  - intros i1 t1 [[-> ->] | [? H4]]%(insert_lookup_inv i i1 t); [.. | done].
    + rewrite He. destruct (Ht i t Hi) as [Hm Hu]. split; [done |]. destruct Hu as [Hu | Hu]; [by left |].
      right. intros i2 t2 ? [[-> ->] | [? ?]]%(insert_lookup_inv i i2 t); [done | by eapply Hu | done].
    + destruct (Ht i1 t1 H4) as [Hm Hu]. split; [done |]. destruct Hu as [Hu | Hu]; [by left |].
      right. intros i2 t2 ? [[-> ->] | [? ?]]%(insert_lookup_inv i i2 t); [rewrite He; by eapply Hu | by eapply Hu | done].
  - intros Hlt. destruct (Hs Hlt) as (i1 & t1 & H4 & ?). destruct (decide (i1 = i)) as [-> |].
    + exists i, t'. simplify_eq. rewrite He. split; [| done]. apply list_lookup_insert_eq. by eapply lookup_lt_Some.
    + exists i1, t1. by rewrite list_lookup_insert_ne.
Qed.

Lemma buckets_move bs mask : (∀ x, x ∈ todo_of (pl t) → x ∈ todo_of (pl t')) →
  buckets_ok bs mask ths → buckets_ok bs mask (<[i := t']> ths).
Proof.
  intros Hsub (H0 & H1 & H2 & H3 & H4). do 3 (split; [done |]). split; [| done].
  intros x l Hl. destruct (H3 x l Hl) as [? | (-> & t1 & Hin & Hx)]; [by left |]. right. split; [done |].
  destruct (elem_of_insert_old ths i t t' t1 Hi Hin) as [-> |].
  - exists t'. split; [by eapply elem_of_insert_new | by apply Hsub].
  - by exists t1.
Qed.

Lemma waits_move bs : waits_ok bs ths →
  (∀ o todo x, pl t = AcqRecheck o todo x → marked bs x) →
  (∀ o todo x w, pl t' = AcqLock o todo x w →
     marked bs x ∨ ∃ t1 o' todo', t1 ∈ others i ths ∧ pl t1 = AcqRecheck o' todo' x) →
  waits_ok bs (<[i := t']> ths).
Proof.
  intros Hw Hr Hl t1 o todo x w Hin Hp.
  assert (marked bs x ∨ ∃ t1 o' todo', (t1 ∈ others i ths ∨ t1 = t) ∧ pl t1 = AcqRecheck o' todo' x) as [? | (t2 & o' & td & Ho & Hp2)].
  { apply elem_of_insert_inv in Hin as [-> | Hin].
    - destruct (Hl _ _ _ _ Hp) as [? | (t2 & o' & td & ? & ?)]; [by left |]. right. exists t2, o', td. split; [by left | done].
    - destruct (Hw _ _ _ _ _ Hin Hp) as [? | (t2 & o' & td & Ht2 & ?)]; [by left |]. right. exists t2, o', td. split; [| done].
      rewrite (others_perm i t ths Hi), elem_of_cons in Ht2. tauto. }
  { by left. }
  destruct Ho as [Ho | ->]; [| left; by eapply Hr]. right. exists t2, o', td. split; [| done].
  apply (elem_of_others i t) in Ho as (j & ? & Hj); [| done]. apply list_elem_of_lookup. exists j. by rewrite list_lookup_insert_ne.
Qed.

Lemma tmps_perm : tmps ths ≡ₚ tmp_of (pl t) ++ tmps (others i ths) ∧ tmps (<[i := t']> ths) ≡ₚ tmp_of (pl t') ++ tmps (others i ths).
Proof. by apply (threads_bind_perm (λ t, tmp_of (pl t))). Qed.
Lemma dels_perm : dels ths ≡ₚ del_of (pl t) ++ dels (others i ths) ∧ dels (<[i := t']> ths) ≡ₚ del_of (pl t') ++ dels (others i ths).
Proof. by apply (threads_bind_perm (λ t, del_of (pl t))). Qed.
Lemma accessors_perm : all_accessors ths ≡ₚ accessors t ++ all_accessors (others i ths)
  ∧ all_accessors (<[i := t']> ths) ≡ₚ accessors t' ++ all_accessors (others i ths).
Proof. by apply (threads_bind_perm accessors). Qed.
Lemma live_same bs : tmp_of (pl t') = tmp_of (pl t) → del_of (pl t') = del_of (pl t) → live bs (<[i := t']> ths) ≡ₚ live bs ths.
Proof.
  intros He He'. unfold live. destruct tmps_perm as [-> ->], dels_perm as [-> ->]. by rewrite He, He'.
Qed.
Lemma nodes_move bs ns : tmp_of (pl t') = tmp_of (pl t) → del_of (pl t') = del_of (pl t) →
  nodes_ok bs ns ths → nodes_ok bs ns (<[i := t']> ths).
Proof. intros He He' [Hd Ha]. unfold nodes_ok. setoid_rewrite (live_same bs He He'). done. Qed.

Lemma history_move lg rt : pending_of i (pl t') = pending_of i (pl t) → history_ok lg rt ths → history_ok lg rt (<[i := t']> ths).
Proof.
  intros He Hh j t1 [[-> ->] | [? H1]]%(insert_lookup_inv i j t); [.. | done]; [| by apply Hh].
  rewrite He. by apply Hh.
Qed.
Lemma places_move bs bs' mask mask' ns ns' : places_ok bs mask ns ths → place_ok bs' mask' ns' (pl t') →
  (∀ j t1, j ≠ i → ths !! j = Some t1 → place_ok bs mask ns (pl t1) → place_ok bs' mask' ns' (pl t1)) →
  places_ok bs' mask' ns' (<[i := t']> ths).
Proof.
  intros Hp Hn Ho j t1 [[-> ->] | [? H1]]%(insert_lookup_inv i j t); [done | | done]. eapply Ho; [done.. |]. by eapply Hp.
Qed.
End moves.

#[export] Instance exclusive_proper : Proper ((≡ₚ) ==> iff) exclusive.
Proof.
  assert (Hs : ∀ l k, l ≡ₚ k → exclusive l → exclusive k).
  { induction 1 as [| a l k Hp IH | a b l | l k m _ IH1 _ IH2]; simpl; [done | | | auto].
    - intros [Ha He]. split; [| auto]. intros b. rewrite <- Hp. apply Ha.
    - intros (Ha & Hb & He). split_and!; [| | done].
      + intros c [-> | Hc]%elem_of_cons Hn; [destruct (Ha a); [left | done | done] | by apply Hb].
      + intros c Hc. apply Ha. by right. }
  intros l k Hp. split; apply Hs; [done | by symmetry].
Qed.
Lemma exclusive_app l k : exclusive (l ++ k) → exclusive k.
Proof. induction l; simpl; [done | tauto]. Qed.

Lemma accessors_move bs ns i t t' ths : ths !! i = Some t → accessors t' ≡ₚ accessors t →
  del_of (pl t') = del_of (pl t) → fresh_of (pl t') = fresh_of (pl t) →
  accessors_ok bs ns ths → accessors_ok bs ns (<[i := t']> ths).
Proof.
  intros Hi He Hd Hf (H1 & H2 & H3).
  assert (Hp : all_accessors (<[i := t']> ths) ≡ₚ all_accessors ths).
  { destruct (accessors_perm i t t' ths Hi) as [-> ->]. by rewrite He. }
  assert (Hpd : dels (<[i := t']> ths) ≡ₚ dels ths).
  { destruct (dels_perm i t t' ths Hi) as [-> ->]. by rewrite Hd. }
  unfold accessors_ok. setoid_rewrite Hp. setoid_rewrite Hpd. split_and!; [done | done |].
  intros t1 n a [-> | Ht1]%elem_of_insert_inv Hn Ha; [| by eapply H3].
  rewrite Hf in Hn. eapply H3; [| done | done]. by eapply list_elem_of_lookup_2.
Qed.

(** *** What the other threads know stays true *)
Section stable.
Context (bs bs' : gmap Z bucket) (mask mask' : Z) (ns ns' : gmap nat K) (Hmask : mask ≤ mask').

Lemma mask_ok_stable o : mask_ok mask o → mask_ok mask' o.
Proof. intros (j & ? & ? & ?). exists j. split_and!; [done | done | lia]. Qed.
Lemma op_ok_stable o :
  (∀ n, n ∈ option_list (o_tmp o) ∨ n ∈ (my_node <$> match o_kind o with Exclude a => [a] | _ => [] end) → ns' !! n = ns !! n) →
  op_ok ns o → op_ok ns' o.
Proof.
  intros Hn (? & Hk & Ht). split; [done |]. split.
  - destruct (o_kind o) as [| | | a]; try done. rewrite Hn; [done |]. right. by left.
  - destruct (o_tmp o) as [n |]; [| done]. rewrite Hn; [done |]. left. by left.
Qed.
Lemma at_bucket_stable x P Q : bs' !! x = bs !! x → (∀ l, bs !! x = Some (Bucket (Some l) true) → P l → Q l) →
  at_bucket bs x P → at_bucket bs' x Q.
Proof. intros He HPQ (l & Hl & HP). exists l. rewrite He. auto. Qed.
Lemma contents_at x l n : bs !! x = Some (Bucket (Some l) true) → n ∈ l → n ∈ contents bs.
Proof. intros Hb Hn. apply elem_of_contents. exists x, l. unfold chain. by rewrite Hb. Qed.
Lemma absent_stable o x l : (∀ n, n ∈ contents bs → ns' !! n = ns !! n) → bs !! x = Some (Bucket (Some l) true) →
  absent ns o l → absent ns' o l.
Proof.
  unfold absent. intros Hn Hb. assert (Ha : ∀ n, n ∈ l → ns' !! n = ns !! n) by (intros; apply Hn; by eapply contents_at).
  destruct (o_kind o); try done; intros Hl n Hin; rewrite Ha by done; by apply Hl.
Qed.
Lemma todo_ok_stable todo : (∀ y, y ∈ todo → bs' !! y = bs !! y) → todo_ok bs todo → todo_ok bs' todo.
Proof. intros He Ht y Hy. rewrite He by done. by apply Ht. Qed.
Lemma located_stable o x w : (w = true → home bs (o_hash o) x → home bs' (o_hash o) x) → located bs o x w → located bs' o x w.
Proof. intros Hh [? | [? ?]]; [by left | right; auto]. Qed.
Lemma checking_stable o x w why : bs' !! x = bs !! x → (∀ n, n ∈ contents bs → ns' !! n = ns !! n) →
  (op_ok ns o → op_ok ns' o) → checking bs mask ns o x w why → checking bs' mask' ns' o x w why.
Proof.
  intros He Hn Ho (H1 & H2 & H3 & H4). split_and!; [auto | by apply mask_ok_stable | | tauto | tauto].
  eapply at_bucket_stable; [done | | done]. intros l Hl Ha Hw. eapply absent_stable; eauto.
Qed.

Lemma todo_locked p y : y ∈ todo_of p → (y, true) ∈ bucket_locks p.
Proof.
  assert (∀ todo, y ∈ todo → (y, true) ∈ ((λ y, (y, true)) <$> todo : list (Z * bool))) by (intros; apply list_elem_of_fmap; by exists y).
  destruct p; simpl; intros Hy; try (by inversion Hy); rewrite ?elem_of_cons; auto.
Qed.

Lemma place_stable p :
  (∀ x w, (x, w) ∈ bucket_locks p → bs' !! x = bs !! x) → (∀ x, is_settled bs x → is_settled bs' x) →
  (∀ h x, (x, true) ∈ bucket_locks p → home bs h x → home bs' h x) →
  (∀ n, n ∈ contents bs ∨ n ∈ tmp_of p ∨ n ∈ (my_node <$> op_accessor p) → ns' !! n = ns !! n) →
  place_ok bs mask ns p → place_ok bs' mask' ns' p.
Proof.
  intros Hb Hs Hh Hn Hp.
  assert (Hc : ∀ n, n ∈ contents bs → ns' !! n = ns !! n) by auto.
  assert (Ho : ∀ o, op_of p = Some o → op_ok ns o → op_ok ns' o).
  { intros o Ho. apply op_ok_stable. intros n Hin. apply Hn. right. unfold tmp_of, op_accessor. by rewrite Ho. }
  assert (Ht : todo_ok bs (todo_of p) → todo_ok bs' (todo_of p)).
  { apply todo_ok_stable. intros y Hy. eapply Hb. by apply todo_locked. }
  assert (Ha : ∀ o todo x w, op_of p = Some o → todo_of p = todo → acquiring bs mask ns o todo x w → acquiring bs' mask' ns' o todo x w).
  { intros o todo x w Hop <- (? & ? & ? & ? & ?). split_and!; eauto using mask_ok_stable. }
  destruct p; simpl in Hp, Ho, Ht |- *; try (by eauto); eauto 10 using mask_ok_stable.
  - destruct Hp as (? & ? & ? & ? & ? & Hl). split_and!; eauto using mask_ok_stable.
    + eapply at_bucket_stable; [eapply Hb; left | done | done].
    + destruct todo; [| done]. eapply located_stable; [| done]. intros ->. apply Hh. left.
  - destruct Hp as (? & ? & ? & Hl). split_and!; eauto using mask_ok_stable.
    assert (bs' !! x = bs !! x) by (eapply Hb; left).
    destruct Hl as [[? ?] | [? ?]]; [left | right]; (split; [| done]);
      (eapply at_bucket_stable; [done | | done]); [| done]. intros l Hl. by eapply absent_stable.
  - destruct Hp as (? & ? & ? & ? & ?). split_and!; eauto using mask_ok_stable.
  - destruct Hp as (? & ? & ? & ? & ?). split_and!; eauto using mask_ok_stable.
    eapply at_bucket_stable; [eapply Hb; left | done | done].
  - destruct Hp as (? & ?). split.
    + eapply checking_stable; eauto. eapply Hb. left.
    + eapply located_stable; [| done]. intros ->. apply Hh. left.
  - destruct Hp as (? & ? & Hl). split_and!; [| lia | lia |].
    + eapply checking_stable; eauto. eapply Hb. left.
    + destruct Hl as [[-> ?] | ?]; [left | by right]. split; [done |]. apply Hh; [left | done].
  - destruct Hp as (? & ? & ? & ? & ?). split_and!; eauto using mask_ok_stable.
    + eapply at_bucket_stable; [eapply Hb; left | | done]. intros l Hl. by eapply absent_stable.
    + apply Hh; [left | done].
  - destruct Hp as (? & ? & Hl & ? & ?). split_and!; eauto using mask_ok_stable.
    + eapply at_bucket_stable; [eapply Hb; left | | done]. done.
    + destruct Hl as (l & Hl & ?). rewrite Hc; [done |]. by eapply contents_at.
  - destruct Hp as (? & Hl & ? & ? & ?). split_and!; eauto using mask_ok_stable.
    + eapply at_bucket_stable; [eapply Hb; left | | done]. done.
    + destruct Hl as (l & Hl & ?). rewrite Hc; [done |]. by eapply contents_at.
  - destruct Hp as (? & ?). eauto.
  - destruct Hp as (? & ?). eauto.
  - destruct Hp as (? & ?). eauto.
Qed.
End stable.

(** *** The bucket of a hash code *)
Lemma home_unique bs h x y : home bs h x → home bs h y → x = y.
Proof. intros (H1 & H2 & H3) (H4 & H5 & H6). pose proof (H3 y H4 H5). pose proof (H6 x H1 H2). lia. Qed.
Lemma settled_below bs h c y : (∀ y, is_settled bs y → 1 < y → is_settled bs (parent y)) →
  on_path h c → on_path h y → c ≤ y → is_settled bs y → is_settled bs c.
Proof.
  intros Hp Hc. induction y as [y IH] using (well_founded_ind (Z.lt_wf 0)). intros Hy Hle Hs.
  destruct (decide (c = y)) as [-> |]; [done |]. pose proof (on_path_nonneg h c Hc).
  destruct (decide (1 < y)) as [H1 |].
  - apply (IH (parent y)); [by apply parent_bucket_lt | by apply on_path_parent | apply (on_path_below h); [done | done | lia | done] | by apply Hp].
  - assert (c = 0 ∧ y = 1) as [-> ->] by lia. destruct Hc as (j1 & ? & Hc), Hy as (j2 & ? & Hy).
    pose proof (mod_pow_mod h 1 j1 ltac:(lia)) as E1. pose proof (mod_pow_mod h 1 j2 ltac:(lia)) as E2.
    rewrite <- Hc in E1. rewrite <- Hy in E2. rewrite <- E1 in E2. done.
Qed.
Lemma home_same bs bs' h x : (∀ z, is_settled bs' z ↔ is_settled bs z) → home bs h x → home bs' h x.
Proof. intros He (H1 & H2 & H3). split; [by apply He |]. split; [done |]. intros y Hy. apply H3. by apply He. Qed.
(** When the bucket [y] is settled, only the items of its parent have another home. *)
Lemma home_settle bs bs' h y z : 1 < y → is_settled bs (parent y) → (∀ z, is_settled bs' z ↔ is_settled bs z ∨ z = y) →
  home bs h z → (on_path h y → z ≠ parent y) → home bs' h z.
Proof.
  intros Hy Hp He (H1 & H2 & H3) Hn. split; [apply He; by left |]. split; [done |].
  intros y' [Hs | ->]%He Hpath; [by apply H3 |]. destruct (decide (y ≤ z)) as [| Hlt]; [done |]. destruct (Hn Hpath).
  pose proof (on_path_below h z y H2 Hpath ltac:(lia) Hy).
  pose proof (H3 (parent y) Hp (on_path_parent h y Hpath Hy)). lia.
Qed.
Lemma home_moved bs bs' h y : 1 < y → (∀ z, is_settled bs' z ↔ is_settled bs z ∨ z = y) →
  home bs h (parent y) → on_path h y → home bs' h y.
Proof.
  intros Hy He (H1 & H2 & H3) Hp. split; [apply He; by right |]. split; [done |].
  intros y' [Hs | ->]%He Hpath; [| done]. pose proof (H3 y' Hs Hpath). pose proof (parent_bucket_lt y Hy). lia.
Qed.

(** *** Changes of the buckets *)
Lemma growth_buckets bs bs' mask table ths : (∀ x, is_Some (bs' !! x) ↔ is_Some (bs !! x)) →
  growth_ok bs mask table ths → growth_ok bs' mask table ths.
Proof.
  intros He (c & j & ? & Hb & ?). exists c, j. split; [done |]. split; [| done]. intros x. by rewrite He.
Qed.
Lemma insert_exists bs x b b' z : bs !! x = Some b → is_Some (<[x := b']> bs !! z) ↔ is_Some (bs !! z).
Proof.
  intros Hb. destruct (decide (z = x)) as [-> |]; [rewrite lookup_insert_eq, Hb; done | by rewrite lookup_insert_ne].
Qed.
Lemma chain_insert bs x b z : chain (<[x := b]> bs) z = if decide (z = x) then node_list b else chain bs z.
Proof.
  unfold chain. case_decide as Hd; [subst; by rewrite lookup_insert_eq | by rewrite lookup_insert_ne].
Qed.
Lemma settled_insert bs x b z : is_settled (<[x := b]> bs) z ↔ if decide (z = x) then settled b = true else is_settled bs z.
Proof.
  unfold is_settled. case_decide as Hd; [subst; rewrite lookup_insert_eq | by rewrite lookup_insert_ne].
  split; [intros (? & ? & ?); by simplify_eq | intros; by exists b].
Qed.
Lemma settled_insert_same bs x b l z : bs !! x = Some b → is_settled (<[x := Bucket l (settled b)]> bs) z ↔ is_settled bs z.
Proof.
  intros Hb. rewrite settled_insert. case_decide as Hd; [subst | done]. simpl. unfold is_settled. rewrite Hb.
  split; [intros; by exists b | intros (? & ? & ?); by simplify_eq].
Qed.
Lemma waits_mono bs bs' ths : (∀ x, marked bs x → marked bs' x) → waits_ok bs ths → waits_ok bs' ths.
Proof. intros Hm Hw t o todo x w Ht Hp. destruct (Hw t o todo x w Ht Hp); [left; auto | by right]. Qed.
Lemma marked_insert bs x l s z : marked bs z → marked (<[x := Bucket (Some l) s]> bs) z.
Proof. unfold marked. rewrite chain_insert. by case_decide. Qed.
Lemma represents_same bs bs' ns ns' m : (∀ n, n ∈ contents bs' ↔ n ∈ contents bs) →
  (∀ n, n ∈ contents bs → ns' !! n = ns !! n) → represents bs ns m → represents bs' ns' m.
Proof.
  intros Hc Hn Hr k n. pose proof (Hr k n) as ->. rewrite Hc. split; intros [? ?]; (split; [done |]); [by rewrite Hn | by rewrite <- Hn].
Qed.
Lemma not_held σ i j t t' x z w : locks_ok (threads σ) → threads σ !! i = Some t → (x, true) ∈ bucket_locks (pl t) →
  j ≠ i → threads σ !! j = Some t' → (z, w) ∈ bucket_locks (pl t') → z ≠ x.
Proof. intros Hl Hi Hx Hj Hj' Hz ->. by apply (Hl i j t t' x w). Qed.
Lemma get_bucket_lookup x σ b : get_bucket x σ = Some b → buckets σ !! x = Some b.
Proof. unfold get_bucket. do 2 (case_match; try done). by replace (_ + _) with x by lia. Qed.
Lemma at_bucket_lookup bs x P b : at_bucket bs x P → bs !! x = Some b → ∃ l, b = Bucket (Some l) true ∧ P l.
Proof. intros (l & Hl & HP) Hb. exists l. by simplify_eq. Qed.
Lemma path_to_lt o x todo z : path_to o x todo → z ∈ todo → x < z.
Proof.
  revert x. induction todo as [| y todo IH]; intros x; simpl; [intros _ Hz; inversion Hz |].
  intros (? & -> & Hp) [-> | Hz]%elem_of_cons; [by apply parent_bucket_lt |].
  pose proof (parent_bucket_lt y ltac:(done)). pose proof (IH y Hp Hz). lia.
Qed.

Lemma path_to_le o x todo mask : path_to o x todo → mask_ok mask o → x ≤ mask.
Proof.
  intros Hp (j & ? & Hm & ?). enough (x ≤ Z.land (o_hash o) (o_mask o)) as Hle.
  { rewrite Hm, land_pow_mask in Hle by lia. pose proof (Z.mod_pos_bound (o_hash o) (2 ^ j)). lia. }
  revert x Hp. induction todo as [| y todo IH]; intros x; simpl; [lia |].
  intros (? & -> & Hp). pose proof (parent_bucket_lt y ltac:(done)). specialize (IH y Hp). lia.
Qed.

(** A step that keeps the nodes of the table, and its two common forms *)
Lemma rebucket_inv σ i t p bs' : inv σ → threads σ !! i = Some t → view i p = view i (pl t) →
  contents bs' ≡ₚ contents (buckets σ) → (∀ x, is_Some (bs' !! x) ↔ is_Some (buckets σ !! x)) →
  (∀ x, marked (buckets σ) x → marked bs' x) →
  (∀ x w, (x, w) ∈ bucket_locks p → (x, w) ∈ bucket_locks (pl t) ∨ lock_available i x w σ = true) →
  (∀ o todo x, pl t = AcqRecheck o todo x → marked bs' x) →
  (∀ o todo x w, p = AcqLock o todo x w →
     marked bs' x ∨ ∃ t1 o' todo', t1 ∈ others i (threads σ) ∧ pl t1 = AcqRecheck o' todo' x) →
  buckets_ok bs' (my_mask σ) (<[i := Thread (held t) p]> (threads σ)) → home_ok bs' (nodes σ) →
  place_ok bs' (my_mask σ) (nodes σ) p →
  (∀ j t1, j ≠ i → threads σ !! j = Some t1 → place_ok (buckets σ) (my_mask σ) (nodes σ) (pl t1) →
     place_ok bs' (my_mask σ) (nodes σ) (pl t1)) →
  inv (go i t p (set_buckets bs' σ)).
Proof.
  intros [] Hi Hv Hcon Hex Hmk Hl Hr Hw Hb Hh Hp Hst. injection Hv as Htm Hd Hf Hg Hpe Ha. constructor; simpl; try done.
  - by eapply locks_move.
  - eapply growth_move; [done.. |]. by eapply growth_buckets.
  - eapply waits_move; [done | by eapply waits_mono | done | done].
  - unfold nodes_ok, live. setoid_rewrite Hcon. by eapply nodes_move.
  - unfold accessors_ok. setoid_rewrite Hcon. eapply accessors_move; try done. unfold accessors. simpl. by rewrite Ha.
  - by eapply places_move.
  - destruct inv_log0 as (m & ? & ?). exists m. split; [done |]. eapply represents_same; [| done | done]. intros. by rewrite Hcon.
  - by eapply history_move.
  - by rewrite Hcon.
Qed.
Lemma set_buckets_id σ : set_buckets (buckets σ) σ = σ.
Proof. by destruct σ. Qed.
Lemma goto_inv σ i t p : inv σ → threads σ !! i = Some t → view i p = view i (pl t) → todo_of p = todo_of (pl t) →
  (∀ x w, (x, w) ∈ bucket_locks p → (x, w) ∈ bucket_locks (pl t) ∨ lock_available i x w σ = true) →
  (∀ o todo x, pl t = AcqRecheck o todo x → marked (buckets σ) x) →
  (∀ o todo x w, p = AcqLock o todo x w →
     marked (buckets σ) x ∨ ∃ t1 o' todo', t1 ∈ others i (threads σ) ∧ pl t1 = AcqRecheck o' todo' x) →
  place_ok (buckets σ) (my_mask σ) (nodes σ) p → inv (go i t p σ).
Proof.
  intros Hinv Hi Hv Ht Hl Hr Hw Hp. rewrite <- (set_buckets_id σ) at 1. apply rebucket_inv; try done.
  - eapply buckets_move; [done | | by apply inv_buckets]. simpl. by rewrite Ht.
  - by apply inv_home.
Qed.

(** A bucket is marked before it is rehashed. *)
Lemma mark_buckets bs mask i t ths o todo x b : buckets_ok bs mask ths → ths !! i = Some t → pl t = AcqRecheck o todo x →
  bs !! x = Some b → x ≤ mask → (∀ z, is_settled (<[x := Bucket (Some []) (settled b)]> bs) z ↔ is_settled bs z) →
  buckets_ok (<[x := Bucket (Some []) (settled b)]> bs) mask (<[i := Thread (held t) (AcqCheck o (x :: todo) (parent x) false)]> ths).
Proof.
  intros Hok Hi Hpl Hb Hx Hset.
  apply (buckets_move i t (Thread (held t) (AcqCheck o (x :: todo) (parent x) false))) in Hok; [| done | by rewrite Hpl; right].
  destruct Hok as ((Hs0 & Hs1) & Hsm & Hmm & Hch & Hpar). split; [by rewrite !Hset |]. split_and!.
  - intros z Hz%Hset. by apply marked_insert, Hsm.
  - intros z. unfold marked. rewrite chain_insert. case_decide; [by subst | apply Hmm].
  - intros z l. rewrite chain_insert, Hset. case_decide as Hd; intros Hz; simpl in *; simplify_eq; [| by apply Hch].
    right. split; [done |]. eexists. split; [by eapply elem_of_insert_new | left].
  - intros y. rewrite !Hset. apply Hpar.
Qed.
Lemma unmarked bs mask ths x b : buckets_ok bs mask ths → bs !! x = Some b → node_list b = None →
  settled b = false ∧ x ≠ 0 ∧ x ≠ 1.
Proof.
  intros ((Hs0 & Hs1) & Hsm & _) Hb Hnl.
  assert (Hnm : ¬ marked bs x) by (unfold marked, chain; rewrite Hb; simpl; rewrite Hnl; intros [? ?]; done).
  split; [apply not_true_iff_false; intros ?; apply Hnm, Hsm; by exists b |]. split; intros ->; auto.
Qed.
Lemma exists_nonneg bs mask table ths x b : growth_ok bs mask table ths → bs !! x = Some b → 0 ≤ x.
Proof. intros (c & j & _ & Hbk & _) Hb. by apply (Hbk x). Qed.
Lemma mark_bucket_inv σ i t o todo x b : inv σ → threads σ !! i = Some t → pl t = AcqRecheck o todo x →
  buckets σ !! x = Some b → node_list b = None →
  inv (go i t (AcqCheck o (x :: todo) (parent x) false) (set_bucket x (Bucket (Some []) (settled b)) σ)).
Proof.
  intros Hinv Hi Hpl Hb Hnl.
  assert (Hset : ∀ z, is_settled (<[x := Bucket (Some []) (settled b)]> (buckets σ)) z ↔ is_settled (buckets σ) z)
    by (intros; by apply settled_insert_same).
  destruct (unmarked _ _ _ _ _ (inv_buckets _ Hinv) Hb Hnl) as (Hns & ? & ?).
  pose proof (exists_nonneg _ _ _ _ _ _ (inv_growth _ Hinv) Hb).
  pose proof (inv_places _ Hinv i t Hi) as Hp. rewrite Hpl in Hp. destruct Hp as (Ho & Hmk & Hpath & Htd & Hex).
  apply rebucket_inv; try done; try (by rewrite Hpl).
  - rewrite contents_insert. simpl. by rewrite (contents_split (buckets σ) x b Hb), Hnl.
  - intros. by eapply insert_exists.
  - intros. by apply marked_insert.
  - rewrite Hpl. simpl. auto.
  - rewrite Hpl. intros; simplify_eq. unfold marked. rewrite chain_insert. by rewrite decide_True.
  - eapply mark_buckets; [by apply inv_buckets | done | done | done | by eapply path_to_le | done].
  - intros z l n k. rewrite chain_insert. case_decide; [intros ? Hn; simplify_eq/=; by inversion Hn |].
    intros. eapply home_same; [done |]. by eapply inv_home.
  - simpl. split_and!; [done | done | split_and!; [lia | done | done] | | done]. intros z [-> | Hz]%elem_of_cons.
    + by rewrite lookup_insert_eq, Hns.
    + rewrite lookup_insert_ne; [by apply Htd |]. pose proof (path_to_lt o x todo z Hpath Hz). lia.
  - intros j t1 Hj Ht1. apply place_stable; try done.
    + intros z w Hz. rewrite lookup_insert_ne; [done |]. apply not_eq_sym, (not_held σ i j t t1 x z w); try done.
      { by apply inv_locks. } rewrite Hpl. left.
    + intros z. by rewrite Hset.
    + intros h z _. by apply home_same.
Qed.

(** The nodes of a bucket are moved to it from its parent. *)
Lemma split_chain_nil y l ns rest : split_chain hash y l ns = Some ([], rest) → rest = l.
Proof.
  revert rest. induction l as [| n l IH]; intros rest; simpl; [by intros; simplify_eq |].
  destruct (ns !! n); simpl; [| done]. destruct (split_chain hash y l ns) as [[m r] |]; simpl; [| done].
  case_decide; intros; simplify_eq. f_equal. by apply IH.
Qed.
Definition moved_buckets bs x y (moved rest : list nat) : gmap Z bucket :=
  <[y := Bucket (Some (rev moved ++ [])) true]> (<[x := Bucket (Some rest) true]> bs).
Section settle.
Context bs x y (l moved rest : list nat) (ns : gmap nat K) (Hy : 1 < y) (Hxy : x = parent y)
  (Hbx : bs !! x = Some (Bucket (Some l) true)) (Hby : bs !! y = Some (Bucket (Some []) false))
  (Hsplit : split_chain hash y l ns = Some (moved, rest)).

Lemma moved_ne : x ≠ y.
Proof. intros E. rewrite E, Hby in Hbx. done. Qed.
Lemma moved_lookup z : moved_buckets bs x y moved rest !! z =
  if decide (z = y) then Some (Bucket (Some (rev moved ++ [])) true)
  else if decide (z = x) then Some (Bucket (Some rest) true) else bs !! z.
Proof.
  unfold moved_buckets. pose proof moved_ne. case_decide; [subst z; by rewrite lookup_insert_eq |].
  rewrite lookup_insert_ne by done. case_decide; [subst z; by rewrite lookup_insert_eq | by rewrite lookup_insert_ne].
Qed.
Lemma moved_settled z : is_settled (moved_buckets bs x y moved rest) z ↔ is_settled bs z ∨ z = y.
Proof.
  unfold is_settled. rewrite moved_lookup. case_decide; [subst z; split; [by right | eauto] |].
  case_decide; [subst z; rewrite Hbx | split; [by left | by intros [? | ?]]]. split; eauto.
Qed.
Lemma moved_chain z lz : chain (moved_buckets bs x y moved rest) z = Some lz →
  z = y ∧ lz = rev moved ++ [] ∨ z = x ∧ lz = rest ∨ z ≠ x ∧ z ≠ y ∧ chain bs z = Some lz.
Proof.
  unfold chain. rewrite moved_lookup. case_decide; [simpl; intros; simplify_eq; by left |].
  case_decide; [simpl; intros; simplify_eq; right; by left |]. intros. right. by right.
Qed.
Lemma moved_contents : contents (moved_buckets bs x y moved rest) ≡ₚ contents bs.
Proof.
  destruct (split_chain_spec y l ns moved rest Hy Hsplit) as (Hp & _).
  eapply contents_move; [apply moved_ne | done | done | done | done | done].
Qed.
Lemma moved_marked z : marked (moved_buckets bs x y moved rest) z ↔ marked bs z.
Proof.
  unfold marked, chain. rewrite moved_lookup. case_decide; [subst z; by rewrite Hby |].
  case_decide; [subst z; by rewrite Hbx | done].
Qed.
Lemma moved_home : home_ok bs ns → home_ok (moved_buckets bs x y moved rest) ns.
Proof.
  intros Hok z lz n k Hz Hn Hk.
  destruct (split_chain_spec y l ns moved rest Hy Hsplit) as (Hp & Hm & Hr).
  assert (Hin : n ∈ l → home bs (hash k) x) by (intros; apply (Hok x l n k); [unfold chain; by rewrite Hbx | done | done]).
  assert (Hsx : is_settled bs (parent y)) by (subst x; by eexists).
  destruct (moved_chain z lz Hz) as [[-> ->] | [[-> ->] | (? & ? & Hc)]].
  - rewrite app_nil_r, <- Permutation_rev in Hn. destruct (Hm n Hn) as (k' & ? & ?). assert (k' = k) as -> by congruence.
    eapply home_moved; [done | apply moved_settled | | done]. rewrite <- Hxy. apply Hin. rewrite Hp. apply elem_of_app. by left.
  - destruct (Hr n Hn) as (k' & ? & ?). assert (k' = k) as -> by congruence.
    eapply home_settle; [done | done | apply moved_settled | | done]. apply Hin. rewrite Hp. apply elem_of_app. by right.
  - eapply home_settle; [done | done | apply moved_settled | by eapply Hok | by rewrite <- Hxy].
Qed.
Lemma moved_buckets_ok mask i t ths o todo w : buckets_ok bs mask ths → ths !! i = Some t → pl t = Acquired o (y :: todo) x w →
  buckets_ok (moved_buckets bs x y moved rest) mask (<[i := Thread (held t) (Acquired o todo y true)]> ths).
Proof.
  intros ((Hs0 & Hs1) & Hsm & Hmm & Hch & Hpar) Hi Hpl. split; [rewrite !moved_settled; by split; left |]. split_and!.
  - intros z. rewrite moved_settled, moved_marked. intros [? | ->]; [by apply Hsm |]. unfold marked, chain. by rewrite Hby.
  - intros z. rewrite moved_marked. apply Hmm.
  - intros z lz Hz. rewrite moved_settled. destruct (moved_chain z lz Hz) as [[-> ->] | [[-> ->] | (? & ? & Hc)]].
    + left. by right.
    + left. left. by eexists.
    + destruct (Hch z lz Hc) as [? | (-> & t1 & Ht1 & Hz1)]; [left; by left |]. right. split; [done |].
      destruct (elem_of_insert_old ths i t (Thread (held t) (Acquired o todo y true)) t1 Hi Ht1) as [-> |]; [| by exists t1].
      eexists. split; [by eapply elem_of_insert_new |]. rewrite Hpl in Hz1. by apply elem_of_cons in Hz1 as [? |].
  - intros z. rewrite !moved_settled. intros [? | ->] Hz; left; [by apply Hpar |]. rewrite <- Hxy. by eexists.
Qed.
End settle.

Lemma settle_inv σ i t o y todo x w l moved rest : inv σ → threads σ !! i = Some t → pl t = Acquired o (y :: todo) x w →
  buckets σ !! x = Some (Bucket (Some l) true) → split_chain hash y l (nodes σ) = Some (moved, rest) → w = true ∨ moved = [] →
  inv (go i t (Acquired o todo y true) (set_buckets (moved_buckets (buckets σ) x y moved rest) σ)).
Proof.
  intros Hinv Hi Hpl Hbx Hsp Hw. pose proof (inv_places _ Hinv i t Hi) as Hp. rewrite Hpl in Hp.
  destruct Hp as (Ho & Hmk & _ & Htd & Hex & Hy & Hxy & Hpath).
  assert (Hby : buckets σ !! y = Some (Bucket (Some []) false)) by (apply Htd; left).
  pose proof (moved_ne _ _ _ _ Hbx Hby) as Hne.
  assert (Hlk : ∀ z w', (z, w') ∈ bucket_locks (Acquired o todo y true) → (z, w') ∈ bucket_locks (pl t)) by (rewrite Hpl; simpl; by right).
  pose proof (moved_settled _ _ _ _ moved rest Hbx Hby) as Hset.
  apply rebucket_inv; try done; try (by rewrite Hpl).
  - by eapply moved_contents.
  - intros z. rewrite (moved_lookup _ _ _ _ _ _ Hbx Hby). case_decide; [subst z; by rewrite Hby |].
    case_decide; [subst z; by rewrite Hbx | done].
  - intros z. by rewrite (moved_marked _ _ _ _ _ _ Hbx Hby).
  - auto.
  - by eapply moved_buckets_ok; [.. | by apply inv_buckets | |].
  - by eapply moved_home; [.. | by apply inv_home].
  - simpl. split_and!; [done | done | | | done |].
    + eexists. split; [| done]. rewrite (moved_lookup _ _ _ _ _ _ Hbx Hby). by rewrite decide_True.
    + intros z Hz. pose proof (path_to_lt o y todo z Hpath Hz). pose proof (parent_bucket_lt y Hy).
      rewrite (moved_lookup _ _ _ _ _ _ Hbx Hby), !decide_False by lia. apply Htd. by right.
    + destruct todo; [by left | done].
  - intros j t1 Hj Ht1. apply place_stable; try done.
    + intros z w' Hz. rewrite (moved_lookup _ _ _ _ _ _ Hbx Hby).
      rewrite decide_False by (apply (not_held σ i j t t1 y z w'); [by apply inv_locks | done | rewrite Hpl; right; left | done..]).
      case_decide as Hd; [| done]. subst z. destruct Hw as [-> | ->].
      * exfalso. apply (inv_locks _ Hinv i j t t1 x w'); try done. rewrite Hpl. left.
      * by rewrite Hbx, (split_chain_nil _ _ _ _ Hsp).
    + intros z Hz. apply Hset. by left.
    + intros h z Hz Hh. eapply home_settle; [exact Hy | rewrite <- Hxy; by eexists | exact Hset | done |].
      rewrite <- Hxy. intros _ ->. apply (inv_locks _ Hinv j i t1 t x w); try done. rewrite Hpl. left.
Qed.

(** *** The history *)
Lemma of_thread_app i l k : of_thread i (l ++ k) = of_thread i l ++ of_thread i k.
Proof. apply filter_app. Qed.
Lemma of_thread_one i e : of_thread i [e] = if decide (ev_thread e = i) then [e] else [].
Proof. unfold of_thread. rewrite filter_cons. by case_decide. Qed.
Lemma history_change lg rt e lg' rt' i t t' ths : ths !! i = Some t → ev_thread e = i →
  (lg' = lg ++ [e] ∧ rt' = rt ∧ pending_of i (pl t) = [] ∧ pending_of i (pl t') = [e]
   ∨ lg' = lg ∧ rt' = rt ++ [e] ∧ pending_of i (pl t) = [e] ∧ pending_of i (pl t') = []
   ∨ lg' = lg ++ [e] ∧ rt' = rt ++ [e] ∧ pending_of i (pl t) = [] ∧ pending_of i (pl t') = []) →
  history_ok lg rt ths → history_ok lg' rt' (<[i := t']> ths).
Proof.
  intros Hi He Hc Hh j t1 [[-> ->] | [? H1]]%(insert_lookup_inv i j t); [.. | done].
  - pose proof (Hh i t Hi) as Hl. destruct Hc as [(-> & -> & Hp & Hp') | [(-> & -> & Hp & Hp') | (-> & -> & Hp & Hp')]];
      rewrite Hp in Hl; rewrite Hp'; rewrite ?of_thread_app, ?of_thread_one, Hl, ?decide_True, ?app_nil_r by done; done.
  - pose proof (Hh j t1 H1) as Hl. destruct Hc as [(-> & -> & _) | [(-> & -> & _) | (-> & -> & _)]];
      rewrite ?of_thread_app, ?of_thread_one, ?decide_False, ?app_nil_r by congruence; done.
Qed.
Lemma replay_app m l e : replay m (l ++ [e]) = (m' ← replay m l; apply_event m' e).
Proof.
  revert m. induction l as [| e' l IH]; intros m; simpl; [by destruct (apply_event m e) |].
  destruct (apply_event m e'); simpl; [apply IH | done].
Qed.
Lemma log_change bs bs' ns ns' lg e : log_ok bs ns lg →
  (∀ m, represents bs ns m → ∃ m', apply_event m e = Some m' ∧ represents bs' ns' m') → log_ok bs' ns' (lg ++ [e]).
Proof.
  intros (m & Hr & Hm) He. destruct (He m Hm) as (m' & Ha & ?). exists m'. split; [| done].
  rewrite replay_app, Hr. done.
Qed.

(** *** Ownership of the nodes *)
Lemma accessors_change bs bs' ns ns' i t t' ths d : ths !! i = Some t → accessors t ≡ₚ d ++ accessors t' →
  (∀ a, a ∈ all_accessors (<[i := t']> ths) → my_node a ∈ contents bs ++ dels ths →
     my_node a ∈ contents bs' ++ dels (<[i := t']> ths) ∧ ns' !! my_node a = ns !! my_node a) →
  (∀ n a, n ∈ fresh_of (pl t') → a ∈ all_accessors (<[i := t']> ths) → my_node a ≠ n) →
  accessors_ok bs ns ths → accessors_ok bs' ns' (<[i := t']> ths).
Proof.
  intros Hi He Hd Hf (H1 & H2 & H3). pose proof (accessors_perm i t t' ths Hi) as [Hp Hp'].
  rewrite He in Hp. assert (Hp2 : all_accessors ths ≡ₚ d ++ all_accessors (<[i := t']> ths)) by (by rewrite Hp, Hp', app_assoc).
  assert (Hin : ∀ a, a ∈ all_accessors (<[i := t']> ths) → a ∈ all_accessors ths) by (intros; rewrite Hp2, elem_of_app; by right).
  split_and!.
  - rewrite Hp2 in H1. by eapply exclusive_app.
  - intros a Ha. destruct (H2 a (Hin a Ha)) as (Hl & k & ? & ?). destruct (Hd a Ha Hl) as (? & Hk). split; [done |].
    exists k. by rewrite Hk.
  - intros t1 n a [-> | Ht1]%elem_of_insert_inv Hn Ha; [by apply Hf | by eapply H3; eauto].
Qed.
Lemma tmp_live bs ths t n : t ∈ ths → n ∈ tmp_of (pl t) → n ∈ live bs ths.
Proof.
  intros Ht Hn. unfold live. rewrite !elem_of_app. right; left. apply list_elem_of_bind. by exists t.
Qed.
Lemma accessor_live σ a : inv σ → a ∈ all_accessors (threads σ) → my_node a ∈ contents (buckets σ) ++ dels (threads σ).
Proof. intros Hinv Ha. by apply (inv_accessors _ Hinv). Qed.
Lemma accessor_elem t ths a : t ∈ ths → a ∈ accessors t → a ∈ all_accessors ths.
Proof. intros. apply list_elem_of_bind. by exists t. Qed.
Lemma known_alive σ t n : inv σ → t ∈ threads σ →
  n ∈ contents (buckets σ) ∨ n ∈ tmp_of (pl t) ∨ n ∈ (my_node <$> op_accessor (pl t)) → is_Some (nodes σ !! n).
Proof.
  intros Hinv Ht [Hn | [Hn | (a & -> & Ha)%list_elem_of_fmap]].
  - apply (inv_nodes _ Hinv). apply elem_of_app. by left.
  - apply (inv_nodes _ Hinv). by eapply tmp_live.
  - destruct (inv_accessors _ Hinv) as (_ & Hac & _). destruct (Hac a) as (_ & k & -> & _); [| done].
    eapply accessor_elem; [done |]. apply elem_of_app. by left.
Qed.
(** The new node of a thread has no accessor. *)
Lemma tmp_no_accessor σ t n a : inv σ → t ∈ threads σ → n ∈ tmp_of (pl t) → a ∈ all_accessors (threads σ) → my_node a ≠ n.
Proof.
  intros Hinv Ht Hn Ha <-. destruct (inv_nodes _ Hinv) as [Hd _].
  apply (accessor_live σ a Hinv) in Ha.
  assert (my_node a ∈ tmps (threads σ)) by (apply list_elem_of_bind; by exists t).
  unfold live in Hd. rewrite (Permutation_app_comm (tmps _)), app_assoc in Hd. apply NoDup_app in Hd as (_ & Hd & _).
  by apply (Hd (my_node a)).
Qed.

(** A thread allocates its node. *)
Lemma create_inv σ i t p a k : inv σ → threads σ !! i = Some t → nodes σ !! a = None →
  (tmp_of p, del_of p, fresh_of p, growing_of p, pending_of i p, op_accessor p, todo_of p)
  = ([a], del_of (pl t), fresh_of (pl t), growing_of (pl t), pending_of i (pl t), op_accessor (pl t), todo_of (pl t)) →
  tmp_of (pl t) = [] → (∀ x w, (x, w) ∈ bucket_locks p → (x, w) ∈ bucket_locks (pl t)) →
  match pl t with AcqRecheck _ _ _ => False | _ => True end → match p with AcqLock _ _ _ _ => False | _ => True end →
  place_ok (buckets σ) (my_mask σ) (<[a := k]> (nodes σ)) p →
  inv (go i t p (set_nodes (<[a := k]> (nodes σ)) σ)).
Proof.
  intros Hinv Hi Ha Hv Ht Hl Hr Hw Hp. injection Hv as Htm Hd Hf Hg Hpe Hac Htd.
  assert (Hne : ∀ t1 n, t1 ∈ threads σ → n ∈ contents (buckets σ) ∨ n ∈ tmp_of (pl t1) ∨ n ∈ (my_node <$> op_accessor (pl t1)) →
    <[a := k]> (nodes σ) !! n = nodes σ !! n).
  { intros t1 n Ht1 Hn. apply lookup_insert_ne. intros ->. destruct (known_alive σ t1 n Hinv Ht1 Hn). congruence. }
  assert (Hti : t ∈ threads σ) by by eapply list_elem_of_lookup_2.
  pose proof Hinv as []. constructor; simpl; try done.
  - eapply locks_move; [done.. |]. auto.
  - by eapply growth_move.
  - eapply buckets_move; [done | simpl; by rewrite Htd | done].
  - eapply waits_move; [done | done | intros o todo x Hx; by rewrite Hx in Hr | intros o todo x w Hx; simpl in Hx; by rewrite Hx in Hw].
  - destruct inv_nodes0 as [Hnd Hal].
    assert (Hlp : live (buckets σ) (<[i := Thread (held t) p]> (threads σ)) ≡ₚ a :: live (buckets σ) (threads σ)).
    { unfold live. destruct (tmps_perm i t (Thread (held t) p) _ Hi) as [-> ->], (dels_perm i t (Thread (held t) p) _ Hi) as [-> ->].
      simpl. rewrite Htm, Hd, Ht. simpl. by rewrite <- Permutation_middle. }
    split; [rewrite Hlp; apply NoDup_cons; split; [intros Hin; destruct (Hal a Hin); congruence | done] |].
    intros n. rewrite Hlp, elem_of_cons. intros [-> | Hn]; [by rewrite lookup_insert_eq |].
    destruct (Hal n Hn) as [k' Hk']. rewrite lookup_insert_ne; [by rewrite Hk' | congruence].
  - intros x l n k' Hx Hn. rewrite (Hne t n) by (auto; left; apply elem_of_contents; eauto). by eapply inv_home0.
  - assert (Hdp : dels (<[i := Thread (held t) p]> (threads σ)) ≡ₚ dels (threads σ)).
    { destruct (dels_perm i t (Thread (held t) p) _ Hi) as [-> ->]. simpl. by rewrite Hd. }
    apply (accessors_change (buckets σ) (buckets σ) (nodes σ) _ i t _ _ []); try done.
    + unfold accessors. simpl. by rewrite Hac.
    + intros b _ Hb. rewrite Hdp. split; [done |]. apply lookup_insert_ne. intros ->.
      destruct (proj2 inv_nodes0 (my_node b)) as [? ?]; [| congruence]. unfold live. rewrite !elem_of_app in *. tauto.
    + simpl. rewrite Hf. intros n b Hn Hb. destruct inv_accessors0 as (_ & _ & H3). apply (H3 t n b Hti Hn).
      destruct (accessors_perm i t (Thread (held t) p) _ Hi) as [-> Hp']. rewrite Hp' in Hb. unfold accessors in *. simpl in Hb. by rewrite Hac in Hb.
  - eapply places_move; [done.. |]. intros j t1 Hj Ht1. apply place_stable; try done. intros n. apply Hne. by eapply list_elem_of_lookup_2.
  - destruct inv_log0 as (m & ? & ?). exists m. split; [done |]. eapply represents_same; [done | | done].
    intros n Hn. apply (Hne t); auto.
  - by eapply history_move.
Qed.

(** *** The operations take effect *)
(** The chain of a bucket changes, under its lock, and the operation takes effect. *)
Lemma relist_inv σ i t p x l l' e sz : inv σ → threads σ !! i = Some t →
  buckets σ !! x = Some (Bucket (Some l) true) → (x, true) ∈ bucket_locks (pl t) →
  let bs' := <[x := Bucket (Some l') true]> (buckets σ) in
  let ths' := <[i := Thread (held t) p]> (threads σ) in
  (todo_of p, growing_of p, op_accessor p) = (todo_of (pl t), growing_of (pl t), op_accessor (pl t)) →
  (∀ x w, (x, w) ∈ bucket_locks p → (x, w) ∈ bucket_locks (pl t)) →
  match pl t with AcqRecheck _ _ _ => False | _ => True end → match p with AcqLock _ _ _ _ => False | _ => True end →
  live bs' ths' ≡ₚ live (buckets σ) (threads σ) →
  (∀ n, n ∈ contents (buckets σ) ++ dels (threads σ) → n ∈ contents bs' ++ dels ths') →
  (∀ n a, n ∈ fresh_of p → a ∈ all_accessors ths' → my_node a ≠ n) →
  (∀ n k, n ∈ l' → nodes σ !! n = Some k → home (buckets σ) (hash k) x) →
  ev_thread e = i → pending_of i (pl t) = [] → pending_of i p = [e] →
  (∀ m, represents (buckets σ) (nodes σ) m → ∃ m', apply_event m e = Some m' ∧ represents bs' (nodes σ) m') →
  sz = Z.of_nat (length (contents bs')) → place_ok bs' (my_mask σ) (nodes σ) p →
  inv (add_event e (go i t p (set_size sz (set_bucket x (Bucket (Some l') true) σ)))).
Proof.
  intros Hinv Hi Hb Hlx bs' ths' Hv Hl Hr Hw Hlive Hsub Hf Hh He Hpe Hpe' Hlog Hsz Hp. injection Hv as Htd Hg Hac.
  assert (Hset : ∀ z, is_settled bs' z ↔ is_settled (buckets σ) z) by (intros; by apply (settled_insert_same _ x (Bucket (Some l) true))).
  pose proof Hinv as []. constructor; simpl; fold bs' ths'; try done.
  - eapply locks_move; [done.. |]. auto.
  - eapply growth_move; [done.. |]. eapply growth_buckets; [| done]. intros. by eapply insert_exists.
  - assert (Hok : buckets_ok (buckets σ) (my_mask σ) ths') by (eapply buckets_move; [done | simpl; by rewrite Htd | done]).
    destruct Hok as ((? & ?) & Hsm & Hmm & Hch & Hpar). split; [by rewrite !Hset |]. split_and!.
    + intros z Hz%Hset. by apply marked_insert, Hsm.
    + intros z. unfold marked, bs'. rewrite chain_insert. case_decide; [subst z; intros _ | apply Hmm].
      apply Hmm, Hsm. by eexists.
    + intros z lz. unfold bs'. rewrite chain_insert. fold bs'. rewrite Hset. case_decide; [subst z; intros _ | apply Hch]. left. by eexists.
    + intros y. rewrite !Hset. apply Hpar.
  - eapply waits_move; [done | eapply waits_mono; [| done]; intros; by apply marked_insert
      | intros o todo z Hx; by rewrite Hx in Hr | intros o todo z w Hx; simpl in Hx; by rewrite Hx in Hw].
  - destruct inv_nodes0 as [Hnd Hal]. split; [by rewrite Hlive |]. intros n. rewrite Hlive. apply Hal.
  - intros z lz n k. unfold bs'. rewrite chain_insert. case_decide; intros Hz Hn Hk; (eapply home_same; [exact Hset |]).
    + simplify_eq/=. by apply (Hh n).
    + by eapply inv_home0.
  - apply (accessors_change (buckets σ) bs' (nodes σ) (nodes σ) i t _ _ []); try done.
    + unfold accessors. simpl. by rewrite Hac.
    + intros a _ Ha. split; [by apply Hsub | done].
  - eapply places_move; [done.. |]. intros j t1 Hj Ht1. apply place_stable; try done.
    + intros z w Hz. unfold bs'. rewrite lookup_insert_ne; [done |]. by apply not_eq_sym, (not_held σ i j t t1 x z w).
    + intros z. by rewrite Hset.
    + intros h z _. by apply home_same.
  - by eapply log_change.
  - eapply history_change; [done | exact He | left; split_and!; done | done].
Qed.

Lemma remove_node_perm n l : NoDup l → n ∈ l → l ≡ₚ n :: remove_node n l.
Proof.
  intros Hd Hn. apply list_elem_of_split in Hn as (l1 & l2 & ->). unfold remove_node.
  apply NoDup_app in Hd as (Hd1 & Hd2 & Hd3). apply NoDup_cons in Hd3 as [Hd3 Hd4].
  assert (Hf : ∀ k : list nat, n ∉ k → filter (λ n' : nat, n' ≠ n) k = k).
  { induction k as [| m k IH]; [done |]. intros [? ?]%not_elem_of_cons. rewrite filter_cons_True, IH; auto. }
  rewrite filter_app, filter_cons_False by (intros Hc; by apply Hc).
  rewrite !Hf; [by rewrite Permutation_middle | done |]. intros Hn. apply (Hd2 n Hn). left.
Qed.

(** An item that is not in the bucket of its hash code is not in the table. *)
Lemma absent_represents bs ns m o x l : home_ok bs ns → represents bs ns m → home bs (hash (o_key o)) x →
  bs !! x = Some (Bucket (Some l) true) → absent ns o l →
  match o_kind o with Exclude a => m !! o_key o ≠ Some (my_node a) | _ => m !! o_key o = None end.
Proof.
  intros Hh Hm Hx Hb Ha.
  assert (Hin : ∀ n, m !! o_key o = Some n → n ∈ l ∧ ns !! n = Some (o_key o)).
  { intros n Hn. apply Hm in Hn as [(z & lz & Hz & Hn)%elem_of_contents Hk]. split; [| done].
    pose proof (home_unique _ _ _ _ (Hh z lz n _ Hz Hn Hk) Hx). subst z. unfold chain in Hz. rewrite Hb in Hz. by simplify_eq/=. }
  unfold absent in Ha. destruct (o_kind o); [.. | intros Hn; by destruct (Hin _ Hn)];
    (destruct (m !! o_key o) as [n |] eqn:Hn; [| done]); destruct (Hin n eq_refl); exfalso; by eapply Ha.
Qed.

Lemma contents_bucket bs x l : bs !! x = Some (Bucket (Some l) true) → contents bs ≡ₚ l ++ contents (delete x bs).
Proof. intros Hb. by rewrite (contents_split bs x _ Hb). Qed.

Lemma remove_inv σ i t o x l n : inv σ → threads σ !! i = Some t → pl t = Acquired o [] x true →
  buckets σ !! x = Some (Bucket (Some l) true) → n ∈ l → nodes σ !! n = Some (o_key o) →
  match o_kind o with Erase => True | Exclude a => my_node a = n | _ => False end →
  inv (remove i t o x (Bucket (Some l) true) l n σ).
Proof.
  intros Hinv Hi Hpl Hb Hn Hk Hkind. unfold remove. cbn [settled].
  pose proof (contents_bucket _ _ _ Hb) as Hcon.
  assert (HND : NoDup (contents (buckets σ))) by (destruct (inv_nodes _ Hinv) as [Hd _]; by apply NoDup_app in Hd as (? & _)).
  assert (Hp : l ≡ₚ n :: remove_node n l).
  { apply remove_node_perm; [| done]. rewrite Hcon in HND. by apply NoDup_app in HND as (? & _). }
  set (bs' := <[x := Bucket (Some (remove_node n l)) true]> (buckets σ)).
  assert (Hcon' : contents (buckets σ) ≡ₚ n :: contents bs').
  { unfold bs'. rewrite contents_insert, Hcon. simpl. by rewrite Hp at 1. }
  assert (Hdp : dels (<[i := Thread (held t) (DeleteItem o n)]> (threads σ)) ≡ₚ n :: dels (threads σ)).
  { destruct (dels_perm i t (Thread (held t) (DeleteItem o n)) _ Hi) as [-> ->]. by rewrite Hpl. }
  assert (Htp : tmps (<[i := Thread (held t) (DeleteItem o n)]> (threads σ)) ≡ₚ tmps (threads σ)).
  { destruct (tmps_perm i t (Thread (held t) (DeleteItem o n)) _ Hi) as [-> ->]. by rewrite Hpl. }
  pose proof (inv_places _ Hinv i t Hi) as Hpk. rewrite Hpl in Hpk. destruct Hpk as (Ho & _).
  apply (relist_inv σ i t (DeleteItem o n) x l (remove_node n l)); try done; try (by rewrite Hpl); fold bs'.
  - rewrite Hpl. left.
  - intros z w Hz. inversion Hz.
  - unfold live. rewrite Hdp, Htp, Hcon'. by rewrite <- !Permutation_middle.
  - intros m. rewrite Hdp, Hcon'. rewrite <- Permutation_middle. done.
  - intros m a Hm. inversion Hm.
  - intros m k Hm Hk'. eapply (inv_home _ Hinv x l m k); [unfold chain; by rewrite Hb | | done]. rewrite Hp. by right.
  - intros m Hm. unfold apply_event. simpl. rewrite decide_True by (apply Hm; split; [by eapply contents_at | done]).
    eexists. split; [done |]. intros k' n'. rewrite lookup_delete_Some. unfold represents in Hm. rewrite (Hm k' n'), Hcon'.
    rewrite Hcon', NoDup_cons in HND. destruct HND as [HND _]. rewrite elem_of_cons. split.
    + intros (Hne & [-> | ?] & ?); [congruence | done].
    + intros [Hin Hk']. split; [| by split; [right |]]. intros <-. assert (Hm1 : m !! o_key o = Some n) by (apply Hm; split; [by eapply contents_at | done]).
      assert (Hm2 : m !! o_key o = Some n') by (apply Hm; rewrite Hcon'; split; [by right | done]). by simplify_eq.
  - rewrite (inv_size _ Hinv), Hcon'. simpl. lia.
Qed.

Lemma add_inv σ i t o x l n : inv σ → threads σ !! i = Some t → pl t = Checked o x →
  buckets σ !! x = Some (Bucket (Some l) true) → o_tmp o = Some n →
  inv (add_event (Event i (o_key o) (Inserted n)) (go i t (Added (set_tmp None o) x n (my_size σ + 1))
    (set_size (my_size σ + 1) (set_bucket x (Bucket (Some (n :: l)) true) σ)))).
Proof.
  intros Hinv Hi Hpl Hb Hn. pose proof (contents_bucket _ _ _ Hb) as Hcon.
  set (bs' := <[x := Bucket (Some (n :: l)) true]> (buckets σ)). set (p' := Added (set_tmp None o) x n (my_size σ + 1)).
  assert (Hcon' : contents bs' ≡ₚ n :: contents (buckets σ)) by (unfold bs'; by rewrite contents_insert, Hcon).
  assert (Hdp : dels (<[i := Thread (held t) p']> (threads σ)) ≡ₚ dels (threads σ)).
  { destruct (dels_perm i t (Thread (held t) p') _ Hi) as [-> ->]. by rewrite Hpl. }
  assert (Htp : tmps (threads σ) ≡ₚ n :: tmps (<[i := Thread (held t) p']> (threads σ))).
  { destruct (tmps_perm i t (Thread (held t) p') _ Hi) as [-> ->]. rewrite Hpl. unfold tmp_of. simpl. by rewrite Hn. }
  pose proof (inv_places _ Hinv i t Hi) as Hpk. rewrite Hpl in Hpk. destruct Hpk as (Ho & Hmk & Hat & [Hki _] & Hhome).
  destruct (at_bucket_lookup _ _ _ _ Hat Hb) as (l0 & [= <-] & Habs). pose proof Ho as (Hho & _ & Hkn). rewrite Hn in Hkn. destruct Hkn as [_ Hkn].
  assert (Hti : t ∈ threads σ) by by eapply list_elem_of_lookup_2.
  apply (relist_inv σ i t p' x l (n :: l)); try done; try (by rewrite Hpl); fold bs'.
  - rewrite Hpl. left.
  - unfold live. rewrite Hdp, Htp, Hcon'. simpl. by rewrite <- Permutation_middle.
  - intros m. rewrite Hdp, Hcon'. simpl. by right.
  - intros m a Hm Ha. unfold p' in Hm. simpl in Hm. apply list_elem_of_singleton in Hm as ->.
    apply (tmp_no_accessor σ t n a Hinv Hti); [rewrite Hpl; unfold tmp_of; simpl; rewrite Hn; left |].
    destruct (accessors_perm i t (Thread (held t) p') _ Hi) as [-> Hp']. rewrite Hp' in Ha. unfold accessors in *. by rewrite Hpl.
  - intros m k [-> | Hm]%elem_of_cons Hk.
    + assert (k = o_key o) as -> by congruence. by rewrite <- Hho.
    + eapply (inv_home _ Hinv x l m k); [unfold chain; by rewrite Hb | done | done].
  - intros m Hm. rewrite Hho in Hhome. pose proof (absent_represents _ _ _ _ _ _ (inv_home _ Hinv) Hm Hhome Hb Habs) as Hnone.
    rewrite Hki in Hnone. unfold apply_event. simpl. rewrite decide_True by done. eexists. split; [done |].
    intros k' n'. rewrite lookup_insert_Some, Hcon', elem_of_cons. unfold represents in Hm. rewrite (Hm k' n'). split.
    + intros [[<- <-] | [? [? ?]]]; auto.
    + intros [[-> | Hin] Hk']; [left; split; congruence |]. right. split; [| done]. intros <-.
      assert (m !! o_key o = Some n') by by apply Hm. congruence.
  - rewrite (inv_size _ Hinv), Hcon'. simpl. lia.
  - simpl. split_and!; [split_and!; [done | by simpl; rewrite Hki | done] | done | | done | done].
    exists (n :: l). split; [by apply lookup_insert_eq | left].
Qed.

(** A step that keeps the buckets *)
Lemma keep_buckets_inv σ i t t' ns' lg' rt' : inv σ → threads σ !! i = Some t →
  let ths' := <[i := t']> (threads σ) in
  (todo_of (pl t'), growing_of (pl t')) = (todo_of (pl t), growing_of (pl t)) →
  (∀ x w, (x, w) ∈ bucket_locks (pl t') → (x, w) ∈ bucket_locks (pl t)) →
  match pl t with AcqRecheck _ _ _ => False | _ => True end → match pl t' with AcqLock _ _ _ _ => False | _ => True end →
  nodes_ok (buckets σ) ns' ths' → (∀ n, n ∈ contents (buckets σ) → ns' !! n = nodes σ !! n) →
  (∀ j t1 n, j ≠ i → threads σ !! j = Some t1 → n ∈ tmp_of (pl t1) ∨ n ∈ (my_node <$> op_accessor (pl t1)) → ns' !! n = nodes σ !! n) →
  accessors_ok (buckets σ) ns' ths' → place_ok (buckets σ) (my_mask σ) ns' (pl t') →
  log_ok (buckets σ) ns' lg' → history_ok lg' rt' ths' →
  inv (State (buckets σ) (my_mask σ) (my_size σ) (my_table σ) ns' ths' lg' rt').
Proof.
  intros Hinv Hi ths' Hv Hl Hr Hw Hnd Hc Hk Hac Hp Hlg Hh. injection Hv as Htd Hg.
  pose proof Hinv as []. constructor; simpl; try done.
  - eapply locks_move; [done.. |]. auto.
  - by eapply growth_move.
  - eapply buckets_move; [done | simpl; by rewrite Htd | done].
  - eapply waits_move; [done | done | intros o todo x Hx; by rewrite Hx in Hr | intros o todo x w Hx; by rewrite Hx in Hw].
  - intros x l n k Hx Hn. rewrite Hc by (apply elem_of_contents; eauto). by eapply inv_home0.
  - eapply places_move; [done.. |]. intros j t1 Hj Ht1. apply place_stable; try done.
    intros n [? | ?]; [by apply Hc | by eapply Hk].
Qed.

(** An operation that has not found its item returns. *)
Lemma return_absent_inv σ i t o x w why a : inv σ → threads σ !! i = Some t →
  (∃ y, pl t = CheckFlag o x w why y) ∨ pl t = CheckMask o x w why →
  o_tmp o = None → (∀ m, represents (buckets σ) (nodes σ) m → apply_event m (Event i (o_key o) a) = Some m) →
  inv (return_absent i t o a σ).
Proof.
  intros Hinv Hi Hpl Ht Ha. unfold return_absent, go, set_thread. simpl.
  assert (Hv : todo_of (pl t) = [] ∧ growing_of (pl t) = NoGrowth ∧ tmp_of (pl t) = [] ∧ del_of (pl t) = [] ∧ pending_of i (pl t) = [])
    by (destruct Hpl as [[y ->] | ->]; unfold tmp_of; simpl; by rewrite Ht).
  destruct Hv as (Htd & Hg & Htm & Hd & Hpe).
  apply (keep_buckets_inv σ i t (Thread (held t) Idle) (nodes σ)); simpl; try done.
  - by rewrite Htd, Hg.
  - intros ? ? Hx. inversion Hx.
  - by destruct Hpl as [[y ->] | ->].
  - eapply nodes_move; [done | by rewrite Htm | by rewrite Hd | by apply inv_nodes].
  - apply (accessors_change (buckets σ) (buckets σ) (nodes σ) _ i t _ _ (op_accessor (pl t))); [done | done | | | by apply inv_accessors].
    + intros b _ Hb. split; [| done]. destruct (dels_perm i t (Thread (held t) Idle) _ Hi) as [Hp ->]. rewrite Hp, Hd in Hb. done.
    + intros n b Hn. inversion Hn.
  - eapply log_change; [by apply inv_log |]. intros m Hm. exists m. split; [by apply Ha | done].
  - eapply (history_change _ _ (Event i (o_key o) a)); [done | done | | by apply inv_history]. right; right. by rewrite Hpe.
Qed.

(** The item has been found, or was inserted, and its lock is acquired if one is
    wanted. *)
Lemma item_available_true n w l : item_available n w l = true ↔ ∀ a, a ∈ l → my_node a = n → w = false ∧ is_writer a = false.
Proof.
  unfold item_available. rewrite negb_true_iff, <- not_true_iff_false, existsb_exists. unfold item_conflicts. split.
  - intros Hn a Ha He. apply orb_false_iff, not_true_iff_false. intros Hw. destruct Hn. exists a. rewrite <- list_elem_of_In.
    split; [done |]. apply andb_true_iff. by rewrite bool_decide_eq_true.
  - intros Hl (a & Ha & Hc). apply andb_true_iff in Hc as [He%bool_decide_eq_true Hw].
    destruct (Hl a) as [-> E]; [by apply list_elem_of_In | done |]. by rewrite E in Hw.
Qed.
(** A new item is in a bucket that the thread has locked as a writer. *)
Lemma fresh_locked bs mask ns p n : place_ok bs mask ns p → n ∈ fresh_of p →
  ∃ x l k, (x, true) ∈ bucket_locks p ∧ chain bs x = Some l ∧ n ∈ l ∧ ns !! n = Some k.
Proof.
  unfold chain. destruct p as [| | | | | | | | | | | | | o x m sz | o x w m [] grow | | |]; intros Hp Hn; try (by inversion Hn);
    apply list_elem_of_singleton in Hn as ->; simpl in Hp.
  - destruct Hp as (_ & _ & (l & Hb & ?) & ? & _). exists x, l, (o_key o). rewrite Hb. split_and!; [left | done..].
  - destruct Hp as (_ & (l & Hb & ?) & ? & _ & Hw). exists x, l, (o_key o). rewrite Hb. destruct Hw as [-> _]. split_and!; [left | done..].
Qed.
Lemma fresh_other σ i j t t1 x w l n m : inv σ → threads σ !! i = Some t → threads σ !! j = Some t1 → j ≠ i →
  (x, w) ∈ bucket_locks (pl t) → chain (buckets σ) x = Some l → n ∈ l → m ∈ fresh_of (pl t1) → m ≠ n.
Proof.
  intros Hinv Hi Hj Hne Hl Hx Hn Hm ->.
  destruct (fresh_locked _ _ _ _ _ (inv_places _ Hinv j t1 Hj) Hm) as (x1 & l1 & k & Hl1 & Hx1 & Hn1 & Hk).
  pose proof (home_unique _ _ _ _ (inv_home _ Hinv x l n k Hx Hn Hk) (inv_home _ Hinv x1 l1 n k Hx1 Hn1 Hk)) as <-.
  by apply (inv_locks _ Hinv j i t1 t x w).
Qed.
Definition acquired_item o n (w : option bool) : list accessor :=
  match w with Some w => [Accessor n (o_hash o) w] | None => [] end.
Lemma found_inv σ i t o x w n inserted grow : inv σ → threads σ !! i = Some t → pl t = Exists o x w n inserted grow →
  match o_result o with Some w' => item_available n w' (all_accessors (threads σ)) = true | None => True end →
  let σ' := set_thread i (Thread (acquired_item o n (o_result o) ++ held t) (Growth o n inserted grow)) σ in
  inv (if inserted then σ' else add_event (Event i (o_key o) (lookup_answer o inserted n)) σ').
Proof.
  intros Hinv Hi Hpl Hav. set (t' := Thread _ _). simpl.
  pose proof (inv_places _ Hinv i t Hi) as Hp. rewrite Hpl in Hp. destruct Hp as (Ho & (l & Hb & Hn) & Hk & Hkind & Hins).
  assert (Hcn : n ∈ contents (buckets σ)) by by eapply contents_at.
  assert (Hdp : dels (<[i := t']> (threads σ)) ≡ₚ dels (threads σ)).
  { destruct (dels_perm i t t' _ Hi) as [-> ->]. by rewrite Hpl. }
  assert (Hoa : op_accessor (pl t) = []) by (rewrite Hpl; unfold op_accessor; simpl; by destruct Hkind as [-> | ->]).
  assert (Hacp : all_accessors (<[i := t']> (threads σ)) ≡ₚ acquired_item o n (o_result o) ++ all_accessors (threads σ)).
  { destruct (accessors_perm i t t' _ Hi) as [-> ->]. unfold accessors. rewrite Hoa. unfold op_accessor. simpl.
    replace (match o_kind o with Exclude a => [a] | _ => [] end) with (@nil accessor) by (by destruct Hkind as [-> | ->]).
    simpl. by rewrite app_assoc. }
  assert (Hok : accessors_ok (buckets σ) (nodes σ) (<[i := t']> (threads σ))).
  { destruct (inv_accessors _ Hinv) as (H1 & H2 & H3). unfold accessors_ok. setoid_rewrite Hacp. setoid_rewrite Hdp. split_and!.
    - destruct (o_result o) as [w' |]; simpl; [| done]. split; [| done]. intros b Hb' He.
      rewrite item_available_true in Hav. by apply Hav.
    - intros a. rewrite elem_of_app. intros [Ha | Ha]; [| by apply H2]. destruct (o_result o) as [w' |]; simpl in Ha; [| inversion Ha].
      apply list_elem_of_singleton in Ha as ->. simpl. split; [apply elem_of_app; by left |]. exists (o_key o). split; [done |]. by destruct Ho as [-> _].
    - intros t1 m a (j & Hj)%list_elem_of_lookup Hm. rewrite elem_of_app.
      apply (insert_lookup_inv i j t) in Hj as [[-> ->] | [Hne Hj]]; [inversion Hm | | done].
      intros [Ha | Ha]; [| eapply H3; [by eapply list_elem_of_lookup_2 | done | done]].
      destruct (o_result o) as [w' |]; simpl in Ha; [| inversion Ha]. apply list_elem_of_singleton in Ha as ->. simpl.
      apply not_eq_sym, (fresh_other σ i j t t1 x w l n m); try done; [rewrite Hpl; left | unfold chain; by rewrite Hb]. }
  assert (Hgo : inv (State (buckets σ) (my_mask σ) (my_size σ) (my_table σ) (nodes σ) (<[i := t']> (threads σ))
    (if inserted then log σ else log σ ++ [Event i (o_key o) (lookup_answer o inserted n)]) (returned σ))).
  { apply (keep_buckets_inv σ i t t'); simpl; try done.
    - by rewrite Hpl.
    - intros ? ? Hx. inversion Hx.
    - by rewrite Hpl.
    - eapply nodes_move; [done | by rewrite Hpl | by rewrite Hpl | by apply inv_nodes].
    - destruct inserted; [by apply inv_log |]. eapply log_change; [by apply inv_log |]. intros m Hm. exists m. split; [| done].
      assert (m !! o_key o = Some n) by by apply Hm. unfold apply_event, lookup_answer. simpl.
      destruct Hkind as [-> | ->]; by rewrite decide_True.
    - destruct inserted.
      + eapply history_move; [done | | by apply inv_history]. by rewrite Hpl.
      + eapply (history_change _ _ (Event i (o_key o) (lookup_answer o false n))); [done | done | | by apply inv_history].
        left. by rewrite Hpl. }
  by destruct inserted.
Qed.


(** An operation returns, after it has deleted a node. *)
Lemma return_inv σ i t d e ns' : inv σ → threads σ !! i = Some t → ev_thread e = i →
  (todo_of (pl t), growing_of (pl t), pending_of i (pl t)) = ([], NoGrowth, [e]) → tmp_of (pl t) ++ del_of (pl t) = d →
  match pl t with AcqRecheck _ _ _ => False | _ => True end →
  (∀ a, a ∈ all_accessors (<[i := Thread (held t) Idle]> (threads σ)) → my_node a ∉ d) →
  (∀ n, n ∉ d → ns' !! n = nodes σ !! n) → inv (add_returned e (go i t Idle (set_nodes ns' σ))).
Proof.
  intros Hinv Hi He Hv Hd Hr Ha Hns. injection Hv as Htd Hg Hpe. set (ths' := <[i := Thread (held t) Idle]> (threads σ)) in *.
  destruct (dels_perm i t (Thread (held t) Idle) _ Hi) as [Hd1 Hd2], (tmps_perm i t (Thread (held t) Idle) _ Hi) as [Ht1 Ht2].
  fold ths' in Hd2, Ht2. simpl in Hd2, Ht2.
  assert (Hlive : live (buckets σ) (threads σ) ≡ₚ d ++ live (buckets σ) ths').
  { unfold live. rewrite Ht1, Hd1, Ht2, Hd2, <- Hd. simpl. solve_Permutation. }
  pose proof (inv_nodes _ Hinv) as [Hnd Hal]. rewrite Hlive in Hnd. apply NoDup_app in Hnd as (_ & Hdis & Hnd).
  assert (Hkeep : ∀ n, n ∈ live (buckets σ) ths' → ns' !! n = nodes σ !! n) by (intros n Hn; apply Hns; intros Hnd'; by apply (Hdis n)).
  apply (keep_buckets_inv σ i t (Thread (held t) Idle) ns'); simpl; fold ths'; try done.
  - by rewrite Htd, Hg.
  - intros ? ? Hx. inversion Hx.
  - split; [done |]. intros n Hn. rewrite Hkeep by done. apply Hal. rewrite Hlive. apply elem_of_app. by right.
  - intros n Hn. apply Hkeep. apply elem_of_app. by left.
  - intros j t1 n Hj Hj' [Hn | (a & -> & Hin)%list_elem_of_fmap].
    + apply Hkeep. eapply tmp_live; [| done]. apply list_elem_of_lookup. exists j. unfold ths'. by rewrite list_lookup_insert_ne.
    + apply Hns, Ha. eapply (accessor_elem t1); [apply list_elem_of_lookup; exists j; unfold ths'; by rewrite list_lookup_insert_ne |].
      apply elem_of_app. by left.
  - apply (accessors_change (buckets σ) (buckets σ) (nodes σ) _ i t _ _ (op_accessor (pl t))); [done | done | | | by apply inv_accessors].
    + fold ths'. intros a Hin Hl. split; [| by apply Hns, Ha]. rewrite Hd2. rewrite Hd1, !elem_of_app in Hl. apply elem_of_app.
      destruct Hl as [? | [Hl | ?]]; [by left | | by right]. destruct (Ha a Hin). rewrite <- Hd. apply elem_of_app. by right.
    + intros n a Hn. inversion Hn.
  - destruct (inv_log _ Hinv) as (m & ? & ?). exists m. split; [done |]. eapply represents_same; [done | | done].
    intros n Hn. apply Hkeep. apply elem_of_app. by left.
  - eapply (history_change _ _ e); [done | done | | by apply inv_history]. right; left. by rewrite Hpe.
Qed.

(** A thread begins [exclude], or releases an accessor. *)
Lemma accessor_inv σ i t t' d : inv σ → threads σ !! i = Some t → pl t = Idle →
  (pl t' = Idle ∨ ∃ o, pl t' = LoadMask o ∧ o_tmp o = None) → accessors t ≡ₚ d ++ accessors t' →
  place_ok (buckets σ) (my_mask σ) (nodes σ) (pl t') → inv (set_thread i t' σ).
Proof.
  intros Hinv Hi Hpl Hpl' Ha Hp.
  assert (Hv : view i (pl t') = (tmp_of Idle, del_of Idle, fresh_of Idle, growing_of Idle, pending_of i Idle, op_accessor (pl t'))
    ∧ todo_of (pl t') = [] ∧ bucket_locks (pl t') = []).
  { destruct Hpl' as [-> | (o & -> & Ho)]; [done |]. split; [| done]. unfold view, tmp_of. simpl. by rewrite Ho. }
  destruct Hv as ([= Htm Hd Hf Hg Hpe] & Htd & Hl).
  apply (keep_buckets_inv σ i t t' (nodes σ)); rewrite ?Hpl; try done.
  - by rewrite Htd, Hg.
  - intros ? ? Hx. by rewrite Hl in Hx.
  - by destruct Hpl' as [-> | (o & -> & Ho)].
  - eapply nodes_move; [done | by rewrite Htm, Hpl | by rewrite Hd, Hpl | by apply inv_nodes].
  - apply (accessors_change (buckets σ) (buckets σ) (nodes σ) _ i t _ _ d); [done | done | | | by apply inv_accessors].
    + intros b _ Hb. split; [| done]. destruct (dels_perm i t t' _ Hi) as [Hp1 ->]. rewrite Hd. by rewrite Hp1, Hpl in Hb.
    + intros n b Hn. rewrite Hf in Hn. inversion Hn.
  - by apply inv_log.
  - eapply history_move; [done | by rewrite Hpe, Hpl | by apply inv_history].
Qed.

(** *** The growth of the table *)
Lemma foldr_insert_lookup {A} (v : A) (l : list Z) (m : gmap Z A) z :
  foldr (λ x, <[x := v]>) m l !! z = if decide (z ∈ l) then Some v else m !! z.
Proof.
  induction l as [| x l IH]; simpl; [done |].
  destruct (decide (z = x)) as [-> | Hne]; [rewrite lookup_insert_eq, decide_True; [done | left] |].
  rewrite lookup_insert_ne, IH by done. apply decide_ext. rewrite elem_of_cons. tauto.
Qed.
Lemma init_buckets_lookup first count bs z : 0 ≤ count → init_buckets first count bs !! z =
  if decide (first ≤ z < first + count) then Some (Bucket None false) else bs !! z.
Proof. intros ?. unfold init_buckets. rewrite foldr_insert_lookup. apply decide_ext. rewrite elem_of_seqZ. lia. Qed.
Lemma init_buckets_contents first count bs : (∀ x, first ≤ x < first + count → bs !! x = None) →
  contents (init_buckets first count bs) ≡ₚ contents bs.
Proof.
  unfold init_buckets. intros Hx. assert (Hl : ∀ x, x ∈ seqZ first count → bs !! x = None) by (intros x ?%elem_of_seqZ; auto).
  clear Hx. pose proof (NoDup_seqZ first count) as Hd. revert Hl Hd. generalize (seqZ first count) as l.
  induction l as [| x l IH]; intros Hl Hd; simpl; [done |]. apply NoDup_cons in Hd as [Hx Hd].
  rewrite contents_insert, delete_id; [apply IH; [| done]; intros; apply Hl; by right |].
  rewrite foldr_insert_lookup, decide_False by done. apply Hl. left.
Qed.
Lemma segment_base_pow k : 1 ≤ k → segment_base k = 2 ^ k.
Proof.
  intros ?. unfold segment_base. rewrite Z.shiftl_1_l. apply Z.bits_inj'. intros m ?.
  rewrite Z.land_spec, Z.lnot_spec, Z.pow2_bits_eqb by lia. change 1 with (2 ^ 0). rewrite Z.pow2_bits_eqb by lia.
  destruct (Z.eqb_spec k m), (Z.eqb_spec 0 m); simpl; lia || done.
Qed.

(** The buckets that a thread uses exist. *)
Lemma path_to_range o x todo mask : path_to o x todo → mask_ok mask o → 0 ≤ x ≤ mask.
Proof.
  intros Hp Hm. split; [| by eapply path_to_le]. destruct todo as [| y todo]; simpl in Hp.
  - destruct Hm as (j & ? & Hm & _). rewrite Hp, Hm, land_pow_mask by lia. apply Z.mod_pos_bound. lia.
  - destruct Hp as (? & -> & _). by apply parent_bucket_lt.
Qed.
Lemma bucket_exists bs mask table ths x : growth_ok bs mask table ths → 0 ≤ x ≤ mask → is_Some (bs !! x).
Proof.
  intros (c & j & (? & -> & _) & Hb & _) ?. apply Hb. split; [lia |]. pose proof (Z.pow_le_mono_r 2 j c). lia.
Qed.
Lemma locked_marked bs mask ns p x w : place_ok bs mask ns p → (x, w) ∈ bucket_locks p →
  marked bs x ∨ ∃ o todo, p = AcqRecheck o todo x.
Proof.
  intros Hp Hx. unfold marked, chain.
  assert (Ht : ∀ todo, todo_ok bs todo → (x, w) ∈ ((λ y, (y, true)) <$> todo : list (Z * bool)) → is_Some (b ← bs !! x; node_list b)).
  { intros todo Ht (y & [= -> ->] & Hy)%list_elem_of_fmap. by rewrite (Ht y Hy). }
  assert (Ha : ∀ y P, at_bucket bs y P → (x, w) = (y, w) → is_Some (b ← bs !! x; node_list b))
    by (intros y P (l & Hl & _) [= ->]; by rewrite Hl).
  destruct p; simpl in Hp, Hx; try (by inversion Hx); rewrite ?elem_of_cons, ?elem_of_nil in Hx.
  all: try (destruct Hp as (_ & _ & _ & Htd & _); left; by eapply Ht).
  - destruct Hp as (_ & Hm & Hpath & Htd & _). destruct Hx as [[= -> ->] | Hx]; [right; eauto | left; by eapply Ht].
  - destruct Hp as (_ & _ & Hat & Htd & _). left. destruct Hx as [[= -> ->] | Hx]; [by eapply Ha | by eapply Ht].
  - left. destruct Hp as (_ & _ & _ & [[Hat _] | [Hat _]]), Hx as [[= -> ->] | []]; by eapply Ha.
  - left. destruct Hp as (_ & _ & _ & Hat & _), Hx as [[= -> ->] | []]; by eapply Ha.
  - left. destruct Hp as ((_ & _ & Hat & _) & _), Hx as [[= -> ->] | []]; by eapply Ha.
  - left. destruct Hp as ((_ & _ & Hat & _) & _), Hx as [[= -> ->] | []]; by eapply Ha.
  - left. destruct Hp as (_ & _ & Hat & _), Hx as [[= -> ->] | []]; by eapply Ha.
  - left. destruct Hp as (_ & _ & Hat & _), Hx as [[= -> ->] | []]; by eapply Ha.
  - left. destruct Hp as (_ & Hat & _), Hx as [[= -> ->] | []]; by eapply Ha.
Qed.
Lemma locked_exists bs mask table ths ns p x w : growth_ok bs mask table ths → place_ok bs mask ns p →
  (x, w) ∈ bucket_locks p → is_Some (bs !! x).
Proof.
  intros Hg Hp Hx. destruct (locked_marked _ _ _ _ _ _ Hp Hx) as [[l Hm] | (o & todo & ->)].
  - unfold chain in Hm. by destruct (bs !! x).
  - destruct Hp as (_ & Hm & Hpath & _). eapply bucket_exists; [done |]. by eapply path_to_range.
Qed.

Lemma grow_inv σ i t p bs' mask' table' : inv σ → threads σ !! i = Some t →
  (tmp_of p, del_of p, fresh_of p, pending_of i p, op_accessor p, todo_of p)
  = (tmp_of (pl t), del_of (pl t), fresh_of (pl t), pending_of i (pl t), op_accessor (pl t), todo_of (pl t)) →
  (∀ x w, (x, w) ∈ bucket_locks p → (x, w) ∈ bucket_locks (pl t)) →
  match pl t with AcqRecheck _ _ _ => False | _ => True end → match p with AcqLock _ _ _ _ => False | _ => True end →
  contents bs' ≡ₚ contents (buckets σ) →
  (∀ x, bs' !! x = buckets σ !! x ∨ buckets σ !! x = None ∧ bs' !! x = Some (Bucket None false)) → my_mask σ ≤ mask' →
  growth_ok bs' mask' table' (<[i := Thread (held t) p]> (threads σ)) → place_ok bs' mask' (nodes σ) p →
  inv (go i t p (set_my_mask mask' (set_table table' (set_buckets bs' σ)))).
Proof.
  intros Hinv Hi Hv Hl Hr Hw Hcon Hb Hmask Hg Hp. injection Hv as Htm Hd Hf Hpe Hac Htd.
  assert (Hch : ∀ x, chain bs' x = chain (buckets σ) x) by (intros x; unfold chain; by destruct (Hb x) as [-> | [-> ->]]).
  assert (Hset : ∀ x, is_settled bs' x ↔ is_settled (buckets σ) x).
  { intros x. unfold is_settled. destruct (Hb x) as [-> | [-> ->]]; [done |]. split; intros (? & ? & ?); by simplify_eq/=. }
  pose proof Hinv as []. constructor; simpl; try done.
  - eapply locks_move; [done.. |]. auto.
  - assert (Hok : buckets_ok (buckets σ) (my_mask σ) (<[i := Thread (held t) p]> (threads σ)))
      by (eapply buckets_move; [done | simpl; by rewrite Htd | done]).
    destruct Hok as (? & Hsm & Hmm & Hch' & Hpar). split; [by rewrite !Hset |]. unfold marked in *. split_and!.
    + intros x. rewrite Hset, Hch. apply Hsm.
    + intros x. rewrite Hch. intros ?%Hmm. lia.
    + intros x l. rewrite Hset, Hch. apply Hch'.
    + intros x. rewrite !Hset. apply Hpar.
  - eapply waits_move; [done | eapply waits_mono; [| done]; unfold marked; intros x; by rewrite Hch
      | intros o todo x Hx; by rewrite Hx in Hr | intros o todo x w Hx; simpl in Hx; by rewrite Hx in Hw].
  - unfold nodes_ok, live. setoid_rewrite Hcon. by eapply nodes_move.
  - intros x l n k. rewrite Hch. intros. eapply home_same; [done |]. by eapply inv_home0.
  - unfold accessors_ok. setoid_rewrite Hcon. eapply accessors_move; try done. unfold accessors. simpl. by rewrite Hac.
  - eapply places_move; [done.. |]. intros j t1 Hj Ht1 Hpl. revert Hpl. apply place_stable; try done.
    + intros x w Hx. destruct (Hb x) as [? | [Hn _]]; [done |].
      destruct (locked_exists _ _ _ _ _ _ x w inv_growth0 (inv_places0 j t1 Ht1) Hx). congruence.
    + intros x. by rewrite Hset.
    + intros h x _. by apply home_same.
  - destruct inv_log0 as (m & ? & ?). exists m. split; [done |]. eapply represents_same; [| done | done]. intros. by rewrite Hcon.
  - by eapply history_move.
  - by rewrite Hcon.
Qed.

Lemma grow_id σ : set_my_mask (my_mask σ) (set_table (my_table σ) (set_buckets (buckets σ) σ)) = σ.
Proof. by destruct σ. Qed.
(** One thread claims the next segment. *)
Lemma claim_inv σ i t o x n sz : inv σ → threads σ !! i = Some t → pl t = Added o x n sz →
  my_table σ !! Z.log2 (o_mask o + 1) = None →
  inv (go i t (Exists o x true n true (Z.log2 (o_mask o + 1))) (set_table (<[Z.log2 (o_mask o + 1) := Allocating]> (my_table σ)) σ)).
Proof.
  intros Hinv Hi Hpl Hn. pose proof (inv_places _ Hinv i t Hi) as Hp. rewrite Hpl in Hp. destruct Hp as (Ho & Hmk & Hat & Hk & Hki).
  set (new_seg := Z.log2 (o_mask o + 1)) in *.
  apply (grow_inv σ i t (Exists o x true n true new_seg) (buckets σ) (my_mask σ) (<[new_seg := Allocating]> (my_table σ)));
    try done; try (by rewrite Hpl); [by left | | by simpl; auto 10].
  destruct (inv_growth _ Hinv) as (c & j & (? & Hm & ?) & Hb & H1 & H2 & H3 & Ht & Hs).
  assert (new_seg = c ∧ j = c) as [-> ->].
  { destruct Hmk as (i' & ? & Hi' & Hle). unfold new_seg in *. rewrite Hi', Z.sub_add, Z.log2_pow2 in * by lia.
    assert (i' ≤ j) by (apply (Z.pow_le_mono_r_iff 2); lia). destruct (decide (i' < c)); [by rewrite H1 in Hn by lia | lia]. }
  assert (Hno : ∀ i' t', threads σ !! i' = Some t' → growing_of (pl t') = NoGrowth).
  { intros i' t' Ht'. destruct (Ht i' t' Ht') as [Hg _]. destruct (growing_of (pl t')); [done | |]; [| lia].
    destruct Hg as (_ & _ & Hg). congruence. }
  exists c, c. split; [done |]. split; [done |]. split_and!.
  - intros s Hlt. rewrite lookup_insert_ne by lia. by apply H1.
  - intros s Hlt. rewrite lookup_insert_ne by lia. by apply H2.
  - by rewrite lookup_insert_eq.
  - intros i1 t1 [[-> ->] | [? Hj1]]%(insert_lookup_inv i i1 t); [.. | done].
    + simpl. rewrite decide_False by lia. rewrite lookup_insert_eq. split; [done |]. right.
      intros i2 t2 Hne [[-> ->] | [? ?]]%(insert_lookup_inv i i2 t); [done | by eapply Hno | done].
    + rewrite (Hno i1 t1 Hj1). split; [done | by left].
  - lia.
Qed.

(** The thread that has claimed the segment allocates it. *)
Lemma enable_inv σ i t o n inserted grow : inv σ → threads σ !! i = Some t → pl t = Growth o n inserted grow → grow ≠ 0 →
  let '(sz, σ') := enable_segment grow σ in inv (go i t (StoreMask o n inserted sz) σ').
Proof.
  intros Hinv Hi Hpl Hne. pose proof (inv_places _ Hinv i t Hi) as Hp. rewrite Hpl in Hp.
  destruct (inv_growth _ Hinv) as (c & j & (? & Hm & Hc) & Hb & H1 & H2 & H3 & Ht & Hs).
  pose proof (Ht i t Hi) as [Hg Hu]. rewrite Hpl in Hg, Hu. simpl in Hg, Hu. rewrite decide_False in Hg, Hu by done.
  destruct Hg as (-> & -> & Hal), Hu as [? | Hu]; [done |].
  assert (Hgo : ∀ c' bs' table', c < c' → first_block ≤ c' → bs' = init_buckets (2 ^ c) (2 ^ c' - 2 ^ c) (buckets σ) →
    (∀ s, c ≤ s < c' → table' !! s = Some Valid) → (∀ s, s < c ∨ c' ≤ s → table' !! s = my_table σ !! s) →
    inv (go i t (StoreMask o n inserted (2 ^ c')) (set_table table' (set_buckets bs' σ)))).
  { intros c' bs' table' Hlt Hf -> Hv Hv'. pose proof (Z.pow_lt_mono_r 2 c c'). assert (0 < 2 ^ c) by lia.
    assert (Hnone : ∀ x, 2 ^ c ≤ x → buckets σ !! x = None).
    { intros x Hx. destruct (buckets σ !! x) eqn:He; [| done]. destruct (Hb x) as [Hx' _]. destruct Hx'; [by rewrite He | lia]. }
    apply (grow_inv σ i t (StoreMask o n inserted (2 ^ c')) (init_buckets (2 ^ c) (2 ^ c' - 2 ^ c) (buckets σ)) (my_mask σ) table'); try done; try (by rewrite Hpl).
    - apply init_buckets_contents. intros. apply Hnone. lia.
    - intros x. rewrite init_buckets_lookup by lia. case_decide; [right; split; [apply Hnone; lia | done] | by left].
    - exists c', c. split; [split_and!; [lia | lia | done | by right] |]. split_and!.
      + intros x. rewrite init_buckets_lookup by lia. case_decide; [split; [intros; lia | done] |]. rewrite Hb. lia.
      + intros s ?. destruct (decide (s < c)); [rewrite Hv' by lia; apply H1; lia | apply Hv; lia].
      + intros s ?. rewrite Hv' by lia. apply H2. lia.
      + rewrite Hv', H2 by lia. done.
      + intros i1 t1 [[-> ->] | [? Hj1]]%(insert_lookup_inv i i1 t); [.. | done].
        * simpl. rewrite Hv', H2 by lia. split; [split_and!; [done | lia | done] |]. right.
          intros i2 t2 ? [[-> ->] | [? ?]]%(insert_lookup_inv i i2 t); [done | by eapply Hu | done].
        * rewrite (Hu i1 t1) by done. split; [done | by left].
      + intros _. exists i. eexists. split; [apply list_lookup_insert_eq; by eapply lookup_lt_Some | done].  }
  unfold enable_segment. destruct (Z.leb_spec first_block c) as [Hf | Hf]; unfold first_block in *.
  - assert (Hsz : segment_size c = 2 ^ c) by (unfold segment_size; apply Z.shiftl_1_l).
    rewrite Z.shiftl_mul_pow2, Hsz, <- Z.pow_add_r by lia. apply Hgo; [lia | lia | | |].
    + rewrite segment_base_pow by lia. f_equal. rewrite Z.pow_add_r by lia. lia.
    + intros s ?. assert (s = c) as -> by lia. apply lookup_insert_eq.
    + intros s ?. apply lookup_insert_ne. lia.
  - assert (c = 1) as -> by lia. apply (Hgo 8); [lia | lia | done | |].
    + intros s ?. rewrite foldr_insert_lookup. rewrite decide_True; [done |]. apply elem_of_seqZ. unfold embedded_block. lia.
    + intros s ?. rewrite foldr_insert_lookup. rewrite decide_False; [done |]. rewrite elem_of_seqZ. unfold embedded_block. lia.
Qed.

Lemma store_mask_inv σ i t o n inserted sz : inv σ → threads σ !! i = Some t → pl t = StoreMask o n inserted sz →
  inv (go i t (Growth o n inserted 0) (set_my_mask (sz - 1) σ)).
Proof.
  intros Hinv Hi Hpl. pose proof (inv_places _ Hinv i t Hi) as Hp. rewrite Hpl in Hp.
  destruct (inv_growth _ Hinv) as (c & j & (? & Hm & Hc) & Hb & H1 & H2 & H3 & Ht & Hs).
  pose proof (Ht i t Hi) as [Hg Hu]. rewrite Hpl in Hg, Hu. simpl in Hg, Hu. destruct Hg as (-> & Hlt & _), Hu as [? | Hu]; [done |].
  pose proof (Z.pow_lt_mono_r 2 j c).
  apply (grow_inv σ i t (Growth o n inserted 0) (buckets σ) (2 ^ c - 1) (my_table σ)); try done; try (by rewrite Hpl).
  - by left.
  - lia.
  - exists c, c. split; [split_and!; [lia | lia | done | done] |]. do 4 (split; [done |]). split; [| lia].
    intros i1 t1 [[-> ->] | [? Hj1]]%(insert_lookup_inv i i1 t); [split; [done | by left] | | done].
    rewrite (Hu i1 t1) by done. split; [done | by left].
Qed.

(** *** The steps preserve the invariant *)
Lemma on_path_max h y j : on_path h y → 1 ≤ j → y < 2 ^ j → y ≤ h mod 2 ^ j.
Proof.
  intros (l & ? & ->) ? Hlt. destruct (decide (l ≤ j)); [apply mod_pow_le; lia |].
  rewrite <- (mod_pow_mod h j l) by lia. rewrite (Z.mod_small (h mod 2 ^ l)); [done |].
  pose proof (Z.mod_pos_bound h (2 ^ l)). lia.
Qed.
Lemma mask_ok_current σ o : inv σ → o_mask o = my_mask σ → mask_ok (my_mask σ) o.
Proof. intros Hinv He. destruct (inv_growth _ Hinv) as (c & j & (? & Hm & _) & _). exists j. rewrite He. split_and!; [lia | done | lia]. Qed.
(** With the current mask the bucket of the operation has the items. *)
Lemma home_current σ o x : inv σ → is_settled (buckets σ) x → x = Z.land (o_hash o) (my_mask σ) → home (buckets σ) (o_hash o) x.
Proof.
  intros Hinv Hs Hx. destruct (inv_growth _ Hinv) as (c & j & (? & Hm & _) & _).
  destruct (inv_buckets _ Hinv) as (_ & Hsm & Hmm & _). rewrite Hm in Hx, Hmm.
  split; [done |]. split; [subst x; apply on_path_land; lia |]. intros y Hy Hp.
  rewrite land_pow_mask in Hx by lia. rewrite Hx. apply on_path_max; [done | lia |]. pose proof (Hmm y (Hsm y Hy)). lia.
Qed.
Lemma settled_at bs mask ths x : buckets_ok bs mask ths → is_settled bs x → at_bucket bs x (λ _, True).
Proof.
  intros (_ & Hsm & _) Hs. pose proof (Hsm x Hs) as [l Hl]. destruct Hs as ([nl s] & Hb & Hs). unfold chain in Hl. rewrite Hb in Hl.
  simpl in *. subst. by exists l.
Qed.
Lemma at_settled bs x P : at_bucket bs x P → is_settled bs x.
Proof. intros (l & Hb & _). by eexists. Qed.
(** The lock of a rehashed bucket is acquired only after its nodes have been moved. *)
Lemma acquired_bucket σ i t x : inv σ → threads σ !! i = Some t → marked (buckets σ) x → x ∉ todo_of (pl t) →
  (∀ j t', j ≠ i → threads σ !! j = Some t' → (x, true) ∉ bucket_locks (pl t')) → at_bucket (buckets σ) x (λ _, True).
Proof.
  intros Hinv Hi [l Hl] Hx Ho. eapply settled_at; [by apply inv_buckets |].
  destruct (inv_buckets _ Hinv) as (_ & _ & _ & Hch & _).
  destruct (Hch x l Hl) as [? | (_ & t1 & (j & Hj)%list_elem_of_lookup & Hx1)]; [done |]. exfalso.
  destruct (decide (j = i)) as [-> |]; [by simplify_eq |]. apply (Ho j t1); [done | done |]. by apply todo_locked.
Qed.
Lemma path_to_notin o x todo : path_to o x todo → x ∉ todo.
Proof. intros Hp Hx. pose proof (path_to_lt o x todo x Hp Hx). lia. Qed.
Lemma available_write i t x w σ : threads σ !! i = Some t → lock_available i x w σ = true →
  ∀ j t', j ≠ i → threads σ !! j = Some t' → (x, true) ∉ bucket_locks (pl t').
Proof.
  intros Hi Ha j t' Hj Hj' Hx. rewrite (lock_available_true i t) in Ha by done.
  specialize (Ha j t' true Hj Hj' Hx). by rewrite orb_true_r in Ha.
Qed.
Lemma rehash_required_false b : rehash_required b = false ↔ is_Some (node_list b).
Proof. unfold rehash_required. by destruct (node_list b). Qed.
Lemma rehash_required_true b : rehash_required b = true ↔ node_list b = None.
Proof. unfold rehash_required. by destruct (node_list b). Qed.
Lemma marked_lookup bs x b : bs !! x = Some b → rehash_required b = false → marked bs x.
Proof. intros Hb Hr%rehash_required_false. unfold marked, chain. by rewrite Hb. Qed.

(** A thread goes to a place where it has no more locks. *)
Ltac move_to Hinv Hi Hpl := apply (goto_inv _ _ _ _ Hinv Hi); rewrite ?Hpl; try done; simpl; auto.

Lemma step_load_mask σ i t o : inv σ → threads σ !! i = Some t → pl t = LoadMask o →
  inv (go i t (acquire (set_mask (my_mask σ) o)) σ).
Proof.
  intros Hinv Hi Hpl. pose proof (inv_places _ Hinv i t Hi) as Hp. rewrite Hpl in Hp.
  move_to Hinv Hi Hpl. split_and!; [done | by apply mask_ok_current | done | intros y Hy; inversion Hy | done].
Qed.
Lemma step_check σ i t o todo x w b : inv σ → threads σ !! i = Some t → pl t = AcqCheck o todo x w → buckets σ !! x = Some b →
  inv (go i t (if rehash_required b then AcqTry o todo x w else AcqLock o todo x w) σ).
Proof.
  intros Hinv Hi Hpl Hb. pose proof (inv_places _ Hinv i t Hi) as Hp. rewrite Hpl in Hp.
  destruct (rehash_required b) eqn:Hr; move_to Hinv Hi Hpl.
  intros; simplify_eq. left. by eapply marked_lookup.
Qed.
Lemma step_try σ i t o todo x w b g : inv σ → threads σ !! i = Some t → pl t = AcqTry o todo x w → buckets σ !! x = Some b →
  inv (go i t (if lock_available i x true σ && (rehash_required b || negb g) then AcqRecheck o todo x else AcqLock o todo x w) σ).
Proof.
  intros Hinv Hi Hpl Hb. pose proof (inv_places _ Hinv i t Hi) as Hp. rewrite Hpl in Hp.
  destruct (lock_available i x true σ) eqn:Ha; simpl; [destruct (rehash_required b || negb g) eqn:Hr |]; move_to Hinv Hi Hpl.
  - intros z w' [[= -> ->] | Hz]%elem_of_cons; auto.
  - destruct Hp as (? & ? & ? & ? & ?). by split_and!.
  - intros; simplify_eq. left. apply orb_false_iff in Hr as [Hr _]. by eapply marked_lookup.
  - intros; simplify_eq. destruct (lock_taken i t _ true σ Hi Ha) as (j & t1 & w1 & ? & Hj & Hx).
    destruct (locked_marked _ _ _ _ _ _ (inv_places _ Hinv j t1 Hj) Hx) as [? | (o' & td & ?)]; [by left |]. right. exists t1, o', td.
    split; [| done]. apply (elem_of_others i t); [done | by exists j].
Qed.
Lemma step_recheck σ i t o todo x b : inv σ → threads σ !! i = Some t → pl t = AcqRecheck o todo x → buckets σ !! x = Some b →
  inv (if rehash_required b then go i t (AcqCheck o (x :: todo) (parent x) false) (set_bucket x (Bucket (Some []) (settled b)) σ)
       else go i t (Acquired o todo x true) σ).
Proof.
  intros Hinv Hi Hpl Hb. pose proof (inv_places _ Hinv i t Hi) as Hp. rewrite Hpl in Hp. destruct Hp as (? & ? & Hpath & ? & ?).
  destruct (rehash_required b) eqn:Hr; [by apply mark_bucket_inv; [.. | by apply rehash_required_true] |].
  move_to Hinv Hi Hpl; [intros; simplify_eq; by eapply marked_lookup |]. split_and!; try done.
  - apply (acquired_bucket σ i t); [done | done | by eapply marked_lookup | rewrite Hpl; by eapply path_to_notin |].
    intros j t' Hj Hj' Hx. apply (inv_locks _ Hinv i j t t' x true); try done. rewrite Hpl. left.
  - destruct todo; [by left | done].
Qed.
Lemma step_lock σ i t o todo x w : inv σ → threads σ !! i = Some t → pl t = AcqLock o todo x w → lock_available i x w σ = true →
  inv (go i t (Acquired o todo x w) σ).
Proof.
  intros Hinv Hi Hpl Ha. pose proof (inv_places _ Hinv i t Hi) as Hp. rewrite Hpl in Hp. destruct Hp as (? & ? & Hpath & ? & ?).
  pose proof (available_write i t x w σ Hi Ha) as Hw.
  move_to Hinv Hi Hpl; [intros z w' [[= -> ->] | Hz]%elem_of_cons; auto |]. split_and!; try done.
  - apply (acquired_bucket σ i t); [done | done | | rewrite Hpl; by eapply path_to_notin | done].
    destruct (inv_waits _ Hinv t o todo x w) as [? | (t1 & o' & td & (j & Hj)%list_elem_of_lookup & Hp1)];
      [by eapply list_elem_of_lookup_2 | done | done |].
    exfalso. apply (Hw j t1); [| done | rewrite Hp1; left]. intros ->. simplify_eq. congruence.
  - destruct todo; [by left | done].
Qed.

Lemma bucket_alive σ x l n : inv σ → buckets σ !! x = Some (Bucket (Some l) true) → n ∈ l → is_Some (nodes σ !! n).
Proof. intros Hinv Hb Hn. apply (inv_nodes _ Hinv). apply elem_of_app. left. by eapply contents_at. Qed.

(** The node of an insertion is allocated when the key was not found. *)
Lemma step_create σ i t o x w l c σ' : inv σ → threads σ !! i = Some t → pl t = Acquired o [] x w →
  buckets σ !! x = Some (Bucket (Some l) true) → o_kind o = Insert → o_tmp o = None → absent (nodes σ) o l →
  create_node (address c) (o_key o) σ = Some σ' →
  inv (go i t (if w then CheckMask (set_tmp (Some (address c)) o) x w NotFound else Upgrade (set_tmp (Some (address c)) o) x) σ').
Proof.
  intros Hinv Hi Hpl Hb Hki Ht Habs Hc. unfold create_node in Hc. case_decide as Hn; simplify_eq.
  pose proof (inv_places _ Hinv i t Hi) as Hp. rewrite Hpl in Hp. destruct Hp as (Ho & Hm & Hat & _ & _ & Hloc).
  set (a := address c) in *. set (o' := set_tmp (Some a) o). set (ns' := <[a := o_key o]> (nodes σ)).
  assert (Ho' : op_ok ns' o').
  { destruct Ho as (? & _ & _). split; [done |]. unfold o'. simpl. rewrite Hki. split; [done |]. split; [done |]. apply lookup_insert_eq. }
  assert (Habs' : absent ns' o' l).
  { apply (absent_stable (buckets σ) (nodes σ) ns' o' x l); [| done | done]. intros n Hin. apply lookup_insert_ne. intros <-.
    destruct (proj2 (inv_nodes _ Hinv) a) as [? ?]; [apply elem_of_app; by left | congruence]. }
  assert (Hat' : at_bucket (buckets σ) x (absent ns' o')) by by exists l.
  assert (Hoa : op_accessor (pl t) = []) by (rewrite Hpl; unfold op_accessor; simpl; by rewrite Hki).
  assert (Htm : tmp_of (pl t) = []) by (rewrite Hpl; unfold tmp_of; simpl; by rewrite Ht).
  destruct w; apply create_inv; try done; rewrite ?Hoa, ?Hpl; try done.
  - unfold op_accessor. simpl. by rewrite Hki.
  - simpl. split; [| by destruct Hloc as [? | ?]; [left | right]]. split_and!; try done. by destruct Hat' as (l' & ? & ?); exists l'.
  - unfold op_accessor. simpl. by rewrite Hki.
  - simpl. split_and!; try done; [by destruct Hloc as [? | [? ?]] |]. left. split; [done |]. by split.
Qed.
Lemma step_operate σ i t o x w l c σ' : inv σ → threads σ !! i = Some t → pl t = Acquired o [] x w →
  buckets σ !! x = Some (Bucket (Some l) true) → operate c i t o x w (Bucket (Some l) true) l σ = Some σ' → inv σ'.
Proof.
  intros Hinv Hi Hpl Hb Hop. pose proof (inv_places _ Hinv i t Hi) as Hp. rewrite Hpl in Hp.
  destruct Hp as (Ho & Hm & _ & _ & Hex & Hloc).
  assert (Hfound : ∀ n, search_bucket (o_key o) l (nodes σ) = Some (Some n) → o_kind o = Find ∨ o_kind o = Insert →
    inv (go i t (Exists o x w n false 0) σ)).
  { intros n [Hn Hk]%search_bucket_found Hki. move_to Hinv Hi Hpl. split_and!; try done. by exists l. }
  assert (Hcheck : absent (nodes σ) o l → (o_kind o = Insert → w = true ∧ is_Some (o_tmp o)) →
    inv (go i t (CheckMask o x w NotFound) σ)).
  { intros Habs Hins. move_to Hinv Hi Hpl. split; [| done]. split_and!; try done; [by exists l |]. intros Hki. destruct (Hins Hki). done. }
  unfold operate in Hop. destruct (o_kind o) as [| | | a] eqn:Hki.
  - destruct (search_bucket (o_key o) l (nodes σ)) as [[n |] |] eqn:Hs; simplify_eq/=; [by apply Hfound; [| left] |].
    apply Hcheck; [| done]. unfold absent. rewrite Hki. by apply search_bucket_absent.
  - destruct (search_bucket (o_key o) l (nodes σ)) as [[n |] |] eqn:Hs; simplify_eq/=; [by apply Hfound; [| right] |].
    assert (Habs : absent (nodes σ) o l) by (unfold absent; rewrite Hki; by apply search_bucket_absent).
    destruct (o_tmp o) as [n |] eqn:Ht; simplify_eq/=.
    + destruct w; [by apply Hcheck |]. move_to Hinv Hi Hpl. split_and!; try done; [by destruct Hloc as [? | [? ?]] |].
      left. split; [by exists l |]. split; [done | by rewrite Ht].
    + destruct (create_node (address c) (o_key o) σ) as [σ1 |] eqn:Hc; simplify_eq/=. by eapply step_create.
  - destruct (search_bucket (o_key o) l (nodes σ)) as [[n |] |] eqn:Hs; simplify_eq/=.
    + apply search_bucket_found in Hs as [Hn Hk]. destruct w; [apply remove_inv; try done; by rewrite Hki |].
      move_to Hinv Hi Hpl. split_and!; try done; [by destruct Hloc as [? | [? ?]] |]. right. split; [by exists l | done].
    + apply Hcheck; [| done]. unfold absent. rewrite Hki. by apply search_bucket_absent.
  - destruct (search_node (my_node a) l (nodes σ)) as [r |] eqn:Hs; simplify_eq/=. apply search_node_spec in Hs.
    destruct Ho as (? & Hko & ?). rewrite Hki in Hko. destruct r.
    + unfold is_exclude in Hex. rewrite Hki in Hex. rewrite Hex in Hpl by done. apply remove_inv; try done; [by apply Hs | by apply Hko | by rewrite Hki].
    + apply Hcheck; [| done]. unfold absent. rewrite Hki. rewrite <- Hs. done.
Qed.
Lemma step_rehash σ i t o y todo x w l c σ' : inv σ → threads σ !! i = Some t → pl t = Acquired o (y :: todo) x w →
  buckets σ !! x = Some (Bucket (Some l) true) → rehash hash c i t o y todo x w (Bucket (Some l) true) l σ = Some σ' → inv σ'.
Proof.
  intros Hinv Hi Hpl Hb Hre. pose proof (inv_places _ Hinv i t Hi) as Hp. rewrite Hpl in Hp.
  destruct Hp as (Ho & Hm & Hat & Htd & Hex & Hpath). pose proof Hpath as (Hy & Hxy & _).
  assert (Hby : buckets σ !! y = Some (Bucket (Some []) false)) by (apply Htd; left).
  unfold rehash in Hre. destruct (split_chain hash y l (nodes σ)) as [[moved rest] |] eqn:Hs; simpl in Hre; [| done].
  destruct (get_bucket y σ) as [by_ |] eqn:Hg; simpl in Hre; [| done]. apply get_bucket_lookup in Hg. rewrite Hby in Hg.
  injection Hg as <-. cbn [node_list mbind option_bind settled] in Hre.
  assert (Hst : w = true ∨ moved = [] → inv (go i t (Acquired o todo y true) (set_buckets (moved_buckets (buckets σ) x y moved rest) σ)))
    by (by eapply settle_inv).
  destruct moved as [| n moved].
  - injection Hre as <-. specialize (Hst (or_intror eq_refl)). apply split_chain_nil in Hs as ->. unfold moved_buckets in Hst.
    by rewrite (insert_id (buckets σ) x) in Hst.
  - destruct w; [injection Hre as <-; by apply Hst; left |].
    destruct (upgraded c && lock_available i x true σ) eqn:Hu; injection Hre as <-.
    + apply andb_true_iff in Hu as [_ Ha]. move_to Hinv Hi Hpl. intros z w' [[= -> ->] | Hz]%elem_of_cons; [by right |]. left. by right.
    + move_to Hinv Hi Hpl; [intros z w' Hz; left; by right |].
      intros ? ? ? ? [= <- <- <- <-]. left. unfold marked, chain. by rewrite Hb.
Qed.

Lemma step_upgrade σ i t o x b : inv σ → threads σ !! i = Some t → pl t = Upgrade o x →
  inv (go i t (if b && lock_available i x true σ
               then match o_kind o with Erase => Acquired o [] x true | _ => CheckMask o x true NotFound end else Reacquire o x) σ).
Proof.
  intros Hinv Hi Hpl. pose proof (inv_places _ Hinv i t Hi) as Hp. rewrite Hpl in Hp. destruct Hp as (Ho & Hm & Hx & Hp).
  destruct (b && lock_available i x true σ) eqn:Hu.
  - apply andb_true_iff in Hu as [_ Ha].
    assert (Hl : ∀ z w, (z, w) ∈ [(x, true)] → (z, w) ∈ [(x, false)] ∨ lock_available i z w σ = true)
      by (intros z w [= -> ->]%list_elem_of_singleton; by right).
    destruct Hp as [[(l & Hb & Habs) [Hki Ht]] | [Hat Hki]]; rewrite Hki; move_to Hinv Hi Hpl.
    + split; [| by left]. split_and!; try done. by exists l.
    + split_and!; try done; [intros y Hy; inversion Hy | by left].
  - move_to Hinv Hi Hpl; [intros z w Hz; inversion Hz |]. split_and!; try done; destruct Hp as [[Hat ?] | [Hat ?]]; auto; by eapply at_settled.
Qed.
Lemma step_reacquire σ i t o x : inv σ → threads σ !! i = Some t → pl t = Reacquire o x → lock_available i x true σ = true →
  inv (go i t (match o_kind o with Erase => CheckMask o x true Contended | _ => SearchAgain o x end) σ).
Proof.
  intros Hinv Hi Hpl Ha. pose proof (inv_places _ Hinv i t Hi) as Hp. rewrite Hpl in Hp. destruct Hp as (Ho & Hm & Hx & Hs & Hki).
  pose proof (settled_at _ _ _ _ (inv_buckets _ Hinv) Hs) as Hat.
  assert (Hl : ∀ (z : Z) (w : bool), (z, w) ∈ [(x, true)] → (z, w) ∈ ([] : list (Z * bool)) ∨ lock_available i z w σ = true)
    by (intros z w [= -> ->]%list_elem_of_singleton; by right).
  destruct Hki as [Hins | Hki]; [pose proof Hins as [Hki _] |]; rewrite Hki; move_to Hinv Hi Hpl.
  split; [| by left]. split_and!; try done; [by destruct Hat as (l & ? & _); exists l | congruence].
Qed.
Lemma step_search_again σ i t o x l (b : bool) r : inv σ → threads σ !! i = Some t → pl t = SearchAgain o x →
  buckets σ !! x = Some (Bucket (Some l) true) → search_bucket (o_key o) l (nodes σ) = Some r →
  inv (go i t (match r with None => CheckMask o x true NotFound
               | Some n => if b then Exists o x false n false 0 else AcqLock o [] x false end) σ).
Proof.
  intros Hinv Hi Hpl Hb Hs. pose proof (inv_places _ Hinv i t Hi) as Hp. rewrite Hpl in Hp.
  destruct Hp as (Ho & Hm & Hx & Hat & [Hki Ht]). destruct r as [n |]; [destruct b |].
  - apply search_bucket_found in Hs as [Hn Hk]. move_to Hinv Hi Hpl; [| split_and!; try done; [by exists l | by right]].
    intros z w [= -> ->]%list_elem_of_singleton. right. apply (lock_available_true i t); [done |].
    intros j t' w' Hj Hj' Hz. destruct (inv_locks _ Hinv i j t t' x w'); try done. rewrite Hpl. left.
  - move_to Hinv Hi Hpl; [intros z w Hz; inversion Hz | |].
    + intros ? ? ? ? [= <- <- <- <-]. left. unfold marked, chain. by rewrite Hb.
    + split_and!; try done; [intros y Hy; inversion Hy | unfold is_exclude; by rewrite Hki].
  - move_to Hinv Hi Hpl. split; [| by left]. split_and!; try done. exists l. split; [done |]. intros _. unfold absent. rewrite Hki.
    by apply search_bucket_absent.
Qed.

(** After [check_mask_race] has returned false the items of the hash code are in the
    bucket of the thread. *)
Lemma no_race_inv σ i t o o' x w why σ' : inv σ → threads σ !! i = Some t →
  pl t = CheckMask o x w why ∨ (∃ y, pl t = CheckFlag o x w why y) → o' = set_mask (o_mask o') o →
  checking (buckets σ) (my_mask σ) (nodes σ) o x w why → mask_ok (my_mask σ) o' → home (buckets σ) (o_hash o) x →
  no_race i t o' x w why σ = Some σ' → inv σ'.
Proof.
  intros Hinv Hi Hpl Ho' (Hok & Hm & Hat & Hins & Hcon) Hm' Hh Hno. pose proof Hat as (l & Hb & Habs).
  pose proof Hok as (Hho & Hka & Hkt). pose proof Hh as Hh'. rewrite Hho in Hh'.
  pose proof (λ m Hr (E : why = NotFound), absent_represents _ _ m o x l (inv_home _ Hinv) Hr Hh' Hb (Habs E)) as Hnone.
  assert (Htmp : o_kind o ≠ Insert → o_tmp o = None) by (destruct (o_tmp o); [destruct Hkt; done | done]).
  assert (Hpl' : (∃ y, pl t = CheckFlag o x w why y) ∨ pl t = CheckMask o x w why) by tauto.
  unfold no_race in Hno. rewrite Ho' in Hno, Hm'. simpl in Hno. set (m' := o_mask o') in *. clearbody m'.
  assert (Hv : ∀ p, view i p = view i (CheckMask o x w why) → todo_of p = [] → bucket_locks p = [(x, w)] →
    match p with AcqLock _ _ _ _ => False | _ => True end → place_ok (buckets σ) (my_mask σ) (nodes σ) p → inv (go i t p σ)).
  { intros p Hv Ht Hl Hp Hpk. apply (goto_inv _ _ _ _ Hinv Hi); try done.
    - by destruct Hpl as [-> | [y ->]].
    - by destruct Hpl as [-> | [y ->]].
    - rewrite Hl. destruct Hpl as [-> | [y ->]]; auto.
    - by destruct Hpl as [-> | [y ->]].
    - by intros ? ? ? ? ->. }
  assert (Hret : ∀ a, o_kind o ≠ Insert →
    (why = NotFound → ∀ m, represents (buckets σ) (nodes σ) m → apply_event m (Event i (o_key o) a) = Some m) →
    (why = Contended → False) → inv (return_absent i t (set_mask m' o) a σ)).
  { intros a Hki Ha Hw. eapply (return_absent_inv σ i t o x w why a); [done | done | done | by apply Htmp |].
    destruct why; [by apply Ha | by destruct Hw]. }
  unfold apply_event in Hret. destruct (o_kind o) as [| | | a] eqn:Hki; simplify_eq/=.
  - apply Hret; [done | | by intros [? ?]%Hcon]. intros Hw m Hr. simpl. by rewrite decide_True by by apply Hnone.
  - destruct (Hins eq_refl) as (-> & -> & Ht). apply Hv; try done. simpl. split_and!; try done. exists l. split; [done | by apply Habs].
  - destruct why; simplify_eq.
    + apply Hret; [done | | done]. intros Hw m Hr. simpl. by rewrite decide_True by by apply Hnone.
    + destruct (Hcon eq_refl) as [_ ->]. apply Hv; try done. simpl. split_and!; try done; [by exists l | intros y Hy; inversion Hy | by right].
  - destruct (nodes σ !! my_node a) as [k |] eqn:Hk; simplify_eq/=. apply Hret; [done | | by intros [? ?]%Hcon].
    intros Hw m Hr. simpl. by rewrite decide_False by by apply Hnone.
Qed.
Lemma step_check_mask σ i t o x w why rq c σ' : inv σ → threads σ !! i = Some t → pl t = CheckMask o x w why →
  next hash rq c i σ = Some σ' → inv σ'.
Proof.
  intros Hinv Hi Hpl Hn. unfold next in Hn. rewrite Hi in Hn. simpl in Hn. rewrite Hpl in Hn.
  pose proof (inv_places _ Hinv i t Hi) as Hp. rewrite Hpl in Hp. destruct Hp as (Hck & Hloc).
  pose proof Hck as ((Hho & _) & (i' & ? & Hmi & Hle) & Hat & _).
  assert (Hcur : Z.land (o_hash o) (o_mask o) = Z.land (o_hash o) (my_mask σ) → home (buckets σ) (o_hash o) x).
  { intros He. destruct Hloc as [-> | [_ ?]]; [| done]. apply (home_current σ o); [done | by eapply at_settled | done]. }
  case_decide as Hd; [| case_decide as Hd'].
  - eapply (no_race_inv σ i t o o); try done; [by left | by destruct o | by apply Hck | apply Hcur; by rewrite Hd].
  - eapply (no_race_inv σ i t o (set_mask (my_mask σ) o)); try done; [by left | by apply mask_ok_current | by apply Hcur].
  - simplify_eq. destruct (inv_growth _ Hinv) as (cc & j & (? & Hmj & _) & _).
    assert (i' ≤ j) by (apply (Z.pow_le_mono_r_iff 2); lia).
    rewrite Hmi, Hmj, !land_pow_mask in Hd' by lia.
    destruct (collision_bucket_path (o_hash o) i' j) as (Hp1 & Hp2 & Hp3); [rewrite Hho; apply hash_nonneg | lia | done |].
    rewrite <- Hmi, <- Hmj in *. pose proof (on_path_nonneg _ _ Hp1).
    move_to Hinv Hi Hpl. split_and!; [| done | lia |].
    + destruct Hck as (? & ? & ? & ? & ?). split_and!; try done. by apply mask_ok_current.
    + destruct Hloc as [Hx | [-> ?]]; [right | by left]. rewrite Hmi, land_pow_mask in Hx by lia. subst x.
      split_and!; try done; [by exists i'; split; [lia |] | lia].
Qed.
Lemma step_check_flag σ i t o x w why y b σ' : inv σ → threads σ !! i = Some t → pl t = CheckFlag o x w why y →
  buckets σ !! y = Some b → (if rehash_required b then no_race i t o x w why σ else Some (go i t (acquire o) σ)) = Some σ' → inv σ'.
Proof.
  intros Hinv Hi Hpl Hb Hn. pose proof (inv_places _ Hinv i t Hi) as Hp. rewrite Hpl in Hp. destruct Hp as (Hck & Hy & Hp).
  pose proof Hck as (Hok & Hm & Hat & _). destruct (rehash_required b) eqn:Hr.
  - eapply (no_race_inv σ i t o o); try done; [right; by exists y | by destruct o |].
    destruct Hp as [[_ ?] | (Hpx & Hpy & Hxy & Hmin)]; [done |]. split; [by eapply at_settled |]. split; [done |].
    intros z Hz Hpz. destruct (decide (z ≤ x)); [done |]. exfalso. destruct (inv_buckets _ Hinv) as (_ & Hsm & _ & _ & Hpar).
    assert (is_settled (buckets σ) y) as Hs by (eapply (settled_below _ (o_hash o) y z); [done | done | done | apply Hmin; [done | lia] | done]).
    apply Hsm in Hs as [l Hl]. unfold chain in Hl. rewrite Hb in Hl. apply rehash_required_true in Hr. simpl in Hl. congruence.
  - simplify_eq. move_to Hinv Hi Hpl; [intros z w' Hz; inversion Hz |]. split_and!; try done. intros z Hz; inversion Hz.
Qed.

Lemma step_added σ i t o x n sz : inv σ → threads σ !! i = Some t → pl t = Added o x n sz →
  let '(grow, σ') := grow_segment sz (o_mask o) σ in inv (go i t (Exists o x true n true grow) σ').
Proof.
  intros Hinv Hi Hpl. pose proof (inv_places _ Hinv i t Hi) as Hp. rewrite Hpl in Hp. destruct Hp as (Ho & Hmk & Hat & Hk & Hki).
  assert (Hno : inv (go i t (Exists o x true n true 0) σ)) by (move_to Hinv Hi Hpl; by split_and!; try done; right).
  unfold grow_segment. destruct (o_mask o <=? sz); [| done]. destruct (my_table σ !! Z.log2 (o_mask o + 1)) eqn:Hs; [done |].
  by eapply claim_inv.
Qed.
Lemma step_exists σ i t o x w n inserted grow rq c σ' : inv σ → threads σ !! i = Some t → pl t = Exists o x w n inserted grow →
  next hash rq c i σ = Some σ' → inv σ'.
Proof.
  intros Hinv Hi Hpl Hn. unfold next in Hn. rewrite Hi in Hn. simpl in Hn. rewrite Hpl in Hn.
  pose proof (inv_places _ Hinv i t Hi) as Hp. rewrite Hpl in Hp. destruct Hp as (Ho & Hat & Hk & Hki & Hins).
  pose proof (found_inv σ i t o x w n inserted grow Hinv Hi Hpl) as Hf. destruct (o_result o) as [write |]; [| simplify_eq; by apply Hf].
  rewrite Hk in Hn. cbn [mbind option_bind] in Hn. destruct (item_available n write (all_accessors (threads σ))) eqn:Ha; cbn [andb] in Hn.
  - destruct (inserted || negb (acquire_fails c)) eqn:Hg; [simplify_eq; by apply Hf |]. apply orb_false_iff in Hg as [-> Hg].
    destruct (acquire_fails c); simplify_eq/=. move_to Hinv Hi Hpl. intros ? ? Hz; inversion Hz.
  - destruct (acquire_fails c); [| by simplify_eq]. destruct inserted; simplify_eq/=. move_to Hinv Hi Hpl. intros ? ? Hz; inversion Hz.
Qed.
Lemma set_nodes_id σ : set_nodes (nodes σ) σ = σ.
Proof. by destruct σ. Qed.
Lemma step_growth σ i t o n inserted grow rq c σ' : inv σ → threads σ !! i = Some t → pl t = Growth o n inserted grow →
  next hash rq c i σ = Some σ' → inv σ'.
Proof.
  intros Hinv Hi Hpl Hn. unfold next in Hn. rewrite Hi in Hn. simpl in Hn. rewrite Hpl in Hn. case_decide as Hd.
  - assert (Hfin : ∀ ns', (∀ m, m ∉ option_list (o_tmp o) → ns' !! m = nodes σ !! m) →
      inv (add_returned (Event i (o_key o) (lookup_answer o inserted n)) (go i t Idle (set_nodes ns' σ)))).
    { intros ns' Hns. apply (return_inv σ i t (option_list (o_tmp o))); try done; rewrite ?Hpl; simpl; try done.
      - by rewrite decide_True.
      - unfold tmp_of. simpl. by rewrite app_nil_r.
      - intros a Ha Hin. apply (tmp_no_accessor σ t (my_node a) a Hinv); [by eapply list_elem_of_lookup_2 | by rewrite Hpl | | done].
        destruct (accessors_perm i t (Thread (held t) Idle) _ Hi) as [-> Hp2]. rewrite Hp2 in Ha. unfold accessors in *.
        rewrite !elem_of_app in *. simpl in Ha. rewrite elem_of_nil in Ha. tauto. }
    destruct (o_tmp o) as [m |]; simpl in Hn.
    + unfold delete_node in Hn. destruct (nodes σ !! m); simplify_eq/=. apply Hfin. intros m' Hm'. apply lookup_delete_ne. intros ->. apply Hm'. left.
    + simplify_eq. rewrite <- (set_nodes_id σ) at 1. by apply Hfin.
  - pose proof (enable_inv σ i t o n inserted grow Hinv Hi Hpl Hd) as He. destruct (enable_segment grow σ). by simplify_eq.
Qed.
Lemma step_delete σ i t o n rq c σ' : inv σ → threads σ !! i = Some t → pl t = DeleteItem o n → next hash rq c i σ = Some σ' → inv σ'.
Proof.
  intros Hinv Hi Hpl Hn. unfold next in Hn. rewrite Hi in Hn. simpl in Hn. rewrite Hpl in Hn.
  destruct (nodes σ !! n) as [k |] eqn:Hk; simpl in Hn; [| done]. destruct (item_available _ _ _) eqn:Ha; [| by simplify_eq].
  unfold delete_node in Hn. rewrite Hk in Hn. simplify_eq/=.
  pose proof (inv_places _ Hinv i t Hi) as Hp. rewrite Hpl in Hp. destruct Hp as ((_ & _ & Ht) & Hki).
  apply (return_inv σ i t [n]); try done; rewrite ?Hpl; try done.
  - unfold tmp_of. simpl. destruct (o_tmp o); [| done]. destruct Ht as [Ht _]. by rewrite Ht in Hki.
  - intros a Hin Hn%list_elem_of_singleton. rewrite item_available_true in Ha. by destruct (Ha a Hin Hn).
  - intros m Hm. apply lookup_delete_ne. intros ->. apply Hm. left.
Qed.
Lemma step_idle σ i t rq c σ' : inv σ → threads σ !! i = Some t → pl t = Idle → next hash rq c i σ = Some σ' → inv σ'.
Proof.
  intros Hinv Hi Hpl Hn. unfold next in Hn. rewrite Hi in Hn. simpl in Hn. rewrite Hpl in Hn. destruct rq as [k r | k r | k r | k | j | j].
  1, 2, 4: simplify_eq; move_to Hinv Hi Hpl; by split.
  - unfold create_node in Hn. case_decide as Hd; simplify_eq/=. apply create_inv; try done; rewrite ?Hpl; try done.
    simpl. split; [done |]. split; [done |]. split; [done |]. apply lookup_insert_eq.
  - destruct (held t !! j) as [a |] eqn:Ha; simplify_eq/=. destruct (nodes σ !! my_node a) as [k |] eqn:Hk; simplify_eq/=.
    apply (accessor_inv σ i t _ []); try done.
    + right. by eexists.
    + unfold accessors. rewrite Hpl. simpl. by rewrite <- delete_Permutation.
    + simpl. assert (hash k = my_hash a) as Hh.
      { destruct (inv_accessors _ Hinv) as (_ & Hac & _). destruct (Hac a) as (_ & k' & Hk' & Hh'); [| congruence].
        eapply (accessor_elem t); [by eapply list_elem_of_lookup_2 |]. unfold accessors. apply elem_of_app. right. by eapply list_elem_of_lookup_2. }
      split; [done |]. split; [done | done].
  - destruct (held t !! j) as [a |] eqn:Ha; simplify_eq/=. destruct (nodes σ !! my_node a) as [k |] eqn:Hk; simplify_eq/=.
    apply (accessor_inv σ i t _ [a]); try done; [by left |]. unfold accessors. rewrite Hpl. simpl. by rewrite <- delete_Permutation.
Qed.

Lemma get_at σ x P b : at_bucket (buckets σ) x P → get_bucket x σ = Some b → ∃ l, b = Bucket (Some l) true ∧ P l.
Proof. intros Hat Hb%get_bucket_lookup. by eapply at_bucket_lookup. Qed.
Lemma step_acquired σ i t o todo x w rq c σ' : inv σ → threads σ !! i = Some t → pl t = Acquired o todo x w →
  next hash rq c i σ = Some σ' → inv σ'.
Proof.
  intros Hinv Hi Hpl Hn. unfold next in Hn. rewrite Hi in Hn. simpl in Hn. rewrite Hpl in Hn.
  pose proof (inv_places _ Hinv i t Hi) as Hp. rewrite Hpl in Hp. destruct Hp as (_ & _ & Hat & _).
  destruct (get_bucket x σ) as [b |] eqn:Hb; simpl in Hn; [| done]. destruct (get_at σ x _ b Hat Hb) as (l & -> & _).
  apply get_bucket_lookup in Hb. simpl in Hn. destruct todo; [by eapply step_operate | by eapply step_rehash].
Qed.
Lemma step_checked σ i t o x rq c σ' : inv σ → threads σ !! i = Some t → pl t = Checked o x →
  next hash rq c i σ = Some σ' → inv σ'.
Proof.
  intros Hinv Hi Hpl Hn. unfold next in Hn. rewrite Hi in Hn. simpl in Hn. rewrite Hpl in Hn.
  pose proof (inv_places _ Hinv i t Hi) as Hp. rewrite Hpl in Hp. destruct Hp as (_ & _ & Hat & _).
  destruct (get_bucket x σ) as [b |] eqn:Hb; simpl in Hn; [| done]. destruct (get_at σ x _ b Hat Hb) as (l & -> & _).
  apply get_bucket_lookup in Hb. simpl in Hn. destruct (o_tmp o) as [n |] eqn:Ht; simplify_eq/=. by apply add_inv.
Qed.
Lemma hash_next_inv rq c i σ σ' : inv σ → next hash rq c i σ = Some σ' → inv σ'.
Proof.
  intros Hinv Hn. pose proof Hn as Hn'. unfold next in Hn'. destruct (threads σ !! i) as [t |] eqn:Hi; simpl in Hn'; [| done].
  destruct (pl t) as [| o | o todo x w | o todo x w | o todo x | o todo x w | o todo x w | o x | o x | o x | o x w why | o x w why y
    | o x | o x n sz | o x w n ins grow | o n ins grow | o n ins sz | o n] eqn:Hpl.
  - by eapply step_idle.
  - simplify_eq. by apply step_load_mask.
  - destruct (get_bucket x σ) eqn:Hb; simplify_eq/=. apply get_bucket_lookup in Hb. by apply step_check.
  - destruct (get_bucket x σ) eqn:Hb; simplify_eq/=. apply get_bucket_lookup in Hb. by apply step_try.
  - destruct (get_bucket x σ) eqn:Hb; simplify_eq/=. apply get_bucket_lookup in Hb. by apply step_recheck.
  - destruct (lock_available i x w σ) eqn:Ha; simplify_eq; [by apply step_lock | done].
  - by eapply step_acquired.
  - simplify_eq. by apply step_upgrade.
  - destruct (lock_available i x true σ) eqn:Ha; simplify_eq; [by apply step_reacquire | done].
  - destruct (get_bucket x σ) as [b |] eqn:Hb; simpl in Hn'; [| done]. pose proof (inv_places _ Hinv i t Hi) as Hp. rewrite Hpl in Hp.
    destruct Hp as (_ & _ & _ & Hat & _), (get_at σ x _ b Hat Hb) as (l & -> & _). apply get_bucket_lookup in Hb. simpl in Hn'.
    destruct (search_bucket _ _ _) as [r |] eqn:Hs; simplify_eq/=. by eapply step_search_again.
  - by eapply step_check_mask.
  - destruct (get_bucket y σ) eqn:Hb; simpl in Hn'; [| done]. apply get_bucket_lookup in Hb. by eapply step_check_flag.
  - by eapply step_checked.
  - pose proof (step_added σ i t o x n sz Hinv Hi Hpl) as Ha. destruct (grow_segment sz (o_mask o) σ). by simplify_eq.
  - by eapply step_exists.
  - by eapply step_growth.
  - simplify_eq. by eapply store_mask_inv.
  - by eapply step_delete.
Qed.

Lemma start_lookup x : ({[0 := Bucket (Some []) true; 1 := Bucket (Some []) true]} : gmap Z bucket) !! x
  = if decide (0 ≤ x < 2) then Some (Bucket (Some []) true) else None.
Proof.
  destruct (decide (x = 0)) as [-> |]; [done |]. destruct (decide (x = 1)) as [-> |]; [done |].
  rewrite lookup_insert_ne, lookup_singleton_ne, decide_False by lia. done.
Qed.
Lemma hash_start_inv n : inv (start n).
Proof.
  assert (Hth : ∀ i t, replicate n (Thread (K:=K) [] Idle) !! i = Some t → t = Thread [] Idle)
    by (by intros i t [-> _]%lookup_replicate).
  assert (Hin : ∀ t, t ∈ replicate n (Thread (K:=K) [] Idle) → t = Thread [] Idle) by (by intros t [-> _]%elem_of_replicate).
  assert (Hnil : ∀ A (f : thread (K:=K) → list A), f (Thread [] Idle) = [] → replicate n (Thread (K:=K) [] Idle) ≫= f = []).
  { intros A f Hf. clear Hth Hin. induction n as [| m IH]; [done |]. simpl. by rewrite Hf. }
  assert (Hlive : live (buckets (start (K:=K) n)) (threads (start (K:=K) n)) = []) by (unfold live, tmps, dels; simpl; by rewrite !Hnil).
  assert (Hacc : all_accessors (threads (start (K:=K) n)) = []) by by apply (Hnil _ accessors).
  pose proof start_lookup as Hb. constructor; cbn [start buckets my_mask my_table nodes threads log returned my_size].
  - intros i j t t' x w _ ->%Hth _ Hx. inversion Hx.
  - exists 1, 1. split; [split_and!; [lia | lia | done | by left] |]. split_and!.
    + intros x. rewrite Hb. case_decide; [by split; [intros; lia |] |]. split; [intros [? ?]; done | intros; lia].
    + intros s ?. assert (s = 0) as -> by lia. done.
    + intros s ?. rewrite lookup_singleton_ne by lia. done.
    + done.
    + intros i t ->%Hth. simpl. split; [done | by left].
    + lia.
  - unfold buckets_ok, is_settled, marked, chain. split_and!; try by eexists.
    + intros x. rewrite Hb. by case_decide; [| intros (? & ? & ?)].
    + intros x. rewrite Hb. case_decide; [intros _; change (embedded_buckets - 1) with 1; lia | intros [? ?]; done].
    + intros x l. rewrite Hb. case_decide; [intros _; left; by eexists | done].
    + intros x. rewrite Hb. case_decide; [lia | intros (? & ? & ?); done].
  - intros t o todo x w ->%Hin ?. done.
  - unfold nodes_ok. cbn [start buckets threads] in Hlive. rewrite Hlive. split; [constructor | intros m Hm; inversion Hm].
  - intros x l m k Hl Hm. unfold chain in Hl. rewrite Hb in Hl. case_decide; simplify_eq/=. inversion Hm.
  - unfold accessors_ok. cbn [start threads] in Hacc. rewrite Hacc. split_and!; [done | intros a Ha; inversion Ha | intros ? ? ? _ _ Ha; inversion Ha].
  - intros i t ->%Hth. done.
  - exists ∅. split; [done |]. intros k m. rewrite lookup_empty. split; [done |]. intros [Hm _]. inversion Hm.
  - intros i t ->%Hth. done.
  - done.
Qed.

Lemma hash_reach_inv n σ : rtc (step hash) (start n) σ → inv σ.
Proof.
  intros Hr. assert (Hi : inv (start n)) by apply hash_start_inv. revert Hi.
  induction Hr as [| σ1 σ2 σ3 [rq c i s s' Hs] Hr IH]; [done |]. intros Hi. apply IH. by eapply hash_next_inv.
Qed.

(** *** Every step is defined *)
Lemma segment_index_lt x j : 0 ≤ x < 2 ^ j → 1 ≤ j → 0 ≤ segment_index_of x < j.
Proof.
  intros Hx ?. unfold segment_index_of. split; [apply Z.log2_nonneg |]. rewrite Z.log2_lor by lia. change (Z.log2 1) with 0.
  destruct (decide (x = 0)) as [-> |]; [simpl; lia |]. assert (Z.log2 x < j) by (apply Z.log2_lt_pow2; lia). lia.
Qed.
Lemma get_bucket_total σ x : inv σ → 0 ≤ x ≤ my_mask σ → ∃ b, get_bucket x σ = Some b ∧ buckets σ !! x = Some b.
Proof.
  intros Hinv Hx. destruct (bucket_exists _ _ _ _ x (inv_growth _ Hinv) Hx) as [b Hb]. exists b. split; [| done].
  destruct (inv_growth _ Hinv) as (c & j & (? & Hm & _) & _ & H1 & _). pose proof (segment_index_lt x j). unfold get_bucket.
  rewrite H1 by lia. by replace (_ + _) with x by lia.
Qed.
Lemma get_bucket_at σ x P : inv σ → at_bucket (buckets σ) x P → ∃ l, get_bucket x σ = Some (Bucket (Some l) true)
  ∧ P l ∧ buckets σ !! x = Some (Bucket (Some l) true) ∧ ∀ n, n ∈ l → is_Some (nodes σ !! n).
Proof.
  intros Hinv (l & Hb & HP). exists l. destruct (get_bucket_total σ x Hinv) as (b & Hg & Hb'); [| simplify_eq; split_and!; try done; intros n; by eapply bucket_alive].
  split; [by eapply exists_nonneg; [by apply inv_growth |] |]. destruct (inv_buckets _ Hinv) as (_ & Hsm & Hmm & _). apply Hmm, Hsm. by eexists.
Qed.
Lemma operate_total σ i t o x w l c : op_ok (nodes σ) o → (∀ n, n ∈ l → is_Some (nodes σ !! n)) → nodes σ !! address c = None →
  is_Some (operate c i t o x w (Bucket (Some l) true) l σ).
Proof.
  intros Ho Hl Hc. unfold operate. destruct (search_bucket_total (o_key o) l (nodes σ) Hl) as [r ->].
  destruct (o_kind o) as [| | | a]; simpl; [done | | done |].
  - destruct r, (o_tmp o); try done. unfold create_node. by rewrite decide_True.
  - destruct (search_node_total (my_node a) l (nodes σ) Hl) as [r' ->]. done.
Qed.
Lemma no_race_total σ i t o x w why : op_ok (nodes σ) o → is_Some (no_race i t o x w why σ).
Proof.
  intros (_ & Hk & _). unfold no_race. destruct (o_kind o) as [| | | a]; try done. destruct Hk as [_ ->]. done.
Qed.
Lemma step_acquired_total σ i t o todo x w rq c : inv σ → threads σ !! i = Some t → pl t = Acquired o todo x w →
  nodes σ !! address c = None → is_Some (next hash rq c i σ).
Proof.
  intros Hinv Hi Hpl Hc. unfold next. rewrite Hi. simpl. rewrite Hpl. pose proof (inv_places _ Hinv i t Hi) as Hp. rewrite Hpl in Hp.
  destruct Hp as (Ho & Hm & Hat & Htd & _ & Hpath). destruct (get_bucket_at σ x _ Hinv Hat) as (l & -> & _ & _ & Hl). simpl.
  destruct todo as [| y todo]; [by apply operate_total |]. unfold rehash.
  destruct (split_chain_total y l (nodes σ) Hl) as [[moved rest] ->]. simpl. destruct Hpath as (Hy & _ & Hpath).
  destruct (get_bucket_total σ y Hinv) as (b & -> & Hb); [by eapply path_to_range |].
  rewrite Htd in Hb by left. injection Hb as <-. simpl. destruct moved; [done |]. destruct w; [done |]. by case_match.
Qed.
Lemma step_exists_total σ i t o x w n ins grow rq c : inv σ → threads σ !! i = Some t → pl t = Exists o x w n ins grow →
  is_Some (next hash rq c i σ).
Proof.
  intros Hinv Hi Hpl. unfold next. rewrite Hi. simpl. rewrite Hpl. pose proof (inv_places _ Hinv i t Hi) as Hp. rewrite Hpl in Hp.
  destruct Hp as (_ & _ & Hk & _). destruct (o_result o) as [w' |]; [| done]. rewrite Hk. cbn [mbind option_bind]. destruct ins.
  - assert (item_available n w' (all_accessors (threads σ)) = true) as ->; [| done].
    apply item_available_true. intros a Ha Hn. destruct (inv_accessors _ Hinv) as (_ & _ & Hf). exfalso.
    apply (Hf t n a); [by eapply list_elem_of_lookup_2 | rewrite Hpl; left | done | done].
  - destruct (item_available n w' (all_accessors (threads σ)) && (false || negb (acquire_fails c))); [done |]. by destruct (acquire_fails c).
Qed.
Lemma hash_next_total σ i t rq c : inv σ → threads σ !! i = Some t → pl t ≠ Idle → nodes σ !! address c = None → is_Some (next hash rq c i σ).
Proof.
  intros Hinv Hi Hni Hc. pose proof (inv_places _ Hinv i t Hi) as Hp.
  destruct (pl t) as [| o | o todo x w | o todo x w | o todo x | o todo x w | o todo x w | o x | o x | o x | o x w why | o x w why y
    | o x | o x n sz | o x w n ins grow | o n ins grow | o n ins sz | o n] eqn:Hpl; [done | ..];
    try (by eapply step_acquired_total); try (by eapply step_exists_total); unfold next; rewrite Hi; simpl; rewrite Hpl; try done.
  - destruct Hp as (_ & Hm & Hpath & _). destruct (get_bucket_total σ x Hinv) as (b & -> & _); [by eapply path_to_range | done].
  - destruct Hp as (_ & Hm & Hpath & _). destruct (get_bucket_total σ x Hinv) as (b & -> & _); [by eapply path_to_range | done].
  - destruct Hp as (_ & Hm & Hpath & _). destruct (get_bucket_total σ x Hinv) as (b & -> & _); [by eapply path_to_range | done].
  - destruct Hp as (_ & _ & _ & Hat & _), (get_bucket_at σ x _ Hinv Hat) as (l & -> & _ & _ & Hl). simpl.
    destruct (search_bucket_total (o_key o) l (nodes σ) Hl) as [r ->]. done.
  - destruct Hp as ((Ho & _) & _). case_decide; [by apply no_race_total |]. case_decide; [| done]. by apply no_race_total.
  - destruct Hp as ((Ho & _) & Hy & _), (get_bucket_total σ y Hinv Hy) as (b & -> & _). simpl. case_match; [by apply no_race_total | done].
  - destruct Hp as (_ & _ & Hat & [_ [n Ht]] & _), (get_bucket_at σ x _ Hinv Hat) as (l & -> & _). simpl. by rewrite Ht.
  - by destruct (grow_segment sz (o_mask o) σ).
  - case_decide; [| by destruct (enable_segment grow σ)]. destruct Hp as ((_ & _ & Ht) & _). destruct (o_tmp o) as [m |]; [| done].
    unfold delete_node. destruct Ht as [_ ->]. done.
  - assert (is_Some (nodes σ !! n)) as [k Hk].
    { apply (inv_nodes _ Hinv). unfold live. rewrite !elem_of_app. right; right. apply list_elem_of_bind. exists t.
      rewrite Hpl. split; [left | by eapply list_elem_of_lookup_2]. }
    unfold delete_node. rewrite Hk. simpl. by case_match.
Qed.

(** *** Progress *)
Definition waiting p : option (Z * bool) :=
  match p with AcqLock _ _ x w => Some (x, w) | Reacquire _ x => Some (x, true) | _ => None end.
(** The thread can make a step that takes it to another place. *)
Definition can_move σ (i : nat) : Prop := ∃ t rq c σ', threads σ !! i = Some t ∧ next hash rq c i σ = Some σ' ∧ threads σ' !! i ≠ Some t.

Lemma moved_on i t t' ths : ths !! i = Some t → pl t' ≠ pl t → <[i := t']> ths !! i ≠ Some t.
Proof. intros Hi Hne. rewrite list_lookup_insert_eq by (by eapply lookup_lt_Some). intros [= ->]. done. Qed.
Lemma no_race_moves σ i t o x w why σ' : threads σ !! i = Some t → no_race i t o x w why σ = Some σ' →
  match pl t with CheckMask _ _ _ _ | CheckFlag _ _ _ _ _ => True | _ => False end → threads σ' !! i ≠ Some t.
Proof.
  intros Hi Hn Hp. unfold no_race in Hn.
  destruct (o_kind o) as [| | | a]; simplify_eq/=; [| | destruct why | destruct (nodes σ !! my_node a); simplify_eq/=];
    apply moved_on; try done; by destruct (pl t).
Qed.
Lemma operate_moves σ i t o x w b l c σ' : threads σ !! i = Some t → pl t = Acquired o [] x w →
  operate c i t o x w b l σ = Some σ' → threads σ' !! i ≠ Some t.
Proof.
  intros Hi Hpl Hn. unfold operate in Hn.
  destruct (o_kind o) as [| | | a]; [destruct (search_bucket _ _ _) as [[n |] |].. | destruct (search_node _ _ _) as [[] |]]; simplify_eq/=;
    try (apply moved_on; [done | by rewrite Hpl]).
  - destruct (o_tmp o); simplify_eq/=; [apply moved_on; [done | rewrite Hpl; by destruct w] |].
    unfold create_node in Hn. case_decide; simplify_eq/=. apply moved_on; [done | rewrite Hpl; by destruct w].
  - destruct w; apply moved_on; try done; by rewrite Hpl.
Qed.
Lemma rehash_moves σ i t o y todo x w b l c σ' : threads σ !! i = Some t → pl t = Acquired o (y :: todo) x w →
  rehash hash c i t o y todo x w b l σ = Some σ' → threads σ' !! i ≠ Some t.
Proof.
  intros Hi Hpl Hn. assert (Hne : y :: todo ≠ todo) by (intros E; apply (f_equal length) in E; simpl in E; lia).
  unfold rehash in Hn. destruct (split_chain _ _ _ _) as [[moved rest] |]; simpl in Hn; [| done].
  destruct (get_bucket y σ) as [by_ |]; simpl in Hn; [| done]. destruct (node_list by_); simpl in Hn; [| done].
  destruct moved; [| destruct w; [| case_match]]; simplify_eq/=; apply moved_on; try done; rewrite Hpl; try done; simpl; congruence.
Qed.
(** A thread with a bucket lock that does not wait for another can move. *)
Lemma holder_moves σ i t x w : inv σ → threads σ !! i = Some t → (x, w) ∈ bucket_locks (pl t) → waiting (pl t) = None → can_move σ i.
Proof.
  intros Hinv Hi Hx Hw. set (c := Choice true true true (fresh (dom (nodes σ)))).
  assert (Hc : nodes σ !! address c = None) by (apply not_elem_of_dom, is_fresh).
  assert (Hni : pl t ≠ Idle) by (intros E; rewrite E in Hx; inversion Hx).
  destruct (hash_next_total σ i t (DoRelease 0) c Hinv Hi Hni Hc) as [σ' Hn]. exists t, (DoRelease 0), c, σ'. split_and!; [done | done |].
  pose proof Hn as Hn'. unfold next in Hn. rewrite Hi in Hn. simpl in Hn.
  destruct (pl t) as [| o | o todo x0 w0 | o todo x0 w0 | o todo x0 | o todo x0 w0 | o todo x0 w0 | o x0 | o x0 | o x0 | o x0 w0 why | o x0 w0 why y
    | o x0 | o x0 n sz | o x0 w0 n ins grow | o n ins grow | o n ins sz | o n] eqn:Hpl; try (by inversion Hx); try done.
  - destruct (get_bucket x0 σ); simplify_eq/=. apply moved_on; [done |]. rewrite Hpl. simpl. by case_match.
  - destruct (get_bucket x0 σ); simplify_eq/=. apply moved_on; [done |]. rewrite Hpl. simpl. by case_match.
  - destruct (get_bucket x0 σ); simplify_eq/=. case_match; apply moved_on; try done; by rewrite Hpl.
  - destruct (get_bucket x0 σ) as [b |]; simpl in Hn; [| done]. destruct (node_list b); simpl in Hn; [| done].
    destruct todo; [by eapply operate_moves | by eapply rehash_moves].
  - simplify_eq. apply moved_on; [done |]. rewrite Hpl. simpl. case_match; [by destruct (o_kind o) | done].
  - destruct (get_bucket x0 σ) as [b |]; simpl in Hn; [| done]. destruct (node_list b); simpl in Hn; [| done].
    destruct (search_bucket _ _ _) as [r |]; simplify_eq/=. apply moved_on; [done |]. rewrite Hpl. by destruct r.
  - case_decide; [eapply no_race_moves; [done | done | by rewrite Hpl] |].
    case_decide; [eapply no_race_moves; [done | done | by rewrite Hpl] |]. simplify_eq. apply moved_on; [done |]. by rewrite Hpl.
  - destruct (get_bucket y σ); simpl in Hn; [| done]. case_match; [eapply no_race_moves; [done | done | by rewrite Hpl] |].
    simplify_eq. apply moved_on; [done |]. by rewrite Hpl.
  - destruct (get_bucket x0 σ) as [b |]; simpl in Hn; [| done]. destruct (node_list b); simpl in Hn; [| done].
    destruct (o_tmp o); simplify_eq/=. apply moved_on; [done |]. by rewrite Hpl.
  - destruct (grow_segment sz (o_mask o) σ) as [g σ1] eqn:Hg. injection Hn as <-.
    assert (E : threads σ1 = threads σ) by (unfold grow_segment in Hg; repeat case_match; by simplify_eq).
    apply moved_on; [by rewrite E | by rewrite Hpl].
  - destruct (o_result o) as [w' |]; [| destruct ins; simplify_eq/=; apply moved_on; try done; by rewrite Hpl].
    destruct (nodes σ !! n); cbn [mbind option_bind] in Hn; [| done]. case_match; [destruct ins; simplify_eq/=; apply moved_on; try done; by rewrite Hpl |].
    simpl in Hn. destruct ins; simplify_eq/=. apply moved_on; [done |]. by rewrite Hpl.
Qed.
Lemma waiter_moves σ i t x w : threads σ !! i = Some t → waiting (pl t) = Some (x, w) → lock_available i x w σ = true → can_move σ i.
Proof.
  intros Hi Hw Ha. exists t, (DoRelease 0), (Choice true true true 0). unfold next. rewrite Hi. simpl.
  destruct (pl t) as [| | | | | o todo x0 w0 | | | o x0 | | | | | | | | |] eqn:Hpl; simplify_eq/=; rewrite Ha; eexists; (split; [done |]); (split; [done |]);
    apply moved_on; try done; rewrite Hpl; [done |]. by destruct (o_kind o).
Qed.
Lemma waiting_nonneg σ i t x w : inv σ → threads σ !! i = Some t → waiting (pl t) = Some (x, w) → 0 ≤ x.
Proof.
  intros Hinv Hi Hw. pose proof (inv_places _ Hinv i t Hi) as Hp. destruct (pl t); simplify_eq/=.
  - destruct Hp as (_ & Hm & Hpath & _). by destruct (path_to_range _ _ _ _ Hpath Hm).
  - destruct Hp as (_ & _ & _ & (b & Hb & _) & _). exact (exists_nonneg _ _ _ _ _ _ (inv_growth _ Hinv) Hb).
Qed.
Lemma wait_progress σ x : inv σ → ∀ i t w, threads σ !! i = Some t → waiting (pl t) = Some (x, w) → ∃ j, can_move σ j.
Proof.
  intros Hinv. induction x as [x IH] using (well_founded_ind (Z.lt_wf 0)). intros i t w Hi Hw.
  destruct (lock_available i x w σ) eqn:Ha; [exists i; by eapply waiter_moves |].
  destruct (lock_taken i t x w σ Hi Ha) as (j & t' & w' & _ & Hj & Hx).
  destruct (waiting (pl t')) as [[x' w''] |] eqn:Hw'; [| exists j; by eapply holder_moves].
  apply (IH x') with (i := j) (t := t') (w := w''); [| done | done]. split; [by eapply waiting_nonneg |].
  pose proof (inv_places _ Hinv j t' Hj) as Hp. destruct (pl t'); simplify_eq/=; [| inversion Hx].
  apply list_elem_of_fmap in Hx as (y & [= -> ->] & Hy). destruct Hp as (_ & _ & Hpath & _). by eapply path_to_lt.
Qed.

(** *** The theorems *)
Lemma represents_size bs ns m : represents bs ns m → NoDup (contents bs) → (∀ n, n ∈ contents bs → is_Some (ns !! n)) →
  size m = length (contents bs).
Proof.
  intros Hm Hd Ha. rewrite <- length_map_to_list, <- (length_fmap snd). apply Permutation_length, NoDup_Permutation; [| done |].
  - apply NoDup_fmap_2_strong; [| apply NoDup_map_to_list]. intros [k n] [k' n'] H1%elem_of_map_to_list H2%elem_of_map_to_list ?.
    simpl in *. subst n'. apply Hm in H1 as [_ H1], H2 as [_ H2]. congruence.
  - intros n. rewrite list_elem_of_fmap. split.
    + intros ([k n'] & -> & Hk%elem_of_map_to_list). by apply Hm in Hk as [? _].
    + intros Hn. destruct (Ha n Hn) as [k Hk]. exists (k, n). split; [done |]. apply elem_of_map_to_list. by apply Hm.
Qed.

(** C10: linearizability of concurrent_hash_map.  Whatever the threads do, with the
    table growing and its buckets being rehashed at the same time, the operations
    take effect one after the other as those of a sequential map: in the order of
    the log each answer of find, insert, erase by key and erase by accessor is the
    one that the map gives, a node of the table is found for a key exactly when the
    map has it, [my_size] is the number of the keys, and the operations of a thread
    are in the log in the order in which they returned, each of them once. *)
Theorem hash_map_linearizable n σ : rtc (step hash) (start n) σ → ∃ m, replay ∅ (log σ) = Some m
  ∧ (∀ k nd, m !! k = Some nd ↔ (∃ x l, chain (buckets σ) x = Some l ∧ nd ∈ l) ∧ nodes σ !! nd = Some k)
  ∧ my_size σ = Z.of_nat (size m)
  ∧ ∀ i t, threads σ !! i = Some t → of_thread i (log σ) = of_thread i (returned σ) ++ pending_of i (pl t).
Proof.
  intros Hr%hash_reach_inv. destruct (inv_log _ Hr) as (m & Hm & Hrep). exists m. split_and!; [done | | | by apply inv_history].
  - intros k nd. rewrite <- elem_of_contents. apply Hrep.
  - destruct (inv_nodes _ Hr) as [Hd Ha]. apply NoDup_app in Hd as (Hd & _).
    rewrite (inv_size _ Hr), (represents_size _ _ m Hrep Hd); [done |]. intros nd Hnd. apply Ha, elem_of_app. by left.
Qed.

(** The accessor that a request names is one of the thread. *)
Definition request_ok t (rq : request (K:=K)) : Prop :=
  match pl t, rq with Idle, (DoExclude j | DoRelease j) => (j < length (held t))%nat | _, _ => True end.
Lemma accessor_alive σ i t a : inv σ → threads σ !! i = Some t → a ∈ held t → is_Some (nodes σ !! my_node a).
Proof.
  intros Hinv Hi Ha. destruct (inv_accessors _ Hinv) as (_ & Hac & _). destruct (Hac a) as (_ & k & -> & _); [| done].
  eapply (accessor_elem t); [by eapply list_elem_of_lookup_2 | apply elem_of_app; by right].
Qed.

(** C11: memory safety.  No step of a thread uses a node that was deleted, a bucket of
    a segment that is not allocated, or a bucket that has not been rehashed; an item
    that was just inserted can be locked at once.  (Such a step is [None].) *)
Theorem hash_map_safe n σ i t rq c : rtc (step hash) (start n) σ → threads σ !! i = Some t → request_ok t rq →
  nodes σ !! address c = None → is_Some (next hash rq c i σ).
Proof.
  intros Hr%hash_reach_inv Hi Hq Hc. assert (pl t = Idle ∨ pl t ≠ Idle) as [Hpl | Hpl] by (destruct (pl t); auto); [| by eapply hash_next_total].
  unfold next. rewrite Hi. simpl. unfold request_ok in Hq. rewrite Hpl in Hq |- *.
  assert (Hal : ∀ j, (j < length (held t))%nat → ∃ a k, held t !! j = Some a ∧ nodes σ !! my_node a = Some k).
  { intros j Hj. destruct (lookup_lt_is_Some_2 _ _ Hj) as [a Ha]. destruct (accessor_alive σ i t a Hr Hi) as [k Hk]; [by eapply list_elem_of_lookup_2 |].
    by exists a, k. }
  destruct rq as [k r | k r | k r | k | j | j]; try done.
  - unfold create_node. by rewrite decide_True.
  - destruct (Hal j Hq) as (a & k & -> & Hk). simpl. by rewrite Hk.
  - destruct (Hal j Hq) as (a & k & -> & Hk). simpl. by rewrite Hk.
Qed.

Lemma exclusive_lookup l (u v : nat) a b : exclusive l → l !! u = Some a → l !! v = Some b → u ≠ v → my_node a = my_node b →
  is_writer a = false ∧ is_writer b = false.
Proof.
  revert u v. induction l as [| c l IH]; intros u v; [done |]. intros [Hc He] Hp Hq Hne Hn. destruct u as [| u], v as [| v]; simplify_eq/=.
  - apply Hc; [by eapply list_elem_of_lookup_2 | done].
  - destruct (Hc a); [by eapply list_elem_of_lookup_2 | done | done].
  - apply (IH u v); [done | done | done | congruence | done].
Qed.
(** C22: well-formedness.  In every reachable state the mask is one less than a power of
    two, and each index up to it is a bucket in a valid segment; no node is in two
    buckets, and a node is in the deepest bucket of its hash code whose nodes have
    been moved.  Two accessors of the same item, of one or of two threads, are both
    const_accessors; the item of an accessor is not deleted while it is held, and has
    the hash code that the accessor has. *)
Theorem hash_map_well_formed n σ : rtc (step hash) (start n) σ →
  (∃ j, 1 ≤ j ∧ my_mask σ = 2 ^ j - 1 ∧ ∀ x, 0 ≤ x ≤ my_mask σ → is_Some (get_bucket x σ))
  ∧ NoDup (contents (buckets σ))
  ∧ (∀ x l nd k, chain (buckets σ) x = Some l → nd ∈ l → nodes σ !! nd = Some k → home (buckets σ) (hash k) x)
  ∧ ∀ (u : nat) a, all_accessors (threads σ) !! u = Some a →
      (∃ k, nodes σ !! my_node a = Some k ∧ hash k = my_hash a)
      ∧ ∀ v b, all_accessors (threads σ) !! v = Some b → u ≠ v → my_node a = my_node b → is_writer a = false ∧ is_writer b = false.
Proof.
  intros Hr%hash_reach_inv. split_and!.
  - destruct (inv_growth _ Hr) as (c & j & (? & Hm & _) & _). exists j. split_and!; [lia | done |].
    intros x Hx. destruct (get_bucket_total σ x Hr Hx) as (b & -> & _). done.
  - destruct (inv_nodes _ Hr) as [Hd _]. by apply NoDup_app in Hd as (Hd & _).
  - apply (inv_home _ Hr).
  - intros u a Hu. destruct (inv_accessors _ Hr) as (He & Ha & _). split; [apply Ha; by eapply list_elem_of_lookup_2 |].
    intros v b Hv Hne. by apply (exclusive_lookup (all_accessors (threads σ)) u v).
Qed.

(** C23: the bucket locks do not deadlock.  When a thread waits for the lock of a
    bucket, some thread can make a step to another place; a thread that rehashes
    holds the locks of larger buckets only. *)
Theorem hash_map_no_deadlock n σ i t x w : rtc (step hash) (start n) σ → threads σ !! i = Some t → waiting (pl t) = Some (x, w) →
  ∃ j, can_move σ j.
Proof. intros Hr%hash_reach_inv. by apply wait_progress. Qed.

End hash_map.
End HashMapInv.

(** ** Examples *)
Module HashMapExamples.
Import HashMap HashMapInv.
(** Keys that are their hash codes *)
Definition hash (k : nat) : Z := Z.of_nat k.
Lemma hash_nonneg k : 0 ≤ hash k.
Proof. unfold hash. lia. Qed.
Definition act (a : request (K:=nat) * choice * nat) (σ : state) : option state := let '(rq, c, i) := a in next hash rq c i σ.
Definition run (l : list (request (K:=nat) * choice * nat)) : option state := run_trace act l (start 2).
Definition state_of l : state := default (start 0) (run l).
Lemma hash_run_reach l : run l = Some (state_of l) → rtc (step hash) (start 2) (state_of l).
Proof. apply run_trace_rtc. intros [[rq c] i] s s'. apply step_thread. Qed.

(** A thread does the request, whose node has the address [a], in [n] steps. *)
Definition does (n i a : nat) (rq : request (K:=nat)) : list (request (K:=nat) * choice * nat) :=
  replicate n (rq, Choice true true false a, i).

(** The key 5 is inserted, which makes the table grow; it is found in its new bucket,
    for which its node is moved, and is erased while an accessor is held. *)
Definition inserts : list (request (K:=nat) * choice * nat) := does 13 0 10 (DoInsert 5%nat None).
Definition finds : list (request (K:=nat) * choice * nat) := inserts ++ does 12 1 11 (DoFind 5%nat (Some true)).
Definition erases : list (request (K:=nat) * choice * nat) := finds ++ does 8 0 12 (DoErase 5%nat).
Definition released : list (request (K:=nat) * choice * nat) := erases ++ does 1 1 12 (DoRelease 0) ++ does 1 0 12 (DoErase 5%nat).

Lemma hash_map_linearizable_witness :
  returned (state_of released) = [Event 0 5%nat (Inserted 10); Event 1 5%nat (Found 10); Event 0 5%nat (Erased 10)]
  ∧ ∃ m, replay ∅ (log (state_of released)) = Some m ∧ my_size (state_of released) = Z.of_nat (size m).
Proof.
  split; [vm_compute; reflexivity |].
  destruct (hash_map_linearizable hash hash_nonneg 2 (state_of released) (hash_run_reach released ltac:(vm_compute; reflexivity))) as (m & Hm & _ & Hs & _).
  exact (ex_intro _ m (conj Hm Hs)).
Defined.
Lemma hash_map_safe_witness : is_Some (next hash (DoRelease 0) (Choice true true false 12) 1 (state_of erases)).
Proof.
  exact (hash_map_safe hash hash_nonneg 2 (state_of erases) 1 (Thread [Accessor 10 5 true] Idle) (DoRelease 0) (Choice true true false 12)
    (hash_run_reach erases ltac:(vm_compute; reflexivity)) ltac:(vm_compute; reflexivity) ltac:(vm_compute; lia) ltac:(vm_compute; reflexivity)).
Defined.

(** Two threads read the item. *)
Definition two_readers : list (request (K:=nat) * choice * nat) :=
  inserts ++ does 12 1 11 (DoFind 5%nat (Some false)) ++ does 8 0 11 (DoFind 5%nat (Some false)).
Lemma hash_map_well_formed_witness :
  all_accessors (threads (state_of two_readers)) = [Accessor 10 5 false; Accessor 10 5 false]
  ∧ my_mask (state_of two_readers) = 255 ∧ home (buckets (state_of two_readers)) (hash 5) 5.
Proof.
  split; [vm_compute; reflexivity |]. split; [vm_compute; reflexivity |].
  destruct (hash_map_well_formed hash hash_nonneg 2 (state_of two_readers) (hash_run_reach two_readers ltac:(vm_compute; reflexivity))) as (_ & _ & Hh & _).
  exact (Hh 5 [10%nat] 10%nat 5%nat ltac:(vm_compute; reflexivity) (list_elem_of_here _ _) ltac:(vm_compute; reflexivity)).
Defined.

(** A thread waits for a bucket that another one rehashes. *)
Definition waits : list (request (K:=nat) * choice * nat) :=
  inserts ++ does 5 1 11 (DoFind 5%nat (Some true)) ++ does 3 0 12 (DoErase 5%nat).
Lemma hash_map_no_deadlock_witness : ∃ j, can_move hash (state_of waits) j.
Proof.
  exact (hash_map_no_deadlock hash hash_nonneg 2 (state_of waits) 0 (Thread [] (AcqLock (Op Erase 5%nat 5 255 None None) [] 5 false)) 5 false
    (hash_run_reach waits ltac:(vm_compute; reflexivity)) ltac:(vm_compute; reflexivity) ltac:(vm_compute; reflexivity)).
Defined.
End HashMapExamples.
