(* ===== verification/CallOnce.v ===== *)
(** * collaborative_call_once

    A function is called once for a flag; threads that come while it runs help with
    its tasks.  Source: include/oneapi/tbb/collaborative_call_once.h
    ([collaborative_once_flag], [collaborative_once_runner]).

    The word [m_state] of the flag is 0 (uninitialized), 1 (done), or the address of
    the runner of the thread that calls the function, a multiple of 128, plus the
    number of threads that are about to use this runner.  Such a thread counts
    itself in [m_state], then in [m_ref_count] of the runner, and then takes itself
    out of [m_state].  The runners are on the stacks of the threads; here they are in
    a heap, and an access to a runner that was destroyed is [None].

    The function ends normally or with an exception.  What the threads do in the
    arena while they wait for its end (other tasks of the function) is not modelled:
    a thread in [assist] waits for the release of the wait context, which happens
    also after an exception, when the dispatch loop calls [cancel] of the task.

    The theorems are for at most 128 threads, whose references fit into the word; an
    example shows what happens with 130. *)

From S2P Require Import Prelude.
From stdpp Require Import base numbers relations gmap list.
From Stdlib Require Import ZArith Lia.
Local Open Scope Z_scope.

Module CallOnce.
Definition collaborative_once_max_references : Z := 128.
Definition collaborative_once_references_mask : Z := collaborative_once_max_references - 1.
Definition uninitialized : Z := 0.
Definition done : Z := 1.
(** [from_bits] of the state without its references *)
Definition runner_bits (expected : Z) : Z := Z.land expected (Z.lnot collaborative_once_references_mask).

(** [finished]: the wait context of the runner was released. *)
Record runner := Runner { m_ref_count : Z; m_is_ready : bool; finished : bool }.

(** The places of a thread: outside of a call; before the load of the state; in the
    loop with its own runner [a] and the variable [expected]; with its runner [a] as
    the winner, where [ok] says that the function has returned normally; in the
    destructor of its runner. *)
Inductive place :=
  | Idle
  | Enter
  | Top (a expected : Z)
  | Wait (a expected : Z)
  | TryRef (a expected : Z)
  | Guard (a expected : Z)
  | Unref (a expected : Z)
  | AwaitReady (a expected : Z)
  | Assist (a expected : Z)
  | Leave (a expected : Z)
  | Test (a expected : Z)
  | Start (a : Z)
  | Run (a : Z)
  | AwaitRefs (a : Z) (ok : bool)
  | SetState (a : Z) (ok : bool)
  | Release (a : Z) (ok : bool)
  | Destroy (a : Z) (ok : bool).

(** [completed] counts the calls of the function that returned normally, [returned]
    has the calls of collaborative_call_once that have returned, with false for an
    exception; both are only for the theorems. *)
Record state := State {
  m_state : Z;
  runners : gmap Z runner;
  threads : list place;
  completed : nat;
  returned : list (nat * bool);
}.
Implicit Types (σ : state) (p q : place) (a e : Z) (r : runner) (ths : list place).

Definition set_state s σ : state := State s (runners σ) (threads σ) (completed σ) (returned σ).
Definition set_runners m σ : state := State (m_state σ) m (threads σ) (completed σ) (returned σ).
Definition go (i : nat) p σ : state := State (m_state σ) (runners σ) (<[i := p]> (threads σ)) (completed σ) (returned σ).
Definition count_completed (ok : bool) σ : state :=
  State (m_state σ) (runners σ) (threads σ) (if ok then S (completed σ) else completed σ) (returned σ).
Definition add_returned (x : nat * bool) σ : state := State (m_state σ) (runners σ) (threads σ) (completed σ) (returned σ ++ [x]).
(** [lifetime_guard]: the references of a runner *)
Definition add_ref (d a : Z) σ : option state :=
  r ← runners σ !! a;
  Some (set_runners (<[a := Runner (m_ref_count r + d) (m_is_ready r) (finished r)]> (runners σ)) σ).

(** What is left open: the address of a runner, and how the function ends *)
Record choice := Choice { address : Z; ok : bool }.
Definition valid_address a σ : bool :=
  (0 <? a) && (a mod collaborative_once_max_references =? 0) && bool_decide (runners σ !! a = None).

Definition next (c : choice) (i : nat) σ : option state :=
  p ← threads σ !! i;
  match p with
  | Idle => Some (if m_state σ =? done then add_returned (i, true) σ else go i Enter σ)
  | Enter =>
      if valid_address (address c) σ
      then Some (go i (Top (address c) (m_state σ)) (set_runners (<[address c := Runner 0 false false]> (runners σ)) σ))
      else None
  | Top a e =>
      Some (if e =? uninitialized then
              if m_state σ =? e then go i (Start a) (set_state a σ) else go i (Wait a (m_state σ)) σ
            else go i (Wait a e) σ)
  | Wait a e =>
      let max_value := Z.lor e collaborative_once_references_mask in
      Some (if m_state σ =? max_value then σ else go i (TryRef a (m_state σ)) σ)
  | TryRef a e =>
      Some (if done <? e then
              if m_state σ =? e then go i (Guard a e) (set_state (e + 1) σ) else go i (Wait a (m_state σ)) σ
            else go i (Test a e) σ)
  | Guard a e => σ ← add_ref 1 (runner_bits e) σ; Some (go i (Unref a e) σ)
  | Unref a e => Some (go i (AwaitReady a e) (set_state (m_state σ - 1) σ))
  | AwaitReady a e => r ← runners σ !! runner_bits e; Some (if m_is_ready r then go i (Assist a e) σ else σ)
  | Assist a e => r ← runners σ !! runner_bits e; Some (if finished r then go i (Leave a e) σ else σ)
  | Leave a e => σ ← add_ref (-1) (runner_bits e) σ; Some (go i (Test a e) σ)
  | Test a e => Some (go i (if e =? done then Destroy a true else Top a e) σ)
  | Start a =>
      r ← runners σ !! a;
      if m_is_ready r then None else Some (go i (Run a) (set_runners (<[a := Runner (m_ref_count r) true (finished r)]> (runners σ)) σ))
  | Run a => Some (go i (AwaitRefs a (ok c)) (count_completed (ok c) σ))
  | AwaitRefs a b => Some (if m_state σ =? a then go i (SetState a b) σ else σ)
  | SetState a b =>
      Some (if m_state σ =? a then go i (Release a b) (set_state (if b then done else uninitialized) σ) else go i (AwaitRefs a b) σ)
  | Release a b =>
      r ← runners σ !! a;
      Some (go i (Destroy a b) (set_runners (<[a := Runner (m_ref_count r) (m_is_ready r) true]> (runners σ)) σ))
  | Destroy a b =>
      r ← runners σ !! a;
      Some (if m_ref_count r =? 0 then add_returned (i, b) (go i Idle (set_runners (delete a (runners σ)) σ)) else σ)
  end.

Inductive step : state → state → Prop :=
  | step_thread c i σ σ' : next c i σ = Some σ' → step σ σ'.
Definition start (n : nat) : state := State uninitialized ∅ (replicate n Idle) 0 [].

(** ** The invariant *)
(** The runner of the thread; the runner whose address is in [m_state]; the runner that
    the thread has a reference to *)
Definition own p : option Z :=
  match p with
  | Idle | Enter => None
  | Top a _ | Wait a _ | TryRef a _ | Guard a _ | Unref a _ | AwaitReady a _ | Assist a _ | Leave a _ | Test a _
  | Start a | Run a | AwaitRefs a _ | SetState a _ | Release a _ | Destroy a _ => Some a
  end.
Definition owner p : option Z :=
  match p with Start a | Run a | AwaitRefs a _ | SetState a _ => Some a | _ => None end.
Definition target p : option Z :=
  match p with Guard _ e | Unref _ e | AwaitReady _ e | Assist _ e | Leave _ e => Some (runner_bits e) | _ => None end.
(** The thread is counted in [m_state]; it is counted in [m_ref_count] of [a]; its call of
    the function has returned and [m_state] does not say so yet. *)
Definition in_state p : Z := match p with Guard _ _ | Unref _ _ => 1 | _ => 0 end.
Definition in_runner a p : Z :=
  match p with Unref _ e | AwaitReady _ e | Assist _ e | Leave _ e => if decide (runner_bits e = a) then 1 else 0 | _ => 0 end.
Definition succeeded p : Z := match p with AwaitRefs _ true | SetState _ true => 1 | _ => 0 end.
Definition knows_done p : Prop :=
  match p with
  | Top _ e | Wait _ e | TryRef _ e | Test _ e => e = done
  | Release _ b | Destroy _ b => b = true
  | _ => False
  end.
(** The flags of the runner of the thread, and of a runner with references *)
Definition flags p r : Prop :=
  match p with
  | Run _ | AwaitRefs _ _ | SetState _ _ | Release _ _ => m_is_ready r = true
  | Destroy _ _ => finished r = true → m_is_ready r = true
  | _ => m_is_ready r = false ∧ finished r = false
  end.
Definition winner p r : Prop :=
  match p with
  | Start _ | Run _ | AwaitRefs _ _ | SetState _ _ | Release _ _ => True
  | Destroy _ _ => finished r = true
  | _ => False
  end.

Definition own_ok (rs : gmap Z runner) ths : Prop := ∀ i p a, ths !! i = Some p → own p = Some a →
  0 < a ∧ a mod 128 = 0 ∧ ∃ r, rs !! a = Some r ∧ flags p r.
Definition own_unique ths : Prop := ∀ i j p q a, ths !! i = Some p → ths !! j = Some q → own p = Some a → own q = Some a → i = j.
Definition refs_ok (rs : gmap Z runner) ths : Prop := ∀ a r, rs !! a = Some r → m_ref_count r = zsum (in_runner a) ths.
Definition target_ok (rs : gmap Z runner) ths : Prop := ∀ i p b, ths !! i = Some p → target p = Some b →
  ∃ j q r, ths !! j = Some q ∧ own q = Some b ∧ rs !! b = Some r ∧ winner q r.
Definition free_state (s : Z) ths : Prop :=
  (s = uninitialized ∨ s = done) ∧ ∀ i p, ths !! i = Some p → owner p = None ∧ in_state p = 0.
Definition owned_state (s : Z) ths : Prop := ∃ i a p, ths !! i = Some p ∧ owner p = Some a ∧ s = a + zsum in_state ths
  ∧ ∀ j q, ths !! j = Some q → (owner q ≠ None → j = i) ∧ (in_state q ≠ 0 → target q = Some a).
Record inv σ : Prop := Inv {
  inv_length : (length (threads σ) ≤ 128)%nat;
  inv_own : own_ok (runners σ) (threads σ);
  inv_unique : own_unique (threads σ);
  inv_refs : refs_ok (runners σ) (threads σ);
  inv_target : target_ok (runners σ) (threads σ);
  inv_state : free_state (m_state σ) (threads σ) ∨ owned_state (m_state σ) (threads σ);
  inv_done : ∀ i p, threads σ !! i = Some p → knows_done p → m_state σ = done;
  inv_completed : Z.of_nat (completed σ) = (if decide (m_state σ = done) then 1 else 0) + zsum succeeded (threads σ);
  inv_returned : ∀ i, (i, true) ∈ returned σ → m_state σ = done;
}.

(** *** Words *)
Lemma runner_bits_add a k : 0 < a → a mod 128 = 0 → 0 ≤ k < 128 → runner_bits (a + k) = a.
Proof.
  intros Ha Hm Hk. unfold runner_bits, collaborative_once_references_mask, collaborative_once_max_references.
  change (128 - 1) with (Z.ones 7). rewrite <- Z.ldiff_land, Z.ldiff_ones_r, Z.shiftr_div_pow2, Z.shiftl_mul_pow2 by lia.
  change (2 ^ 7) with 128. pose proof (Z.div_mod a 128).
  rewrite <- (Z.div_unique_pos (a + k) 128 (a / 128) k) by lia. lia.
Qed.

(** *** Sums over the threads *)
Lemma in_state_bounds p : 0 ≤ in_state p ≤ 1.
Proof. destruct p; simpl; lia. Qed.
Lemma in_runner_bounds a p : 0 ≤ in_runner a p ≤ 1.
Proof. destruct p; simpl; repeat case_decide; lia. Qed.
Lemma succeeded_bounds p : 0 ≤ succeeded p ≤ 1.
Proof. destruct p as [| | | | | | | | | | | | |? []|? []| |]; simpl; lia. Qed.
Lemma in_state_sum_nonneg ths : 0 ≤ zsum in_state ths.
Proof. apply zsum_nonneg, Forall_forall. intros p _. apply in_state_bounds. Qed.
Lemma in_runner_sum_nonneg a ths : 0 ≤ zsum (in_runner a) ths.
Proof. apply zsum_nonneg, Forall_forall. intros p _. apply in_runner_bounds. Qed.
(** The winner is not counted, so the references of 128 threads fit into the word. *)
Lemma in_state_lt i p ths : ths !! i = Some p → in_state p = 0 → zsum in_state ths < Z.of_nat (length ths).
Proof.
  intros Hi Hp. apply list_elem_of_lookup_2, list_elem_of_split in Hi as (l1 & l2 & ->).
  rewrite zsum_app, zsum_cons, Hp, length_app. cbn [length].
  pose proof (zsum_le_length in_state l1 (λ p, proj2 (in_state_bounds p))).
  pose proof (zsum_le_length in_state l2 (λ p, proj2 (in_state_bounds p))). lia.
Qed.
Lemma in_runner_member a i p ths : ths !! i = Some p → in_runner a p ≤ zsum (in_runner a) ths.
Proof.
  intros Hi. apply zsum_member; [| by eapply list_elem_of_lookup_2]. apply Forall_forall. intros. apply in_runner_bounds.
Qed.
Lemma in_runner_target a p : in_runner a p ≠ 0 → target p = Some a.
Proof. destruct p; simpl; try done; by case_decide; subst. Qed.

(** *** A thread goes to another place *)
Section update.
Context (i : nat) (p p' : place) (ths : list place) (Hi : ths !! i = Some p).

Lemma unique_update : own p' = own p → own_unique ths → own_unique (<[i := p']> ths).
Proof.
  intros He Hu j k q q' a [[-> ->] | [? Hj]]%(insert_lookup_inv i j p) [[-> ->] | [? Hk]]%(insert_lookup_inv i k p) Ho Ho'; try done.
  - rewrite He in Ho. by apply (Hu i k p q' a).
  - rewrite He in Ho'. by apply (Hu j i q p a).
  - by apply (Hu j k q q' a).
Qed.
Lemma refs_update rs rs' :
  (∀ a r', rs' !! a = Some r' → ∃ r, rs !! a = Some r ∧ m_ref_count r' - in_runner a p' = m_ref_count r - in_runner a p) →
  refs_ok rs ths → refs_ok rs' (<[i := p']> ths).
Proof.
  intros Hr Hok a r' Ha. destruct (Hr a r' Ha) as (r & Hr0 & ?). rewrite (zsum_insert _ _ _ p) by done. rewrite <- (Hok a r Hr0). lia.
Qed.
Lemma own_update rs rs' : own_ok rs ths →
  (∀ a, own p' = Some a → 0 < a ∧ a mod 128 = 0 ∧ ∃ r, rs' !! a = Some r ∧ flags p' r) →
  (∀ j q a r, j ≠ i → ths !! j = Some q → own q = Some a → rs !! a = Some r → flags q r → ∃ r', rs' !! a = Some r' ∧ flags q r') →
  own_ok rs' (<[i := p']> ths).
Proof.
  intros Hok Hp Hq j q a [[-> ->] | [? Hj]]%(insert_lookup_inv i j p) Ho; [by apply Hp | | done].
  destruct (Hok j q a Hj Ho) as (? & ? & r & ? & ?). split_and!; [done | done |]. by eapply Hq.
Qed.
Lemma target_update rs rs' : target_ok rs ths →
  (∀ b, target p' = Some b → target p = Some b ∨ ∃ j q r, j ≠ i ∧ ths !! j = Some q ∧ own q = Some b ∧ rs !! b = Some r ∧ winner q r) →
  (∀ j q b r, ths !! j = Some q → own q = Some b → rs !! b = Some r → winner q r →
     (∃ k q', k ≠ i ∧ ths !! k = Some q' ∧ target q' = Some b ∨ target p' = Some b) →
     ∃ q' r', <[i := p']> ths !! j = Some q' ∧ own q' = Some b ∧ rs' !! b = Some r' ∧ winner q' r') →
  target_ok rs' (<[i := p']> ths).
Proof.
  intros Hok Hp Hq j q b [[-> ->] | [Hne Hj]]%(insert_lookup_inv i j p) Ht; [| | done].
  - destruct (Hp b Ht) as [Ht' | (k & q & r & ? & Hk & Ho & Hr & Hw)].
    + destruct (Hok i p b Hi Ht') as (k & q & r & Hk & Ho & Hr & Hw).
      destruct (Hq k q b r) as (q' & r' & ?); try done; [by exists i, p; right |]. by exists k, q', r'.
    + destruct (Hq k q b r) as (q' & r' & ?); try done; [by exists i, p; right |]. by exists k, q', r'.
  - destruct (Hok j q b Hj Ht) as (k & q0 & r & Hk & Ho & Hr & Hw).
    destruct (Hq k q0 b r) as (q' & r' & ?); try done; [exists j, q; by left |]. by exists k, q', r'.
Qed.
Lemma state_update s : owner p' = owner p → in_state p' = in_state p → (in_state p ≠ 0 → target p' = target p) →
  free_state s ths ∨ owned_state s ths → free_state s (<[i := p']> ths) ∨ owned_state s (<[i := p']> ths).
Proof.
  intros Ho Hs Ht [[Hs0 Hf] | (j & a & q & Hj & Hq & -> & Hall)]; [left | right].
  - split; [done |]. intros j q [[-> ->] | [? Hj]]%(insert_lookup_inv i j p); [| by eapply Hf | done].
    rewrite Ho, Hs. by eapply Hf.
  - assert (∃ q', <[i := p']> ths !! j = Some q' ∧ owner q' = Some a) as (q' & Hj' & Hq').
    { destruct (decide (j = i)) as [-> |]; [exists p' | exists q].
      - simplify_eq. rewrite Ho. split; [by eapply insert_lookup_new | done].
      - by rewrite list_lookup_insert_ne. }
    exists j, a, q'. split_and!; [done | done | rewrite (zsum_insert _ _ _ p) by done; lia |].
    intros k q0 [[-> ->] | [? Hk]]%(insert_lookup_inv i k p); [| by apply Hall | done].
    destruct (Hall i p Hi) as [H1 H2]. rewrite Ho, Hs. split; [done |]. intros Hn. rewrite Ht by done. by apply H2.
Qed.
Lemma done_update s s' : (∀ j q, ths !! j = Some q → knows_done q → s = done) → (s = done → s' = done) →
  (knows_done p' → s' = done) → ∀ j q, <[i := p']> ths !! j = Some q → knows_done q → s' = done.
Proof.
  intros Hd Hs Hp j q [[-> ->] | [? Hj]]%(insert_lookup_inv i j p) Hk; [by apply Hp | | done]. by eapply Hs, Hd.
Qed.
End update.

(** A step that does not change the runners *)
Lemma word_inv σ i p p' s' c' : inv σ → threads σ !! i = Some p →
  own p' = own p → (∀ a, in_runner a p' = in_runner a p) → (∀ r, flags p r → flags p' r) → (∀ r, winner p r → winner p' r) →
  (∀ b, target p' = Some b → target p = Some b
     ∨ ∃ j q r, j ≠ i ∧ threads σ !! j = Some q ∧ own q = Some b ∧ runners σ !! b = Some r ∧ winner q r) →
  free_state s' (<[i := p']> (threads σ)) ∨ owned_state s' (<[i := p']> (threads σ)) →
  (m_state σ = done → s' = done) → (knows_done p' → s' = done) →
  Z.of_nat c' = (if decide (s' = done) then 1 else 0) + zsum succeeded (<[i := p']> (threads σ)) →
  inv (State s' (runners σ) (<[i := p']> (threads σ)) c' (returned σ)).
Proof.
  intros [] Hi Ho Hr Hf Hw Ht Hst Hs Hd Hc. constructor; simpl; try done.
  - by rewrite length_insert.
  - eapply own_update; [done | done | | eauto]. intros a Ha. rewrite Ho in Ha.
    destruct (inv_own0 i p a Hi Ha) as (? & ? & r & ? & ?). eauto 6.
  - by eapply unique_update.
  - eapply refs_update; [done | | done]. intros a r Ha. exists r. by rewrite Hr.
  - eapply target_update; [done | done | done |]. intros j q b r Hj Hq Hb Hwq _.
    destruct (decide (j = i)) as [-> |]; [simplify_eq; exists p', r | exists q, r; by rewrite list_lookup_insert_ne].
    rewrite Ho. split_and!; [by eapply insert_lookup_new | done | done | auto].
  - by eapply done_update.
  - intros j Hj. eapply Hs, inv_returned0, Hj.
Qed.
Lemma call_quiet_inv σ i p p' : inv σ → threads σ !! i = Some p →
  (own p', owner p', target p', in_state p', succeeded p') = (own p, owner p, target p, in_state p, succeeded p) →
  (∀ a, in_runner a p' = in_runner a p) → (∀ r, flags p r → flags p' r) → (∀ r, winner p r → winner p' r) →
  (knows_done p' → m_state σ = done) → inv (go i p' σ).
Proof.
  intros Hinv Hi Hv Hr Hf Hw Hd. injection Hv as Ho Hw' Ht Hs Hsu. eapply word_inv; try done.
  - rewrite Ht. auto.
  - eapply state_update; [done.. |]. by apply inv_state.
  - rewrite (zsum_insert _ _ _ p), Hsu, (inv_completed _ Hinv) by done. lia.
Qed.

(** A step that changes a runner [x]: its own one, or the references of another one *)
Lemma runner_inv σ i p p' x r r' : inv σ → threads σ !! i = Some p → runners σ !! x = Some r →
  (own p', owner p', in_state p', succeeded p') = (own p, owner p, in_state p, succeeded p) →
  target p' = target p ∨ target p' = None ∧ in_state p = 0 →
  (∀ a, in_runner a p' - in_runner a p = if decide (a = x) then m_ref_count r' - m_ref_count r else 0) →
  (∀ q, (flags q r → flags q r') ∧ (winner q r → winner q r')) ∧ (∀ r0, flags p r0 → flags p' r0) ∧ (∀ r0, winner p r0 → winner p' r0)
  ∨ own p = Some x ∧ (flags p r → flags p' r') ∧ (winner p r → winner p' r') →
  (knows_done p' → m_state σ = done) → inv (go i p' (set_runners (<[x := r']> (runners σ)) σ)).
Proof.
  intros [] Hi Hx Hv Ht Hr Hf Hd. injection Hv as Ho Hw' Hs Hsu.
  assert (Hq : ∀ j q b r0, threads σ !! j = Some q → own q = Some b → runners σ !! b = Some r0 →
    ∃ q' r0', <[i := p']> (threads σ) !! j = Some q' ∧ own q' = Some b ∧ <[x := r']> (runners σ) !! b = Some r0'
      ∧ (flags q r0 → flags q' r0') ∧ (winner q r0 → winner q' r0')).
  { intros j q b r0 Hj Hq Hb. destruct (decide (j = i)) as [-> | Hne].
    - simplify_eq. exists p'. rewrite Ho. assert (Hp' : <[i := p']> (threads σ) !! i = Some p') by by eapply insert_lookup_new.
      destruct (decide (b = x)) as [-> | Hbx].
      + exists r'. simplify_eq. rewrite lookup_insert_eq. split_and!; try done;
          (destruct Hf as [(H1 & H2 & H3) | (_ & H2 & H3)]; [destruct (H1 p) |]); auto.
      + exists r0. rewrite lookup_insert_ne by done. destruct Hf as [(_ & H2 & H3) | (H1 & _)]; [by split_and!; auto | congruence].
    - exists q. rewrite list_lookup_insert_ne by done. destruct (decide (b = x)) as [-> | Hbx].
      + exists r'. simplify_eq. rewrite lookup_insert_eq. destruct Hf as [(H1 & _) | (H1 & _)]; [by destruct (H1 q); split_and! |].
        destruct Hne. by apply (inv_unique0 j i q p x).
      + exists r0. by rewrite lookup_insert_ne. }
  constructor; simpl; try done.
  - by rewrite length_insert.
  - intros j q b Hj Hqb. assert (∃ q0, threads σ !! j = Some q0 ∧ own q0 = Some b) as (q0 & Hj0 & Hq0).
    { apply (insert_lookup_inv i j p) in Hj as [[-> ->] | [_ Hj]]; [| by exists q | done]. exists p. by rewrite <- Ho. }
    destruct (inv_own0 j q0 b Hj0 Hq0) as (? & ? & r0 & Hb & Hfl). destruct (Hq j q0 b r0) as (q' & r0' & ? & ? & ? & ? & _); try done.
    simplify_eq. eauto 8.
  - by eapply unique_update.
  - eapply refs_update; [done | | done]. intros a r0 Ha. specialize (Hr a). case_decide as Hd'.
    + subst a. rewrite lookup_insert_eq in Ha. simplify_eq. exists r. split; [done | lia].
    + rewrite lookup_insert_ne in Ha by done. exists r0. split; [done | lia].
  - eapply target_update; [done | done | |].
    + intros b Hb. left. destruct Ht as [<- | [Ht _]]; [done | congruence].
    + intros j q b r0 Hj Hqb Hb Hwq _. destruct (Hq j q b r0) as (q' & r0' & ? & ? & ? & _ & ?); try done. eauto 8.
  - eapply state_update; [done | done | done | | done]. intros Hn. destruct Ht as [? | [_ ?]]; done.
  - by eapply done_update.
  - rewrite (zsum_insert _ _ _ p), Hsu by done. lia.
Qed.

(** *** The steps *)
Lemma owner_own p a : owner p = Some a → own p = Some a.
Proof. by destruct p. Qed.
Lemma owned_range σ : inv σ → owned_state (m_state σ) (threads σ) → ∃ i a p, threads σ !! i = Some p ∧ owner p = Some a
  ∧ 128 ≤ a ∧ 0 ≤ zsum in_state (threads σ) < 128 ∧ m_state σ = a + zsum in_state (threads σ) ∧ runner_bits (m_state σ) = a
  ∧ ∀ j q, threads σ !! j = Some q → (owner q ≠ None → j = i) ∧ (in_state q ≠ 0 → target q = Some a).
Proof.
  intros [] (i & a & p & Hi & Ho & Hs & Hall). exists i, a, p.
  destruct (inv_own0 i p a Hi (owner_own p a Ho)) as (? & Hm & _). pose proof (in_state_sum_nonneg (threads σ)).
  pose proof (in_state_lt i p (threads σ) Hi ltac:(by destruct p)).
  split_and!; try done; [| lia | rewrite Hs; apply runner_bits_add; lia]. pose proof (Z.div_mod a 128). lia.
Qed.
Lemma step_new σ i a : inv σ → threads σ !! i = Some Enter → valid_address a σ = true →
  inv (go i (Top a (m_state σ)) (set_runners (<[a := Runner 0 false false]> (runners σ)) σ)).
Proof.
  intros [] Hi Hv. unfold valid_address in Hv. rewrite !andb_true_iff in Hv. destruct Hv as [[Hv1%Z.ltb_lt Hv2%Z.eqb_eq] Hv3%bool_decide_eq_true].
  assert (Hne : ∀ b r, runners σ !! b = Some r → <[a := Runner 0 false false]> (runners σ) !! b = Some r)
    by (intros b r Hb; rewrite lookup_insert_ne; [done | congruence]).
  constructor; simpl; try done.
  - by rewrite length_insert.
  - eapply own_update; [done | done | |].
    + intros b [= <-]. split_and!; try done. eexists. by rewrite lookup_insert_eq.
    + intros j q b r _ _ _ Hb Hf. exists r. auto.
  - assert (Hno : ∀ j q, threads σ !! j = Some q → own q ≠ Some a)
      by (intros j q Hj Hq; destruct (inv_own0 j q a Hj Hq) as (_ & _ & r & ? & _); congruence).
    intros j k q q' b [[-> ->] | [? Hj]]%(insert_lookup_inv i j Enter) [[-> ->] | [? Hk]]%(insert_lookup_inv i k Enter) Hq Hq'; try done.
    + simplify_eq/=. by destruct (Hno k q').
    + simplify_eq/=. by destruct (Hno j q).
    + by eapply inv_unique0.
  - intros b r Hb. rewrite (zsum_insert _ _ _ Enter) by done. destruct (decide (b = a)) as [-> |].
    + rewrite lookup_insert_eq in Hb. simplify_eq/=. rewrite zsum_all_zero; [done |]. apply Forall_forall. intros q (j & Hj)%list_elem_of_lookup.
      destruct (decide (in_runner a q = 0)) as [| Hn]; [done |]. destruct (inv_target0 j q a Hj (in_runner_target a q Hn)) as (? & ? & ? & _ & _ & ? & _). congruence.
    + rewrite lookup_insert_ne in Hb by done. rewrite (inv_refs0 b r Hb). simpl. lia.
  - eapply target_update; [done | done | done |]. intros j q b r Hj Hq Hb Hw _. exists q, r.
    rewrite list_lookup_insert_ne by (intros ->; by simplify_eq). auto.
  - by eapply state_update.
  - by eapply done_update.
  - rewrite (zsum_insert _ _ _ Enter) by done. simpl. lia.
Qed.

Lemma step_win σ i a : inv σ → threads σ !! i = Some (Top a uninitialized) → m_state σ = uninitialized →
  inv (go i (Start a) (set_state a σ)).
Proof.
  intros Hinv Hi Hs. destruct (inv_own _ Hinv i _ a Hi eq_refl) as (Ha & Hm & _).
  destruct (inv_state _ Hinv) as [[_ Hf] | Hst];
    [| destruct (owned_range σ Hinv Hst) as (j & b & q & _ & _ & ? & ? & ? & _); unfold uninitialized in Hs; lia].
  assert (Hz : zsum in_state (<[i := Start a]> (threads σ)) = 0).
  { rewrite (zsum_insert _ _ _ (Top a uninitialized)), zsum_all_zero by
      (done || (apply Forall_forall; intros q (j & Hj)%list_elem_of_lookup; by eapply Hf)). done. }
  apply (word_inv σ i (Top a uninitialized) (Start a)); simpl; try done.
  - right. exists i, a, (Start a). split_and!; [by eapply insert_lookup_new | done | lia |].
    intros j q [[-> ->] | [? Hj]]%(insert_lookup_inv i j (Top a uninitialized)); [done | | done].
    destruct (Hf j q Hj) as [-> ->]. done.
  - rewrite Hs. done.
  - rewrite (zsum_insert _ _ _ (Top a uninitialized)), (inv_completed _ Hinv), Hs by done. simpl.
    assert (a ≠ done) by (unfold done; intros ->; done). rewrite !decide_False by done. lia.
Qed.
Lemma step_ref σ i a e : inv σ → threads σ !! i = Some (TryRef a e) → done < e → m_state σ = e →
  inv (go i (Guard a e) (set_state (e + 1) σ)).
Proof.
  intros Hinv Hi He Hs. unfold done in He.
  destruct (inv_state _ Hinv) as [[[Hf | Hf] _] | Hst]; [unfold uninitialized in *; lia | unfold done in *; lia |].
  destruct (owned_range σ Hinv Hst) as (j & b & q & Hj & Ho & ? & ? & Hse & Hb & Hall). rewrite Hs in Hb.
  assert (Hne : j ≠ i) by (intros ->; by simplify_eq). destruct (inv_own _ Hinv j q b Hj (owner_own q b Ho)) as (_ & _ & r & Hr & _).
  apply (word_inv σ i (TryRef a e) (Guard a e)); simpl; try done.
  - intros b' [= <-]. right. exists j, q, r. rewrite Hb. split_and!; try done; [by apply owner_own | by destruct q].
  - right. exists j, b, q. rewrite (zsum_insert _ _ _ (TryRef a e)) by done. rewrite list_lookup_insert_ne by done.
    split_and!; [done | done | simpl; lia |].
    intros k q' [[-> ->] | [? Hk]]%(insert_lookup_inv i k (TryRef a e)); [| by apply Hall | done]. simpl. by rewrite Hb.
  - rewrite Hs. unfold done. lia.
  - rewrite (zsum_insert _ _ _ (TryRef a e)), (inv_completed _ Hinv), Hs by done. simpl. unfold done. rewrite !decide_False by lia. lia.
Qed.
Lemma step_unref σ i a e : inv σ → threads σ !! i = Some (Unref a e) →
  inv (go i (AwaitReady a e) (set_state (m_state σ - 1) σ)).
Proof.
  intros Hinv Hi. destruct (inv_state _ Hinv) as [[_ Hf] | Hst]; [by destruct (Hf i _ Hi) |].
  destruct (owned_range σ Hinv Hst) as (j & b & q & Hj & Ho & ? & ? & Hse & Hb & Hall).
  assert (Hne : j ≠ i) by (intros ->; by simplify_eq).
  assert (Hs : 1 ≤ zsum in_state (threads σ)).
  { apply (zsum_member in_state (threads σ) (Unref a e)); [| by eapply list_elem_of_lookup_2]. apply Forall_forall. intros. apply in_state_bounds. }
  apply (word_inv σ i (Unref a e) (AwaitReady a e)); simpl; try done.
  - auto.
  - right. exists j, b, q. rewrite (zsum_insert _ _ _ (Unref a e)) by done. rewrite list_lookup_insert_ne by done.
    split_and!; [done | done | simpl; lia |].
    intros k q' [[-> ->] | [? Hk]]%(insert_lookup_inv i k (Unref a e)); [done | by apply Hall | done].
  - unfold done. lia.
  - rewrite (zsum_insert _ _ _ (Unref a e)), (inv_completed _ Hinv) by done. simpl. unfold done. rewrite !decide_False by lia. lia.
Qed.
Lemma step_run σ i a b : inv σ → threads σ !! i = Some (Run a) → inv (go i (AwaitRefs a b) (count_completed b σ)).
Proof.
  intros Hinv Hi. apply (word_inv σ i (Run a) (AwaitRefs a b)); try done.
  - eapply state_update; [done.. | exact (inv_state σ Hinv)].
  - rewrite (zsum_insert _ _ _ (Run a)) by done. pose proof (inv_completed _ Hinv). destruct b; simpl; lia.
Qed.
Lemma step_set σ i a b : inv σ → threads σ !! i = Some (SetState a b) → m_state σ = a →
  inv (go i (Release a b) (set_state (if b then done else uninitialized) σ)).
Proof.
  intros Hinv Hi Hs. destruct (inv_own _ Hinv i _ a Hi eq_refl) as (Ha & Hm & _).
  destruct (inv_state _ Hinv) as [[_ Hf] | Hst]; [by destruct (Hf i _ Hi) |].
  destruct (owned_range σ Hinv Hst) as (j & a' & q & Hj & Ho & Ha' & Hz & Hse & _ & Hall).
  destruct (Hall i _ Hi) as [Hij _]. specialize (Hij ltac:(done)) as <-. simplify_eq/=.
  apply (word_inv σ i (SetState (m_state σ) b) (Release (m_state σ) b)); simpl; try done.
  - left. split; [destruct b; auto |]. intros j q [[-> ->] | [? Hj']]%(insert_lookup_inv i j (SetState (m_state σ) b)); [done | | done].
    destruct (Hall j q Hj') as [H1 _]. split; [destruct (owner q) eqn:?; [by destruct H1 | done] |].
    pose proof (zsum_member in_state (threads σ) q). pose proof (in_state_bounds q).
    assert (in_state q ≤ zsum in_state (threads σ)); [| lia]. apply H0; [| by eapply list_elem_of_lookup_2].
    apply Forall_forall. intros. apply in_state_bounds.
  - intros E. rewrite E in Ha'. unfold done in Ha'. lia.
  - by intros ->.
  - rewrite (zsum_insert _ _ _ (SetState (m_state σ) b)), (inv_completed _ Hinv) by done.
    rewrite (decide_False (P := m_state σ = done)) by (unfold done; lia). destruct b; simpl; lia.
Qed.
Lemma step_destroy σ i a b r : inv σ → threads σ !! i = Some (Destroy a b) → runners σ !! a = Some r → m_ref_count r = 0 →
  inv (add_returned (i, b) (go i Idle (set_runners (delete a (runners σ)) σ))).
Proof.
  intros Hinv Hi Hr Hz. pose proof Hinv as [].
  assert (Hno : ∀ j q c, threads σ !! j = Some q → own q = Some c → j ≠ i → c ≠ a)
    by (intros j q c Hj Hq Hne ->; destruct Hne; by apply (inv_unique0 j i q (Destroy a b) a)).
  assert (Hnt : ∀ j q, threads σ !! j = Some q → target q ≠ Some a).
  { intros j q Hj Ht. pose proof (in_runner_member a j q _ Hj). rewrite <- (inv_refs0 a r Hr), Hz in *.
    destruct (decide (in_state q = 0)) as [Hq | Hq].
    - destruct q; simplify_eq/=; rewrite decide_True in * by done; lia.
    - destruct inv_state0 as [[_ Hf] | Hst]; [by destruct (Hf j q Hj) |].
      destruct (owned_range σ Hinv Hst) as (k & a' & q' & Hk & Ho & _ & _ & _ & _ & Hall). destruct (Hall j q Hj) as [_ Ht'].
      rewrite Ht' in Ht by done. simplify_eq. apply (Hno k q' a); [done | by apply owner_own | | done]. intros ->. by simplify_eq. }
  constructor; simpl; try done.
  - by rewrite length_insert.
  - eapply own_update; [done | done | done |]. intros j q c r0 Hne Hj Hq Hc Hf. exists r0. rewrite lookup_delete_ne; [done |].
    by apply not_eq_sym, (Hno j q).
  - intros j k q q' c [[-> ->] | [? Hj]]%(insert_lookup_inv i j (Destroy a b)) [[-> ->] | [? Hk]]%(insert_lookup_inv i k (Destroy a b)) Hq Hq'; try done.
    by eapply inv_unique0.
  - eapply refs_update; [done | | done]. intros c r0 [_ Hc]%lookup_delete_Some. by exists r0.
  - eapply target_update; [done | done | done |]. intros j q c r0 Hj Hq Hc Hw (k & q' & [(? & Hk & Ht) | Ht]); [| done].
    assert (c ≠ a) by (intros ->; by eapply Hnt). exists q, r0. rewrite lookup_delete_ne by done.
    rewrite list_lookup_insert_ne; [done |]. intros ->. by simplify_eq/=.
  - by eapply state_update.
  - by eapply done_update.
  - rewrite (zsum_insert _ _ _ (Destroy a b)) by done. simpl. lia.
  - intros j [Hj | [= <- <-]%list_elem_of_singleton]%elem_of_app; [by eapply inv_returned0 | by eapply inv_done0].
Qed.

Lemma call_next_inv c i σ σ' : inv σ → next c i σ = Some σ' → inv σ'.
Proof.
  intros Hinv Hn. unfold next in Hn. destruct (threads σ !! i) as [p |] eqn:Hi; simpl in Hn; [| done].
  pose proof (inv_done _ Hinv i p Hi) as Hd.
  destruct p as [| | a e | a e | a e | a e | a e | a e | a e | a e | a e | a | a | a b | a b | a b | a b].
  - destruct (Z.eqb_spec (m_state σ) done) as [Hs | Hs]; simplify_eq; [| by apply (call_quiet_inv σ i Idle)].
    pose proof Hinv as []. constructor; simpl; try done.
  - destruct (valid_address _ _) eqn:Hv; simplify_eq. by apply step_new.
  - destruct (Z.eqb_spec e uninitialized) as [-> | He]; [destruct (Z.eqb_spec (m_state σ) uninitialized) as [Hs | Hs] |]; simplify_eq.
    + by apply step_win.
    + by apply (call_quiet_inv σ i (Top a uninitialized)).
    + by apply (call_quiet_inv σ i (Top a e)).
  - case_match; simplify_eq; [done |]. by apply (call_quiet_inv σ i (Wait a e)).
  - destruct (Z.ltb_spec done e) as [He | He]; [destruct (Z.eqb_spec (m_state σ) e) as [Hs | Hs] |]; simplify_eq.
    + by apply step_ref.
    + by apply (call_quiet_inv σ i (TryRef a e)).
    + by apply (call_quiet_inv σ i (TryRef a e)).
  - unfold add_ref in Hn. destruct (runners σ !! runner_bits e) as [r |] eqn:Hr; simplify_eq/=.
    apply (runner_inv σ i (Guard a e) (Unref a e) (runner_bits e) r); try done; [by left | | by left].
    intros b. simpl. repeat case_decide; try lia; congruence.
  - simplify_eq. by apply step_unref.
  - destruct (runners σ !! runner_bits e) as [r |]; simplify_eq/=. case_match; [| done]. by apply (call_quiet_inv σ i (AwaitReady a e)).
  - destruct (runners σ !! runner_bits e) as [r |]; simplify_eq/=. case_match; [| done]. by apply (call_quiet_inv σ i (Assist a e)).
  - unfold add_ref in Hn. destruct (runners σ !! runner_bits e) as [r |] eqn:Hr; simplify_eq/=.
    assert (e ≠ done) as He.
    { intros ->. destruct (inv_target _ Hinv i _ _ Hi eq_refl) as (j & q & r' & Hj & Hq & _). destruct (inv_own _ Hinv j q _ Hj Hq) as [Hpos _]. done. }
    apply (runner_inv σ i (Leave a e) (Test a e) (runner_bits e) r); try done; [by right | | by left].
    intros b. simpl. repeat case_decide; try lia; congruence.
  - simplify_eq. destruct (Z.eqb_spec e done) as [-> | He].
    + apply (call_quiet_inv σ i (Test a done)); try done; [by intros r [? Hf]; simpl; rewrite Hf | intros _; by apply Hd].
    + by apply (call_quiet_inv σ i (Test a e)).
  - destruct (runners σ !! a) as [r |] eqn:Hr; simpl in Hn; [| done]. case_match; simplify_eq.
    apply (runner_inv σ i (Start a) (Run a) a r); try done; [by left | | by right].
    intros b. simpl. case_decide; lia.
  - simplify_eq. by apply step_run.
  - destruct (Z.eqb_spec (m_state σ) a); simplify_eq; [| done]. by apply (call_quiet_inv σ i (AwaitRefs (m_state σ) b)).
  - destruct (Z.eqb_spec (m_state σ) a); simplify_eq; [by apply step_set |]. by apply (call_quiet_inv σ i (SetState a b)).
  - destruct (runners σ !! a) as [r |] eqn:Hr; simplify_eq/=.
    apply (runner_inv σ i (Release a b) (Destroy a b) a r); try done; [by left | | right; by split_and!; simpl; auto].
    intros b'. simpl. case_decide; lia.
  - destruct (runners σ !! a) as [r |] eqn:Hr; simplify_eq/=. destruct (Z.eqb_spec (m_ref_count r) 0); [| done]. by eapply step_destroy.
Qed.
Lemma call_start_inv n : (n ≤ 128)%nat → inv (start n).
Proof.
  intros Hn. assert (Hth : ∀ i p, replicate n Idle !! i = Some p → p = Idle) by (by intros i p [-> _]%lookup_replicate).
  constructor; simpl; try done.
  - by rewrite length_replicate.
  - intros i p a ->%Hth. done.
  - intros i j p q a ->%Hth _. done.
  - intros i p b ->%Hth. done.
  - left. split; [by left |]. intros i p ->%Hth. done.
  - intros i p ->%Hth. done.
  - rewrite zsum_replicate. simpl. lia.
  - intros i Hi. inversion Hi.
Qed.
Lemma call_reach_inv n σ : (n ≤ 128)%nat → rtc step (start n) σ → inv σ.
Proof.
  intros Hn Hr. pose proof (call_start_inv n Hn) as Hi. revert Hi.
  induction Hr as [| σ1 σ2 σ3 [c i s s' Hs] Hr IH]; [done |]. intros Hi. apply IH. by eapply call_next_inv.
Qed.

(** *** The theorems *)
Lemma succeeded_owner p : owner p = None → succeeded p = 0.
Proof. by destruct p. Qed.
(** Only the thread whose runner is in [m_state] can have called the function. *)
Lemma owned_succeeded σ i p a : inv σ → threads σ !! i = Some p → owner p = Some a →
  m_state σ ≠ done ∧ Z.of_nat (completed σ) = succeeded p ∧ ∀ j q, threads σ !! j = Some q → owner q ≠ None → j = i.
Proof.
  intros Hinv Hi Ho. destruct (inv_state _ Hinv) as [[_ Hf] | Hst]; [destruct (Hf i p Hi); congruence |].
  destruct (owned_range σ Hinv Hst) as (k & a' & q & _ & _ & ? & ? & Hs & _ & Hall).
  assert (Hu : ∀ j q, threads σ !! j = Some q → owner q ≠ None → j = i).
  { intros j q' Hj Hq'. destruct (Hall j q' Hj) as [-> _]; [| done]. destruct (Hall i p Hi) as [-> _]; [done | congruence]. }
  assert (m_state σ ≠ done) by (unfold done; lia). split_and!; [done | | done].
  rewrite (inv_completed _ Hinv), decide_False by done. pose proof (zsum_insert succeeded (threads σ) i p Idle Hi) as Hz.
  rewrite zsum_all_zero in Hz; [simpl in Hz; lia |]. apply Forall_forall. intros q' (j & Hj)%list_elem_of_lookup.
  apply (insert_lookup_inv i j p) in Hj as [[-> ->] | [Hne Hj]]; [done | | done].
  apply succeeded_owner. destruct (owner q') eqn:Hq'; [| done]. destruct Hne. apply (Hu j q'); [done | congruence].
Qed.
Lemma completed_done σ : inv σ → m_state σ = done → completed σ = 1%nat.
Proof.
  intros Hinv Hs. pose proof (inv_completed _ Hinv) as Hc. rewrite decide_True in Hc by done.
  rewrite zsum_all_zero in Hc; [lia |]. apply Forall_forall. intros q (j & Hj)%list_elem_of_lookup. apply succeeded_owner.
  destruct (owner q) as [a |] eqn:Hq; [| done]. by destruct (owned_succeeded σ j q a Hinv Hj Hq).
Qed.

(** C18: the function is called once.  With at most 128 threads, two threads are never in
    the function at the same time; the function returns normally at most once, and when
    it has, no thread starts it again; a call of collaborative_call_once returns
    normally only after the function has, and then the flag is done for good. *)
Theorem call_once_exactly_once n σ : (n ≤ 128)%nat → rtc step (start n) σ →
  (completed σ ≤ 1)%nat
  ∧ (∀ i j a b, threads σ !! i = Some (Run a) → threads σ !! j = Some (Run b) → i = j)
  ∧ (∀ i p a, threads σ !! i = Some p → p = Start a ∨ p = Run a → completed σ = 0%nat)
  ∧ (∀ i, (i, true) ∈ returned σ → completed σ = 1%nat ∧ m_state σ = done).
Proof.
  intros Hn Hr%call_reach_inv; [| done]. split_and!.
  - destruct (inv_state _ Hr) as [[_ Hf] | (i & a & p & Hi & Ho & _)].
    + pose proof (inv_completed _ Hr) as Hc. rewrite zsum_all_zero in Hc; [case_decide; lia |].
      apply Forall_forall. intros q (j & Hj)%list_elem_of_lookup. by eapply succeeded_owner, Hf.
    + destruct (owned_succeeded σ i p a Hr Hi Ho) as (_ & Hc & _). pose proof (succeeded_bounds p). lia.
  - intros i j a b Hi Hj. destruct (owned_succeeded σ j _ b Hr Hj eq_refl) as (_ & _ & Hu). by eapply Hu.
  - intros i p a Hi Hp. destruct (owned_succeeded σ i p a Hr Hi ltac:(by destruct Hp as [-> | ->])) as (_ & Hc & _).
    destruct Hp as [-> | ->]; simpl in Hc; lia.
  - intros i Hi. pose proof (inv_returned _ Hr i Hi). split; [by apply completed_done | done].
Qed.

Lemma target_alive σ i p b : inv σ → threads σ !! i = Some p → target p = Some b → ∃ r, runners σ !! b = Some r.
Proof. intros Hinv Hi Ht. destruct (inv_target _ Hinv i p b Hi Ht) as (_ & _ & r & _ & _ & ? & _). by exists r. Qed.
Lemma call_next_total σ i p c : inv σ → threads σ !! i = Some p → (p = Enter → valid_address (address c) σ = true) → is_Some (next c i σ).
Proof.
  intros Hinv Hi Hc. unfold next. rewrite Hi. simpl. pose proof (λ b, target_alive σ i p b Hinv Hi) as Ht.
  pose proof (λ a, inv_own _ Hinv i p a Hi) as Ho.
  destruct p as [| | a e | a e | a e | a e | a e | a e | a e | a e | a e | a | a | a b | a b | a b | a b]; try done.
  - by rewrite Hc.
  - destruct (Ht _ eq_refl) as [r Hr]. unfold add_ref. by rewrite Hr.
  - by destruct (Ht _ eq_refl) as [r ->].
  - by destruct (Ht _ eq_refl) as [r ->].
  - destruct (Ht _ eq_refl) as [r Hr]. unfold add_ref. by rewrite Hr.
  - destruct (Ho a eq_refl) as (_ & _ & r & -> & Hf & _). simpl. by rewrite Hf.
  - by destruct (Ho a eq_refl) as (_ & _ & r & -> & _).
  - by destruct (Ho a eq_refl) as (_ & _ & r & -> & _).
Qed.

(** C19: no runner is used after its end.  With at most 128 threads, the next step of each
    thread is defined: the runner that it uses, on the stack of another thread, exists,
    and the arena of a runner is initialized once.  The references in [m_state] and in
    [m_ref_count] are those of the threads. *)
Theorem call_once_safe n σ i p c : (n ≤ 128)%nat → rtc step (start n) σ → threads σ !! i = Some p →
  (p = Enter → valid_address (address c) σ = true) →
  is_Some (next c i σ) ∧ ∀ a r, runners σ !! a = Some r → m_ref_count r = zsum (in_runner a) (threads σ).
Proof. intros Hn Hr%call_reach_inv Hi Hc; [| done]. split; [by eapply call_next_total | apply (inv_refs _ Hr)]. Qed.

(** *** Progress *)
Definition can_move σ (j : nat) : Prop := ∃ q c σ', threads σ !! j = Some q ∧ q ≠ Idle ∧ next c j σ = Some σ' ∧ threads σ' !! j ≠ Some q.

Lemma fresh_address σ : ∃ a, valid_address a σ = true.
Proof.
  set (X := set_map (λ z, Z.to_nat (z / 128 - 1)) (dom (runners σ)) : gset nat). set (k := fresh X).
  exists (128 * (Z.of_nat k + 1)). unfold valid_address, collaborative_once_max_references.
  rewrite !andb_true_iff, Z.ltb_lt, Z.eqb_eq, bool_decide_eq_true. split_and!; [lia | rewrite Z.mul_comm; by apply Z.mod_mul |].
  apply not_elem_of_dom. intros Hd. apply (is_fresh X). fold k. apply elem_of_map. eexists. split; [| exact Hd].
  rewrite Z.mul_comm, Z.div_mul by done. lia.
Qed.
Lemma place_changed i p p' ths : ths !! i = Some p → p' ≠ p → <[i := p']> ths !! i ≠ Some p.
Proof. intros Hi Hne. rewrite (insert_lookup_new i p) by done. congruence. Qed.
(** The places where a thread does not wait *)
Definition waits p : bool := match p with Idle | Wait _ _ | AwaitReady _ _ | Assist _ _ | AwaitRefs _ _ | Destroy _ _ => true | _ => false end.
Lemma busy_moves σ i p : inv σ → threads σ !! i = Some p → waits p = false → can_move σ i.
Proof.
  intros Hinv Hi Hw. destruct (fresh_address σ) as [a0 Ha0]. destruct (call_next_total σ i p (Choice a0 true) Hinv Hi (λ _, Ha0)) as [σ' Hn].
  exists p, (Choice a0 true), σ'. split_and!; [done | by intros -> | done |]. unfold next in Hn. rewrite Hi in Hn. simpl in Hn.
  destruct p as [| | a e | a e | a e | a e | a e | a e | a e | a e | a e | a | a | a b | a b | a b | a b]; try done; unfold add_ref in Hn;
    repeat case_match; simplify_eq/=; try (by apply (place_changed _ _ _ _ Hi));
    (destruct (runners σ !! _) as [r |]; simplify_eq/=; repeat case_match; simplify_eq/=; by apply (place_changed _ _ _ _ Hi)).
Qed.
Lemma counted_moves σ : inv σ → 0 < zsum in_state (threads σ) → ∃ j, can_move σ j.
Proof.
  intros Hinv (q & (j & Hj)%list_elem_of_lookup & Hq)%zsum_pos. exists j. eapply busy_moves; [done | done |]. by destruct q.
Qed.
Lemma owner_moves σ i p a : inv σ → threads σ !! i = Some p → owner p = Some a → ∃ j, can_move σ j.
Proof.
  intros Hinv Hi Ho. destruct (waits p) eqn:Hw; [| exists i; by eapply busy_moves]. destruct p as [| | | | | | | | | | | | |a' b| | |]; simplify_eq/=.
  destruct (inv_state _ Hinv) as [[_ Hf] | Hst]; [by destruct (Hf i _ Hi) |].
  destruct (owned_range σ Hinv Hst) as (k & a' & q & Hk & Hq & ? & ? & Hs & _ & Hall).
  destruct (Hall i _ Hi) as [Hik _]. specialize (Hik ltac:(done)) as <-. simplify_eq/=.
  destruct (decide (zsum in_state (threads σ) = 0)) as [Hz |]; [| apply counted_moves; [done | lia]].
  exists i. exists (AwaitRefs a' b), (Choice 0 true), (go i (SetState a' b) σ). unfold next. rewrite Hi. simpl. rewrite Hs, Hz, Z.add_0_r, Z.eqb_refl.
  split_and!; try done. by apply (place_changed _ _ _ _ Hi).
Qed.
(** A thread that has a reference waits for the winner only, which does not wait for it. *)
Lemma target_moves σ i p b : inv σ → threads σ !! i = Some p → target p = Some b → ∃ j, can_move σ j.
Proof.
  intros Hinv Hi Ht. destruct (waits p) eqn:Hw; [| exists i; by eapply busy_moves].
  destruct (inv_target _ Hinv i p b Hi Ht) as (k & q & r & Hk & Hq & Hr & Hwin).
  destruct (inv_own _ Hinv k q b Hk Hq) as (_ & _ & r' & Hr' & Hf). simplify_eq.
  destruct (owner q) as [a |] eqn:Ho; [by eapply owner_moves |].
  destruct q as [| | | | | | | | | | | | | | |a c|a c]; try done; [exists k; by eapply busy_moves |]. simpl in Hf, Hwin. specialize (Hf Hwin).
  destruct p as [| | | | | | |a' e|a' e| | | | | | | |]; simplify_eq/=; exists i.
  - exists (AwaitReady a' e), (Choice 0 true), (go i (Assist a' e) σ). unfold next. rewrite Hi. simpl. rewrite Hr. simpl. rewrite Hf.
    split_and!; try done. by apply (place_changed _ _ _ _ Hi).
  - exists (Assist a' e), (Choice 0 true), (go i (Leave a' e) σ). unfold next. rewrite Hi. simpl. rewrite Hr. simpl. rewrite Hwin.
    split_and!; try done. by apply (place_changed _ _ _ _ Hi).
Qed.
(** A thread that waits for references to be given back *)
Lemma wait_moves σ i a e : inv σ → threads σ !! i = Some (Wait a e) → ∃ j, can_move σ j.
Proof.
  intros Hinv Hi. destruct (Z.eqb_spec (m_state σ) (Z.lor e collaborative_once_references_mask)) as [Hs | Hs].
  - assert (Hb : Z.testbit (m_state σ) 0 = true ∧ Z.testbit (m_state σ) 1 = true) by (rewrite Hs, !Z.lor_spec, !orb_true_iff; split; by right).
    destruct (inv_state _ Hinv) as [[[E | E] _] | Hst]; [rewrite E in Hb; by destruct Hb | rewrite E in Hb; by destruct Hb |].
    destruct (owned_range σ Hinv Hst) as (k & b & q & Hk & Hq & ? & ? & Hse & _). apply counted_moves; [done |].
    destruct (decide (zsum in_state (threads σ) = 0)) as [Hz |]; [| lia]. destruct (inv_own _ Hinv k q b Hk (owner_own q b Hq)) as (_ & Hm & _).
    destruct Hb as [Hb _]. rewrite Hse, Hz, Z.add_0_r, Z.bit0_odd, (Z.div_mod b 128), Hm, Z.add_0_r, Z.odd_mul in Hb by done. done.
  - exists i, (Wait a e), (Choice 0 true), (go i (TryRef a (m_state σ)) σ). unfold next. rewrite Hi. cbn [mbind option_bind].
    destruct (Z.eqb_spec (m_state σ) (Z.lor e collaborative_once_references_mask)); [done |].
    split_and!; try done. by apply (place_changed _ _ _ _ Hi).
Qed.
Lemma destroy_moves σ i a b : inv σ → threads σ !! i = Some (Destroy a b) → ∃ j, can_move σ j.
Proof.
  intros Hinv Hi. destruct (inv_own _ Hinv i _ a Hi eq_refl) as (_ & _ & r & Hr & _). pose proof (inv_refs _ Hinv a r Hr) as Hc.
  pose proof (in_runner_sum_nonneg a (threads σ)). destruct (decide (m_ref_count r = 0)) as [Hz | Hz].
  - exists i, (Destroy a b), (Choice 0 true). eexists. unfold next. rewrite Hi. simpl. rewrite Hr. simpl. rewrite Hz.
    split_and!; try done. by apply (place_changed _ _ _ _ Hi).
  - destruct (zsum_pos (in_runner a) (threads σ)) as (q & (j & Hj)%list_elem_of_lookup & Hq); [lia |].
    apply (target_moves σ j q a Hinv Hj), in_runner_target. lia.
Qed.

(** C30: no deadlock.  With at most 128 threads, whenever a call is in progress some thread
    can go to another place: the winner, who waits until nobody is about to use its
    runner and until nobody uses it, and the other threads, who wait for the winner,
    never wait for each other. *)
Theorem call_once_no_deadlock n σ i p : (n ≤ 128)%nat → rtc step (start n) σ → threads σ !! i = Some p → p ≠ Idle →
  ∃ j, can_move σ j.
Proof.
  intros Hn Hr%call_reach_inv Hi Hp; [| done]. destruct (waits p) eqn:Hw; [| exists i; by eapply busy_moves].
  destruct p; try done; [by eapply wait_moves | by eapply target_moves | by eapply target_moves | by eapply owner_moves | by eapply destroy_moves].
Qed.

End CallOnce.

(** ** Examples *)
Module CallOnceExamples.
Import CallOnce.
Definition act (x : choice * nat) σ : option state := next x.1 x.2 σ.
(** The thread [i] makes [k] steps; its runner has the number [a], and the function ends
    as [b] says. *)
Definition does (k i : nat) (a : Z) (b : bool) : list (choice * nat) := replicate k (Choice (128 * a) b, i).
Definition state_of (n : nat) (l : list (choice * nat)) : state := default (start 0) (run_trace act l (start n)).
Lemma call_run_reach n l : run_trace act l (start n) = Some (state_of n l) → rtc step (start n) (state_of n l).
Proof. apply run_trace_rtc. intros [c i] s s'. apply step_thread. Qed.

(** Thread 0 wins and runs the function, thread 1 assists; both return. *)
Definition assisted : list (choice * nat) :=
  does 4 0 1 true ++ does 7 1 2 true ++ does 4 0 1 true ++ does 9 1 2 true ++ does 1 0 1 true.
Lemma call_once_exactly_once_witness :
  returned (state_of 2 assisted) = [(1%nat, true); (0%nat, true)] ∧ completed (state_of 2 assisted) = 1%nat.
Proof.
  split; [vm_compute; reflexivity |].
  destruct (call_once_exactly_once 2 (state_of 2 assisted) ltac:(lia) (call_run_reach 2 assisted ltac:(vm_compute; reflexivity))) as (_ & _ & _ & Hr).
  exact (proj1 (Hr 1%nat ltac:(vm_compute; left))).
Defined.
(** Thread 1 is in [assist] while the function runs. *)
Definition assisting : list (choice * nat) := does 4 0 1 true ++ does 8 1 2 true.
Lemma call_once_safe_witness : threads (state_of 2 assisting) = [Run 128; Assist 256 128] ∧ is_Some (next (Choice 0 true) 1 (state_of 2 assisting)).
Proof.
  split; [vm_compute; reflexivity |].
  exact (proj1 (call_once_safe 2 (state_of 2 assisting) 1 (Assist 256 128) (Choice 0 true) ltac:(lia)
    (call_run_reach 2 assisting ltac:(vm_compute; reflexivity)) ltac:(vm_compute; reflexivity) ltac:(discriminate))).
Defined.
Lemma call_once_no_deadlock_witness : ∃ j, can_move (state_of 2 assisting) j.
Proof.
  exact (call_once_no_deadlock 2 (state_of 2 assisting) 1 (Assist 256 128) ltac:(lia)
    (call_run_reach 2 assisting ltac:(vm_compute; reflexivity)) ltac:(vm_compute; reflexivity) ltac:(discriminate)).
Defined.

(** Thread 1 loads the state while thread 0 is the winner, whose function throws; thread 2
    wins, and 127 threads take a reference to its runner. *)
Definition overflow : list (choice * nat) :=
  does 4 0 1 false ++ does 2 1 2 true ++ does 5 0 1 false ++ does 3 2 3 true
  ++ (0%nat :: seq 3 126) ≫= (λ i, does 5 i (10 + Z.of_nat i) true).
(** C36: the references overflow.  With 130 threads the references can exceed
    [collaborative_once_references_mask], although the loop in
    [do_collaborative_call_once] is meant to exclude it: a thread whose value of the
    state is that of a winner whose function threw waits for the wrong maximum and
    adds a reference to a full word.  The next thread takes the carry for the address
    of a runner, which does not exist, and its next step is an access to it. *)
Theorem call_once_reference_overflow : ∃ σ, rtc step (start 130) σ ∧ m_state σ = 128 * 3 + collaborative_once_references_mask + 2
  ∧ ∃ a e, threads σ !! 129%nat = Some (Guard a e) ∧ runner_bits e ≠ 128 * 3 ∧ runners σ !! runner_bits e = None
  ∧ ∀ c, next c 129 σ = None.
Proof.
  set (l := overflow ++ does 3 1 2 true ++ does 5 129 500 true).
  exists (state_of 130 l). split; [apply call_run_reach; vm_compute; reflexivity |].
  split; [vm_compute; reflexivity |]. exists (128 * 500), (128 * 3 + 128).
  assert (Ht : threads (state_of 130 l) !! 129%nat = Some (Guard (128 * 500) (128 * 3 + 128))) by (vm_compute; reflexivity).
  assert (Hr : runners (state_of 130 l) !! runner_bits (128 * 3 + 128) = None) by (vm_compute; reflexivity).
  split; [exact Ht |]. split; [vm_compute; discriminate |]. split; [exact Hr |].
  intros c. revert Ht Hr. generalize (state_of 130 l). intros σ Ht Hr. unfold next, add_ref. rewrite Ht. cbn [mbind option_bind]. by rewrite Hr.
Qed.
End CallOnceExamples.
